(* ===== verification/_CoqProject ===== *)
-Q . S2P
Prelude.v
RaftState.v
RaftVote.v
RaftSnapshot.v
RaftReplicate.v
RaftApply.v
RaftCluster.v
RaftWf.v
RaftLog.v
RaftRun.v
RaftSafe.v
RaftSafeStep.v
RaftSafety.v
KvServer.v
KvNotify.v
KvClerk.v
ShardConfig.v
ShardLeave.v
ShardJoin.v
ShardRebalance.v
ShardMaster.v
ShardKv.v
ShardMigrate.v
ShardClerk.v
MrMaster.v
MrWorker.v
MrSystem.v
MrApps.v
PorcBitset.v
PorcModel.v
PorcList.v
PorcOrder.v
PorcEvents.v
PorcCheck.v
PorcKv.v
PorcSearch.v
PorcParallel.v
PorcVisual.v
KvSystem.v
KvRun.v
KvLinear.v
KvRaft.v
KvRaftRun.v
KvRaftLinear.v
LabRpc.v
LabGob.v
HarnessNet.v
RaftHarness.v
HarnessRoute.v
HarnessChecks.v
ServiceHarness.v
KvHarness.v
ShardMasterHarness.v
ServiceRoute.v
ShardKvHarness.v
ShardKvRoute.v
