(* ===== verification/Prelude.v ===== *)
(** * Verification of a Raft-based replicated and sharded key/value store

    The program is the Go code under [src/6.824/src]: the Raft library ([raft/]), a
    key/value service replicated with it ([kvraft/]), a configuration service that
    assigns shards to groups of servers ([shardmaster/]), a sharded key/value service
    made of such groups ([shardkv/]), a MapReduce framework ([mr/], with
    [main/mrsequential.go] and the applications of [mrapps/]), and what the services are
    tested with: the linearizability checker ([porcupine/], [models/]) and the harness of
    each library ([config.go] in each directory).  The processes talk through the simulated
    network of [labrpc/], which encodes with the wrapper of [labgob/].

    ** How the code is modelled

    A Go struct is a record and a method a function on it; a critical section, or a
    handler that holds the lock throughout, is one function, and code that releases the
    lock in the middle is one function per critical section.  [option] is the effect of
    fallible code: [None] is a panic, an [os.Exit] or a [log.Fatal].  A Go [int] is a [Z];
    no [int] of the program comes near 64 bits except by its inputs, and only the 32-bit
    hash of [mr] wraps.  Slices are lists with checked access ([l.[i]], [slice_set],
    [slice_from], [slice_upto]); maps are [gmap]s; a nil slice, map or pointer is an
    [option] where the code tells it apart.  What another process or the scheduler
    decides is an argument (the replies of RPCs, the states a polling loop reads, which
    arm of a [select] fires), so that a theorem that holds for all arguments holds for
    all of them; a loop that may go on for ever runs over a list of such rounds and says
    whether it finished.  Interleavings that matter are step relations.

    Parameters are the things that are not under [src]: the gob encoding ([GobCodec], a
    codec that reads back the values written, in order), the draws of [math/rand]
    ([GoRand]), the order in which [range] visits a map ([ShardConfig.MapOrder], any
    permutation for each range statement), the order [sort.Sort] gives to equal keys
    ([MrWorker.KeySort], [PorcModel.TimeSort], [PorcVisual.LengthSort]), the tables of [unicode.IsLetter] and
    [unicode.IsUpper] ([MrWorker.UnicodeLetters], [LabGob.UnicodeUpper]), what reflection
    sees of types and methods, and in [LabRpc] the handlers.  The harnesses take the random
    names of ends, the services reflection makes of a server, and the states in which their
    checks find the servers.
    Each has a concrete instance that the witnesses use.  Logging, sleeping and wall-clock
    timing are left out; a timer is its pending duration.

    ** The files

    - [Prelude]: record update, Go slices, the codec and random-number interfaces,
      quorums, tactics.
    - [RaftState] ([raft.go], [common.go], [persister.go], [state.go]): the peer's record,
      timers, persister, [changeRole], [Start], [Make].  A restart restores what was
      persisted; [Start] appends, persists and wakes the senders.
    - [RaftVote] ([raft.go]): [RequestVote], [SendRequest], [Election], and the rules
      [RequestVote] obeys.
    - [RaftSnapshot] ([snapshot.go]): compaction and [InstallSnapshot].
    - [RaftReplicate] ([append_entries.go]): both sides of [AppendEntries] and
      [LeaderCommit].  Accepted entries make the follower's log the leader's from the
      previous index on; commit indices stay in bounds and do what a majority recorded; the
      handler never panics.
    - [RaftApply] ([raft.go]): [Apply] and one turn of each goroutine of [Periodic].
      Committed entries are delivered in order and once.
    - [RaftCluster]: the peers with a network that loses, delays and reorders messages, and
      repeats all but the votes' calls, crashes and restarts.  Election safety: one leader per term, for whole executions;
      a vote is final.
    - [RaftWf]: well-formedness of every reachable peer, hence no panic in its handlers.
    - [RaftLog]: the cluster with the [AppendEntries] traffic its leaders send, for peers
      that have compacted nothing.  Log matching, and leaders only append.  [RaftRun]
      evaluates executions of it: in two of them peers commit different commands at one
      index, once by counting a peer that confirmed nothing, once by a vote of an older term.
    - [RaftSafe]: the cluster of [RaftLog] with a record of the answers to [AppendEntries];
      its leaders commit as the paper asks (entries of their own term, confirmed by those they
      count) and first votes compare logs, which are the three points where the code does
      less.  Its invariant, and leader completeness by the meeting of quorums.
      [RaftSafeStep] and [RaftSafety]: every step keeps the invariant; so no two peers ever
      deliver different commands at an index, and nothing else can break that while no peer
      compacts its log.
    - [KvServer] ([kvraft/server.go], [common.go]): the server refines a map on which each
      write executes once; retries change nothing; a restart from a snapshot loses
      nothing.
    - [KvNotify]: the apply goroutine and a waiting handler, step by step; the only way to
      hang is one deadlock, and it is reachable.
    - [KvClerk] ([kvraft/client.go]): the retry loops; a call takes effect once;
      [FindLeader] ends with the newest claim.
    - [KvSystem]: clerks, servers and handlers around one replicated log, with crashes,
      restarts and snapshots, under every interleaving; what is true in every reachable
      state.  [KvRun] evaluates interleavings.  [KvLinear]: the calls' history is
      linearizable unless a late copy of a write is logged after the client's next one,
      and then it need not be; so the tests' checker accepts it.  Raft is one ideal log
      here, delivered to every server in order.
    - [KvRaft]: the same clerks and servers on the peers of [RaftSafe]: handlers call
      [Start], and what a server applies comes from its own peer's [Apply], message by
      message.  Every execution is one of [KvSystem] with the same calls and replies.
      [KvRaftRun] evaluates a write on three servers, from the election on.
      [KvRaftLinear]: so the service is linearizable on Raft itself, without an assumption
      on the log when no request is delivered after its clerk has gone on, for then every
      log has the calls of a client in their order.
    - [ShardConfig] ([shardmaster/server.go], [common.go]): configurations and
      [adjustConfig], loop by loop.  [ShardLeave] and [ShardJoin] hold the invariants of
      its two branches, [ShardRebalance] the theorems: joining balances and moves shards
      only to new groups; leaving keeps the shards of the groups that stay, balances when
      there is room, and orphans shards when there is none; replicas may disagree.
    - [ShardMaster] ([shardmaster/server.go], [client.go]): the history of configurations,
      the handlers and their gate, the clerk.
    - [ShardKv] ([shardkv/server.go], [waitApply.go], [common.go]): what applying an
      operation does, who may serve a shard, configurations never going back, and what a
      restart forgets.  Handlers take what the server's other goroutines do between their
      critical sections as an argument.  [ShardMigrate] ([migration.go], [server.go]), in the
      same way: [migrationToPeer] and [FindConfig]; a hand-over brings the receiver what the
      sender had when the request was encoded.
    - [ShardClerk] ([shardkv/client.go]): requests go to the group that owns the key.
    - [MrMaster] ([mr/master.go] and its types): the phases under every interleaving of the
      handlers' and [schedule]'s critical sections.
    - [MrWorker] ([mr/worker.go], [main/mrsequential.go], [mrapps/]): map and reduce tasks
      on a directory; a distributed run prints the lines of the sequential program.
    - [MrSystem]: master, workers and files under every interleaving, with workers that die
      in the middle of a file.  While no two living workers have the same task, a finished
      job has the sequential program's output; a slow worker whose task was given away can
      spoil it.
    - [MrApps] ([mrapps/crash.go], [mtiming.go], [rtiming.go]): the applications that crash
      and that count the workers at work through files; with dead workers' files in the way
      and others dying while they are probed, the count is exact up to those that died.
      Process ids are not used again after a death.
    - [PorcBitset] ([porcupine/bitset.go]): bit sets over 64-bit words; they are sets of
      positions below their size.
    - [PorcModel] ([porcupine/model.go], the entries of [checker.go]): operations, events,
      models and entries, and what linearizable means.  [PorcEvents]: events of any ids
      become the same entries as operations.
    - [PorcList] ([checker.go]): the doubly linked list of entries over a store of nodes;
      [unlift] undoes [lift] exactly.
    - [PorcOrder]: partial linearizations, and the recursion the search follows.
    - [PorcCheck] ([checker.go]): [checkSingle], turn by turn.  [PorcSearch]: it returns, and
      answers whether the history is linearizable; what it records begins linearizations.
    - [PorcKv] ([models/kv.go]): the key/value model; a history is linearizable when each
      key's part is.
    - [PorcParallel] ([checker.go], [porcupine.go]): one search per part, the [select] loop
      and the exported functions.  For key/value histories the answer of [CheckOperations]
      is right whatever order the parts finish in, if no operation returns at the very time
      another is called.
    - [PorcVisual] ([visualization.go]): the data of the page that shows a history: what it
      shows are the linearizations the search recorded, and for each operation the
      longest that holds it.
    - [LabRpc] ([labrpc/labrpc.go]): the network's tables, dispatch, and every interleaving
      of requests, handlers and changes to the network.  A call carries its values; a
      handler runs at most once per request, and a client believes only what was done
      before the server's deletion; a request can always go on unless its handler does
      not return.  [RaftCluster] allows more: any [AppendEntries] and [InstallSnapshot]
      traffic, repeated for ever.
    - [LabGob] ([labgob/labgob.go]): the search of types for fields gob leaves out ends and
      complains about each field once.
    - [HarnessNet]: ends, names and links, what the harnesses have in common over [LabRpc].
      [RaftHarness] ([raft/config.go]): crashing, starting, connecting, reading what is
      applied and the checks.  [HarnessRoute]: a request gets through exactly between
      running instances of connected servers.  [HarnessChecks]: what the checks that pass
      have seen.
    - [ServiceHarness] ([kvraft/config.go], [shardmaster/config.go]): the harness of a
      replicated server, for any server with a persister, [GetState] and [Kill] (the class
      [Replicated]); [KvHarness] and [ShardMasterHarness] are its instances.
      [ServiceRoute]: cutting the cluster isolates the leader's side, for an odd number of
      servers; a restart continues from the last saved state.
    - [ShardKvHarness] ([shardkv/config.go]): groups and shardmasters on one network.
      [ShardKvRoute]: the names a joining group announces lead to its running servers,
      whatever is restarted.

    ** Bounds and fuel

    [MrMaster.schedule] nests at most once in itself, and its fuel of 2 is proved enough
    ([schedule_total]; in [master_step] each nesting is a step of its own); [MrWorker.reduce_loop] and [runes_loop] consume an element per turn
    and get the length of the list; [RaftReplicate.find_XIndex] gets the length of the log
    and is proved to find what it looks for; [LabGob.checkType] needs one more than the
    number of types ([checkType_complains_once]); [PorcSearch] bounds the turns of the
    search; [MrApps.skip_space] drops at least a byte per turn and gets the number of bytes.
    All other recursion is structural.

    ** What is not modelled

    The HTML and JSON output of the visualization, the command lines of [main/], printing
    and sockets, and data races on fields read without the lock, except where a file says
    so.  Arrays and maps shared between goroutines are copied, but for the nodes of [PorcList]
    and the map a migration request refers to ([ShardMigrate.MapRef]): so the entries of an
    [AppendEntries] request are those its first critical section read, although the array
    is that of [rf.log] until the request is encoded, and a shard that was handed over is
    not shared with the log entry that brought it.
    That committed logs of different peers agree is not true of this code ([RaftRun]).
    [KvSystem] takes it from Raft, and [KvRaft] shows what is enough for it: the three rules
    of [RaftSafe], and no compaction ([maxraftstate] is -1). *)
From Stdlib Require Export ZArith Lia.
From stdpp Require Export prelude gmap strings list sorting numbers pretty.

#[global] Open Scope Z_scope.

(** ** Record update

    [r <| f := v |>] is the record [r] with field [f] replaced.  A record type
    declares its eta expansion once, as an instance of [Eta]; the setter of a
    field is found by abstracting the projection out of that expansion. *)

Class Eta (R : Type) := eta_record : R → R.

Class Setter {R T : Type} (proj : R → T) := set_field : (T → T) → R → R.

Ltac head_of t := lazymatch t with ?f _ => head_of f | ?c => c end.

Ltac solve_setter proj :=
  match goal with
  | |- @Setter ?R ?T _ =>
      let inst := constr:(_ : Eta R) in
      let h := head_of inst in
      let e := eval cbv beta delta [h] in inst in
      let p := eval pattern proj in e in
      match p with
      | ?F _ =>
          let body := eval cbv beta in
            (λ (f : T → T) (r : R), F (λ r', f (proj r')) r) in
          exact body
      end
  end.

#[export] Hint Extern 1 (Setter ?proj) => solve_setter proj : typeclass_instances.

Declare Scope go_scope.
Delimit Scope go_scope with go.
#[warnings="-postfix-notation-not-level-1"]
Notation "r <| f := v |>" := (set_field (proj := f) (λ _, v) r)
  (at level 14, left associativity, format "r  <| f  :=  v |>") : go_scope.
#[global] Open Scope go_scope.

#[global] Arguments Z.geb : simpl never.
#[global] Arguments Z.gtb : simpl never.
#[global] Arguments Z.leb : simpl never.
#[global] Arguments Z.ltb : simpl never.
#[global] Arguments Z.eqb : simpl never.
#[global] Arguments Z.quot : simpl never.
#[global] Arguments Z.rem : simpl never.

(** ** Go slices

    Indices are Go [int]s, modelled by [Z]; [None] is the runtime panic of an
    index or a slice bound out of range. *)

Abbreviation len l := (Z.of_nat (length l)).

Definition slice_get {A} (l : list A) (i : Z) : option A :=
  if 0 <=? i then l !! Z.to_nat i else None.

Definition slice_set {A} (l : list A) (i : Z) (v : A) : option (list A) :=
  if (0 <=? i) && (i <? len l) then Some (<[Z.to_nat i := v]> l) else None.

(** [l[i:]] and [l[:j]]. *)
Definition slice_from {A} (l : list A) (i : Z) : option (list A) :=
  if (0 <=? i) && (i <=? len l) then Some (drop (Z.to_nat i) l) else None.

Definition slice_upto {A} (l : list A) (j : Z) : option (list A) :=
  if (0 <=? j) && (j <=? len l) then Some (take (Z.to_nat j) l) else None.

(** [make([]T, n)]: panics on a negative length. *)
Definition make_slice {A} (n : Z) (zero : A) : option (list A) :=
  if 0 <=? n then Some (replicate (Z.to_nat n) zero) else None.

Notation "l .[ i ]" := (slice_get l i)
  (at level 1, left associativity, format "l .[ i ]") : go_scope.

(** ** Random numbers

    [Int63 k] is the [k]-th draw of [math/rand]'s [Int63] by one process. *)
Class GoRand := {
  Int63 : nat → Z;
  Int63_range : ∀ k, 0 ≤ Int63 k < 2 ^ 63
}.

(** ** Gob streams

    [labgob] wraps Go's [encoding/gob].  The encoding itself is a parameter: an
    encoder turns the values written to a fresh buffer into bytes, a decoder
    yields them back one at a time, in the order they were written. *)

Fixpoint gob_reads {V D : Type} (next : D → option (V * D)) (d : D) (vs : list V) : Prop :=
  match vs with
  | [] => True
  | v :: vs => ∃ d', next d = Some (v, d') ∧ gob_reads next d' vs
  end.

Class GobCodec (V : Type) := {
  gob_decoder : Type;
  gob_encode : list V → list Byte.byte;
  gob_NewDecoder : list Byte.byte → gob_decoder;
  gob_Decode : gob_decoder → option (V * gob_decoder);
  gob_encode_nonempty : ∀ v vs, gob_encode (v :: vs) ≠ [];
  gob_encode_reads : ∀ vs, gob_reads gob_Decode (gob_NewDecoder (gob_encode vs)) vs
}.

(** A concrete codec for countable values, for witnesses. *)
Module CountableCodec.

Fixpoint to_bytes (p : positive) : list Byte.byte :=
  match p with
  | xH => []
  | xO p => Byte.x00 :: to_bytes p
  | xI p => Byte.x01 :: to_bytes p
  end.

Fixpoint of_bytes (bs : list Byte.byte) : positive :=
  match bs with
  | [] => xH
  | Byte.x00 :: bs => xO (of_bytes bs)
  | _ :: bs => xI (of_bytes bs)
  end.

Definition encode_list `{Countable V} (vs : list V) : list Byte.byte :=
  Byte.x02 :: to_bytes (encode vs).

Definition decode_list `{Countable V} (bs : list Byte.byte) : list V :=
  match bs with
  | Byte.x02 :: bs => default [] (decode (of_bytes bs))
  | _ => []
  end.

Definition decode_next {V} (d : list V) : option (V * list V) :=
  match d with [] => None | v :: d => Some (v, d) end.

Lemma of_to_bytes p : of_bytes (to_bytes p) = p.
Proof. induction p as [p IH|p IH|]; simpl; by rewrite ?IH. Qed.

Lemma decode_encode_list `{Countable V} (vs : list V) :
  decode_list (encode_list vs) = vs.
Proof. unfold decode_list, encode_list. by rewrite of_to_bytes, decode_encode. Qed.

Lemma reads_list {V} (vs : list V) : gob_reads decode_next vs vs.
Proof. induction vs; simpl; eauto. Qed.

#[export] Instance countable_codec `{Countable V} : GobCodec V.
Proof.
  refine {| gob_encode := encode_list; gob_NewDecoder := decode_list;
            gob_Decode := decode_next |}.
  - done.
  - intros vs. rewrite decode_encode_list. apply reads_list.
Defined.

End CountableCodec.

(** ** Lemmas on slices *)

Create HintDb go.

Section slices.
Context {A : Type}.
Implicit Types (l : list A) (i j : Z).

Lemma slice_get_Some l i x :
  l.[i] = Some x ↔ 0 ≤ i ∧ l !! Z.to_nat i = Some x.
Proof. unfold slice_get. destruct (Z.leb_spec 0 i); naive_solver lia. Qed.

Lemma slice_get_is_Some l i : is_Some l.[i] ↔ 0 ≤ i < len l.
Proof.
  unfold slice_get. destruct (Z.leb_spec 0 i).
  - rewrite lookup_lt_is_Some. lia.
  - split; [by intros [? ?]|lia].
Qed.

Lemma slice_get_lt l i : 0 ≤ i < len l → ∃ x, l.[i] = Some x.
Proof. intros ?. by apply slice_get_is_Some. Qed.

Lemma slice_get_elem l i x : l.[i] = Some x → x ∈ l.
Proof. rewrite slice_get_Some. intros [_ ?]. by eapply list_elem_of_lookup_2. Qed.

Lemma slice_get_app_l l k i : i < len l → (l ++ k).[i] = l.[i].
Proof.
  intros. unfold slice_get. destruct (Z.leb_spec 0 i); [|done].
  apply lookup_app_l. lia.
Qed.

Lemma slice_get_app_r l k i : len l ≤ i → (l ++ k).[i] = k.[i - len l].
Proof.
  intros. unfold slice_get.
  destruct (Z.leb_spec 0 i), (Z.leb_spec 0 (i - len l)); try lia.
  rewrite lookup_app_r by lia. f_equal. lia.
Qed.

Lemma slice_set_Some l i v l' :
  slice_set l i v = Some l' ↔ 0 ≤ i < len l ∧ l' = <[Z.to_nat i := v]> l.
Proof.
  unfold slice_set. destruct (Z.leb_spec 0 i), (Z.ltb_spec i (len l)); simpl;
    naive_solver lia.
Qed.

Lemma slice_set_lt l i v :
  0 ≤ i < len l → slice_set l i v = Some (<[Z.to_nat i := v]> l).
Proof. intros ?. by apply slice_set_Some. Qed.

Lemma slice_set_length l i v l' : slice_set l i v = Some l' → length l' = length l.
Proof. rewrite slice_set_Some. intros [_ ->]. apply length_insert. Qed.

Lemma slice_get_set_eq l i v l' : slice_set l i v = Some l' → l'.[i] = Some v.
Proof.
  rewrite slice_set_Some, slice_get_Some. intros [? ->].
  split; [lia|]. apply list_lookup_insert_eq. lia.
Qed.

Lemma slice_get_set_ne l i j v l' :
  slice_set l i v = Some l' → i ≠ j → l'.[j] = l.[j].
Proof.
  rewrite slice_set_Some. intros [? ->] ?. unfold slice_get.
  destruct (Z.leb_spec 0 j); [|done]. apply list_lookup_insert_ne. lia.
Qed.

Lemma slice_from_lt l i : 0 ≤ i ≤ len l → slice_from l i = Some (drop (Z.to_nat i) l).
Proof.
  intros. unfold slice_from.
  by rewrite (proj2 (Z.leb_le 0 i)), (proj2 (Z.leb_le i (len l))) by lia.
Qed.

Lemma slice_upto_lt l i : 0 ≤ i ≤ len l → slice_upto l i = Some (take (Z.to_nat i) l).
Proof.
  intros. unfold slice_upto.
  by rewrite (proj2 (Z.leb_le 0 i)), (proj2 (Z.leb_le i (len l))) by lia.
Qed.

Lemma slice_upto_Some l i l' :
  slice_upto l i = Some l' → 0 ≤ i ≤ len l ∧ l' = take (Z.to_nat i) l.
Proof.
  unfold slice_upto. destruct (Z.leb_spec 0 i), (Z.leb_spec i (len l)); simpl;
    naive_solver lia.
Qed.

Lemma slice_from_Some l i l' :
  slice_from l i = Some l' → 0 ≤ i ≤ len l ∧ l' = drop (Z.to_nat i) l.
Proof.
  unfold slice_from. destruct (Z.leb_spec 0 i), (Z.leb_spec i (len l)); simpl;
    naive_solver lia.
Qed.

Lemma make_slice_nonneg n (v : A) :
  0 ≤ n → make_slice n v = Some (replicate (Z.to_nat n) v).
Proof. intros. unfold make_slice. by rewrite (proj2 (Z.leb_le 0 n)). Qed.

End slices.

#[export] Hint Resolve slice_set_length : go.

(** ** Quorums *)

(** Two sets of servers among [n], each of more than half of them, meet. *)
Lemma quorum_meet (n : Z) (X Y U : gset Z) :
  X ⊆ U → Y ⊆ U → Z.of_nat (size U) = n →
  n < 2 * Z.of_nat (size X) → n < 2 * Z.of_nat (size Y) → ∃ v, v ∈ X ∧ v ∈ Y.
Proof.
  intros HX HY HU HsX HsY.
  destruct (decide (X ∩ Y = ∅)) as [Hd|Hd].
  - assert (size (X ∪ Y) = size X + size Y)%nat by (apply size_union; set_solver).
    assert (size (X ∪ Y) ≤ size U)%nat by (apply subseteq_size; set_solver). lia.
  - apply set_choose_L in Hd as [v Hv]. exists v. set_solver.
Qed.

(** The universe of server indices [0 .. n-1]. *)
Definition server_ids (n : Z) : gset Z := list_to_set (seqZ 0 n).

Lemma elem_of_server_ids n i : i ∈ server_ids n ↔ 0 ≤ i < n.
Proof. unfold server_ids. rewrite elem_of_list_to_set, elem_of_seqZ. lia. Qed.

Lemma size_server_ids n : 0 ≤ n → Z.of_nat (size (server_ids n)) = n.
Proof.
  intros. unfold server_ids. rewrite size_list_to_set by apply NoDup_seqZ.
  rewrite length_seqZ. lia.
Qed.

(** ** Tactics *)

(** Case analysis on the integer comparisons of a program text. *)
Ltac cases_Z :=
  repeat match goal with
  | |- context [?a <? ?b] => destruct (Z.ltb_spec a b)
  | |- context [?a <=? ?b] => destruct (Z.leb_spec a b)
  | |- context [?a =? ?b] => destruct (Z.eqb_spec a b)
  | |- context [?a >? ?b] => rewrite (Z.gtb_ltb a b)
  | |- context [?a >=? ?b] => rewrite (Z.geb_leb a b)
  end.

(** Unwinds a monadic run that is known to return. *)
Ltac run_option :=
  repeat (progress simplify_option_eq
    || match goal with
       | p : (_ * _)%type |- _ => destruct p
       end).

(** Rewrites every [?e = Some _] found for a monadic step of the goal. *)
Ltac step_option :=
  repeat match goal with
  | H : ?e = Some _ |- context [?e ≫= _] => rewrite H; simpl
  end.

(** A concrete source of random numbers, for witnesses. *)
Module ZeroRand.
#[export] Program Instance zero_rand : GoRand := {| Int63 := λ _, 0 |}.
Next Obligation. done. Qed.
End ZeroRand.

(** The last element of a filtered list comes at or after every element that passes
    the filter. *)
Lemma filter_last_after {A} (P : A → Prop) `{∀ x, Decision (P x)} (l : list A) b i a :
  list.last (filter P l) = Some b → l !! i = Some a → P a →
  ∃ j, l !! j = Some b ∧ (i ≤ j)%nat.
Proof.
  revert i. induction l as [|x l IH] using rev_ind; intros i Hb Ha HPa; [done|].
  rewrite list.filter_app, filter_cons, filter_nil in Hb. case_decide as HPx.
  - rewrite last_snoc in Hb. simplify_eq. exists (length l).
    split; [by apply list_lookup_middle|].
    apply lookup_lt_Some in Ha. rewrite length_app in Ha. simpl in Ha. lia.
  - rewrite app_nil_r in Hb. apply lookup_snoc_Some in Ha as [[Hi Ha]|[-> ->]]; [|done].
    destruct (IH i Hb Ha HPa) as (j & Hj & Hij). exists j. split; [|done].
    by apply lookup_app_l_Some.
Qed.

(** ** Sorted lists by index *)

Lemma StronglySorted_lookup {A} (R : relation A) (l : list A) i j x y :
  StronglySorted R l → (i < j)%nat → l !! i = Some x → l !! j = Some y → R x y.
Proof.
  intros Hs Hij Hi Hj. rewrite <-(take_drop (S i) l) in Hs. eapply StronglySorted_app_1_elem_of; [exact Hs|..].
  - apply (list_elem_of_lookup_2 _ i). by rewrite lookup_take_lt by lia.
  - apply (list_elem_of_lookup_2 _ (j - S i)). rewrite lookup_drop. by replace (S i + (j - S i))%nat with j by lia.
Qed.

Lemma StronglySorted_filter {A} (R : relation A) (P : A → Prop) `{∀ x, Decision (P x)} (l : list A) :
  StronglySorted R l → StronglySorted R (filter P l).
Proof.
  induction 1 as [|x l Hl IH Hx]; [constructor|]. rewrite filter_cons. case_decide; [|done].
  constructor; [done|]. rewrite list.Forall_forall in Hx |- *. intros y [_ Hy]%list_elem_of_filter. auto.
Qed.

Lemma filter_all {A} (P : A → Prop) `{∀ x, Decision (P x)} (l : list A) :
  (∀ x, x ∈ l → P x) → filter P l = l.
Proof.
  induction l as [|x l IH]; intros HP; [done|]. rewrite filter_cons_True by (apply HP; left).
  f_equal. apply IH. intros y Hy. apply HP. by right.
Qed.

(** ** [omap] on lists *)

Lemma omap_omap {A B X} (f : A → option B) (g : B → option X) (l : list A) :
  omap (λ x, f x ≫= g) l = omap g (omap f l).
Proof.
  induction l as [|x l IH]; simpl; [done|]. destruct (f x) as [y|]; simpl; [|apply IH].
  destruct (g y); [f_equal|]; apply IH.
Qed.

Lemma omap_filter {A B} (P : A → Prop) `{∀ x, Decision (P x)} (f g : A → option B) (l : list A) :
  (∀ x, x ∈ l → P x → f x = g x) → (∀ x, x ∈ l → ¬ P x → f x = None) → omap f l = omap g (filter P l).
Proof.
  induction l as [|x l IH]; intros Hp Hn; [done|]. rewrite filter_cons.
  assert (omap f l = omap g (filter P l)) as IHl by (apply IH; intros y Hy; [apply Hp|apply Hn]; by right).
  simpl. case_decide as Hx; simpl.
  - rewrite (Hp x) by (done || left). destruct (g x); [f_equal|]; apply IHl.
  - rewrite (Hn x) by (done || left). apply IHl.
Qed.

Lemma NoDup_omap {A B} (f : A → option B) (l : list A) :
  (∀ x y z, f x = Some z → f y = Some z → x = y) → NoDup l → NoDup (omap f l).
Proof.
  intros Hf. induction 1 as [|x l Hx Hl IH]; simpl; [constructor|]. destruct (f x) as [z|] eqn:Hz; [|done].
  constructor; [|done]. rewrite list_elem_of_omap. intros (y & Hy & Hyz). by rewrite (Hf x y z) in Hx.
Qed.

(** ** Loops that may panic *)

Definition foldM {A S} (f : S → A → option S) (s : S) (l : list A) : option S :=
  foldl (λ acc x, s ← acc; f s x) (Some s) l.

Lemma foldM_cons {A S} (f : S → A → option S) s x l : foldM f s (x :: l) = (s ← f s x; foldM f s l).
Proof.
  unfold foldM. simpl. destruct (f s x); [done|]. simpl. by induction l.
Qed.

Lemma foldM_snoc {A S} (f : S → A → option S) s l x : foldM f s (l ++ [x]) = (s ← foldM f s l; f s x).
Proof. unfold foldM. by rewrite foldl_app. Qed.

Lemma foldM_app {A S} (f : S → A → option S) s l k :
  foldM f s (l ++ k) = s ← foldM f s l; foldM f s k.
Proof. revert s. induction l as [|a l IH]; intros s; [done|]. cbn [app]. rewrite !foldM_cons. destruct (f s a); simpl; auto. Qed.

(** The loop keeps an invariant of the elements it has gone through. *)
Lemma foldM_inv {A S} (P : list A → S → Prop) (f : S → A → option S) s l s' :
  P [] s → (∀ pre x s s', P pre s → f s x = Some s' → P (pre ++ [x]) s') → foldM f s l = Some s' → P l s'.
Proof.
  intros H0 Hstep. revert s'. induction l as [|x l IH] using rev_ind; intros s'; [by intros [= <-]|].
  rewrite foldM_snoc. destruct (foldM f s l) as [s1|]; simpl; [|done]. apply Hstep. by apply IH.
Qed.

Lemma foldM_total {A S} (P : list A → S → Prop) (f : S → A → option S) s l :
  P [] s → (∀ pre x rest s, l = pre ++ x :: rest → P pre s → ∃ s', f s x = Some s' ∧ P (pre ++ [x]) s') →
  ∃ s', foldM f s l = Some s' ∧ P l s'.
Proof.
  intros H0 Hstep. assert (∀ pre rest, l = pre ++ rest → ∃ s', foldM f s pre = Some s' ∧ P pre s') as Hpre.
  { induction pre as [|x pre IH] using rev_ind; intros rest Hl; [by exists s|].
    rewrite <-app_assoc in Hl. destruct (IH _ Hl) as (s1 & Hs1 & HP).
    destruct (Hstep pre x rest s1 Hl HP) as (s2 & ? & ?). exists s2. by rewrite foldM_snoc, Hs1. }
  apply (Hpre l []). by rewrite app_nil_r.
Qed.

(** A function that picks a witness for each member of a list. *)
Lemma list_choice {A B} `{EqDecision A} (b : B) (P : A → B → Prop) (l : list A) :
  (∀ x, x ∈ l → ∃ y, P x y) → ∃ f, ∀ x, x ∈ l → P x (f x).
Proof.
  induction l as [|x l IH]; intros HP; [exists (λ _, b); intros x Hx; by inversion Hx|].
  destruct (HP x ltac:(left)) as [y Hy]. destruct IH as [f Hf]; [intros z Hz; apply HP; by right|].
  exists (λ z, if decide (z = x) then y else f z). intros z [->|Hz]%elem_of_cons; [by rewrite decide_True|].
  case_decide; [by subst|by apply Hf].
Qed.

(** ** Numbers in names

    What [strconv.Itoa] prints, stdpp's [pretty], between dashes can be read back. *)

Definition digit (c : Ascii.ascii) : Prop := ∃ x, c = pretty_N_char x.

Lemma pretty_N_go_digits x s :
  Forall digit (String.list_ascii_of_string s) →
  Forall digit (String.list_ascii_of_string (pretty_N_go x s)).
Proof.
  revert s. induction (N.lt_wf_0 x) as [x _ IH]; intros s Hs.
  destruct (decide (x = 0%N)) as [->|Hx]; [by rewrite pretty_N_go_0|].
  rewrite pretty_N_go_step by lia. apply IH; [by apply N.div_lt; lia|].
  simpl. constructor; [by eexists|done].
Qed.

Lemma pretty_Z_digits x : 0 ≤ x → Forall digit (String.list_ascii_of_string (pretty x)).
Proof.
  intros Hx. destruct x as [|p|p]; [|by apply pretty_N_go_digits; constructor|lia].
  simpl. constructor; [by exists 0%N|constructor].
Qed.

Lemma pretty_N_char_ne_dash x : pretty_N_char x ≠ Ascii.Ascii true false true true false true false false.
Proof. unfold pretty_N_char. by repeat case_match. Qed.

(** Digits up to the first dash are determined. *)
Lemma dash_split s1 s2 t1 t2 :
  Forall digit (String.list_ascii_of_string s1) → Forall digit (String.list_ascii_of_string s2) →
  s1 +:+ "-" +:+ t1 = s2 +:+ "-" +:+ t2 → s1 = s2 ∧ t1 = t2.
Proof.
  revert s2. induction s1 as [|c s1 IH]; intros [|c' s2]; simpl; intros H1 H2 He; simplify_eq; [done|..].
  - inversion_clear H2 as [|? ? [x Hx]]. by destruct (pretty_N_char_ne_dash x).
  - inversion_clear H1 as [|? ? [x Hx]]. by destruct (pretty_N_char_ne_dash x).
  - inversion_clear H1. inversion_clear H2. destruct (IH s2) as [-> ->]; done.
Qed.
