(* ===== verification/RaftState.v ===== *)
(** * Raft: the state of one peer

    [src/6.824/src/raft]: [state.go], [persister.go], [common.go] and the parts of
    [raft.go] that every handler uses: the [Raft] struct, the persister,
    [lastLogTermIndex], [changeRole], the persisted state, [Start], [Make] and the
    client-visible getters. *)
From S2P Require Import Prelude.

(** ** Durations ([time.Duration], nanoseconds) *)
Definition Millisecond : Z := 1000000.
Definition electionTimeOut : Z := 300 * Millisecond.
Definition beatPeriod : Z := 100 * Millisecond.
Definition RPCTimeout : Z := 150 * Millisecond.
Definition ApplyInterval : Z := 100 * Millisecond.

Definition max (x y : Z) : Z := if x >=? y then x else y.
Definition min (x y : Z) : Z := if x <? y then x else y.

Inductive Role := LEADER | FOLLOWER | CANDIDATE.

#[export] Instance Role_eq_dec : EqDecision Role.
Proof. solve_decision. Defined.

(** ** Log entries

    A command is an [interface{}]: nil, a string (the placeholder [""] and
    ["installSnapshot"] are strings) or a service's command. *)
Inductive Iface (C : Type) := INil | IString (s : string) | ICmd (c : C).
Arguments INil {C}.
Arguments IString {C}.
Arguments ICmd {C}.

Record Log (C : Type) := MkLog { Command : Iface C; Term : Z }.
Arguments MkLog {C}.
Arguments Command {C}.
Arguments Term {C}.

Record ApplyMsg (C : Type) := MkApplyMsg {
  CommandValid : bool;
  msg_Command : Iface C;
  CommandIndex : Z
}.
Arguments MkApplyMsg {C}.
Arguments CommandValid {C}.
Arguments msg_Command {C}.
Arguments CommandIndex {C}.

#[export] Instance Iface_eq_dec `{EqDecision C} : EqDecision (Iface C).
Proof. solve_decision. Defined.
#[export] Instance Log_eq_dec `{EqDecision C} : EqDecision (Log C).
Proof. solve_decision. Defined.
#[export] Program Instance Iface_countable `{Countable C} : Countable (Iface C) :=
  inj_countable'
    (λ c, match c with INil => inl () | IString s => inr (inl s) | ICmd c => inr (inr c) end)
    (λ c, match c with inl () => INil | inr (inl s) => IString s | inr (inr c) => ICmd c end) _.
Next Obligation. by intros ??? []. Qed.
#[export] Program Instance Log_countable `{Countable C} : Countable (Log C) :=
  inj_countable' (λ l, (Command l, Term l)) (λ p, MkLog p.1 p.2) _.
Next Obligation. by intros ??? []. Qed.

(** Values written to the gob stream of [getPersistData]. *)
Inductive RaftVal (C : Type) := VInt (z : Z) | VLog (l : list (Log C)).
Arguments VInt {C}.
Arguments VLog {C}.

#[export] Instance RaftVal_eq_dec `{EqDecision C} : EqDecision (RaftVal C).
Proof. solve_decision. Defined.
#[export] Program Instance RaftVal_countable `{Countable C} : Countable (RaftVal C) :=
  inj_countable' (λ v, match v with VInt z => inl z | VLog l => inr l end)
    (λ v, match v with inl z => VInt z | inr l => VLog l end) _.
Next Obligation. by intros ??? []. Qed.

(** ** The persister: a [nil] slice is [None]. *)
Record Persister := MkPersister {
  raftstate : option (list Byte.byte);
  snapshot : option (list Byte.byte)
}.
#[export] Instance Persister_eta : Eta Persister :=
  λ p, MkPersister (raftstate p) (snapshot p).

Definition MakePersister : Persister := MkPersister None None.

Definition Persister_Copy (ps : Persister) : Persister :=
  MakePersister <| raftstate := raftstate ps |> <| snapshot := snapshot ps |>.

Definition SaveRaftState (state : list Byte.byte) (ps : Persister) : Persister :=
  ps <| raftstate := Some state |>.

Definition ReadRaftState (ps : Persister) : option (list Byte.byte) := raftstate ps.

Definition RaftStateSize (ps : Persister) : Z := len (default [] (raftstate ps)).

Definition Persister_SaveStateAndSnapshot (state : list Byte.byte)
    (snap : option (list Byte.byte)) (ps : Persister) : Persister :=
  ps <| raftstate := Some state |> <| snapshot := snap |>.

Definition Persister_ReadSnapshot (ps : Persister) : option (list Byte.byte) := snapshot ps.

Definition SnapshotSize (ps : Persister) : Z := len (default [] (snapshot ps)).

(** ** The [Raft] struct

    [peers] is the length of the peer slice.  A timer is the duration it was last
    armed with.  [notifyApplyCh] is the number of pending notifications, [stopCh]
    is true once the channel is closed.  [rng] counts the random draws made.  A
    nil slice and an empty one are both [[]]. *)
Record Raft (C : Type) := MkRaft {
  peers : Z;
  persister : Persister;
  me : Z;
  dead : bool;
  state : Role;
  currentTerm : Z;
  voteFor : Z;
  log : list (Log C);
  commitIndex : Z;
  lastApplied : Z;
  nextIndex : list Z;
  matchIndex : list Z;
  electionTimer : Z;
  appendEntriesTimer : list Z;
  applyTimer : Z;
  stopCh : bool;
  LockSeq : list string;
  lastSnapshotIndex : Z;
  lastSnapshotTerm : Z;
  notifyApplyCh : Z;
  rng : nat
}.
Arguments MkRaft {C}.
Arguments peers {C}. Arguments persister {C}. Arguments me {C}. Arguments dead {C}.
Arguments state {C}. Arguments currentTerm {C}. Arguments voteFor {C}. Arguments log {C}.
Arguments commitIndex {C}. Arguments lastApplied {C}. Arguments nextIndex {C}.
Arguments matchIndex {C}. Arguments electionTimer {C}. Arguments appendEntriesTimer {C}.
Arguments applyTimer {C}. Arguments stopCh {C}. Arguments LockSeq {C}.
Arguments lastSnapshotIndex {C}. Arguments lastSnapshotTerm {C}.
Arguments notifyApplyCh {C}. Arguments rng {C}.

#[export] Instance Raft_eta C : Eta (Raft C) := λ r,
  MkRaft (peers r) (persister r) (me r) (dead r) (state r) (currentTerm r) (voteFor r)
    (log r) (commitIndex r) (lastApplied r) (nextIndex r) (matchIndex r) (electionTimer r)
    (appendEntriesTimer r) (applyTimer r) (stopCh r) (LockSeq r) (lastSnapshotIndex r)
    (lastSnapshotTerm r) (notifyApplyCh r) (rng r).

Section raft.
Context {C : Type} `{GoRand, GobCodec (RaftVal C)}.
Implicit Types rf : Raft C.

Definition GetState rf : Z * bool := (currentTerm rf, bool_decide (state rf = LEADER)).

Definition lastLogTermIndex rf : option (Z * Z) :=
  last ← (log rf).[len (log rf) - 1];
  Some (Term last, lastSnapshotIndex rf + len (log rf) - 1).

Definition getRealLogIndex (index : Z) rf : Z :=
  let idx := index - lastSnapshotIndex rf in
  if idx <? 0 then -1 else idx.

Definition GetRandElectionTime (k : nat) : Z :=
  let r := Z.rem (Int63 k) electionTimeOut in electionTimeOut + r.

Definition resetElectionTimer rf : Raft C :=
  rf <| electionTimer := GetRandElectionTime (rng rf) |> <| rng := S (rng rf) |>.

Definition resetAETimer (index : Z) rf : option (Raft C) :=
  ts ← slice_set (appendEntriesTimer rf) index beatPeriod;
  Some (rf <| appendEntriesTimer := ts |>).

Definition AENow rf : Raft C :=
  rf <| appendEntriesTimer := (λ _, 0) <$> appendEntriesTimer rf |>.

Definition Lock (m : string) rf : Raft C := rf <| LockSeq := LockSeq rf ++ [m] |>.

Definition Unlock (m : string) rf : option (Raft C) :=
  m0 ← (LockSeq rf).[0];
  Some (if bool_decide (m = m0) then rf <| LockSeq := drop 1 (LockSeq rf) |> else rf).

Definition getPersistData rf : list Byte.byte :=
  gob_encode [VInt (currentTerm rf); VInt (voteFor rf); VInt (commitIndex rf);
    VInt (lastSnapshotTerm rf); VInt (lastSnapshotIndex rf); VLog (log rf)].

Definition persist rf : Raft C :=
  rf <| persister := SaveRaftState (getPersistData rf) (persister rf) |>.

Definition decode_int (d : gob_decoder) : option (Z * gob_decoder) :=
  match gob_Decode d with Some (VInt z, d) => Some (z, d) | _ => None end.

Definition decode_log (d : gob_decoder) : option (list (Log C) * gob_decoder) :=
  match gob_Decode d with Some (VLog l, d) => Some (l, d) | _ => None end.

(** [None] is [os.Exit(1)]. *)
Definition readPersist (data : option (list Byte.byte)) rf : option (Raft C) :=
  match data with
  | None | Some [] => Some rf
  | Some bs =>
      '(currentTerm, d) ← decode_int (gob_NewDecoder bs);
      '(voteFor, d) ← decode_int d;
      '(commitIndex, d) ← decode_int d;
      '(lastSnapshotTerm, d) ← decode_int d;
      '(lastSnapshotIndex, d) ← decode_int d;
      '(log, d) ← decode_log d;
      Some (rf <| RaftState.currentTerm := currentTerm |> <| RaftState.voteFor := voteFor |>
        <| RaftState.log := log |> <| RaftState.commitIndex := commitIndex |>
        <| RaftState.lastSnapshotIndex := lastSnapshotIndex |>
        <| RaftState.lastSnapshotTerm := lastSnapshotTerm |>)
  end.

Fixpoint fill_nextIndex (next : list Z) (i : Z) (v : Z) (k : nat) : option (list Z) :=
  match k with
  | O => Some next
  | S k => next ← slice_set next i v; fill_nextIndex next (i + 1) v k
  end.

Definition changeRole (role : Role) rf : option (Raft C) :=
  let rf := rf <| state := role |> in
  match role with
  | FOLLOWER => Some rf
  | CANDIDATE =>
      Some (resetElectionTimer
        (rf <| currentTerm := currentTerm rf + 1 |> <| voteFor := me rf |>))
  | LEADER =>
      '(_, lastLogIndex) ← lastLogTermIndex rf;
      next ← make_slice (peers rf) 0;
      next ← fill_nextIndex next 0 (lastLogIndex + 1) (Z.to_nat (peers rf));
      mtch ← make_slice (peers rf) 0;
      mtch ← slice_set mtch (me rf) lastLogIndex;
      Some (resetElectionTimer (rf <| nextIndex := next |> <| matchIndex := mtch |>))
  end.

(** [Start]: the index, the term and whether this peer is the leader. *)
Definition Start (command : C) rf : option (Raft C * (Z * Z * bool)) :=
  let term := currentTerm rf in
  let isLeader := bool_decide (state rf = LEADER) in
  '(_, lastIndex) ← lastLogTermIndex rf;
  let index := lastIndex + 1 in
  if isLeader then
    let rf := rf <| log := log rf ++ [MkLog (ICmd command) term] |> in
    next ← slice_set (nextIndex rf) (me rf) (index + 1);
    let rf := rf <| nextIndex := next |> in
    mtch ← slice_set (matchIndex rf) (me rf) index;
    let rf := rf <| matchIndex := mtch |> in
    Some (AENow (persist rf), (index, term, isLeader))
  else Some (rf, (index, term, isLeader)).

(** Closing a closed channel panics. *)
Definition Kill rf : option (Raft C) :=
  let rf := rf <| dead := true |> in
  if stopCh rf then None else Some (rf <| stopCh := true |>).

Definition killed rf : bool := dead rf.

Definition Make (npeers me : Z) (ps : Persister) : option (Raft C) :=
  timers ← make_slice npeers 0;
  let rf := {| peers := npeers; persister := ps; RaftState.me := me; dead := false;
    state := FOLLOWER; currentTerm := 0; voteFor := -1; log := [];
    commitIndex := 0; lastApplied := 0; nextIndex := []; matchIndex := [];
    electionTimer := 0; appendEntriesTimer := timers; applyTimer := ApplyInterval;
    stopCh := false; LockSeq := []; lastSnapshotIndex := 0; lastSnapshotTerm := 0;
    notifyApplyCh := 0; rng := 0 |} in
  let rf := rf <| log := log rf ++ [MkLog (IString "") 0] |> in
  rf ← readPersist (ReadRaftState ps) rf;
  let rf := resetElectionTimer rf in
  Some (rf <| appendEntriesTimer := (λ _, beatPeriod) <$> appendEntriesTimer rf |>).

(** ** Well-formedness

    The invariant of one peer: a log with its snapshot entry in front, indices
    within the cluster, leader bookkeeping of one entry per peer. *)
Record raft_wf rf : Prop := {
  wf_log : log rf ≠ [];
  wf_me : 0 ≤ me rf < peers rf;
  wf_timers : len (appendEntriesTimer rf) = peers rf;
  wf_next : state rf = LEADER → len (nextIndex rf) = peers rf;
  wf_match : state rf = LEADER → len (matchIndex rf) = peers rf;
  wf_snap : 0 ≤ lastSnapshotIndex rf
}.

(** The last log index of a peer with a non-empty log. *)
Definition lastIndex rf : Z := lastSnapshotIndex rf + len (log rf) - 1.
Definition lastTerm rf : Z := match list.last (log rf) with Some e => Term e | None => 0 end.


(** ** Lemmas *)

Lemma log_length_pos rf : log rf ≠ [] → 0 < len (log rf).
Proof. destruct (log rf); simpl; [done|lia]. Qed.

Lemma lastLogTermIndex_spec rf :
  log rf ≠ [] → lastLogTermIndex rf = Some (lastTerm rf, lastIndex rf).
Proof.
  intros Hl. unfold lastLogTermIndex, lastTerm, lastIndex.
  destruct (log rf) as [|e l] using rev_ind; [done|].
  rewrite slice_get_app_r by (rewrite length_app; simpl; lia).
  rewrite length_app, last_snoc. simpl.
  by replace (Z.of_nat (length l + 1) - 1 - Z.of_nat (length l)) with 0 by lia.
Qed.

Lemma lastLogTermIndex_Some rf t i :
  lastLogTermIndex rf = Some (t, i) → t = lastTerm rf ∧ i = lastIndex rf ∧ log rf ≠ [].
Proof.
  intros Hl. destruct (decide (log rf = [])) as [Hn|Hn].
  - unfold lastLogTermIndex in Hl. by rewrite Hn in Hl.
  - rewrite lastLogTermIndex_spec in Hl by done. naive_solver.
Qed.

Lemma fill_nextIndex_spec (next : list Z) v k :
  (k ≤ length next)%nat →
  ∀ j, (j + k = length next)%nat →
  fill_nextIndex next (Z.of_nat j) v k = Some (take j next ++ replicate k v).
Proof.
  intros _ j. revert next j. induction k as [|k IH]; intros next j Hj; simpl.
  - rewrite app_nil_r, take_ge by lia. done.
  - rewrite slice_set_lt by lia. simpl. rewrite Nat2Z.id.
    replace (Z.of_nat j + 1) with (Z.of_nat (S j)) by lia.
    rewrite IH by (rewrite length_insert; lia). f_equal.
    rewrite (take_S_r _ j v) by (apply list_lookup_insert_eq; lia).
    rewrite take_insert_ge by lia. by rewrite <- app_assoc.
Qed.

(** What a peer's bookkeeping is right after it became leader. *)
Definition leader_bookkeeping rf : list Z * list Z :=
  (replicate (Z.to_nat (peers rf)) (lastIndex rf + 1),
   <[Z.to_nat (me rf) := lastIndex rf]> (replicate (Z.to_nat (peers rf)) 0)).

Lemma changeRole_LEADER rf :
  raft_wf rf →
  changeRole LEADER rf = Some (resetElectionTimer
    (rf <| state := LEADER |> <| nextIndex := (leader_bookkeeping rf).1 |>
        <| matchIndex := (leader_bookkeeping rf).2 |>)).
Proof.
  intros [Hl Hme Ht _ _ _]. unfold changeRole.
  change (log rf) with (log (rf <| state := LEADER |>)) in Hl.
  rewrite lastLogTermIndex_spec by done. simpl.
  rewrite !make_slice_nonneg by lia. simpl.
  rewrite (fill_nextIndex_spec _ _ _) with (j := 0%nat)
    by (rewrite length_replicate; lia). simpl.
  rewrite slice_set_lt by (rewrite length_replicate; lia). done.
Qed.

Lemma changeRole_LEADER_view rf rf' :
  changeRole LEADER rf = Some rf' →
  state rf' = LEADER ∧ currentTerm rf' = currentTerm rf ∧ voteFor rf' = voteFor rf
  ∧ me rf' = me rf ∧ peers rf' = peers rf.
Proof.
  unfold changeRole. destruct (lastLogTermIndex _) as [[lt li]|]; simpl; [|done].
  destruct (make_slice _ _) as [nx|]; simpl; [|done].
  destruct (fill_nextIndex _ _ _ _); simpl; [|done].
  destruct (slice_set _ _ _); simpl; [|done]. by intros [= <-].
Qed.

Lemma GetRandElectionTime_bounds k :
  electionTimeOut ≤ GetRandElectionTime k < 2 * electionTimeOut.
Proof.
  unfold GetRandElectionTime. pose proof (Int63_range k) as [? ?].
  pose proof (Z.rem_bound_pos (Int63 k) electionTimeOut ltac:(done) ltac:(done)). lia.
Qed.

Lemma lock_unlock m rf : LockSeq rf = [] → Unlock m (Lock m rf) = Some rf.
Proof.
  intros Hl. unfold Unlock, Lock. simpl. rewrite Hl. simpl.
  rewrite bool_decide_eq_true_2 by done. destruct rf. simpl in *. by subst.
Qed.

(** Decoding a persisted state gives the fields it was encoded from. *)
Lemma readPersist_getPersistData rf rf0 :
  readPersist (Some (getPersistData rf)) rf0 =
    Some (rf0 <| currentTerm := currentTerm rf |> <| voteFor := voteFor rf |>
      <| log := log rf |> <| commitIndex := commitIndex rf |>
      <| lastSnapshotIndex := lastSnapshotIndex rf |>
      <| lastSnapshotTerm := lastSnapshotTerm rf |>).
Proof.
  unfold readPersist, getPersistData.
  pose proof (gob_encode_reads [VInt (currentTerm rf); VInt (voteFor rf);
    VInt (commitIndex rf); VInt (lastSnapshotTerm rf); VInt (lastSnapshotIndex rf);
    VLog (log rf)]) as Hr.
  destruct (gob_encode _) as [|b bs] eqn:He; [by apply gob_encode_nonempty in He|].
  simpl in Hr. destruct Hr as (d1 & H1 & d2 & H2 & d3 & H3 & d4 & H4 & d5 & H5 & d6 & H6 & _).
  unfold decode_int, decode_log.
  by rewrite H1; simpl; rewrite H2; simpl; rewrite H3; simpl;
     rewrite H4; simpl; rewrite H5; simpl; rewrite H6.
Qed.

(** A peer made from the persister of a peer that persisted its current state. *)
Lemma Make_persisted n me (rf rf1 : Raft C) :
  raftstate (persister rf) = Some (getPersistData rf) → Make n me (persister rf) = Some rf1 →
  persister rf1 = persister rf ∧ log rf1 = log rf
  ∧ lastSnapshotIndex rf1 = lastSnapshotIndex rf.
Proof.
  intros Hp. unfold Make, ReadRaftState. destruct (make_slice n 0); cbn [mbind option_bind]; [|done].
  rewrite Hp, readPersist_getPersistData. cbn [mbind option_bind]. by intros [= <-].
Qed.

(** ** Properties *)

(** C20. A restart restores exactly the persisted state: a peer made from the persister
    of a peer that has just persisted has its term, vote, log, commit index and snapshot
    position, is a follower of nobody's, has applied nothing yet, and keeps the
    persister's bytes.  (The design notes also want the last applied index saved, so that a
    reboot does not apply the log again; the code does not save it.) *)
Theorem restart_restores n i rf :
  0 ≤ n →
  ∃ rf', Make n i (persister (persist rf)) = Some rf'
  ∧ currentTerm rf' = currentTerm rf ∧ voteFor rf' = voteFor rf ∧ log rf' = log rf
  ∧ commitIndex rf' = commitIndex rf ∧ lastSnapshotIndex rf' = lastSnapshotIndex rf
  ∧ lastSnapshotTerm rf' = lastSnapshotTerm rf
  ∧ state rf' = FOLLOWER ∧ lastApplied rf' = 0 ∧ dead rf' = false
  ∧ persister rf' = persister (persist rf)
  ∧ appendEntriesTimer rf' = replicate (Z.to_nat n) beatPeriod.
Proof.
  intros Hn. unfold Make. rewrite make_slice_nonneg by done. cbn [mbind option_bind].
  change (ReadRaftState _) with (Some (getPersistData rf)).
  rewrite readPersist_getPersistData. cbn [mbind option_bind].
  eexists. split; [done|]. split_and!; try done. cbn. by rewrite fmap_replicate.
Qed.

(** [Start] on a leader appends the command at the next index in the current term,
    records it as matched on the leader itself, persists it and makes every peer's
    heartbeat due at once; on any other peer it changes nothing and reports so. *)
Theorem Start_spec (command : C) rf :
  raft_wf rf →
  ∃ rf', Start command rf = Some (rf', (lastIndex rf + 1, currentTerm rf, bool_decide (state rf = LEADER)))
  ∧ (state rf ≠ LEADER → rf' = rf)
  ∧ (state rf = LEADER →
       log rf' = log rf ++ [MkLog (ICmd command) (currentTerm rf)]
       ∧ (log rf').[lastIndex rf + 1 - lastSnapshotIndex rf']
         = Some (MkLog (ICmd command) (currentTerm rf))
       ∧ (nextIndex rf').[me rf] = Some (lastIndex rf + 2)
       ∧ (matchIndex rf').[me rf] = Some (lastIndex rf + 1)
       ∧ (∀ j, j ≠ me rf → (matchIndex rf').[j] = (matchIndex rf).[j])
       ∧ raftstate (persister rf') = Some (getPersistData rf')
       ∧ Forall (λ t, t = 0) (appendEntriesTimer rf')
       ∧ commitIndex rf' = commitIndex rf).
Proof.
  intros [Hl Hme _ Hn Hm _]. unfold Start. rewrite lastLogTermIndex_spec by done.
  cbn [mbind option_bind]. case_bool_decide as Hs; [|by exists rf].
  specialize (Hn Hs). specialize (Hm Hs).
  destruct (slice_set (nextIndex rf) (me rf) (lastIndex rf + 1 + 1)) as [nx|] eqn:Hnx;
    [|by rewrite slice_set_lt in Hnx by lia].
  destruct (slice_set (matchIndex rf) (me rf) (lastIndex rf + 1)) as [mt|] eqn:Hmt;
    [|by rewrite slice_set_lt in Hmt by lia].
  simpl. rewrite Hnx. simpl. rewrite Hmt. simpl. eexists. split; [done|].
  split; [done|]. intros _. split_and!; simpl; try done.
  - unfold lastIndex. rewrite slice_get_app_r by lia.
    by replace (_ - _ - len (log rf)) with 0 by lia.
  - erewrite slice_get_set_eq by done. f_equal. lia.
  - by erewrite slice_get_set_eq by done.
  - intros j Hj. by eapply slice_get_set_ne.
  - apply Forall_fmap, Forall_true. done.
Qed.

(** Election time-outs are safe and random within bounds: a reset timer is at least
    the time-out of 300 ms, below twice that, and always leaves room for a heartbeat
    period and an RPC time-out. *)
Theorem election_timer_bounds rf :
  electionTimeOut ≤ electionTimer (resetElectionTimer rf) < 2 * electionTimeOut
  ∧ beatPeriod + RPCTimeout < electionTimer (resetElectionTimer rf).
Proof.
  pose proof (GetRandElectionTime_bounds (rng rf)) as Hb. simpl. split; [done|].
  assert (beatPeriod + RPCTimeout < electionTimeOut) by done. lia.
Qed.

End raft.

(** Concrete peers, for witnesses: commands are integers. *)
Module RaftDemo.
Export ZeroRand CountableCodec.

Definition dummy : Raft Z :=
  MkRaft 0 MakePersister 0 true FOLLOWER 0 (-1) [] 0 0 [] [] 0 [] 0 true [] 0 0 0 0.

(** Peer [i] of [n], freshly made. *)
Definition boot (n i : Z) : Raft Z := default dummy (Make n i MakePersister).

Definition entry (c t : Z) : Log Z := MkLog (ICmd c) t.

(** Peer [i] of three in role [r] and term [t] with the entries [es] after the
    placeholder. *)
Definition peer (i : Z) (r : Role) (t : Z) (es : list (Log Z)) : Raft Z :=
  boot 3 i <| state := r |> <| currentTerm := t |> <| log := MkLog (IString "") 0 :: es |>.
End RaftDemo.

(** ** Witnesses *)
Import RaftDemo.

Lemma restart_restores_witness :
  ∃ rf', Make (C := Z) 3 1 (persister (persist (peer 1 LEADER 4 [entry 7 4]))) = Some rf'
  ∧ currentTerm rf' = 4.
Proof.
  destruct (restart_restores 3 1 (peer 1 LEADER 4 [entry 7 4])) as (rf' & Hm & Ht & _); [done|].
  exists rf'. split; [exact Hm|exact Ht].
Defined.

Lemma Start_spec_witness :
  ∃ rf', Start 9 (peer 1 FOLLOWER 4 [entry 7 4]) = Some (rf', (2, 4, false)).
Proof.
  destruct (Start_spec 9 (peer 1 FOLLOWER 4 [entry 7 4])) as (rf' & Hs & _).
  - by split; vm_compute.
  - exists rf'. exact Hs.
Defined.
