(* ===== verification/RaftVote.v ===== *)
(** * Raft: leader election

    [RequestVote], [SendRequest] and [Election] of [src/6.824/src/raft/raft.go].
    A handler runs under the peer's mutex, so it is one function of the state; the
    goroutines of [SendRequest] and the two critical sections of [Election] are
    separate functions, composed by [SendRequest] and [Election] below and
    interleaved with other handlers in [RaftCluster]. *)
From S2P Require Import Prelude RaftState.

Record RequestVoteArgs := MkRVArgs {
  rv_Term : Z;
  CandidateId : Z;
  LastLogIndex : Z;
  LastLogterm : Z
}.

Record RequestVoteReply := MkRVReply { rvr_Term : Z; VoteGranted : bool }.
#[export] Instance RequestVoteReply_eta : Eta RequestVoteReply :=
  λ r, MkRVReply (rvr_Term r) (VoteGranted r).

#[export] Instance RequestVoteArgs_eq_dec : EqDecision RequestVoteArgs.
Proof. solve_decision. Defined.
#[export] Instance RequestVoteReply_eq_dec : EqDecision RequestVoteReply.
Proof. solve_decision. Defined.

(** State of the goroutines of one [SendRequest]: the votes counted and whether
    a reply with a newer term made this peer step down. *)
Record SendState := MkSend { res : Z; another : bool }.
#[export] Instance SendState_eta : Eta SendState := λ s, MkSend (res s) (another s).

Section vote.
Context {C : Type} `{GoRand, GobCodec (RaftVal C)}.
Implicit Types rf : Raft C.

(** The log comparison of the last [if] of [RequestVote]. *)
Definition candidate_up_to_date (args : RequestVoteArgs) (lastLogTerm lastLogIndex : Z) : bool :=
  (lastLogTerm <? LastLogterm args)
  || ((lastLogTerm =? LastLogterm args) && (lastLogIndex <=? LastLogIndex args)).

Definition RequestVote (args : RequestVoteArgs) (reply : RequestVoteReply) rf :
    option (Raft C * RequestVoteReply) :=
  '(lastLogTerm, lastLogIndex) ← lastLogTermIndex rf;
  (* the final [if], reached by two of the branches *)
  let final rf :=
    if (voteFor rf =? -1) && candidate_up_to_date args lastLogTerm lastLogIndex then
      let rf := rf <| voteFor := CandidateId args |> in
      let reply := reply <| VoteGranted := true |> in
      rf ← changeRole FOLLOWER rf;
      Some (resetElectionTimer rf, reply)
    else Some (rf, reply) in
  '(rf, reply) ← (
    if rv_Term args <? currentTerm rf then Some (rf, reply)
    else if rv_Term args >? currentTerm rf then
      let rf := rf <| currentTerm := rv_Term args |> in
      rf ← changeRole FOLLOWER rf;
      final (rf <| voteFor := -1 |>)
    else if voteFor rf =? CandidateId args then
      rf ← changeRole FOLLOWER rf;
      Some (resetElectionTimer rf, reply <| VoteGranted := true |>)
    else if negb (voteFor rf =? -1) then Some (rf, reply)
    else final rf);
  Some (persist rf, reply).

(** The reply variable a caller passes. *)
Definition rv_reply0 : RequestVoteReply := MkRVReply 0 false.

(** One goroutine of [SendRequest], once [sendRequestVote] has returned:
    [None] is a failed call. *)
Definition SendRequest_reply (args : RequestVoteArgs) (r : option RequestVoteReply)
    (st : Raft C * SendState) : option (Raft C * SendState) :=
  let '(rf, ss) := st in
  match r with
  | None => Some (rf, ss)
  | Some reply =>
      if rvr_Term reply >? rv_Term args then
        if rvr_Term reply >? currentTerm rf then
          let rf := rf <| currentTerm := rvr_Term reply |> in
          rf ← changeRole FOLLOWER rf;
          Some (rf, ss <| another := true |>)
        else Some (rf, ss)
      else if VoteGranted reply then Some (rf, ss <| res := res ss + 1 |>)
      else Some (rf, ss)
  end.

(** After the [select]: the RPC timer fired or every peer answered. *)
Definition SendRequest_finish (st : Raft C * SendState) : Raft C * Z :=
  let '(rf, ss) := st in
  (if another ss then persist (resetElectionTimer rf) else rf, res ss).

(** [SendRequest] when the calls that returned in time are [replies], in order. *)
Definition SendRequest (args : RequestVoteArgs) (replies : list (option RequestVoteReply)) rf :
    option (Raft C * Z) :=
  st ← foldl (λ o r, o ≫= SendRequest_reply args r) (Some (rf, MkSend 0 false)) replies;
  Some (SendRequest_finish st).

(** The first critical section of [Election]: [None] inside is the early return
    of a leader. *)
Definition Election_begin rf : option (Raft C * option RequestVoteArgs) :=
  let rf := resetElectionTimer rf in
  if bool_decide (state rf = LEADER) then Some (rf, None)
  else
    rf ← changeRole CANDIDATE rf;
    let rf := persist rf in
    '(lastTerm, lastIndex) ← lastLogTermIndex rf;
    Some (rf, Some (MkRVArgs (currentTerm rf) (me rf) lastIndex lastTerm)).

(** The second critical section, given [SendRequest]'s count. *)
Definition Election_end (args : RequestVoteArgs) (count : Z) rf : option (Raft C) :=
  rf ← (if bool_decide (state rf = CANDIDATE) && (currentTerm rf =? rv_Term args)
           && (count >=? Z.quot (peers rf) 2) then
          rf ← changeRole LEADER rf; Some (persist rf)
        else Some rf);
  if bool_decide (state rf = LEADER) then Some (AENow rf) else Some rf.

(** An election with nothing interleaved. *)
Definition Election (replies : list (option RequestVoteReply)) rf : option (Raft C) :=
  '(rf, oargs) ← Election_begin rf;
  match oargs with
  | None => Some rf
  | Some args => '(rf, count) ← SendRequest args replies rf; Election_end args count rf
  end.

(** ** Lemmas *)

(** The part of a peer's state that elections depend on. *)
Definition vote_view rf : Z * Z * Role := (currentTerm rf, voteFor rf, state rf).

(** [RequestVote] as a decision: what it answers and the term and vote it leaves. *)
Definition vote_decision (args : RequestVoteArgs) rf : bool * (Z * Z * Role) :=
  let t := rv_Term args in
  let c := CandidateId args in
  let fresh := candidate_up_to_date args (lastTerm rf) (lastIndex rf) in
  if t <? currentTerm rf then (false, vote_view rf)
  else if currentTerm rf <? t then
    if fresh then (true, (t, c, FOLLOWER)) else (false, (t, -1, FOLLOWER))
  else if voteFor rf =? c then (true, (t, c, FOLLOWER))
  else if voteFor rf =? -1 then
    if fresh then (true, (t, c, FOLLOWER)) else (false, vote_view rf)
  else (false, vote_view rf).

Lemma RequestVote_decision args reply rf rf' reply' :
  RequestVote args reply rf = Some (rf', reply') →
  VoteGranted reply = false →
  (VoteGranted reply', vote_view rf') = vote_decision args rf
  ∧ rvr_Term reply' = rvr_Term reply
  ∧ ReadRaftState (persister rf') = Some (getPersistData rf')
  ∧ log rf' = log rf ∧ me rf' = me rf ∧ peers rf' = peers rf.
Proof.
  unfold RequestVote, vote_decision, vote_view. intros Hr Hg.
  destruct (lastLogTermIndex rf) as [[lt li]|] eqn:Hl; [|done].
  apply lastLogTermIndex_Some in Hl as (-> & -> & _). simpl in Hr.
  rewrite Z.gtb_ltb in Hr.
  destruct (Z.ltb_spec (rv_Term args) (currentTerm rf)); simpl in Hr.
  { simplify_eq/=. by rewrite Hg. }
  destruct (Z.ltb_spec (currentTerm rf) (rv_Term args)); simpl in Hr.
  { destruct (candidate_up_to_date _ _ _); simplify_eq/=; by rewrite ?Hg. }
  assert (rv_Term args = currentTerm rf) as Ht by lia.
  destruct (Z.eqb_spec (voteFor rf) (CandidateId args)) as [Hv|]; simpl in Hr.
  { simplify_eq/=. by rewrite Ht, Hv. }
  destruct (Z.eqb_spec (voteFor rf) (-1)); simpl in Hr.
  - destruct (candidate_up_to_date _ _ _); simplify_eq/=; by rewrite ?Hg, ?Ht.
  - simplify_eq/=. by rewrite Hg.
Qed.

Lemma RequestVote_total args reply rf :
  log rf ≠ [] → is_Some (RequestVote args reply rf).
Proof.
  intros Hl. unfold RequestVote. rewrite lastLogTermIndex_spec by done. simpl.
  repeat (case_match || simpl); eauto.
Qed.

(** The reply's term is never written, so a candidate with an older term learns nothing
    from a refusal. *)
Lemma RequestVote_reply_term args rf rf' reply :
  RequestVote args rv_reply0 rf = Some (rf', reply) → rvr_Term reply = 0.
Proof. intros Hr. apply RequestVote_decision in Hr as (_ & -> & _); done. Qed.

(** ** Properties *)

(** The voting rules: [RequestVote] always answers on a peer with a log; it never
    goes back in terms, never changes a vote within a term, and grants a vote only for
    the term it then holds, to a candidate it had already voted for in that term or
    whose log is at least as up to date, recording that vote durably before it answers;
    a candidate of an older term changes nothing but the persister. *)
Theorem RequestVote_rules args rf :
  log rf ≠ [] →
  ∃ rf' reply, RequestVote args rv_reply0 rf = Some (rf', reply)
  ∧ currentTerm rf ≤ currentTerm rf'
  ∧ (currentTerm rf' = currentTerm rf → voteFor rf ≠ -1 → voteFor rf' = voteFor rf)
  ∧ (rv_Term args < currentTerm rf → VoteGranted reply = false ∧ vote_view rf' = vote_view rf)
  ∧ (VoteGranted reply = true →
       rv_Term args = currentTerm rf' ∧ voteFor rf' = CandidateId args ∧ state rf' = FOLLOWER
       ∧ (rv_Term args = currentTerm rf ∧ voteFor rf = CandidateId args
          ∨ candidate_up_to_date args (lastTerm rf) (lastIndex rf) = true))
  ∧ ReadRaftState (persister rf') = Some (getPersistData rf') ∧ log rf' = log rf.
Proof.
  intros Hl. destruct (RequestVote_total args rv_reply0 rf Hl) as [[rf' reply] Hr].
  exists rf', reply. split; [done|].
  apply RequestVote_decision in Hr as (Hd & _ & Hp & Hlog & _); [|done].
  unfold vote_decision in Hd. unfold vote_view in *.
  destruct (Z.ltb_spec (rv_Term args) (currentTerm rf)).
  { injection Hd as -> -> -> ->. split_and!; naive_solver lia. }
  destruct (Z.ltb_spec (currentTerm rf) (rv_Term args)).
  { destruct (candidate_up_to_date _ _ _) eqn:Hu; injection Hd as -> -> -> ->; rewrite ?Hu;
      split_and!; naive_solver lia. }
  assert (rv_Term args = currentTerm rf) as Ht by lia.
  destruct (Z.eqb_spec (voteFor rf) (CandidateId args)) as [Hv|].
  { injection Hd as -> -> -> ->. rewrite Ht, Hv. split_and!; naive_solver lia. }
  destruct (Z.eqb_spec (voteFor rf) (-1)) as [Hv|].
  - destruct (candidate_up_to_date _ _ _) eqn:Hu; injection Hd as -> -> -> ->; rewrite ?Ht;
      split_and!; naive_solver lia.
  - injection Hd as -> -> -> ->. split_and!; naive_solver lia.
Qed.

End vote.

(** ** Witnesses *)
Import RaftDemo.

Lemma RequestVote_rules_witness :
  ∃ rf' reply, RequestVote (MkRVArgs 5 2 3 4) rv_reply0 (peer 1 LEADER 4 [entry 7 4])
    = Some (rf', reply) ∧ 4 ≤ currentTerm rf'.
Proof.
  destruct (RequestVote_rules (MkRVArgs 5 2 3 4) (peer 1 LEADER 4 [entry 7 4]))
    as (rf' & reply & Hr & Ht & _); [done|].
  exists rf', reply. split; [exact Hr|exact Ht].
Defined.
