(* ===== verification/RaftSnapshot.v ===== *)
(** * Raft: log compaction

    [src/6.824/src/raft/snapshot.go]: the service compacts the log with
    [SaveStateAndSnapshot]; a leader sends its snapshot to a peer that lags behind
    with [InstallSnapshotToPeers], which the peer handles in [InstallSnapshot]. *)
From S2P Require Import Prelude RaftState.

Record InstallSnapshotArgs := MkISArgs {
  is_Term : Z;
  is_LeaderId : Z;
  LastIncludeIndex : Z;
  LastIncludeTerm : Z;
  is_Data : option (list Byte.byte);
  is_Done : bool
}.

Record InstallSnapshotReply := MkISReply { isr_Term : Z }.

(** What the [select] of [InstallSnapshotToPeers] saw. *)
Inductive SnapshotRPC := ISReply (r : InstallSnapshotReply) | ISTimeout | ISStopped.

Section snapshot.
Context {C : Type} `{GoRand, GobCodec (RaftVal C)}.
Implicit Types rf : Raft C.

Definition SaveStateAndSnapshot (index : Z) (snap : option (list Byte.byte)) rf :
    option (Raft C) :=
  if index <? lastSnapshotIndex rf then Some rf
  else
    lastLog ← (log rf).[getRealLogIndex index rf];
    l ← slice_from (log rf) (getRealLogIndex index rf);
    let rf := rf <| log := l |> <| lastSnapshotIndex := index |>
                 <| lastSnapshotTerm := Term lastLog |> in
    Some (rf <| persister :=
      Persister_SaveStateAndSnapshot (getPersistData rf) snap (persister rf) |>).

(** The arguments [InstallSnapshotToPeers] sends. *)
Definition InstallSnapshotToPeers_args rf : InstallSnapshotArgs :=
  {| is_Term := currentTerm rf; is_LeaderId := me rf;
     LastIncludeIndex := lastSnapshotIndex rf; LastIncludeTerm := lastSnapshotTerm rf;
     is_Data := Persister_ReadSnapshot (persister rf); is_Done := false |}.

(** The [select] and the critical section after it; the loop body always returns. *)
Definition InstallSnapshotToPeers_result (index : Z) (r : SnapshotRPC) rf : option (Raft C) :=
  let check (replyTerm : Z) rf :=
    if replyTerm >? currentTerm rf then
      let rf := rf <| currentTerm := replyTerm |> in
      rf ← changeRole FOLLOWER rf;
      Some (resetElectionTimer rf)
    else Some rf in
  match r with
  | ISReply reply =>
      next ← slice_set (nextIndex rf) index (lastSnapshotIndex rf + 1);
      let rf := rf <| nextIndex := next |> in
      mtch ← slice_set (matchIndex rf) index (lastSnapshotIndex rf);
      let rf := rf <| matchIndex := mtch |> in
      check (isr_Term reply) rf
  | ISTimeout => check 0 rf
  | ISStopped => Some rf
  end.

Definition InstallSnapshot (args : InstallSnapshotArgs) rf :
    option (Raft C * InstallSnapshotReply) :=
  let reply := MkISReply (currentTerm rf) in
  if is_Term args <? currentTerm rf then Some (rf, reply)
  else
    (* the deferred [persist] of the newer-term branch *)
    let newer := is_Term args >? currentTerm rf in
    rf ← (if newer then
            rf ← changeRole FOLLOWER rf;
            Some (resetElectionTimer (rf <| currentTerm := is_Term args |>))
          else Some rf);
    let deferred rf := if newer then persist rf else rf in
    if lastSnapshotIndex rf >=? LastIncludeIndex args then Some (deferred rf, reply)
    else
      let offset := LastIncludeIndex args - lastSnapshotIndex rf in
      l ← (if offset >=? len (log rf) then Some [MkLog INil (LastIncludeTerm args)]
           else slice_from (log rf) offset);
      let rf := rf <| log := l |> <| lastSnapshotIndex := LastIncludeIndex args |>
                   <| lastSnapshotTerm := LastIncludeTerm args |> in
      let rf := rf <| persister :=
        Persister_SaveStateAndSnapshot (getPersistData rf) (is_Data args) (persister rf) |> in
      Some (deferred rf, reply).

(** ** Lemmas *)

(** The entry at a log index, and the indices after the snapshot that hold one. *)
Definition log_at rf (j : Z) : option (Log C) := (log rf).[j - lastSnapshotIndex rf].

Lemma log_at_drop l d j :
  0 ≤ d ≤ len l → d ≤ j → (drop (Z.to_nat d) l).[j - d] = l.[j] :> option (Log C).
Proof.
  intros. unfold slice_get.
  rewrite (proj2 (Z.leb_le 0 (j - d))), (proj2 (Z.leb_le 0 j)) by lia.
  rewrite lookup_drop. f_equal. lia.
Qed.

(** Compaction keeps every entry from the snapshot index on, and the persisted
    state is the new one. *)
Lemma SaveStateAndSnapshot_spec index snap rf :
  lastSnapshotIndex rf ≤ index ≤ lastIndex rf →
  ∃ rf', SaveStateAndSnapshot index snap rf = Some rf'
    ∧ lastSnapshotIndex rf' = index
    ∧ Some (lastSnapshotTerm rf') = Term <$> log_at rf index
    ∧ lastIndex rf' = lastIndex rf
    ∧ (∀ j, index ≤ j → log_at rf' j = log_at rf j)
    ∧ persister rf' = MkPersister (Some (getPersistData rf')) snap
    ∧ (currentTerm rf', voteFor rf', state rf', commitIndex rf', lastApplied rf')
      = (currentTerm rf, voteFor rf, state rf, commitIndex rf, lastApplied rf).
Proof.
  unfold lastIndex. intros Hi. unfold SaveStateAndSnapshot, getRealLogIndex.
  destruct (Z.ltb_spec index (lastSnapshotIndex rf)); [lia|].
  destruct (Z.ltb_spec (index - lastSnapshotIndex rf) 0); [lia|].
  destruct (slice_get_lt (log rf) (index - lastSnapshotIndex rf)) as [e He]; [lia|].
  rewrite He. simpl. rewrite slice_from_lt by lia. simpl.
  eexists. split; [done|]. simpl. unfold log_at. simpl.
  split_and!; [done| by rewrite He | rewrite length_drop; lia | | done | done].
  intros j Hj. rewrite <- (log_at_drop (log rf) (index - lastSnapshotIndex rf)) by lia.
  f_equal. lia.
Qed.

Lemma InstallSnapshot_total args rf : 
  log rf ≠ [] → ∃ p, InstallSnapshot args rf = Some p.
Proof.
  intros Hl. unfold InstallSnapshot. rewrite !Z.gtb_ltb.
  destruct (Z.ltb_spec (is_Term args) (currentTerm rf)); [eauto|].
  pose proof (log_length_pos rf Hl).
  destruct (Z.ltb_spec (currentTerm rf) (is_Term args)); simpl;
  (rewrite Z.geb_leb; destruct (Z.leb_spec (LastIncludeIndex args) (lastSnapshotIndex rf)); [eauto|];
   rewrite Z.geb_leb;
   destruct (Z.leb_spec (len (log rf)) (LastIncludeIndex args - lastSnapshotIndex rf)); simpl;
   [eauto|rewrite slice_from_lt by lia; simpl; eauto]).
Qed.

(** The fields elections read, and what was made durable. *)
Lemma InstallSnapshot_view args rf rf' reply :
  InstallSnapshot args rf = Some (rf', reply) →
  (currentTerm rf' = currentTerm rf ∧ state rf' = state rf
   ∨ currentTerm rf < currentTerm rf' ∧ state rf' = FOLLOWER)
  ∧ voteFor rf' = voteFor rf ∧ me rf' = me rf ∧ peers rf' = peers rf
  ∧ appendEntriesTimer rf' = appendEntriesTimer rf
  ∧ nextIndex rf' = nextIndex rf ∧ matchIndex rf' = matchIndex rf
  ∧ (persister rf' = persister rf ∨ raftstate (persister rf') = Some (getPersistData rf')).
Proof.
  unfold InstallSnapshot. rewrite !Z.gtb_ltb.
  destruct (Z.ltb_spec (is_Term args) (currentTerm rf)); [naive_solver|].
  destruct (Z.ltb_spec (currentTerm rf) (is_Term args)); simpl;
    destruct (_ >=? _); simpl; intros ?; simplify_option_eq; split_and!; auto.
Qed.

(** What a snapshot leaves in the persister. *)
Lemma snapshot_saved index snap rf rf' :
  lastSnapshotIndex rf ≤ index → SaveStateAndSnapshot index snap rf = Some rf' →
  persister rf' = MkPersister (Some (getPersistData rf')) snap ∧ lastSnapshotIndex rf' = index.
Proof.
  intros Hi. unfold SaveStateAndSnapshot.
  destruct (Z.ltb_spec index (lastSnapshotIndex rf)); [lia|]. intros. run_option. done.
Qed.

End snapshot.
