(* ===== verification/RaftReplicate.v ===== *)
(** * Raft: log replication

    [src/6.824/src/raft/append_entries.go] with [getAEInfo] ([common.go]),
    [containsXTerm] and [CheckIfAEOutOfOrder] ([raft.go]).  The loop of
    [appendEntriesToPeer] is split at its RPC: [AE_prepare] is the first critical
    section, [AE_result] the second; [appendEntriesToPeer] runs the loop over the
    outcomes of its RPCs.  A request has the entries that the first section read: that the
    Go slice shares the array of [rf.log], which may be written again before the request is
    encoded, is not modelled. *)
From S2P Require Import Prelude RaftState RaftSnapshot.

Record AppendEntriesArgs (C : Type) := MkAEArgs {
  ae_Term : Z;
  LeaderId : Z;
  PrevLogIndex : Z;
  PrevLogTerm : Z;
  Entries : list (Log C);
  ae_LeaderCommit : Z
}.
Arguments MkAEArgs {C}. Arguments ae_Term {C}. Arguments LeaderId {C}.
Arguments PrevLogIndex {C}. Arguments PrevLogTerm {C}. Arguments Entries {C}.
Arguments ae_LeaderCommit {C}.

Record AppendEntriesReply := MkAEReply {
  Success : bool;
  aer_Term : Z;
  XTerm : Z;
  XIndex : Z;
  XLen : Z;
  NextIndex : Z
}.
#[export] Instance AppendEntriesReply_eta : Eta AppendEntriesReply :=
  λ r, MkAEReply (Success r) (aer_Term r) (XTerm r) (XIndex r) (XLen r) (NextIndex r).

(** How the loop of [appendEntriesToPeer] goes on after a reply. *)
Inductive AEOutcome := AEReturn | AERetry | AEInstallSnapshot.

#[export] Instance AEOutcome_eq_dec : EqDecision AEOutcome.
Proof. solve_decision. Defined.

Section replicate.
Context {C : Type} `{GoRand, GobCodec (RaftVal C)}.
Implicit Types (rf : Raft C) (args : AppendEntriesArgs C).

Definition ae_reply0 : AppendEntriesReply := MkAEReply false 0 0 0 0 0.

(** ** The leader's side *)

(** The arguments of a [DPrintf] are evaluated even when nothing is printed. *)
Definition debug_peer_indices rf : option (list (Z * Z)) :=
  mapM (λ i, m ← (matchIndex rf).[i]; n ← (nextIndex rf).[i]; Some (m, n))
    (seqZ 0 (peers rf)).

Definition getAEInfo (index : Z) rf : option (Z * Z * list (Log C)) :=
  _ ← debug_peer_indices rf;
  '(lastLogTerm, lastLogIndex) ← lastLogTermIndex rf;
  next ← (nextIndex rf).[index];
  if next <=? lastSnapshotIndex rf then Some (lastLogTerm, lastLogIndex, [])
  else
    let prevIdx := next - 1 in
    entry ← (log rf).[prevIdx - lastSnapshotIndex rf];
    res ← slice_from (log rf) (getRealLogIndex next rf);
    Some (Term entry, prevIdx, res).

(** The search of [containsXTerm] from position [i] down to 1. *)
Fixpoint containsXTerm_loop (l : list (Log C)) (term : Z) (i : nat) : option Z :=
  match i with
  | O => Some (-1)
  | S i' =>
      e ← l.[Z.of_nat i];
      if Term e =? term then Some (Z.of_nat i) else containsXTerm_loop l term i'
  end.

Definition containsXTerm (term : Z) rf : option Z :=
  containsXTerm_loop (log rf) term (Z.to_nat (len (log rf) - 1)).

Definition AE_prepare (index : Z) rf : option (Raft C * option (AppendEntriesArgs C)) :=
  rf ← resetAETimer index rf;
  if negb (bool_decide (state rf = LEADER)) then Some (rf, None)
  else
    let rf := resetElectionTimer rf in
    '(prevLogTerm, prevLogIndex, AELog) ← getAEInfo index rf;
    _ ← (nextIndex rf).[index];
    Some (rf, Some (MkAEArgs (currentTerm rf) (me rf) prevLogIndex prevLogTerm AELog
                      (commitIndex rf))).

(** The inner loop of [LeaderCommit]: it stops once more than [half] peers match. *)
Fixpoint reaches_majority (half i cnt : Z) (ts : list Z) : bool :=
  match ts with
  | [] => false
  | t :: ts =>
      if t >=? i then
        let cnt := cnt + 1 in
        if cnt >? half then true else reaches_majority half i cnt ts
      else reaches_majority half i cnt ts
  end.

Definition LeaderCommit_step rf (i : Z) : Raft C :=
  if reaches_majority (Z.quot (peers rf) 2) i 0 (matchIndex rf)
  then rf <| commitIndex := i |> else rf.

(** [hasCommit] is never set, so the loop is the whole effect. *)
Definition LeaderCommit rf : Raft C :=
  let first := commitIndex rf + 1 in
  let lst := len (log rf) + lastSnapshotIndex rf in
  foldl LeaderCommit_step rf (seqZ first (lst - first + 1)).

Definition AE_result (index : Z) args (reply : AppendEntriesReply) rf :
    option (Raft C * AEOutcome) :=
  if aer_Term reply >? currentTerm rf then
    rf ← changeRole FOLLOWER rf;
    let rf := resetElectionTimer rf in
    let rf := rf <| currentTerm := aer_Term reply |> in
    Some (persist rf, AEReturn)
  else if negb (bool_decide (state rf = LEADER)) || negb (currentTerm rf =? ae_Term args)
  then Some (rf, AEReturn)
  else if Success reply then
    next ← (nextIndex rf).[index];
    nexts ← slice_set (nextIndex rf) index (next + len (Entries args));
    let rf := rf <| nextIndex := nexts |> in
    next ← (nextIndex rf).[index];
    mtch ← slice_set (matchIndex rf) index (next - 1);
    let rf := rf <| matchIndex := mtch |> in
    let current :=
      match list.last (Entries args) with
      | Some e => Term e =? currentTerm rf | None => false
      end in
    Some (if current then LeaderCommit rf else rf, AEReturn)
  else if NextIndex reply =? -1 then Some (rf, AEReturn)
  else
    (* XTerm is read from reply.Term *)
    let '(XTerm, XIndex, XLen) := (aer_Term reply, XIndex reply, XLen reply) in
    NextIndex ← (
      if negb (XLen =? -1) then Some XLen
      else if negb (XTerm =? -1) then
        idx ← containsXTerm XTerm rf;
        Some (if negb (idx =? -1) then idx + lastSnapshotIndex rf else XIndex)
      else Some 0);
    nexts ← slice_set (nextIndex rf) index NextIndex;
    let rf := rf <| nextIndex := nexts |> in
    mtch ← slice_set (matchIndex rf) index (NextIndex - 1);
    let rf := rf <| matchIndex := mtch |> in
    Some (rf, if NextIndex <=? lastSnapshotIndex rf then AEInstallSnapshot else AERetry).

(** One pass of the loop over the outcomes of its RPCs: a reply or a failed or
    timed-out call; when a snapshot is sent, [snap] is what that RPC returned. *)
Fixpoint appendEntriesToPeer (index : Z) (rpcs : list (option AppendEntriesReply))
    (snap : SnapshotRPC) rf : option (Raft C) :=
  match rpcs with
  | [] => Some rf
  | rpc :: rpcs =>
      if killed rf then Some rf
      else
        '(rf, oargs) ← AE_prepare index rf;
        match oargs, rpc with
        | None, _ => Some rf
        | Some _, None => appendEntriesToPeer index rpcs snap rf
        | Some args, Some reply =>
            '(rf, next) ← AE_result index args reply rf;
            match next with
            | AEReturn => Some rf
            | AERetry => appendEntriesToPeer index rpcs snap rf
            | AEInstallSnapshot => InstallSnapshotToPeers_result index snap rf
            end
        end
  end.

(** ** The follower's side *)

Definition CheckIfAEOutOfOrder args rf : option bool :=
  let argsLastIndex := PrevLogIndex args + len (Entries args) in
  '(myLastTerm, myLastIndex) ← lastLogTermIndex rf;
  Some ((ae_Term args <? myLastTerm)
        || ((argsLastIndex <? myLastIndex) && (myLastTerm =? ae_Term args))).

(** The search for the first entry of the conflicting term, with fuel. *)
Fixpoint find_XIndex (fuel : nat) (term : Z) (idx : Z) rf : option Z :=
  match fuel with
  | O => Some idx
  | S fuel =>
      if idx - lastSnapshotIndex rf <? len (log rf) then
        e ← (log rf).[getRealLogIndex idx rf];
        if Term e =? term then Some idx else find_XIndex fuel term (idx + 1) rf
      else Some idx
  end.

(** The commit rule at the end of [AppendEntries]. *)
Definition AE_commit args (reply : AppendEntriesReply) rf : option (Raft C) :=
  if Success reply && (ae_LeaderCommit args >? commitIndex rf) then
    '(_, lastIndex) ← lastLogTermIndex rf;
    let rf := rf <| commitIndex := min (ae_LeaderCommit args) lastIndex |> in
    Some (rf <| notifyApplyCh := notifyApplyCh rf + 1 |>)
  else Some rf.

(** The three cases once the previous index is known to be in the log; the boolean
    tells whether the handler goes on to its commit rule. *)
Definition AE_match args (reply : AppendEntriesReply) rf :
    option (Raft C * AppendEntriesReply * bool) :=
  entry ← (log rf).[getRealLogIndex (PrevLogIndex args) rf];
  if PrevLogIndex args =? lastSnapshotIndex rf then
    ooo ← CheckIfAEOutOfOrder args rf;
    if (ooo : bool) then
      Some (rf, reply <| Success := false |> <| NextIndex := -1 |>, false)
    else
      base ← slice_upto (log rf) 1;
      Some (rf <| log := base ++ Entries args |>, reply <| Success := true |>, true)
  else if PrevLogTerm args =? Term entry then
    ooo ← CheckIfAEOutOfOrder args rf;
    if (ooo : bool) then
      Some (rf, reply <| Success := false |> <| NextIndex := -1 |>, true)
    else
      base ← slice_upto (log rf) (getRealLogIndex (PrevLogIndex args) rf + 1);
      Some (rf <| log := base ++ Entries args |>, reply <| Success := true |>, true)
  else
    idx ← find_XIndex (length (log rf)) (Term entry) (lastSnapshotIndex rf + 1) rf;
    Some (rf, reply <| Success := false |> <| XTerm := Term entry |> <| XIndex := idx |>, true).

Definition AppendEntries args (reply : AppendEntriesReply) rf :
    option (Raft C * AppendEntriesReply) :=
  let reply := reply <| XTerm := -1 |> <| XIndex := -1 |> <| XLen := -1 |> in
  if ae_Term args <? currentTerm rf then
    Some (rf, reply <| Success := false |> <| aer_Term := currentTerm rf |>)
  else
    let rf := resetElectionTimer rf in
    let rf := rf <| currentTerm := ae_Term args |> in
    rf ← changeRole FOLLOWER rf;
    '(_, lastLogIndex) ← lastLogTermIndex rf;
    '(rf, reply) ← (
      if lastLogIndex <? PrevLogIndex args then
        Some (rf, reply <| XLen := lastLogIndex + 1 |> <| Success := false |>)
      else if PrevLogIndex args <? lastSnapshotIndex rf then
        Some (rf, reply <| NextIndex := lastSnapshotIndex rf + 1 |> <| Success := false |>)
      else
        '(rf, reply, goes_on) ← AE_match args reply rf;
        if (goes_on : bool) then rf ← AE_commit args reply rf; Some (rf, reply)
        else Some (rf, reply));
    Some (persist rf, reply).

(** ** Lemmas *)

Lemma getRealLogIndex_in i rf :
  lastSnapshotIndex rf ≤ i → getRealLogIndex i rf = i - lastSnapshotIndex rf.
Proof. intros. unfold getRealLogIndex. destruct (Z.ltb_spec (i - lastSnapshotIndex rf) 0); lia. Qed.

Lemma getRealLogIndex_ge rf i : -1 ≤ getRealLogIndex i rf.
Proof. unfold getRealLogIndex. destruct (Z.ltb_spec (i - lastSnapshotIndex rf) 0); lia. Qed.

Lemma min_Z x y : min x y = Z.min x y.
Proof. unfold min. destruct (Z.ltb_spec x y); lia. Qed.

(** The log a successful [AE_match] leaves. *)
Definition spliced_log args rf : list (Log C) :=
  take (Z.to_nat (PrevLogIndex args - lastSnapshotIndex rf + 1)) (log rf) ++ Entries args.

Lemma AE_match_cases args reply rf rf' reply' b :
  lastSnapshotIndex rf ≤ PrevLogIndex args ≤ lastIndex rf →
  Success reply = false →
  AE_match args reply rf = Some (rf', reply', b) →
  aer_Term reply' = aer_Term reply ∧
  ( (Success reply' = false ∧ rf' = rf)
  ∨ (Success reply' = true ∧ rf' = rf <| log := spliced_log args rf |>
     ∧ (PrevLogIndex args = lastSnapshotIndex rf
        ∨ Term <$> log_at rf (PrevLogIndex args) = Some (PrevLogTerm args))
     ∧ CheckIfAEOutOfOrder args rf = Some false) ).
Proof.
  intros Hp Hs. unfold AE_match, spliced_log, log_at, lastIndex in *.
  rewrite getRealLogIndex_in by lia.
  destruct ((log rf).[_]) as [e|] eqn:He; simpl; [|done].
  destruct (Z.eqb_spec (PrevLogIndex args) (lastSnapshotIndex rf)) as [Heq|].
  - destruct (CheckIfAEOutOfOrder args rf) as [[]|]; simpl; [naive_solver| |done].
    rewrite slice_upto_lt by lia. simpl. intros ?; simplify_eq/=.
    split; [done|]. right. split_and!; auto. rewrite Heq.
    by replace (lastSnapshotIndex rf - lastSnapshotIndex rf + 1) with 1 by lia.
  - destruct (Z.eqb_spec (PrevLogTerm args) (Term e)) as [Ht|].
    + destruct (CheckIfAEOutOfOrder args rf) as [[]|]; simpl; [naive_solver| |done].
      rewrite slice_upto_lt by lia. simpl. intros ?; simplify_eq/=.
      split; [done|]. right. split_and!; auto. right. by rewrite Ht.
    + destruct (find_XIndex _ _ _ _); simpl; [|done]. naive_solver.
Qed.

Lemma AE_commit_spec args reply rf rf' :
  AE_commit args reply rf = Some rf' →
  ∃ ci n, rf' = rf <| commitIndex := ci |> <| notifyApplyCh := n |>
   ∧ (ci = commitIndex rf
     ∨ Success reply = true ∧ commitIndex rf < ae_LeaderCommit args
       ∧ ci = Z.min (ae_LeaderCommit args) (lastIndex rf)).
Proof.
  unfold AE_commit. rewrite Z.gtb_ltb.
  destruct (Success reply) eqn:?; simpl;
    [|intros; simplify_eq; exists (commitIndex rf'), (notifyApplyCh rf');
      split; [by destruct rf'|auto]].
  destruct (Z.ltb_spec (commitIndex rf) (ae_LeaderCommit args));
    [|intros; simplify_eq; exists (commitIndex rf'), (notifyApplyCh rf');
      split; [by destruct rf'|auto]].
  destruct (lastLogTermIndex rf) as [[t i]|] eqn:Hl; simpl; [|done].
  apply lastLogTermIndex_Some in Hl as (_ & -> & _).
  intros ?; simplify_eq. eexists _, _; split; [done|]. right. by rewrite min_Z.
Qed.

(** Everything [AppendEntries] can do, as one disjunction: it refuses a stale
    term, or it takes the term over as a follower, and then either leaves the log
    alone and reports failure, or splices the entries in and may move its commit
    index. *)
Lemma AppendEntries_cases args reply rf rf' reply' :
  Success reply = false →
  AppendEntries args reply rf = Some (rf', reply') →
  (ae_Term args < currentTerm rf ∧ rf' = rf ∧ Success reply' = false
   ∧ aer_Term reply' = currentTerm rf)
  ∨ (currentTerm rf ≤ ae_Term args
     ∧ aer_Term reply' = aer_Term reply
     ∧ ∃ l ci n k,
       rf' = persist (rf <| electionTimer := GetRandElectionTime (rng rf) |> <| rng := k |>
         <| currentTerm := ae_Term args |> <| state := FOLLOWER |> <| log := l |>
         <| commitIndex := ci |> <| notifyApplyCh := n |>)
       ∧ ( (Success reply' = false ∧ l = log rf ∧ ci = commitIndex rf)
         ∨ (Success reply' = true ∧ l = spliced_log args rf
            ∧ lastSnapshotIndex rf ≤ PrevLogIndex args ≤ lastIndex rf
            ∧ (PrevLogIndex args = lastSnapshotIndex rf
               ∨ Term <$> log_at rf (PrevLogIndex args) = Some (PrevLogTerm args))
            ∧ CheckIfAEOutOfOrder args rf = Some false
            ∧ (ci = commitIndex rf
               ∨ commitIndex rf < ae_LeaderCommit args
                 ∧ ci = Z.min (ae_LeaderCommit args)
                          (PrevLogIndex args + len (Entries args)))))).
Proof.
  intros Hs. unfold AppendEntries.
  destruct (Z.ltb_spec (ae_Term args) (currentTerm rf)) as [Hlt|Hle].
  { intros; simplify_eq/=. left. auto. }
  simpl. destruct (lastLogTermIndex _) as [[t li]|] eqn:Hl; simpl; [|done].
  apply lastLogTermIndex_Some in Hl as (_ & -> & _). intros Hr. right. split; [done|].
  assert (Hid : ∀ l, l = log rf → ∃ n k,
    persist (rf <| electionTimer := GetRandElectionTime (rng rf) |> <| rng := S (rng rf) |>
      <| currentTerm := ae_Term args |> <| state := FOLLOWER |>) =
    persist (rf <| electionTimer := GetRandElectionTime (rng rf) |> <| rng := k |>
      <| currentTerm := ae_Term args |> <| state := FOLLOWER |> <| log := l |>
      <| commitIndex := commitIndex rf |> <| notifyApplyCh := n |>)).
  { intros ? ->. exists (notifyApplyCh rf), (S (rng rf)). by destruct rf. }
  unfold lastIndex in Hr at 1. simpl in Hr.
  destruct (Z.ltb_spec (lastSnapshotIndex rf + len (log rf) - 1) (PrevLogIndex args)) as [Hp|Hp].
  { simplify_eq/=. split; [done|]. destruct (Hid (log rf) eq_refl) as (n & k & Hk).
    eexists _, _, n, k. split; [exact Hk|]. by left. }
  destruct (Z.ltb_spec (PrevLogIndex args) (lastSnapshotIndex rf)) as [Hq|Hq].
  { simplify_eq/=. split; [done|]. destruct (Hid (log rf) eq_refl) as (n & k & Hk).
    eexists _, _, n, k. split; [exact Hk|]. by left. }
  destruct (AE_match _ _ _) as [[[rf1 r1] b]|] eqn:Hm; simpl in Hr; [|done].
  apply AE_match_cases in Hm as [Ht Hm]; [|unfold lastIndex; simpl; lia|done].
  simpl in Ht.
  assert (∃ ci n, rf' = persist (rf1 <| commitIndex := ci |> <| notifyApplyCh := n |>)
    ∧ reply' = r1 ∧ (ci = commitIndex rf1 ∨ Success r1 = true
        ∧ commitIndex rf1 < ae_LeaderCommit args
        ∧ ci = Z.min (ae_LeaderCommit args) (lastIndex rf1))) as (ci & n & -> & -> & Hci).
  { destruct b; [|simplify_eq/=; exists (commitIndex rf1), (notifyApplyCh rf1);
      split; [by destruct rf1|auto]].
    destruct (AE_commit _ _ _) as [rf2|] eqn:Hc; simplify_eq/=.
    apply AE_commit_spec in Hc as (ci & n & -> & Hci). eauto 6. }
  split; [done|]. destruct Hm as [[Hf ->]|(Hf & -> & Hpt & Hooo)].
  - exists (log rf), ci, n, (S (rng rf)). split; [by destruct rf|].
    left. split_and!; auto. destruct Hci as [->|[? _]]; [done|congruence].
  - exists (spliced_log args rf), ci, n, (S (rng rf)). split; [done|].
    right. unfold lastIndex in *; simpl in *. split_and!; auto; try lia.
    destruct Hci as [->|(_ & ? & ->)]; [auto|right; split; [done|]].
    unfold spliced_log at 1. simpl. rewrite length_app, length_take. lia.
Qed.

(** How many peers are recorded as holding the log up to index [i]. *)
Definition matched (i : Z) (ts : list Z) : Z := len (filter (λ t, i ≤ t) ts).

Lemma reaches_majority_spec half i ts cnt :
  cnt ≤ half → reaches_majority half i cnt ts = true ↔ half < cnt + matched i ts.
Proof.
  unfold matched. revert cnt. induction ts as [|t ts IH]; intros cnt Hc; simpl.
  { split; [done|lia]. }
  rewrite Z.geb_leb, filter_cons. destruct (Z.leb_spec i t), (decide (i ≤ t)); try lia.
  - rewrite Z.gtb_ltb. destruct (Z.ltb_spec half (cnt + 1)); simpl.
    + split; [lia|done].
    + rewrite IH by lia. lia.
  - rewrite IH by lia. lia.
Qed.

Definition majority_matched rf (i : Z) : Prop := Z.quot (peers rf) 2 < matched i (matchIndex rf).

Lemma matched_antitone i j ts : i ≤ j → matched j ts ≤ matched i ts.
Proof.
  intros. unfold matched. induction ts as [|t ts IH]; [done|].
  rewrite !filter_cons. repeat case_decide; simpl; lia.
Qed.

Lemma LeaderCommit_loop rf a (n : nat) :
  0 ≤ peers rf → commitIndex rf < a →
  ∃ c, foldl LeaderCommit_step rf (seqZ a (Z.of_nat n)) = rf <| commitIndex := c |>
    ∧ (c = commitIndex rf ∨ a ≤ c < a + Z.of_nat n ∧ majority_matched rf c)
    ∧ (∀ i, a ≤ i < a + Z.of_nat n → majority_matched rf i → i ≤ c).
Proof.
  intros Hp Ha. induction n as [|n (c & IH & Hc & Hm)].
  - exists (commitIndex rf). split; [by destruct rf|]. split; [auto|lia].
  - rewrite seqZ_S, foldl_app, IH. simpl.
    unfold LeaderCommit_step. simpl.
    assert (0 ≤ Z.quot (peers rf) 2) by (apply Z.quot_pos; lia).
    destruct (reaches_majority _ _ _ _) eqn:Hr.
    + apply reaches_majority_spec in Hr; [|done].
      exists (a + Z.of_nat n). split; [done|]. split; [right; unfold majority_matched; lia|lia].
    + exists c. split; [done|]. split; [naive_solver lia|].
      intros i Hi Hmi. destruct (decide (i = a + Z.of_nat n)) as [->|]; [|apply Hm; [lia|done]].
      assert (reaches_majority (Z.quot (peers rf) 2) (a + Z.of_nat n) 0 (matchIndex rf) = true)
        by (by apply reaches_majority_spec). congruence.
Qed.

Lemma debug_peer_indices_spec rf :
  len (nextIndex rf) = peers rf → len (matchIndex rf) = peers rf →
  is_Some (debug_peer_indices rf).
Proof.
  intros Hn Hm. unfold debug_peer_indices. apply mapM_is_Some, Forall_seqZ.
  intros i Hi.
  destruct (slice_get_lt (matchIndex rf) i) as [m Hmi]; [lia|].
  destruct (slice_get_lt (nextIndex rf) i) as [n Hni]; [lia|].
  exists (m, n). by rewrite Hmi, Hni.
Qed.

Lemma log_at_last rf : log rf ≠ [] → log_at rf (lastIndex rf) ≠ None.
Proof.
  intros Hl. apply log_length_pos in Hl. unfold log_at, lastIndex.
  apply not_eq_None_Some, slice_get_is_Some. lia.
Qed.

Lemma lastTerm_at rf t i :
  lastLogTermIndex rf = Some (t, i) → Term <$> (log rf).[len (log rf) - 1] = Some t.
Proof. unfold lastLogTermIndex. destruct ((log rf).[_]); naive_solver. Qed.

(** The arguments a leader prepares describe its own log: the term at the
    previous index and exactly the entries after it. *)
Lemma getAEInfo_describes index rf pt pi es :
  getAEInfo index rf = Some (pt, pi, es) →
  lastSnapshotIndex rf ≤ pi ≤ lastIndex rf
  ∧ Term <$> log_at rf pi = Some pt
  ∧ es = drop (Z.to_nat (pi + 1 - lastSnapshotIndex rf)) (log rf).
Proof.
  unfold getAEInfo. destruct (debug_peer_indices rf); simpl; [|done].
  destruct (lastLogTermIndex rf) as [[lt li]|] eqn:Hl; simpl; [|done].
  pose proof Hl as Hll. apply lastLogTermIndex_Some in Hll as (-> & -> & Hne).
  pose proof (log_length_pos rf Hne).
  destruct ((nextIndex rf).[index]) as [next|]; simpl; [|done].
  destruct (Z.leb_spec next (lastSnapshotIndex rf)).
  - intros ?; simplify_eq. unfold lastIndex, log_at. split_and!; [lia|lia| |].
    + replace (lastSnapshotIndex rf + len (log rf) - 1 - lastSnapshotIndex rf)
        with (len (log rf) - 1) by lia. by eapply lastTerm_at.
    + symmetry. apply drop_ge. lia.
  - destruct ((log rf).[next - 1 - lastSnapshotIndex rf]) as [e|] eqn:He; simpl; [|done].
    rewrite getRealLogIndex_in by lia.
    destruct (slice_from _ _) as [es'|] eqn:Hs; simpl; [|done].
    intros ?; simplify_eq. assert (is_Some ((log rf).[next - 1 - lastSnapshotIndex rf])) as Hi by eauto.
    apply slice_get_is_Some in Hi.
    unfold log_at, lastIndex. rewrite He. split_and!; [lia|lia|done|].
    rewrite slice_from_lt in Hs by lia. simplify_eq.
    by replace (next - 1 + 1 - lastSnapshotIndex rf) with (next - lastSnapshotIndex rf) by lia.
Qed.

Lemma AE_prepare_describes index rf rf' args :
  AE_prepare index rf = Some (rf', Some args) →
  state rf = LEADER ∧ log rf' = log rf ∧ lastSnapshotIndex rf' = lastSnapshotIndex rf
  ∧ ae_Term args = currentTerm rf ∧ ae_LeaderCommit args = commitIndex rf
  ∧ lastSnapshotIndex rf ≤ PrevLogIndex args ≤ lastIndex rf
  ∧ Term <$> log_at rf (PrevLogIndex args) = Some (PrevLogTerm args)
  ∧ Entries args =
      drop (Z.to_nat (PrevLogIndex args + 1 - lastSnapshotIndex rf)) (log rf).
Proof.
  unfold AE_prepare, resetAETimer.
  destruct (slice_set (appendEntriesTimer rf) index beatPeriod); simpl; [|done].
  destruct (bool_decide (state rf = LEADER)) eqn:Hs; simpl; [|done].
  apply bool_decide_eq_true in Hs.
  destruct (getAEInfo _ _) as [[[pt pi] es]|] eqn:Hi; simpl; [|done].
  apply getAEInfo_describes in Hi.
  destruct ((nextIndex rf).[index]); simpl; [|done].
  intros ?; simplify_eq/=. split_and!; try done; apply Hi.
Qed.

Lemma log_at_splice args rf j :
  lastSnapshotIndex rf ≤ PrevLogIndex args ≤ lastIndex rf →
  (spliced_log args rf).[j - lastSnapshotIndex rf] =
  if decide (j ≤ PrevLogIndex args) then log_at rf j
  else (Entries args).[j - PrevLogIndex args - 1].
Proof.
  unfold lastIndex. intros Hp. unfold spliced_log, log_at.
  set (k := Z.to_nat (PrevLogIndex args - lastSnapshotIndex rf + 1)).
  assert (len (take k (log rf)) = PrevLogIndex args - lastSnapshotIndex rf + 1) as Hk
    by (rewrite length_take; lia).
  case_decide.
  - rewrite slice_get_app_l by lia. unfold slice_get.
    destruct (Z.leb_spec 0 (j - lastSnapshotIndex rf)); [|done].
    apply lookup_take_lt. lia.
  - rewrite slice_get_app_r by lia. f_equal. lia.
Qed.

Lemma AppendEntries_reply_success args reply rf rf' reply' :
  Success reply = false → AppendEntries args reply rf = Some (rf', reply') →
  Success reply' = true →
  log rf' = spliced_log args rf ∧ lastSnapshotIndex rf' = lastSnapshotIndex rf
  ∧ lastSnapshotIndex rf ≤ PrevLogIndex args ≤ lastIndex rf
  ∧ CheckIfAEOutOfOrder args rf = Some false.
Proof.
  intros Hs Hr Hs'. apply AppendEntries_cases in Hr as [(_ & _ & ? & _)|Hr]; [congruence| |done].
  destruct Hr as (_ & _ & l & ci & n & k & -> & [[? _]|(_ & -> & Hp & _ & ? & _)]);
    [congruence|done].
Qed.

Lemma find_XIndex_scan rf p e :
  lastSnapshotIndex rf < p ≤ lastIndex rf → log_at rf p = Some e →
  ∀ fuel i, lastSnapshotIndex rf < i ≤ p → p - i < Z.of_nat fuel →
  ∃ x, find_XIndex fuel (Term e) i rf = Some x ∧ i ≤ x ≤ p
    ∧ Term <$> log_at rf x = Some (Term e)
    ∧ (∀ j, i ≤ j < x → Term <$> log_at rf j ≠ Some (Term e)).
Proof.
  unfold lastIndex. intros Hp He fuel. induction fuel as [|fuel IH]; intros i Hi Hf; [lia|].
  simpl. destruct (Z.ltb_spec (i - lastSnapshotIndex rf) (len (log rf))); [|lia].
  rewrite getRealLogIndex_in by lia. unfold log_at in *.
  destruct (slice_get_lt (log rf) (i - lastSnapshotIndex rf)) as [e' He']; [lia|].
  rewrite He'. simpl. destruct (Z.eqb_spec (Term e') (Term e)) as [Ht|Ht].
  - exists i. rewrite He'. simpl. rewrite Ht. split_and!; [done|lia|lia|done|lia].
  - assert (i ≠ p) by (intros ->; congruence).
    destruct (IH (i + 1)) as (x & -> & Hx & Htx & Hn); [lia|lia|].
    exists x. split_and!; [done|lia|lia|done|].
    intros j Hj. destruct (decide (j = i)) as [->|]; [|apply Hn; lia].
    rewrite He'. simpl. congruence.
Qed.

Lemma find_XIndex_total rf t fuel i :
  lastSnapshotIndex rf ≤ i → is_Some (find_XIndex fuel t i rf).
Proof.
  revert i. induction fuel as [|fuel IH]; intros i Hi; simpl; [eauto|].
  destruct (Z.ltb_spec (i - lastSnapshotIndex rf) (len (log rf))); [|eauto].
  rewrite getRealLogIndex_in by lia.
  destruct (slice_get_lt (log rf) (i - lastSnapshotIndex rf)) as [e ->]; [lia|]. simpl.
  destruct (_ =? _); [eauto|]. apply IH. lia.
Qed.

Lemma CheckIfAEOutOfOrder_total args rf :
  log rf ≠ [] → is_Some (CheckIfAEOutOfOrder args rf).
Proof. intros. unfold CheckIfAEOutOfOrder. rewrite lastLogTermIndex_spec by done. simpl. eauto. Qed.

Lemma AE_match_total args reply rf :
  log rf ≠ [] → lastSnapshotIndex rf ≤ PrevLogIndex args ≤ lastIndex rf →
  is_Some (AE_match args reply rf).
Proof.
  unfold lastIndex. intros Hl Hp. unfold AE_match. rewrite !getRealLogIndex_in by lia.
  destruct (slice_get_lt (log rf) (PrevLogIndex args - lastSnapshotIndex rf)) as [e ->]; [lia|].
  destruct (CheckIfAEOutOfOrder_total args rf Hl) as [ooo Ho].
  destruct (find_XIndex_total rf (Term e) (length (log rf)) (lastSnapshotIndex rf + 1))
    as [x Hx]; [lia|]. pose proof (log_length_pos rf Hl).
  simpl. rewrite Ho, Hx, !slice_upto_lt by lia. simpl.
  destruct (_ =? _); [destruct ooo; eauto|]. destruct (_ =? _); [destruct ooo; eauto|eauto].
Qed.

Lemma AE_match_nonempty args reply rf rf' reply' b :
  log rf ≠ [] → AE_match args reply rf = Some (rf', reply', b) → log rf' ≠ [].
Proof.
  intros Hl. unfold AE_match.
  assert (∀ k es, (0 < k)%nat → take k (log rf) ++ es ≠ []) as Hk.
  { intros k es Hk. destruct (log rf), k; simpl; [done|done|lia|done]. }
  pose proof (getRealLogIndex_ge rf (PrevLogIndex args)) as Hge.
  destruct ((log rf).[_]) as [e|] eqn:He; simpl; [|done]. apply slice_get_Some in He as [He _].
  destruct (_ =? _); [|destruct (_ =? _)];
    [| |destruct (find_XIndex _ _ _ _); naive_solver];
    (destruct (CheckIfAEOutOfOrder _ _) as [[]|]; simpl; [naive_solver| |done]);
    (destruct (slice_upto _ _) as [l'|] eqn:Hu; simpl; [|done]);
    apply slice_upto_Some in Hu as [_ ->]; intros ?; simplify_eq/=; apply Hk; lia.
Qed.

(** ** Properties *)

(** C12. Replication copies the leader's log: when a follower accepts the entries a
    leader prepared for it, its log agrees with the leader's at every index after
    the previous index, is unchanged up to it, and ends where the leader's ends. *)
Theorem replication_copies_leader_log index L L' args F F' reply reply' :
  AE_prepare index L = Some (L', Some args) →
  Success reply = false →
  AppendEntries args reply F = Some (F', reply') →
  Success reply' = true →
  (∀ j, PrevLogIndex args < j → log_at F' j = log_at L j)
  ∧ (∀ j, j ≤ PrevLogIndex args → log_at F' j = log_at F j)
  ∧ lastIndex F' = lastIndex L.
Proof.
  intros Hp Hs Hr Hs'. apply AE_prepare_describes in Hp as (_ & _ & _ & _ & _ & HpL & _ & He).
  apply AppendEntries_reply_success in Hr as (Hl & Hsn & HpF & _); [|done..].
  unfold log_at at 1 3. rewrite Hl, Hsn. split_and!.
  - intros j Hj. rewrite log_at_splice by done. rewrite decide_False by lia.
    rewrite He. unfold lastIndex in HpL. unfold log_at at 1.
    rewrite <- (log_at_drop (log L) (PrevLogIndex args + 1 - lastSnapshotIndex L)) by lia.
    f_equal. lia.
  - intros j Hj. rewrite log_at_splice by done. by rewrite decide_True by lia.
  - unfold lastIndex in *. rewrite Hl, Hsn. unfold spliced_log.
    rewrite length_app, length_take, He, length_drop. lia.
Qed.

(** C37. The commit index of a follower: a successful [AppendEntries] never moves it
    past the end of the new log nor past the leader's commit index, and a failed one
    leaves the log and the commit index alone. *)
Theorem AppendEntries_commit_bounds args reply rf rf' reply' :
  Success reply = false →
  AppendEntries args reply rf = Some (rf', reply') →
  if Success reply' then
    commitIndex rf' = commitIndex rf
    ∨ commitIndex rf' ≤ lastIndex rf' ∧ commitIndex rf' ≤ ae_LeaderCommit args
      ∧ (commitIndex rf ≤ lastIndex rf' → commitIndex rf ≤ commitIndex rf')
  else log rf' = log rf ∧ commitIndex rf' = commitIndex rf.
Proof.
  intros Hs Hr. pose proof Hr as Hr'.
  apply AppendEntries_cases in Hr as [(_ & -> & -> & _)|Hr]; [done| |done].
  destruct Hr as (_ & _ & l & ci & n & k & -> & [(-> & -> & ->)|(-> & -> & Hp & _ & _ & Hc)]);
    [done|].
  simpl. destruct Hc as [->|[? ->]]; [auto|right].
  unfold lastIndex, spliced_log in *. simpl. rewrite length_app, length_take. lia.
Qed.

(** [AppendEntries] never panics on a peer with a non-empty log: every slice
    access of the handler is in range for any arguments. *)
Theorem AppendEntries_no_panic args reply rf :
  log rf ≠ [] → is_Some (AppendEntries args reply rf).
Proof.
  intros Hl. unfold AppendEntries.
  destruct (Z.ltb_spec (ae_Term args) (currentTerm rf)); [eauto|]. simpl.
  rewrite lastLogTermIndex_spec by done. simpl. unfold lastIndex. simpl.
  destruct (Z.ltb_spec (lastSnapshotIndex rf + len (log rf) - 1) (PrevLogIndex args)); [simpl; eauto|].
  destruct (Z.ltb_spec (PrevLogIndex args) (lastSnapshotIndex rf)); [simpl; eauto|].
  set (rf1 := resetElectionTimer rf <| currentTerm := ae_Term args |> <| state := FOLLOWER |>).
  assert (is_Some (AE_match args
    (reply <| XTerm := -1 |> <| XIndex := -1 |> <| XLen := -1 |>) rf1))
    as [[[rf2 r2] b] Hm] by (apply AE_match_total; [done|unfold lastIndex; simpl; lia]).
  rewrite Hm. simpl. destruct b; [|simpl; eauto].
  assert (log rf2 ≠ []) as Hl2 by (eapply AE_match_nonempty; [|done]; done).
  unfold AE_commit. destruct (_ && _); simpl; [|eauto].
  rewrite lastLogTermIndex_spec by done. simpl. eauto.
Qed.

(** A leader's commit rule: the commit index never moves back; if it moves, a
    majority of the recorded match indices have reached it; and no later index in
    the range it scans has a majority. *)
Theorem LeaderCommit_spec rf :
  0 ≤ peers rf →
  let c := commitIndex (LeaderCommit rf) in
  commitIndex rf ≤ c
  ∧ (c ≠ commitIndex rf → majority_matched rf c)
  ∧ (∀ i, c < i ≤ len (log rf) + lastSnapshotIndex rf → ¬ majority_matched rf i)
  ∧ LeaderCommit rf = rf <| commitIndex := c |>.
Proof.
  intros Hp. unfold LeaderCommit.
  set (n := Z.to_nat (len (log rf) + lastSnapshotIndex rf - (commitIndex rf + 1) + 1)).
  assert (seqZ (commitIndex rf + 1)
      (len (log rf) + lastSnapshotIndex rf - (commitIndex rf + 1) + 1)
    = seqZ (commitIndex rf + 1) (Z.of_nat n)) as ->.
  { destruct (decide (0 ≤ len (log rf) + lastSnapshotIndex rf - (commitIndex rf + 1) + 1)).
    - f_equal. lia.
    - rewrite !seqZ_nil by lia. done. }
  destruct (LeaderCommit_loop rf (commitIndex rf + 1) n) as (c & -> & Hc & Hm); [done|lia|].
  simpl. split_and!; [destruct Hc; lia|naive_solver| |done].
  intros i Hi Hmi. assert (i ≤ c); [|lia]. apply Hm; [|done]. destruct Hc; lia.
Qed.

(** The conflict hint: the search of [AppendEntries] for the first entry of the
    conflicting term terminates within the log's length on the smallest index after
    the snapshot that holds that term. *)
Theorem find_XIndex_first rf p e :
  lastSnapshotIndex rf < p ≤ lastIndex rf →
  log_at rf p = Some e →
  ∃ x, find_XIndex (length (log rf)) (Term e) (lastSnapshotIndex rf + 1) rf = Some x
    ∧ lastSnapshotIndex rf < x ≤ p
    ∧ Term <$> log_at rf x = Some (Term e)
    ∧ (∀ j, lastSnapshotIndex rf < j < x → Term <$> log_at rf j ≠ Some (Term e)).
Proof.
  intros Hp He. destruct (find_XIndex_scan rf p e Hp He (length (log rf))
    (lastSnapshotIndex rf + 1)) as (x & Hx & Hle & Ht & Hn);
    [lia|unfold lastIndex in *; lia|].
  exists x. split_and!; [done|lia|lia|done|]. intros j Hj. apply Hn. lia.
Qed.

End replicate.

(** ** Witnesses *)
Module ReplicateDemo.
Import RaftDemo.

(** A leader of term 2 with four log indices, about to send peer 1 what follows
    index 1; the follower's log conflicts after index 1. *)
Definition L : Raft Z :=
  peer 0 LEADER 2 [entry 10 1; entry 11 1; entry 12 2]
    <| nextIndex := [4; 2; 1] |> <| matchIndex := [3; 0; 0] |> <| commitIndex := 2 |>.
Definition F : Raft Z := peer 1 FOLLOWER 1 [entry 10 1; entry 99 1].
Definition args : AppendEntriesArgs Z :=
  MkAEArgs 2 0 1 1 [entry 11 1; entry 12 2] 2.
Definition L' : Raft Z := default dummy (fst <$> AE_prepare 1 L).
Definition F' : Raft Z := default dummy (fst <$> AppendEntries args ae_reply0 F).
Definition reply' : AppendEntriesReply :=
  default ae_reply0 (snd <$> AppendEntries args ae_reply0 F).
End ReplicateDemo.

Import RaftDemo.

Lemma replication_copies_leader_log_witness :
  log_at ReplicateDemo.F' 2 = Some (RaftDemo.entry 11 1)
  ∧ lastIndex ReplicateDemo.F' = lastIndex ReplicateDemo.L.
Proof.
  assert (AE_prepare 1 ReplicateDemo.L = Some (ReplicateDemo.L', Some ReplicateDemo.args))
    as HL by (vm_compute; reflexivity).
  assert (AppendEntries ReplicateDemo.args ae_reply0 ReplicateDemo.F
    = Some (ReplicateDemo.F', ReplicateDemo.reply')) as HF by (vm_compute; reflexivity).
  assert (Success ReplicateDemo.reply' = true) as HS by (vm_compute; reflexivity).
  destruct (replication_copies_leader_log _ _ _ _ _ _ _ _ HL (eq_refl : Success ae_reply0 = false) HF HS) as (Hj & _ & Hl).
  split; [|exact Hl]. rewrite Hj; reflexivity.
Defined.

Lemma AppendEntries_commit_bounds_witness :
  commitIndex ReplicateDemo.F' = commitIndex ReplicateDemo.F
  ∨ commitIndex ReplicateDemo.F' ≤ lastIndex ReplicateDemo.F'
    ∧ commitIndex ReplicateDemo.F' ≤ ae_LeaderCommit ReplicateDemo.args
    ∧ (commitIndex ReplicateDemo.F ≤ lastIndex ReplicateDemo.F' →
       commitIndex ReplicateDemo.F ≤ commitIndex ReplicateDemo.F').
Proof.
  assert (AppendEntries ReplicateDemo.args ae_reply0 ReplicateDemo.F
    = Some (ReplicateDemo.F', ReplicateDemo.reply')) as HF by (vm_compute; reflexivity).
  assert (Success ReplicateDemo.reply' = true) as HS by (vm_compute; reflexivity).
  pose proof (AppendEntries_commit_bounds _ _ _ _ _ (eq_refl : Success ae_reply0 = false) HF) as Hw.
  rewrite HS in Hw. exact Hw.
Defined.

Lemma AppendEntries_no_panic_witness :
  is_Some (AppendEntries ReplicateDemo.args ae_reply0 ReplicateDemo.F).
Proof. apply (AppendEntries_no_panic ReplicateDemo.args ae_reply0 ReplicateDemo.F). done. Defined.

Lemma LeaderCommit_spec_witness :
  commitIndex ReplicateDemo.L ≤ commitIndex (LeaderCommit ReplicateDemo.L).
Proof. apply (LeaderCommit_spec ReplicateDemo.L). vm_compute. discriminate. Defined.

Lemma find_XIndex_first_witness :
  ∃ x, find_XIndex 3 1 1 ReplicateDemo.F = Some x ∧ 0 < x ≤ 2.
Proof.
  destruct (find_XIndex_first ReplicateDemo.F 2 (RaftDemo.entry 99 1)) as (x & ? & ? & _);
    [vm_compute; split; [reflexivity|discriminate]|reflexivity|eauto].
Defined.

(** ** Findings *)

(** The commit rule counts copies of entries of older terms: in a cluster of five,
    an acknowledgement of a current-term entry by one follower commits an entry of
    term 1 that a majority holds although no current-term entry is on a majority. *)
Lemma LeaderCommit_commits_old_term :
  let L := (RaftDemo.peer 0 LEADER 3 [RaftDemo.entry 1 1; RaftDemo.entry 2 3]
      <| peers := 5 |> <| nextIndex := [3; 2; 2; 1; 1] |> <| matchIndex := [2; 0; 1; 0; 0] |>)
  in ∃ L', AE_result 1 (MkAEArgs 3 0 1 1 [RaftDemo.entry 2 3] 0)
             (MkAEReply true 0 (-1) (-1) (-1) 0) L = Some (L', AEReturn)
     ∧ commitIndex L' = 1 ∧ Term <$> log_at L' 1 = Some 1
     ∧ currentTerm L' = 3 ∧ ¬ majority_matched L' 2.
Proof.
  eexists. split; [vm_compute; reflexivity|]. split_and!; try reflexivity.
  unfold majority_matched, matched. vm_compute. discriminate.
Qed.

(** After a failed [AppendEntries] the leader records the peer as matching up to the
    index before its next guess: an unverified match that the commit rule counts. *)
Lemma AE_result_unverified_match :
  let L := (RaftDemo.peer 0 LEADER 2 [RaftDemo.entry 1 2; RaftDemo.entry 2 2]
      <| nextIndex := [3; 3; 1] |> <| matchIndex := [2; 0; 0] |>) in
  let F := RaftDemo.peer 1 FOLLOWER 1 [RaftDemo.entry 9 1] in
  ∃ L1 args F' reply L2,
    AE_prepare 1 L = Some (L1, Some args)
    ∧ AppendEntries args ae_reply0 F = Some (F', reply)
    ∧ AE_result 1 args reply L1 = Some (L2, AERetry)
    ∧ (matchIndex L2).[1] = Some 1
    ∧ log_at F' 1 ≠ log_at L2 1
    ∧ commitIndex (LeaderCommit L2) = 1.
Proof.
  eexists _, _, _, _, _. split; [vm_compute; reflexivity|].
  split; [vm_compute; reflexivity|]. split; [vm_compute; reflexivity|].
  split_and!; try reflexivity. vm_compute. discriminate.
Qed.
