(* ===== verification/RaftApply.v ===== *)
(** * Raft: delivering committed entries to the service

    [Apply] and the event loop of [Periodic] in [src/6.824/src/raft/raft.go]. *)
From S2P Require Import Prelude RaftState RaftVote RaftSnapshot RaftReplicate.

(** What woke one of the goroutines of [Periodic]. *)
Inductive PeriodicEvent :=
  | AETimerFired (index : Z) (rpcs : list (option AppendEntriesReply)) (snap : SnapshotRPC)
  | ElectionTimerFired (replies : list (option RequestVoteReply))
  | ApplyTimerFired
  | ApplyNotified
  | Stopped.

Section apply.
Context {C : Type} `{EqDecision C, GoRand, GobCodec (RaftVal C)}.
Implicit Types rf : Raft C.

(** The first critical section: the messages to send.  [make] panics when
    [lastApplied] is past [commitIndex]. *)
Definition Apply_collect rf : option (list (ApplyMsg C)) :=
  if lastApplied rf <? lastSnapshotIndex rf then
    Some [MkApplyMsg false (IString "installSnapshot") (lastSnapshotIndex rf)]
  else if commitIndex rf - lastApplied rf <? 0 then None
  else
    mapM (λ i, e ← (log rf).[getRealLogIndex i rf]; Some (MkApplyMsg true (Command e) i))
      (seqZ (lastApplied rf + 1) (commitIndex rf - lastApplied rf)).

(** The critical section after each send on [applyCh]. *)
Definition Apply_deliver (msg : ApplyMsg C) rf : Raft C :=
  let rf := rf <| lastApplied := CommandIndex msg |> in
  if bool_decide (msg_Command msg = IString "installSnapshot")
  then rf <| commitIndex := lastApplied rf |> else rf.

(** [Apply] with nothing interleaved, and the messages it sent. *)
Definition Apply rf : option (Raft C * list (ApplyMsg C)) :=
  msgs ← Apply_collect rf;
  let rf := foldl (λ rf msg, Apply_deliver msg rf) rf msgs in
  Some (rf <| applyTimer := ApplyInterval |>, msgs).

(** One iteration of a [Periodic] goroutine; [Stopped] ends it. *)
Definition Periodic_step (ev : PeriodicEvent) rf : option (Raft C * list (ApplyMsg C)) :=
  match ev with
  | AETimerFired index rpcs snap =>
      if killed rf then Some (rf, [])
      else rf ← appendEntriesToPeer index rpcs snap rf; Some (rf, [])
  | ElectionTimerFired replies =>
      if killed rf then Some (rf, []) else rf ← Election replies rf; Some (rf, [])
  | ApplyTimerFired => Some (rf <| notifyApplyCh := notifyApplyCh rf + 1 |>, [])
  | ApplyNotified => Apply (rf <| notifyApplyCh := notifyApplyCh rf - 1 |>)
  | Stopped => Some (rf, [])
  end.

(** ** Lemmas *)

Lemma foldl_deliver_lastApplied msgs rf :
  lastApplied (foldl (λ rf msg, Apply_deliver msg rf) rf msgs) =
  match list.last msgs with Some m => CommandIndex m | None => lastApplied rf end.
Proof.
  induction msgs as [|m msgs IH] using rev_ind; [done|].
  rewrite foldl_app, last_snoc. simpl. unfold Apply_deliver. by destruct (bool_decide _).
Qed.

Lemma foldl_deliver_log msgs rf :
  let rf' := foldl (λ rf msg, Apply_deliver msg rf) rf msgs in
  (log rf', lastSnapshotIndex rf', currentTerm rf', voteFor rf', state rf', me rf', peers rf',
    persister rf')
  = (log rf, lastSnapshotIndex rf, currentTerm rf, voteFor rf, state rf, me rf, peers rf,
    persister rf).
Proof.
  induction msgs as [|m msgs IH] using rev_ind; [done|].
  rewrite foldl_app. simpl in *. unfold Apply_deliver at 1 3 5 7 9 11 13 15.
  by destruct (bool_decide _).
Qed.

Lemma collect_indices rf js :
  Forall (λ i, lastSnapshotIndex rf ≤ i < lastSnapshotIndex rf + len (log rf)) js →
  ∃ msgs,
    mapM (λ i, e ← (log rf).[getRealLogIndex i rf]; Some (MkApplyMsg true (Command e) i)) js
      = Some msgs
    ∧ CommandIndex <$> msgs = js
    ∧ Forall (λ m, CommandValid m = true
        ∧ Some (msg_Command m) = Command <$> log_at rf (CommandIndex m)) msgs.
Proof.
  induction 1 as [|i js Hi Hf (msgs & Hm & Hidx & Hcmd)]; [by exists []|].
  simpl. rewrite getRealLogIndex_in by lia.
  destruct (slice_get_lt (log rf) (i - lastSnapshotIndex rf)) as [e He]; [lia|].
  rewrite He. simpl. rewrite Hm. simpl. eexists. split; [done|].
  split; [csimpl; by rewrite Hidx|]. constructor; [|done].
  simpl. unfold log_at. by rewrite He.
Qed.

Lemma Apply_collect_committed rf :
  lastSnapshotIndex rf ≤ lastApplied rf ≤ commitIndex rf → commitIndex rf ≤ lastIndex rf →
  ∃ msgs, Apply_collect rf = Some msgs
    ∧ CommandIndex <$> msgs = seqZ (lastApplied rf + 1) (commitIndex rf - lastApplied rf)
    ∧ Forall (λ m, CommandValid m = true
        ∧ Some (msg_Command m) = Command <$> log_at rf (CommandIndex m)) msgs.
Proof.
  unfold lastIndex. intros Ha Hc. unfold Apply_collect.
  destruct (Z.ltb_spec (lastApplied rf) (lastSnapshotIndex rf)); [lia|].
  destruct (Z.ltb_spec (commitIndex rf - lastApplied rf) 0); [lia|].
  apply collect_indices, Forall_seqZ. lia.
Qed.

(** ** Properties *)

(** C16. Committed entries reach the service in log order, each index exactly once: on a
    peer with [lastSnapshotIndex <= lastApplied <= commitIndex <= lastIndex], [Apply] sends
    the commands at the indices after [lastApplied] up to [commitIndex], in that order,
    records [commitIndex] as applied, and as long as the commit index does not move a
    second [Apply] has nothing left to send.  (The bounds fail right after a restart from a
    snapshot, when [lastApplied] is 0: [Apply] then sends only the message to install the
    snapshot.) *)
Theorem Apply_delivers_committed_in_order rf :
  lastSnapshotIndex rf ≤ lastApplied rf ≤ commitIndex rf → commitIndex rf ≤ lastIndex rf →
  ∃ rf' msgs, Apply rf = Some (rf', msgs)
    ∧ CommandIndex <$> msgs = seqZ (lastApplied rf + 1) (commitIndex rf - lastApplied rf)
    ∧ Forall (λ m, CommandValid m = true
        ∧ Some (msg_Command m) = Command <$> log_at rf (CommandIndex m)) msgs
    ∧ lastApplied rf' = commitIndex rf
    ∧ (commitIndex rf' = commitIndex rf → Apply_collect rf' = Some []).
Proof.
  intros Ha Hc. destruct (Apply_collect_committed rf Ha Hc) as (msgs & Hm & Hidx & Hcmd).
  unfold Apply. rewrite Hm. simpl. eexists _, _. split; [done|]. split; [done|].
  split; [done|]. simpl.
  set (rf1 := foldl _ rf msgs). pose proof (foldl_deliver_log msgs rf) as Hl.
  pose proof (foldl_deliver_lastApplied msgs rf) as Hla. fold rf1 in Hl, Hla. simpl in Hl.
  simplify_eq.
  assert (lastApplied rf1 = commitIndex rf) as Hla1.
  { rewrite Hla. destruct (decide (commitIndex rf = lastApplied rf)) as [Heq|Hne].
    - rewrite Heq, Z.sub_diag in Hidx. by destruct msgs.
    - assert (CommandIndex <$> list.last msgs = Some (commitIndex rf)) as Hlast.
      { rewrite <- fmap_last, Hidx.
        replace (commitIndex rf - lastApplied rf)
          with (Z.of_nat (S (Z.to_nat (commitIndex rf - lastApplied rf - 1)))) by lia.
        rewrite seqZ_S, last_snoc. f_equal. lia. }
      destruct (list.last msgs); simplify_eq/=. done. }
  split; [done|]. intros Hci. unfold Apply_collect. simpl.
  rewrite Hla1, Hci. destruct (Z.ltb_spec (commitIndex rf) (lastSnapshotIndex rf1)); [lia|].
  rewrite Z.sub_diag. done.
Qed.

(** A peer behind its snapshot does not apply log entries: it sends the one
    install-snapshot message and takes the snapshot index as applied and
    committed. *)
Theorem Apply_behind_snapshot rf :
  lastApplied rf < lastSnapshotIndex rf →
  ∃ rf', Apply rf = Some (rf',
      [MkApplyMsg false (IString "installSnapshot") (lastSnapshotIndex rf)])
    ∧ lastApplied rf' = lastSnapshotIndex rf ∧ commitIndex rf' = lastSnapshotIndex rf.
Proof.
  intros Ha. unfold Apply, Apply_collect.
  destruct (Z.ltb_spec (lastApplied rf) (lastSnapshotIndex rf)); [|lia].
  simpl. unfold Apply_deliver. simpl. eauto.
Qed.

End apply.

Import RaftDemo.

Lemma Apply_delivers_committed_in_order_witness :
  ∃ rf' msgs,
    Apply (peer 0 FOLLOWER 1 [entry 7 1; entry 8 1] <| commitIndex := 2 |>) = Some (rf', msgs)
    ∧ CommandIndex <$> msgs = [1; 2].
Proof.
  destruct (Apply_delivers_committed_in_order
    (peer 0 FOLLOWER 1 [entry 7 1; entry 8 1] <| commitIndex := 2 |>))
    as (rf' & msgs & Ha & Hi & _);
    [vm_compute; split; discriminate|vm_compute; discriminate|eauto].
Defined.

Lemma Apply_behind_snapshot_witness :
  ∃ rf', Apply (peer 0 FOLLOWER 1 [] <| lastSnapshotIndex := 4 |>)
    = Some (rf', [MkApplyMsg false (IString "installSnapshot") 4])
    ∧ lastApplied rf' = 4 ∧ commitIndex rf' = 4.
Proof.
  destruct (Apply_behind_snapshot (peer 0 FOLLOWER 1 [] <| lastSnapshotIndex := 4 |>))
    as (rf' & Ha & Hl & Hc); [reflexivity|]. exists rf'. split; [exact Ha|]. by split.
Defined.
