(* ===== verification/RaftCluster.v ===== *)
(** * Raft: a cluster of peers and election safety

    The handlers of [RaftVote], [RaftReplicate], [RaftSnapshot] and [RaftApply]
    interleaved over [n] peers.  An election is a run of [SendRequest]: its pending
    calls, the replies in flight, its vote counter.  A call may be lost, and its reply, but a
    peer handles the [RequestVote] of an election at most once: [labrpc] delivers a call
    once or not at all.  Every other handler takes arbitrary arguments, so the network may
    deliver any [AppendEntries] and [InstallSnapshot] traffic at all, at any time and any
    number of times; a peer may crash at any point and restart from its persister. *)
From S2P Require Import Prelude RaftState RaftVote RaftSnapshot RaftReplicate RaftApply.

(** One call of [Election], from its first critical section on.  [el_counted] is a
    history variable: the peers whose votes were counted. *)
Record ElectionRun := MkRun {
  el_args : RequestVoteArgs;
  el_pending : gset Z;
  el_inflight : gmap Z RequestVoteReply;
  el_send : SendState;
  el_count : option Z;
  el_counted : gset Z
}.
#[export] Instance ElectionRun_eta : Eta ElectionRun := λ e,
  MkRun (el_args e) (el_pending e) (el_inflight e) (el_send e) (el_count e) (el_counted e).

(** [votes] is a history variable: for a voter and a term, the candidate it voted
    for.  No step reads it. *)
Record Cluster (C : Type) := MkCluster {
  servers : gmap Z (Raft C);
  elections : gmap nat ElectionRun;
  votes : gmap (Z * Z) Z
}.
Arguments MkCluster {C}. Arguments servers {C}. Arguments elections {C}. Arguments votes {C}.
#[export] Instance Cluster_eta C : Eta (Cluster C) := λ s,
  MkCluster (servers s) (elections s) (votes s).

Section cluster.
Context {C : Type} `{EqDecision C, GoRand, GobCodec (RaftVal C)}.
Variable n : Z.
Implicit Types (rf : Raft C) (s : Cluster C) (e : ElectionRun).

(** A handler other than those of an election, with any arguments. *)
Inductive local_step rf : Raft C → Prop :=
  | local_AppendEntries args rf' reply' :
      AppendEntries args ae_reply0 rf = Some (rf', reply') → local_step rf rf'
  | local_AE_prepare index rf' args :
      AE_prepare index rf = Some (rf', args) → local_step rf rf'
  | local_AE_result index args reply rf' next :
      AE_result index args reply rf = Some (rf', next) → local_step rf rf'
  | local_InstallSnapshot args rf' reply :
      InstallSnapshot args rf = Some (rf', reply) → local_step rf rf'
  | local_InstallSnapshotToPeers index r rf' :
      InstallSnapshotToPeers_result index r rf = Some rf' → local_step rf rf'
  | local_SaveStateAndSnapshot index snap rf' :
      SaveStateAndSnapshot index snap rf = Some rf' → local_step rf rf'
  | local_Start c rf' r :
      Start c rf = Some (rf', r) → local_step rf rf'
  | local_Apply_deliver msg :
      local_step rf (Apply_deliver msg rf)
  | local_Election_leader rf' :
      Election_begin rf = Some (rf', None) → local_step rf rf'
  | local_Kill rf' :
      Kill rf = Some rf' → local_step rf rf'.

(** A step of an election. *)
Inductive election_step s : Cluster C → Prop :=
  | step_election_begin i k rf rf' args :
      servers s !! i = Some rf → elections s !! k = None →
      Election_begin rf = Some (rf', Some args) →
      election_step s (s <| servers := <[i := rf']> (servers s) |>
        <| elections := <[k := MkRun args (server_ids n ∖ {[i]}) ∅ (MkSend 0 false) None ∅]>
                          (elections s) |>
        <| votes := <[(i, rv_Term args) := i]> (votes s) |>)
  | step_request_vote k e j rf rf' reply :
      elections s !! k = Some e → j ∈ el_pending e → servers s !! j = Some rf →
      RequestVote (el_args e) rv_reply0 rf = Some (rf', reply) →
      election_step s (s <| servers := <[j := rf']> (servers s) |>
        <| elections := <[k := e <| el_pending := el_pending e ∖ {[j]} |>
             <| el_inflight := <[j := reply]> (el_inflight e) |>]> (elections s) |>
        <| votes := if VoteGranted reply
             then <[(j, rv_Term (el_args e)) := CandidateId (el_args e)]> (votes s)
             else votes s |>)
  | step_reply k e i j rf rf' reply ss' :
      elections s !! k = Some e → el_inflight e !! j = Some reply →
      i = CandidateId (el_args e) → servers s !! i = Some rf →
      SendRequest_reply (el_args e) (Some reply) (rf, el_send e) = Some (rf', ss') →
      election_step s (s <| servers := <[i := rf']> (servers s) |>
        <| elections := <[k := e <| el_inflight := delete j (el_inflight e) |>
             <| el_send := ss' |>
             <| el_counted := if res ss' =? res (el_send e) then el_counted e
                              else {[j]} ∪ el_counted e |>]> (elections s) |>)
  | step_finish k e i rf rf' count :
      elections s !! k = Some e →
      i = CandidateId (el_args e) → servers s !! i = Some rf →
      SendRequest_finish (rf, el_send e) = (rf', count) →
      election_step s (s <| servers := <[i := rf']> (servers s) |>
        <| elections := <[k := e <| el_count := Some count |>]> (elections s) |>)
  | step_election_end k e i count rf rf' :
      elections s !! k = Some e → el_count e = Some count →
      i = CandidateId (el_args e) → servers s !! i = Some rf →
      Election_end (el_args e) count rf = Some rf' →
      election_step s (s <| servers := <[i := rf']> (servers s) |>).

Inductive cluster_step s : Cluster C → Prop :=
  | step_local i rf rf' :
      servers s !! i = Some rf → local_step rf rf' →
      cluster_step s (s <| servers := <[i := rf']> (servers s) |>)
  | step_election s' :
      election_step s s' → cluster_step s s'
  | step_crash i rf rf' :
      servers s !! i = Some rf → Make n i (persister rf) = Some rf' →
      cluster_step s (s <| servers := <[i := rf']> (servers s) |>).

(** The peers start from empty persisters. *)
Definition cluster_init s : Prop :=
  dom (servers s) = server_ids n ∧ elections s = ∅ ∧ votes s = ∅
  ∧ ∀ i rf, servers s !! i = Some rf → Make n i MakePersister = Some rf.

Definition reachable s : Prop := ∃ s0, cluster_init s0 ∧ rtc cluster_step s0 s.

(** ** The invariant *)

(** What a restart would find for the term and the vote. *)
Definition durable rf (t v : Z) : Prop :=
  match raftstate (persister rf) with
  | None => t = 0 ∧ v = -1
  | Some bs => ∃ rfp : Raft C, bs = getPersistData rfp ∧ currentTerm rfp = t ∧ voteFor rfp = v
  end.

(** A term and a vote are consistent with the votes voter [i] has cast. *)
Definition vote_consistent (vs : gmap (Z * Z) Z) (i t v : Z) : Prop :=
  ∀ t' c, vs !! (i, t') = Some c → t' ≤ t ∧ (t' = t → v = c).

Definition has_quorum (vs : gmap (Z * Z) Z) (i t : Z) : Prop :=
  ∃ Q, Q ⊆ server_ids n ∧ n < 2 * Z.of_nat (size Q) ∧ ∀ v, v ∈ Q → vs !! (v, t) = Some i.

(** What a handler that casts no vote may do to the fields elections depend on. *)
Record vote_frame rf rf' : Prop := {
  vf_me : me rf' = me rf;
  vf_peers : peers rf' = peers rf;
  vf_term : currentTerm rf' = currentTerm rf ∧ voteFor rf' = voteFor rf
      ∧ (state rf' = state rf ∨ state rf' = FOLLOWER)
    ∨ currentTerm rf < currentTerm rf' ∧ state rf' = FOLLOWER;
  vf_durable : raftstate (persister rf') = raftstate (persister rf)
    ∨ ∃ rfp : Raft C, raftstate (persister rf') = Some (getPersistData rfp)
        ∧ currentTerm rfp = currentTerm rf' ∧ voteFor rfp = voteFor rf'
}.

Record server_inv (vs : gmap (Z * Z) Z) (i : Z) rf : Prop := {
  si_me : me rf = i;
  si_peers : peers rf = n;
  si_vote : vote_consistent vs i (currentTerm rf) (voteFor rf);
  si_durable : ∃ t v, durable rf t v ∧ vote_consistent vs i t v;
  si_candidate : state rf = CANDIDATE → vs !! (i, currentTerm rf) = Some i;
  si_leader : state rf = LEADER → has_quorum vs i (currentTerm rf)
}.

Record run_inv (vs : gmap (Z * Z) Z) e : Prop := {
  ri_candidate : CandidateId (el_args e) ∈ server_ids n;
  ri_pending : el_pending e ⊆ server_ids n ∖ {[CandidateId (el_args e)]};
  ri_inflight : dom (el_inflight e) ⊆ server_ids n ∖ {[CandidateId (el_args e)]};
  ri_counted : el_counted e ⊆ server_ids n ∖ {[CandidateId (el_args e)]};
  ri_disjoint : el_pending e ## dom (el_inflight e) ∧ el_pending e ## el_counted e
    ∧ dom (el_inflight e) ## el_counted e;
  ri_granted : ∀ j r, el_inflight e !! j = Some r → VoteGranted r = true →
    vs !! (j, rv_Term (el_args e)) = Some (CandidateId (el_args e));
  ri_votes : ∀ j, j ∈ el_counted e →
    vs !! (j, rv_Term (el_args e)) = Some (CandidateId (el_args e));
  ri_res : res (el_send e) = Z.of_nat (size (el_counted e));
  ri_count : ∀ k, el_count e = Some k → k ≤ Z.of_nat (size (el_counted e))
}.

Record cluster_inv s : Prop := {
  ci_servers : ∀ i rf, servers s !! i = Some rf → i ∈ server_ids n ∧ server_inv (votes s) i rf;
  ci_runs : ∀ k e, elections s !! k = Some e → run_inv (votes s) e;
  ci_voted : ∀ v t c, votes s !! (v, t) = Some c → c ∈ server_ids n
}.

(** ** Handlers keep the frame *)

Lemma frame_same rf rf' :
  me rf' = me rf → peers rf' = peers rf → currentTerm rf' = currentTerm rf →
  voteFor rf' = voteFor rf → state rf' = state rf → persister rf' = persister rf →
  vote_frame rf rf'.
Proof. intros ? ? ? ? ? Hp. constructor; auto. rewrite Hp. auto. Qed.

Lemma frame_persist rf rf' : vote_frame rf rf' → vote_frame rf (persist rf').
Proof. intros [? ? ? _]. constructor; auto. right. exists rf'. auto. Qed.

Lemma AppendEntries_frame args rf rf' reply :
  AppendEntries args ae_reply0 rf = Some (rf', reply) → vote_frame rf rf'.
Proof.
  intros Hr. apply AppendEntries_cases in Hr as [(_ & -> & _)|Hr]; [by apply frame_same| |done].
  destruct Hr as (Hle & _ & l & ci & m & k & -> & _). apply frame_persist.
  constructor; simpl; auto. destruct (decide (currentTerm rf = ae_Term args)) as [<-|];
    [auto|right; split; [lia|done]].
Qed.

Lemma AE_prepare_frame index rf rf' args :
  AE_prepare index rf = Some (rf', args) → vote_frame rf rf'.
Proof.
  unfold AE_prepare, resetAETimer. intros. run_option; by apply frame_same.
Qed.

Lemma LeaderCommit_frame rf rf' : vote_frame rf rf' → vote_frame rf (LeaderCommit rf').
Proof.
  unfold LeaderCommit. generalize (seqZ (commitIndex rf' + 1)
    (len (log rf') + lastSnapshotIndex rf' - (commitIndex rf' + 1) + 1)) as js.
  intros js. revert rf'. induction js as [|j js IH]; intros rf' Hf; [done|]. simpl.
  apply IH. unfold LeaderCommit_step. destruct (reaches_majority _ _ _ _); [|done].
  destruct Hf. by constructor.
Qed.

Lemma AE_result_frame index args reply rf rf' next :
  AE_result index args reply rf = Some (rf', next) → vote_frame rf rf'.
Proof.
  unfold AE_result. rewrite Z.gtb_ltb.
  destruct (Z.ltb_spec (currentTerm rf) (aer_Term reply)); simpl.
  { intros ?; simplify_eq. apply frame_persist. constructor; simpl; auto. }
  destruct (_ || _); [intros ?; simplify_eq; by apply frame_same|].
  destruct (Success reply).
  { intros Hr. simplify_option_eq. match goal with |- context [if ?b then _ else _] => destruct b end;
      [apply LeaderCommit_frame|]; by apply frame_same. }
  destruct (_ =? -1); [intros ?; simplify_eq; by apply frame_same|].
  intros Hr. simplify_option_eq. by apply frame_same.
Qed.

Lemma InstallSnapshot_frame args rf rf' reply :
  InstallSnapshot args rf = Some (rf', reply) → vote_frame rf rf'.
Proof.
  intros Hr. apply InstallSnapshot_view in Hr as (Ht & Hv & Hm & Hp & _ & _ & _ & Hd).
  constructor; auto; [naive_solver|]. destruct Hd as [->|Hd]; [auto|right; eauto].
Qed.

Lemma InstallSnapshotToPeers_frame index r rf rf' :
  InstallSnapshotToPeers_result index r rf = Some rf' → vote_frame rf rf'.
Proof.
  assert (∀ t rf1, vote_frame rf rf1 → currentTerm rf1 = currentTerm rf →
    persister rf1 = persister rf →
    (if t >? currentTerm rf1 then
       rf ← changeRole FOLLOWER (rf1 <| currentTerm := t |>); Some (resetElectionTimer rf)
     else Some rf1) = Some rf' → vote_frame rf rf') as Hc.
  { intros t rf1 [? ? ? ?] Heq Hp. rewrite Z.gtb_ltb.
    destruct (Z.ltb_spec (currentTerm rf1) t); simpl; intros ?; simplify_eq; [|by constructor].
    constructor; simpl; auto; [right; split; [lia|done]|]. rewrite Hp. auto. }
  unfold InstallSnapshotToPeers_result. destruct r as [r| |].
  - intros Hr. destruct (slice_set (nextIndex rf) _ _) as [nx|]; simpl in Hr; [|done].
    destruct (slice_set (matchIndex rf) _ _) as [mt|]; simpl in Hr; [|done].
    pose (rf1 := rf <| nextIndex := nx |> <| matchIndex := mt |>).
    apply (Hc (isr_Term r) rf1); [by apply frame_same|done|done|exact Hr].
  - intros Hr. apply (Hc 0 rf); [by apply frame_same|done|done|exact Hr].
  - intros ?; simplify_eq. by apply frame_same.
Qed.

Lemma SaveStateAndSnapshot_frame index snap rf rf' :
  SaveStateAndSnapshot index snap rf = Some rf' → vote_frame rf rf'.
Proof.
  unfold SaveStateAndSnapshot. destruct (_ <? _); intros; run_option; [by apply frame_same|].
  constructor; simpl; auto. right. eexists. split; [done|]. done.
Qed.

Lemma Start_frame c rf rf' r : Start c rf = Some (rf', r) → vote_frame rf rf'.
Proof.
  unfold Start. intros. run_option; [|by apply frame_same].
  constructor; simpl; auto. right. eexists. split; [done|]. done.
Qed.

Lemma Election_begin_leader rf rf' :
  Election_begin rf = Some (rf', None) → vote_frame rf rf'.
Proof.
  unfold Election_begin. destruct (bool_decide _).
  - intros [= <-]. by apply frame_same.
  - destruct (changeRole CANDIDATE _) as [rf1|]; [|done]. simpl.
    destruct (lastLogTermIndex (persist rf1)) as [[]|]; by intros.
Qed.

Lemma local_step_frame rf rf' : local_step rf rf' → vote_frame rf rf'.
Proof.
  destruct 1 as [??? Hr|??? Hr|????? Hr|??? Hr|??? Hr|??? Hr|??? Hr|msg|? Hr|? Hr].
  - by eapply AppendEntries_frame.
  - by eapply AE_prepare_frame.
  - by eapply AE_result_frame.
  - by eapply InstallSnapshot_frame.
  - by eapply InstallSnapshotToPeers_frame.
  - by eapply SaveStateAndSnapshot_frame.
  - by eapply Start_frame.
  - unfold Apply_deliver. case_bool_decide; by apply frame_same.
  - by apply Election_begin_leader in Hr.
  - unfold Kill in Hr. case_match; simplify_eq. by apply frame_same.
Qed.

(** ** The invariant of one server *)

Lemma server_inv_frame vs i rf rf' :
  vote_frame rf rf' → server_inv vs i rf → server_inv vs i rf'.
Proof.
  intros [Hme Hp Ht Hd] [Ime Ip Iv (t & v & Id & Icd) Ic Il].
  assert (vote_consistent vs i (currentTerm rf') (voteFor rf')) as Hcons.
  { intros t' c Hvs. destruct (Iv t' c Hvs) as [? Hc].
    destruct Ht as [(-> & -> & _)|[? _]]; [auto|]. split; [lia|lia]. }
  constructor; [congruence|congruence|done| | |].
  - unfold durable. destruct Hd as [->|(rfp & -> & Ht1 & Hv1)]; [by exists t, v|].
    exists (currentTerm rf'), (voteFor rf'). split; [by exists rfp|done].
  - destruct Ht as [(-> & _ & [-> | ->]) | [_ ->]]; done.
  - destruct Ht as [(-> & _ & [-> | ->]) | [_ ->]]; done.
Qed.

Lemma server_inv_mono vs vs' i rf :
  vs ⊆ vs' → (∀ t, vs' !! (i, t) = vs !! (i, t)) →
  server_inv vs i rf → server_inv vs' i rf.
Proof.
  intros Hsub Heq [Ime Ip Iv (t & v & Id & Icd) Ic Il]. constructor; auto.
  - intros t' c. rewrite Heq. apply Iv.
  - exists t, v. split; [done|]. intros t' c. rewrite Heq. apply Icd.
  - rewrite Heq. done.
  - intros Hl. destruct (Il Hl) as (Q & HQ & Hs & Hv). exists Q. split_and!; auto.
    intros w Hw. eapply lookup_weaken; [by apply Hv|done].
Qed.

(** A server that has just cast, and made durable, a vote for [c] in its term. *)
Lemma server_inv_vote vs i c rf rf' :
  server_inv vs i rf → me rf' = i → peers rf' = n →
  currentTerm rf ≤ currentTerm rf' → voteFor rf' = c →
  raftstate (persister rf') = Some (getPersistData rf') →
  (state rf' = CANDIDATE → c = i) → state rf' ≠ LEADER →
  server_inv (<[(i, currentTerm rf') := c]> vs) i rf'.
Proof.
  intros [_ _ Iv _ _ _] Hme Hp Ht Hv Hd Hc Hl.
  assert (vote_consistent (<[(i, currentTerm rf') := c]> vs) i (currentTerm rf') (voteFor rf'))
    as Hcons.
  { intros t' c' Hvs. destruct (decide (t' = currentTerm rf')) as [->|Hne].
    - rewrite lookup_insert_eq in Hvs. split; [lia|congruence].
    - rewrite lookup_insert_ne in Hvs by congruence. apply Iv in Hvs as [? ?]. split; [lia|done]. }
  constructor; auto.
  - unfold durable. rewrite Hd. exists (currentTerm rf'), (voteFor rf').
    split; [by exists rf'|done].
  - intros Hcand. rewrite lookup_insert_eq. f_equal. auto.
  - done.
Qed.

Lemma Make_durable i rf rf' t v :
  durable rf t v → Make n i (persister rf) = Some rf' →
  currentTerm rf' = t ∧ voteFor rf' = v ∧ state rf' = FOLLOWER ∧ me rf' = i ∧ peers rf' = n
  ∧ persister rf' = persister rf.
Proof.
  unfold durable, Make, ReadRaftState. destruct (make_slice n 0); simpl; [|done].
  destruct (raftstate (persister rf)) as [bs|].
  - intros (rfp & -> & <- & <-). rewrite readPersist_getPersistData. simpl.
    intros ?; simplify_eq/=. auto 10.
  - intros [-> ->]. simpl. intros ?; simplify_eq/=. auto 10.
Qed.

Lemma server_inv_crash vs i rf rf' :
  server_inv vs i rf → Make n i (persister rf) = Some rf' → server_inv vs i rf'.
Proof.
  intros [_ _ _ (t & v & Id & Icd) _ _] Hm.
  destruct (Make_durable i rf rf' t v Id Hm) as (<- & <- & Hs & ? & ? & Hp).
  constructor; auto; [|congruence..].
  unfold durable in *. rewrite Hp. eauto.
Qed.

(** ** The invariant of one election *)

Lemma run_inv_mono vs vs' e : vs ⊆ vs' → run_inv vs e → run_inv vs' e.
Proof.
  intros Hsub []. constructor; auto.
  - intros j r Hj Hg. eapply lookup_weaken; eauto.
  - intros j Hj. eapply lookup_weaken; eauto.
Qed.

(** A candidate that counted enough votes has a quorum. *)
Lemma run_quorum vs e count :
  0 < n → run_inv vs e → el_count e = Some count → Z.quot n 2 ≤ count →
  vs !! (CandidateId (el_args e), rv_Term (el_args e)) = Some (CandidateId (el_args e)) →
  has_quorum vs (CandidateId (el_args e)) (rv_Term (el_args e)).
Proof.
  intros Hn [Hc _ _ Hcnt _ _ Hv _ Hk] Hcount Hq Hself. apply Hk in Hcount.
  exists ({[CandidateId (el_args e)]} ∪ el_counted e). split_and!.
  - set_solver.
  - rewrite size_union by set_solver. rewrite size_singleton.
    pose proof (Z.quot_rem' n 2). pose proof (Z.rem_bound_pos n 2). lia.
  - intros v [->%elem_of_singleton|Hin]%elem_of_union; [done|by apply Hv].
Qed.

(** ** Handlers of an election *)

Lemma RequestVote_granted args rf rf' reply :
  RequestVote args rv_reply0 rf = Some (rf', reply) → VoteGranted reply = true →
  currentTerm rf ≤ rv_Term args ∧ currentTerm rf' = rv_Term args
  ∧ voteFor rf' = CandidateId args ∧ state rf' = FOLLOWER
  ∧ (currentTerm rf < rv_Term args ∨ voteFor rf = CandidateId args ∨ voteFor rf = -1).
Proof.
  intros Hr Hg. apply RequestVote_decision in Hr as (Hd & _); [|done].
  unfold vote_decision, vote_view in Hd. rewrite Hg in Hd.
  destruct (Z.ltb_spec (rv_Term args) (currentTerm rf)); [done|].
  destruct (Z.ltb_spec (currentTerm rf) (rv_Term args)).
  { destruct (candidate_up_to_date _ _ _); [|done]. simplify_eq. split_and!; auto with lia. }
  destruct (Z.eqb_spec (voteFor rf) (CandidateId args)); [simplify_eq; split_and!; auto with lia|].
  destruct (Z.eqb_spec (voteFor rf) (-1)); [|done].
  destruct (candidate_up_to_date _ _ _); [|done]. simplify_eq. split_and!; auto with lia.
Qed.

Lemma RequestVote_refused args rf rf' reply :
  RequestVote args rv_reply0 rf = Some (rf', reply) → VoteGranted reply = false →
  vote_frame rf rf'.
Proof.
  intros Hr Hg. apply RequestVote_decision in Hr as (Hd & _ & Hp & _ & Hme & Hpe); [|done].
  unfold vote_decision, vote_view in Hd. rewrite Hg in Hd.
  constructor; [done|done| |right; by exists rf'].
  destruct (Z.ltb_spec (rv_Term args) (currentTerm rf)); [simplify_eq; auto|].
  destruct (Z.ltb_spec (currentTerm rf) (rv_Term args)).
  { destruct (candidate_up_to_date _ _ _); [done|]. simplify_eq. right. split; [lia|done]. }
  destruct (Z.eqb_spec (voteFor rf) (CandidateId args)); [done|].
  destruct (Z.eqb_spec (voteFor rf) (-1)); [|simplify_eq; auto].
  destruct (candidate_up_to_date _ _ _); [done|]. simplify_eq. auto.
Qed.

Lemma SendRequest_reply_frame args r rf ss rf' ss' :
  SendRequest_reply args (Some r) (rf, ss) = Some (rf', ss') →
  vote_frame rf rf'
  ∧ res ss' = (if VoteGranted r && negb (rvr_Term r >? rv_Term args)
               then res ss + 1 else res ss).
Proof.
  unfold SendRequest_reply. destruct (rvr_Term r >? rv_Term args); simpl.
  - rewrite andb_false_r, Z.gtb_ltb. destruct (Z.ltb_spec (currentTerm rf) (rvr_Term r)).
    + intros [= <- <-]. split; [|done]. constructor; simpl; auto.
    + intros [= <- <-]. split; [by apply frame_same|done].
  - rewrite andb_true_r. destruct (VoteGranted r); intros [= <- <-];
      (split; [by apply frame_same|done]).
Qed.

Lemma SendRequest_finish_frame rf ss rf' count :
  SendRequest_finish (rf, ss) = (rf', count) → vote_frame rf rf' ∧ count = res ss.
Proof.
  unfold SendRequest_finish. destruct (another ss); intros [= <- <-]; (split; [|done]).
  - apply frame_persist. by apply frame_same.
  - by apply frame_same.
Qed.

Lemma Election_begin_candidate rf rf' args :
  Election_begin rf = Some (rf', Some args) →
  currentTerm rf' = currentTerm rf + 1 ∧ voteFor rf' = me rf ∧ state rf' = CANDIDATE
  ∧ me rf' = me rf ∧ peers rf' = peers rf
  ∧ raftstate (persister rf') = Some (getPersistData rf')
  ∧ rv_Term args = currentTerm rf' ∧ CandidateId args = me rf.
Proof.
  unfold Election_begin. destruct (bool_decide _); [done|].
  destruct (changeRole CANDIDATE _) as [rf1|] eqn:Hc; [|done]. simpl.
  destruct (lastLogTermIndex (persist rf1)) as [[lt li]|]; [|done]. simpl.
  intros [= <- <-]. unfold changeRole in Hc. simplify_eq. done.
Qed.

Lemma Election_end_cases args count rf rf' :
  Election_end args count rf = Some rf' →
  vote_frame rf rf'
  ∨ state rf = CANDIDATE ∧ currentTerm rf = rv_Term args ∧ Z.quot (peers rf) 2 ≤ count
    ∧ me rf' = me rf ∧ peers rf' = peers rf ∧ state rf' = LEADER
    ∧ currentTerm rf' = currentTerm rf ∧ voteFor rf' = voteFor rf
    ∧ ∃ rfp : Raft C, raftstate (persister rf') = Some (getPersistData rfp)
        ∧ currentTerm rfp = currentTerm rf ∧ voteFor rfp = voteFor rf.
Proof.
  unfold Election_end. rewrite Z.geb_leb.
  assert (∀ rf0, rf0 = rf → (if bool_decide (state rf0 = LEADER) then Some (AENow rf0)
    else Some rf0) = Some rf' → vote_frame rf rf') as Hid.
  { intros rf0 -> Hr. case_bool_decide; simplify_eq; by apply frame_same. }
  destruct (bool_decide (state rf = CANDIDATE)) eqn:Hs; [|left; by eapply Hid].
  destruct (Z.eqb_spec (currentTerm rf) (rv_Term args)); [|left; by eapply Hid].
  destruct (Z.leb_spec (Z.quot (peers rf) 2) count); [|left; by eapply Hid].
  apply bool_decide_eq_true in Hs.
  destruct (changeRole LEADER rf) as [rf1|] eqn:Hc; [|done].
  apply changeRole_LEADER_view in Hc as (Hs1 & Ht1 & Hv1 & Hm1 & Hp1).
  change (true && true && true) with true. cbv iota.
  change (Some rf1 ≫= λ rf, Some (persist rf)) with (Some (persist rf1)).
  intros Hr. right. cbn [mbind option_bind] in Hr.
  case_bool_decide as Hs2; [|by destruct Hs2]. simplify_eq.
  split_and!; auto. exists rf1. auto.
Qed.

(** ** Steps keep the invariant *)

(** One server replaced, votes extended only at that server. *)
Lemma servers_inv_update s j rf' vs' :
  cluster_inv s → j ∈ server_ids n → votes s ⊆ vs' →
  (∀ v t, v ≠ j → vs' !! (v, t) = votes s !! (v, t)) →
  server_inv vs' j rf' →
  ∀ i rf, <[j := rf']> (servers s) !! i = Some rf → i ∈ server_ids n ∧ server_inv vs' i rf.
Proof.
  intros [Hs _ _] Hj Hsub Heq Hinv i rf Hi.
  destruct (decide (i = j)) as [->|Hne].
  - rewrite lookup_insert_eq in Hi. by simplify_eq.
  - rewrite lookup_insert_ne in Hi by done. destruct (Hs i rf Hi) as [? ?].
    split; [done|]. eapply server_inv_mono; eauto.
Qed.

Lemma runs_inv_update s k e' vs' :
  cluster_inv s → votes s ⊆ vs' → run_inv vs' e' →
  ∀ k' e, <[k := e']> (elections s) !! k' = Some e → run_inv vs' e.
Proof.
  intros [_ Hr _] Hsub He k' e Hk. destruct (decide (k' = k)) as [->|].
  - rewrite lookup_insert_eq in Hk. by simplify_eq.
  - rewrite lookup_insert_ne in Hk by done. eapply run_inv_mono; eauto.
Qed.

Lemma vote_insert_subseteq (vs : gmap (Z * Z) Z) v t c :
  (∀ c', vs !! (v, t) = Some c' → c' = c) → vs ⊆ <[(v, t) := c]> vs.
Proof.
  intros Hc. destruct (vs !! (v, t)) as [c'|] eqn:Hv.
  - rewrite <- (Hc c' eq_refl), insert_id by done. done.
  - by apply insert_subseteq.
Qed.

Lemma voted_insert s v t c :
  cluster_inv s → c ∈ server_ids n →
  ∀ v' t' c', <[(v, t) := c]> (votes s) !! (v', t') = Some c' → c' ∈ server_ids n.
Proof.
  intros [_ _ Hv] Hc v' t' c' Hl. destruct (decide ((v', t') = (v, t))) as [Heq|Hne].
  - rewrite Heq, lookup_insert_eq in Hl. by simplify_eq.
  - rewrite lookup_insert_ne in Hl by congruence. eauto.
Qed.

(** A step that changes one server and casts no vote. *)
Lemma inv_one_server s i rf rf' :
  cluster_inv s → servers s !! i = Some rf →
  (server_inv (votes s) i rf → server_inv (votes s) i rf') →
  cluster_inv (s <| servers := <[i := rf']> (servers s) |>).
Proof.
  intros Hi Hs Himp. destruct (ci_servers s Hi i rf Hs) as [Hid Hsi].
  constructor; simpl; [|apply Hi..].
  eapply servers_inv_update; eauto.
Qed.

Lemma inv_one_server_run s i k rf rf' e' :
  cluster_inv s → servers s !! i = Some rf →
  (server_inv (votes s) i rf → server_inv (votes s) i rf') → run_inv (votes s) e' →
  cluster_inv (s <| servers := <[i := rf']> (servers s) |>
                 <| elections := <[k := e']> (elections s) |>).
Proof.
  intros Hi Hs Himp He. destruct (ci_servers s Hi i rf Hs) as [Hid Hsi].
  constructor; simpl; [|by apply runs_inv_update|apply Hi].
  eapply servers_inv_update; eauto.
Qed.

Lemma step_inv_election_begin s i k rf rf' args :
  0 < n → cluster_inv s → servers s !! i = Some rf →
  Election_begin rf = Some (rf', Some args) →
  cluster_inv (s <| servers := <[i := rf']> (servers s) |>
    <| elections := <[k := MkRun args (server_ids n ∖ {[i]}) ∅ (MkSend 0 false) None ∅]>
                      (elections s) |>
    <| votes := <[(i, rv_Term args) := i]> (votes s) |>)
  ∧ votes s ⊆ <[(i, rv_Term args) := i]> (votes s).
Proof.
  intros Hn Hinv Hs Hb. destruct (ci_servers s Hinv i rf Hs) as [Hid Hsi].
  apply Election_begin_candidate in Hb as (Ht & Hv & Hst & Hme & Hpe & Hp & Hat & Hac).
  pose proof (si_me _ _ _ Hsi) as Hmi.
  assert (votes s ⊆ <[(i, rv_Term args) := i]> (votes s)) as Hsub.
  { apply vote_insert_subseteq. intros c' Hc'. apply (si_vote _ _ _ Hsi) in Hc'. lia. }
  split; [|done]. constructor; simpl.
  - eapply servers_inv_update; eauto.
    { intros v t ?. apply lookup_insert_ne. congruence. }
    rewrite Hat. eapply server_inv_vote; eauto; try congruence; try lia.
    rewrite Hpe. apply Hsi.
  - apply runs_inv_update; [done|done|].
    constructor; simpl; rewrite ?Hac, ?Hmi, ?dom_empty_L; set_solver.
  - by apply voted_insert.
Qed.

Lemma step_inv_request_vote s k e j rf rf' reply :
  cluster_inv s → elections s !! k = Some e → j ∈ el_pending e → servers s !! j = Some rf →
  RequestVote (el_args e) rv_reply0 rf = Some (rf', reply) →
  let vs' := if VoteGranted reply
    then <[(j, rv_Term (el_args e)) := CandidateId (el_args e)]> (votes s) else votes s in
  cluster_inv (s <| servers := <[j := rf']> (servers s) |>
    <| elections := <[k := e <| el_pending := el_pending e ∖ {[j]} |>
         <| el_inflight := <[j := reply]> (el_inflight e) |>]> (elections s) |>
    <| votes := vs' |>)
  ∧ votes s ⊆ vs'.
Proof.
  intros Hinv He Hj Hs Hr vs'. destruct (ci_servers s Hinv j rf Hs) as [Hid Hsi].
  pose proof (ci_runs s Hinv k e He) as Hrun.
  assert (votes s ⊆ vs' ∧ (∀ v t, v ≠ j → vs' !! (v, t) = votes s !! (v, t))
    ∧ server_inv vs' j rf' ∧ (∀ v t c, vs' !! (v, t) = Some c → c ∈ server_ids n)
    ∧ (VoteGranted reply = true →
       vs' !! (j, rv_Term (el_args e)) = Some (CandidateId (el_args e))))
    as (Hsub & Heq & Hsi' & Hvoted & Hgr).
  { subst vs'. destruct (VoteGranted reply) eqn:Hg.
    - pose proof (RequestVote_granted _ _ _ _ Hr Hg) as (Hle & Ht & Hv & Hst & Hwhy).
      pose proof (RequestVote_decision _ _ _ _ _ Hr eq_refl) as (_ & _ & Hp & _ & Hme & Hpe).
      split_and!.
      + apply vote_insert_subseteq. intros c' Hc'.
        pose proof (ci_voted s Hinv _ _ _ Hc') as Hin. apply elem_of_server_ids in Hin.
        apply (si_vote _ _ _ Hsi) in Hc' as [Hle' Hc']. specialize (Hc' ltac:(lia)). lia.
      + intros v t ?. apply lookup_insert_ne. congruence.
      + rewrite <- Ht. eapply server_inv_vote; eauto; try congruence; try lia.
        * rewrite Hme. apply Hsi.
        * rewrite Hpe. apply Hsi.
      + apply voted_insert; [done|apply Hrun].
      + intros _. apply lookup_insert_eq.
    - split_and!; [done|done| |apply Hinv|done].
      eapply server_inv_frame; [|done]. by eapply RequestVote_refused. }
  split; [|done]. constructor; simpl; [by eapply servers_inv_update| |done].
  apply runs_inv_update; [done|done|].
  destruct (run_inv_mono _ vs' e Hsub Hrun) as [Rc Rp Ri Rn (Rd1 & Rd2 & Rd3) Rg Rv Rr Rk].
  constructor; simpl; auto.
  - set_solver.
  - rewrite dom_insert_L. set_solver.
  - rewrite dom_insert_L. set_solver.
  - intros i r Hi Hgi. destruct (decide (i = j)) as [->|].
    + rewrite lookup_insert_eq in Hi. simplify_eq. auto.
    + rewrite lookup_insert_ne in Hi by done. eauto.
Qed.

Lemma run_inv_reply vs e j reply ss' (g : bool) :
  run_inv vs e → el_inflight e !! j = Some reply →
  res ss' = (if g then res (el_send e) + 1 else res (el_send e)) →
  (g = true → VoteGranted reply = true) →
  run_inv vs (e <| el_inflight := delete j (el_inflight e) |> <| el_send := ss' |>
    <| el_counted := if res ss' =? res (el_send e) then el_counted e
                     else {[j]} ∪ el_counted e |>).
Proof.
  intros [Rc Rp Ri Rn (Rd1 & Rd2 & Rd3) Rg Rv Rr Rk] Hj Hres Hg.
  assert (j ∈ dom (el_inflight e)) as Hdom by (apply elem_of_dom; eauto).
  assert (size ({[j]} ∪ el_counted e) = S (size (el_counted e))) as Hsz.
  { rewrite size_union by set_solver. by rewrite size_singleton. }
  assert ((if res ss' =? res (el_send e) then el_counted e else {[j]} ∪ el_counted e)
    = if g then {[j]} ∪ el_counted e else el_counted e) as ->.
  { rewrite Hres. destruct g; cases_Z; try lia; done. }
  constructor; simpl; auto; rewrite ?dom_delete_L.
  - set_solver.
  - destruct g; set_solver.
  - destruct g; set_solver.
  - intros i r Hi. rewrite lookup_delete_Some in Hi. naive_solver.
  - intros i Hi. destruct g; [|auto].
    apply elem_of_union in Hi as [->%elem_of_singleton|Hi]; eauto.
  - rewrite Hres. destruct g; lia.
  - intros c Hc. apply Rk in Hc. destruct g; lia.
Qed.

Lemma run_inv_finish vs e count :
  run_inv vs e → count = res (el_send e) → run_inv vs (e <| el_count := Some count |>).
Proof.
  intros [Rc Rp Ri Rn Rd Rg Rv Rr Rk] ->. constructor; simpl; auto.
  intros k' [= <-]. by rewrite Rr.
Qed.

Lemma server_inv_elected vs e count rf rf' :
  0 < n → run_inv vs e → el_count e = Some count →
  server_inv vs (CandidateId (el_args e)) rf →
  Election_end (el_args e) count rf = Some rf' →
  server_inv vs (CandidateId (el_args e)) rf'.
Proof.
  intros Hn Hrun Hk Hsi He. apply Election_end_cases in He as [Hf|He];
    [by eapply server_inv_frame|].
  destruct He as (Hc & Ht & Hcount & Hme & Hpe & Hl & Ht' & Hv' & rfp & Hp & Htp & Hvp).
  rewrite (si_peers _ _ _ Hsi) in Hcount, Hpe.
  constructor.
  - rewrite Hme. apply Hsi.
  - done.
  - rewrite Ht', Hv'. apply Hsi.
  - unfold durable. rewrite Hp. exists (currentTerm rf), (voteFor rf).
    split; [by exists rfp|apply Hsi].
  - rewrite Hl. done.
  - intros _. rewrite Ht', Ht. eapply run_quorum; eauto.
    rewrite <- Ht. by apply Hsi.
Qed.

Lemma election_step_inv s s' :
  0 < n → cluster_inv s → election_step s s' → cluster_inv s' ∧ votes s ⊆ votes s'.
Proof.
  intros Hn Hinv Hstep.
  destruct Hstep as [i k rf rf' args Hs Hk Hb|k e j rf rf' reply He Hj Hs Hr
    |k e i j rf rf' reply ss' He Hj -> Hs Hr|k e i rf rf' count He -> Hs Hf
    |k e i count rf rf' He Hc -> Hs Hend].
  - by eapply step_inv_election_begin.
  - by eapply step_inv_request_vote.
  - split; [|done]. apply SendRequest_reply_frame in Hr as [Hf Hres].
    eapply inv_one_server_run; eauto; [intros Hsi; by eapply server_inv_frame|].
    eapply run_inv_reply; eauto; [by apply (ci_runs s Hinv k)|].
    intros Hg. by apply andb_true_iff in Hg as [? _].
  - split; [|done]. apply SendRequest_finish_frame in Hf as [Hf Hres].
    eapply inv_one_server_run; eauto; [intros Hsi; by eapply server_inv_frame|].
    apply run_inv_finish; [|done]. by apply (ci_runs s Hinv k).
  - split; [|done]. eapply inv_one_server; eauto. intros Hsi.
    eapply server_inv_elected; eauto. by apply (ci_runs s Hinv k).
Qed.

Lemma step_inv s s' :
  0 < n → cluster_inv s → cluster_step s s' → cluster_inv s' ∧ votes s ⊆ votes s'.
Proof.
  intros Hn Hinv Hstep. destruct Hstep as [i rf rf' Hs Hl|s' He|i rf rf' Hs Hm].
  - split; [|done]. eapply inv_one_server; eauto.
    intros Hsi. eapply server_inv_frame; [by apply local_step_frame|done].
  - by apply election_step_inv.
  - split; [|done]. eapply inv_one_server; eauto. intros Hsi.
    by eapply server_inv_crash.
Qed.

Lemma init_inv s : cluster_init s → cluster_inv s.
Proof.
  intros (Hdom & He & Hv & Hs). constructor.
  - intros i rf Hi. split; [rewrite <- Hdom; apply elem_of_dom; eauto|].
    specialize (Hs i rf Hi). unfold Make in Hs. simpl in Hs.
    destruct (make_slice n 0); simplify_eq/=. constructor; simpl; try done.
    + intros t c. rewrite Hv. by rewrite lookup_empty.
    + exists 0, (-1). split; [done|]. intros t c. by rewrite Hv, lookup_empty.
  - intros k e. by rewrite He, lookup_empty.
  - intros v t c. by rewrite Hv, lookup_empty.
Qed.

Lemma steps_inv s s' :
  0 < n → cluster_inv s → rtc cluster_step s s' → cluster_inv s' ∧ votes s ⊆ votes s'.
Proof.
  intros Hn Hinv. induction 1 as [s|s s1 s2 Hstep _ IH]; [done|].
  destruct (step_inv _ _ Hn Hinv Hstep) as [Hinv1 Hsub1].
  destruct (IH Hinv1) as [Hinv2 Hsub2]. split; [done|]. by etrans.
Qed.

Lemma reachable_inv s : 0 < n → reachable s → cluster_inv s.
Proof. intros Hn (s0 & Hi & Hr). eapply steps_inv; eauto. by apply init_inv. Qed.

(** Two leaders of a term are the same peer, whatever voted in between. *)
Lemma quorum_unique (vs vs' : gmap (Z * Z) Z) i j t :
  0 < n → vs ⊆ vs' → has_quorum vs i t → has_quorum vs' j t → i = j.
Proof.
  intros Hn Hsub (Q & HQ & Hsz & HvQ) (Q' & HQ' & Hsz' & HvQ').
  destruct (quorum_meet n Q Q' (server_ids n)) as (v & Hv & Hv'); auto.
  { apply size_server_ids. lia. }
  specialize (HvQ v Hv). specialize (HvQ' v Hv').
  eapply lookup_weaken in HvQ; [|exact Hsub]. congruence.
Qed.

Lemma one_leader_per_term s s' i j rfi rfj :
  0 < n → reachable s → rtc cluster_step s s' →
  servers s !! i = Some rfi → servers s' !! j = Some rfj →
  state rfi = LEADER → state rfj = LEADER → currentTerm rfi = currentTerm rfj → i = j.
Proof.
  intros Hn Hr Hsteps Hi Hj Hli Hlj Ht.
  pose proof (reachable_inv s Hn Hr) as Hinv.
  destruct (steps_inv s s' Hn Hinv Hsteps) as [Hinv' Hsub].
  destruct (ci_servers s Hinv i rfi Hi) as [_ Hsi].
  destruct (ci_servers s' Hinv' j rfj Hj) as [_ Hsj].
  eapply quorum_unique; [done|exact Hsub|by apply (si_leader _ _ _ Hsi)|].
  rewrite Ht. by apply (si_leader _ _ _ Hsj).
Qed.

(** ** Terms are never negative *)

Definition term_ok rf : Prop := 0 ≤ currentTerm rf ∧ ∃ t v, durable rf t v ∧ 0 ≤ t.

Lemma term_ok_up rf rf' :
  term_ok rf → currentTerm rf ≤ currentTerm rf' →
  raftstate (persister rf') = raftstate (persister rf)
    ∨ (∃ rfp : Raft C, raftstate (persister rf') = Some (getPersistData rfp) ∧ currentTerm rfp = currentTerm rf') →
  term_ok rf'.
Proof.
  intros (Hp & t & v & Hd & Ht) Hle Hs. split; [lia|]. unfold durable in *.
  destruct Hs as [->|(rfp & -> & Hrfp)]; [eauto|]. exists (currentTerm rfp), (voteFor rfp). split; [by exists rfp|lia].
Qed.

Lemma term_ok_frame rf rf' : vote_frame rf rf' → term_ok rf → term_ok rf'.
Proof.
  intros [_ _ Ht Hd] Hok. apply (term_ok_up rf); [done|destruct Ht as [(-> & _)|[? _]]; lia|].
  destruct Hd as [?|(rfp & ? & ? & _)]; [by left|right; by exists rfp].
Qed.

Lemma term_ok_step s s' :
  (∀ i rf, servers s !! i = Some rf → term_ok rf) → cluster_step s s' → ∀ i rf, servers s' !! i = Some rf → term_ok rf.
Proof.
  intros Hok Hstep.
  assert (∀ i rf rf', servers s !! i = Some rf → (term_ok rf → term_ok rf') →
    ∀ j rfj, <[i:=rf']> (servers s) !! j = Some rfj → term_ok rfj) as Hone.
  { intros i rf rf' Hi Hup j rfj [[-> <-]|[_ Hj]]%lookup_insert_Some; eauto. }
  destruct Hstep as [i rf rf' Hs Hl|s' He|i rf rf' Hs Hm]; simpl.
  - eapply Hone; [done|]. by apply term_ok_frame, local_step_frame.
  - destruct He as [i k rf rf' args Hs Hk Hb|k e j rf rf' reply He Hj Hs Hr|k e i j rf rf' reply ss' He Hj -> Hs Hr
      |k e i rf rf' count He -> Hs Hf|k e i count rf rf' He Hc -> Hs Hend]; simpl; (eapply Hone; [done|]).
    + apply Election_begin_candidate in Hb as (Ht & _ & _ & _ & _ & Hd & _). intros Hrf.
      apply (term_ok_up rf); [done|lia|]. right. by exists rf'.
    + destruct (VoteGranted reply) eqn:Hg; [|by apply term_ok_frame; eapply RequestVote_refused].
      pose proof (RequestVote_granted _ _ _ _ Hr Hg) as (Hle & Ht & _).
      apply RequestVote_decision in Hr as (_ & _ & Hd & _); [|done]. intros Hrf.
      apply (term_ok_up rf); [done|lia|]. right. by exists rf'.
    + apply SendRequest_reply_frame in Hr as [Hf _]. by apply term_ok_frame.
    + apply SendRequest_finish_frame in Hf as [Hf _]. by apply term_ok_frame.
    + apply Election_end_cases in Hend as [Hf|(_ & _ & _ & _ & _ & _ & Ht & _ & rfp & Hd & Htp & _)]; [by apply term_ok_frame|].
      intros Hrf. apply (term_ok_up rf); [done|lia|]. right. exists rfp. split; [done|congruence].
  - eapply Hone; [done|]. intros (_ & t & v & Hd & Ht). destruct (Make_durable _ _ _ _ _ Hd Hm) as (Hct & _ & _ & _ & _ & Hp).
    split; [lia|]. exists t, v. unfold durable in *. by rewrite Hp.
Qed.

Lemma reachable_terms s i rf : reachable s → servers s !! i = Some rf → 0 ≤ currentTerm rf.
Proof.
  intros (s0 & (_ & _ & _ & Hinit) & Hs). revert i rf.
  assert (∀ i rf, servers s0 !! i = Some rf → term_ok rf) as H0s.
  { intros i rf Hi. specialize (Hinit i rf Hi). unfold Make in Hinit. simpl in Hinit.
    destruct (make_slice n 0); simplify_eq/=. split; [done|]. exists 0, (-1). done. }
  assert (∀ i rf, servers s !! i = Some rf → term_ok rf) as Hall.
  { clear Hinit. induction Hs as [s|s1 s2 s Hstep _ IH]; [done|]. apply IH. by eapply term_ok_step. }
  intros i rf Hi. by apply (Hall i rf).
Qed.

(** ** Properties *)


(** A vote is final: once a peer has voted for a candidate in a term, no later
    step of the cluster, crashes included, makes it vote for another candidate in that
    term; and its durable term never falls below the term of a vote it cast. *)
Theorem vote_is_final s s' v t c :
  0 < n → reachable s → rtc cluster_step s s' →
  votes s !! (v, t) = Some c →
  votes s' !! (v, t) = Some c
  ∧ ∀ rf, servers s' !! v = Some rf →
      t ≤ currentTerm rf ∧ (t = currentTerm rf → voteFor rf = c)
      ∧ ∃ t' v', durable rf t' v' ∧ t ≤ t' ∧ (t = t' → v' = c).
Proof.
  intros Hn Hr Hsteps Hv. pose proof (reachable_inv s Hn Hr) as Hinv.
  destruct (steps_inv s s' Hn Hinv Hsteps) as [Hinv' Hsub].
  assert (votes s' !! (v, t) = Some c) as Hv' by (by eapply lookup_weaken).
  split; [done|]. intros rf Hrf. destruct (ci_servers s' Hinv' v rf Hrf) as [_ Hsi].
  destruct (si_vote _ _ _ Hsi t c Hv') as [? ?]. split_and!; [done|done|].
  destruct (si_durable _ _ _ Hsi) as (t' & v' & Hd & Hc). exists t', v'.
  split; [done|]. by apply Hc.
Qed.

End cluster.

(** ** Witness: three peers, the first one wins the election of term 1. *)
Module ClusterDemo.
Import RaftDemo.

Definition s0 : Cluster Z :=
  MkCluster (<[0 := boot 3 0]> (<[1 := boot 3 1]> (<[2 := boot 3 2]> ∅))) ∅ ∅.
Definition rf0 : Raft Z := default dummy (fst <$> Election_begin (boot 3 0)).
Definition args : RequestVoteArgs := MkRVArgs 1 0 0 0.
Definition run : ElectionRun := MkRun args (server_ids 3 ∖ {[0]}) ∅ (MkSend 0 false) None ∅.
Definition s1 : Cluster Z :=
  s0 <| servers := <[0 := rf0]> (servers s0) |> <| elections := <[0%nat := run]> (elections s0) |>
     <| votes := <[(0, rv_Term args) := 0]> (votes s0) |>.
Definition rf1 : Raft Z := default dummy (fst <$> RequestVote args rv_reply0 (boot 3 1)).
Definition reply : RequestVoteReply := MkRVReply 0 true.
Definition run2 : ElectionRun :=
  run <| el_pending := el_pending run ∖ {[1]} |>
      <| el_inflight := <[1 := reply]> (el_inflight run) |>.
Definition s2 : Cluster Z :=
  s1 <| servers := <[1 := rf1]> (servers s1) |> <| elections := <[0%nat := run2]> (elections s1) |>
     <| votes := <[(1, rv_Term args) := 0]> (votes s1) |>.
Definition run3 : ElectionRun :=
  run2 <| el_inflight := delete 1 (el_inflight run2) |> <| el_send := MkSend 1 false |>
       <| el_counted := if res (MkSend 1 false) =? res (el_send run2) then el_counted run2
                        else {[1]} ∪ el_counted run2 |>.
Definition s3 : Cluster Z :=
  s2 <| servers := <[0 := rf0]> (servers s2) |> <| elections := <[0%nat := run3]> (elections s2) |>.
Definition run4 : ElectionRun := run3 <| el_count := Some 1 |>.
Definition s4 : Cluster Z :=
  s3 <| servers := <[0 := rf0]> (servers s3) |> <| elections := <[0%nat := run4]> (elections s3) |>.
Definition rf5 : Raft Z := default dummy (Election_end args 1 rf0).
Definition s5 : Cluster Z := s4 <| servers := <[0 := rf5]> (servers s4) |>.

Lemma s0_init : cluster_init 3 s0.
Proof.
  split_and!; [vm_compute; reflexivity|reflexivity|reflexivity|].
  intros i rf Hi. unfold s0 in Hi. simpl in Hi.
  rewrite !lookup_insert in Hi. repeat case_decide; simplify_eq; try (vm_compute; reflexivity).
Qed.

Lemma s5_reachable : reachable 3 s5.
Proof.
  exists s0. split; [exact s0_init|].
  apply (rtc_l _ s0 s1).
  { apply step_election, (step_election_begin 3 s0 0 0%nat (boot 3 0) rf0 args); vm_compute; reflexivity. }
  apply (rtc_l _ s1 s2).
  { apply step_election, (step_request_vote 3 s1 0%nat run 1 (boot 3 1) rf1 reply); [..|vm_compute; reflexivity];
      [vm_compute; reflexivity| |vm_compute; reflexivity].
    apply (bool_decide_unpack _). vm_compute. exact I. }
  apply (rtc_l _ s2 s3).
  { apply step_election, (step_reply 3 s2 0%nat run2 0 1 rf0 rf0 reply (MkSend 1 false)); vm_compute; reflexivity. }
  apply (rtc_l _ s3 s4).
  { apply step_election, (step_finish 3 s3 0%nat run3 0 rf0 rf0 1); vm_compute; reflexivity. }
  apply (rtc_l _ s4 s5).
  { apply step_election, (step_election_end 3 s4 0%nat run4 0 1 rf0 rf5); vm_compute; reflexivity. }
  apply rtc_refl.
Qed.
End ClusterDemo.

Import RaftDemo.


Lemma vote_is_final_witness : votes ClusterDemo.s5 !! (1, 1) = Some 0.
Proof.
  apply (vote_is_final 3 ClusterDemo.s5 ClusterDemo.s5 1 1 0
    ltac:(reflexivity) ClusterDemo.s5_reachable (rtc_refl _ _)). vm_compute. reflexivity.
Defined.
