(* ===== verification/RaftWf.v ===== *)
(** * Raft: the type invariant of a peer

    Every handler keeps [raft_wf] and keeps the persister restorable, so in every
    reachable cluster no peer has lost its snapshot entry or the leader bookkeeping that
    its handlers index. *)
From S2P Require Import Prelude RaftState RaftVote RaftSnapshot RaftReplicate RaftApply RaftCluster.

Section wf.
Context {C : Type} `{EqDecision C, GoRand, GobCodec (RaftVal C)}.
Implicit Types (rf : Raft C) (s : Cluster C).

(** A restart finds nothing, or the encoding of a state with a log. *)
Definition restorable (p : Persister) : Prop :=
  match raftstate p with
  | None => True
  | Some bs => ∃ rfp : Raft C, bs = getPersistData rfp ∧ log rfp ≠ [] ∧ 0 ≤ lastSnapshotIndex rfp
  end.

Record peer_wf rf : Prop := {
  pw_raft : raft_wf rf;
  pw_persister : restorable (persister rf)
}.

(** How a handler may change the fields [peer_wf] depends on. *)
Record wf_update rf rf' : Prop := {
  wu_log : log rf' ≠ [];
  wu_me : me rf' = me rf;
  wu_peers : peers rf' = peers rf;
  wu_timers : length (appendEntriesTimer rf') = length (appendEntriesTimer rf);
  wu_leader : state rf' = LEADER →
    (state rf = LEADER ∧ length (nextIndex rf') = length (nextIndex rf)
       ∧ length (matchIndex rf') = length (matchIndex rf))
    ∨ (len (nextIndex rf') = peers rf ∧ len (matchIndex rf') = peers rf);
  wu_snap : 0 ≤ lastSnapshotIndex rf';
  wu_persister : persister rf' = persister rf ∨ restorable (persister rf')
}.

Lemma wf_update_wf rf rf' : peer_wf rf → wf_update rf rf' → peer_wf rf'.
Proof.
  intros [[Hl Hm Ht Hn Hx Hs] Hp] [Ul Um Up Ut Uld Us Upp]. constructor.
  - constructor; rewrite ?Um, ?Up; try done; [congruence| |].
    + intros Hld. destruct (Uld Hld) as [(? & -> & _)|[? _]]; auto.
    + intros Hld. destruct (Uld Hld) as [(? & _ & ->)|[_ ?]]; auto.
  - by destruct Upp as [->|?].
Qed.

(** Updates of other fields. *)
Lemma wf_update_same rf rf' :
  peer_wf rf → log rf' ≠ [] → me rf' = me rf → peers rf' = peers rf →
  length (appendEntriesTimer rf') = length (appendEntriesTimer rf) →
  (state rf' = LEADER → state rf = LEADER) →
  length (nextIndex rf') = length (nextIndex rf) →
  length (matchIndex rf') = length (matchIndex rf) →
  0 ≤ lastSnapshotIndex rf' →
  (persister rf' = persister rf ∨ restorable (persister rf')) → peer_wf rf'.
Proof. intros Hw ? ? ? ? ? ? ? ? ?. apply (wf_update_wf rf rf' Hw). constructor; auto. Qed.

Lemma restorable_persist rf :
  log rf ≠ [] → 0 ≤ lastSnapshotIndex rf → restorable (persister (persist rf)).
Proof. intros. exists rf. done. Qed.

Lemma peer_wf_persist rf : peer_wf rf → peer_wf (persist rf).
Proof.
  intros Hw. pose proof Hw as [[] ?]. apply (wf_update_same rf); auto.
  right. by apply restorable_persist.
Qed.

Lemma peer_wf_resetElectionTimer rf : peer_wf rf → peer_wf (resetElectionTimer rf).
Proof. intros Hw. pose proof Hw as [[] ?]. apply (wf_update_same rf); auto. Qed.

Lemma peer_wf_AENow rf : peer_wf rf → peer_wf (AENow rf).
Proof.
  intros Hw. pose proof Hw as [[] ?]. apply (wf_update_same rf); auto.
  simpl. by rewrite length_fmap.
Qed.

Lemma peer_wf_follower t v rf :
  peer_wf rf → peer_wf (rf <| currentTerm := t |> <| voteFor := v |> <| state := FOLLOWER |>).
Proof. intros Hw. pose proof Hw as [[] ?]. apply (wf_update_same rf); auto. done. Qed.

Lemma AppendEntries_wf args rf rf' reply :
  peer_wf rf → AppendEntries args ae_reply0 rf = Some (rf', reply) → peer_wf rf'.
Proof.
  intros Hw Hr. pose proof Hw as [[] ?].
  apply AppendEntries_cases in Hr as [(_ & -> & _)|Hr]; [done| |done].
  destruct Hr as (_ & _ & l & ci & m & k & -> & Hc). apply peer_wf_persist.
  apply (wf_update_same rf); auto; [|done].
  simpl. destruct Hc as [(_ & -> & _)|(_ & -> & Hp & _)]; [done|].
  unfold spliced_log. destruct (log rf); [done|].
  rewrite (Z2Nat.inj_add _ 1) by lia. by rewrite Nat.add_1_r.
Qed.

Lemma AE_prepare_wf index rf rf' args :
  peer_wf rf → AE_prepare index rf = Some (rf', args) → peer_wf rf'.
Proof.
  intros Hw. pose proof Hw as [[] ?]. unfold AE_prepare, resetAETimer.
  intros. run_option; apply (wf_update_same rf); simpl; eauto using slice_set_length.
Qed.

Lemma peer_wf_LeaderCommit rf : peer_wf rf → peer_wf (LeaderCommit rf).
Proof.
  unfold LeaderCommit. generalize (seqZ (commitIndex rf + 1)
    (len (log rf) + lastSnapshotIndex rf - (commitIndex rf + 1) + 1)) as js.
  intros js. revert rf. induction js as [|j js IH]; intros rf Hw; [done|]. simpl.
  apply IH. unfold LeaderCommit_step. destruct (reaches_majority _ _ _ _); [|done].
  pose proof Hw as [[] ?]. apply (wf_update_same rf); auto.
Qed.

Lemma AE_result_wf index args reply rf rf' next :
  peer_wf rf → AE_result index args reply rf = Some (rf', next) → peer_wf rf'.
Proof.
  intros Hw. pose proof Hw as [[] ?]. unfold AE_result. rewrite Z.gtb_ltb.
  destruct (Z.ltb_spec (currentTerm rf) (aer_Term reply)); simpl.
  { intros ?; simplify_eq. apply peer_wf_persist. apply (wf_update_same rf); auto. done. }
  destruct (_ || _); [by intros ?; simplify_eq|].
  destruct (Success reply).
  { destruct ((nextIndex rf).[index]); simpl; [|done].
    destruct (slice_set (nextIndex rf) _ _) as [nx|] eqn:Hnx; simpl; [|done].
    destruct (nx.[index]); simpl; [|done].
    destruct (slice_set (matchIndex rf) _ _) as [mt|] eqn:Hmt; simpl; [|done].
    intros ?; simplify_eq. set (rf1 := _ <| matchIndex := mt |>).
    assert (peer_wf rf1) by (apply (wf_update_same rf); simpl; eauto using slice_set_length).
    repeat case_match; try done; by apply peer_wf_LeaderCommit. }
  destruct (_ =? -1); [by intros ?; simplify_eq|].
  destruct (if negb _ then _ else _) as [ni|]; simpl; [|done].
  destruct (slice_set (nextIndex rf) _ _) as [nx|] eqn:Hnx; simpl; [|done].
  destruct (slice_set (matchIndex rf) _ _) as [mt|] eqn:Hmt; simpl; [|done].
  intros ?; simplify_eq. apply (wf_update_same rf); simpl; eauto using slice_set_length.
Qed.

Lemma InstallSnapshot_wf args rf rf' reply :
  peer_wf rf → InstallSnapshot args rf = Some (rf', reply) → peer_wf rf'.
Proof.
  intros Hw. unfold InstallSnapshot. destruct (_ <? _); [by intros; simplify_eq|].
  set (newer := _ >? _). 
  destruct (if newer then _ else _) as [rf1|] eqn:H1; simpl; [|done].
  assert (peer_wf rf1 ∧ lastSnapshotIndex rf1 = lastSnapshotIndex rf) as [Hw1 Hi].
  { destruct newer; simpl in H1; simplify_eq; [|done]. split; [|done].
    apply peer_wf_resetElectionTimer. pose proof Hw as [[] ?]. apply (wf_update_same rf); auto. done. }
  destruct (Z.geb_spec (lastSnapshotIndex rf1) (LastIncludeIndex args)).
  { intros ?; simplify_eq. destruct newer; [by apply peer_wf_persist|done]. }
  destruct (if _ >=? _ then _ else _) as [l|] eqn:Hl; simpl; [|done].
  pose proof Hw1 as [[] ?].
  assert (l ≠ []) as Hne.
  { revert Hl. destruct (Z.geb_spec (LastIncludeIndex args - lastSnapshotIndex rf1) (len (log rf1)));
      [by intros [= <-]|]. intros [? ->]%slice_from_Some Hd.
    apply (f_equal length) in Hd. rewrite length_drop in Hd. simpl in Hd. lia. }
  intros ?; simplify_eq. set (rf2 := _ <| persister := _ |>).
  assert (peer_wf rf2); [|destruct newer; [by apply peer_wf_persist|done]].
  apply (wf_update_same rf1); auto; [simpl; lia|]. right. eexists. split; [done|].
  split; [done|]. simpl. lia.
Qed.

Lemma InstallSnapshotToPeers_wf index r rf rf' :
  peer_wf rf → InstallSnapshotToPeers_result index r rf = Some rf' → peer_wf rf'.
Proof.
  intros Hw. assert (∀ t rf1, peer_wf rf1 →
    (if t >? currentTerm rf1 then
       rf ← changeRole FOLLOWER (rf1 <| currentTerm := t |>); Some (resetElectionTimer rf)
     else Some rf1) = Some rf' → peer_wf rf') as Hc.
  { intros t rf1 Hw1. destruct (_ >? _); simpl; intros ?; simplify_eq; [|done].
    apply peer_wf_resetElectionTimer. pose proof Hw1 as [[] ?]. apply (wf_update_same rf1); auto. done. }
  unfold InstallSnapshotToPeers_result. destruct r as [r| |].
  - destruct (slice_set (nextIndex rf) _ _) as [nx|] eqn:Hnx; simpl; [|done].
    destruct (slice_set (matchIndex rf) _ _) as [mt|] eqn:Hmt; simpl; [|done].
    intros Hr. apply (Hc (isr_Term r) (rf <| nextIndex := nx |> <| matchIndex := mt |>)); [|exact Hr].
    pose proof Hw as [[] ?]. apply (wf_update_same rf); simpl; eauto using slice_set_length.
  - intros Hr. by apply (Hc 0 rf Hw).
  - by intros ?; simplify_eq.
Qed.

Lemma SaveStateAndSnapshot_wf index snap rf rf' :
  peer_wf rf → SaveStateAndSnapshot index snap rf = Some rf' → peer_wf rf'.
Proof.
  intros Hw. unfold SaveStateAndSnapshot. destruct (Z.ltb_spec index (lastSnapshotIndex rf));
    [by intros; simplify_eq|].
  destruct ((log rf).[_]) as [e|] eqn:He; simpl; [|done].
  destruct (slice_from _ _) as [l|] eqn:Hl; simpl; [|done].
  pose proof Hw as [[] ?].
  assert (l ≠ []) as Hne.
  { apply slice_from_Some in Hl as [? ->]. apply mk_is_Some, slice_get_is_Some in He. intros Hd.
    apply (f_equal length) in Hd. rewrite length_drop in Hd. simpl in Hd. lia. }
  intros ?; simplify_eq. apply (wf_update_same rf); auto; [simpl; lia|].
  right. eexists. split; [done|]. split; [done|]. simpl. lia.
Qed.

Lemma Start_wf c rf rf' r : peer_wf rf → Start c rf = Some (rf', r) → peer_wf rf'.
Proof.
  intros Hw. unfold Start. destruct (lastLogTermIndex rf) as [[t i]|]; simpl; [|done].
  case_bool_decide; [|by intros; simplify_eq].
  destruct (slice_set (nextIndex rf) _ _) as [nx|] eqn:Hnx; simpl; [|done].
  destruct (slice_set (matchIndex rf) _ _) as [mt|] eqn:Hmt; simpl; [|done].
  intros ?; simplify_eq. apply peer_wf_AENow, peer_wf_persist. pose proof Hw as [[] ?].
  apply (wf_update_same rf); simpl; eauto using slice_set_length. by destruct (log rf).
Qed.

Lemma local_step_wf rf rf' : peer_wf rf → local_step rf rf' → peer_wf rf'.
Proof.
  intros Hw. destruct 1 as [??? Hr|??? Hr|????? Hr|??? Hr|??? Hr|??? Hr|??? Hr|msg|? Hr|? Hr].
  - by eapply AppendEntries_wf.
  - by eapply AE_prepare_wf.
  - by eapply AE_result_wf.
  - by eapply InstallSnapshot_wf.
  - by eapply InstallSnapshotToPeers_wf.
  - by eapply SaveStateAndSnapshot_wf.
  - by eapply Start_wf.
  - pose proof Hw as [[] ?]. unfold Apply_deliver. case_bool_decide;
      apply (wf_update_same rf); auto.
  - unfold Election_begin in Hr. destruct (bool_decide _).
    + injection Hr as <-. by apply peer_wf_resetElectionTimer.
    + destruct (changeRole CANDIDATE _) as [rf1|]; [|done]. simpl in Hr.
      by destruct (lastLogTermIndex (persist rf1)) as [[]|].
  - pose proof Hw as [[] ?]. unfold Kill in Hr. case_match; simplify_eq.
    apply (wf_update_same rf); auto.
Qed.

Lemma RequestVote_wf args reply rf rf' reply' :
  peer_wf rf → RequestVote args reply rf = Some (rf', reply') → peer_wf rf'.
Proof.
  intros Hw. unfold RequestVote. destruct (lastLogTermIndex rf) as [[lt li]|]; simpl; [|done].
  assert (∀ rf1 v, peer_wf rf1 → peer_wf (resetElectionTimer (rf1 <| voteFor := v |> <| state := FOLLOWER |>)))
    as Hvote.
  { intros rf1 v Hw1. apply peer_wf_resetElectionTimer. pose proof Hw1 as [[] ?].
    apply (wf_update_same rf1); auto. done. }
  assert (∀ t v, peer_wf (rf <| currentTerm := t |> <| state := FOLLOWER |> <| voteFor := v |>)) as Hnew.
  { intros t v. pose proof Hw as [[] ?]. apply (wf_update_same rf); auto. done. }
  destruct (rv_Term args <? currentTerm rf); simpl.
  { intros ?; simplify_eq. by apply peer_wf_persist. }
  destruct (rv_Term args >? currentTerm rf); simpl.
  { destruct (candidate_up_to_date _ _ _); simpl; intros ?; simplify_eq; apply peer_wf_persist; auto. }
  destruct (voteFor rf =? CandidateId args); simpl.
  { intros ?; simplify_eq. apply peer_wf_persist, peer_wf_resetElectionTimer.
    pose proof Hw as [[] ?]. apply (wf_update_same rf); auto. done. }
  destruct (voteFor rf =? -1); simpl; [destruct (candidate_up_to_date _ _ _); simpl|];
    intros ?; simplify_eq; apply peer_wf_persist; auto.
Qed.

Lemma changeRole_wf r rf rf' : peer_wf rf → changeRole r rf = Some rf' → peer_wf rf'.
Proof.
  intros Hw. pose proof Hw as [Hraft ?]. pose proof Hraft as []. destruct r.
  - rewrite (changeRole_LEADER rf Hraft). intros [= <-]. apply peer_wf_resetElectionTimer.
    apply (wf_update_wf rf); [done|]. constructor; auto.
    intros _. right. simpl. rewrite length_insert, !length_replicate. lia.
  - simpl. intros [= <-]. apply (wf_update_same rf); auto. done.
  - simpl. intros [= <-]. apply peer_wf_resetElectionTimer. apply (wf_update_same rf); auto. done.
Qed.

Lemma Election_begin_wf rf rf' args :
  peer_wf rf → Election_begin rf = Some (rf', args) → peer_wf rf'.
Proof.
  intros Hw%peer_wf_resetElectionTimer. unfold Election_begin. destruct (bool_decide _).
  { by intros [= <- _]. }
  destruct (changeRole CANDIDATE _) as [rf1|] eqn:Hc; [|done].
  apply changeRole_wf, peer_wf_persist in Hc; [|done]. cbn [mbind option_bind].
  destruct (lastLogTermIndex (persist rf1)) as [[t i]|]; [|done]. by intros [= <- _].
Qed.

Lemma SendRequest_reply_wf args r rf ss rf' ss' :
  peer_wf rf → SendRequest_reply args r (rf, ss) = Some (rf', ss') → peer_wf rf'.
Proof.
  intros Hw. pose proof Hw as [[] ?]. unfold SendRequest_reply.
  destruct r as [reply|]; [|by intros [= <- _]].
  destruct (rvr_Term reply >? rv_Term args).
  - destruct (rvr_Term reply >? currentTerm rf); simpl; intros [= <- _]; [|done].
    apply (wf_update_same rf); auto. done.
  - destruct (VoteGranted reply); by intros [= <- _].
Qed.

Lemma SendRequest_finish_wf rf ss rf' k :
  peer_wf rf → SendRequest_finish (rf, ss) = (rf', k) → peer_wf rf'.
Proof.
  intros Hw. unfold SendRequest_finish. destruct (another ss); intros [= <- _]; [|done].
  by apply peer_wf_persist, peer_wf_resetElectionTimer.
Qed.

Lemma Election_end_wf args k rf rf' :
  peer_wf rf → Election_end args k rf = Some rf' → peer_wf rf'.
Proof.
  intros Hw. unfold Election_end.
  destruct (_ && _).
  - destruct (changeRole LEADER rf) as [rf1|] eqn:Hc; [|done].
    apply changeRole_wf, peer_wf_persist in Hc; [|done]. cbn [mbind option_bind].
    destruct (bool_decide _); intros [= <-]; [by apply peer_wf_AENow|done].
  - cbn [mbind option_bind]. destruct (bool_decide _); intros [= <-]; [by apply peer_wf_AENow|done].
Qed.

Lemma Make_wf n i p rf :
  0 ≤ i < n → restorable p → Make n i p = Some rf → peer_wf rf.
Proof.
  intros Hi Hp. unfold Make. rewrite make_slice_nonneg by lia. cbn [mbind option_bind].
  set (rf0 := _ <| log := _ |>).
  assert (peer_wf rf0) as Hw0.
  { constructor; [|done]. constructor; try done. cbn. rewrite length_replicate. lia. }
  unfold ReadRaftState, restorable in *. destruct (raftstate p) as [bs|] eqn:Hraft.
  - destruct Hp as (rfp & -> & Hl & Hs). rewrite readPersist_getPersistData.
    cbn [mbind option_bind]. intros [= <-].
    pose proof Hw0 as [[] ?]. apply (wf_update_same rf0); auto. simpl. by rewrite length_fmap.
  - cbn [mbind option_bind readPersist]. intros [= <-].
    pose proof Hw0 as [[] ?]. apply (wf_update_same rf0); auto. simpl. by rewrite length_fmap.
Qed.

(** Well-formedness of a whole cluster of [n] peers. *)
Definition cluster_wf (n : Z) s : Prop :=
  ∀ i rf, servers s !! i = Some rf → 0 ≤ i < n ∧ peer_wf rf.

Lemma cluster_wf_update n s s' i rf rf' :
  cluster_wf n s → servers s !! i = Some rf → (0 ≤ i < n → peer_wf rf → peer_wf rf') →
  servers s' = <[i := rf']> (servers s) → cluster_wf n s'.
Proof.
  intros Hw Hi Hrf Heq j rfj. rewrite Heq. destruct (decide (i = j)) as [<-|].
  - rewrite lookup_insert_eq. intros [= <-]. destruct (Hw _ _ Hi). auto.
  - rewrite lookup_insert_ne by done. apply Hw.
Qed.

Lemma election_step_wf n s s' : cluster_wf n s → election_step n s s' → cluster_wf n s'.
Proof.
  intros Hw Hstep. destruct Hstep as [i k rf rf' args Hi _ He
    |k e j rf rf' reply _ _ Hj Hr|k e i j rf rf' reply ss' _ _ -> Hi Hr
    |k e i rf rf' count _ -> Hi Hf|k e i count rf rf' _ _ -> Hi Hr];
    (eapply cluster_wf_update; [exact Hw|eassumption| |done]); intros Hb Hrf.
  - by eapply Election_begin_wf.
  - by eapply RequestVote_wf.
  - by eapply SendRequest_reply_wf.
  - by eapply SendRequest_finish_wf.
  - by eapply Election_end_wf.
Qed.

Lemma cluster_wf_step n s s' : cluster_wf n s → cluster_step n s s' → cluster_wf n s'.
Proof.
  intros Hw Hstep. destruct Hstep as [i rf rf' Hi Hl|s' He|i rf rf' Hi Hm];
    [|by eapply election_step_wf|];
    (eapply cluster_wf_update; [exact Hw|eassumption| |done]); intros Hb Hrf.
  - by eapply local_step_wf.
  - eapply Make_wf; [done|apply Hrf|done].
Qed.

Lemma cluster_wf_reachable n s : reachable n s → cluster_wf n s.
Proof.
  intros (s0 & (Hdom & _ & _ & Hinit) & Hr).
  assert (cluster_wf n s0) as Hw.
  { intros i rf Hi. assert (0 ≤ i < n) as Hb.
    { apply elem_of_server_ids. rewrite <- Hdom. by eapply elem_of_dom_2. }
    split; [done|]. by eapply Make_wf, Hinit. }
  clear Hdom Hinit. induction Hr as [|x y z Hxy _ IH]; [done|].
  apply IH. by eapply cluster_wf_step.
Qed.

Lemma Election_begin_total rf : log rf ≠ [] → is_Some (Election_begin rf).
Proof.
  intros Hl. unfold Election_begin. destruct (bool_decide _); [eauto|].
  assert (∃ rf1, changeRole CANDIDATE (resetElectionTimer rf) = Some rf1 ∧ log rf1 = log rf)
    as (rf1 & -> & Hl1) by (eexists; split; reflexivity).
  cbn [mbind option_bind].
  rewrite (lastLogTermIndex_spec (persist rf1)) by (cbn; by rewrite Hl1). cbn. eauto.
Qed.

Lemma Election_end_total args k rf : raft_wf rf → is_Some (Election_end args k rf).
Proof.
  intros Hraft. unfold Election_end. destruct (_ && _).
  - assert (is_Some (changeRole LEADER rf)) as [rf1 ->].
    { rewrite (changeRole_LEADER rf Hraft). eauto. }
    cbn [mbind option_bind]. destruct (bool_decide _); eauto.
  - cbn [mbind option_bind]. destruct (bool_decide _); eauto.
Qed.

(** ** Properties *)

Lemma Make_total n i p : 0 ≤ n → restorable p → is_Some (Make n i p).
Proof.
  intros Hn Hp. unfold Make. rewrite make_slice_nonneg by done. cbn [mbind option_bind].
  unfold ReadRaftState, restorable in *. destruct (raftstate p) as [bs|]; [|by eexists].
  destruct Hp as (rfp & -> & _). rewrite readPersist_getPersistData. by eexists.
Qed.

(** C15. Reachable peers are well-formed and do not crash: across every interleaving of
    handlers, message deliveries, crashes and restarts, each peer keeps a log with its
    snapshot entry in front and, while it leads, one bookkeeping entry per peer, and what
    it has persisted restores such a peer; so the RPC handlers with any arguments, [Start]
    with any command and both halves of [Election] run to completion without an index
    panic, and a restart from its persister succeeds. *)
Theorem reachable_peers_safe n s i rf :
  reachable n s → servers s !! i = Some rf →
  peer_wf rf
  ∧ (∀ args, is_Some (RequestVote args rv_reply0 rf))
  ∧ (∀ args, is_Some (AppendEntries args ae_reply0 rf))
  ∧ (∀ args, is_Some (InstallSnapshot args rf))
  ∧ (∀ c, is_Some (Start c rf))
  ∧ is_Some (Election_begin rf)
  ∧ (∀ args k, is_Some (Election_end args k rf))
  ∧ is_Some (Make n i (persister rf)).
Proof.
  intros Hr Hi. destruct (cluster_wf_reachable n s Hr i rf Hi) as [Hin Hw].
  pose proof Hw as [Hraft Hp]. pose proof Hraft as [Hl Hm Ht Hn Hx Hs].
  split_and!; [done|..].
  - intros args. by apply RequestVote_total.
  - intros args. by apply AppendEntries_no_panic.
  - intros args. destruct (InstallSnapshot_total args rf Hl) as [p ->]. eauto.
  - intros c. unfold Start. rewrite lastLogTermIndex_spec by done. cbn [mbind option_bind].
    case_bool_decide as Hlead; [|eauto]. specialize (Hn Hlead). specialize (Hx Hlead).
    simpl. rewrite slice_set_lt by lia. simpl. rewrite slice_set_lt by lia. simpl. eauto.
  - by apply Election_begin_total.
  - intros args k. by apply Election_end_total.
  - apply Make_total; [lia|done].
Qed.

End wf.

(** ** Witnesses *)
Import RaftDemo.

Lemma reachable_peers_safe_witness : is_Some (Start 7 ClusterDemo.rf5).
Proof.
  assert (servers ClusterDemo.s5 !! 0 = Some ClusterDemo.rf5) as H0 by (vm_compute; reflexivity).
  destruct (reachable_peers_safe 3 ClusterDemo.s5 0 ClusterDemo.rf5
    ClusterDemo.s5_reachable H0) as (_ & _ & _ & _ & Hs & _).
  apply Hs.
Defined.
