(* ===== verification/RaftLog.v ===== *)
(** * Raft: log matching

    The cluster of [RaftCluster] with the [AppendEntries] traffic its leaders really send,
    for peers that do not compact their logs: entries enter a log through [Start] on a
    leader or through an [AppendEntries] request that some leader prepared, and requests
    are delivered late, repeatedly, in any order, or never. *)
From S2P Require Import Prelude RaftState RaftVote RaftSnapshot RaftReplicate RaftApply RaftCluster.

(** [sent] holds every request prepared so far.  [leader_logs] is a history variable: for
    each term, the log of the term's leader when it was last seen leading. *)
Record LogCluster (C : Type) := MkLogCluster {
  lc_cluster : Cluster C;
  lc_sent : list (AppendEntriesArgs C);
  lc_leader_logs : gmap Z (list (Log C))
}.
Arguments MkLogCluster {C}. Arguments lc_cluster {C}. Arguments lc_sent {C}.
Arguments lc_leader_logs {C}.

Section log_matching.
Context {C : Type} `{EqDecision C, GoRand, GobCodec (RaftVal C)}.
Variable n : Z.
Implicit Types (rf : Raft C) (cs : Cluster C) (s : LogCluster C).
Implicit Types (L : gmap Z (list (Log C))) (l : list (Log C)).

(** The handlers that leave the log alone.  A leader that has compacted nothing sends
    [InstallSnapshot] for index 0. *)
Inductive quiet_step rf : Raft C → Prop :=
  | quiet_AE_prepare index rf' :
      AE_prepare index rf = Some (rf', None) → quiet_step rf rf'
  | quiet_AE_result index args reply rf' next :
      AE_result index args reply rf = Some (rf', next) → quiet_step rf rf'
  | quiet_InstallSnapshot args rf' reply :
      LastIncludeIndex args = 0 → InstallSnapshot args rf = Some (rf', reply) → quiet_step rf rf'
  | quiet_InstallSnapshotToPeers index r rf' :
      InstallSnapshotToPeers_result index r rf = Some rf' → quiet_step rf rf'
  | quiet_Apply_deliver msg :
      quiet_step rf (Apply_deliver msg rf)
  | quiet_Election_leader rf' :
      Election_begin rf = Some (rf', None) → quiet_step rf rf'
  | quiet_Kill rf' :
      Kill rf = Some rf' → quiet_step rf rf'.

(** The history after peer [rf'] has moved. *)
Definition note_leader rf' L : gmap Z (list (Log C)) :=
  if bool_decide (state rf' = LEADER) then <[currentTerm rf' := log rf']> L else L.

Definition set_server (i : Z) rf' cs : Cluster C := cs <| servers := <[i := rf']> (servers cs) |>.

Inductive log_step s : LogCluster C → Prop :=
  | log_quiet i rf rf' :
      servers (lc_cluster s) !! i = Some rf → quiet_step rf rf' →
      log_step s (MkLogCluster (set_server i rf' (lc_cluster s)) (lc_sent s)
                    (note_leader rf' (lc_leader_logs s)))
  | log_send i index rf rf' args :
      servers (lc_cluster s) !! i = Some rf → AE_prepare index rf = Some (rf', Some args) →
      log_step s (MkLogCluster (set_server i rf' (lc_cluster s)) (args :: lc_sent s)
                    (note_leader rf' (lc_leader_logs s)))
  | log_append i args rf rf' reply' :
      servers (lc_cluster s) !! i = Some rf → args ∈ lc_sent s →
      AppendEntries args ae_reply0 rf = Some (rf', reply') →
      log_step s (MkLogCluster (set_server i rf' (lc_cluster s)) (lc_sent s)
                    (note_leader rf' (lc_leader_logs s)))
  | log_start i c rf rf' r :
      servers (lc_cluster s) !! i = Some rf → Start c rf = Some (rf', r) →
      log_step s (MkLogCluster (set_server i rf' (lc_cluster s)) (lc_sent s)
                    (note_leader rf' (lc_leader_logs s)))
  | log_election cs' i rf rf' :
      election_step n (lc_cluster s) cs' →
      servers (lc_cluster s) !! i = Some rf → servers cs' = <[i := rf']> (servers (lc_cluster s)) →
      log_step s (MkLogCluster cs' (lc_sent s) (note_leader rf' (lc_leader_logs s)))
  | log_crash i rf rf' :
      servers (lc_cluster s) !! i = Some rf → Make n i (persister rf) = Some rf' →
      log_step s (MkLogCluster (set_server i rf' (lc_cluster s)) (lc_sent s)
                    (note_leader rf' (lc_leader_logs s))).

Definition log_reachable s : Prop :=
  ∃ cs, cluster_init n cs ∧ rtc log_step (MkLogCluster cs [] ∅) s.

(** ** The invariant *)

(** The entry [Make] puts at index 0. *)
Definition entry0 : Log C := MkLog (IString "") 0.

(** Up to an entry of term [t], a log is the log of [t]'s leader. *)
Definition matches L l : Prop :=
  ∀ j e, (0 < j)%nat → l !! j = Some e → ∃ lt, L !! Term e = Some lt ∧ take (S j) l `prefix_of` lt.

(** What a restart would find for the log. *)
Definition saved_log rf : Prop :=
  match raftstate (persister rf) with
  | None => log rf = [entry0]
  | Some bs => ∃ rfp : Raft C, bs = getPersistData rfp ∧ log rfp = log rf ∧ lastSnapshotIndex rfp = 0
  end.

Record peer_log L rf : Prop := {
  pl_snap : lastSnapshotIndex rf = 0;
  pl_head : log rf !! 0%nat = Some entry0;
  pl_saved : saved_log rf;
  pl_matches : matches L (log rf);
  pl_leader : state rf = LEADER → L !! currentTerm rf = Some (log rf)
}.

(** A request carries entries that follow its previous index in its term's leader log. *)
Definition sent_ok L (args : AppendEntriesArgs C) : Prop :=
  ∃ lt p q, L !! ae_Term args = Some lt ∧ PrevLogIndex args = Z.of_nat p
    ∧ Term <$> lt !! p = Some (PrevLogTerm args) ∧ Entries args = take q (drop (S p) lt).

(** The leader of a term that has been recorded, which is no candidate of it again. *)
Definition led_by cs (t : Z) : Prop :=
  ∃ i, has_quorum n (votes cs) i t ∧ votes cs !! (i, t) = Some i
    ∧ ∀ rf, servers cs !! i = Some rf → currentTerm rf = t → state rf ≠ CANDIDATE.

Record log_inv s : Prop := {
  li_cluster : cluster_inv n (lc_cluster s);
  li_peers : ∀ i rf, servers (lc_cluster s) !! i = Some rf → peer_log (lc_leader_logs s) rf;
  li_leaders : ∀ t l, lc_leader_logs s !! t = Some l →
    l !! 0%nat = Some entry0 ∧ matches (lc_leader_logs s) l ∧ led_by (lc_cluster s) t;
  li_sent : ∀ args, args ∈ lc_sent s → sent_ok (lc_leader_logs s) args
}.

(** Leader logs only grow. *)
Definition logs_grow L L' : Prop :=
  ∀ t l, L !! t = Some l → ∃ l', L' !! t = Some l' ∧ l `prefix_of` l'.

(** ** Handlers that leave the log alone *)

Record log_frame rf rf' : Prop := {
  lf_log : log rf' = log rf;
  lf_snap : lastSnapshotIndex rf' = lastSnapshotIndex rf;
  lf_saved : raftstate (persister rf') = raftstate (persister rf)
    ∨ ∃ rfp : Raft C, raftstate (persister rf') = Some (getPersistData rfp)
        ∧ log rfp = log rf ∧ lastSnapshotIndex rfp = lastSnapshotIndex rf
        ∧ currentTerm rfp = currentTerm rf' ∧ commitIndex rfp = commitIndex rf';
  lf_snapshot : snapshot (persister rf') = snapshot (persister rf)
}.

Lemma log_frame_same rf rf' :
  log rf' = log rf → lastSnapshotIndex rf' = lastSnapshotIndex rf → persister rf' = persister rf →
  log_frame rf rf'.
Proof. intros ? ? Hp. constructor; rewrite ?Hp; auto. Qed.

Lemma log_frame_persist rf rf' : log_frame rf rf' → log_frame rf (persist rf').
Proof. intros [Hl Hs _ Hsn]. constructor; auto. right. by exists rf'. Qed.

Lemma LeaderCommit_log_frame rf rf' :
  log rf' = log rf → lastSnapshotIndex rf' = lastSnapshotIndex rf → persister rf' = persister rf →
  log_frame rf (LeaderCommit rf').
Proof.
  unfold LeaderCommit. generalize (seqZ (commitIndex rf' + 1)
    (len (log rf') + lastSnapshotIndex rf' - (commitIndex rf' + 1) + 1)) as js.
  intros js. revert rf'. induction js as [|j js IH]; intros rf' ? ? ?; [by apply log_frame_same|].
  simpl. apply IH; unfold LeaderCommit_step; by destruct (reaches_majority _ _ _ _).
Qed.

Lemma AE_result_log_frame index args reply rf rf' next :
  AE_result index args reply rf = Some (rf', next) → log_frame rf rf'.
Proof.
  unfold AE_result. rewrite Z.gtb_ltb.
  destruct (Z.ltb_spec (currentTerm rf) (aer_Term reply)); simpl.
  { intros ?; simplify_eq. apply log_frame_persist. by apply log_frame_same. }
  destruct (_ || _); [intros ?; simplify_eq; by apply log_frame_same|].
  destruct (Success reply).
  { intros Hr. simplify_option_eq. match goal with |- context [if ?b then _ else _] => destruct b end;
      [by apply LeaderCommit_log_frame|by apply log_frame_same]. }
  destruct (_ =? -1); [intros ?; simplify_eq; by apply log_frame_same|].
  intros Hr. simplify_option_eq. by apply log_frame_same.
Qed.

Lemma InstallSnapshot_log_frame args rf rf' reply :
  lastSnapshotIndex rf = 0 → LastIncludeIndex args = 0 →
  InstallSnapshot args rf = Some (rf', reply) → log_frame rf rf'.
Proof.
  intros Hs Ha. unfold InstallSnapshot. rewrite !Z.gtb_ltb, Ha.
  destruct (Z.ltb_spec (is_Term args) (currentTerm rf)); [intros [= <- _]; by apply log_frame_same|].
  destruct (Z.ltb_spec (currentTerm rf) (is_Term args)); cbn.
  - rewrite Z.geb_leb, Hs. cbn. intros [= <- _]. apply log_frame_persist. by apply log_frame_same.
  - rewrite Z.geb_leb, Hs. cbn. intros [= <- _]. by apply log_frame_same.
Qed.

Lemma InstallSnapshotToPeers_log_frame index r rf rf' :
  InstallSnapshotToPeers_result index r rf = Some rf' → log_frame rf rf'.
Proof.
  unfold InstallSnapshotToPeers_result. destruct r as [r| |]; [|intros Hr|intros [= <-]].
  - intros Hr. destruct (slice_set (nextIndex rf) _ _) as [nx|]; cbn in Hr; [|done].
    destruct (slice_set (matchIndex rf) _ _) as [mt|]; cbn in Hr; [|done].
    destruct (_ >? _); simplify_eq; by apply log_frame_same.
  - destruct (_ >? _); cbn in Hr; simplify_eq; by apply log_frame_same.
  - by apply log_frame_same.
Qed.

Lemma AE_prepare_log_frame index rf rf' args :
  AE_prepare index rf = Some (rf', args) → log_frame rf rf'.
Proof. unfold AE_prepare, resetAETimer. intros. run_option; by apply log_frame_same. Qed.

Lemma Election_begin_log_frame rf rf' args :
  Election_begin rf = Some (rf', args) → log_frame rf rf'.
Proof.
  unfold Election_begin. destruct (bool_decide _); [intros [= <- _]; by apply log_frame_same|].
  destruct (changeRole CANDIDATE _) as [rf1|] eqn:Hc; [|done]. cbn [mbind option_bind].
  destruct (lastLogTermIndex (persist rf1)) as [[]|]; [|done]. cbn [mbind option_bind].
  intros [= <- _]. unfold changeRole in Hc. simplify_eq. apply log_frame_persist.
  by apply log_frame_same.
Qed.

Lemma quiet_log_frame rf rf' : lastSnapshotIndex rf = 0 → quiet_step rf rf' → log_frame rf rf'.
Proof.
  intros Hs. destruct 1 as [?? Hr|????? Hr|??? Ha Hr|??? Hr|msg|? Hr|? Hr].
  - by eapply AE_prepare_log_frame.
  - by eapply AE_result_log_frame.
  - by eapply InstallSnapshot_log_frame.
  - by eapply InstallSnapshotToPeers_log_frame.
  - unfold Apply_deliver. case_bool_decide; by apply log_frame_same.
  - by eapply Election_begin_log_frame.
  - unfold Kill in Hr. case_match; simplify_eq. by apply log_frame_same.
Qed.

Lemma quiet_local rf rf' : quiet_step rf rf' → local_step rf rf'.
Proof.
  destruct 1 as [?? Hr|????? Hr|??? Ha Hr|??? Hr|msg|? Hr|? Hr].
  - exact (local_AE_prepare _ _ _ _ Hr).
  - exact (local_AE_result _ _ _ _ _ _ Hr).
  - exact (local_InstallSnapshot _ _ _ _ Hr).
  - exact (local_InstallSnapshotToPeers _ _ _ _ Hr).
  - exact (local_Apply_deliver _ msg).
  - exact (local_Election_leader _ _ Hr).
  - exact (local_Kill _ _ Hr).
Qed.

Lemma changeRole_log_frame r rf rf' : changeRole r rf = Some rf' → log_frame rf rf'.
Proof.
  unfold changeRole. destruct r; [|intros [= <-]; by apply log_frame_same..].
  destruct (lastLogTermIndex _) as [[lt li]|]; cbn [mbind option_bind]; [|done].
  destruct (make_slice _ _) as [nx|]; cbn [mbind option_bind]; [|done].
  destruct (fill_nextIndex _ _ _ _); cbn [mbind option_bind]; [|done].
  destruct (slice_set _ _ _); cbn [mbind option_bind]; [|done].
  intros [= <-]. by apply log_frame_same.
Qed.

Lemma RequestVote_log_frame args rf rf' reply :
  RequestVote args rv_reply0 rf = Some (rf', reply) → log_frame rf rf'.
Proof.
  unfold RequestVote. destruct (lastLogTermIndex rf) as [[lt li]|]; cbn [mbind option_bind]; [|done].
  assert (∀ rf1 p, log rf1 = log rf → lastSnapshotIndex rf1 = lastSnapshotIndex rf →
    persister rf1 = persister rf → Some (persist rf1, p) = Some (rf', reply) → log_frame rf rf') as Hd.
  { intros rf1 p ? ? ? [= <- _]. apply log_frame_persist. by apply log_frame_same. }
  destruct (rv_Term args <? currentTerm rf); [by apply Hd|].
  destruct (rv_Term args >? currentTerm rf); cbn.
  { destruct (candidate_up_to_date _ _ _); cbn; by apply Hd. }
  destruct (_ =? CandidateId args); cbn; [by apply Hd|].
  destruct (voteFor rf =? -1); cbn; [|by apply Hd].
  destruct (candidate_up_to_date _ _ _); cbn; by apply Hd.
Qed.

Lemma SendRequest_reply_log_frame args r rf ss rf' ss' :
  SendRequest_reply args r (rf, ss) = Some (rf', ss') → log_frame rf rf'.
Proof.
  unfold SendRequest_reply. destruct r as [reply|]; [|intros [= <- _]; by apply log_frame_same].
  destruct (rvr_Term reply >? rv_Term args); [destruct (rvr_Term reply >? currentTerm rf)|
    destruct (VoteGranted reply)]; cbn; intros [= <- _]; by apply log_frame_same.
Qed.

Lemma SendRequest_finish_log_frame rf ss rf' k :
  SendRequest_finish (rf, ss) = (rf', k) → log_frame rf rf'.
Proof.
  unfold SendRequest_finish. destruct (another ss); intros [= <- _];
    [apply log_frame_persist|]; by apply log_frame_same.
Qed.

Lemma Election_end_log_frame args k rf rf' :
  Election_end args k rf = Some rf' → log_frame rf rf'.
Proof.
  unfold Election_end. destruct (_ && _).
  - destruct (changeRole LEADER rf) as [rf1|] eqn:Hc; [|done].
    apply changeRole_log_frame, log_frame_persist in Hc. cbn [mbind option_bind].
    destruct (bool_decide _); intros [= <-]; [|done]. by destruct Hc.
  - cbn [mbind option_bind]. destruct (bool_decide _); intros [= <-]; by apply log_frame_same.
Qed.

(** The peer an election step moves keeps its log; it can only become leader of a term
    in which it was a candidate. *)
Lemma election_step_peer cs cs' i rf :
  election_step n cs cs' → servers cs !! i = Some rf →
  ∃ rf', servers cs' !! i = Some rf' ∧ log_frame rf rf'.
Proof.
  intros Hstep Hi.
  assert (∀ j rfj rfj', servers cs !! j = Some rfj → log_frame rfj rfj' →
    ∃ rf', <[j := rfj']> (servers cs) !! i = Some rf' ∧ log_frame rf rf') as Hone.
  { intros j rfj rfj' Hj Hf. destruct (decide (i = j)) as [->|Hne].
    - exists rfj'. rewrite lookup_insert_eq. split; [done|]. by simplify_eq.
    - exists rf. rewrite lookup_insert_ne by done. split; [done|by apply log_frame_same]. }
  destruct Hstep as [j k rfj rfj' args Hs Hk Hb|k e j rfj rfj' reply He Hj Hs Hr
    |k e j m rfj rfj' reply ss' He Hj -> Hs Hr|k e j rfj rfj' count He -> Hs Hf
    |k e j count rfj rfj' He Hc -> Hs Hend]; simpl; (eapply Hone; [exact Hs|]).
  - by eapply Election_begin_log_frame.
  - by eapply RequestVote_log_frame.
  - by eapply SendRequest_reply_log_frame.
  - by eapply SendRequest_finish_log_frame.
  - by eapply Election_end_log_frame.
Qed.

(** ** How roles change *)

(** A peer becomes a candidate only in a new term, and a leader only of the term it was a
    candidate in. *)
Record role_step rf rf' : Prop := {
  rs_candidate : state rf' = CANDIDATE →
    state rf = CANDIDATE ∧ currentTerm rf' = currentTerm rf ∨ currentTerm rf < currentTerm rf';
  rs_leader : state rf' = LEADER →
    (state rf = LEADER ∨ state rf = CANDIDATE) ∧ currentTerm rf' = currentTerm rf
}.

Lemma vote_frame_role rf rf' : vote_frame rf rf' → role_step rf rf'.
Proof.
  intros [_ _ Ht _]. constructor; intros Hs;
    destruct Ht as [(-> & _ & [Hst|Hst])|[? Hst]]; rewrite Hst in Hs; naive_solver.
Qed.

Lemma role_step_refl rf : role_step rf rf.
Proof. constructor; auto. Qed.

Lemma election_step_role cs cs' i rf rf' :
  election_step n cs cs' → servers cs !! i = Some rf → servers cs' !! i = Some rf' →
  role_step rf rf'.
Proof.
  intros Hstep Hi Hi'.
  assert (∀ j rfj rfj', servers cs !! j = Some rfj → role_step rfj rfj' →
    <[j := rfj']> (servers cs) !! i = Some rf' → role_step rf rf') as Hone.
  { intros j rfj rfj' Hj Hr. destruct (decide (i = j)) as [->|Hne].
    - rewrite lookup_insert_eq. intros. by simplify_eq.
    - rewrite lookup_insert_ne by done. intros. simplify_eq. apply role_step_refl. }
  destruct Hstep as [j k rfj rfj' args Hs Hk Hb|k e j rfj rfj' reply He Hj Hs Hr
    |k e j m rfj rfj' reply ss' He Hj -> Hs Hr|k e j rfj rfj' count He -> Hs Hf
    |k e j count rfj rfj' He Hc -> Hs Hend]; simpl in Hi'; (eapply Hone; [exact Hs| |exact Hi']).
  - apply Election_begin_candidate in Hb as (Ht & _ & Hst & _).
    constructor; rewrite Hst; [intros _; right; lia|done].
  - destruct (VoteGranted reply) eqn:Hg.
    + apply RequestVote_granted in Hr as (_ & _ & _ & Hst & _); [|done]. constructor; by rewrite Hst.
    + apply vote_frame_role. by eapply RequestVote_refused.
  - apply SendRequest_reply_frame in Hr as [Hf _]. by apply vote_frame_role.
  - apply SendRequest_finish_frame in Hf as [Hf _]. by apply vote_frame_role.
  - apply Election_end_cases in Hend as [Hf|(Hc1 & Ht & _ & _ & _ & Hl & Ht' & _)];
      [by apply vote_frame_role|]. constructor; rewrite Hl; [done|auto].
Qed.

(** ** Logs and leader logs *)

Lemma matches_grow L L' l : logs_grow L L' → matches L l → matches L' l.
Proof.
  intros Hg Hm j e Hj He. destruct (Hm j e Hj He) as (lt & Hlt & Hp).
  destruct (Hg _ _ Hlt) as (lt' & Hlt' & Hpp). exists lt'. split; [done|by etrans].
Qed.

Lemma matches_prefix L l l' : l' `prefix_of` l → matches L l → matches L l'.
Proof.
  intros [k ->] Hm j e Hj He. pose proof He as Hlen%lookup_lt_Some.
  destruct (Hm j e Hj) as (lt & Hlt & Hp); [by apply lookup_app_l_Some|].
  exists lt. split; [done|]. by rewrite take_app_le in Hp by lia.
Qed.

Lemma matches_snoc L l e :
  matches L l → L !! Term e = Some (l ++ [e]) → matches L (l ++ [e]).
Proof.
  intros Hm He j e' Hj Hl. apply lookup_snoc_Some in Hl as [[Hlt Hl]|[-> <-]].
  - destruct (Hm j e' Hj Hl) as (lt & Hlt' & Hp). exists lt. split; [done|].
    by rewrite take_app_le by lia.
  - exists (l ++ [e]). split; [done|]. by rewrite take_ge by (rewrite length_app; simpl; lia).
Qed.

(** Two logs that match at an index agree up to it. *)
Lemma matches_agree L l l' k e e' :
  matches L l → matches L l' → l !! 0%nat = l' !! 0%nat →
  l !! k = Some e → l' !! k = Some e' → Term e = Term e' → take (S k) l = take (S k) l'.
Proof.
  intros Hm Hm' Hz He He' Ht. destruct k as [|k].
  { destruct l, l'; simplify_eq/=; by rewrite ?take_0. }
  destruct (Hm (S k) e) as (lt & Hlt & [x Hx]); [lia|done|].
  destruct (Hm' (S k) e') as (lt' & Hlt' & [y Hy]); [lia|done|].
  rewrite Ht, Hlt' in Hlt. injection Hlt as ->. rewrite Hx in Hy.
  apply app_inj_1 in Hy as [? _]; [done|].
  apply lookup_lt_Some in He, He'. rewrite !length_take. lia.
Qed.

Lemma sent_ok_grow L L' args : logs_grow L L' → sent_ok L args → sent_ok L' args.
Proof.
  intros Hg (lt & p & q & Hlt & Hp & Ht & He). destruct (Hg _ _ Hlt) as (lt' & Hlt' & [k ->]).
  assert (p < length lt)%nat as Hlen.
  { destruct (lt !! p) eqn:Hl; [by eapply lookup_lt_Some|done]. }
  exists (lt ++ k), p, (length (take q (drop (S p) lt))). split_and!; [done|done| |].
  - by rewrite lookup_app_l.
  - rewrite drop_app_le by lia. rewrite take_app_le by (rewrite length_take; lia).
    rewrite He. rewrite length_take. destruct (decide (q ≤ length (drop (S p) lt)))%nat.
    + by rewrite Nat.min_l.
    + rewrite Nat.min_r by lia. rewrite !take_ge by lia. done.
Qed.

Lemma note_leader_other rf' L : state rf' ≠ LEADER → note_leader rf' L = L.
Proof. intros. unfold note_leader. by rewrite bool_decide_eq_false_2. Qed.

Lemma note_leader_lookup rf' L t l :
  note_leader rf' L !! t = Some l →
  L !! t = Some l ∨ state rf' = LEADER ∧ t = currentTerm rf' ∧ l = log rf'.
Proof.
  unfold note_leader. case_bool_decide; [|auto]. rewrite lookup_insert_Some. naive_solver.
Qed.

(** ** Steps keep the invariant *)

Section move.
Hypothesis Hn : 0 < n.
Context (s : LogCluster C) (cs' : Cluster C) (i : Z) (rf rf' : Raft C).
Hypothesis Hinv : log_inv s.
Hypothesis Hstep : cluster_step n (lc_cluster s) cs'.
Hypothesis Hi : servers (lc_cluster s) !! i = Some rf.
Hypothesis Hservers : servers cs' = <[i := rf']> (servers (lc_cluster s)).
Hypothesis Hrole : role_step rf rf'.

Abbreviation L := (lc_leader_logs s).
Abbreviation L' := (note_leader rf' (lc_leader_logs s)).

Lemma move_cluster : cluster_inv n cs' ∧ votes (lc_cluster s) ⊆ votes cs'.
Proof. by apply (step_inv n (lc_cluster s)); [|apply Hinv|]. Qed.

Lemma move_self : servers cs' !! i = Some rf'.
Proof. rewrite Hservers. apply lookup_insert_eq. Qed.

(** If the peer now leads a recorded term, it led it before. *)
Lemma move_leader_old l :
  state rf' = LEADER → L !! currentTerm rf' = Some l → l = log rf ∧ state rf = LEADER.
Proof.
  intros Hl HL. destruct move_cluster as [Hinv' Hsub].
  destruct (li_leaders s Hinv _ _ HL) as (_ & _ & j & Hq & _ & Hnc).
  destruct (ci_servers n cs' Hinv' i rf' move_self) as [_ Hsi].
  assert (j = i) as ->
    by (eapply (quorum_unique n); [done|exact Hsub|exact Hq|by apply (si_leader _ _ _ _ Hsi)]).
  destruct (rs_leader _ _ Hrole Hl) as [[Hs|Hs] Ht]; [|by destruct (Hnc rf Hi)].
  split; [|done]. pose proof (pl_leader _ _ (li_peers s Hinv i rf Hi) Hs). congruence.
Qed.

Lemma move_grow :
  (state rf' = LEADER → log rf `prefix_of` log rf') → logs_grow L L'.
Proof.
  intros Hpre t l Hl. unfold note_leader. case_bool_decide as Hs; [|by exists l].
  destruct (decide (t = currentTerm rf')) as [->|Hne].
  - exists (log rf'). rewrite lookup_insert_eq. split; [done|].
    destruct (move_leader_old l Hs Hl) as [-> _]. by apply Hpre.
  - exists l. by rewrite lookup_insert_ne.
Qed.

Lemma move_led_by t : led_by (lc_cluster s) t → led_by cs' t.
Proof.
  intros (j & (Q & HQ & Hsz & Hv) & Hself & Hnc). destruct move_cluster as [_ Hsub]. exists j.
  split_and!.
  - exists Q. split_and!; [done|done|]. intros v Hv'. eapply lookup_weaken; [by apply Hv|done].
  - by eapply lookup_weaken.
  - intros rfj. rewrite Hservers. destruct (decide (i = j)) as [<-|Hne].
    + rewrite lookup_insert_eq. intros [= <-] Ht Hc.
      destruct (rs_candidate _ _ Hrole Hc) as [[Hc' Ht']|Hlt].
      * destruct (Hnc rf Hi); [congruence|done].
      * destruct (ci_servers _ _ (li_cluster s Hinv) i rf Hi) as [_ Hsi].
        apply (si_vote _ _ _ _ Hsi) in Hself. lia.
    + rewrite lookup_insert_ne by done. apply Hnc.
Qed.

Lemma move_new_leader : state rf' = LEADER → led_by cs' (currentTerm rf').
Proof.
  intros Hl. destruct move_cluster as [Hinv' Hsub].
  destruct (ci_servers n cs' Hinv' i rf' move_self) as [_ Hsi].
  destruct (rs_leader _ _ Hrole Hl) as [[Hs|Hs] Ht].
  - destruct (li_leaders s Hinv (currentTerm rf') (log rf)) as (_ & _ & Hled).
    { rewrite Ht. by apply (pl_leader _ _ (li_peers s Hinv i rf Hi)). }
    by apply move_led_by.
  - exists i. split_and!; [by apply (si_leader _ _ _ _ Hsi)| |].
    + destruct (ci_servers _ _ (li_cluster s Hinv) i rf Hi) as [_ Hsi0].
      rewrite Ht. eapply lookup_weaken; [by apply (si_candidate _ _ _ _ Hsi0)|done].
    + intros rf2 Hrf2 _. rewrite move_self in Hrf2. injection Hrf2 as <-. congruence.
Qed.

Lemma log_inv_move sent' :
  lastSnapshotIndex rf' = 0 → log rf' !! 0%nat = Some entry0 → saved_log rf' →
  (state rf' = LEADER → log rf `prefix_of` log rf') →
  (logs_grow L L' → matches L' (log rf')) →
  (logs_grow L L' → ∀ args, args ∈ sent' → sent_ok L' args) →
  log_inv (MkLogCluster cs' sent' L') ∧ logs_grow L L'.
Proof.
  intros Hsnap Hhead Hsaved Hpre Hmatch Hsent.
  pose proof (move_grow Hpre) as Hg. destruct move_cluster as [Hinv' Hsub].
  specialize (Hmatch Hg). specialize (Hsent Hg). split; [|done].
  constructor; simpl; [done| | |done].
  - intros j rfj. rewrite Hservers. destruct (decide (i = j)) as [<-|Hne].
    + rewrite lookup_insert_eq. intros [= <-]. constructor; try done.
      intros Hl. unfold note_leader. rewrite bool_decide_eq_true_2 by done. apply lookup_insert_eq.
    + rewrite lookup_insert_ne by done. intros Hj. destruct (li_peers s Hinv j rfj Hj) as [P1 P2 P3 P4 P5].
      constructor; [done|done|done|by eapply matches_grow|]. intros Hl. specialize (P5 Hl).
      unfold note_leader. case_bool_decide as Hs; [|done].
      rewrite lookup_insert_ne; [done|]. intros Ht. apply Hne.
      destruct (ci_servers n cs' Hinv' i rf' move_self) as [_ Hsi].
      destruct (ci_servers _ _ (li_cluster s Hinv) j rfj Hj) as [_ Hsj].
      symmetry. eapply (quorum_unique n); [done|exact Hsub|by apply (si_leader _ _ _ _ Hsj)|].
      rewrite <-Ht. by apply (si_leader _ _ _ _ Hsi).
  - intros t l Hl. apply note_leader_lookup in Hl as [Hl|(Hs & -> & ->)].
    + destruct (li_leaders s Hinv t l Hl) as (? & ? & ?).
      split_and!; [done|by eapply matches_grow|by apply move_led_by].
    + split_and!; [done|done|by apply move_new_leader].
Qed.

(** A step that leaves the log alone. *)
Lemma log_inv_frame sent' :
  log_frame rf rf' →
  (logs_grow L L' → ∀ args, args ∈ sent' → sent_ok L' args) →
  log_inv (MkLogCluster cs' sent' L') ∧ logs_grow L L'.
Proof.
  intros [Hl Hs Hd _] Hsent. destruct (li_peers s Hinv i rf Hi) as [P1 P2 P3 P4 P5].
  apply log_inv_move; [congruence|congruence| |by rewrite Hl| |done].
  - unfold saved_log in *. destruct Hd as [->|(rfp & -> & Hp1 & Hp2 & _)]; [by rewrite Hl|].
    exists rfp. split_and!; congruence.
  - intros Hg. rewrite Hl. by eapply matches_grow.
Qed.

Lemma old_sent_ok : logs_grow L L' → ∀ args, args ∈ lc_sent s → sent_ok L' args.
Proof. intros Hg args Ha. eapply sent_ok_grow; [done|]. by apply (li_sent s Hinv). Qed.

End move.

Lemma log_step_cluster s s' : log_step s s' → cluster_step n (lc_cluster s) (lc_cluster s').
Proof.
  destruct 1 as [i rf rf' Hi Hq|i index rf rf' args Hi Hp|i args rf rf' reply' Hi Ha Hr
    |i c rf rf' r Hi Hr|cs' i rf rf' He Hi Hs|i rf rf' Hi Hm]; simpl.
  - apply step_local with rf; [done|by apply quiet_local].
  - apply step_local with rf; [done|exact (local_AE_prepare _ _ _ _ Hp)].
  - apply step_local with rf; [done|exact (local_AppendEntries _ _ _ _ Hr)].
  - apply step_local with rf; [done|exact (local_Start _ _ _ _ Hr)].
  - by apply step_election.
  - by apply step_crash with rf.
Qed.

(** The entries of a request put after the entries that match its previous index are the
    start of the sender's log. *)
Lemma splice_leader_log L args rf :
  peer_log L rf → sent_ok L args →
  (∀ t l, L !! t = Some l → l !! 0%nat = Some entry0 ∧ matches L l) →
  PrevLogIndex args ≤ lastIndex rf →
  (PrevLogIndex args = lastSnapshotIndex rf ∨ Term <$> log_at rf (PrevLogIndex args) = Some (PrevLogTerm args)) →
  ∃ lt, L !! ae_Term args = Some lt
    ∧ spliced_log args rf = take (S (Z.to_nat (PrevLogIndex args) + length (Entries args))) lt.
Proof.
  intros [Hsnap Hhead _ Hm _] (lt & p & q & Hlt & Hp & Hpt & He) HL Hrange Hprev.
  exists lt. split; [done|]. destruct (HL _ _ Hlt) as [Hl0 Hml].
  unfold spliced_log. rewrite Hp, Hsnap, Nat2Z.id. replace (Z.to_nat (Z.of_nat p - 0 + 1)) with (S p) by lia.
  assert (take (S p) (log rf) = take (S p) lt) as Hbase.
  { destruct (lt !! p) as [e'|] eqn:He'; [|done]. simpl in Hpt.
    destruct (log rf !! p) as [e|] eqn:Hep.
    2: { apply lookup_ge_None in Hep. unfold lastIndex in Hrange. lia. }
    destruct p as [|p]; [destruct (log rf), lt; simplify_eq/=; by rewrite ?take_0|].
    eapply matches_agree; [exact Hm|exact Hml|congruence|exact Hep|exact He'|].
    destruct Hprev as [Hprev|Hprev]; [lia|]. unfold log_at in Hprev. rewrite Hp, Hsnap in Hprev.
    assert ((log rf).[Z.of_nat (S p) - 0] = Some e) as Hget.
    { apply slice_get_Some. split; [lia|].
      by replace (Z.to_nat (Z.of_nat (S p) - 0)) with (S p) by lia. }
    rewrite Hget in Hprev. simpl in Hprev. congruence. }
  rewrite Hbase, He. replace (S (p + _)) with (S p + length (take q (drop (S p) lt)))%nat by lia.
  rewrite <-take_take_drop, length_take. f_equal. destruct (decide (q ≤ length (drop (S p) lt)))%nat.
  - by rewrite Nat.min_l.
  - rewrite Nat.min_r by lia. by rewrite !take_ge by lia.
Qed.

(** The log [AppendEntries] leaves: the old one, or the start of the sender's. *)
Lemma AppendEntries_log L args rf rf' reply' :
  peer_log L rf → sent_ok L args →
  (∀ t l, L !! t = Some l → l !! 0%nat = Some entry0 ∧ matches L l) →
  AppendEntries args ae_reply0 rf = Some (rf', reply') →
  state rf' ≠ LEADER ∧ (log rf' = log rf ∨ ∃ lt, L !! ae_Term args = Some lt ∧ log rf' `prefix_of` lt)
    ∧ log rf' !! 0%nat = Some entry0
  ∨ rf' = rf.
Proof.
  intros Hpeer Hsent HL Hr. pose proof (pl_head _ _ Hpeer) as Hhead.
  apply AppendEntries_cases in Hr as [(_ & -> & _)|(_ & _ & l & ci & k1 & k2 & -> & Hc)];
    [by right| |done].
  left. split; [done|]. simpl.
  destruct Hc as [(_ & -> & _)|(_ & -> & [_ Hrange] & Hprev & _)]; [by auto|].
  destruct (splice_leader_log L args rf Hpeer Hsent HL Hrange Hprev) as (lt & Hlt & ->).
  split; [right; exists lt; split; [done|apply prefix_take]|].
  destruct (HL _ _ Hlt) as [Hl0 _]. by rewrite lookup_take_lt by lia.
Qed.

Lemma AppendEntries_saved args rf rf' reply' :
  AppendEntries args ae_reply0 rf = Some (rf', reply') →
  rf' = rf ∨ (raftstate (persister rf') = Some (getPersistData rf')
    ∧ lastSnapshotIndex rf' = lastSnapshotIndex rf ∧ snapshot (persister rf') = snapshot (persister rf)).
Proof.
  intros Hr. apply AppendEntries_cases in Hr as [(_ & -> & _)|Hr]; [by left| |done].
  destruct Hr as (_ & _ & l & ci & k1 & k2 & -> & _). by right.
Qed.

Lemma Start_log c rf rf' r :
  log rf ≠ [] → Start c rf = Some (rf', r) →
  rf' = rf ∧ state rf ≠ LEADER
  ∨ state rf = LEADER ∧ state rf' = LEADER ∧ currentTerm rf' = currentTerm rf
    ∧ log rf' = log rf ++ [MkLog (ICmd c) (currentTerm rf)]
    ∧ lastSnapshotIndex rf' = lastSnapshotIndex rf
    ∧ ∃ rfp : Raft C, raftstate (persister rf') = Some (getPersistData rfp)
        ∧ log rfp = log rf' ∧ lastSnapshotIndex rfp = lastSnapshotIndex rf'
        ∧ currentTerm rfp = currentTerm rf ∧ commitIndex rfp = commitIndex rf.
Proof.
  intros Hne. unfold Start. rewrite lastLogTermIndex_spec by done. cbn [mbind option_bind].
  case_bool_decide as Hl; [|intros [= <- _]; by left]. simpl.
  destruct (slice_set (nextIndex rf) _ _) as [nx|]; simpl; [|done].
  destruct (slice_set (matchIndex rf) _ _) as [mt|]; simpl; [|done].
  intros [= <- _]. right. simpl. split_and!; try done. by eexists.
Qed.

Lemma Make_log i rf rf' :
  saved_log rf → Make n i (persister rf) = Some rf' →
  log rf' = log rf ∧ lastSnapshotIndex rf' = 0 ∧ state rf' = FOLLOWER
  ∧ persister rf' = persister rf.
Proof.
  unfold saved_log, Make, ReadRaftState. destruct (make_slice n 0); cbn [mbind option_bind]; [|done].
  destruct (raftstate (persister rf)) as [bs|].
  - intros (rfp & -> & Hl & Hs). rewrite readPersist_getPersistData. cbn [mbind option_bind].
    intros [= <-]. simpl. by rewrite Hl, Hs.
  - intros ->. cbn. by intros [= <-].
Qed.

Lemma log_step_inv s s' :
  0 < n → log_inv s → log_step s s' →
  log_inv s' ∧ logs_grow (lc_leader_logs s) (lc_leader_logs s').
Proof.
  intros Hn Hinv Hstep. pose proof (log_step_cluster s s' Hstep) as Hc.
  destruct Hstep as [i rf rf' Hi Hq|i index rf rf' args Hi Hp|i args rf rf' reply' Hi Ha Hr
    |i c rf rf' r Hi Hr|cs' i rf rf' He Hi Hs|i rf rf' Hi Hm]; simpl in Hc;
    pose proof (li_peers s Hinv i rf Hi) as Hpeer; pose proof Hpeer as [P1 P2 P3 P4 P5].
  - apply (log_inv_frame Hn s _ i rf); try done; [|by apply quiet_log_frame|by apply old_sent_ok].
    by apply vote_frame_role, local_step_frame, quiet_local.
  - apply (log_inv_frame Hn s _ i rf); try done;
      [by eapply vote_frame_role, AE_prepare_frame|by eapply AE_prepare_log_frame|].
    intros Hg a [->|Ha]%elem_of_cons; [|by eapply old_sent_ok].
    apply AE_prepare_describes in Hp as (Hl & _ & _ & Ht & _ & Hrange & Hpt & He).
    apply (sent_ok_grow _ _ _ Hg). specialize (P5 Hl).
    unfold log_at in Hpt. rewrite P1 in Hpt, Hrange, He. rewrite Z.sub_0_r in Hpt, He.
    exists (log rf), (Z.to_nat (PrevLogIndex args)), (length (log rf)). split_and!.
    + by rewrite Ht.
    + lia.
    + unfold slice_get in Hpt. by rewrite (proj2 (Z.leb_le _ _)) in Hpt by lia.
    + rewrite He, take_ge by (rewrite length_drop; lia). f_equal. lia.
  - assert (role_step rf rf') as Hrole by (eapply vote_frame_role, AppendEntries_frame; exact Hr).
    destruct (AppendEntries_log (lc_leader_logs s) args rf rf' reply' Hpeer) as [Hap|Hap]; [..|done| |].
    { by apply (li_sent s Hinv). }
    { intros t l Hl. by destruct (li_leaders s Hinv t l Hl) as (? & ? & _). }
    2: { subst rf'. apply (log_inv_frame Hn s _ i rf); try done;
      [by apply log_frame_same|by apply old_sent_ok]. }
    destruct Hap as (Hnl & Hlog & Hhead).
    destruct (AppendEntries_saved _ _ _ _ Hr) as [->|(Hsv & Hsn & _)].
    { apply (log_inv_frame Hn s _ i rf); try done; [by apply log_frame_same|by apply old_sent_ok]. }
    apply (log_inv_move Hn s _ i rf); try done; [congruence| | |by apply old_sent_ok].
    + unfold saved_log. rewrite Hsv. exists rf'. split_and!; [done|done|congruence].
    + intros Hg. apply (matches_grow _ _ _ Hg). destruct Hlog as [->|(lt & Hlt & Hpre)]; [done|].
      apply (matches_prefix _ lt); [done|]. by destruct (li_leaders s Hinv _ _ Hlt) as (_ & ? & _).
  - assert (log rf ≠ []) as Hne by (intros He; by rewrite He in P2).
    assert (role_step rf rf') as Hrole by (eapply vote_frame_role, Start_frame; exact Hr).
    apply Start_log in Hr as [[-> Hnl]|(Hl & Hl' & Ht & Hlog & Hsn & rfp & Hsv & Hp1 & Hp2 & _)]; [| |done].
    { apply (log_inv_frame Hn s _ i rf); try done; [by apply log_frame_same|by apply old_sent_ok]. }
    apply (log_inv_move Hn s _ i rf); try done; [congruence| | | | |by apply old_sent_ok].
    + rewrite Hlog, lookup_app_l; [done|]. by eapply lookup_lt_Some.
    + unfold saved_log. rewrite Hsv. exists rfp. split_and!; [done|done|congruence].
    + intros _. rewrite Hlog. by eexists.
    + intros Hg. rewrite Hlog. apply matches_snoc; [by eapply matches_grow|].
      unfold note_leader. rewrite bool_decide_eq_true_2 by done. simpl.
      rewrite <-Ht, lookup_insert_eq, Hlog. by rewrite Ht.
  - destruct (election_step_peer _ _ _ _ He Hi) as (rf2 & Hi2 & Hf).
    assert (rf2 = rf') as -> by (rewrite Hs, lookup_insert_eq in Hi2; congruence).
    apply (log_inv_frame Hn s _ i rf); try done; [by eapply election_step_role|by apply old_sent_ok].
  - destruct (Make_log i rf rf' P3 Hm) as (Hl & Hsn & Hst & Hp).
    apply (log_inv_frame Hn s _ i rf); try done; [|split; [done|congruence|by left; rewrite Hp|by rewrite Hp]|
      by apply old_sent_ok].
    constructor; rewrite Hst; done.
Qed.

Lemma log_init_inv cs : 0 < n → cluster_init n cs → log_inv (MkLogCluster cs [] ∅).
Proof.
  intros Hn Hinit. constructor; simpl; [by apply init_inv| |intros t l; by rewrite lookup_empty|
    intros args Ha; by apply elem_of_nil in Ha].
  intros i rf Hi. destruct Hinit as (_ & _ & _ & Hmk). specialize (Hmk i rf Hi).
  unfold Make in Hmk. simpl in Hmk. destruct (make_slice n 0); simplify_eq/=.
  constructor; try done. intros [|j] e Hj He; [lia|done].
Qed.

Lemma log_steps_inv s s' :
  0 < n → log_inv s → rtc log_step s s' →
  log_inv s' ∧ logs_grow (lc_leader_logs s) (lc_leader_logs s').
Proof.
  intros Hn Hinv. induction 1 as [s|s s1 s2 Hstep _ IH]; [split; [done|by intros t l ?; exists l]|].
  destruct (log_step_inv _ _ Hn Hinv Hstep) as [Hinv1 Hg1]. destruct (IH Hinv1) as [Hinv2 Hg2].
  split; [done|]. intros t l Hl. destruct (Hg1 t l Hl) as (l1 & Hl1 & Hp1).
  destruct (Hg2 t l1 Hl1) as (l2 & Hl2 & Hp2). exists l2. split; [done|by etrans].
Qed.

Lemma log_reachable_inv s : 0 < n → log_reachable s → log_inv s.
Proof. intros Hn (cs & Hi & Hr). eapply log_steps_inv; [done| |exact Hr]. by apply log_init_inv. Qed.

(** ** Properties *)

(** C6. Log matching: if the logs of two peers, at one moment or at two moments of an
    execution, have an entry of the same term at the same index, they are the same up to
    that index, whatever messages were lost, repeated or reordered and whichever peers
    crashed and restarted; provided that no peer compacts its log. *)
Theorem log_matching_property s s' i j rfi rfj k e e' :
  0 < n → log_reachable s → rtc log_step s s' →
  servers (lc_cluster s) !! i = Some rfi → servers (lc_cluster s') !! j = Some rfj →
  log rfi !! k = Some e → log rfj !! k = Some e' → Term e = Term e' →
  take (S k) (log rfi) = take (S k) (log rfj).
Proof.
  intros Hn Hr Hsteps Hi Hj He He' Ht. pose proof (log_reachable_inv s Hn Hr) as Hinv.
  destruct (log_steps_inv s s' Hn Hinv Hsteps) as [Hinv' Hg].
  destruct (li_peers s Hinv i rfi Hi) as [_ Hhi _ Hmi _].
  destruct (li_peers s' Hinv' j rfj Hj) as [_ Hhj _ Hmj _].
  eapply (matches_agree (lc_leader_logs s')); [by eapply matches_grow|exact Hmj|congruence|done..].
Qed.

(** C7. Leaders only append, as long as no peer compacts its log ([log_step] has no
    snapshots): between two moments at which a term has a leader, however far apart and
    even if it crashed in between, the leader is the same peer and its earlier log is a
    prefix of its later one; and every peer's entries of a term are the leader's. *)
Theorem leader_append_only s s' i j rfi rfj :
  0 < n → log_reachable s → rtc log_step s s' →
  servers (lc_cluster s) !! i = Some rfi → servers (lc_cluster s') !! j = Some rfj →
  state rfi = LEADER → state rfj = LEADER → currentTerm rfi = currentTerm rfj →
  i = j ∧ log rfi `prefix_of` log rfj
  ∧ ∀ m rfm k e, servers (lc_cluster s') !! m = Some rfm → log rfm !! k = Some e →
      Term e = currentTerm rfj → (0 < k)%nat → log rfj !! k = Some e.
Proof.
  intros Hn Hr Hsteps Hi Hj Hli Hlj Ht. pose proof (log_reachable_inv s Hn Hr) as Hinv.
  destruct (log_steps_inv s s' Hn Hinv Hsteps) as [Hinv' Hg].
  pose proof (pl_leader _ _ (li_peers s Hinv i rfi Hi) Hli) as HLi.
  pose proof (pl_leader _ _ (li_peers s' Hinv' j rfj Hj) Hlj) as HLj.
  destruct (Hg _ _ HLi) as (l' & Hl' & Hp). rewrite Ht, HLj in Hl'. injection Hl' as <-.
  split_and!; [|done|].
  - 
    destruct (ci_servers _ _ (li_cluster s Hinv) i rfi Hi) as [_ Hsi].
    destruct (ci_servers _ _ (li_cluster s' Hinv') j rfj Hj) as [_ Hsj].
    assert (votes (lc_cluster s) ⊆ votes (lc_cluster s')) as Hsub.
    { clear -Hn Hinv Hsteps. apply (steps_inv n); [done|apply Hinv|].
      induction Hsteps as [|x y z Hxy Hyz IH]; [done|]. econstructor; [by apply log_step_cluster|].
      apply IH. by eapply log_step_inv. }
    eapply (quorum_unique n); [done|exact Hsub|by apply (si_leader _ _ _ _ Hsi)|].
    rewrite Ht. by apply (si_leader _ _ _ _ Hsj).
  - intros m rfm k e Hm Hk Hte Hk0.
    destruct (pl_matches _ _ (li_peers s' Hinv' m rfm Hm) k e Hk0 Hk) as (lt & Hlt & [x Hx]).
    rewrite Hte, HLj in Hlt. injection Hlt as <-. rewrite Hx.
    rewrite lookup_app_l by (rewrite length_take; apply lookup_lt_Some in Hk; lia).
    by rewrite lookup_take_lt by lia.
Qed.

End log_matching.

(** ** Witness: the leader of [ClusterDemo] starts a command and replicates it to peer 1. *)
Module LogDemo.
Import RaftDemo.
Import ClusterDemo.

Definition ledger : gmap Z (list (Log Z)) := note_leader rf5 ∅.
Definition l5 : LogCluster Z := MkLogCluster s5 [] ledger.
Definition rf6 : Raft Z := default dummy (fst <$> Start 7 rf5).
Definition l6 : LogCluster Z := MkLogCluster (set_server 0 rf6 s5) [] (note_leader rf6 ledger).
Definition rf7 : Raft Z := default dummy (fst <$> AE_prepare 1 rf6).
Definition ae : AppendEntriesArgs Z := MkAEArgs 1 0 0 0 [entry 7 1] 0.
Definition l7 : LogCluster Z :=
  MkLogCluster (set_server 0 rf7 (lc_cluster l6)) [ae] (note_leader rf7 (lc_leader_logs l6)).
Definition rf8 : Raft Z := default dummy (fst <$> AppendEntries ae ae_reply0 rf1).
Definition l8 : LogCluster Z :=
  MkLogCluster (set_server 1 rf8 (lc_cluster l7)) [ae] (note_leader rf8 (lc_leader_logs l7)).

Lemma l5_reachable : log_reachable 3 l5.
Proof.
  exists s0. split; [exact s0_init|].
  apply (rtc_l _ _ (MkLogCluster s1 [] ∅)).
  { eapply (log_election 3 (MkLogCluster s0 [] ∅) s1 0 (boot 3 0) rf0); [|vm_compute; reflexivity|reflexivity].
    apply (step_election_begin 3 s0 0 0%nat (boot 3 0) rf0 args); vm_compute; reflexivity. }
  apply (rtc_l _ _ (MkLogCluster s2 [] ∅)).
  { eapply (log_election 3 (MkLogCluster s1 [] ∅) s2 1 (boot 3 1) rf1); [|vm_compute; reflexivity|reflexivity].
    apply (step_request_vote 3 s1 0%nat run 1 (boot 3 1) rf1 reply); [..|vm_compute; reflexivity];
      [vm_compute; reflexivity| |vm_compute; reflexivity].
    apply (bool_decide_unpack _). vm_compute. exact I. }
  apply (rtc_l _ _ (MkLogCluster s3 [] ∅)).
  { eapply (log_election 3 (MkLogCluster s2 [] ∅) s3 0 rf0 rf0); [|vm_compute; reflexivity|reflexivity].
    apply (step_reply 3 s2 0%nat run2 0 1 rf0 rf0 reply (MkSend 1 false)); vm_compute; reflexivity. }
  apply (rtc_l _ _ (MkLogCluster s4 [] ∅)).
  { eapply (log_election 3 (MkLogCluster s3 [] ∅) s4 0 rf0 rf0); [|vm_compute; reflexivity|reflexivity].
    apply (step_finish 3 s3 0%nat run3 0 rf0 rf0 1); vm_compute; reflexivity. }
  apply (rtc_l _ _ l5); [|apply rtc_refl].
  eapply (log_election 3 (MkLogCluster s4 [] ∅) s5 0 rf0 rf5); [|vm_compute; reflexivity|reflexivity].
  apply (step_election_end 3 s4 0%nat run4 0 1 rf0 rf5); vm_compute; reflexivity.
Qed.

Lemma l8_steps : rtc (log_step 3) l5 l8.
Proof.
  apply (rtc_l _ _ l6).
  { apply (log_start 3 l5 0 7 rf5 rf6 (1, 1, true)); vm_compute; reflexivity. }
  apply (rtc_l _ _ l7).
  { apply (log_send 3 l6 0 1 rf6 rf7 ae); vm_compute; reflexivity. }
  apply (rtc_l _ _ l8); [|apply rtc_refl].
  apply (log_append 3 l7 1 ae rf1 rf8 (MkAEReply true 0 (-1) (-1) (-1) 0));
    [vm_compute; reflexivity|apply list_elem_of_here|vm_compute; reflexivity].
Qed.

Lemma l8_reachable : log_reachable 3 l8.
Proof. destruct l5_reachable as (cs & Hi & Hr). exists cs. split; [done|]. etrans; [exact Hr|exact l8_steps]. Qed.
End LogDemo.

Import RaftDemo.

Lemma log_matching_property_witness :
  take 2 (log LogDemo.rf7) = take 2 (log LogDemo.rf8) ∧ length (log LogDemo.rf8) = 2%nat.
Proof.
  split; [|vm_compute; reflexivity].
  apply (log_matching_property 3 LogDemo.l8 LogDemo.l8 0 1 LogDemo.rf7 LogDemo.rf8 1
    (RaftDemo.entry 7 1) (RaftDemo.entry 7 1) ltac:(reflexivity) LogDemo.l8_reachable (rtc_refl _ _));
    vm_compute; reflexivity.
Defined.

Lemma leader_append_only_witness :
  log ClusterDemo.rf5 `prefix_of` log LogDemo.rf7 ∧ length (log LogDemo.rf7) = 2%nat.
Proof.
  split; [|vm_compute; reflexivity].
  apply (leader_append_only 3 LogDemo.l5 LogDemo.l8 0 0 ClusterDemo.rf5 LogDemo.rf7
    ltac:(reflexivity) LogDemo.l5_reachable LogDemo.l8_steps); vm_compute; reflexivity.
Defined.
