(* ===== verification/RaftRun.v ===== *)
(** * Raft: executions that can be evaluated

    An executable part of the cluster of [RaftLog], in which requests and replies of
    [AppendEntries] are paired as the RPCs pair them, and an execution of it in which two
    peers deliver different commands at the same index. *)
From S2P Require Import Prelude RaftState RaftVote RaftSnapshot RaftReplicate RaftApply RaftCluster RaftLog.

(** Peer [i] sends to [index], its last request is delivered, it handles the reply. *)
Inductive RaftAction (C : Type) :=
  | XBegin (i : Z) (k : nat)
  | XVote (k : nat) (j : Z)
  | XReply (k : nat) (j : Z)
  | XFinish (k : nat)
  | XEnd (k : nat)
  | XStart (i : Z) (c : C)
  | XSend (i index : Z)
  | XDeliver (i index : Z)
  | XResult (i index : Z)
  | XCrash (i : Z).
Arguments XBegin {C}. Arguments XVote {C}. Arguments XReply {C}. Arguments XFinish {C}.
Arguments XEnd {C}. Arguments XStart {C}. Arguments XSend {C}. Arguments XDeliver {C}. Arguments XResult {C}.
Arguments XCrash {C}.

(** The requests and the replies on their way, by sender and receiver. *)
Record RaftExec (C : Type) := MkExec {
  ex_log : LogCluster C;
  ex_requests : gmap (Z * Z) (AppendEntriesArgs C);
  ex_replies : gmap (Z * Z) (AppendEntriesArgs C * AppendEntriesReply)
}.
Arguments MkExec {C}. Arguments ex_log {C}. Arguments ex_requests {C}. Arguments ex_replies {C}.

#[export] Instance AppendEntriesArgs_eq_dec {C} `{EqDecision C} : EqDecision (AppendEntriesArgs C).
Proof. solve_decision. Defined.

Section run.
Context {C : Type} `{EqDecision C, GoRand, GobCodec (RaftVal C)}.
Variable n : Z.
Implicit Types (rf : Raft C) (cs : Cluster C) (s : LogCluster C) (x : RaftExec C).

Definition peer_of x (i : Z) : option (Raft C) := servers (lc_cluster (ex_log x)) !! i.

(** An election step that leaves peer [i] as [rf']. *)
Definition elected x rf' cs' : RaftExec C :=
  MkExec (MkLogCluster cs' (lc_sent (ex_log x)) (note_leader rf' (lc_leader_logs (ex_log x)))) (ex_requests x) (ex_replies x).

(** A step of peer [i] alone, after which [sent] are the requests ever sent. *)
Definition moved x (i : Z) rf' (sent : list (AppendEntriesArgs C)) : LogCluster C :=
  MkLogCluster (set_server i rf' (lc_cluster (ex_log x))) sent (note_leader rf' (lc_leader_logs (ex_log x))).

Definition raft_do (a : RaftAction C) x : option (RaftExec C) :=
  let cs := lc_cluster (ex_log x) in
  let sent := lc_sent (ex_log x) in
  match a with
  | XBegin i k =>
      rf ← peer_of x i;
      match elections cs !! k, Election_begin rf with
      | None, Some (rf', Some args) =>
          Some (elected x rf' (cs <| servers := <[i := rf']> (servers cs) |>
            <| elections := <[k := MkRun args (server_ids n ∖ {[i]}) ∅ (MkSend 0 false) None ∅]> (elections cs) |>
            <| votes := <[(i, rv_Term args) := i]> (votes cs) |>))
      | _, _ => None
      end
  | XVote k j =>
      e ← elections cs !! k; rf ← peer_of x j;
      if decide (j ∈ el_pending e) then
        '(rf', reply) ← RequestVote (el_args e) rv_reply0 rf;
        Some (elected x rf' (cs <| servers := <[j := rf']> (servers cs) |>
          <| elections := <[k := e <| el_pending := el_pending e ∖ {[j]} |>
               <| el_inflight := <[j := reply]> (el_inflight e) |>]> (elections cs) |>
          <| votes := if VoteGranted reply
               then <[(j, rv_Term (el_args e)) := CandidateId (el_args e)]> (votes cs)
               else votes cs |>))
      else None
  | XReply k j =>
      e ← elections cs !! k; reply ← el_inflight e !! j; rf ← peer_of x (CandidateId (el_args e));
      '(rf', ss') ← SendRequest_reply (el_args e) (Some reply) (rf, el_send e);
      Some (elected x rf' (cs <| servers := <[CandidateId (el_args e) := rf']> (servers cs) |>
        <| elections := <[k := e <| el_inflight := delete j (el_inflight e) |> <| el_send := ss' |>
             <| el_counted := if res ss' =? res (el_send e) then el_counted e else {[j]} ∪ el_counted e |>]> (elections cs) |>))
  | XFinish k =>
      e ← elections cs !! k; rf ← peer_of x (CandidateId (el_args e));
      let '(rf', count) := SendRequest_finish (rf, el_send e) in
      Some (elected x rf' (cs <| servers := <[CandidateId (el_args e) := rf']> (servers cs) |>
        <| elections := <[k := e <| el_count := Some count |>]> (elections cs) |>))
  | XEnd k =>
      e ← elections cs !! k; count ← el_count e; rf ← peer_of x (CandidateId (el_args e));
      rf' ← Election_end (el_args e) count rf;
      Some (elected x rf' (cs <| servers := <[CandidateId (el_args e) := rf']> (servers cs) |>))
  | XStart i c =>
      rf ← peer_of x i; '(rf', _) ← Start c rf;
      Some (MkExec (moved x i rf' sent) (ex_requests x) (ex_replies x))
  | XSend i index =>
      rf ← peer_of x i;
      match AE_prepare index rf with
      | Some (rf', Some args) => Some (MkExec (moved x i rf' (args :: sent)) (<[(i, index) := args]> (ex_requests x)) (ex_replies x))
      | _ => None
      end
  | XDeliver i index =>
      rf ← peer_of x index; args ← ex_requests x !! (i, index);
      if decide (args ∈ sent) then
        '(rf', reply) ← AppendEntries args ae_reply0 rf;
        Some (MkExec (moved x index rf' sent) (ex_requests x) (<[(i, index) := (args, reply)]> (ex_replies x)))
      else None
  | XResult i index =>
      rf ← peer_of x i; '(args, reply) ← ex_replies x !! (i, index);
      '(rf', _) ← AE_result index args reply rf;
      Some (MkExec (moved x i rf' sent) (ex_requests x) (delete (i, index) (ex_replies x)))
  | XCrash i =>
      rf ← peer_of x i; rf' ← Make n i (persister rf);
      Some (MkExec (moved x i rf' sent) (ex_requests x) (ex_replies x))
  end.

#[local] Arguments SendRequest_reply : simpl never.
#[local] Arguments SendRequest_finish : simpl never.
#[local] Arguments Election_end : simpl never.

Lemma raft_do_step a x x' : raft_do a x = Some x' → log_step n (ex_log x) (ex_log x').
Proof.
  destruct a as [i k|k j|k j|k|k|i c|i index|i index|i index|i]; simpl; unfold peer_of; intros Hd.
  - destruct (servers _ !! i) as [rf|] eqn:Hi; simplify_eq/=. destruct (elections _ !! k) eqn:Hk; [done|].
    destruct (Election_begin rf) as [[rf' [args|]]|] eqn:Hb; simplify_eq/=.
    by eapply (log_election n (ex_log x) _ i rf rf'); [eapply step_election_begin|..].
  - destruct (elections _ !! k) as [e|] eqn:Hk; simplify_eq/=. destruct (servers _ !! j) as [rf|] eqn:Hi; simplify_eq/=.
    case_decide; [|done]. destruct (RequestVote _ _ _) as [[rf' reply]|] eqn:Hv; simplify_eq/=.
    by eapply (log_election n (ex_log x) _ j rf rf'); [eapply step_request_vote|..].
  - destruct (elections _ !! k) as [e|] eqn:Hk; simplify_eq/=. destruct (el_inflight e !! j) as [reply|] eqn:Hj; simplify_eq/=.
    destruct (servers _ !! _) as [rf|] eqn:Hi; simplify_eq/=.
    destruct (SendRequest_reply _ _ _) as [[rf' ss']|] eqn:Hv; simplify_eq/=.
    by eapply (log_election n (ex_log x) _ _ rf rf'); [eapply step_reply|..].
  - destruct (elections _ !! k) as [e|] eqn:Hk; simplify_eq/=. destruct (servers _ !! _) as [rf|] eqn:Hi; [|done].
    injection Hd as <-. apply (log_election n (ex_log x) _ (CandidateId (el_args e)) rf (SendRequest_finish (rf, el_send e)).1);
      [|done|done]. by eapply (step_finish n _ k e _ rf).
  - destruct (elections _ !! k) as [e|] eqn:Hk; simplify_eq/=. destruct (el_count e) as [count|] eqn:Hc; simplify_eq/=.
    destruct (servers _ !! _) as [rf|] eqn:Hi; simplify_eq/=. destruct (Election_end _ _ _) as [rf'|] eqn:Hv; simplify_eq/=.
    by eapply (log_election n (ex_log x) _ _ rf rf'); [eapply step_election_end|..].
  - destruct (servers _ !! i) as [rf|] eqn:Hi; simplify_eq/=. destruct (Start c rf) as [[rf' r]|] eqn:Hs; simplify_eq/=.
    by eapply log_start.
  - destruct (servers _ !! i) as [rf|] eqn:Hi; simplify_eq/=. destruct (AE_prepare index rf) as [[rf' [args|]]|] eqn:Hs; simplify_eq/=.
    by eapply log_send.
  - destruct (servers _ !! index) as [rf|] eqn:Hi; simplify_eq/=. destruct (ex_requests x !! _) as [args|]; simplify_eq/=.
    case_decide; [|done]. destruct (AppendEntries _ _ _) as [[rf' reply]|] eqn:Hs; simplify_eq/=. by eapply log_append.
  - destruct (servers _ !! i) as [rf|] eqn:Hi; simplify_eq/=. destruct (ex_replies x !! _) as [[args reply]|]; simplify_eq/=.
    destruct (AE_result _ _ _ _) as [[rf' next]|] eqn:Hs; simplify_eq/=. by eapply log_quiet, quiet_AE_result.
  - destruct (servers _ !! i) as [rf|] eqn:Hi; simplify_eq/=. destruct (Make n i (persister rf)) as [rf'|] eqn:Hm; simplify_eq/=.
    by eapply log_crash.
Qed.

Definition raft_exec (acts : list (RaftAction C)) x : option (RaftExec C) := foldl (λ acc a, x ← acc; raft_do a x) (Some x) acts.

Lemma raft_exec_steps acts x x' : raft_exec acts x = Some x' → rtc (log_step n) (ex_log x) (ex_log x').
Proof.
  revert x'. induction acts as [|a acts IH] using rev_ind; intros x'; [by intros [= <-]|].
  unfold raft_exec. rewrite foldl_app. simpl. change (foldl _ (Some x) acts) with (raft_exec acts x).
  destruct (raft_exec acts x) as [x1|] eqn:He; simpl; [|done]. intros Ha.
  eapply rtc_r; [by apply IH|by eapply raft_do_step].
Qed.
End run.

(** ** Five peers *)
Module RaftRunDemo.
Export ZeroRand CountableCodec.

Definition cluster0 : Cluster Z :=
  MkCluster (list_to_map ((λ i, (i, RaftDemo.boot 5 i)) <$> seqZ 0 5)) ∅ ∅.
Definition exec0 : RaftExec Z := MkExec (MkLogCluster cluster0 [] ∅) ∅ ∅.

Lemma cluster0_init : cluster_init 5 cluster0.
Proof.
  split; [vm_compute; reflexivity|]. split_and!; [done|done|]. intros i rf Hi.
  unfold cluster0 in Hi. cbn [servers] in Hi. apply elem_of_list_to_map_2 in Hi.
  apply list_elem_of_fmap in Hi as (j & [= -> ->] & Hj). apply elem_of_seqZ in Hj.
  assert (j = 0 ∨ j = 1 ∨ j = 2 ∨ j = 3 ∨ j = 4) as Hc by lia.
  destruct Hc as [-> |[-> |[-> |[-> | ->]]]]; vm_compute; reflexivity.
Qed.

(** Election [k] of peer [i], whose votes come from [js]. *)
Definition elect (i : Z) (k : nat) (js : list Z) : list (RaftAction Z) :=
  XBegin i k :: (XVote k <$> js) ++ (XReply k <$> js) ++ [XFinish k; XEnd k].

(** One round trip of [AppendEntries]. *)
Definition trip (i index : Z) : list (RaftAction Z) := [XSend i index; XDeliver i index; XResult i index].

(** Peer 0 logs a command alone.  Peer 1 logs two alone, restarts and is elected again; from
    peer 0 it learns only that its log is shorter, it brings peer 2 up to date and commits.
    Peers 3 and 4, which hold nothing, elect peer 0, and it commits its own. *)
Definition diverge : list (RaftAction Z) :=
  elect 0 0 [1; 2] ++ [XStart 0 10]
  ++ elect 1 1 [2; 3] ++ [XStart 1 20; XStart 1 21; XCrash 1]
  ++ elect 1 2 [2; 3] ++ [XStart 1 22] ++ trip 1 0 ++ trip 1 2 ++ trip 1 2
  ++ elect 0 3 [3; 4] ++ [XStart 0 11] ++ trip 0 3 ++ trip 0 3 ++ trip 0 4 ++ trip 0 4.

(** Peer 0 leads term 1 and sends to peer 4.  In term 2 it votes for peer 1; peer 2 is elected
    by peers 3 and 4 and commits a command with peers 0 and 3. *)
Definition stale_vote_commit : list (RaftAction Z) :=
  elect 0 0 [1; 2] ++ [XSend 0 4; XBegin 1 1; XVote 1 0] ++ elect 2 2 [3; 4]
  ++ [XStart 2 20] ++ trip 2 0 ++ trip 2 3.

(** Peer 1 asks for votes in term 3; peer 4 grants its vote and refuses peer 0's request of
    term 1, and peer 0 learns of term 3 from that. *)
Definition stale_vote_elect : list (RaftAction Z) :=
  [XBegin 1 3; XVote 3 4; XDeliver 0 4; XResult 0 4; XVote 3 0; XReply 3 4; XReply 3 0; XFinish 3; XEnd 3]
  ++ [XStart 1 30] ++ trip 1 0 ++ trip 1 4.
End RaftRunDemo.

Import RaftRunDemo.

(** What two peers deliver in an execution from the start. *)
Lemma exec_delivers acts i j mi mj :
  (λ x, (snd <$> (peer_of x i ≫= Apply), snd <$> (peer_of x j ≫= Apply))) <$> raft_exec 5 acts exec0 = Some (Some mi, Some mj) →
  ∃ x rfi rfj rfi' rfj', raft_exec 5 acts exec0 = Some x ∧ log_reachable 5 (ex_log x)
    ∧ peer_of x i = Some rfi ∧ Apply rfi = Some (rfi', mi) ∧ peer_of x j = Some rfj ∧ Apply rfj = Some (rfj', mj).
Proof.
  intros Ha. destruct (raft_exec 5 acts exec0) as [x|] eqn:Hx; [|done].
  assert (log_reachable 5 (ex_log x)) as Hr by (exists cluster0; split; [exact cluster0_init|by apply (raft_exec_steps 5 acts exec0)]).
  injection Ha as Hi Hj. destruct (peer_of x i) as [rfi|] eqn:Hpi; [|done]. destruct (peer_of x j) as [rfj|] eqn:Hpj; [|done].
  simpl in Hi, Hj. destruct (Apply rfi) as [[rfi' mi']|] eqn:Hai; [|done]. destruct (Apply rfj) as [[rfj' mj']|] eqn:Haj; [|done].
  simplify_eq/=. by exists x, rfi, rfj, rfi', rfj'.
Qed.

(** C17. Committed logs can diverge: in an execution of five peers in which every reply is
    that of the request it answers, peer 0 delivers one command at index 1 to its service
    and peer 1 another.  Peer 1 counted peer 0 among the peers that hold its first entry
    when all it had learnt is how long peer 0's log is ([AE_result_unverified_match]). *)
Theorem committed_logs_diverge :
  ∃ x rf0 rf1 rf0' rf1' msgs,
    raft_exec 5 diverge exec0 = Some x ∧ log_reachable 5 (ex_log x)
    ∧ peer_of x 0 = Some rf0 ∧ Apply rf0 = Some (rf0', MkApplyMsg true (ICmd 10) 1 :: msgs)
    ∧ peer_of x 1 = Some rf1 ∧ Apply rf1 = Some (rf1', [MkApplyMsg true (ICmd 20) 1]).
Proof.
  destruct (exec_delivers diverge 0 1 [MkApplyMsg true (ICmd 10) 1; MkApplyMsg true (ICmd 11) 2] [MkApplyMsg true (ICmd 20) 1])
    as (x & rf0 & rf1 & rf0' & rf1' & Hx & Hr & H0 & Ha0 & H1 & Ha1); [vm_compute; reflexivity|].
  exists x, rf0, rf1, rf0', rf1', [MkApplyMsg true (ICmd 11) 2].
  exact (conj Hx (conj Hr (conj H0 (conj Ha0 (conj H1 Ha1))))).
Qed.

(** C18. A vote of an older term can elect a leader that lacks a committed entry: in an
    execution of five peers, peer 2 commits an entry of its own term that peers 0, 2 and 3
    hold, and peer 1, which does not have it, is elected after and commits another command at
    the same index.  Peer 0 learnt of the new term from the reply to an old request of its
    own, kept its vote of the term before, for peer 1, and so grants it again without
    comparing logs. *)
Theorem stale_vote_diverges :
  ∃ x1 x rf2 rf1 rf2' rf1',
    raft_exec 5 stale_vote_commit exec0 = Some x1
    ∧ ((λ i, log <$> peer_of x1 i) <$> [0; 2; 3]) = replicate 3 (Some [entry0; MkLog (ICmd 20) 2])
    ∧ ((λ rf, (state rf, currentTerm rf, commitIndex rf)) <$> peer_of x1 2) = Some (LEADER, 2, 1)
    ∧ raft_exec 5 (stale_vote_commit ++ stale_vote_elect) exec0 = Some x ∧ log_reachable 5 (ex_log x)
    ∧ peer_of x 2 = Some rf2 ∧ Apply rf2 = Some (rf2', [MkApplyMsg true (ICmd 20) 1])
    ∧ peer_of x 1 = Some rf1 ∧ Apply rf1 = Some (rf1', [MkApplyMsg true (ICmd 30) 1]).
Proof.
  assert ((λ x, ((λ i, log <$> peer_of x i) <$> [0; 2; 3], (λ rf, (state rf, currentTerm rf, commitIndex rf)) <$> peer_of x 2))
    <$> raft_exec 5 stale_vote_commit exec0
    = Some (replicate 3 (Some [entry0; MkLog (ICmd 20) 2]), Some (LEADER, 2, 1))) as H1 by (vm_compute; reflexivity).
  destruct (raft_exec 5 stale_vote_commit exec0) as [x1|]; [|discriminate H1]. apply (inj Some), pair_equal_spec in H1 as [Hl Hs].
  destruct (exec_delivers (stale_vote_commit ++ stale_vote_elect) 2 1 [MkApplyMsg true (ICmd 20) 1] [MkApplyMsg true (ICmd 30) 1])
    as (x & rf2 & rf1 & rf2' & rf1' & Hx & Hr & Hp2 & Ha2 & Hp1 & Ha1); [vm_compute; reflexivity|].
  exists x1, x, rf2, rf1, rf2', rf1'.
  exact (conj eq_refl (conj Hl (conj Hs (conj Hx (conj Hr (conj Hp2 (conj Ha2 (conj Hp1 Ha1)))))))).
Qed.
