(* ===== verification/RaftSafe.v ===== *)
(** * Raft: what is committed stays committed

    The cluster of [RaftLog] with the successful answers to [AppendEntries] recorded, and
    the state machine safety of the executions in which a leader moves its commit index
    only to an entry of its own term and counts a peer as holding it only after that peer
    has answered so, and in which a vote compares logs.  [RaftRun] shows that the code's
    peers do not always do so; these files show that nothing else can make two peers
    deliver different commands. *)
From S2P Require Import Prelude RaftState RaftVote RaftSnapshot RaftReplicate RaftApply RaftCluster RaftLog.

(** [acks] is a history variable: peer, term and index of every successful answer, and of
    every entry a leader put in its own log.  The peer then held the leader's log of that
    term up to that index. *)
Record AckCluster (C : Type) := MkAck {
  ac_log : LogCluster C;
  acks : gset (Z * Z * nat)
}.
Arguments MkAck {C}. Arguments ac_log {C}. Arguments acks {C}.

Section safety.
Context {C : Type} `{EqDecision C, GoRand, GobCodec (RaftVal C)}.
Variable n : Z.
Implicit Types (rf : Raft C) (cs : Cluster C) (s : AckCluster C) (A : gset (Z * Z * nat)).
Implicit Types (L : gmap Z (list (Log C))) (l : list (Log C)) (V : gmap (Z * Z) (list (Log C))).

(** Peer [j] answered that it holds the log of term [t] up to index [k]. *)
Definition acked A (j t : Z) (k : nat) : Prop := ∃ k', (k ≤ k')%nat ∧ (j, t, k') ∈ A.

(** The commit index of leader [rf] is at an entry of its term, and every peer it counts
    for it has answered that it holds it. *)
Definition commit_confirmed A rf : Prop :=
  Term <$> log rf !! Z.to_nat (commitIndex rf) = Some (currentTerm rf)
  ∧ ∀ j m, (matchIndex rf).[j] = Some m → commitIndex rf ≤ m →
      acked A j (currentTerm rf) (Z.to_nat (commitIndex rf)).

(** Peer [i] has moved. *)
Definition peer_moved (i : Z) rf' (sent : list (AppendEntriesArgs C)) s : LogCluster C :=
  MkLogCluster (set_server i rf' (lc_cluster (ac_log s))) sent (note_leader rf' (lc_leader_logs (ac_log s))).

Definition peer_at s (i : Z) : option (Raft C) := servers (lc_cluster (ac_log s)) !! i.

(** A peer that casts a vote in a term without a leader has compared the candidate's log
    with its own. *)
Definition votes_compared s cs' : Prop :=
  ∀ k e j rf, elections (lc_cluster (ac_log s)) !! k = Some e → peer_at s j = Some rf →
    votes (lc_cluster (ac_log s)) !! (j, rv_Term (el_args e)) = None →
    votes cs' !! (j, rv_Term (el_args e)) = Some (CandidateId (el_args e)) →
    lc_leader_logs (ac_log s) !! rv_Term (el_args e) = None →
    candidate_up_to_date (el_args e) (lastTerm rf) (lastIndex rf) = true.

Inductive ack_step s : AckCluster C → Prop :=
  | ack_quiet i rf rf' :
      peer_at s i = Some rf → quiet_step rf rf' → commitIndex rf' = commitIndex rf →
      ack_step s (MkAck (peer_moved i rf' (lc_sent (ac_log s)) s) (acks s))
  | ack_commit i index args reply rf rf' next :
      peer_at s i = Some rf → AE_result index args reply rf = Some (rf', next) →
      commit_confirmed (acks s) rf' →
      ack_step s (MkAck (peer_moved i rf' (lc_sent (ac_log s)) s) (acks s))
  | ack_send i index rf rf' args :
      peer_at s i = Some rf → AE_prepare index rf = Some (rf', Some args) →
      ack_step s (MkAck (peer_moved i rf' (args :: lc_sent (ac_log s)) s) (acks s))
  | ack_append i args rf rf' reply' :
      peer_at s i = Some rf → args ∈ lc_sent (ac_log s) →
      AppendEntries args ae_reply0 rf = Some (rf', reply') →
      ack_step s (MkAck (peer_moved i rf' (lc_sent (ac_log s)) s)
        (if Success reply'
         then {[(i, ae_Term args, Z.to_nat (PrevLogIndex args) + length (Entries args))%nat]} ∪ acks s
         else acks s))
  | ack_start i c rf rf' index term isLeader :
      peer_at s i = Some rf → Start c rf = Some (rf', (index, term, isLeader)) →
      ack_step s (MkAck (peer_moved i rf' (lc_sent (ac_log s)) s)
        (if isLeader : bool then {[(i, term, Z.to_nat index)]} ∪ acks s else acks s))
  | ack_election cs' i rf rf' :
      election_step n (lc_cluster (ac_log s)) cs' → votes_compared s cs' → peer_at s i = Some rf →
      servers cs' = <[i := rf']> (servers (lc_cluster (ac_log s))) →
      ack_step s (MkAck (MkLogCluster cs' (lc_sent (ac_log s)) (note_leader rf' (lc_leader_logs (ac_log s))))
        (acks s))
  | ack_crash i rf rf' :
      peer_at s i = Some rf → Make n i (persister rf) = Some rf' →
      ack_step s (MkAck (peer_moved i rf' (lc_sent (ac_log s)) s) (acks s)).

Definition ack_reachable s : Prop :=
  ∃ cs, cluster_init n cs ∧ rtc ack_step (MkAck (MkLogCluster cs [] ∅) ∅) s.

Lemma ack_step_log s s' : ack_step s s' → log_step n (ac_log s) (ac_log s').
Proof.
  destruct 1 as [i rf rf' Hi Hq _|i index args reply rf rf' next Hi Hr _|i index rf rf' args Hi Hr
    |i args rf rf' reply' Hi Ha Hr|i c rf rf' index term b Hi Hr|cs' i rf rf' He _ Hi Hs|i rf rf' Hi Hr]; simpl.
  - by eapply log_quiet.
  - by eapply log_quiet, quiet_AE_result.
  - by eapply log_send.
  - by eapply log_append.
  - by eapply log_start.
  - by eapply log_election.
  - by eapply log_crash.
Qed.

(** ** Leader logs and what is held of them *)

(** Entry [k] of the log of term [t]'s leader is of that term. *)
Definition own L (t : Z) (k : nat) : Prop :=
  ∃ lt e, L !! t = Some lt ∧ lt !! k = Some e ∧ Term e = t.

(** [l] has the log of term [t]'s leader up to index [k]. *)
Definition holds L (t : Z) (k : nat) l : Prop :=
  ∃ lt, L !! t = Some lt ∧ (k < length lt)%nat ∧ take (S k) lt `prefix_of` l.

(** A leader after term [t], up to [T], does not have it. *)
Definition lost L (t : Z) (k : nat) (T : Z) : Prop :=
  ∃ t' l', t < t' ≤ T ∧ L !! t' = Some l' ∧ ¬ holds L t k l'.

(** Index [k] is chosen in term [t]: an entry of the term that a majority has. *)
Definition chosen A L (t : Z) (k : nat) : Prop :=
  own L t k ∧ ∃ Q, Q ⊆ server_ids n ∧ n < 2 * Z.of_nat (size Q) ∧ ∀ j, j ∈ Q → acked A j t k.

(** [l] may be committed up to [c] by a peer in term [T]. *)
Definition commit_ok A L (T c : Z) l : Prop :=
  c ≤ 0 ∨ ∃ t k, chosen A L t k ∧ t ≤ T ∧ (Z.to_nat c ≤ k)%nat ∧ holds L t (Z.to_nat c) l.

(** Leaders append entries of their term only. *)
Definition grows L L' : Prop :=
  ∀ t l, L !! t = Some l → ∃ x, L' !! t = Some (l ++ x) ∧ Forall (λ e, Term e = t) x.

Definition sorted_terms l : Prop :=
  ∀ a b ea eb, (a ≤ b)%nat → l !! a = Some ea → l !! b = Some eb → Term ea ≤ Term eb.

Lemma acked_le A j t k k' : (k ≤ k')%nat → acked A j t k' → acked A j t k.
Proof. intros ? (m & ? & ?). exists m. split; [lia|done]. Qed.

Lemma acked_mono A A' j t k : A ⊆ A' → acked A j t k → acked A' j t k.
Proof. intros Hs (m & ? & ?). exists m. split; [done|by apply Hs]. Qed.

Lemma grows_refl L : grows L L.
Proof. intros t l Hl. exists []. by rewrite app_nil_r. Qed.

Lemma own_range L t k : own L t k → ∃ lt, L !! t = Some lt ∧ (k < length lt)%nat.
Proof. intros (lt & e & ? & He & _). exists lt. split; [done|by eapply lookup_lt_Some]. Qed.

Lemma grows_logs L L' : grows L L' → logs_grow L L'.
Proof. intros Hg t l Hl. destruct (Hg t l Hl) as (x & Hx & _). exists (l ++ x). split; [done|by eexists]. Qed.

Lemma own_grow L L' t k : logs_grow L L' → own L t k → own L' t k.
Proof.
  intros Hg (lt & e & Hlt & He & Ht). destruct (Hg _ _ Hlt) as (? & Hx & x & ->).
  exists (lt ++ x), e. split_and!; [done|by apply lookup_app_l_Some|done].
Qed.

Lemma own_shrink L L' t k lt :
  grows L L' → L !! t = Some lt → (k < length lt)%nat → own L' t k → own L t k.
Proof.
  intros Hg Hlt Hk (lt' & e & Hlt' & He & Ht). destruct (Hg _ _ Hlt) as (x & Hx & _).
  simplify_eq. exists lt, e. split_and!; [done|by rewrite lookup_app_l in He|done].
Qed.

Lemma holds_grow L L' t k l : logs_grow L L' → holds L t k l → holds L' t k l.
Proof.
  intros Hg (lt & Hlt & Hk & Hp). destruct (Hg _ _ Hlt) as (? & Hx & x & ->).
  exists (lt ++ x). split_and!; [done|rewrite length_app; lia|by rewrite take_app_le by lia].
Qed.

Lemma holds_shrink L L' t k l lt :
  grows L L' → L !! t = Some lt → (k < length lt)%nat → holds L' t k l → holds L t k l.
Proof.
  intros Hg Hlt Hk (lt' & Hlt' & _ & Hp). destruct (Hg _ _ Hlt) as (x & Hx & _).
  simplify_eq. exists lt. split_and!; [done|done|by rewrite take_app_le in Hp by lia].
Qed.

Lemma holds_prefix L t k l l' : l `prefix_of` l' → holds L t k l → holds L t k l'.
Proof. intros ? (lt & ? & ? & ?). exists lt. split_and!; [done|done|by etrans]. Qed.

Lemma holds_le L t k k' l : (k ≤ k')%nat → holds L t k' l → holds L t k l.
Proof.
  intros Hk (lt & Hlt & Hl & Hp). exists lt. split_and!; [done|lia|].
  etrans; [|exact Hp]. replace (take (S k) lt) with (take (S k) (take (S k') lt)) by (rewrite take_take; f_equal; lia).
  apply prefix_take.
Qed.

Lemma holds_length L t k l : holds L t k l → (k < length l)%nat.
Proof. intros (lt & _ & Hk & Hp%prefix_length). rewrite length_take in Hp. lia. Qed.

Lemma holds_lookup L t k l lt j :
  holds L t k l → L !! t = Some lt → (j ≤ k)%nat → l !! j = lt !! j.
Proof.
  intros (lt' & Hlt' & Hk & [x ->]) Hlt Hj. simplify_eq.
  rewrite lookup_app_l by (rewrite length_take; lia). by rewrite lookup_take_lt by lia.
Qed.

(** A log that starts like another up to [m] holds what the other holds up to [m]. *)
Lemma holds_take L t k l m : holds L t k l → (k < m)%nat → holds L t k (take m l).
Proof.
  intros (lt & Hlt & Hk & [x ->]) Hm. exists lt. split_and!; [done|done|].
  rewrite take_app_ge by (rewrite length_take; lia). by eexists.
Qed.

Lemma holds_own_log L t lt k : L !! t = Some lt → (k < length lt)%nat → holds L t k lt.
Proof. intros. exists lt. split_and!; [done|done|apply prefix_take]. Qed.

(** A later leader that lacks an entry never gets it: it appends only its own. *)
Lemma lacks_grow L L' t k t' l' l2 :
  grows L L' → own L t k → t ≠ t' → L !! t' = Some l' → L' !! t' = Some l2 →
  holds L' t k l2 → holds L t k l'.
Proof.
  intros Hg Hown Hne Hl' Hl2 Hh. destruct Hown as (lt & e & Hlt & He & Ht).
  pose proof (lookup_lt_Some _ _ _ He) as Hk.
  pose proof (holds_shrink _ _ _ _ _ _ Hg Hlt Hk Hh) as Hh'.
  destruct (Hg _ _ Hl') as (x & Hx & Hown). simplify_eq.
  pose proof (holds_lookup _ _ _ _ _ k Hh' Hlt ltac:(lia)) as Hek. rewrite He in Hek.
  destruct (decide (k < length l')%nat) as [Hlen|Hlen].
  - rewrite <-(take_app_length l' x). apply (holds_take _ _ _ _ (length l')); done.
  - rewrite lookup_app_r in Hek by lia. rewrite Forall_lookup in Hown. by apply Hown in Hek.
Qed.

Lemma lost_grow L L' t k T : grows L L' → own L t k → lost L t k T → lost L' t k T.
Proof.
  intros Hg Hown (t' & l' & Ht & Hl' & Hn). destruct (Hg _ _ Hl') as (x & Hx & _).
  exists t', (l' ++ x). split_and!; [lia|lia|done|]. intros Hh. apply Hn.
  eapply lacks_grow; [done|done| |done|exact Hx|done]. lia.
Qed.

Lemma lost_le L t k T T' : T ≤ T' → lost L t k T → lost L t k T'.
Proof. intros ? (t' & l' & ? & ? & ?). exists t', l'. split_and!; [lia|lia|done|done]. Qed.

Lemma chosen_grow A A' L L' t k : A ⊆ A' → logs_grow L L' → chosen A L t k → chosen A' L' t k.
Proof.
  intros HA Hg [Ho (Q & ? & ? & HQ)]. split; [by eapply own_grow|].
  exists Q. split_and!; [done|done|]. intros j Hj. eapply acked_mono; [done|by apply HQ].
Qed.

Lemma commit_ok_grow A A' L L' T T' c l :
  A ⊆ A' → logs_grow L L' → T ≤ T' → commit_ok A L T c l → commit_ok A' L' T' c l.
Proof.
  intros HA Hg HT [?|(t & k & Hc & Ht & Hk & Hh)]; [by left|right]. exists t, k.
  split_and!; [by eapply chosen_grow|lia|done|by eapply holds_grow].
Qed.

(** ** The invariant *)

Definition log_term l : Z := match list.last l with Some e => Term e | None => 0 end.

(** The comparison of [RequestVote] on whole logs. *)
Definition up_to_date lc l : Prop :=
  log_term l < log_term lc ∨ log_term l = log_term lc ∧ (length l ≤ length lc)%nat.

(** Peer [i]'s term, log and commit index. *)
Record peer_ok A L (i : Z) rf : Prop := {
  po_terms : Forall (λ e, Term e ≤ currentTerm rf) (log rf);
  po_acks : ∀ t k, acked A i t k →
    t ≤ currentTerm rf ∧ (own L t k → holds L t k (log rf) ∨ lost L t k (currentTerm rf));
  po_commit : commit_ok A L (currentTerm rf) (commitIndex rf) (log rf)
}.

(** [rfp] has what a restart of [rf] would find. *)
Definition restored rf (rfp : Raft C) : Prop :=
  match raftstate (persister rf) with
  | None => currentTerm rfp = 0 ∧ log rfp = [entry0] ∧ commitIndex rfp = 0
  | Some bs => bs = getPersistData rfp
  end.

Definition server_ok A L (i : Z) rf : Prop :=
  peer_ok A L i rf ∧ ∃ rfp, restored rf rfp ∧ peer_ok A L i rfp.

(** Peer [i] voted in term [t] with log [l], before the term had a leader: the candidate
    had log [lc] then, and what [i] had acknowledged before is in [l] or was lost. *)
Record vote_ok (vs : gmap (Z * Z) Z) A L V (i t : Z) l : Prop := {
  vo_matches : matches L l;
  vo_head : l !! 0%nat = Some entry0;
  vo_terms : ∀ k e, (0 < k)%nat → l !! k = Some e → Term e < t;
  vo_acks : ∀ t0 k, acked A i t0 k → t0 < t → own L t0 k → holds L t0 k l ∨ lost L t0 k (t - 1);
  vo_candidate : ∃ c lc, vs !! (i, t) = Some c ∧ V !! (c, t) = Some lc ∧ up_to_date lc l
}.

(** The leader of term [t] was elected by votes cast before the term had a leader. *)
Definition elected_ok (vs : gmap (Z * Z) Z) V (t : Z) l : Prop :=
  ∃ c lc Q, V !! (c, t) = Some lc ∧ lc `prefix_of` l ∧ Q ⊆ server_ids n
    ∧ n < 2 * Z.of_nat (size Q)
    ∧ ∀ j, j ∈ Q → vs !! (j, t) = Some c ∧ is_Some (V !! (j, t)).

(** The candidate of an election has voted for itself, and its request tells its log. *)
Definition run_logged L V (e : ElectionRun) : Prop :=
  (L !! rv_Term (el_args e) = None → is_Some (V !! (CandidateId (el_args e), rv_Term (el_args e))))
  ∧ ∀ lc, V !! (CandidateId (el_args e), rv_Term (el_args e)) = Some lc →
      LastLogIndex (el_args e) = len lc - 1 ∧ LastLogterm (el_args e) = log_term lc.

(** A request covers all of its sender's log that is not of the sender's own term. *)
Definition sent_covers L (args : AppendEntriesArgs C) : Prop :=
  ∀ lt k e, L !! ae_Term args = Some lt → lt !! k = Some e → Term e ≠ ae_Term args →
    (k ≤ Z.to_nat (PrevLogIndex args) + length (Entries args))%nat.

Record safe_inv s V : Prop := {
  sv_log : log_inv n (ac_log s);
  sv_leaders : ∀ t l, lc_leader_logs (ac_log s) !! t = Some l →
    sorted_terms l ∧ Forall (λ e, Term e ≤ t) l ∧ elected_ok (votes (lc_cluster (ac_log s))) V t l;
  sv_peers : ∀ i rf, peer_at s i = Some rf → server_ok (acks s) (lc_leader_logs (ac_log s)) i rf;
  sv_acks : ∀ i t k, (i, t, k) ∈ acks s →
    i ∈ server_ids n ∧ ∃ lt, lc_leader_logs (ac_log s) !! t = Some lt ∧ (k < length lt)%nat;
  sv_voted : ∀ i t c, votes (lc_cluster (ac_log s)) !! (i, t) = Some c →
    lc_leader_logs (ac_log s) !! t = None → is_Some (V !! (i, t));
  sv_votes : ∀ i t l, V !! (i, t) = Some l →
    vote_ok (votes (lc_cluster (ac_log s))) (acks s) (lc_leader_logs (ac_log s)) V i t l;
  sv_runs : ∀ k e, elections (lc_cluster (ac_log s)) !! k = Some e →
    run_logged (lc_leader_logs (ac_log s)) V e;
  sv_candidate : ∀ i rf lc, peer_at s i = Some rf → state rf = CANDIDATE →
    V !! (i, currentTerm rf) = Some lc → lc = log rf;
  sv_sent : ∀ args, args ∈ lc_sent (ac_log s) → sent_covers (lc_leader_logs (ac_log s)) args
    ∧ ∃ lt, lc_leader_logs (ac_log s) !! ae_Term args = Some lt
        ∧ commit_ok (acks s) (lc_leader_logs (ac_log s)) (ae_Term args) (ae_LeaderCommit args) lt
}.

(** ** Leader completeness *)

Lemma log_term_last l k e : l !! k = Some e → S k = length l → log_term l = Term e.
Proof. intros Hk Hl. unfold log_term. rewrite last_lookup, <-Hl. simpl. by rewrite Hk. Qed.

Lemma sorted_snoc l x t :
  sorted_terms l → Forall (λ e, Term e ≤ t) l → Forall (λ e, Term e = t) x → sorted_terms (l ++ x).
Proof.
  rewrite !Forall_lookup. intros Hs Hl Hx a b ea eb Hab Ha Hb.
  apply lookup_app_Some in Ha as [Ha|[? Ha]], Hb as [Hb|[? Hb]].
  - by eapply Hs.
  - apply Hl in Ha. apply Hx in Hb. lia.
  - apply lookup_lt_Some in Hb. lia.
  - apply Hx in Ha, Hb. lia.
Qed.

Lemma sorted_prefix l l' : l' `prefix_of` l → sorted_terms l → sorted_terms l'.
Proof. intros [x ->] Hs a b ea eb Hab Ha Hb. eapply Hs; [exact Hab|by apply lookup_app_l_Some..]. Qed.

(** A log that matches the leaders' is the start of the log of its last entry's leader. *)
Lemma matches_last L l :
  matches L l → (1 < length l)%nat → ∃ lt, L !! log_term l = Some lt ∧ l `prefix_of` lt.
Proof.
  intros Hm Hl. destruct (lookup_lt_is_Some_2 l (length l - 1)) as [e He]; [lia|].
  destruct (Hm (length l - 1)%nat e) as (lt & Hlt & Hp); [lia|done|].
  rewrite take_ge in Hp by lia. exists lt. by rewrite (log_term_last _ _ _ He) by lia.
Qed.

Lemma matches_sorted L l :
  (∀ t lt, L !! t = Some lt → sorted_terms lt) → matches L l → sorted_terms l.
Proof.
  intros HL Hm. destruct (decide (1 < length l)%nat) as [Hl|Hl].
  - destruct (matches_last L l Hm Hl) as (lt & Hlt & Hp). eapply sorted_prefix; [exact Hp|by eapply HL].
  - intros a b ea eb Hab Ha Hb. pose proof (lookup_lt_Some _ _ _ Ha). pose proof (lookup_lt_Some _ _ _ Hb).
    assert (a = b) as -> by lia. simplify_eq. lia.
Qed.

Lemma log_term_ge l k e : sorted_terms l → l !! k = Some e → Term e ≤ log_term l.
Proof.
  intros Hs Hk. pose proof (lookup_lt_Some _ _ _ Hk).
  destruct (lookup_lt_is_Some_2 l (length l - 1)) as [e' He']; [lia|].
  rewrite (log_term_last _ _ _ He') by lia. by eapply Hs; [|exact Hk|exact He']; lia.
Qed.

(** The candidate's log has what a voter's has of an earlier term, if the leaders in
    between have it. *)
Lemma up_to_date_holds L t k lc l :
  (∀ t lt, L !! t = Some lt → sorted_terms lt ∧ Forall (λ e, Term e ≤ t) lt) →
  matches L lc → matches L l → lc !! 0%nat = Some entry0 → l !! 0%nat = Some entry0 →
  own L t k → holds L t k l → up_to_date lc l →
  (∀ lt, t < log_term lc → L !! log_term lc = Some lt → holds L t k lt) →
  holds L t k lc.
Proof.
  intros HL Hmc Hm Hhc Hh Hown Hl Hup Hbetween.
  assert (sorted_terms l ∧ sorted_terms lc) as [Hsl Hsc].
  { split; (eapply matches_sorted; [|done]); intros t' lt' Hlt'; by apply (HL t'). }
  destruct Hown as (lt & e & Hlt & He & Ht). destruct (HL _ _ Hlt) as [Hst _].
  pose proof (lookup_lt_Some _ _ _ He) as Hk. pose proof (holds_length _ _ _ _ Hl) as Hkl.
  assert (l !! k = Some e) as Hel by (by rewrite (holds_lookup _ _ _ _ _ k Hl Hlt)).
  destruct (decide (k = 0)%nat) as [->|Hk0].
  { exists lt. split_and!; [done|done|]. pose proof (holds_lookup _ _ _ _ _ 0%nat Hl Hlt ltac:(lia)) as Hz.
    rewrite Hh in Hz. destruct lt, lc; simplify_eq/=. rewrite take_0. by apply prefix_cons, prefix_nil. }
  pose proof (log_term_ge _ _ _ Hsl Hel) as Hge. pose proof (log_term_ge _ _ _ Hsl Hh) as Hpos. simpl in Hpos.
  destruct (matches_last L l Hm) as (l1 & Hl1 & Hp1); [lia|].
  assert (∀ lx, L !! log_term lc = Some lx → lc `prefix_of` lx → holds L t k lx → (k < length lc)%nat → holds L t k lc) as Hcut.
  { intros lx _ [x ->] Hhx Hkc. rewrite <-(take_app_length lc x). by apply holds_take. }
  destruct Hup as [Hlast|[Hlast Hlen]].
  - destruct (decide (1 < length lc)%nat) as [Hc|Hc].
    2: { destruct lc as [|e0 [|]]; simplify_eq/=; [|lia]. unfold log_term in Hlast at 2. simpl in Hlast. lia. }
    destruct (matches_last L lc Hmc Hc) as (l2 & Hl2 & Hp2).
    assert (holds L t k l2) as Hh2 by (apply Hbetween; [lia|done]). apply (Hcut l2); [done..|].
    destruct (decide (k < length lc)%nat) as [|Hshort]; [done|].
    destruct (lookup_lt_is_Some_2 lc (length lc - 1)) as [e2 He2]; [lia|].
    pose proof (log_term_last _ _ _ He2 ltac:(lia)) as Hlt2. destruct Hp2 as [x ->].
    assert (lt !! (length lc - 1)%nat = Some e2) as Hin.
    { rewrite <-(holds_lookup _ _ _ _ _ _ Hh2 Hlt) by lia. by apply lookup_app_l_Some. }
    pose proof (Hst (length lc - 1)%nat k e2 e ltac:(lia) Hin He). lia.
  - destruct (matches_last L lc Hmc) as (l2 & Hl2 & Hp2); [lia|]. rewrite <-Hlast in Hl2. simplify_eq.
    eapply holds_prefix; [|exact Hl]. destruct (prefix_weak_total l lc l1) as [Hp|Hp]; [done..|].
    by rewrite (prefix_length_eq _ _ Hp) by lia.
Qed.

Lemma leader_has_chosen s V :
  0 < n → safe_inv s V → ∀ t k, chosen (acks s) (lc_leader_logs (ac_log s)) t k →
  ∀ t' l', t < t' → lc_leader_logs (ac_log s) !! t' = Some l' → holds (lc_leader_logs (ac_log s)) t k l'.
Proof.
  intros Hn Hinv t k [Hown (Q & HQ & Hsz & Hack)].
  enough (∀ d t' l', t < t' → (Z.to_nat (t' - t) < d)%nat → lc_leader_logs (ac_log s) !! t' = Some l' →
    holds (lc_leader_logs (ac_log s)) t k l') as He by (intros t' l' ??; apply (He (S (Z.to_nat (t' - t))) t' l'); [done|lia|done]).
  induction d as [|d IH]; intros t' l' Ht Hd Hl'; [lia|].
  destruct (sv_leaders s V Hinv t' l' Hl') as (_ & _ & c & lc & Q' & Hc & Hp & HQ' & Hsz' & Hv).
  destruct (quorum_meet n Q Q' (server_ids n)) as (j & Hj & Hj'); auto; [apply size_server_ids; lia|].
  destruct (Hv j Hj') as [Hvote [lj Hlj]].
  destruct (sv_votes s V Hinv j t' lj Hlj) as [Hmj Hhj _ Haj (c' & lc' & Hvote' & Hc' & Hup)].
  rewrite Hvote in Hvote'. injection Hvote' as <-. rewrite Hc in Hc'. injection Hc' as <-.
  destruct (sv_votes s V Hinv c t' lc Hc) as [Hmc Hhc Htc _ _].
  eapply holds_prefix; [exact Hp|]. eapply up_to_date_holds; [|exact Hmc|exact Hmj|done|done|done| |done|].
  - intros t1 l1 Hl1. by destruct (sv_leaders s V Hinv t1 l1 Hl1) as (? & ? & _).
  - destruct (Haj t k) as [?|(t1 & l1 & Ht1 & Hl1 & Hn1)]; [by apply Hack|done|done|done|].
    destruct Hn1. apply (IH t1); [lia|lia|done].
  - intros l1 Hlt Hl1. apply (IH (log_term lc)); [done| |done].
    assert (log_term lc < t'); [|lia]. destruct (lookup_lt_is_Some_2 lc (length lc - 1)) as [e He].
    { destruct lc; [done|simpl; lia]. }
    rewrite (log_term_last _ _ _ He) in Hlt |- * by (apply lookup_lt_Some in He; lia).
    apply (Htc (length lc - 1)%nat); [|done]. destruct (decide (length lc - 1 = 0)%nat) as [Hz|]; [|lia].
    destruct Hown as (lt & ek & Hlt' & Hek & Htk). destruct (sv_leaders s V Hinv t lt Hlt') as (Hsl & _).
    destruct (li_leaders n _ (sv_log s V Hinv) t lt Hlt') as (H0l & _).
    pose proof (Hsl 0%nat k entry0 ek ltac:(lia) H0l Hek) as H0t. rewrite Hz, Hhc in He. simplify_eq. simpl in *. lia.
Qed.

End safety.
