(* ===== verification/RaftSafeStep.v ===== *)
(** * Raft: steps that keep the safety invariant

    What a step of one peer leaves of [RaftSafe]'s invariant, the steps that cast no vote,
    those that cast one, and the steps of an election. *)
From S2P Require Import Prelude RaftState RaftVote RaftSnapshot RaftReplicate RaftApply RaftCluster RaftLog RaftSafe.

Section steps.
Context {C : Type} `{EqDecision C, GoRand, GobCodec (RaftVal C)}.
Variable n : Z.
Implicit Types (rf : Raft C) (cs : Cluster C) (s : AckCluster C) (A : gset (Z * Z * nat)).
Implicit Types (L : gmap Z (list (Log C))) (l : list (Log C)) (V : gmap (Z * Z) (list (Log C))).

(** ** What a step leaves of the parts it does not touch *)

Definition acks_in A L (i : Z) : Prop :=
  ∀ t k, acked A i t k → ∃ lt, L !! t = Some lt ∧ (k < length lt)%nat.

(** What was acknowledged stays held or lost. *)
Lemma kept_grow L L' t k T T' l :
  grows L L' → T ≤ T' → (∃ lt, L !! t = Some lt ∧ (k < length lt)%nat) →
  (own L t k → holds L t k l ∨ lost L t k T) → own L' t k → holds L' t k l ∨ lost L' t k T'.
Proof.
  intros Hg HT (lt & Hlt & Hk) Hkeep Hown. pose proof (own_shrink _ _ _ _ _ Hg Hlt Hk Hown) as Hown0.
  destruct (Hkeep Hown0) as [Hh|Hl]; [left; by eapply holds_grow; [apply grows_logs|]|right].
  eapply lost_le; [exact HT|]. by eapply lost_grow.
Qed.

Lemma peer_ok_move A A' L L' i rf rf' :
  grows L L' → A ⊆ A' → acks_in A L i → (∀ t k, acked A' i t k → acked A i t k) →
  log rf' = log rf → commitIndex rf' = commitIndex rf → currentTerm rf ≤ currentTerm rf' →
  peer_ok n A L i rf → peer_ok n A' L' i rf'.
Proof.
  intros Hg HA Hin Hold Hl Hc HT [Pt Pa Pc]. constructor; rewrite Hl, ?Hc.
  - eapply Forall_impl; [exact Pt|]. simpl. intros. lia.
  - intros t k Hack%Hold. destruct (Pa t k Hack) as [Ht Hkeep]. split; [lia|].
    eapply kept_grow; [done|exact HT|by apply Hin|done].
  - by eapply commit_ok_grow; [|apply grows_logs|..].
Qed.

Lemma server_ok_move A A' L L' i rf rf' :
  grows L L' → A ⊆ A' → acks_in A L i → (∀ t k, acked A' i t k → acked A i t k) →
  log_frame rf rf' → commitIndex rf' = commitIndex rf → currentTerm rf ≤ currentTerm rf' →
  server_ok n A L i rf → server_ok n A' L' i rf'.
Proof.
  intros Hg HA Hin Hold [Hl _ Hs _] Hc HT [Hp (rfp & Hr & Hpp)].
  split; [by apply (peer_ok_move A A' L L' i rf)|]. unfold restored in *.
  destruct Hs as [->|(rfp' & -> & Hl' & _ & Ht' & Hc')].
  - exists rfp. split; [done|]. by apply (peer_ok_move A A' L L' i rfp).
  - exists rfp'. split; [done|]. apply (peer_ok_move A A' L L' i rf); [done..|congruence|lia|done].
Qed.

Lemma vote_ok_move (vs vs' : gmap (Z * Z) Z) A A' L L' V V' i t l :
  grows L L' → vs ⊆ vs' → V ⊆ V' → A ⊆ A' → acks_in A L i →
  (∀ t0 k, acked A' i t0 k → t0 < t → acked A i t0 k) →
  vote_ok vs A L V i t l → vote_ok vs' A' L' V' i t l.
Proof.
  intros Hg Hvs HV HA Hin Hold [Vm Vh Vt Va (c & lc & Hc & Hlc & Hup)].
  constructor; [by eapply matches_grow; [apply grows_logs|]|done|done| |].
  - intros t0 k Hack Ht. pose proof (Hold _ _ Hack Ht) as Hack0.
    eapply kept_grow; [done|reflexivity|by apply Hin|]. intros. by apply Va.
  - exists c, lc. split_and!; [by eapply lookup_weaken|by eapply lookup_weaken|done].
Qed.

Lemma elected_ok_move (vs vs' : gmap (Z * Z) Z) V V' t l x :
  vs ⊆ vs' → V ⊆ V' → elected_ok n vs V t l → elected_ok n vs' V' t (l ++ x).
Proof.
  intros Hvs HV (c & lc & Q & Hlc & Hp & HQ & Hsz & Hv). exists c, lc, Q.
  split_and!; [by eapply lookup_weaken|by apply prefix_app_r|done|done|].
  intros j Hj. destruct (Hv j Hj) as [Hc [lj Hlj]].
  split; [by eapply lookup_weaken|exists lj; by eapply lookup_weaken].
Qed.

Lemma sv_acked s V i : safe_inv n s V → acks_in (acks s) (lc_leader_logs (ac_log s)) i.
Proof.
  intros Hinv t k (k' & Hk & Hin). destruct (sv_acks n s V Hinv i t k' Hin) as (_ & lt & Hlt & Hl).
  exists lt. split; [done|lia].
Qed.

(** ** A step of peer [i] *)

Section move.
Hypothesis Hn : 0 < n.
Context (s : AckCluster C) (V V' : gmap (Z * Z) (list (Log C))) (cs' : Cluster C) (i : Z) (rf rf' : Raft C)
  (sent' : list (AppendEntriesArgs C)) (A' : gset (Z * Z * nat)).

Abbreviation L := (lc_leader_logs (ac_log s)).
Abbreviation L' := (note_leader rf' (lc_leader_logs (ac_log s))).
Abbreviation cs := (lc_cluster (ac_log s)).

Hypothesis Hinv : safe_inv n s V.
Hypothesis Hlog : log_inv n (MkLogCluster cs' sent' L').
Hypothesis Hstep : cluster_step n cs cs'.
Hypothesis Hi : peer_at s i = Some rf.
Hypothesis Hservers : servers cs' = <[i := rf']> (servers cs).
Hypothesis Hrole : role_step rf rf'.
Hypothesis Hext : state rf' = LEADER →
  votes cs' = votes cs ∧ ∃ x, log rf' = log rf ++ x ∧ Forall (λ e, Term e = currentTerm rf') x.
Hypothesis HA : acks s ⊆ A'.
Hypothesis HA' : ∀ j t k, (j, t, k) ∈ A' → (j, t, k) ∈ acks s
  ∨ j = i ∧ t = currentTerm rf' ∧ ∃ lt, L' !! t = Some lt ∧ (k < length lt)%nat.

Lemma step_cluster : cluster_inv n cs' ∧ votes cs ⊆ votes cs'.
Proof. apply (step_inv n cs); [done|apply (sv_log n s V Hinv)|done]. Qed.

Lemma step_self : servers cs' !! i = Some rf'.
Proof. rewrite Hservers. apply lookup_insert_eq. Qed.

Lemma step_leader_old l :
  state rf' = LEADER → L !! currentTerm rf' = Some l → l = log rf ∧ state rf = LEADER.
Proof. by apply (move_leader_old n Hn (ac_log s) cs' i rf rf' (sv_log n s V Hinv) Hstep Hi Hservers Hrole). Qed.

Lemma step_grows : grows L L'.
Proof.
  intros t l Hl. unfold note_leader. case_bool_decide as Hs; [|by apply grows_refl].
  destruct (decide (t = currentTerm rf')) as [->|Hne].
  - destruct (Hext Hs) as (_ & x & Hx & Hxt). destruct (step_leader_old l Hs Hl) as [-> _].
    exists x. by rewrite lookup_insert_eq, Hx.
  - rewrite lookup_insert_ne by done. by apply grows_refl.
Qed.

Lemma step_sorted l : matches L l → sorted_terms l.
Proof. apply matches_sorted. intros t lt Hlt. by destruct (sv_leaders n s V Hinv t lt Hlt) as (? & _). Qed.

(** A new leader's votes were cast before its term had a leader. *)
Lemma step_elected :
  state rf' = LEADER → L !! currentTerm rf' = None → elected_ok n (votes cs') V (currentTerm rf') (log rf').
Proof.
  intros Hs HL. destruct (Hext Hs) as (Hvs & x & Hx & _). pose proof (sv_log n s V Hinv) as Hli.
  destruct (rs_leader _ _ Hrole Hs) as [[Hl|Hc] Ht].
  { pose proof (pl_leader _ _ (li_peers n _ Hli i rf Hi) Hl). congruence. }
  destruct (ci_servers _ _ (li_cluster n _ Hli) i rf Hi) as [_ Hsi].
  pose proof (si_candidate _ _ _ _ Hsi Hc) as Hself. rewrite <-Ht in Hself.
  destruct (sv_voted n s V Hinv _ _ _ Hself HL) as [lc Hlc].
  assert (lc = log rf) as -> by (apply (sv_candidate n s V Hinv i rf); [done|done|by rewrite <-Ht]).
  destruct step_cluster as [Hci _]. destruct (ci_servers n cs' Hci i rf' step_self) as [_ Hsi'].
  destruct (si_leader _ _ _ _ Hsi' Hs) as (Q & HQ & Hsz & Hv). exists i, (log rf), Q.
  split_and!; [done|rewrite Hx; by eexists|done|done|]. intros j Hj. pose proof (Hv j Hj) as Hvj.
  split; [done|]. rewrite Hvs in Hvj. by eapply (sv_voted n s V Hinv).
Qed.

Lemma step_acked j t k : acked A' j t k → acked (acks s) j t k ∨ j = i ∧ t = currentTerm rf'.
Proof.
  intros (k' & Hk & Hin). destruct (HA' _ _ _ Hin) as [Hold|(-> & -> & _)]; [left|by right].
  by exists k'.
Qed.

Lemma step_acked_other j t k : j ≠ i → acked A' j t k → acked (acks s) j t k.
Proof. intros Hj Hk. destruct (step_acked _ _ _ Hk) as [?|[? _]]; done. Qed.

Lemma step_acked_vote j t c t0 k :
  votes cs' !! (j, t) = Some c → acked A' j t0 k → t0 < t → acked (acks s) j t0 k.
Proof.
  intros Hv Hk Ht. destruct (step_acked _ _ _ Hk) as [?|[-> ->]]; [done|].
  destruct step_cluster as [Hci _]. destruct (ci_servers n cs' Hci i rf' step_self) as [_ Hsi].
  apply (si_vote _ _ _ _ Hsi) in Hv. lia.
Qed.

Lemma safe_inv_move :
  server_ok n A' L' i rf' → V ⊆ V' →
  (∀ j t, j ≠ i → V' !! (j, t) = V !! (j, t)) →
  (∀ j t c, votes cs' !! (j, t) = Some c → L' !! t = None → is_Some (V' !! (j, t))) →
  (∀ j t l, V' !! (j, t) = Some l → V !! (j, t) = Some l ∨ vote_ok (votes cs') A' L' V' j t l) →
  (∀ k e, elections cs' !! k = Some e → run_logged L' V' e) →
  (∀ lc, state rf' = CANDIDATE → V' !! (i, currentTerm rf') = Some lc → lc = log rf') →
  (∀ args, args ∈ sent' → sent_covers L' args ∧ ∃ lt, L' !! ae_Term args = Some lt
     ∧ commit_ok n A' L' (ae_Term args) (ae_LeaderCommit args) lt) →
  safe_inv n (MkAck (MkLogCluster cs' sent' L') A') V'.
Proof.
  intros Hself HV Hvo Hvoted Hvotes Hruns Hcand Hsent. pose proof step_grows as Hg.
  destruct step_cluster as [Hci Hsub]. constructor; simpl; [done| | | |done| |done| |done].
  - intros t l Hl. pose proof Hl as Hnl. apply note_leader_lookup in Hnl as [Hold|(Hs & -> & ->)].
    + destruct (sv_leaders n s V Hinv t l Hold) as (? & ? & ?). split_and!; [done|done|].
      rewrite <-(app_nil_r l). by eapply elected_ok_move.
    + destruct (Hext Hs) as (_ & x & Hx & Hxt). destruct Hself as [[Pt _ _] _].
      pose proof (po_terms _ _ _ _ _ (proj1 (sv_peers n s V Hinv i rf Hi))) as Pt0.
      pose proof (rs_leader _ _ Hrole Hs) as [_ HT]. split_and!; [|done|].
      * rewrite Hx. apply (sorted_snoc _ _ (currentTerm rf')); [|by rewrite HT|done].
        apply step_sorted. apply (li_peers n _ (sv_log n s V Hinv) i rf Hi).
      * destruct (L !! currentTerm rf') as [l0|] eqn:HL.
        -- destruct (step_leader_old l0 Hs HL) as [-> _]. rewrite Hx. eapply elected_ok_move; [done|done|].
           by destruct (sv_leaders n s V Hinv _ _ HL) as (_ & _ & ?).
        -- rewrite <-(app_nil_r (log rf')). eapply elected_ok_move; [reflexivity|done|by apply step_elected].
  - unfold peer_at. simpl. rewrite Hservers. intros j rfj. destruct (decide (j = i)) as [->|Hne].
    + rewrite lookup_insert_eq. by intros [= <-].
    + rewrite lookup_insert_ne by done. intros Hj.
      apply (server_ok_move (acks s) A' L L' j rfj); [done|done|by eapply sv_acked| |by apply log_frame_same|done|lia|
        by apply (sv_peers n s V Hinv)]. intros t k. by apply step_acked_other.
  - intros j t k Hin. destruct (HA' _ _ _ Hin) as [Hold|(-> & -> & Hr)].
    + destruct (sv_acks n s V Hinv j t k Hold) as (? & lt & Hlt & Hk). split; [done|].
      destruct (Hg _ _ Hlt) as (x & Hx & _). exists (lt ++ x). split; [done|rewrite length_app; lia].
    + split; [|done]. by destruct (ci_servers n cs' Hci i rf' step_self).
  - intros j t l Hl. destruct (Hvotes j t l Hl) as [Hold|]; [|done].
    pose proof (sv_votes n s V Hinv j t l Hold) as Hvok.
    apply (vote_ok_move (votes cs) _ (acks s) _ L _ V); try done; [by eapply sv_acked|].
    destruct (vo_candidate _ _ _ _ _ _ _ Hvok) as (c & lc & Hc & _). intros t0 k.
    eapply step_acked_vote. by eapply lookup_weaken.
  - unfold peer_at. simpl. rewrite Hservers. intros j rfj lc. destruct (decide (j = i)) as [->|Hne].
    + rewrite lookup_insert_eq. intros [= <-]. apply Hcand.
    + rewrite lookup_insert_ne, Hvo by done. by apply (sv_candidate n s V Hinv).
Qed.

End move.
(** ** Steps that cast no vote *)

Lemma sent_move A A' L L' args :
  grows L L' → A ⊆ A' →
  sent_covers L args ∧ (∃ lt, L !! ae_Term args = Some lt ∧ commit_ok n A L (ae_Term args) (ae_LeaderCommit args) lt) →
  sent_covers L' args ∧ ∃ lt, L' !! ae_Term args = Some lt ∧ commit_ok n A' L' (ae_Term args) (ae_LeaderCommit args) lt.
Proof.
  intros Hg HA (Hc & lt & Hlt & Hok). destruct (Hg _ _ Hlt) as (x & Hx & Hxt). split.
  - intros lt' k e Hlt' He Hne. simplify_eq. apply lookup_app_Some in He as [He|[_ He]]; [by eapply Hc|].
    rewrite Forall_lookup in Hxt. by apply Hxt in He.
  - exists (lt ++ x). split; [done|]. apply (commit_ok_grow n A A' L L' _ (ae_Term args)) in Hok; [|done|by apply grows_logs|done].
    destruct Hok as [?|(t & k & ? & ? & ? & Hh)]; [by left|right]. exists t, k.
    split_and!; [done|done|done|]. eapply holds_prefix; [|exact Hh]. by eexists.
Qed.

Section no_vote.
Hypothesis Hn : 0 < n.
Context (s : AckCluster C) (V : gmap (Z * Z) (list (Log C))) (cs' : Cluster C) (i : Z) (rf rf' : Raft C)
  (sent' : list (AppendEntriesArgs C)).

Abbreviation L := (lc_leader_logs (ac_log s)).
Abbreviation L' := (note_leader rf' (lc_leader_logs (ac_log s))).
Abbreviation cs := (lc_cluster (ac_log s)).

Hypothesis Hinv : safe_inv n s V.
Hypothesis Hstep : log_step n (ac_log s) (MkLogCluster cs' sent' L').
Hypothesis Hi : peer_at s i = Some rf.
Hypothesis Hservers : servers cs' = <[i := rf']> (servers cs).
Hypothesis Hrole : role_step rf rf'.
Hypothesis Hvotes : votes cs' = votes cs.
Hypothesis Hruns : ∀ k e, elections cs' !! k = Some e →
  ∃ k0 e0, elections cs !! k0 = Some e0 ∧ el_args e = el_args e0.
Hypothesis Hsent : ∀ args, args ∈ sent' → args ∈ lc_sent (ac_log s)
  ∨ sent_covers L args ∧ ∃ lt, L !! ae_Term args = Some lt ∧ commit_ok n (acks s) L (ae_Term args) (ae_LeaderCommit args) lt.

(** The peer may append entries of its term if it leads, and answer in its term. *)
Lemma safe_inv_no_vote A' :
  (state rf' = LEADER → ∃ x, log rf' = log rf ++ x ∧ Forall (λ e, Term e = currentTerm rf') x) →
  (state rf' = CANDIDATE → log rf' = log rf) →
  acks s ⊆ A' →
  (∀ j t k, (j, t, k) ∈ A' → (j, t, k) ∈ acks s
     ∨ j = i ∧ t = currentTerm rf' ∧ ∃ lt, L' !! t = Some lt ∧ (k < length lt)%nat) →
  (grows L L' → server_ok n A' L' i rf') →
  safe_inv n (MkAck (MkLogCluster cs' sent' L') A') V.
Proof.
  intros Hlead Hcand HA HA' Hself. pose proof (sv_log n s V Hinv) as Hli.
  destruct (log_step_inv n _ _ Hn Hli Hstep) as [Hli' _]. pose proof (log_step_cluster n _ _ Hstep) as Hc.
  simpl in Hc. assert (grows L L') as Hg.
  { apply (step_grows Hn s V cs' i rf rf' Hinv Hc Hi Hservers Hrole). intros Hl. split; [done|by apply Hlead]. }
  apply (safe_inv_move Hn s V V cs' i rf rf'); try done; [|by apply Hself|..].
  - intros Hl. split; [done|by apply Hlead].
  - intros j t c. rewrite Hvotes. intros Hv HL. apply (sv_voted n s V Hinv j t c); [done|].
    destruct (L !! t) as [l|] eqn:Hl; [|done]. destruct (Hg _ _ Hl) as (x & Hx & _). congruence.
  - intros j t l Hl. by left.
  - intros k e He. destruct (Hruns k e He) as (k0 & e0 & He0 & Ha). destruct (sv_runs n s V Hinv k0 e0 He0) as [H1 H2].
    unfold run_logged. rewrite Ha. split; [|done]. intros HL. apply H1.
    destruct (L !! rv_Term (el_args e0)) as [l|] eqn:Hl; [|done]. destruct (Hg _ _ Hl) as (x & Hx & _). congruence.
  - intros lc Hs Hlc. rewrite (Hcand Hs). destruct (ci_servers n cs' (li_cluster n _ Hli') i rf') as [_ Hsi'].
    { simpl. rewrite Hservers. apply lookup_insert_eq. }
    pose proof (si_candidate _ _ _ _ Hsi' Hs) as Hv. simpl in Hv. rewrite Hvotes in Hv.
    destruct (rs_candidate _ _ Hrole Hs) as [[Hs0 Ht]|Hlt].
    + apply (sv_candidate n s V Hinv i rf); [done|done|by rewrite <-Ht].
    + destruct (ci_servers n cs (li_cluster n _ Hli) i rf Hi) as [_ Hsi]. apply (si_vote _ _ _ _ Hsi) in Hv. lia.
  - intros args Ha. eapply sent_move; [exact Hg|exact HA|]. destruct (Hsent args Ha) as [Hold|]; [|done].
    by apply (sv_sent n s V Hinv).
Qed.

(** A handler that leaves the log and the commit index alone. *)
Lemma safe_inv_frame :
  log_frame rf rf' → commitIndex rf' = commitIndex rf → currentTerm rf ≤ currentTerm rf' →
  safe_inv n (MkAck (MkLogCluster cs' sent' L') (acks s)) V.
Proof.
  intros Hf Hc Ht. pose proof (lf_log _ _ Hf) as Hl. apply safe_inv_no_vote; try done.
  - intros _. exists []. by rewrite app_nil_r.
  - intros j t k. by left.
  - intros Hg. apply (server_ok_move (acks s) (acks s) L L' i rf rf'); try done; [by eapply sv_acked|].
    by apply (sv_peers n s V Hinv).
Qed.

End no_vote.
(** ** Steps that cast a vote *)

(** The logs of first votes in a term without a leader are recorded. *)
Definition note_vote L (vs : gmap (Z * Z) Z) V (i t : Z) l : gmap (Z * Z) (list (Log C)) :=
  match L !! t, vs !! (i, t) with None, None => <[(i, t) := l]> V | _, _ => V end.

Lemma note_vote_lookup L vs V i t l j u lj :
  note_vote L vs V i t l !! (j, u) = Some lj →
  V !! (j, u) = Some lj ∨ (j = i ∧ u = t ∧ lj = l ∧ L !! t = None ∧ vs !! (i, t) = None).
Proof.
  unfold note_vote. destruct (L !! t), (vs !! (i, t)); [by left..|].
  intros [[[= -> ->] ->]|[_ ?]]%lookup_insert_Some; [by right|by left].
Qed.

Lemma voted_of_log s V i t l :
  safe_inv n s V → V !! (i, t) = Some l → is_Some (votes (lc_cluster (ac_log s)) !! (i, t)).
Proof.
  intros Hinv Hl. destruct (vo_candidate _ _ _ _ _ _ _ (sv_votes n s V Hinv i t l Hl)) as (c & _ & Hc & _).
  by exists c.
Qed.

Section vote.
Hypothesis Hn : 0 < n.
Context (s : AckCluster C) (V : gmap (Z * Z) (list (Log C))) (cs' : Cluster C) (i c : Z) (rf rf' : Raft C).

Abbreviation L := (lc_leader_logs (ac_log s)).
Abbreviation L' := (note_leader rf' (lc_leader_logs (ac_log s))).
Abbreviation cs := (lc_cluster (ac_log s)).
Abbreviation V' := (note_vote (lc_leader_logs (ac_log s)) (votes (lc_cluster (ac_log s))) V i (currentTerm rf') (log rf)).

Hypothesis Hinv : safe_inv n s V.
Hypothesis Hstep : log_step n (ac_log s) (MkLogCluster cs' (lc_sent (ac_log s)) L').
Hypothesis Hi : peer_at s i = Some rf.
Hypothesis Hservers : servers cs' = <[i := rf']> (servers cs).
Hypothesis Hrole : role_step rf rf'.
Hypothesis Hvotes : votes cs' = <[(i, currentTerm rf') := c]> (votes cs).
Hypothesis Hnl : state rf' ≠ LEADER.
Hypothesis Hframe : log_frame rf rf'.
Hypothesis Hcommit : commitIndex rf' = commitIndex rf.
Hypothesis Hterm : currentTerm rf ≤ currentTerm rf'.

Lemma vote_log_kept : V ⊆ V'.
Proof.
  unfold note_vote. destruct (L !! _); [done|]. destruct (votes cs !! _) eqn:Hv; [done|].
  apply insert_subseteq. destruct (V !! (i, currentTerm rf')) as [l|] eqn:Hl; [|done].
  destruct (voted_of_log s V _ _ _ Hinv Hl). congruence.
Qed.

(** The log of a peer that votes in a term without a leader. *)
Lemma voter_log_ok :
  L !! currentTerm rf' = None →
  (∃ lc, V' !! (c, currentTerm rf') = Some lc ∧ up_to_date lc (log rf)) →
  vote_ok (votes cs') (acks s) L V' i (currentTerm rf') (log rf).
Proof.
  intros HL (lc & Hlc & Hup). destruct (sv_peers n s V Hinv i rf Hi) as [[Pt Pa _] _].
  pose proof (li_peers n _ (sv_log n s V Hinv) i rf Hi) as [_ Ph _ Pm _].
  constructor; [done|done| | |].
  - intros k e Hk He. rewrite Forall_lookup in Pt. pose proof (Pt _ _ He).
    destruct (Pm k e Hk He) as (lt & Hlt & _). assert (Term e ≠ currentTerm rf') by congruence. lia.
  - intros t0 k Hack Ht Hown. destruct (Pa t0 k Hack) as [_ Hkeep].
    destruct (Hkeep Hown) as [|(t1 & l1 & Ht1 & Hl1 & Hn1)]; [by left|right]. exists t1, l1.
    assert (t1 ≠ currentTerm rf') by congruence. split_and!; [lia|lia|done|done].
  - exists c, lc. split_and!; [rewrite Hvotes; apply lookup_insert_eq|done|done].
Qed.

Lemma safe_inv_vote :
  (L !! currentTerm rf' = None → votes cs !! (i, currentTerm rf') = None →
     ∃ lc, V' !! (c, currentTerm rf') = Some lc ∧ up_to_date lc (log rf)) →
  (∀ k e, elections cs' !! k = Some e → run_logged L V' e) →
  (∀ lc, state rf' = CANDIDATE → V' !! (i, currentTerm rf') = Some lc → lc = log rf') →
  safe_inv n (MkAck (MkLogCluster cs' (lc_sent (ac_log s)) L') (acks s)) V'.
Proof.
  intros Hcand Hruns Hself. pose proof (sv_log n s V Hinv) as Hli.
  destruct (log_step_inv n _ _ Hn Hli Hstep) as [Hli' _]. pose proof (log_step_cluster n _ _ Hstep) as Hc.
  simpl in Hc. assert (L' = L) as HL by (by apply note_leader_other).
  apply (safe_inv_move Hn s V V' cs' i rf rf'); rewrite ?HL; try done.
  - by rewrite HL in Hli'.
  - intros j t k. by left.
  - apply (server_ok_move (acks s) (acks s) L L i rf rf'); try done; [apply grows_refl|by eapply sv_acked|].
    by apply (sv_peers n s V Hinv).
  - apply vote_log_kept.
  - intros j t Hj. unfold note_vote. destruct (L !! currentTerm rf'), (votes cs !! _); [done..|].
    apply lookup_insert_ne. congruence.
  - intros j t c'. rewrite Hvotes. intros [[[= <- <-] <-]|[Hne Hv]]%lookup_insert_Some Ht.
    + destruct (votes cs !! (i, currentTerm rf')) as [c0|] eqn:Hv.
      * destruct (sv_voted n s V Hinv _ _ _ Hv Ht) as [l Hl]. exists l. eapply lookup_weaken; [done|apply vote_log_kept].
      * unfold note_vote. rewrite Ht, Hv. rewrite lookup_insert_eq. eauto.
    + destruct (sv_voted n s V Hinv _ _ _ Hv Ht) as [l Hl]. exists l. eapply lookup_weaken; [done|apply vote_log_kept].
  - intros j t l Hl. apply note_vote_lookup in Hl as [Hl|(-> & -> & -> & Hnone & Hv)]; [by left|right].
    apply voter_log_ok; [done|by apply Hcand].
  - intros args Ha. by apply (sv_sent n s V Hinv).
Qed.

End vote.
(** ** Election steps *)

Lemma Election_begin_request rf rf' args :
  Election_begin rf = Some (rf', Some args) →
  LastLogIndex args = lastIndex rf ∧ LastLogterm args = lastTerm rf ∧ commitIndex rf' = commitIndex rf.
Proof.
  unfold Election_begin. destruct (bool_decide _); [done|].
  destruct (changeRole CANDIDATE _) as [rf1|] eqn:Hc; [|done]. cbn [mbind option_bind].
  destruct (lastLogTermIndex (persist rf1)) as [[lt li]|] eqn:Hl; [|done]. cbn [mbind option_bind].
  apply lastLogTermIndex_Some in Hl as (-> & -> & _). intros [= <- <-]. unfold changeRole in Hc. by simplify_eq.
Qed.

Lemma RequestVote_commit args rf rf' reply :
  RequestVote args rv_reply0 rf = Some (rf', reply) → commitIndex rf' = commitIndex rf.
Proof.
  unfold RequestVote. destruct (lastLogTermIndex rf) as [[lt li]|]; cbn [mbind option_bind]; [|done].
  destruct (rv_Term args <? currentTerm rf); cbn; [by intros [= <- _]|].
  destruct (rv_Term args >? currentTerm rf); cbn.
  { destruct (candidate_up_to_date _ _ _); cbn; by intros [= <- _]. }
  destruct (_ =? CandidateId args); cbn; [by intros [= <- _]|].
  destruct (voteFor rf =? -1); cbn; [|by intros [= <- _]].
  destruct (candidate_up_to_date _ _ _); cbn; by intros [= <- _].
Qed.

Lemma SendRequest_reply_commit args r rf ss rf' ss' :
  SendRequest_reply args r (rf, ss) = Some (rf', ss') → commitIndex rf' = commitIndex rf.
Proof.
  unfold SendRequest_reply. destruct r as [reply|]; [|by intros [= <- _]].
  destruct (rvr_Term reply >? rv_Term args); [destruct (rvr_Term reply >? currentTerm rf)|
    destruct (VoteGranted reply)]; cbn; by intros [= <- _].
Qed.

Lemma changeRole_commit r rf rf' : changeRole r rf = Some rf' → commitIndex rf' = commitIndex rf.
Proof.
  unfold changeRole. destruct r; [|by intros [= <-]..].
  destruct (lastLogTermIndex _) as [[lt li]|]; cbn [mbind option_bind]; [|done].
  destruct (make_slice _ _) as [nx|]; cbn [mbind option_bind]; [|done].
  destruct (fill_nextIndex _ _ _ _); cbn [mbind option_bind]; [|done].
  destruct (slice_set _ _ _); cbn [mbind option_bind]; [|done]. by intros [= <-].
Qed.

Lemma Election_end_commit args k rf rf' :
  Election_end args k rf = Some rf' → commitIndex rf' = commitIndex rf.
Proof.
  unfold Election_end. destruct (_ && _).
  - destruct (changeRole LEADER rf) as [rf1|] eqn:Hc; [|done]. cbn [mbind option_bind].
    apply changeRole_commit in Hc. case_bool_decide; by intros [= <-].
  - cbn [mbind option_bind]. case_bool_decide; by intros [= <-].
Qed.

Lemma vote_frame_term rf rf' : vote_frame rf rf' → currentTerm rf ≤ currentTerm rf'.
Proof. intros [_ _ Ht _]. destruct Ht as [(-> & _)|[? _]]; lia. Qed.

Lemma lastIndex_log L rf : peer_log L rf → lastIndex rf = len (log rf) - 1.
Proof. intros Hp. unfold lastIndex. rewrite (pl_snap _ _ Hp). lia. Qed.

Lemma up_to_date_spec args L lc rf :
  peer_log L rf → LastLogIndex args = len lc - 1 → LastLogterm args = log_term lc →
  candidate_up_to_date args (lastTerm rf) (lastIndex rf) = true → up_to_date lc (log rf).
Proof.
  intros Hp Hli Hlt. rewrite (lastIndex_log L rf Hp). unfold candidate_up_to_date, up_to_date.
  change (lastTerm rf) with (log_term (log rf)). rewrite Hli, Hlt, orb_true_iff, andb_true_iff.
  rewrite Z.ltb_lt, Z.eqb_eq, Z.leb_le. intros [?|[? ?]]; [by left|right]. split; [done|lia].
Qed.

(** What a run tells of its candidate's log stays true when a vote is cast. *)
Lemma run_logged_vote s V i t l e :
  safe_inv n s V → run_logged (lc_leader_logs (ac_log s)) V e →
  V ⊆ note_vote (lc_leader_logs (ac_log s)) (votes (lc_cluster (ac_log s))) V i t l →
  run_logged (lc_leader_logs (ac_log s)) (note_vote (lc_leader_logs (ac_log s)) (votes (lc_cluster (ac_log s))) V i t l) e.
Proof.
  intros Hinv [H1 H2] HV. split.
  - intros HL. destruct (H1 HL) as [lc Hlc]. exists lc. by eapply lookup_weaken.
  - intros lc Hl. apply note_vote_lookup in Hl as [Hl|(Hi & Ht & -> & HL & Hnone)]; [by apply H2|].
    destruct (H1 ltac:(by rewrite Ht)) as [l0 Hl0]. rewrite Hi, Ht in Hl0.
    destruct (voted_of_log s V _ _ _ Hinv Hl0). congruence.
Qed.

(** A peer becomes a candidate. *)
Lemma safe_election_begin s V i k rf rf' args cs' :
  0 < n → safe_inv n s V → peer_at s i = Some rf →
  Election_begin rf = Some (rf', Some args) →
  log_step n (ac_log s) (MkLogCluster cs' (lc_sent (ac_log s)) (note_leader rf' (lc_leader_logs (ac_log s)))) →
  role_step rf rf' →
  servers cs' = <[i := rf']> (servers (lc_cluster (ac_log s))) →
  votes cs' = <[(i, rv_Term args) := i]> (votes (lc_cluster (ac_log s))) →
  elections cs' = <[k := MkRun args (server_ids n ∖ {[i]}) ∅ (MkSend 0 false) None ∅]> (elections (lc_cluster (ac_log s))) →
  ∃ V', safe_inv n (MkAck (MkLogCluster cs' (lc_sent (ac_log s)) (note_leader rf' (lc_leader_logs (ac_log s)))) (acks s)) V'.
Proof.
  intros Hn Hinv Hi Hb Hstep Hrole Hs Hv He. pose proof (Election_begin_log_frame _ _ _ Hb) as Hf.
  pose proof (Election_begin_request _ _ _ Hb) as (Hli & Hlt & Hci).
  apply Election_begin_candidate in Hb as (Ht & _ & Hst & _ & _ & _ & Hat & Hac).
  pose proof (li_peers n _ (sv_log n s V Hinv) i rf Hi) as Hpl.
  destruct (ci_servers n _ (li_cluster n _ (sv_log n s V Hinv)) i rf Hi) as [_ Hsi].
  assert (votes (lc_cluster (ac_log s)) !! (i, currentTerm rf') = None) as Hnew.
  { destruct (votes _ !! _) eqn:Hvi; [|done]. apply (si_vote _ _ _ _ Hsi) in Hvi. lia. }
  assert (V !! (i, currentTerm rf') = None) as HnV.
  { destruct (V !! _) eqn:HVi; [|done]. destruct (voted_of_log s V _ _ _ Hinv HVi). congruence. }
  set (V' := note_vote (lc_leader_logs (ac_log s)) (votes (lc_cluster (ac_log s))) V i (currentTerm rf') (log rf)).
  assert (∀ lc, V' !! (i, currentTerm rf') = Some lc → lc = log rf) as HV'.
  { intros lc Hl. apply note_vote_lookup in Hl as [Hl|(_ & _ & -> & _)]; [congruence|done]. }
  assert (lc_leader_logs (ac_log s) !! currentTerm rf' = None → V' !! (i, currentTerm rf') = Some (log rf)) as HVi.
  { intros HL. unfold V', note_vote. rewrite HL, Hnew. apply lookup_insert_eq. }
  assert (V ⊆ V') as HV by (by apply (vote_log_kept s V i rf rf')).
  exists V'. apply (safe_inv_vote Hn s V cs' i i rf rf'); try done.
  - by rewrite Hv, Hat.
  - by rewrite Hst.
  - lia.
  - intros HL _. exists (log rf). split; [by apply HVi|right; split; [done|lia]].
  - intros k' e. rewrite He. intros [[<- <-]|[_ Hk]]%lookup_insert_Some; unfold run_logged; simpl.
    + rewrite Hac, Hat, (si_me _ _ _ _ Hsi). split; [by eauto|]. intros lc ->%HV'.
      by rewrite Hli, (lastIndex_log _ _ Hpl).
    + apply (run_logged_vote s V); [done|by eapply (sv_runs n s V Hinv)|done].
  - intros lc _ ->%HV'. by rewrite (lf_log _ _ Hf).
Qed.
(** A peer grants its vote. *)
Lemma safe_vote_granted s V k e j rf rf' reply cs' :
  0 < n → safe_inv n s V → peer_at s j = Some rf → elections (lc_cluster (ac_log s)) !! k = Some e →
  RequestVote (el_args e) rv_reply0 rf = Some (rf', reply) → VoteGranted reply = true →
  log_step n (ac_log s) (MkLogCluster cs' (lc_sent (ac_log s)) (note_leader rf' (lc_leader_logs (ac_log s)))) →
  role_step rf rf' → votes_compared s cs' →
  servers cs' = <[j := rf']> (servers (lc_cluster (ac_log s))) →
  votes cs' = <[(j, rv_Term (el_args e)) := CandidateId (el_args e)]> (votes (lc_cluster (ac_log s))) →
  (∀ k' e', elections cs' !! k' = Some e' → ∃ k0 e0, elections (lc_cluster (ac_log s)) !! k0 = Some e0 ∧ el_args e' = el_args e0) →
  ∃ V', safe_inv n (MkAck (MkLogCluster cs' (lc_sent (ac_log s)) (note_leader rf' (lc_leader_logs (ac_log s)))) (acks s)) V'.
Proof.
  intros Hn Hinv Hj He Hr Hg Hstep Hrole Hcmp Hs Hv Hruns.
  pose proof (RequestVote_log_frame _ _ _ _ Hr) as Hf. pose proof (RequestVote_commit _ _ _ _ Hr) as Hci.
  apply RequestVote_granted in Hr as (Hle & Ht & _ & Hst & _); [|done].
  pose proof (li_peers n _ (sv_log n s V Hinv) j rf Hj) as Hpl.
  assert (V ⊆ note_vote (lc_leader_logs (ac_log s)) (votes (lc_cluster (ac_log s))) V j (currentTerm rf') (log rf)) as HV
    by (by apply (vote_log_kept s V j rf rf')).
  eexists. apply (safe_inv_vote Hn s V cs' j (CandidateId (el_args e)) rf rf'); try done.
  - by rewrite Hv, Ht.
  - by rewrite Hst.
  - lia.
  - rewrite Ht in *. intros HL Hnone. destruct (sv_runs n s V Hinv k e He) as [H1 H2].
    destruct (H1 HL) as [lc Hlc]. destruct (H2 lc Hlc) as [Hli Hlt]. exists lc.
    split; [by eapply lookup_weaken|]. eapply up_to_date_spec; [done|exact Hli|exact Hlt|].
    eapply (Hcmp k e j rf); [done|done|done|by rewrite Hv, lookup_insert_eq|done].
  - intros k' e' He'. destruct (Hruns k' e' He') as (k0 & e0 & He0 & Ha). unfold run_logged. rewrite Ha.
    apply (run_logged_vote s V); [done|by eapply (sv_runs n s V Hinv)|done].
  - by rewrite Hst.
Qed.

Lemma elections_args k e e' (es : gmap nat ElectionRun) :
  es !! k = Some e → el_args e' = el_args e →
  ∀ k' e1, <[k := e']> es !! k' = Some e1 → ∃ k0 e0, es !! k0 = Some e0 ∧ el_args e1 = el_args e0.
Proof. intros He Ha k' e1 [[<- <-]|[_ Hk]]%lookup_insert_Some; eauto. Qed.

Lemma safe_election s V cs' :
  0 < n → safe_inv n s V → election_step n (lc_cluster (ac_log s)) cs' → votes_compared s cs' →
  ∃ j rf rf' V', peer_at s j = Some rf ∧ servers cs' = <[j := rf']> (servers (lc_cluster (ac_log s)))
    ∧ safe_inv n (MkAck (MkLogCluster cs' (lc_sent (ac_log s)) (note_leader rf' (lc_leader_logs (ac_log s)))) (acks s)) V'.
Proof.
  intros Hn Hinv Hstep Hcmp.
  assert (∀ j rf rf', peer_at s j = Some rf → servers cs' = <[j := rf']> (servers (lc_cluster (ac_log s))) →
    log_step n (ac_log s) (MkLogCluster cs' (lc_sent (ac_log s)) (note_leader rf' (lc_leader_logs (ac_log s))))
    ∧ role_step rf rf') as Hmv.
  { intros j rf rf' Hj Hs. split; [by eapply log_election|]. eapply election_step_role; [done|done|].
    rewrite Hs. apply lookup_insert_eq. }
  assert (∀ j rf rf', peer_at s j = Some rf → servers cs' = <[j := rf']> (servers (lc_cluster (ac_log s))) →
    votes cs' = votes (lc_cluster (ac_log s)) →
    (∀ k e, elections cs' !! k = Some e → ∃ k0 e0, elections (lc_cluster (ac_log s)) !! k0 = Some e0 ∧ el_args e = el_args e0) →
    log_frame rf rf' → commitIndex rf' = commitIndex rf → currentTerm rf ≤ currentTerm rf' →
    safe_inv n (MkAck (MkLogCluster cs' (lc_sent (ac_log s)) (note_leader rf' (lc_leader_logs (ac_log s)))) (acks s)) V) as Hnv.
  { intros j rf rf' Hj Hs Hv Hr Hf Hc Ht. destruct (Hmv j rf rf' Hj Hs) as [Hls Hrole].
    apply (safe_inv_frame Hn s V cs' j rf rf'); try done. by left. }
  destruct Hstep as [j k rf rf' args Hs Hk Hb|k e j rf rf' reply He Hj Hs Hr
    |k e j m rf rf' reply ss' He Hj -> Hs Hr|k e j rf rf' count He -> Hs Hf
    |k e j count rf rf' He Hc -> Hs Hend].
  - destruct (Hmv j rf rf' Hs eq_refl) as [Hls Hrole].
    edestruct (safe_election_begin s V j k rf rf' args) as [V' HV']; try done. by exists j, rf, rf', V'.
  - destruct (Hmv j rf rf' Hs eq_refl) as [Hls Hrole]. destruct (VoteGranted reply) eqn:Hg.
    + edestruct (safe_vote_granted s V k e j rf rf' reply) as [V' HV']; try done; [by apply (elections_args k e)|].
      by exists j, rf, rf', V'.
    + exists j, rf, rf', V. split_and!; [done|done|]. apply (Hnv j rf); try done.
      * by apply (elections_args k e).
      * by eapply RequestVote_log_frame.
      * by eapply RequestVote_commit.
      * by eapply vote_frame_term, RequestVote_refused.
  - exists (CandidateId (el_args e)), rf, rf', V. split_and!; [done|done|]. apply (Hnv (CandidateId (el_args e)) rf); try done.
    + by apply (elections_args k e).
    + by eapply SendRequest_reply_log_frame.
    + by eapply SendRequest_reply_commit.
    + apply SendRequest_reply_frame in Hr as [Hf _]. by apply vote_frame_term.
  - exists (CandidateId (el_args e)), rf, rf', V. split_and!; [done|done|]. apply (Hnv (CandidateId (el_args e)) rf); try done.
    + by apply (elections_args k e).
    + by eapply SendRequest_finish_log_frame.
    + unfold SendRequest_finish in Hf. destruct (another _); by injection Hf as <- _.
    + apply SendRequest_finish_frame in Hf as [Hf _]. by apply vote_frame_term.
  - exists (CandidateId (el_args e)), rf, rf', V. split_and!; [done|done|]. apply (Hnv (CandidateId (el_args e)) rf); try done.
    + eauto.
    + by eapply Election_end_log_frame.
    + by eapply Election_end_commit.
    + apply Election_end_cases in Hend as [Hf|(_ & _ & _ & _ & _ & _ & -> & _)]; [by apply vote_frame_term|done].
Qed.
End steps.
