(* ===== verification/RaftSafety.v ===== *)
(** * Raft: state machine safety

    The remaining steps of [RaftSafe] keep its invariant, and what follows: a committed entry
    is in the log of every later leader, and no two peers deliver different commands at an
    index. *)
From S2P Require Import Prelude RaftState RaftVote RaftSnapshot RaftReplicate RaftApply RaftCluster RaftLog RaftSafe RaftSafeStep.

Section safety.
Context {C : Type} `{EqDecision C, GoRand, GobCodec (RaftVal C)}.
Variable n : Z.
Implicit Types (rf : Raft C) (cs : Cluster C) (s : AckCluster C) (A : gset (Z * Z * nat)).
Implicit Types (L : gmap Z (list (Log C))) (l : list (Log C)) (V : gmap (Z * Z) (list (Log C))).

(** ** Answers to requests *)

Section append.
Hypothesis Hn : 0 < n.
Context (s : AckCluster C) (V : gmap (Z * Z) (list (Log C))) (i : Z) (rf : Raft C) (args : AppendEntriesArgs C)
  (lt : list (Log C)).

Abbreviation L := (lc_leader_logs (ac_log s)).
Abbreviation m := (S (Z.to_nat (PrevLogIndex args) + length (Entries args))).

Hypothesis Hinv : safe_inv n s V.
Hypothesis Hi : peer_at s i = Some rf.
Hypothesis Hargs : args ∈ lc_sent (ac_log s).
Hypothesis Hlt : L !! ae_Term args = Some lt.
Hypothesis Hterm : currentTerm rf ≤ ae_Term args.
Hypothesis Hprev : 0 ≤ PrevLogIndex args.
Hypothesis Hooo : CheckIfAEOutOfOrder args rf = Some false.

(** What the sender has of an earlier term is in the request. *)
Lemma request_covers_older t k : own L t k → t ≠ ae_Term args → holds L t k lt → (k < m)%nat.
Proof.
  intros (lt0 & e & Hlt0 & He & Ht) Hne Hh. destruct (sv_sent n s V Hinv args Hargs) as [Hcov _].
  rewrite <-(holds_lookup _ _ _ _ _ k Hh Hlt0) in He by lia.
  specialize (Hcov lt k e Hlt He ltac:(congruence)). lia.
Qed.

(** What the peer already has of the sender's log is in the request, or the request would
    have been out of order. *)
Lemma request_covers_own k : holds L (ae_Term args) k (log rf) → (k < m)%nat.
Proof.
  intros Hh. destruct (decide (k < m)%nat) as [|Hk]; [done|exfalso]. pose proof (holds_length _ _ _ _ Hh) as Hlen.
  destruct (lookup_lt_is_Some_2 (log rf) k Hlen) as [e He].
  pose proof He as Hel. rewrite (holds_lookup _ _ _ _ _ k Hh Hlt) in Hel by lia.
  destruct (decide (Term e = ae_Term args)) as [Ht|Ht].
  - pose proof (li_peers n _ (sv_log n s V Hinv) i rf Hi) as Hpl. destruct (sv_peers n s V Hinv i rf Hi) as [[Pt _ _] _].
    assert (sorted_terms (log rf)) as Hsort by (apply (step_sorted n s V Hinv), (pl_matches _ _ Hpl)).
    pose proof (log_term_ge _ _ _ Hsort He) as Hge.
    destruct (lookup_lt_is_Some_2 (log rf) (length (log rf) - 1)) as [e' He']; [lia|].
    rewrite (log_term_last _ _ _ He') in Hge by lia. rewrite Forall_lookup in Pt. pose proof (Pt _ _ He').
    unfold CheckIfAEOutOfOrder in Hooo. rewrite lastLogTermIndex_spec in Hooo by (by intros Hnil; rewrite Hnil in He).
    cbn [mbind option_bind] in Hooo. injection Hooo as Hb. apply orb_false_iff in Hb as [_ Hb].
    rewrite (lastIndex_log _ _ Hpl) in Hb. change (lastTerm rf) with (log_term (log rf)) in Hb.
    rewrite (log_term_last _ _ _ He') in Hb by lia. apply andb_false_iff in Hb as [Hb|Hb]; [apply Z.ltb_ge in Hb|apply Z.eqb_neq in Hb]; lia.
  - destruct (sv_sent n s V Hinv args Hargs) as [Hcov _]. specialize (Hcov lt k e Hlt Hel Ht). lia.
Qed.

(** What was held stays held, or the sender lacks it. *)
Lemma splice_keeps t k :
  t ≤ currentTerm rf → own L t k → holds L t k (log rf) → holds L t k (take m lt) ∨ lost L t k (ae_Term args).
Proof.
  intros Ht Hown Hh. destruct (decide (t = ae_Term args)) as [->|Hne].
  - left. apply holds_take; [|by apply request_covers_own]. apply holds_own_log; [done|].
    destruct Hown as (lt0 & e & ? & He & _). simplify_eq. by eapply lookup_lt_Some.
  - destruct (own_range _ _ _ Hown) as (lt0 & Hlt0 & Hk). destruct (decide (take (S k) lt0 `prefix_of` lt)) as [Hp|Hp].
    + assert (holds L t k lt) as Hhl by (by exists lt0). left. apply holds_take; [done|]. by eapply request_covers_older.
    + right. exists (ae_Term args), lt. split_and!; [lia|lia|done|]. intros (l1 & ? & _ & ?). by simplify_eq.
Qed.

(** What may be committed stays so. *)
Lemma splice_commit c :
  commit_ok n (acks s) L (currentTerm rf) c (log rf) → commit_ok n (acks s) L (ae_Term args) c (take m lt).
Proof.
  intros [?|(t & k & Hch & Ht & Hc & Hh)]; [by left|right]. exists t, k. split_and!; [done|lia|done|].
  destruct (decide (t = ae_Term args)) as [->|Hne].
  - apply holds_take; [|by apply request_covers_own]. apply holds_own_log; [done|].
    destruct Hh as (lt0 & ? & ? & _). by simplify_eq.
  - assert (holds L t k lt) as Hk by (by apply (leader_has_chosen n s V Hn Hinv t k Hch (ae_Term args)); [lia|]).
    apply holds_take; [by eapply holds_le|]. destruct Hch as [Hown _].
    pose proof (request_covers_older t k Hown Hne Hk). lia.
Qed.

Lemma request_commit c :
  c ≤ ae_LeaderCommit args → c < Z.of_nat m → commit_ok n (acks s) L (ae_Term args) c (take m lt).
Proof.
  intros Hc Hm. destruct (sv_sent n s V Hinv args Hargs) as (_ & lt' & Hlt' & Hok). simplify_eq.
  destruct Hok as [?|(t & k & Hch & Ht & Hk & Hh)]; [left; lia|right]. exists t, k.
  split_and!; [done|done|lia|]. apply holds_take; [|lia]. eapply holds_le; [|exact Hh]. lia.
Qed.

End append.
Lemma acked_union A i t k j u m : acked ({[(i, t, m)]} ∪ A) j u k → acked A j u k ∨ j = i ∧ u = t ∧ (k ≤ m)%nat.
Proof.
  intros (k' & Hk & [Heq%elem_of_singleton|Hin]%elem_of_union); [right|left; by exists k'].
  by simplify_eq.
Qed.

Lemma safe_append s V i args rf rf' reply' :
  0 < n → safe_inv n s V → peer_at s i = Some rf → args ∈ lc_sent (ac_log s) →
  AppendEntries args ae_reply0 rf = Some (rf', reply') →
  safe_inv n (MkAck (peer_moved i rf' (lc_sent (ac_log s)) s)
    (if Success reply'
     then {[(i, ae_Term args, Z.to_nat (PrevLogIndex args) + length (Entries args))%nat]} ∪ acks s
     else acks s)) V.
Proof.
  intros Hn Hinv Hi Ha Hr. pose proof (li_peers n _ (sv_log n s V Hinv) i rf Hi) as Hpl.
  assert (log_step n (ac_log s) (peer_moved i rf' (lc_sent (ac_log s)) s)) as Hstep by (by eapply log_append).
  assert (role_step rf rf') as Hrole by (by eapply vote_frame_role, AppendEntries_frame).
  pose proof (AppendEntries_saved _ _ _ _ Hr) as Hsaved.
  apply AppendEntries_cases in Hr as [(_ & -> & Hf & _)|(Hle & _ & l & ci & k1 & k2 & Heq & Hc)]; [| |done].
  { rewrite Hf. apply (safe_inv_frame n Hn s V _ i rf rf); try done; [eauto|by left|by apply log_frame_same]. }
  assert (currentTerm rf' = ae_Term args ∧ log rf' = l ∧ commitIndex rf' = ci ∧ state rf' = FOLLOWER
    ∧ raftstate (persister rf') = Some (getPersistData rf')) as (Ht & Hl & Hci & Hst & Hsv) by (by rewrite Heq).
  clear Heq. destruct Hc as [(Hf & -> & ->)|(Hf & -> & [Hp0 Hp1] & Hpt & Hooo & Hcc)]; rewrite Hf.
  { apply (safe_inv_frame n Hn s V _ i rf rf'); try done; [eauto|by left| |lia]. constructor; [done| | |].
    - destruct Hsaved as [->|(_ & ? & _)]; done.
    - right. exists rf'. split_and!; try done. by destruct Hsaved as [->|(_ & ? & _)].
    - destruct Hsaved as [->|(_ & _ & ?)]; done. }
  destruct (splice_leader_log (lc_leader_logs (ac_log s)) args rf Hpl) as (lt & Hlt & Hspl); [..|done|done|].
  { by apply (li_sent n _ (sv_log n s V Hinv)). }
  { intros t l Hl'. destruct (li_leaders n _ (sv_log n s V Hinv) t l Hl') as (? & ? & _). done. }
  rewrite Hspl in Hl. pose proof (pl_snap _ _ Hpl) as Hsn. rewrite Hsn in Hp0.
  assert (S (Z.to_nat (PrevLogIndex args) + length (Entries args)) ≤ length lt)%nat as Hm.
  { assert (length (spliced_log args rf) = S (Z.to_nat (PrevLogIndex args) + length (Entries args))) as Hlen.
    { unfold spliced_log. rewrite length_app, length_take. unfold lastIndex in Hp1. lia. }
    rewrite Hspl, length_take in Hlen. lia. }
  destruct (sv_peers n s V Hinv i rf Hi) as [[Pt Pa Pc] _].
  assert (state rf' ≠ LEADER) as Hnl by (by rewrite Hst).
  apply (safe_inv_no_vote n Hn s V _ i rf rf'); try done; [eauto|by left|by rewrite Hst|set_solver|..].
  - rewrite note_leader_other by done. intros j t k [Heq%elem_of_singleton|Hin]%elem_of_union; [right|by left].
    simplify_eq. split_and!; [done|done|]. exists lt. split; [done|lia].
  - rewrite note_leader_other by done. intros _. enough (peer_ok n ({[(i, ae_Term args, (Z.to_nat (PrevLogIndex args) + length (Entries args))%nat)]} ∪ acks s) (lc_leader_logs (ac_log s)) i rf') as Hok.
    { split; [done|]. exists rf'. split; [|done]. unfold restored. by rewrite Hsv. }
    constructor; rewrite ?Ht, Hl, ?Hci.
    + apply Forall_take. by destruct (sv_leaders n s V Hinv _ _ Hlt) as (_ & ? & _).
    + intros t k [Hold|(_ & -> & Hk)]%acked_union.
      * destruct (Pa t k Hold) as [Htt Hkeep]. split; [lia|]. intros Hown.
        destruct (Hkeep Hown) as [Hh|Hlost]; [by eapply splice_keeps|right; by eapply lost_le].
      * split; [done|]. intros _. left. apply holds_take; [|lia]. apply holds_own_log; [done|lia].
    + eapply (commit_ok_grow n (acks s) _ _ _ (ae_Term args)); [set_solver|apply grows_logs, grows_refl|done|].
      destruct Hcc as [->|[_ ->]]; [by eapply splice_commit|]. eapply request_commit; [done..|lia|lia].
Qed.

Lemma Start_result c rf rf' index term b :
  Start c rf = Some (rf', (index, term, b)) →
  index = lastIndex rf + 1 ∧ term = currentTerm rf ∧ b = bool_decide (state rf = LEADER)
  ∧ commitIndex rf' = commitIndex rf.
Proof.
  unfold Start. destruct (lastLogTermIndex rf) as [[lt li]|] eqn:Hl; cbn [mbind option_bind]; [|done].
  apply lastLogTermIndex_Some in Hl as (_ & -> & _). case_bool_decide; [|by intros [= <- <- <- <-]].
  destruct (slice_set (nextIndex _) _ _) as [nx|]; cbn [mbind option_bind]; [|done].
  destruct (slice_set (matchIndex _) _ _) as [mt|]; cbn [mbind option_bind]; [|done].
  by intros [= <- <- <- <-].
Qed.

Lemma Start_snapshot c rf rf' r : Start c rf = Some (rf', r) → snapshot (persister rf') = snapshot (persister rf).
Proof.
  unfold Start. destruct (lastLogTermIndex rf) as [[lt li]|]; cbn [mbind option_bind]; [|done].
  case_bool_decide; [|by intros [= <- _]].
  destruct (slice_set (nextIndex _) _ _) as [nx|]; cbn [mbind option_bind]; [|done].
  destruct (slice_set (matchIndex _) _ _) as [mt|]; cbn [mbind option_bind]; [|done].
  by intros [= <- _].
Qed.

Lemma safe_start s V i c rf rf' index term (isLeader : bool) :
  0 < n → safe_inv n s V → peer_at s i = Some rf → Start c rf = Some (rf', (index, term, isLeader)) →
  safe_inv n (MkAck (peer_moved i rf' (lc_sent (ac_log s)) s)
    (if isLeader then {[(i, term, Z.to_nat index)]} ∪ acks s else acks s)) V.
Proof.
  intros Hn Hinv Hi Hr. pose proof (li_peers n _ (sv_log n s V Hinv) i rf Hi) as Hpl.
  assert (log_step n (ac_log s) (peer_moved i rf' (lc_sent (ac_log s)) s)) as Hstep by (by eapply log_start).
  assert (role_step rf rf') as Hrole by (by eapply vote_frame_role, Start_frame).
  pose proof (Start_result _ _ _ _ _ _ Hr) as (-> & -> & -> & Hci).
  assert (log rf ≠ []) as Hne by (intros He; pose proof (pl_head _ _ Hpl) as Hh; by rewrite He in Hh).
  apply Start_log in Hr as [[-> Hs]|(Hs & Hs' & Ht & Hl & Hsn & rfp & Hsv & Hp1 & Hp2 & Hp3 & Hp4)]; [| |done].
  { rewrite bool_decide_eq_false_2 by done.
    apply (safe_inv_frame n Hn s V _ i rf rf); try done; [eauto|by left|by apply log_frame_same]. }
  rewrite bool_decide_eq_true_2 by done. rewrite (lastIndex_log _ _ Hpl).
  replace (Z.to_nat (len (log rf) - 1 + 1)) with (length (log rf)) by lia.
  assert (note_leader rf' (lc_leader_logs (ac_log s)) !! currentTerm rf = Some (log rf')) as HL'.
  { unfold note_leader. rewrite bool_decide_eq_true_2, Ht by done. apply lookup_insert_eq. }
  apply (safe_inv_no_vote n Hn s V _ i rf rf'); try done; [eauto|by left| | |set_solver|..].
  - intros _. rewrite Hl, Ht. eexists. split; [done|]. by apply Forall_singleton.
  - by rewrite Hs'.
  - intros j t k [Heq%elem_of_singleton|Hin]%elem_of_union; [right|by left]. simplify_eq.
    split_and!; [done|done|]. exists (log rf'). split; [done|]. rewrite Hl, length_app. simpl. lia.
  - intros Hg. destruct (sv_peers n s V Hinv i rf Hi) as [[Pt Pa Pc] _].
    assert (∀ rf1 : Raft C, log rf1 = log rf' → currentTerm rf1 = currentTerm rf → commitIndex rf1 = commitIndex rf →
      peer_ok n ({[(i, currentTerm rf, length (log rf))]} ∪ acks s) (note_leader rf' (lc_leader_logs (ac_log s))) i rf1) as Hok.
    { intros rf1 Hl1 Ht1 Hc1. constructor; rewrite Hl1, ?Ht1, ?Hc1.
      - rewrite Hl. apply Forall_app_2; [done|]. by apply Forall_singleton.
      - intros t k [Hold|(_ & -> & Hk)]%acked_union.
        + destruct (Pa t k Hold) as [Htt Hkeep]. split; [done|]. intros Hown.
          destruct (kept_grow _ _ t k (currentTerm rf) (currentTerm rf) _ Hg (Z.le_refl _) (sv_acked n s V i Hinv t k Hold) Hkeep Hown) as [Hh|?];
            [left|by right]. eapply holds_prefix; [|exact Hh]. rewrite Hl. by eexists.
        + split; [done|]. intros _. left. apply holds_own_log; [done|]. rewrite Hl, length_app. simpl. lia.
      - apply (commit_ok_grow n _ ({[(i, currentTerm rf, length (log rf))]} ∪ acks s) _ _ _ (currentTerm rf) _ _
          (union_subseteq_r _ _) (grows_logs _ _ Hg) (Z.le_refl _)) in Pc. destruct Pc as [?|(t & k & ? & ? & ? & Hh)]; [by left|right]. exists t, k.
        split_and!; [done|done|done|]. eapply holds_prefix; [|exact Hh]. rewrite Hl. by eexists. }
    split; [by apply Hok|]. exists rfp. split; [unfold restored; by rewrite Hsv|]. apply Hok; congruence.
Qed.
(** ** Commits *)

(** The peers a leader counts for an index. *)
Lemma matched_set (c : Z) (ts : list Z) :
  ∃ Q : gset Z, Z.of_nat (size Q) = matched c ts ∧ ∀ v, v ∈ Q → ∃ m, ts.[v] = Some m ∧ c ≤ m.
Proof.
  induction ts as [|t ts (Q & Hsz & HQ)] using rev_ind.
  { exists ∅. split; [done|]. intros v Hv. by apply elem_of_empty in Hv. }
  assert (∀ v, v ∈ Q → v < len ts ∧ ∃ m, (ts ++ [t]).[v] = Some m ∧ c ≤ m) as Hold.
  { intros v Hv. destruct (HQ v Hv) as (m & Hm & Hc). pose proof Hm as [Hr _]%slice_get_Some.
    assert (v < len ts) by (apply slice_get_Some in Hm as [? Hm%lookup_lt_Some]; lia).
    split; [done|]. exists m. by rewrite slice_get_app_l by lia. }
  unfold matched in *. rewrite filter_app, filter_cons, filter_nil. case_decide as Hc.
  - exists ({[len ts]} ∪ Q). split.
    + rewrite size_union, size_singleton, length_app by (apply disjoint_singleton_l; intros Hv; apply Hold in Hv; lia).
      simpl. lia.
    + intros v [->%elem_of_singleton|Hv]%elem_of_union; [|by apply Hold]. exists t.
      rewrite slice_get_app_r by lia. by rewrite Z.sub_diag.
  - exists Q. rewrite app_nil_r. split; [done|]. intros v Hv. by apply Hold.
Qed.

(** The commit index moves only on a leader, to an index a majority matches. *)
Lemma AE_result_commit index args reply rf rf' next :
  0 ≤ peers rf → AE_result index args reply rf = Some (rf', next) →
  commitIndex rf' = commitIndex rf
  ∨ state rf' = LEADER ∧ currentTerm rf' = currentTerm rf ∧ persister rf' = persister rf
    ∧ commitIndex rf < commitIndex rf'
    ∧ Z.quot (peers rf) 2 < matched (commitIndex rf') (matchIndex rf').
Proof.
  intros Hp. unfold AE_result. destruct (_ >? _); [intros [= <- _]; by left|].
  destruct (negb (bool_decide (state rf = LEADER)) || _) eqn:Hs; [intros [= <- _]; by left|].
  apply orb_false_iff in Hs as [Hs%negb_false_iff%bool_decide_eq_true _].
  destruct (Success reply).
  - destruct ((nextIndex rf).[index]) as [nx|]; cbn [mbind option_bind]; [|done].
    destruct (slice_set (nextIndex rf) _ _) as [nxs|]; cbn [mbind option_bind]; [|done].
    destruct (_.[index]) as [nx'|]; cbn [mbind option_bind]; [|done].
    destruct (slice_set (matchIndex _) _ _) as [ms|]; cbn [mbind option_bind]; [|done].
    set (rf1 := rf <| nextIndex := nxs |> <| matchIndex := ms |>). intros Hr. injection Hr as Hr _.
    assert (rf' = rf1 ∨ rf' = LeaderCommit rf1) as [->| ->]; [|by left|].
    { rewrite <-Hr. match goal with |- context [if ?b then _ else _] => destruct b end; [by right|by left]. }
    unfold LeaderCommit. set (b := commitIndex rf1 + 1).
    destruct (decide (0 ≤ len (log rf1) + lastSnapshotIndex rf1 - b + 1)) as [Hb|Hb].
    + destruct (LeaderCommit_loop rf1 b (Z.to_nat (len (log rf1) + lastSnapshotIndex rf1 - b + 1)))
        as (c & Hc & Hcc & _); [done|lia|]. rewrite Z2Nat.id in Hc by done. rewrite Hc. simpl.
      destruct Hcc as [->|[Hr1 Hm]]; [by left|right]. split_and!; [done|done|done| |exact Hm]. simpl in b. lia.
    + left. by rewrite seqZ_nil by lia.
  - destruct (_ =? -1); [intros [= <- _]; by left|]. intros Hr. left.
    match type of Hr with (?e ≫= _) = _ => destruct e as [N|]; cbn [mbind option_bind] in Hr; [|done] end.
    destruct (slice_set (nextIndex rf) _ _) as [nxs|]; cbn [mbind option_bind] in Hr; [|done].
    destruct (slice_set (matchIndex _) _ _) as [ms|]; cbn [mbind option_bind] in Hr; [|done].
    by injection Hr as <- _.
Qed.

Lemma safe_commit s V i index args reply rf rf' next :
  0 < n → safe_inv n s V → peer_at s i = Some rf →
  AE_result index args reply rf = Some (rf', next) → commit_confirmed (acks s) rf' →
  safe_inv n (MkAck (peer_moved i rf' (lc_sent (ac_log s)) s) (acks s)) V.
Proof.
  intros Hn Hinv Hi Hr [Hown Hcount]. pose proof (li_peers n _ (sv_log n s V Hinv) i rf Hi) as Hpl.
  destruct (ci_servers n _ (li_cluster n _ (sv_log n s V Hinv)) i rf Hi) as [_ Hsi].
  assert (log_step n (ac_log s) (peer_moved i rf' (lc_sent (ac_log s)) s)) as Hstep
    by (by eapply log_quiet, quiet_AE_result).
  pose proof (AE_result_frame _ _ _ _ _ _ Hr) as Hvf. pose proof (vote_frame_role _ _ Hvf) as Hrole.
  pose proof (AE_result_log_frame _ _ _ _ _ _ Hr) as Hlf. pose proof (lf_log _ _ Hlf) as Hl.
  destruct (AE_result_commit _ _ _ _ _ _ ltac:(rewrite (si_peers _ _ _ _ Hsi); lia) Hr) as [Hc|(Hs & Ht & Hp & Hlt & Hmaj)].
  { apply (safe_inv_frame n Hn s V _ i rf rf'); try done; [eauto|by left|by apply vote_frame_term]. }
  apply (safe_inv_no_vote n Hn s V _ i rf rf'); try done; [eauto|by left| |by left|..].
  { intros _. exists []. by rewrite app_nil_r. }
  intros Hg. destruct (sv_peers n s V Hinv i rf Hi) as [Hok (rfp & Hres & Hokp)]. split.
  - pose proof (peer_ok_move n (acks s) (acks s) _ _ i rf (rf' <| commitIndex := commitIndex rf |>) Hg
      ltac:(done) (sv_acked n s V i Hinv) ltac:(done) Hl eq_refl ltac:(simpl; lia) Hok) as [Pt Pa _]. simpl in *.
    constructor; [done|done|right].
    destruct (log rf' !! Z.to_nat (commitIndex rf')) as [e|] eqn:He; [|done]. simpl in Hown. injection Hown as Hte.
    assert (note_leader rf' (lc_leader_logs (ac_log s)) !! currentTerm rf' = Some (log rf')) as HL'.
    { unfold note_leader. rewrite bool_decide_eq_true_2 by done. apply lookup_insert_eq. }
    exists (currentTerm rf'), (Z.to_nat (commitIndex rf')). split_and!; [|done|done|].
    + split; [by exists (log rf'), e|]. destruct (matched_set (commitIndex rf') (matchIndex rf')) as (Q & Hsz & HQ).
      rewrite (si_peers _ _ _ _ Hsi) in Hmaj.
      assert (∀ j, j ∈ Q → acked (acks s) j (currentTerm rf') (Z.to_nat (commitIndex rf'))) as Hack.
      { intros j Hj. destruct (HQ j Hj) as (m & Hm & Hcm). by eapply Hcount. }
      exists Q. split_and!; [|pose proof (Z.quot_rem' n 2); pose proof (Z.rem_bound_pos n 2); lia|done].
      intros j Hj. destruct (Hack j Hj) as (k' & _ & Hin). by apply (sv_acks n s V Hinv) in Hin as [? _].
    + apply holds_own_log; [done|]. by eapply lookup_lt_Some.
  - exists rfp. split; [unfold restored in *; by rewrite Hp|].
    apply (peer_ok_move n (acks s) (acks s) _ _ i rfp rfp Hg); try done. by eapply sv_acked.
Qed.

Lemma safe_crash s V i rf rf' :
  0 < n → safe_inv n s V → peer_at s i = Some rf → Make n i (persister rf) = Some rf' →
  safe_inv n (MkAck (peer_moved i rf' (lc_sent (ac_log s)) s) (acks s)) V.
Proof.
  intros Hn Hinv Hi Hm. pose proof (li_peers n _ (sv_log n s V Hinv) i rf Hi) as Hpl.
  assert (log_step n (ac_log s) (peer_moved i rf' (lc_sent (ac_log s)) s)) as Hstep by (by eapply log_crash).
  destruct (Make_log n i rf rf' (pl_saved _ _ Hpl) Hm) as (Hl & _ & Hst & Hp).
  destruct (sv_peers n s V Hinv i rf Hi) as [_ (rfp & Hres & Hokp)].
  assert (currentTerm rf' = currentTerm rfp ∧ log rf' = log rfp ∧ commitIndex rf' = commitIndex rfp) as (Ht & Hlp & Hc).
  { unfold restored, Make, ReadRaftState in *. destruct (make_slice n 0); cbn [mbind option_bind] in Hm; [|done].
    destruct (raftstate (persister rf)) as [bs|].
    - subst bs. rewrite readPersist_getPersistData in Hm. cbn [mbind option_bind] in Hm. by injection Hm as <-.
    - destruct Hres as (-> & -> & ->). cbn in Hm. by injection Hm as <-. }
  apply (safe_inv_no_vote n Hn s V _ i rf rf'); try done; [by constructor; rewrite Hst|eauto|by left|by rewrite Hst|by left|].
  intros Hg.
  split; [|exists rfp; split; [unfold restored in *; by rewrite Hp|]];
    (apply (peer_ok_move n (acks s) (acks s) _ _ i rfp _ Hg); try done; first [by eapply sv_acked|lia]).
Qed.
Lemma safe_send s V i index rf rf' args :
  0 < n → safe_inv n s V → peer_at s i = Some rf → AE_prepare index rf = Some (rf', Some args) →
  safe_inv n (MkAck (peer_moved i rf' (args :: lc_sent (ac_log s)) s) (acks s)) V.
Proof.
  intros Hn Hinv Hi Hr. pose proof (li_peers n _ (sv_log n s V Hinv) i rf Hi) as Hpl.
  assert (log_step n (ac_log s) (peer_moved i rf' (args :: lc_sent (ac_log s)) s)) as Hstep by (by eapply log_send).
  pose proof (AE_prepare_frame _ _ _ _ Hr) as Hvf. pose proof (AE_prepare_log_frame _ _ _ _ Hr) as Hlf.
  assert (commitIndex rf' = commitIndex rf) as Hc.
  { unfold AE_prepare, resetAETimer in Hr. by run_option. }
  apply AE_prepare_describes in Hr as (Hs & _ & _ & Ht & Hlc & Hrange & _ & He).
  apply (safe_inv_frame n Hn s V _ i rf rf'); try done; [by apply vote_frame_role|eauto| |by apply vote_frame_term].
  intros a [->|Ha]%elem_of_cons; [right|by left]. pose proof (pl_leader _ _ Hpl Hs) as HL.
  unfold sent_covers. rewrite Ht, HL, Hlc. split.
  - intros lt k e [= <-] Hk%lookup_lt_Some _. rewrite He, length_drop, (pl_snap _ _ Hpl).
    unfold lastIndex in Hrange. rewrite (pl_snap _ _ Hpl) in Hrange. lia.
  - exists (log rf). split; [done|]. by destruct (sv_peers n s V Hinv i rf Hi) as [[_ _ ?] _].
Qed.

(** The leader logs do not depend on which of the peers that did not change is named. *)
Lemma note_leader_same s V i j rf rf' rfj rfj' :
  safe_inv n s V → peer_at s i = Some rf → peer_at s j = Some rfj →
  <[i := rf']> (servers (lc_cluster (ac_log s))) = <[j := rfj']> (servers (lc_cluster (ac_log s))) →
  note_leader rf' (lc_leader_logs (ac_log s)) = note_leader rfj' (lc_leader_logs (ac_log s)).
Proof.
  intros Hinv Hi Hj Heq.
  assert (∀ k rfk, peer_at s k = Some rfk → note_leader rfk (lc_leader_logs (ac_log s)) = lc_leader_logs (ac_log s)) as Hid.
  { intros k rfk Hk. unfold note_leader. case_bool_decide; [|done]. apply insert_id.
    by apply (pl_leader _ _ (li_peers n _ (sv_log n s V Hinv) k rfk Hk)). }
  destruct (decide (i = j)) as [->|Hne].
  - apply (f_equal (lookup j)) in Heq. rewrite !lookup_insert_eq in Heq. by simplify_eq.
  - pose proof (f_equal (lookup i) Heq) as Hli. rewrite lookup_insert_eq, lookup_insert_ne in Hli by done.
    pose proof (f_equal (lookup j) Heq) as Hlj. rewrite lookup_insert_eq, lookup_insert_ne in Hlj by done.
    rewrite (Hid i), (Hid j); [done|..]; unfold peer_at; congruence.
Qed.

Lemma ack_step_inv s s' V : 0 < n → safe_inv n s V → ack_step n s s' → ∃ V', safe_inv n s' V'.
Proof.
  intros Hn Hinv Hstep. pose proof (ack_step_log n s s' Hstep) as Hls.
  destruct Hstep as [i rf rf' Hi Hq Hc|i index args reply rf rf' next Hi Hr Hc|i index rf rf' args Hi Hr
    |i args rf rf' reply' Hi Ha Hr|i c rf rf' index term b Hi Hr|cs' i rf rf' He Hcmp Hi Hs|i rf rf' Hi Hr].
  - exists V. pose proof (li_peers n _ (sv_log n s V Hinv) i rf Hi) as Hpl.
    pose proof (local_step_frame _ _ (quiet_local _ _ Hq)) as Hvf.
    apply (safe_inv_frame n Hn s V _ i rf rf'); try done; [by apply vote_frame_role|eauto|by left| |by apply vote_frame_term].
    apply quiet_log_frame; [by apply (pl_snap _ _ Hpl)|done].
  - exists V. by eapply safe_commit.
  - exists V. by eapply safe_send.
  - exists V. by eapply safe_append.
  - exists V. by eapply safe_start.
  - destruct (safe_election n s V cs' Hn Hinv He Hcmp) as (j & rfj & rfj' & V' & Hj & Hsj & HV'). exists V'.
    rewrite Hs in Hsj. by rewrite (note_leader_same s V i j rf rf' rfj rfj').
  - exists V. by eapply safe_crash.
Qed.

Lemma ack_init_inv cs : 0 < n → cluster_init n cs → safe_inv n (MkAck (MkLogCluster cs [] ∅) ∅) ∅.
Proof.
  intros Hn Hinit. pose proof (log_init_inv n cs Hn Hinit) as Hli. destruct Hinit as (_ & He & Hv & Hmk).
  constructor; simpl; try done.
  - intros i rf Hi. specialize (Hmk i rf Hi). assert (peer_ok n ∅ ∅ i rf ∧ restored rf rf) as [Hok Hr].
    { unfold Make in Hmk. simpl in Hmk. destruct (make_slice n 0); simplify_eq/=. split; [|done].
      constructor; simpl; [by apply Forall_singleton| |by left].
      intros t k (k' & _ & Hin). by apply elem_of_empty in Hin. }
    split; [done|by exists rf].
  - intros i t c. by rewrite Hv.
  - intros k e. by rewrite He.
  - intros args Ha. by apply elem_of_nil in Ha.
Qed.

Lemma ack_steps_inv s s' V : 0 < n → safe_inv n s V → rtc (ack_step n) s s' → ∃ V', safe_inv n s' V'.
Proof.
  intros Hn Hinv Hs. revert V Hinv. induction Hs as [s|s s1 s2 Hstep _ IH]; intros V Hinv; [by exists V|].
  destruct (ack_step_inv s s1 V Hn Hinv Hstep) as [V1 Hinv1]. by eapply IH.
Qed.

Lemma ack_reachable_inv s : 0 < n → ack_reachable n s → ∃ V, safe_inv n s V.
Proof. intros Hn (cs & Hi & Hr). eapply ack_steps_inv; [done| |exact Hr]. by apply ack_init_inv. Qed.

(** The peer that moves in a step, and its persister's snapshot, which stays. *)
Lemma ack_step_mover s s' V :
  0 < n → safe_inv n s V → ack_step n s s' →
  ∃ i rf rf', peer_at s i = Some rf ∧ servers (lc_cluster (ac_log s')) = <[i := rf']> (servers (lc_cluster (ac_log s)))
    ∧ lc_leader_logs (ac_log s') = note_leader rf' (lc_leader_logs (ac_log s))
    ∧ snapshot (persister rf') = snapshot (persister rf).
Proof.
  intros Hn Hinv Hstep.
  assert (∀ i rf, peer_at s i = Some rf → peer_log (lc_leader_logs (ac_log s)) rf) as Hpl
    by (intros i rf Hi; apply (li_peers n _ (sv_log n s V Hinv) i rf Hi)).
  destruct Hstep as [i rf rf' Hi Hq Hc|i index args reply rf rf' next Hi Hr Hc|i index rf rf' args Hi Hr
    |i args rf rf' reply' Hi Ha Hr|i c rf rf' index term b Hi Hr|cs' i rf rf' He Hcmp Hi Hs|i rf rf' Hi Hr];
    exists i, rf, rf'; (split_and!; [exact Hi| |reflexivity|]); try reflexivity.
  - apply lf_snapshot, quiet_log_frame; [by apply (pl_snap _ _ (Hpl i rf Hi))|done].
  - by eapply lf_snapshot, AE_result_log_frame.
  - by eapply lf_snapshot, AE_prepare_log_frame.
  - by destruct (AppendEntries_saved _ _ _ _ Hr) as [->|(_ & _ & ?)].
  - by eapply Start_snapshot.
  - exact Hs.
  - destruct (election_step_peer n _ _ i rf He Hi) as (rf2 & Hi2 & Hf). rewrite Hs, lookup_insert_eq in Hi2.
    simplify_eq. apply Hf.
  - destruct (Make_log n i rf rf' (pl_saved _ _ (Hpl i rf Hi)) Hr) as (_ & _ & _ & ->). done.
Qed.

(** ** Properties *)

Lemma ack_steps_log s s' : rtc (ack_step n) s s' → rtc (log_step n) (ac_log s) (ac_log s').
Proof. induction 1 as [|s s1 s2 Hs _ IH]; [done|]. econstructor; [by apply ack_step_log|done]. Qed.

Lemma ack_steps_acks s s' : rtc (ack_step n) s s' → acks s ⊆ acks s'.
Proof.
  induction 1 as [|s s1 s2 Hs _ IH]; [done|]. etrans; [|exact IH].
  destruct Hs; simpl; try done; case_match; set_solver.
Qed.

(** What a peer has committed, at a later moment. *)
Lemma commit_later s s' V i rf :
  0 < n → safe_inv n s V → rtc (ack_step n) s s' → peer_at s i = Some rf →
  commit_ok n (acks s') (lc_leader_logs (ac_log s')) (currentTerm rf) (commitIndex rf) (log rf).
Proof.
  intros Hn Hinv Hs Hi. destruct (sv_peers n s V Hinv i rf Hi) as [[_ _ Hc] _].
  eapply commit_ok_grow; [by apply ack_steps_acks| |done|exact Hc].
  by apply (log_steps_inv n _ _ Hn (sv_log n s V Hinv) (ack_steps_log _ _ Hs)).
Qed.

(** Two committed prefixes are the same as far as both go. *)
Lemma commit_agree s V T T' c c' l l' (k : nat) :
  0 < n → safe_inv n s V →
  commit_ok n (acks s) (lc_leader_logs (ac_log s)) T c l → commit_ok n (acks s) (lc_leader_logs (ac_log s)) T' c' l' →
  (0 < k)%nat → Z.of_nat k ≤ c → Z.of_nat k ≤ c' → ∃ e, l !! k = Some e ∧ l' !! k = Some e.
Proof.
  intros Hn Hinv. revert T T' c c' l l'.
  enough (∀ t t' k1 k2 c c' l l', chosen n (acks s) (lc_leader_logs (ac_log s)) t k1 →
    t ≤ t' → holds (lc_leader_logs (ac_log s)) t c l → holds (lc_leader_logs (ac_log s)) t' c' l' →
    (c ≤ k1)%nat → (c' ≤ k2)%nat → (k ≤ c)%nat → (k ≤ c')%nat →
    ∃ e, l !! k = Some e ∧ l' !! k = Some e) as Hle.
  { intros T T' c c' l l' [?|(t & k1 & Hch & _ & Hc & Hh)] [?|(t' & k2 & Hch' & _ & Hc' & Hh')] Hk ??; [lia..|].
    destruct (decide (t ≤ t')) as [Ht|Ht].
    - by apply (Hle t t' k1 k2 (Z.to_nat c) (Z.to_nat c')); try done; lia.
    - destruct (Hle t' t k2 k1 (Z.to_nat c') (Z.to_nat c) l' l) as (e & ? & ?); try done; try lia. by exists e. }
  intros t t' k1 k2 c c' l l' Hch Ht Hh Hh' Hc Hc' Hk Hk'. pose proof Hh' as (lt' & Hlt' & Hlen & _).
  assert (holds (lc_leader_logs (ac_log s)) t c lt') as Hin.
  { destruct (decide (t = t')) as [->|Hne].
    - apply holds_own_log; [done|]. destruct Hh as (lt & ? & ? & _). by simplify_eq.
    - eapply holds_le; [exact Hc|]. apply (leader_has_chosen n s V Hn Hinv t k1 Hch t'); [lia|done]. }
  destruct (lookup_lt_is_Some_2 lt' k) as [e He]; [lia|]. exists e.
  pose proof Hh as (lt & Hlt & _). split; [|by rewrite (holds_lookup _ _ _ _ _ k Hh' Hlt')].
  rewrite (holds_lookup _ _ _ _ _ k Hh Hlt), <-(holds_lookup _ _ _ _ _ k Hin Hlt) by done. done.
Qed.

(** C8. Leader completeness: what a peer has committed is in the log of every peer that leads
    its term or a later one, then and ever after; provided that leaders commit only entries of
    their own term that the peers they count have confirmed, that votes compare logs, and
    that no peer compacts its log. *)
Theorem leader_completeness s s' i j rfi rfj :
  0 < n → ack_reachable n s → rtc (ack_step n) s s' →
  peer_at s i = Some rfi → peer_at s' j = Some rfj →
  state rfj = LEADER → currentTerm rfi ≤ currentTerm rfj →
  take (S (Z.to_nat (commitIndex rfi))) (log rfi) `prefix_of` log rfj.
Proof.
  intros Hn Hr Hs Hi Hj Hl Ht. destruct (ack_reachable_inv s Hn Hr) as [V Hinv].
  destruct (ack_steps_inv s s' V Hn Hinv Hs) as [V' Hinv'].
  pose proof (commit_later s s' V i rfi Hn Hinv Hs Hi) as Hc.
  pose proof (li_peers n _ (sv_log n s V Hinv) i rfi Hi) as Hpi.
  pose proof (li_peers n _ (sv_log n s' V' Hinv') j rfj Hj) as Hpj. pose proof (pl_leader _ _ Hpj Hl) as HL.
  destruct Hc as [Hc|(t & k & Hch & Htt & Hk & Hh)].
  - replace (Z.to_nat (commitIndex rfi)) with 0%nat by lia. pose proof (pl_head _ _ Hpi). pose proof (pl_head _ _ Hpj).
    destruct (log rfi), (log rfj); simplify_eq/=. rewrite take_0. by apply prefix_cons, prefix_nil.
  - assert (holds (lc_leader_logs (ac_log s')) t (Z.to_nat (commitIndex rfi)) (log rfj)) as Hhj.
    { destruct (decide (t = currentTerm rfj)) as [->|Hne].
      - apply holds_own_log; [done|]. destruct Hh as (lt & ? & ? & _). by simplify_eq.
      - eapply holds_le; [exact Hk|]. apply (leader_has_chosen n s' V' Hn Hinv' t k Hch (currentTerm rfj)); [lia|done]. }
    destruct Hhj as (lt & Hlt & Hlen & Hp), Hh as (lt' & Hlt' & _ & [x ->]). simplify_eq.
    rewrite take_app_le by (rewrite length_take; lia). by rewrite take_take, Nat.min_id.
Qed.

(** What [Apply] collects on a peer that has compacted nothing. *)
Lemma Apply_collect_spec rf ms :
  lastSnapshotIndex rf = 0 → 0 ≤ lastApplied rf → Apply_collect rf = Some ms →
  lastApplied rf ≤ commitIndex rf ∧ len ms = commitIndex rf - lastApplied rf
  ∧ ∀ j m, ms !! j = Some m → ∃ e, log rf !! Z.to_nat (CommandIndex m) = Some e
      ∧ m = MkApplyMsg true (Command e) (lastApplied rf + 1 + Z.of_nat j).
Proof.
  intros Hsn Ha. unfold Apply_collect. rewrite Hsn. destruct (Z.ltb_spec (lastApplied rf) 0); [lia|].
  destruct (Z.ltb_spec (commitIndex rf - lastApplied rf) 0); [done|].
  intros Hm%mapM_Some_1. pose proof (Forall2_length _ _ _ Hm) as Hlen. rewrite length_seqZ in Hlen.
  split_and!; [lia|lia|]. intros j m Hj.
  destruct (Forall2_lookup_r _ _ _ _ _ Hm Hj) as (idx & Hidx & Hf).
  apply lookup_seqZ in Hidx as [-> Hlt]. unfold getRealLogIndex in Hf. rewrite Hsn, Z.sub_0_r in Hf.
  destruct (Z.ltb_spec (lastApplied rf + 1 + Z.of_nat j) 0); [lia|].
  destruct ((log rf).[_]) as [e|] eqn:He; [|done]. cbn [mbind option_bind] in Hf. injection Hf as <-. simpl.
  exists e. split; [|done]. by apply slice_get_Some in He as [_ ?].
Qed.

Lemma Apply_message rf rf' ms m :
  lastSnapshotIndex rf = 0 → Apply rf = Some (rf', ms) → m ∈ ms → 0 < CommandIndex m →
  CommandIndex m ≤ commitIndex rf ∧ ∃ e, log rf !! Z.to_nat (CommandIndex m) = Some e ∧ m = MkApplyMsg true (Command e) (CommandIndex m).
Proof.
  intros Hsn. unfold Apply. destruct (Apply_collect rf) as [ms'|] eqn:Hc; cbn [mbind option_bind]; [|done].
  intros [= _ <-] Hin Hpos. destruct (decide (0 ≤ lastApplied rf)) as [Ha|Ha].
  - destruct (Apply_collect_spec rf ms' Hsn Ha Hc) as (Hle & Hlen & Hms).
    apply list_elem_of_lookup in Hin as [j Hj]. pose proof (lookup_lt_Some _ _ _ Hj).
    destruct (Hms j m Hj) as (e & He & ->). simpl in *. split; [lia|]. by exists e.
  - unfold Apply_collect in Hc. rewrite Hsn in Hc. destruct (Z.ltb_spec (lastApplied rf) 0); [|lia].
    injection Hc as <-. apply list_elem_of_singleton in Hin as ->. simpl in Hpos. lia.
Qed.

(** C2. State machine safety: no two peers deliver different commands at an index, at one
    moment or at two moments of an execution; under the conditions of [leader_completeness],
    each of which the code can break ([committed_logs_diverge], [stale_vote_diverges] and
    [LeaderCommit_commits_old_term] show how). *)
Theorem state_machine_safety s s' i j rfi rfj rfi' rfj' ms ms' m m' :
  0 < n → ack_reachable n s → rtc (ack_step n) s s' →
  peer_at s i = Some rfi → peer_at s' j = Some rfj →
  Apply rfi = Some (rfi', ms) → Apply rfj = Some (rfj', ms') → m ∈ ms → m' ∈ ms' →
  0 < CommandIndex m → CommandIndex m = CommandIndex m' → m = m'.
Proof.
  intros Hn Hr Hs Hi Hj Hai Haj Hm Hm' Hpos Heq. destruct (ack_reachable_inv s Hn Hr) as [V Hinv].
  destruct (ack_steps_inv s s' V Hn Hinv Hs) as [V' Hinv'].
  pose proof (commit_later s s' V i rfi Hn Hinv Hs Hi) as Hci.
  pose proof (commit_later s' s' V' j rfj Hn Hinv' (rtc_refl _ _) Hj) as Hcj.
  pose proof (pl_snap _ _ (li_peers n _ (sv_log n s V Hinv) i rfi Hi)) as Hsi.
  pose proof (pl_snap _ _ (li_peers n _ (sv_log n s' V' Hinv') j rfj Hj)) as Hsj.
  destruct (Apply_message rfi rfi' ms m Hsi Hai Hm Hpos) as (Hc & e & He & ->).
  destruct (Apply_message rfj rfj' ms' m' Hsj Haj Hm' ltac:(lia)) as (Hc' & e' & He' & ->). simpl in *.
  destruct (commit_agree s' V' _ _ _ _ _ _ (Z.to_nat (CommandIndex m)) Hn Hinv' Hci Hcj) as (e0 & He0 & He0'); [lia..|].
  rewrite Heq in *. congruence.
Qed.
End safety.

(** ** Witness: the leader of [LogDemo] commits its entry, and peer 1 learns of it. *)
Lemma votes_same_compared {C} `{EqDecision C, GoRand, GobCodec (RaftVal C)} (s : AckCluster C) cs' :
  votes cs' = votes (lc_cluster (ac_log s)) → votes_compared s cs'.
Proof. intros Hv k e j rf _ _ Hn Hs. rewrite Hv in Hs. congruence. Qed.

Module SafetyDemo.
Import RaftDemo.
Import ClusterDemo.
Import LogDemo.

Definition at_start (cs : Cluster Z) : AckCluster Z := MkAck (MkLogCluster cs [] ∅) ∅.
Definition a5 : AckCluster Z := MkAck l5 ∅.
Definition a6 : AckCluster Z := MkAck (peer_moved 0 rf6 [] a5) ({[(0, 1, 1%nat)]} ∪ ∅).
Definition a7 : AckCluster Z := MkAck (peer_moved 0 rf7 [ae] a6) (acks a6).
Definition a8 : AckCluster Z := MkAck (peer_moved 1 rf8 [ae] a7) ({[(1, 1, 1%nat)]} ∪ acks a7).
Definition rf9 : Raft Z := default dummy (fst <$> AE_result 1 ae (MkAEReply true 0 (-1) (-1) (-1) 0) rf7).
Definition a9 : AckCluster Z := MkAck (peer_moved 0 rf9 [ae] a8) (acks a8).
Definition rf10 : Raft Z := default dummy (fst <$> AE_prepare 1 rf9).
Definition ae2 : AppendEntriesArgs Z := MkAEArgs 1 0 1 1 [] 1.
Definition a10 : AckCluster Z := MkAck (peer_moved 0 rf10 [ae2; ae] a9) (acks a9).
Definition rf11 : Raft Z := default dummy (fst <$> AppendEntries ae2 ae_reply0 rf8).
Definition a11 : AckCluster Z := MkAck (peer_moved 1 rf11 [ae2; ae] a10) ({[(1, 1, 1%nat)]} ∪ acks a10).

Lemma a5_reachable : ack_reachable 3 a5.
Proof.
  exists s0. split; [exact s0_init|].
  apply (rtc_l _ _ (at_start s1)).
  { eapply (ack_election 3 (at_start s0) s1 0 (boot 3 0) rf0); [|intros k e j rf He; vm_compute in He; done|vm_compute; reflexivity|reflexivity].
    apply (step_election_begin 3 s0 0 0%nat (boot 3 0) rf0 args); vm_compute; reflexivity. }
  apply (rtc_l _ _ (at_start s2)).
  { eapply (ack_election 3 (at_start s1) s2 1 (boot 3 1) rf1); [| |vm_compute; reflexivity|reflexivity].
    - apply (step_request_vote 3 s1 0%nat run 1 (boot 3 1) rf1 reply); [..|vm_compute; reflexivity];
        [vm_compute; reflexivity| |vm_compute; reflexivity].
      apply (bool_decide_unpack _). vm_compute. exact I.
    - intros k e j rf He Hj Hv Hv' _. simpl in He. apply lookup_insert_Some in He as [[_ <-]|[_ He]]; [|done].
      simpl in Hv, Hv'. apply lookup_insert_Some in Hv' as [[[= <-] _]|[_ Hv']]; [|by rewrite Hv' in Hv].
      assert (rf = boot 3 1) as -> by (vm_compute in Hj; by injection Hj as <-). vm_compute. reflexivity. }
  apply (rtc_l _ _ (at_start s3)).
  { eapply (ack_election 3 (at_start s2) s3 0 rf0 rf0); [|by apply votes_same_compared|vm_compute; reflexivity|reflexivity].
    apply (step_reply 3 s2 0%nat run2 0 1 rf0 rf0 reply (MkSend 1 false)); vm_compute; reflexivity. }
  apply (rtc_l _ _ (at_start s4)).
  { eapply (ack_election 3 (at_start s3) s4 0 rf0 rf0); [|by apply votes_same_compared|vm_compute; reflexivity|reflexivity].
    apply (step_finish 3 s3 0%nat run3 0 rf0 rf0 1); vm_compute; reflexivity. }
  apply (rtc_l _ _ a5); [|apply rtc_refl].
  eapply (ack_election 3 (at_start s4) s5 0 rf0 rf5); [|by apply votes_same_compared|vm_compute; reflexivity|reflexivity].
  apply (step_election_end 3 s4 0%nat run4 0 1 rf0 rf5); vm_compute; reflexivity.
Qed.

Lemma rf9_confirmed : commit_confirmed (acks a8) rf9.
Proof.
  split; [vm_compute; reflexivity|]. intros j m Hm. apply slice_get_Some in Hm as [Hj Hm].
  assert (matchIndex rf9 = [1; 1; 0]) as Hmi by (vm_compute; reflexivity).
  assert (commitIndex rf9 = 1 ∧ currentTerm rf9 = 1) as [-> ->] by (split; vm_compute; reflexivity).
  rewrite Hmi in Hm. intros Hc. assert (Z.to_nat j = 0 ∨ Z.to_nat j = 1)%nat as [Hz|Hz].
  { clear Hmi. destruct (Z.to_nat j) as [|[|[|]]]; cbn in Hm; [by left|by right|injection Hm as <-; lia|discriminate]. }
  - exists 1%nat. replace j with 0 by lia. split; [lia|]. apply (bool_decide_unpack _). vm_compute. exact I.
  - exists 1%nat. replace j with 1 by lia. split; [lia|]. apply (bool_decide_unpack _). vm_compute. exact I.
Qed.

Lemma a9_steps : rtc (ack_step 3) a5 a9.
Proof.
  apply (rtc_l _ _ a6).
  { apply (ack_start 3 a5 0 7 rf5 rf6 1 1 true); vm_compute; reflexivity. }
  apply (rtc_l _ _ a7).
  { apply (ack_send 3 a6 0 1 rf6 rf7 ae); vm_compute; reflexivity. }
  apply (rtc_l _ _ a8).
  { apply (ack_append 3 a7 1 ae rf1 rf8 (MkAEReply true 0 (-1) (-1) (-1) 0));
      [vm_compute; reflexivity|apply list_elem_of_here|vm_compute; reflexivity]. }
  apply (rtc_l _ _ a9); [|apply rtc_refl].
  apply (ack_commit 3 a8 0 1 ae (MkAEReply true 0 (-1) (-1) (-1) 0) rf7 rf9 AEReturn);
    [vm_compute; reflexivity|vm_compute; reflexivity|exact rf9_confirmed].
Qed.

Lemma a11_steps : rtc (ack_step 3) a9 a11.
Proof.
  apply (rtc_l _ _ a10).
  { apply (ack_send 3 a9 0 1 rf9 rf10 ae2); vm_compute; reflexivity. }
  apply (rtc_l _ _ a11); [|apply rtc_refl].
  apply (ack_append 3 a10 1 ae2 rf8 rf11 (MkAEReply true 0 (-1) (-1) (-1) 0));
    [vm_compute; reflexivity|apply list_elem_of_here|vm_compute; reflexivity].
Qed.

Lemma a9_reachable : ack_reachable 3 a9.
Proof. destruct a5_reachable as (cs & Hi & Hr). exists cs. split; [done|]. etrans; [exact Hr|exact a9_steps]. Qed.
End SafetyDemo.

Import RaftDemo.

(** The leader delivers its command, and peer 1 later the same one. *)
Lemma state_machine_safety_witness :
  snd <$> Apply SafetyDemo.rf9 = Some [MkApplyMsg true (ICmd 7) 1]
  ∧ snd <$> Apply SafetyDemo.rf11 = Some [MkApplyMsg true (ICmd 7) 1]
  ∧ MkApplyMsg true (ICmd 7) 1 = MkApplyMsg true (ICmd 7) 1 :> ApplyMsg Z.
Proof.
  split; [vm_compute; reflexivity|]. split; [vm_compute; reflexivity|].
  apply (state_machine_safety 3 SafetyDemo.a9 SafetyDemo.a11 0 1 SafetyDemo.rf9 SafetyDemo.rf11
    (default RaftDemo.dummy (fst <$> Apply SafetyDemo.rf9)) (default RaftDemo.dummy (fst <$> Apply SafetyDemo.rf11))
    [MkApplyMsg true (ICmd 7) 1] [MkApplyMsg true (ICmd 7) 1]);
    [reflexivity|exact SafetyDemo.a9_reachable|exact SafetyDemo.a11_steps|vm_compute; reflexivity..
    |apply list_elem_of_here|apply list_elem_of_here|reflexivity|reflexivity].
Defined.

Lemma leader_completeness_witness :
  take 2 (log SafetyDemo.rf9) `prefix_of` log SafetyDemo.rf10 ∧ length (log SafetyDemo.rf10) = 2%nat.
Proof.
  split; [|vm_compute; reflexivity].
  apply (leader_completeness 3 SafetyDemo.a9 SafetyDemo.a11 0 0 SafetyDemo.rf9 SafetyDemo.rf10 ltac:(reflexivity)
    SafetyDemo.a9_reachable SafetyDemo.a11_steps); vm_compute; try reflexivity. done.
Defined.
