(* ===== verification/KvServer.v ===== *)
(** * The replicated key/value server

    [src/6.824/src/kvraft/server.go] and [common.go]: the state machine that applies
    the commands Raft delivers, its duplicate filter, its snapshots, and the RPC
    handlers that hand a command to Raft and wait for it to come back. *)
From S2P Require Import Prelude RaftState RaftSnapshot.

(** ** Data ([common.go]); an [Err] is a string. *)
Definition OK : string := "OK".
Definition ErrNoKey : string := "ErrNoKey".
Definition ErrWrongLeader : string := "ErrWrongLeader".
Definition ErrTimeOut : string := "ErrTimeOut".

Record Op := MkOp {
  Method : string;
  Key : string;
  Value : string;
  ClientId : Z;
  MsgId : Z;
  RequestId : Z
}.

Record PutAppendArgs := MkPutAppendArgs {
  pa_Key : string; pa_Value : string; pa_Op : string; pa_MsgId : Z; pa_ClientId : Z
}.
Record PutAppendReply := MkPutAppendReply { par_Err : string }.
Record GetArgs := MkGetArgs { ga_Key : string; ga_MsgId : Z; ga_ClientId : Z }.
Record GetReply := MkGetReply {
  gr_Err : string; gr_Value : string; gr_Success : bool; gr_IsLeader : bool
}.
Record GetStateReply := MkGetStateReply { gs_Term : Z; gs_IsLeader : bool; gs_LeaderId : Z }.
Record NotifyMsg := MkNotifyMsg { nm_Err : string; nm_Value : string }.

#[export] Instance Op_eq_dec : EqDecision Op.
Proof. solve_decision. Defined.
#[export] Instance PutAppendArgs_eq_dec : EqDecision PutAppendArgs.
Proof. solve_decision. Defined.
#[export] Instance NotifyMsg_eq_dec : EqDecision NotifyMsg.
Proof. solve_decision. Defined.
#[export] Program Instance Op_countable : Countable Op :=
  inj_countable' (λ o, (Method o, Key o, Value o, ClientId o, MsgId o, RequestId o))
    (λ '(m, k, v, c, i, r), MkOp m k v c i r) _.
Next Obligation. by intros []. Qed.

(** Values of the snapshot's gob stream. *)
Inductive KvVal := VData (d : gmap string string) | VApplied (l : gmap Z Z).

#[export] Instance KvVal_eq_dec : EqDecision KvVal.
Proof. solve_decision. Defined.
#[export] Program Instance KvVal_countable : Countable KvVal :=
  inj_countable' (λ v, match v with VData d => inl d | VApplied l => inr l end)
    (λ v, match v with inl d => VData d | inr l => VApplied l end) _.
Next Obligation. by intros []. Qed.

(** The server.  [notifyData] maps a request to its waiter's channel: the channel is
    unbuffered, so it carries no state of its own.  The persister is the one of the
    underlying Raft peer. *)
Record KVServer := MkKV {
  kv_me : Z;
  kv_dead : bool;
  kv_stopCh : bool;
  kv_data : gmap string string;
  maxraftstate : Z;
  kv_lastApplied : gmap Z Z;
  notifyData : gmap Z unit
}.
#[export] Instance KVServer_eta : Eta KVServer := λ k,
  MkKV (kv_me k) (kv_dead k) (kv_stopCh k) (kv_data k) (maxraftstate k) (kv_lastApplied k)
    (notifyData k).

(** How a handler's [select] in [waitForRaft] ended. *)
Inductive WaitOutcome := Notified (msg : NotifyMsg) | WaitTimedOut | WaitStopped.

Section server.
Context `{GoRand, GobCodec (RaftVal Op), GobCodec KvVal}.
Implicit Types (kv : KVServer) (rf : Raft Op).

Definition CheckApplied (msgId clientId : Z) kv : bool :=
  match kv_lastApplied kv !! clientId with
  | Some oldMsgId => msgId =? oldMsgId
  | None => false
  end.

(** The effect of one command on the data and on the duplicate filter. *)
Definition apply_command (op : Op) kv : KVServer :=
  let repeat := CheckApplied (MsgId op) (ClientId op) kv in
  if negb repeat && bool_decide (Method op = "Put"%string) then
    let kv := kv <| kv_data := <[Key op := Value op]> (kv_data kv) |> in
    kv <| kv_lastApplied := <[ClientId op := MsgId op]> (kv_lastApplied kv) |>
  else if negb repeat && bool_decide (Method op = "Append"%string) then
    let v := default ""%string (kv_data kv !! Key op) in
    let newS := (v +:+ Value op)%string in
    let kv := kv <| kv_data := <[Key op := newS]> (kv_data kv) |> in
    kv <| kv_lastApplied := <[ClientId op := MsgId op]> (kv_lastApplied kv) |>
  else kv.

Definition encode_snapshot kv : list Byte.byte :=
  gob_encode [VData (kv_data kv); VApplied (kv_lastApplied kv)].

Definition saveSnapshot (index : Z) kv rf : option (Raft Op) :=
  if (maxraftstate kv =? -1) || (RaftStateSize (persister rf) <? maxraftstate kv)
  then Some rf
  else SaveStateAndSnapshot index (Some (encode_snapshot kv)) rf.

Definition decode_data (d : gob_decoder) : option (gmap string string * gob_decoder) :=
  match gob_Decode d with Some (VData m, d) => Some (m, d) | _ => None end.
Definition decode_applied (d : gob_decoder) : option (gmap Z Z * gob_decoder) :=
  match gob_Decode d with Some (VApplied m, d) => Some (m, d) | _ => None end.

(** [None] is [os.Exit(1)]. *)
Definition ReadSnapshot (data : option (list Byte.byte)) kv : option KVServer :=
  match data with
  | None => Some kv
  | Some bs =>
      '(kvdata, d) ← decode_data (gob_NewDecoder bs);
      '(lastApplied, d) ← decode_applied d;
      Some (kv <| kv_lastApplied := lastApplied |> <| kv_data := kvdata |>)
  end.

(** One message of [applyCh]: the new state and the notification sent, if a handler
    waits for this request.  The type assertion on a command panics on anything that
    is not an [Op]. *)
Definition WaitApplyCh_msg (msg : ApplyMsg Op) kv rf :
    option (KVServer * Raft Op * option (Z * NotifyMsg)) :=
  if negb (CommandValid msg) then
    kv ← ReadSnapshot (Persister_ReadSnapshot (persister rf)) kv;
    Some (kv, rf, None)
  else
    match msg_Command msg with
    | ICmd op =>
        let kv := apply_command op kv in
        rf ← saveSnapshot (CommandIndex msg) kv rf;
        Some (kv, rf,
          match notifyData kv !! RequestId op with
          | Some _ =>
              Some (RequestId op, MkNotifyMsg OK (default ""%string (kv_data kv !! Key op)))
          | None => None
          end)
    | _ => None
    end.

(** [waitForRaft] up to its [select]; the boolean is whether it waits. *)
Definition waitForRaft_begin (op : Op) kv rf : option (KVServer * Raft Op * bool) :=
  '(rf, (_, _, isLeader)) ← Start op rf;
  if (isLeader : bool) then
    Some (kv <| notifyData := <[RequestId op := ()]> (notifyData kv) |>, rf, true)
  else Some (kv, rf, false).

Definition removeCh (id : Z) kv : KVServer :=
  kv <| notifyData := delete id (notifyData kv) |>.

(** The [select] and what follows it. *)
Definition waitForRaft_end (op : Op) (o : WaitOutcome) kv : KVServer * NotifyMsg :=
  match o with
  | Notified res => (removeCh (RequestId op) kv, res)
  | WaitTimedOut => (removeCh (RequestId op) kv, MkNotifyMsg ErrTimeOut "")
  | WaitStopped => (kv, MkNotifyMsg "" "")
  end.

Definition waitForRaft (op : Op) (o : WaitOutcome) kv rf :
    option (KVServer * Raft Op * NotifyMsg) :=
  '(kv, rf, waits) ← waitForRaft_begin op kv rf;
  if (waits : bool) then
    let '(kv, res) := waitForRaft_end op o kv in Some (kv, rf, res)
  else Some (kv, rf, MkNotifyMsg ErrWrongLeader "").

(** The RPC handlers; [reqId] is the random request id and [o] how the wait ended. *)
Definition Get (args : GetArgs) (reqId : Z) (o : WaitOutcome) (reply : GetReply) kv rf :
    option (KVServer * Raft Op * GetReply) :=
  let '(_, isLeader) := GetState rf in
  if negb isLeader then
    Some (kv, rf, MkGetReply ErrWrongLeader (gr_Value reply) (gr_Success reply) (gr_IsLeader reply))
  else
    let serverOp := MkOp "Get" (ga_Key args) "" (ga_ClientId args) (ga_MsgId args) reqId in
    '(kv, rf, res) ← waitForRaft serverOp o kv rf;
    Some (kv, rf, MkGetReply (nm_Err res) (nm_Value res) (gr_Success reply) (gr_IsLeader reply)).

Definition PutAppend (args : PutAppendArgs) (reqId : Z) (o : WaitOutcome) kv rf :
    option (KVServer * Raft Op * PutAppendReply) :=
  let serverOp :=
    MkOp (pa_Op args) (pa_Key args) (pa_Value args) (pa_ClientId args) (pa_MsgId args) reqId in
  '(kv, rf, res) ← waitForRaft serverOp o kv rf;
  Some (kv, rf, MkPutAppendReply (nm_Err res)).

Definition KV_GetState kv rf : GetStateReply :=
  let '(term, isLeader) := GetState rf in MkGetStateReply term isLeader (kv_me kv).

Definition KV_Kill kv rf : option (KVServer * Raft Op) :=
  let kv := kv <| kv_dead := true |> in
  rf ← Kill rf;
  if kv_stopCh kv then None else Some (kv <| kv_stopCh := true |>, rf).

Definition KV_killed kv : bool := kv_dead kv.

Definition StartKVServer (nservers me : Z) (ps : Persister) (maxraftstate : Z) :
    option (KVServer * Raft Op) :=
  let kv := MkKV me false false ∅ maxraftstate ∅ ∅ in
  rf ← Make nservers me ps;
  kv ← ReadSnapshot (Persister_ReadSnapshot (persister rf)) kv;
  Some (kv, rf).

(** ** Abstract specification

    A map of strings and the set of write requests executed so far; a write request
    executes the first time it is seen. *)
Record KvSpec := MkSpec { sp_data : gmap string string; sp_executed : gset (Z * Z) }.

Definition is_write (op : Op) : bool :=
  bool_decide (Method op = "Put"%string) || bool_decide (Method op = "Append"%string).

Definition spec_write (op : Op) (d : gmap string string) : gmap string string :=
  if bool_decide (Method op = "Put"%string) then <[Key op := Value op]> d
  else <[Key op := (default ""%string (d !! Key op) +:+ Value op)%string]> d.

Definition spec_apply (s : KvSpec) (op : Op) : KvSpec :=
  if is_write op && negb (bool_decide ((ClientId op, MsgId op) ∈ sp_executed s))
  then MkSpec (spec_write op (sp_data s)) ({[(ClientId op, MsgId op)]} ∪ sp_executed s)
  else s.

(** The value a handler answers for an applied command. *)
Definition spec_value (s : KvSpec) (op : Op) : string := default ""%string (sp_data s !! Key op).

Definition apply_commands (ops : list Op) kv : KVServer :=
  foldl (λ kv op, apply_command op kv) kv ops.

Definition spec_run (ops : list Op) : KvSpec := foldl spec_apply (MkSpec ∅ ∅) ops.

(** Clients are serial: once a client's next write is in the log, its earlier write
    requests do not appear again. *)
Definition client_serial (ops : list Op) : Prop :=
  ∀ i j k a b c, (i < j < k)%nat →
    ops !! i = Some a → ops !! j = Some b → ops !! k = Some c →
    is_write a → is_write b → is_write c →
    ClientId a = ClientId b → ClientId b = ClientId c → MsgId a = MsgId c → MsgId b = MsgId a.

(** The last write request of a client in a history. *)
Definition last_write (ops : list Op) (c : Z) : option Z :=
  MsgId <$> list.last (filter (λ op, is_write op ∧ ClientId op = c) ops).

(** ** Lemmas *)

Lemma apply_command_cases op kv :
  apply_command op kv =
  if is_write op && negb (CheckApplied (MsgId op) (ClientId op) kv)
  then kv <| kv_data := spec_write op (kv_data kv) |>
          <| kv_lastApplied := <[ClientId op := MsgId op]> (kv_lastApplied kv) |>
  else kv.
Proof.
  unfold apply_command, is_write, spec_write. destruct (CheckApplied _ _ _); simpl.
  - by rewrite andb_false_r.
  - rewrite andb_true_r. by repeat case_bool_decide.
Qed.

(** Right after a write, its message id is the one the filter remembers. *)
Lemma CheckApplied_after_apply op kv :
  is_write op → CheckApplied (MsgId op) (ClientId op) (apply_command op kv) = true.
Proof.
  intros Hw. rewrite apply_command_cases. destruct (is_write op); [|done]. simpl.
  destruct (CheckApplied (MsgId op) (ClientId op) kv) eqn:He; [done|].
  unfold CheckApplied. simpl. rewrite lookup_insert_eq. apply Z.eqb_refl.
Qed.

Lemma last_write_snoc ops op c :
  last_write (ops ++ [op]) c =
  if decide (is_write op ∧ ClientId op = c) then Some (MsgId op) else last_write ops c.
Proof.
  unfold last_write. rewrite list.filter_app, filter_cons, filter_nil.
  case_decide; [by rewrite last_snoc|by rewrite app_nil_r].
Qed.

Lemma client_serial_prefix ops op : client_serial (ops ++ [op]) → client_serial ops.
Proof.
  intros Hs i j k a b c Hijk Ha Hb Hc. eapply (Hs i j k); [done|..];
    by apply lookup_app_l_Some.
Qed.

(** Under serial clients, "executed before" and "last executed" agree. *)
Lemma serial_last_write ops op a i :
  client_serial (ops ++ [op]) → is_write op → ops !! i = Some a → is_write a →
  ClientId a = ClientId op → MsgId a = MsgId op → last_write ops (ClientId op) = Some (MsgId op).
Proof.
  intros Hs Hop Ha Hwa Hc Hm.
  unfold last_write. destruct (list.last _) as [b|] eqn:Hb.
  - simpl. f_equal.
    pose proof Hb as Hbin. apply last_Some in Hbin as [fs Hfs].
    assert (b ∈ filter (λ op0, is_write op0 ∧ ClientId op0 = ClientId op) ops) as Hin
      by (rewrite Hfs; set_solver).
    apply list_elem_of_filter in Hin as [[Hwb Hcb] _].
    destruct (filter_last_after _ ops b i a Hb Ha) as (j & Hj & Hij); [done|].
    destruct (decide (i = j)) as [->|]; [congruence|].
    rewrite <- Hm. eapply (Hs i j (length ops) a b op); try done; try congruence.
    + apply lookup_lt_Some in Hj. lia.
    + by apply lookup_app_l_Some.
    + by apply lookup_app_l_Some.
    + by apply list_lookup_middle.
  - apply last_None in Hb.
    assert (a ∈ filter (λ op0, is_write op0 ∧ ClientId op0 = ClientId op) ops) as Hin.
    { apply list_elem_of_filter. split; [done|]. by eapply list_elem_of_lookup_2. }
    rewrite Hb in Hin. by apply not_elem_of_nil in Hin.
Qed.

Lemma apply_commands_snoc ops op kv :
  apply_commands (ops ++ [op]) kv = apply_command op (apply_commands ops kv).
Proof. unfold apply_commands. by rewrite foldl_app. Qed.

Lemma spec_run_snoc ops op : spec_run (ops ++ [op]) = spec_apply (spec_run ops) op.
Proof. unfold spec_run. by rewrite foldl_app. Qed.

(** The simulation: equal data, and the filter holds each client's last write. *)
Definition refines (ops : list Op) kv : Prop :=
  kv_data kv = sp_data (spec_run ops)
  ∧ (∀ c, kv_lastApplied kv !! c = last_write ops c)
  ∧ (∀ c m, (c, m) ∈ sp_executed (spec_run ops) ↔
       ∃ i a, ops !! i = Some a ∧ is_write a ∧ ClientId a = c ∧ MsgId a = m).

Lemma refines_executed ops op kv :
  refines ops kv → client_serial (ops ++ [op]) → is_write op →
  CheckApplied (MsgId op) (ClientId op) kv
  = bool_decide ((ClientId op, MsgId op) ∈ sp_executed (spec_run ops)).
Proof.
  intros (_ & Hl & He) Hs Hop. unfold CheckApplied. rewrite Hl.
  case_bool_decide as Hin.
  - apply He in Hin as (i & a & Ha & Hw & Hc & Hm).
    erewrite serial_last_write by eauto. apply Z.eqb_refl.
  - destruct (last_write ops (ClientId op)) as [m|] eqn:Hlast; [|done].
    apply Z.eqb_neq. intros Hm. apply Hin, He.
    unfold last_write in Hlast. destruct (list.last _) as [b|] eqn:Hb; [|done].
    simpl in Hlast. apply last_Some in Hb as [fs Hfs].
    assert (b ∈ filter (λ op0, is_write op0 ∧ ClientId op0 = ClientId op) ops) as Hbin
      by (rewrite Hfs; set_solver).
    apply list_elem_of_filter in Hbin as [[Hwb Hcb] Hbo].
    apply list_elem_of_lookup_1 in Hbo as [i Hi]. exists i, b. split_and!; congruence.
Qed.

Lemma refines_step ops op kv :
  refines ops kv → client_serial (ops ++ [op]) → refines (ops ++ [op]) (apply_command op kv).
Proof.
  intros Hr Hs. pose proof Hr as (Hd & Hl & He).
  rewrite apply_command_cases. unfold refines. rewrite spec_run_snoc. unfold spec_apply.
  destruct (is_write op) eqn:Hw; simpl.
  - assert (is_write op) as Hw' by (by rewrite Hw).
    rewrite (refines_executed ops op kv Hr Hs Hw').
    case_bool_decide as Hin; simpl.
    + split_and!; [done| |].
      * intros c. rewrite last_write_snoc, Hl. case_decide as Hc; [|done]. destruct Hc as [_ <-].
        apply He in Hin as (i & a & Ha & Hwa & Hca & Hma). by eapply serial_last_write.
      * intros c m. rewrite He. split.
        -- intros (i & a & Ha & ?). exists i, a. split; [by apply lookup_app_l_Some|done].
        -- intros (i & a & Ha & Hwa & <- & <-). apply lookup_snoc_Some in Ha as [[_ Ha]|[_ ->]].
           ++ by exists i, a.
           ++ by apply He.
    + split_and!; [by rewrite Hd| |].
      * intros c. rewrite last_write_snoc. rewrite lookup_insert.
        destruct (decide (ClientId op = c)); [by rewrite decide_True|].
        rewrite decide_False by (by intros [_ ?]). apply Hl.
      * intros c m. rewrite elem_of_union, elem_of_singleton, He. split.
        -- intros [[= -> ->]|(i & a & Ha & ?)].
           ++ exists (length ops), op. split; [by apply list_lookup_middle|done].
           ++ exists i, a. split; [by apply lookup_app_l_Some|done].
        -- intros (i & a & Ha & Hwa & <- & <-). apply lookup_snoc_Some in Ha as [[_ Ha]|[_ ->]].
           ++ right. by exists i, a.
           ++ by left.
  - split_and!; [done| |].
    + intros c. rewrite last_write_snoc, Hl, decide_False; [done|]. rewrite Hw. by intros [? _].
    + intros c m. rewrite He. split.
      * intros (i & a & Ha & ?). exists i, a. split; [by apply lookup_app_l_Some|done].
      * intros (i & a & Ha & Hwa & ?). apply lookup_snoc_Some in Ha as [[_ Ha]|[_ ->]].
        -- by exists i, a.
        -- by rewrite Hw in Hwa.
Qed.

Lemma apply_commands_refines ops kv :
  kv_data kv = ∅ → kv_lastApplied kv = ∅ → client_serial ops →
  refines ops (apply_commands ops kv).
Proof.
  intros Hd Hl. induction ops as [|op ops IH] using rev_ind; intros Hs.
  - split_and!; [done| |].
    + intros c. simpl. by rewrite Hl, lookup_empty.
    + intros c m. split; [intros Hin; simpl in Hin; set_solver|].
      intros (i & a & Ha & _). by rewrite lookup_nil in Ha.
  - rewrite apply_commands_snoc. apply refines_step; [|done].
    apply IH. by eapply client_serial_prefix.
Qed.

Lemma ReadSnapshot_encode kv kv0 :
  ReadSnapshot (Some (encode_snapshot kv)) kv0 =
    Some (kv0 <| kv_lastApplied := kv_lastApplied kv |> <| kv_data := kv_data kv |>).
Proof.
  unfold ReadSnapshot, encode_snapshot.
  pose proof (gob_encode_reads [VData (kv_data kv); VApplied (kv_lastApplied kv)]) as Hr.
  simpl in Hr. destruct Hr as (d1 & H1' & d2 & H2' & _).
  unfold decode_data, decode_applied. by rewrite H1'; simpl; rewrite H2'.
Qed.

Lemma maxraftstate_apply ops kv : maxraftstate (apply_commands ops kv) = maxraftstate kv.
Proof.
  induction ops as [|op ops IH] using rev_ind; [done|].
  rewrite apply_commands_snoc, apply_command_cases. by destruct (_ && _).
Qed.

(** The effect of commands depends on the data and the filter only. *)
Lemma apply_commands_view ops kv1 kv2 :
  kv_data kv1 = kv_data kv2 → kv_lastApplied kv1 = kv_lastApplied kv2 →
  kv_data (apply_commands ops kv1) = kv_data (apply_commands ops kv2)
  ∧ kv_lastApplied (apply_commands ops kv1) = kv_lastApplied (apply_commands ops kv2).
Proof.
  intros Hd Hl. induction ops as [|op ops [IHd IHl]] using rev_ind; [done|].
  rewrite !apply_commands_snoc, !apply_command_cases.
  unfold CheckApplied. rewrite IHl.
  destruct (_ && _); simpl; by rewrite ?IHd.
Qed.

(** The filter remembers only the last write of a client: a retry that is logged after
    the client's next write executes a second time. *)
Lemma late_retry_reapplied kv k c m1 m2 r1 r2 r3 :
  m1 ≠ m2 → kv_lastApplied kv !! c = None →
  kv_data (apply_commands [MkOp "Append" k "a" c m1 r1; MkOp "Append" k "b" c m2 r2;
                           MkOp "Append" k "a" c m1 r3] kv) !! k
  = Some (((default ""%string (kv_data kv !! k) +:+ "a") +:+ "b") +:+ "a")%string.
Proof.
  intros Hm Hn. unfold apply_commands. simpl. rewrite !apply_command_cases.
  unfold CheckApplied. simpl. rewrite Hn. simpl. rewrite lookup_insert_eq.
  rewrite (proj2 (Z.eqb_neq m2 m1)) by done. simpl. rewrite lookup_insert_eq.
  rewrite (proj2 (Z.eqb_neq m1 m2)) by done. simpl.
  unfold spec_write. simpl. by rewrite !lookup_insert_eq.
Qed.

(** ** Properties *)

(** C13. The server refines its specification: for every log whose clients are serial,
    applying the next delivered command leaves the data of the map specification in
    which each write request executes exactly once, however often it was retried; and
    the answer a waiting handler gets is [OK] with the specification's value. *)
Theorem server_refines_spec ops op index kv0 kv' rf rf' note :
  kv_data kv0 = ∅ → kv_lastApplied kv0 = ∅ → client_serial (ops ++ [op]) →
  WaitApplyCh_msg (MkApplyMsg true (ICmd op) index) (apply_commands ops kv0) rf
    = Some (kv', rf', note) →
  kv_data kv' = sp_data (spec_run (ops ++ [op]))
  ∧ (∀ id m, note = Some (id, m) →
       id = RequestId op ∧ m = MkNotifyMsg OK (spec_value (spec_run (ops ++ [op])) op)).
Proof.
  intros Hd Hl Hs Hw. pose proof (apply_commands_refines (ops ++ [op]) kv0 Hd Hl Hs) as (Hdata & _).
  rewrite apply_commands_snoc in Hdata.
  unfold WaitApplyCh_msg in Hw. simpl in Hw.
  destruct (saveSnapshot _ _ _) as [rf1|]; simpl in Hw; [|done].
  injection Hw as <- <- <-. split; [done|]. intros id m Hn.
  case_match; [|done]. simplify_eq. unfold spec_value. by rewrite Hdata.
Qed.

(** Retries are idempotent: a second delivery of a write request, with any request
    id and any payload, changes nothing right after the first. *)
Theorem retry_is_idempotent op op' kv :
  is_write op → ClientId op' = ClientId op → MsgId op' = MsgId op →
  apply_command op' (apply_command op kv) = apply_command op kv.
Proof.
  intros Hw Hc Hm. rewrite (apply_command_cases op'), Hc, Hm.
  by rewrite CheckApplied_after_apply, andb_false_r.
Qed.

(** C21. Log compaction is transparent: when a snapshot was taken after the commands
    [ops1] and the server restarts from its persister, applying the remaining commands
    gives the data and the duplicate filter of the server that never stopped. *)
Theorem restart_from_snapshot ops1 ops2 index kv0 rf rf' n me max kv1 rf1 :
  let kv := apply_commands ops1 kv0 in
  kv_data kv0 = ∅ → kv_lastApplied kv0 = ∅ →
  maxraftstate kv0 ≠ -1 → maxraftstate kv0 ≤ RaftStateSize (persister rf) →
  lastSnapshotIndex rf ≤ index →
  saveSnapshot index kv rf = Some rf' →
  StartKVServer n me (persister rf') max = Some (kv1, rf1) →
  kv_data (apply_commands ops2 kv1) = kv_data (apply_commands (ops1 ++ ops2) kv0)
  ∧ kv_lastApplied (apply_commands ops2 kv1) = kv_lastApplied (apply_commands (ops1 ++ ops2) kv0)
  ∧ lastSnapshotIndex rf1 = index ∧ log rf1 = log rf'.
Proof.
  intros kv Hd Hl Hmax Hsz Hidx Hsave Hstart.
  assert (maxraftstate kv = maxraftstate kv0) as Hmk by apply maxraftstate_apply.
  unfold saveSnapshot in Hsave. rewrite Hmk in Hsave.
  destruct (Z.eqb_spec (maxraftstate kv0) (-1)); [done|].
  destruct (Z.ltb_spec (RaftStateSize (persister rf)) (maxraftstate kv0)); [lia|]. simpl in Hsave.
  destruct (snapshot_saved index _ rf rf' Hidx Hsave) as [Hp Hi].
  unfold StartKVServer in Hstart.
  destruct (Make n me (persister rf')) as [rf2|] eqn:Hm; simpl in Hstart; [|done].
  apply Make_persisted with (rf := rf') in Hm as (Hp2 & Hl2 & Hi2); [|by rewrite Hp].
  rewrite Hp2 in Hstart. unfold Persister_ReadSnapshot in Hstart. rewrite Hp in Hstart.
  change (snapshot _) with (Some (encode_snapshot kv)) in Hstart.
  rewrite ReadSnapshot_encode in Hstart. simpl in Hstart. injection Hstart as <- <-.
  unfold apply_commands at 2 4. rewrite foldl_app. fold (apply_commands ops1 kv0).
  split_and!; [| |congruence|done].
  - eapply apply_commands_view; reflexivity.
  - eapply apply_commands_view; reflexivity.
Qed.

(** Handlers report their errors: a peer that is not the leader answers
    [ErrWrongLeader] and changes nothing; a leader appends the command to its log, and
    when the wait times out it answers [ErrTimeOut] and forgets the waiter. *)
Theorem PutAppend_errors args reqId kv rf :
  log rf ≠ [] →
  (state rf ≠ LEADER →
   ∀ o, PutAppend args reqId o kv rf = Some (kv, rf, MkPutAppendReply ErrWrongLeader))
  ∧ (state rf = LEADER → 0 ≤ me rf < len (nextIndex rf) → 0 ≤ me rf < len (matchIndex rf) →
     ∃ kv' rf', PutAppend args reqId WaitTimedOut kv rf
         = Some (kv', rf', MkPutAppendReply ErrTimeOut)
       ∧ notifyData kv' !! reqId = None ∧ kv_data kv' = kv_data kv
       ∧ log rf' = log rf ++ [MkLog (ICmd (MkOp (pa_Op args) (pa_Key args) (pa_Value args)
                        (pa_ClientId args) (pa_MsgId args) reqId)) (currentTerm rf)]).
Proof.
  intros Hl. unfold PutAppend, waitForRaft, waitForRaft_begin, Start.
  rewrite lastLogTermIndex_spec by done. simpl. split.
  - intros Hs o. rewrite bool_decide_eq_false_2 by done. done.
  - intros Hs Hn Hm. rewrite bool_decide_eq_true_2 by done.
    rewrite slice_set_lt by lia. simpl. rewrite slice_set_lt by lia. simpl.
    eexists _, _. split; [done|]. simpl. split; [apply lookup_delete_eq|done].
Qed.

End server.

(** ** Witnesses *)
Module KvDemo.
Export ZeroRand CountableCodec.

Definition kv0 : KVServer := MkKV 0 false false ∅ 0 ∅ ∅.
Definition put (k v : string) (c m r : Z) : Op := MkOp "Put" k v c m r.
Definition append (k v : string) (c m r : Z) : Op := MkOp "Append" k v c m r.
Definition no_raft : Raft Op :=
  MkRaft 0 MakePersister 0 true FOLLOWER 0 (-1) [] 0 0 [] [] 0 [] 0 true [] 0 0 0 0.
(** A leader of three with two applied commands in its log. *)
Definition rf0 : Raft Op :=
  default no_raft (Make 3 0 MakePersister)
    <| state := LEADER |> <| nextIndex := [1; 1; 1] |> <| matchIndex := [0; 0; 0] |>
    <| log := [MkLog (IString "") 0; MkLog (ICmd (put "x" "1" 7 1 10)) 1;
               MkLog (ICmd (append "x" "2" 7 2 11)) 1] |>.
Definition dummy_kv : KVServer * Raft Op * option (Z * NotifyMsg) := (kv0, rf0, None).
End KvDemo.

Section witnesses.
Import KvDemo.

Lemma server_refines_spec_witness :
  ∃ kv' rf' note,
    WaitApplyCh_msg (MkApplyMsg true (ICmd (append "x" "2" 7 2 11)) 2)
      (apply_commands [put "x" "1" 7 1 10] kv0 <| notifyData := {[11 := ()]} |>) rf0
      = Some (kv', rf', note)
    ∧ kv_data kv' !! "x"%string = Some "12"%string.
Proof.
  set (kv1 := kv0 <| notifyData := {[11 := ()]} |>).
  pose (r := WaitApplyCh_msg (MkApplyMsg true (ICmd (append "x" "2" 7 2 11)) 2)
      (apply_commands [put "x" "1" 7 1 10] kv1) rf0).
  assert (is_Some r) as [[[kv' rf'] note] Hr] by (vm_compute; eauto).
  exists kv', rf', note. split; [exact Hr|].
  destruct (server_refines_spec [put "x" "1" 7 1 10] (append "x" "2" 7 2 11) 2 kv1 kv' rf0 rf' note)
    as [-> _]; [done|done| |exact Hr|by vm_compute].
  intros i j k a b c Hijk Ha Hb Hc. apply lookup_lt_Some in Hc. simpl in Hc. lia.
Defined.

Lemma retry_is_idempotent_witness :
  apply_command (put "x" "9" 7 1 12) (apply_command (put "x" "1" 7 1 10) kv0)
  = apply_command (put "x" "1" 7 1 10) kv0.
Proof. apply retry_is_idempotent; by vm_compute. Defined.

Lemma restart_from_snapshot_witness :
  ∃ kv1 rf1, kv_data (apply_commands [append "x" "3" 7 3 12] kv1) !! "x"%string = Some "13"%string
    ∧ lastSnapshotIndex (C := Op) rf1 = 1.
Proof.
  pose (kv := apply_commands [put "x" "1" 7 1 10] kv0).
  assert (is_Some (saveSnapshot 1 kv rf0)) as [rf' Hs] by (vm_compute; eauto).
  assert (∃ p, StartKVServer 3 0 (persister rf') 100 = Some p) as [[kv1 rf1] Hst].
  { assert (rf' = default no_raft (saveSnapshot 1 kv rf0)) as -> by (by rewrite Hs).
    eexists. vm_compute. reflexivity. }
  exists kv1, rf1.
  destruct (restart_from_snapshot [put "x" "1" 7 1 10] [append "x" "3" 7 3 12] 1 kv0 rf0 rf' 3 0 100
    kv1 rf1) as (-> & _ & -> & _); try done; by vm_compute.
Defined.

Lemma PutAppend_errors_witness :
  ∃ kv' rf', PutAppend (MkPutAppendArgs "x" "1" "Put" 1 7) 10 WaitTimedOut kv0 rf0
     = Some (kv', rf', MkPutAppendReply ErrTimeOut).
Proof.
  destruct (PutAppend_errors (MkPutAppendArgs "x" "1" "Put" 1 7) 10 kv0 rf0) as [_ Hl]; [done|].
  destruct Hl as (kv' & rf' & Hp & _); [done|by vm_compute|by vm_compute|].
  exists kv', rf'. exact Hp.
Defined.

End witnesses.
