(* ===== verification/KvNotify.v ===== *)
(** * Handing results to waiting handlers

    [src/6.824/src/kvraft/server.go]: the interleaving of one request's handler
    ([waitForRaft] and [removeCh]) with the apply goroutine ([WaitApplyCh]), which share
    the server's mutex and the request's unbuffered channel. *)
From S2P Require Import Prelude RaftState KvServer.

(** Where the handler stands: before registering its channel, in its [select], holding
    the result and waiting to remove its channel, or returned. *)
Inductive Waiter :=
  | WRegister
  | WSelect
  | WRemove (res : NotifyMsg)
  | WDone (res : NotifyMsg).

(** Where the apply goroutine stands: with the request's command received but not yet
    applied, sending on the channel with the mutex held, about to unlock, or back at its
    own [select]. *)
Inductive Applier := ALock | ASend (m : NotifyMsg) | AUnlock | ADone.

(** Who holds [kv.mu]; the handler's critical sections do not block, so they are single
    steps. *)
Record Handover := MkHandover {
  ho_kv : KVServer;
  ho_waiter : Waiter;
  ho_applier : Applier;
  ho_locked : bool
}.
#[export] Instance Handover_eta : Eta Handover := λ h,
  MkHandover (ho_kv h) (ho_waiter h) (ho_applier h) (ho_locked h).

(** What [WaitApplyCh] sends for [op], if its channel is registered. *)
Definition notification (op : Op) (kv : KVServer) : option NotifyMsg :=
  match notifyData kv !! RequestId op with
  | Some _ => Some (MkNotifyMsg OK (default ""%string (kv_data kv !! Key op)))
  | None => None
  end.

Inductive handover_step (op : Op) : Handover → Handover → Prop :=
  | step_register h :
      ho_waiter h = WRegister → ho_locked h = false →
      handover_step op h (h <| ho_waiter := WSelect |>
        <| ho_kv := ho_kv h <| notifyData := <[RequestId op := ()]> (notifyData (ho_kv h)) |> |>)
  | step_timeout h :
      ho_waiter h = WSelect →
      handover_step op h (h <| ho_waiter := WRemove (MkNotifyMsg ErrTimeOut "") |>)
  | step_remove h res :
      ho_waiter h = WRemove res → ho_locked h = false →
      handover_step op h (h <| ho_waiter := WDone res |>
        <| ho_kv := removeCh (RequestId op) (ho_kv h) |>)
  | step_apply h :
      ho_applier h = ALock → ho_locked h = false →
      let kv := apply_command op (ho_kv h) in
      handover_step op h (h <| ho_kv := kv |> <| ho_locked := true |>
        <| ho_applier := match notification op kv with Some m => ASend m | None => AUnlock end |>)
  | step_rendezvous h m :
      ho_waiter h = WSelect → ho_applier h = ASend m →
      handover_step op h (h <| ho_waiter := WRemove m |> <| ho_applier := AUnlock |>)
  | step_unlock h :
      ho_applier h = AUnlock →
      handover_step op h (h <| ho_applier := ADone |> <| ho_locked := false |>).

(** A fresh request: not registered, its command not yet applied. *)
Definition handover_start (op : Op) (kv : KVServer) : Handover :=
  MkHandover (kv <| notifyData := delete (RequestId op) (notifyData kv) |>) WRegister ALock false.

Definition handover_reach (op : Op) (kv : KVServer) (h : Handover) : Prop :=
  rtc (handover_step op) (handover_start op kv) h.

Definition stuck (op : Op) (h : Handover) : Prop := ∀ h', ¬ handover_step op h h'.

(** Handler returned, apply goroutine back at its [select], mutex free. *)
Definition finished (h : Handover) : Prop :=
  (∃ res, ho_waiter h = WDone res) ∧ ho_applier h = ADone ∧ ho_locked h = false.

(** The handler wants the mutex to remove its channel; the apply goroutine holds the
    mutex and sends on that channel. *)
Definition deadlocked (h : Handover) : Prop :=
  (∃ res, ho_waiter h = WRemove res ∧ nm_Err res = ErrTimeOut)
  ∧ (∃ m, ho_applier h = ASend m) ∧ ho_locked h = true.

Record handover_inv (op : Op) (h : Handover) : Prop := {
  inv_locked : ho_locked h = true ↔ (ho_applier h = AUnlock ∨ ∃ m, ho_applier h = ASend m);
  inv_registered :
    notifyData (ho_kv h) !! RequestId op =
      match ho_waiter h with WSelect | WRemove _ => Some () | _ => None end;
  inv_sending : ∀ m, ho_applier h = ASend m →
    nm_Err m = OK ∧ (ho_waiter h = WSelect ∨ ∃ res, ho_waiter h = WRemove res ∧ nm_Err res = ErrTimeOut);
  inv_early : ho_applier h = ALock → ∀ res, ho_waiter h = WRemove res → nm_Err res = ErrTimeOut
}.

Lemma notifyData_apply op kv : notifyData (apply_command op kv) = notifyData kv.
Proof. rewrite apply_command_cases. by destruct (_ && _). Qed.

Lemma handover_inv_start op kv : handover_inv op (handover_start op kv).
Proof. split; simpl; [naive_solver|by rewrite lookup_delete_eq|done|done]. Qed.

(** In a state satisfying the invariant a waiter that got a notification answers [OK]. *)
Lemma notification_registered op kv m :
  notification op kv = Some m → nm_Err m = OK ∧ notifyData kv !! RequestId op = Some ().
Proof. unfold notification. destruct (_ !! _) as [[]|] eqn:?; naive_solver. Qed.

Lemma handover_inv_step op h h' :
  handover_inv op h → handover_step op h h' → handover_inv op h'.
Proof.
  intros [Hl Hr Hs Ha] Hstep. destruct Hstep as [h Hw Hk|h Hw|h res Hw Hk|h Hp Hk kv|h m Hw Hp|h Hp].
  - split; simpl; [done|by rewrite lookup_insert_eq| |done].
    intros m Hm. assert (ho_locked h = true) by naive_solver. congruence.
  - split; simpl; [done|by rewrite Hr, Hw|naive_solver|naive_solver].
  - split; simpl; [done|by rewrite lookup_delete_eq| |done].
    intros m Hm. assert (ho_locked h = true) by naive_solver. congruence.
  - split; simpl.
    + destruct (notification op kv); naive_solver.
    + unfold kv. by rewrite notifyData_apply.
    + intros m Hm. destruct (notification op kv) as [m'|] eqn:Hn; [|done]. simplify_eq.
      apply notification_registered in Hn as [Ho Hreg]. unfold kv in Hreg.
      rewrite notifyData_apply, Hr in Hreg. split; [done|].
      destruct (ho_waiter h) eqn:?; naive_solver.
    + by destruct (notification op kv).
  - split; simpl; [naive_solver|by rewrite Hr, Hw|done|done].
  - split; simpl; [naive_solver|done|done|done].
Qed.

Lemma handover_inv_reach op kv h : handover_reach op kv h → handover_inv op h.
Proof.
  unfold handover_reach. intros Hr. pose proof (handover_inv_start op kv) as Hi. revert Hi.
  induction Hr as [|x y z Hxy _ IH]; [done|].
  intros Hi. apply IH. by eapply handover_inv_step.
Qed.

(** A state in which no step is enabled has a waiter that is done or wants the mutex. *)
Lemma stuck_waiter op h :
  stuck op h →
  (∃ res, ho_waiter h = WDone res)
  ∨ (ho_locked h = true ∧ (ho_waiter h = WRegister ∨ ∃ res, ho_waiter h = WRemove res)).
Proof.
  intros Hs. destruct (ho_locked h) eqn:Hl, (ho_waiter h) as [| |res|res] eqn:Hw; try (by eauto 6);
    exfalso; (eapply Hs; first [by eapply step_timeout|by eapply step_register|by eapply step_remove]).
Qed.

(** ** Properties *)

(** The only way to hang: whatever the interleaving of a request's handler and the
    apply goroutine, a state in which nothing can move is either the end, with the
    handler returned and the mutex free, or the one deadlock in which the handler timed
    out and wants the mutex that the apply goroutine holds while it sends to it. *)
Theorem handover_stuck op kv h :
  handover_reach op kv h → stuck op h → finished h ∨ deadlocked h.
Proof.
  intros Hr Hs. destruct (handover_inv_reach _ _ _ Hr) as [Hl Hreg Hsend _].
  pose proof (stuck_waiter op h Hs) as Hw.
  destruct (ho_applier h) as [|m| |] eqn:Ha.
  - destruct (ho_locked h) eqn:Hk; [destruct (proj1 Hl eq_refl) as [? | [? ?]]; done|].
    exfalso. by eapply Hs, step_apply.
  - right. destruct (Hsend m eq_refl) as [_ [Hsel|(res & Hres & He)]].
    + exfalso. by eapply Hs, step_rendezvous.
    + assert (ho_locked h = true) by (apply Hl; eauto). split_and!; eauto.
  - exfalso. by eapply Hs, step_unlock.
  - left. destruct (ho_locked h) eqn:Hk; [destruct (proj1 Hl eq_refl) as [? | [? ?]]; done|].
    destruct Hw as [?|[? _]]; [|done]. split_and!; done.
Qed.

(** The deadlock is real: for every request and every server state there is an
    interleaving in which the handler times out after the apply goroutine has looked up
    its channel, and from then on no step of either is possible. *)
Theorem handover_deadlock_reachable op kv :
  ∃ h, handover_reach op kv h ∧ deadlocked h ∧ stuck op h.
Proof.
  set (kv1 := ho_kv (handover_start op kv)).
  set (kv2 := kv1 <| notifyData := <[RequestId op := ()]> (notifyData kv1) |>).
  set (kv3 := apply_command op kv2).
  assert (∃ m, notification op kv3 = Some m) as [m Hm].
  { unfold notification, kv3. rewrite notifyData_apply. simpl. rewrite lookup_insert_eq. eauto. }
  exists (MkHandover kv3 (WRemove (MkNotifyMsg ErrTimeOut "")) (ASend m) true). split_and!.
  - unfold handover_reach. eapply rtc_l; [by apply step_register|].
    eapply rtc_l; [by apply step_apply|]. eapply rtc_l; [by apply step_timeout|].
    match goal with |- rtc _ ?h _ =>
      change h with (MkHandover kv3 (WRemove (MkNotifyMsg ErrTimeOut ""))
        (match notification op kv3 with Some m => ASend m | None => AUnlock end) true) end.
    rewrite Hm. apply rtc_refl.
  - split_and!; simpl; eauto.
  - intros h' Hstep. by inversion Hstep.
Qed.

(** ** Witnesses *)
Lemma handover_stuck_witness :
  finished (MkHandover (removeCh 10 KvDemo.kv0) (WDone (MkNotifyMsg ErrTimeOut "")) ADone false)
  ∨ deadlocked (MkHandover (removeCh 10 KvDemo.kv0) (WDone (MkNotifyMsg ErrTimeOut "")) ADone false).
Proof.
  set (op := MkOp "Get" "x" "" 7 1 10).
  apply (handover_stuck op KvDemo.kv0).
  - unfold handover_reach. eapply rtc_l; [by apply step_register|].
    eapply rtc_l; [by apply step_timeout|]. eapply rtc_l; [by apply step_remove|].
    eapply rtc_l; [by apply step_apply|]. eapply rtc_l; [by apply step_unlock|].
    apply rtc_refl.
  - intros h' Hstep. by inversion Hstep.
Defined.
