(* ===== verification/KvClerk.v ===== *)
(** * The key/value client

    [src/6.824/src/kvraft/client.go]: the retry loops of [Get] and [PutAppend], and
    [FindLeader], which asks every server for its role.  The leader a loop sees is
    written by the concurrent [FindLeader]; a round of a loop therefore takes as input
    what the clerk observes in it. *)
From S2P Require Import Prelude RaftState KvServer.

Definition FindLeaderTimeout : Z := 300 * Millisecond.

Record Clerk := MkClerk {
  ck_servers : Z;
  ck_dead : bool;
  ck_leaderId : Z;
  ck_clientId : Z;
  ck_leaderMe : Z;
  ck_findLeaderTimer : Z;
  ck_Term : Z
}.
#[export] Instance Clerk_eta : Eta Clerk := λ c,
  MkClerk (ck_servers c) (ck_dead c) (ck_leaderId c) (ck_clientId c) (ck_leaderMe c)
    (ck_findLeaderTimer c) (ck_Term c).

(** [id] is the random client id. *)
Definition MakeClerk (servers id : Z) : Clerk :=
  MkClerk servers false (-1) id 0 FindLeaderTimeout 0.

(** [Kill] calls itself before it closes the stop channel: with any stack depth [fuel]
    the call does not return. *)
Fixpoint Clerk_Kill (fuel : nat) (ck : Clerk) : option Clerk :=
  match fuel with
  | O => None
  | S fuel => Clerk_Kill fuel (ck <| ck_dead := true |>)
  end.

Definition resetFLTimer (ck : Clerk) : Clerk := ck <| ck_findLeaderTimer := FindLeaderTimeout |>.
Definition findLeaderNow (ck : Clerk) : Clerk := ck <| ck_findLeaderTimer := 0 |>.

(** ** [FindLeader]

    Each server's goroutine tests the reply against the known term before it takes the
    mutex, and writes under the mutex: two steps. *)
Definition FindLeader_begin (ck : Clerk) : Clerk :=
  ck <| ck_leaderId := -1 |> <| ck_leaderMe := -1 |>.

Definition FindLeader_check (reply : option GetStateReply) (ck : Clerk) : bool :=
  match reply with
  | Some r => gs_IsLeader r && (gs_Term r >=? ck_Term ck)
  | None => false
  end.

Definition FindLeader_set (i : Z) (r : GetStateReply) (ck : Clerk) : Clerk :=
  ck <| ck_leaderId := i |> <| ck_leaderMe := gs_LeaderId r |> <| ck_Term := gs_Term r |>.

Definition FindLeader_reply (ck : Clerk) (p : Z * option GetStateReply) : Clerk :=
  match p with
  | (i, Some r) => if FindLeader_check (Some r) ck then FindLeader_set i r ck else ck
  | (_, None) => ck
  end.

(** The replies in the order they arrive, one per server, each tested and recorded
    before the next. *)
Definition FindLeader (replies : list (Z * option GetStateReply)) (ck : Clerk) : Clerk :=
  resetFLTimer (foldl FindLeader_reply (FindLeader_begin ck) replies).

(** ** The retry loops *)

(** One round: whether the clerk is dead, the leader it reads, the outcome of [Call]
    ([None] when it fails), and what it reads while it waits for a new leader. *)
Record Round (R : Type) := MkRound {
  rd_killed : bool;
  rd_leaderId : Z;
  rd_call : option R;
  rd_polls : list Z
}.
Arguments MkRound {R}.
Arguments rd_killed {R}. Arguments rd_leaderId {R}. Arguments rd_call {R}. Arguments rd_polls {R}.

(** [for ck.leaderId == -1 { sleep }]: whether it ended within the readings. *)
Fixpoint wait_leader (polls : list Z) : bool :=
  match polls with
  | [] => false
  | l :: polls => if l =? -1 then wait_leader polls else true
  end.

(** What a round does: sends nothing or one request, then returns a value, goes on, or
    is left waiting for a leader. *)
Inductive RoundEnd (A : Type) := Returns (a : A) | Continues | Waits.
Arguments Returns {A}. Arguments Continues {A}. Arguments Waits {A}.

Section clerk.
Implicit Types (ck : Clerk).

(** The reply a round inspects: the zero reply if there was no leader to call. *)
Definition Get_round (rd : Round GetReply) : RoundEnd string :=
  let switch (reply : GetReply) :=
    if bool_decide (gr_Err reply = OK) then Returns (gr_Value reply)
    else if bool_decide (gr_Err reply = ErrWrongLeader) then
      if wait_leader (rd_polls rd) then Continues else Waits
    else if bool_decide (gr_Err reply = ErrNoKey) then Returns ""%string
    else if bool_decide (gr_Err reply = ErrTimeOut) then
      if wait_leader (rd_polls rd) then Continues else Waits
    else Continues in
  if rd_leaderId rd =? -1 then switch (MkGetReply "" "" false false)
  else match rd_call rd with Some reply => switch reply | None => Continues end.

Definition PutAppend_round (rd : Round PutAppendReply) : RoundEnd unit :=
  let switch (reply : PutAppendReply) :=
    if bool_decide (par_Err reply = OK) then Returns tt
    else if bool_decide (par_Err reply = ErrWrongLeader) then
      if wait_leader (rd_polls rd) then Continues else Waits
    else if bool_decide (par_Err reply = ErrNoKey) then Returns tt
    else if bool_decide (par_Err reply = ErrTimeOut) then
      if wait_leader (rd_polls rd) then Continues else Waits
    else Continues in
  if rd_leaderId rd =? -1 then switch (MkPutAppendReply "")
  else match rd_call rd with Some reply => switch reply | None => Continues end.

(** The loop over the rounds so far: the requests sent with the server each went to, and
    the result, [None] while the call is still running.  The outer [None] is the panic
    of an index out of the server slice. *)
Fixpoint retry_loop {Args R A} (servers : Z) (round : Round R → RoundEnd A) (dead : A)
    (args : Args) (rounds : list (Round R)) : option (list (Z * Args) * option A) :=
  match rounds with
  | [] => Some ([], None)
  | rd :: rounds =>
      if rd_killed rd then Some ([], Some dead)
      else
        let leaderId := rd_leaderId rd in
        if negb (leaderId =? -1) && negb ((0 <=? leaderId) && (leaderId <? servers)) then None
        else
          let sent := if leaderId =? -1 then [] else [(leaderId, args)] in
          match round rd with
          | Returns a => Some (sent, Some a)
          | Waits => Some (sent, None)
          | Continues =>
              '(more, res) ← retry_loop servers round dead args rounds;
              Some (sent ++ more, res)
          end
  end.

(** [msgId] is the random message id of the call. *)
Definition Clerk_Get (ck : Clerk) (key : string) (msgId : Z) (rounds : list (Round GetReply)) :
    option (list (Z * GetArgs) * option string) :=
  let args := MkGetArgs key msgId (ck_clientId ck) in
  retry_loop (ck_servers ck) Get_round ""%string args rounds.

Definition Clerk_PutAppend (ck : Clerk) (key value op : string) (msgId : Z)
    (rounds : list (Round PutAppendReply)) : option (list (Z * PutAppendArgs) * option unit) :=
  let args := MkPutAppendArgs key value op msgId (ck_clientId ck) in
  retry_loop (ck_servers ck) PutAppend_round tt args rounds.

Definition Clerk_Put (ck : Clerk) (key value : string) := Clerk_PutAppend ck key value "Put".
Definition Clerk_Append (ck : Clerk) (key value : string) := Clerk_PutAppend ck key value "Append".

(** ** Lemmas *)

(** A leader the loop can read: none yet, or a server. *)
Definition valid_leader {R} (servers : Z) (rd : Round R) : Prop :=
  rd_leaderId rd = -1 ∨ 0 ≤ rd_leaderId rd < servers.

(** A round that lets the loop go on. *)
Definition goes_on {R A} (servers : Z) (round : Round R → RoundEnd A) (rd : Round R) : Prop :=
  rd_killed rd = false ∧ round rd = Continues ∧ valid_leader servers rd.

(** The requests sent in some rounds. *)
Definition sent_in {Args R} (args : Args) (rounds : list (Round R)) : list (Z * Args) :=
  omap (λ rd, if rd_leaderId rd =? -1 then None else Some (rd_leaderId rd, args)) rounds.

Lemma valid_leader_check {R} servers (rd : Round R) :
  valid_leader servers rd →
  negb (rd_leaderId rd =? -1) && negb ((0 <=? rd_leaderId rd) && (rd_leaderId rd <? servers)) = false.
Proof. unfold valid_leader. lia. Qed.

Lemma retry_loop_app {Args R A} servers (round : Round R → RoundEnd A) dead (args : Args) pre rest :
  Forall (goes_on servers round) pre →
  retry_loop servers round dead args (pre ++ rest) =
    ('(sent, res) ← retry_loop servers round dead args rest; Some (sent_in args pre ++ sent, res)).
Proof.
  induction 1 as [|rd pre (Hk & Hc & Hv) _ IH]; simpl.
  { by destruct (retry_loop _ _ _ _ rest) as [[? ?]|]. }
  rewrite Hk, (valid_leader_check _ _ Hv), Hc, IH.
  destruct (retry_loop _ _ _ _ rest) as [[? ?]|]; simpl; [|done].
  unfold sent_in. simpl. by destruct (rd_leaderId rd =? -1).
Qed.

Lemma retry_loop_returns {Args R A} servers (round : Round R → RoundEnd A) dead (args : Args) pre rd post a :
  Forall (goes_on servers round) pre → rd_killed rd = false → valid_leader servers rd →
  round rd = Returns a →
  retry_loop servers round dead args (pre ++ rd :: post) = Some (sent_in args (pre ++ [rd]), Some a).
Proof.
  intros Hpre Hk Hv Hr. rewrite retry_loop_app by done. simpl.
  rewrite Hk, (valid_leader_check _ _ Hv), Hr. simpl. unfold sent_in. rewrite omap_app. simpl.
  by destruct (rd_leaderId rd =? -1).
Qed.

Lemma retry_loop_running {Args R A} servers (round : Round R → RoundEnd A) dead (args : Args) rounds :
  Forall (goes_on servers round) rounds →
  retry_loop servers round dead args rounds = Some (sent_in args rounds, None).
Proof.
  intros Hr. rewrite <- (app_nil_r rounds) at 1. rewrite retry_loop_app by done. simpl.
  by rewrite app_nil_r.
Qed.

Lemma retry_loop_killed {Args R A} servers (round : Round R → RoundEnd A) dead (args : Args) pre rd post :
  Forall (goes_on servers round) pre → rd_killed rd = true →
  retry_loop servers round dead args (pre ++ rd :: post) = Some (sent_in args pre, Some dead).
Proof. intros Hpre Hk. rewrite retry_loop_app by done. simpl. rewrite Hk. simpl. by rewrite app_nil_r. Qed.

(** Every request goes to a server of the clerk, the one whose number the round read. *)
Lemma retry_loop_args {Args R A} servers (round : Round R → RoundEnd A) dead (args : Args) rounds sent res :
  retry_loop servers round dead args rounds = Some (sent, res) →
  Forall (λ p, 0 ≤ p.1 < servers ∧ p.2 = args) sent ∧ sent `prefix_of` sent_in args rounds.
Proof.
  revert sent res. induction rounds as [|rd rounds IH]; intros sent res Hl; simpl in Hl.
  { simplify_eq. split; [constructor|done]. }
  destruct (rd_killed rd). { simplify_eq. split; [constructor|apply prefix_nil]. }
  destruct (_ && _) eqn:Hv; [done|].
  assert (Forall (λ p, 0 ≤ p.1 < servers ∧ p.2 = args)
    (if rd_leaderId rd =? -1 then [] else [(rd_leaderId rd, args)])) as Hone.
  { destruct (Z.eqb_spec (rd_leaderId rd) (-1)); [constructor|]. apply Forall_singleton. simpl. split; [lia|done]. }
  assert (sent_in args (rd :: rounds)
    = (if rd_leaderId rd =? -1 then [] else [(rd_leaderId rd, args)]) ++ sent_in args rounds) as Hin.
  { unfold sent_in. simpl. by destruct (rd_leaderId rd =? -1). }
  rewrite Hin.
  destruct (round rd); simplify_eq; [split; [done|apply prefix_app_r]; done| |split; [done|by apply prefix_app_r]].
  destruct (retry_loop _ _ _ _ _) as [[more res']|] eqn:He; simplify_eq/=.
  destruct (IH _ _ eq_refl) as [Hs Hp]. split; [by apply Forall_app|by apply prefix_app].
Qed.

(** A call that returned was killed or had a round that returned. *)
Lemma retry_loop_returned {Args R A} servers (round : Round R → RoundEnd A) dead (args : Args) rounds sent a :
  retry_loop servers round dead args rounds = Some (sent, Some a) →
  ∃ rd, rd ∈ rounds ∧ (rd_killed rd = true ∨ round rd = Returns a).
Proof.
  revert sent. induction rounds as [|rd rounds IH]; intros sent Hl; simpl in Hl; [done|].
  destruct (rd_killed rd) eqn:Hk; [exists rd; split; [left|by left]|].
  destruct (_ && _); [done|]. destruct (round rd) eqn:Hr; simplify_eq; [exists rd; split; [left|by right]|].
  destruct (retry_loop _ _ _ _ _) as [[more res]|]; simplify_eq/=.
  destruct (IH more eq_refl) as (rd' & Hin & Hd). exists rd'. split; [by right|done].
Qed.

(** A round returns on a final answer only. *)
Lemma Get_round_returns rd a :
  Get_round rd = Returns a →
  ∃ reply, rd_call rd = Some reply ∧ (gr_Err reply = OK ∧ a = gr_Value reply ∨ gr_Err reply = ErrNoKey).
Proof.
  unfold Get_round. destruct (rd_leaderId rd =? -1); [by repeat case_bool_decide|].
  destruct (rd_call rd) as [reply|]; [|done]. intros Hr. exists reply. split; [done|].
  repeat case_bool_decide; try (destruct (wait_leader _)); simplify_eq; auto.
Qed.

Lemma PutAppend_round_returns rd a :
  PutAppend_round rd = Returns a →
  ∃ reply, rd_call rd = Some reply ∧ (par_Err reply = OK ∨ par_Err reply = ErrNoKey).
Proof.
  unfold PutAppend_round. destruct (rd_leaderId rd =? -1); [by repeat case_bool_decide|].
  destruct (rd_call rd) as [reply|]; [|done]. intros Hr. exists reply. split; [done|].
  repeat case_bool_decide; try (destruct (wait_leader _)); simplify_eq; auto.
Qed.

(** The command a server's [PutAppend] handler builds for a request. *)
Definition op_of (args : PutAppendArgs) (reqId : Z) : Op :=
  MkOp (pa_Op args) (pa_Key args) (pa_Value args) (pa_ClientId args) (pa_MsgId args) reqId.

Lemma apply_command_reqId args r r' kv :
  apply_command (op_of args r) kv = apply_command (op_of args r') kv.
Proof. done. Qed.

Lemma apply_command_twice args r kv :
  is_write (op_of args r) →
  apply_command (op_of args r) (apply_command (op_of args r) kv) = apply_command (op_of args r) kv.
Proof.
  intros Hw. rewrite (apply_command_cases _ (apply_command _ _)).
  by rewrite (CheckApplied_after_apply _ _ Hw), andb_false_r.
Qed.

(** A reply that claims leadership in term [t]. *)
Definition claims (p : Z * option GetStateReply) (t : Z) : Prop :=
  ∃ r, p.2 = Some r ∧ gs_IsLeader r = true ∧ gs_Term r = t.

Lemma FindLeader_foldl replies ck :
  let ck' := foldl FindLeader_reply ck replies in
  ck_Term ck ≤ ck_Term ck'
  ∧ (∀ p t, p ∈ replies → claims p t → t ≤ ck_Term ck')
  ∧ (ck_leaderId ck' = ck_leaderId ck ∧ ck_Term ck' = ck_Term ck
     ∨ ∃ p, p ∈ replies ∧ p.1 = ck_leaderId ck' ∧ claims p (ck_Term ck')).
Proof.
  cbv zeta. revert ck. induction replies as [|[i [r|]] replies IH]; intros ck; simpl.
  - split_and!; [lia|intros; set_solver|by left].
  - unfold FindLeader_check. destruct (gs_IsLeader r && (gs_Term r >=? ck_Term ck)) eqn:Hc.
    + apply andb_prop in Hc as [Hl Ht].
      destruct (IH (FindLeader_set i r ck)) as (H1 & H2 & H3). simpl in *. split_and!.
      * lia.
      * intros p t Hp Hcl. apply elem_of_cons in Hp as [-> | Hp]; [|by eapply H2].
        destruct Hcl as (r' & ? & ? & ?). simplify_eq/=. lia.
      * right. destruct H3 as [[-> ->]|(p & Hp & ? & ?)].
        -- exists (i, Some r). split_and!; [set_solver|done|by exists r].
        -- exists p. split_and!; [set_solver|done|done].
    + destruct (IH ck) as (H1 & H2 & H3). split_and!.
      * lia.
      * intros p t Hp Hcl. apply elem_of_cons in Hp as [-> | Hp]; [|by eapply H2].
        destruct Hcl as (r' & ? & Hl & ?). simplify_eq/=. rewrite Hl in Hc. simpl in Hc. lia.
      * destruct H3 as [?|(p & Hp & ? & ?)]; [by left|right].
        exists p. split_and!; [set_solver|done|done].
  - destruct (IH ck) as (H1 & H2 & H3). split_and!; [done| |].
    + intros p t Hp Hcl. apply elem_of_cons in Hp as [-> | Hp]; [|by eapply H2].
      by destruct Hcl as (? & ? & _).
    + destruct H3 as [?|(p & Hp & ? & ?)]; [by left|right].
      exists p. split_and!; [set_solver|done|done].
Qed.

(** Between a goroutine's test and its write another may record a later term: the write
    then takes the clerk back to an older leader. *)
Lemma FindLeader_race :
  let ck := FindLeader_begin (MakeClerk 2 7) in
  let newer := MkGetStateReply 5 true 1 in let older := MkGetStateReply 3 true 0 in
  FindLeader_check (Some older) ck = true
  ∧ FindLeader_check (Some newer) ck = true
  ∧ ck_leaderId (FindLeader_set 0 older (FindLeader_set 1 newer ck)) = 0
  ∧ ck_Term (FindLeader_set 0 older (FindLeader_set 1 newer ck)) = 3.
Proof. done. Qed.

(** [Kill] never returns. *)
Lemma Clerk_Kill_never_returns fuel ck : Clerk_Kill fuel ck = None.
Proof. revert ck. induction fuel as [|fuel IH]; intros ck; simpl; [done|apply IH]. Qed.

(** ** Properties *)

(** C14. A write call takes effect once: however many servers the clerk's [PutAppend] was
    sent to and whatever request ids their handlers drew, applying the resulting
    commands one after another gives the state of applying the first one alone; every
    request carries the call's own message id and goes to a server of the clerk, the one
    whose number the clerk took for the leader in that round. *)
Theorem PutAppend_exactly_once ck key value op msgId rounds sent res reqIds kv :
  Clerk_PutAppend ck key value op msgId rounds = Some (sent, res) →
  (op = "Put" ∨ op = "Append")%string → length reqIds = length sent → sent ≠ [] →
  let args := MkPutAppendArgs key value op msgId (ck_clientId ck) in
  Forall (λ p, 0 ≤ p.1 < ck_servers ck ∧ p.2 = args) sent
  ∧ sent `prefix_of` sent_in args rounds
  ∧ apply_commands (zip_with (λ p r, op_of p.2 r) sent reqIds) kv = apply_command (op_of args 0) kv.
Proof.
  intros Hl Hop Hlen Hne args. destruct (retry_loop_args _ _ _ _ _ _ _ Hl) as [Hsent Hpre].
  change (MkPutAppendArgs _ _ _ _ _) with args in Hsent, Hpre.
  split; [done|]. split; [done|]. clear Hpre.
  assert (Forall (λ p, p.2 = args) sent) as Hs' by (eapply Forall_impl; [exact Hsent|by intros p [_ ?]]).
  clear Hsent.
  assert (∀ r, is_write (op_of args r)) as Hw by (intros r; by destruct Hop as [-> | ->]).
  clearbody args. clear Hl Hop.
  destruct sent as [|p sent]; [done|]. destruct reqIds as [|r reqIds]; [done|].
  apply Forall_cons_1 in Hs' as [Hp Hs]. simpl in *.
  rewrite Hp. unfold apply_commands. simpl. change (apply_command (op_of args r) kv)
    with (apply_command (op_of args 0) kv). injection Hlen as Hlen. clear Hne Hp.
  revert reqIds Hlen. induction sent as [|q sent IH]; intros [|r' reqIds] Hlen; simpl; try done.
  apply Forall_cons_1 in Hs as [Hq Hs]. rewrite Hq.
  rewrite (apply_command_reqId args r' 0). rewrite apply_command_twice by apply Hw.
  apply IH; [done|]. simpl in Hlen. by injection Hlen.
Qed.

(** The loop of [Get] returns at its first final answer: after any number of rounds
    that failed, met no leader or met [ErrWrongLeader] or [ErrTimeOut], a reply of [OK]
    returns its value and [ErrNoKey] returns the empty string; with no such reply the
    call is still running, and a killed clerk returns the empty string. *)
Theorem Clerk_Get_first_answer ck key msgId pre rd post :
  let servers := ck_servers ck in
  let args := MkGetArgs key msgId (ck_clientId ck) in
  Forall (goes_on servers Get_round) pre →
  Clerk_Get ck key msgId pre = Some (sent_in args pre, None)
  ∧ (rd_killed rd = true →
     Clerk_Get ck key msgId (pre ++ rd :: post) = Some (sent_in args pre, Some ""%string))
  ∧ (∀ reply, rd_killed rd = false → 0 ≤ rd_leaderId rd < servers → rd_call rd = Some reply →
     gr_Err reply = OK ∨ gr_Err reply = ErrNoKey →
     Clerk_Get ck key msgId (pre ++ rd :: post)
     = Some (sent_in args pre ++ [(rd_leaderId rd, args)],
             Some (if bool_decide (gr_Err reply = OK) then gr_Value reply else ""%string))).
Proof.
  intros servers args Hpre. unfold Clerk_Get. fold args. split_and!.
  - by apply retry_loop_running.
  - intros Hk. by apply retry_loop_killed.
  - intros reply Hk Hv Hc He.
    assert (Get_round rd = Returns (if bool_decide (gr_Err reply = OK) then gr_Value reply else ""%string)) as Hr.
    { unfold Get_round. rewrite (proj2 (Z.eqb_neq _ _)) by lia. rewrite Hc.
      by destruct He as [-> | ->]. }
    rewrite (retry_loop_returns _ _ _ _ _ _ _ _ Hpre Hk (or_intror Hv) Hr).
    unfold sent_in. rewrite omap_app. simpl. by rewrite (proj2 (Z.eqb_neq _ _)) by lia.
Qed.

(** [FindLeader] elects the newest claim: when the replies are handled one after
    another in any order, the clerk's term ends at least as high as every claimed
    leader's, and its leader is a server that claimed leadership in exactly that term,
    or none if no claim was at least as new as the term the clerk already knew. *)
Theorem FindLeader_newest ck replies :
  let ck' := FindLeader replies ck in
  ck_Term ck ≤ ck_Term ck'
  ∧ (∀ p t, p ∈ replies → claims p t → t ≤ ck_Term ck')
  ∧ (ck_leaderId ck' = -1 ∧ ck_Term ck' = ck_Term ck
     ∨ ∃ p, p ∈ replies ∧ p.1 = ck_leaderId ck' ∧ claims p (ck_Term ck')).
Proof. apply (FindLeader_foldl replies (FindLeader_begin ck)). Qed.

End clerk.

(** ** Witnesses *)
Section witnesses.

Definition demo_rounds : list (Round PutAppendReply) :=
  [MkRound false (-1) None []; MkRound false 0 None [];
   MkRound false 0 (Some (MkPutAppendReply ErrWrongLeader)) [-1; 2];
   MkRound false 2 (Some (MkPutAppendReply OK)) []].

Lemma PutAppend_exactly_once_witness :
  ∃ sent, Clerk_PutAppend (MakeClerk 3 7) "x" "1" "Append" 5 demo_rounds = Some (sent, Some tt)
  ∧ kv_data (apply_commands (zip_with (λ p r, op_of p.2 r) sent [1; 2; 3]) KvDemo.kv0) !! "x"%string
    = Some "1"%string.
Proof.
  set (args := MkPutAppendArgs "x" "1" "Append" 5 7).
  assert (Clerk_PutAppend (MakeClerk 3 7) "x" "1" "Append" 5 demo_rounds
    = Some ([(0, args); (0, args); (2, args)], Some tt)) as He by (vm_compute; reflexivity).
  exists [(0, args); (0, args); (2, args)]. split; [exact He|].
  destruct (PutAppend_exactly_once _ _ _ _ _ _ _ _ [1; 2; 3] KvDemo.kv0 He) as (_ & _ & ->);
    [by right|done|done|]. by vm_compute.
Defined.

Lemma Clerk_Get_first_answer_witness :
  Clerk_Get (MakeClerk 3 7) "x" 5
    [MkRound false 0 (Some (MkGetReply ErrTimeOut "" false false)) [1];
     MkRound false 1 (Some (MkGetReply OK "v" false false)) []]
  = Some ([(0, MkGetArgs "x" 5 7); (1, MkGetArgs "x" 5 7)], Some "v"%string).
Proof.
  destruct (Clerk_Get_first_answer (MakeClerk 3 7) "x" 5
    [MkRound false 0 (Some (MkGetReply ErrTimeOut "" false false)) [1]]
    (MkRound false 1 (Some (MkGetReply OK "v" false false)) []) []) as (_ & _ & Hr).
  - apply Forall_singleton. split_and!; [done|by vm_compute|right; simpl; lia].
  - apply (Hr (MkGetReply OK "v" false false)); try done. by left.
Defined.

End witnesses.
