(* ===== verification/ShardConfig.v ===== *)
(** * The shard master's configurations and their rebalancing

    [src/6.824/src/shardmaster/common.go] ([Config], [Copy]) and the configuration part of
    [server.go]: [adjustConfig], [join], [leave], [move] and [getConfigCopy].

    Go ranges over a map in an unspecified order, and each [range] statement draws its
    own.  [order k ks] is the order in which the [k]-th [range] over a map with the keys
    [ks] visits them; the theorems hold for every such oracle that permutes the keys. *)
From S2P Require Import Prelude.

Definition NShards : Z := 10.

Record Config := MkConfig {
  Num : Z;
  Shards : list Z;
  Groups : gmap Z (list string)
}.
#[export] Instance Config_eta : Eta Config := λ c, MkConfig (Num c) (Shards c) (Groups c).
#[export] Instance Config_eq_dec : EqDecision Config.
Proof. solve_decision. Defined.
#[export] Program Instance Config_countable : Countable Config :=
  inj_countable' (λ c, (Num c, Shards c, Groups c)) (λ '(n, s, g), MkConfig n s g) _.
Next Obligation. by intros []. Qed.

(** The zero value of [[NShards]int]. *)
Definition no_shards : list Z := replicate (Z.to_nat NShards) 0.

Definition Config_Copy (c : Config) : Config := MkConfig (Num c) (Shards c) (id <$> Groups c).

(** An iteration oracle and its law. *)
Abbreviation MapOrder := (nat → list Z → list Z).
Definition legal_order (order : MapOrder) : Prop := ∀ k ks, order k ks ≡ₚ ks.

Definition keys {V} (m : gmap Z V) : list Z := elements (dom m).

(** [len(m)]. *)
Definition map_len {V} (m : gmap Z V) : Z := Z.of_nat (size m).

(** [getConfigCopy], on the slice of configurations. *)
Definition getConfigCopy (i : Z) (configs : list Config) : option Config :=
  if (i <? 0) || (len configs <=? i) then Config_Copy <$> configs.[len configs - 1]
  else Config_Copy <$> configs.[i].

(** ** [adjustConfig] *)

(** [for i := 0; i < NShards; i++ { if shards[i] == a { shards[i] = b; r-- }; if r == 0 {
    break } }]: the array and [r]; the loop broke exactly if [r] ends as 0. *)
Fixpoint reassign (a b r : Z) (shards : list Z) : list Z * Z :=
  match shards with
  | [] => ([], r)
  | s :: shards =>
      let '(s, r) := if s =? a then (b, r - 1) else (s, r) in
      if r =? 0 then (s :: shards, r)
      else let '(shards, r) := reassign a b r shards in (s :: shards, r)
  end.

(** The loop under [MOVEGID1] and [MOVEGID2]: the shards that [last] gives to [oldGid] go
    to [gid] in [cur] and are cleared in [last]. *)
Fixpoint move_shards (oldGid gid r : Z) (last cur : list Z) : list Z * list Z * Z :=
  match last, cur with
  | l :: last, c :: cur =>
      let '(l, c, r) := if l =? oldGid then (0, gid, r - 1) else (l, c, r) in
      if r =? 0 then (l :: last, c :: cur, r)
      else let '(last, cur, r) := move_shards oldGid gid r last cur in (l :: last, c :: cur, r)
  | _, _ => (last, cur, r)
  end.

(** [MOVEGID]: over the old groups that have left; ends at the label when [r] is 0 after
    a pass. *)
Fixpoint move_groups (groups : gmap Z (list string)) (gid r : Z) (olds : list Z)
    (last cur : list Z) (lastCnt : gmap Z Z) : list Z * list Z * gmap Z Z :=
  match olds with
  | [] => (last, cur, lastCnt)
  | oldGid :: olds =>
      match groups !! oldGid with
      | Some _ => move_groups groups gid r olds last cur lastCnt
      | None =>
          let '(last, cur, r') := move_shards oldGid gid r last cur in
          let lastCnt := if r' =? r then lastCnt
            else <[oldGid := default 0 (lastCnt !! oldGid) - (r - r')]> lastCnt in
          if r' =? 0 then (last, cur, lastCnt)
          else move_groups groups gid r' olds last cur lastCnt
      end
  end.

(** The state of the shrinking branch. *)
Record Shrink := MkShrink {
  sh_last : list Z;
  sh_cur : list Z;
  sh_cnt : gmap Z Z;
  sh_left : Z
}.

(** The number of shards [g] has. *)
Definition count_shards (g : Z) (shards : list Z) : Z :=
  len (filter (λ s, s = g) shards).

Section adjust.
Variable order : MapOrder.
Implicit Types (groups : gmap Z (list string)).

(** [lastCnt]: a group has a key once it has a shard. *)
Definition lastCnt_of groups (lastShards : list Z) : gmap Z Z :=
  foldl (λ m gid,
    let n := count_shards gid lastShards in if n =? 0 then m else <[gid := n]> m)
    ∅ (order 1 (keys groups)).

(** One group of the first loop, the [k]-th visited, which ranges over the old groups as
    the [(3 + k)]-th range of the call. *)
Definition shrink_same groups (olds : list Z) (avg : Z) (k : nat) (gid : Z) (s : Shrink) : Shrink :=
  match sh_cnt s !! gid with
  | None => s
  | Some n =>
      let r := avg - n in
      if r =? 0 then s
      else
        let '(r, left_) := if sh_left s >? 0 then (r + 1, sh_left s - 1) else (r, sh_left s) in
        if r =? 0 then MkShrink (sh_last s) (sh_cur s) (sh_cnt s) left_
        else
          let '(last, cur, cnt) :=
            move_groups groups gid r (order (3 + k) olds) (sh_last s) (sh_cur s) (sh_cnt s) in
          MkShrink last cur cnt left_
  end.

(** One group of the second loop. *)
Definition shrink_diff groups (olds : list Z) (avg : Z) (k : nat) (gid : Z) (s : Shrink) : Shrink :=
  match sh_cnt s !! gid with
  | Some _ => s
  | None =>
      let '(r, left_) := if sh_left s >? 0 then (avg + 1, sh_left s - 1) else (avg, sh_left s) in
      let '(last, cur, cnt) :=
        move_groups groups gid r (order (3 + k) olds) (sh_last s) (sh_cur s) (sh_cnt s) in
      MkShrink last cur cnt left_
  end.

(** A loop body run over the visited keys, numbered from [k]. *)
Fixpoint visit {T} (body : nat → Z → T → T) (k : nat) (gids : list Z) (s : T) : T :=
  match gids with
  | [] => s
  | gid :: gids => visit body (S k) gids (body k gid s)
  end.

Definition shrink groups (lastGroups : gmap Z (list string)) (lastShards shards : list Z) : list Z :=
  let curLen := map_len groups in
  let avg := Z.quot NShards curLen in
  let left_ := Z.rem NShards curLen in
  let olds := keys lastGroups in
  let s := MkShrink lastShards shards (lastCnt_of groups lastShards) left_ in
  let s := visit (shrink_same groups olds avg) 0 (order 2 (keys groups)) s in
  let n := length (keys groups) in
  let s := visit (shrink_diff groups olds avg) n (order (3 + 2 * n) (keys groups)) s in
  sh_cur s.

(** The state of the growing branch. *)
Record Grow := MkGrow {
  gr_shards : list Z;
  gr_left : Z;
  gr_finish : gset Z
}.

(** One old group of the first loop. *)
Definition grow_clean groups (lastCnt : gmap Z Z) (avg : Z) (k : nat) (lastGid : Z) (s : Grow) : Grow :=
  match groups !! lastGid with
  | Some _ =>
      let r := default 0 (lastCnt !! lastGid) - avg in
      if r =? 0 then MkGrow (gr_shards s) (gr_left s) ({[lastGid]} ∪ gr_finish s)
      else
        let '(r, left_) := if gr_left s >? 0 then (r - 1, gr_left s - 1) else (r, gr_left s) in
        if r =? 0 then MkGrow (gr_shards s) left_ ({[lastGid]} ∪ gr_finish s)
        else
          let '(shards, r) := reassign lastGid 0 r (gr_shards s) in
          MkGrow shards left_ (if r =? 0 then {[lastGid]} ∪ gr_finish s else gr_finish s)
  | None =>
      MkGrow ((λ g, if g =? lastGid then 0 else g) <$> gr_shards s) (gr_left s) (gr_finish s)
  end.

(** One group of the second loop. *)
Definition grow_fill (avg : Z) (k : nat) (gid : Z) (s : Grow) : Grow :=
  if decide (gid ∈ gr_finish s) then s
  else
    let '(r, left_) := if gr_left s >? 0 then (avg + 1, gr_left s - 1) else (avg, gr_left s) in
    let '(shards, r) := reassign 0 gid r (gr_shards s) in
    MkGrow shards left_ (if r =? 0 then {[gid]} ∪ gr_finish s else gr_finish s).

Definition grow groups (lastGroups : gmap Z (list string)) (lastShards shards : list Z) : list Z :=
  let curLen := map_len groups in
  let avg := Z.quot NShards curLen in
  let left_ := Z.rem NShards curLen in
  let s := MkGrow shards left_ ∅ in
  let s := visit (grow_clean groups (lastCnt_of groups lastShards) avg) 0
             (order 2 (keys lastGroups)) s in
  let s := visit (grow_fill avg) 0 (order 3 (keys groups)) s in
  gr_shards s.

(** [adjustConfig] on a configuration that is not yet in the list. *)
Definition adjustConfig (configs : list Config) (config : Config) : option Config :=
  if map_len (Groups config) =? 0 then Some (config <| Shards := no_shards |>)
  else if map_len (Groups config) =? 1 then
    Some (config <| Shards :=
      foldl (λ shards gid, (λ _, gid) <$> shards) (Shards config) (order 0 (keys (Groups config))) |>)
  else
    lastConfig ← getConfigCopy (-1) configs;
    if map_len (Groups config) <? map_len (Groups lastConfig)
    then Some (config <| Shards :=
      shrink (Groups config) (Groups lastConfig) (Shards lastConfig) (Shards config) |>)
    else Some (config <| Shards :=
      grow (Groups config) (Groups lastConfig) (Shards lastConfig) (Shards config) |>).

(** [join], [leave] and [move]: the list of configurations with the new one. *)
Definition join (servers : gmap Z (list string)) (configs : list Config) : option (list Config) :=
  config ← getConfigCopy (-1) configs;
  let config := config <| Num := Num config + 1 |> in
  let config := config <| Groups := servers ∪ Groups config |> in
  config ← adjustConfig configs config;
  Some (configs ++ [config]).

Definition leave (gids : list Z) (configs : list Config) : option (list Config) :=
  config ← getConfigCopy (-1) configs;
  let config := config <| Num := Num config + 1 |> in
  let config := config <| Groups := foldl (λ m gid, delete gid m) (Groups config) gids |> in
  config ← adjustConfig configs config;
  Some (configs ++ [config]).

Definition move (shard gid : Z) (configs : list Config) : option (list Config) :=
  config ← getConfigCopy (-1) configs;
  let config := config <| Num := Num config + 1 |> in
  shards ← slice_set (Shards config) shard gid;
  Some (configs ++ [config <| Shards := shards |>]).

End adjust.

(** ** Counting shards *)

Definition sumZ {A} (f : A → Z) (l : list A) : Z := foldr (λ x a, f x + a) 0 l.

Lemma sumZ_ext {A} (f g : A → Z) l : (∀ x, x ∈ l → f x = g x) → sumZ f l = sumZ g l.
Proof.
  induction l as [|x l IH]; intros Hfg; simpl; [done|].
  rewrite Hfg, IH; [done|set_solver|set_solver].
Qed.

Lemma sumZ_bound {A} (f : A → Z) l a b :
  (∀ x, x ∈ l → a ≤ f x ≤ b) → a * len l ≤ sumZ f l ≤ b * len l.
Proof.
  induction l as [|x l IH]; intros Hf; simpl; [lia|].
  pose proof (Hf x ltac:(set_solver)). specialize (IH ltac:(set_solver)). lia.
Qed.

Lemma sumZ_app {A} (f : A → Z) l k : sumZ f (l ++ k) = sumZ f l + sumZ f k.
Proof. induction l as [|x l IH]; simpl; [done|]. rewrite IH. lia. Qed.

Lemma sumZ_perm {A} (f : A → Z) l k : l ≡ₚ k → sumZ f l = sumZ f k.
Proof. induction 1; simpl; lia. Qed.

Lemma sumZ_plus {A} (f g : A → Z) l : sumZ (λ x, f x + g x) l = sumZ f l + sumZ g l.
Proof. induction l as [|x l IH]; simpl; [done|]. rewrite IH. lia. Qed.

Lemma sumZ_const {A} (a : Z) (l : list A) : sumZ (λ _, a) l = a * len l.
Proof. induction l as [|x l IH]; simpl; [lia|]. rewrite IH. lia. Qed.

Lemma count_cons g s l : count_shards g (s :: l) = (if decide (s = g) then 1 else 0) + count_shards g l.
Proof. unfold count_shards. rewrite filter_cons. case_decide; simpl; lia. Qed.

Lemma count_nonneg g l : 0 ≤ count_shards g l.
Proof. unfold count_shards. lia. Qed.

Lemma count_zero g l : count_shards g l = 0 ↔ g ∉ l.
Proof.
  induction l as [|s l IH]; [split; [intros _; apply not_elem_of_nil|done]|].
  rewrite count_cons, not_elem_of_cons. pose proof (count_nonneg g l).
  case_decide; intuition (congruence || lia).
Qed.

Lemma count_pos g l : 0 < count_shards g l ↔ g ∈ l.
Proof.
  pose proof (count_zero g l). pose proof (count_nonneg g l).
  destruct (decide (g ∈ l)) as [Hin|Hin].
  - split; [done|]. intros _. destruct (decide (count_shards g l = 0)) as [Hz|]; [|lia].
    by apply count_zero in Hz.
  - split; [|done]. apply count_zero in Hin. lia.
Qed.

Lemma sumZ_count_one (s : Z) (gs : list Z) :
  NoDup gs → sumZ (λ g, if decide (s = g) then 1 else 0) gs = if decide (s ∈ gs) then 1 else 0.
Proof.
  induction 1 as [|g gs Hg _ IH]; simpl; [done|]. rewrite IH.
  repeat case_decide; subst; try lia; exfalso; set_solver.
Qed.

(** Every shard is counted once: a list over the groups [gs] has its length as the sum of
    their counts. *)
Lemma sumZ_count gs l :
  NoDup gs → (∀ s, s ∈ l → s ∈ gs) → sumZ (λ g, count_shards g l) gs = len l.
Proof.
  intros Hnd. induction l as [|s l IH]; intros Hin.
  - rewrite (sumZ_ext _ (λ _, 0)) by done. rewrite sumZ_const. simpl. lia.
  - rewrite (sumZ_ext _ (λ g, (if decide (s = g) then 1 else 0) + count_shards g l))
      by (intros; apply count_cons).
    rewrite sumZ_plus, sumZ_count_one, IH by set_solver.
    rewrite decide_True by set_solver. simpl length. lia.
Qed.

Lemma sumZ_filter {A} (P : A → Prop) `{∀ x, Decision (P x)} (f : A → Z) l :
  sumZ f (filter P l) = sumZ (λ x, if decide (P x) then f x else 0) l.
Proof.
  induction l as [|x l IH]; [done|]. rewrite filter_cons. simpl.
  case_decide; simpl; rewrite IH; lia.
Qed.

Lemma len_sumZ {A} (l : list A) : len l = sumZ (λ _, 1) l.
Proof. rewrite sumZ_const. lia. Qed.

Definition avg_shards (groups : gmap Z (list string)) : Z := Z.quot NShards (map_len groups).
Definition left_shards (groups : gmap Z (list string)) : Z := Z.rem NShards (map_len groups).

(** Every shard belongs to a group, and the groups' shares differ by at most one. *)
Definition balanced (groups : gmap Z (list string)) (shards : list Z) : Prop :=
  len shards = NShards
  ∧ (∀ g, g ∈ shards → is_Some (groups !! g))
  ∧ (∀ g, is_Some (groups !! g) → avg_shards groups ≤ count_shards g shards ≤ avg_shards groups + 1).

Lemma elem_of_keys {V} (m : gmap Z V) g : g ∈ keys m ↔ is_Some (m !! g).
Proof. unfold keys. by rewrite elem_of_elements, elem_of_dom. Qed.

Lemma NoDup_keys {V} (m : gmap Z V) : NoDup (keys m).
Proof. apply NoDup_elements. Qed.

Lemma length_keys {V} (m : gmap Z V) : len (keys m) = map_len m.
Proof. unfold keys, map_len. by rewrite <- size_dom. Qed.

Lemma avg_left groups :
  0 < map_len groups →
  NShards = avg_shards groups * map_len groups + left_shards groups
  ∧ 0 ≤ left_shards groups < map_len groups ∧ 0 ≤ avg_shards groups.
Proof.
  intros Hl. unfold avg_shards, left_shards. split_and!.
  - rewrite Z.mul_comm. by apply Z.quot_rem'.
  - by apply Z.rem_nonneg; [lia|].
  - apply Z.rem_bound_pos; [done|lia].
  - apply Z.quot_pos; [done|lia].
Qed.

Section order_lemmas.
Variable order : MapOrder.
Hypothesis Horder : legal_order order.
Implicit Types (groups lastGroups : gmap Z (list string)).

Lemma elem_of_order k ks g : g ∈ order k ks ↔ g ∈ ks.
Proof. by rewrite (Horder k ks). Qed.

Lemma NoDup_order k ks : NoDup ks → NoDup (order k ks).
Proof. by rewrite (Horder k ks). Qed.

Lemma length_order k ks : len (order k ks) = len ks.
Proof. by rewrite (Horder k ks). Qed.

Lemma lastCnt_lookup groups lastShards g :
  lastCnt_of order groups lastShards !! g =
  if decide (is_Some (groups !! g) ∧ count_shards g lastShards ≠ 0)
  then Some (count_shards g lastShards) else None.
Proof.
  unfold lastCnt_of.
  assert (∀ gs (m : gmap Z Z), foldl (λ m gid, let n := count_shards gid lastShards in
        if n =? 0 then m else <[gid := n]> m) m gs !! g =
      if decide (g ∈ gs ∧ count_shards g lastShards ≠ 0)
      then Some (count_shards g lastShards) else m !! g) as Hf.
  { induction gs as [|x gs IH]; intros m; cbn [foldl].
    - case_decide as Hd; [|done]. destruct Hd as [Hx _]. by apply not_elem_of_nil in Hx.
    - rewrite IH. destruct (Z.eqb_spec (count_shards x lastShards) 0) as [Hx|Hx].
      + repeat case_decide; try done; exfalso; set_solver.
      + destruct (decide (g = x)) as [->|].
        * rewrite lookup_insert_eq. repeat case_decide; try done; exfalso; set_solver.
        * rewrite lookup_insert_ne by done. repeat case_decide; try done; exfalso; set_solver. }
  rewrite Hf, lookup_empty.
  assert (g ∈ order 1 (keys groups) ↔ is_Some (groups !! g)) as Hk
    by (rewrite elem_of_order; apply elem_of_keys).
  repeat case_decide; try done; exfalso; tauto.
Qed.

End order_lemmas.
