(* ===== verification/ShardLeave.v ===== *)
(** * Leaving groups: the shrinking branch of [adjustConfig]

    When groups leave, their shards move to the groups that stay; no staying group loses
    a shard, and when enough groups are short of their share the result is balanced. *)
From S2P Require Import Prelude ShardConfig.

(** What holds between the shards of the old configuration and the new one while shards
    move from departed groups to the groups of [groups]. *)
Definition moving (dep : Z → Prop) (groups : gmap Z (list string)) (last cur : list Z) : Prop :=
  Forall2 (λ l c, (dep l ∧ c = l) ∨ (¬ dep l ∧ is_Some (groups !! c))) last cur.

Lemma move_shards_spec (dep : Z → Prop) (groups : gmap Z (list string)) old gid r last cur :
  dep old → ¬ dep 0 → is_Some (groups !! gid) → (∀ g, is_Some (groups !! g) → ¬ dep g) →
  moving dep groups last cur → 0 < r →
  let m := Z.min r (count_shards old last) in
  ∃ last' cur', move_shards old gid r last cur = (last', cur', r - m)
  ∧ moving dep groups last' cur'
  ∧ count_shards old last' = count_shards old last - m
  ∧ (∀ g, dep g → g ≠ old → count_shards g last' = count_shards g last)
  ∧ count_shards gid cur' = count_shards gid cur + m
  ∧ (∀ g, is_Some (groups !! g) → g ≠ gid → count_shards g cur' = count_shards g cur).
Proof.
  intros Hold H0 Hgid Hdep Hmov. cbv zeta. revert r. induction Hmov as [|l c last cur Hlc Hmov IH]; intros r Hr.
  { exists [], []. unfold count_shards. simpl.
    split; [f_equal; lia|]. split; [constructor|]. split_and!; intros; simpl; lia. }
  simpl. rewrite !count_cons. pose proof (count_nonneg old last).
  assert (gid ≠ old) as Hne by (intros ->; by apply (Hdep old Hgid)).
  assert (∀ g, is_Some (groups !! g) → g ≠ old) as Hgo by (intros g Hg ->; by apply (Hdep old Hg)).
  destruct (Z.eqb_spec l old) as [->|Hl].
  - assert (c = old) as -> by (destruct Hlc as [[_ ?]|[? _]]; [done|contradiction]).
    rewrite (decide_True (P := old = old)) by done.
    assert (0 ≠ old) as H0o by (intros <-; contradiction).
    assert ((dep 0 ∧ gid = 0) ∨ (¬ dep 0 ∧ is_Some (groups !! gid))) as Hnew by (right; auto).
    destruct (Z.eqb_spec (r - 1) 0) as [Hr1|Hr1].
    + exists (0 :: last), (gid :: cur). 
      split; [f_equal; lia|]. split; [by constructor|]. rewrite !count_cons.
      rewrite (decide_False (P := 0 = old)), (decide_True (P := gid = gid)),
        (decide_False (P := old = gid)) by done.
      split_and!; [lia| |lia|].
      * intros g Hg ?. rewrite !count_cons. rewrite (decide_False (P := old = g)) by done.
        rewrite decide_False; [lia|]. by intros <-.
      * intros g Hg ?. rewrite !count_cons. specialize (Hgo g Hg).
        rewrite !decide_False by done. lia.
    + destruct (IH (r - 1)) as (last' & cur' & -> & Hm' & Ho' & Hd' & Hg' & Hs'); [lia|].
      exists (0 :: last'), (gid :: cur').
      split; [f_equal; lia|]. split; [by constructor|]. rewrite !count_cons.
      rewrite (decide_False (P := 0 = old)), (decide_True (P := gid = gid)),
        (decide_False (P := old = gid)) by done.
      split_and!; [lia| |lia|].
      * intros g Hg ?. rewrite !count_cons, Hd' by done. rewrite (decide_False (P := old = g)) by done.
        rewrite decide_False; [lia|]. by intros <-.
      * intros g Hg ?. rewrite !count_cons, Hs' by done. specialize (Hgo g Hg).
        rewrite !decide_False by done. lia.
  - rewrite (decide_False (P := l = old)) by done.
    destruct (Z.eqb_spec r 0); [lia|].
    destruct (IH r) as (last' & cur' & -> & Hm' & Ho' & Hd' & Hg' & Hs'); [lia|].
    exists (l :: last'), (c :: cur').
    split; [f_equal; lia|]. split; [by constructor|]. rewrite !count_cons.
    rewrite (decide_False (P := l = old)) by done.
    split_and!; [lia| |lia|].
    + intros g Hg ?. by rewrite !count_cons, Hd'.
    + intros g Hg ?. by rewrite !count_cons, Hs'.
Qed.

Lemma sumZ_update (f f' : Z → Z) l x m :
  NoDup l → x ∈ l → f' x = f x - m → (∀ y, y ∈ l → y ≠ x → f' y = f y) → sumZ f' l = sumZ f l - m.
Proof.
  induction 1 as [|y l Hy _ IH]; intros Hx Hfx Hf; [by apply not_elem_of_nil in Hx|]. simpl.
  destruct (decide (x = y)) as [<-|Hne].
  - rewrite Hfx, (sumZ_ext f' f); [lia|]. intros z Hz. apply Hf; [set_solver|]. by intros ->.
  - rewrite IH; [|set_solver|done|intros; apply Hf; set_solver]. rewrite Hf; [lia|set_solver|done].
Qed.

(** The groups of [olds] that are gone, and the shards they still have. *)
Definition departed (groups : gmap Z (list string)) (olds : list Z) : list Z :=
  filter (λ g, groups !! g = None) olds.
Definition available (D last : list Z) : Z := sumZ (λ g, count_shards g last) D.

Lemma available_nonneg D last : 0 ≤ available D last.
Proof.
  unfold available. induction D as [|g D IH]; simpl; [done|]. pose proof (count_nonneg g last). lia.
Qed.

Lemma move_groups_spec groups D gid r olds last cur cnt :
  NoDup olds → NoDup D → 0 ∉ D → departed groups olds ⊆ D → (∀ g, is_Some (groups !! g) → g ∉ D) →
  is_Some (groups !! gid) → moving (.∈ D) groups last cur →
  0 < r ≤ available (departed groups olds) last →
  ∃ last' cur' cnt', move_groups groups gid r olds last cur cnt = (last', cur', cnt')
  ∧ moving (.∈ D) groups last' cur'
  ∧ available D last' = available D last - r
  ∧ (∀ g, is_Some (groups !! g) → cnt' !! g = cnt !! g)
  ∧ count_shards gid cur' = count_shards gid cur + r
  ∧ (∀ g, is_Some (groups !! g) → g ≠ gid → count_shards g cur' = count_shards g cur).
Proof.
  intros Hnd HD H0 Hsub HgD Hgid. revert r last cur cnt.
  induction Hnd as [|old olds Hold _ IH]; intros r last cur cnt Hmov Hr.
  { unfold available in Hr. simpl in Hr. lia. }
  simpl. unfold departed in Hsub, Hr, IH. rewrite filter_cons in Hsub, Hr.
  destruct (groups !! old) as [v|] eqn:Ho.
  { rewrite decide_False in Hsub, Hr by done. by apply IH. }
  rewrite decide_True in Hsub, Hr by done.
  unfold available in Hr. simpl in Hr. fold (available (filter (λ g, groups !! g = None) olds) last) in Hr.
  assert (old ∈ D) as HoD by set_solver.
  destruct (move_shards_spec (.∈ D) groups old gid r last cur HoD H0 Hgid HgD Hmov) as
    (last1 & cur1 & Heq & Hm1 & Hc1 & Hd1 & Hg1 & Hs1); [lia|].
  rewrite Heq. set (m := Z.min r (count_shards old last)) in *.
  set (cnt1 := if _ =? _ then cnt else _).
  assert (∀ g, is_Some (groups !! g) → cnt1 !! g = cnt !! g) as Hcnt.
  { intros g Hg. unfold cnt1. destruct (_ =? _); [done|]. apply lookup_insert_ne. intros ->.
    rewrite Ho in Hg. by destruct Hg. }
  assert (available D last1 = available D last - m) as Hav.
  { apply (sumZ_update _ _ _ old); [done|done|done|]. intros y Hy Hne. by apply Hd1. }
  destruct (Z.eqb_spec (r - m) 0) as [Hz|Hz].
  - exists last1, cur1, cnt1. split_and!; [done|done|lia|done|lia|done].
  - destruct (IH ltac:(set_solver) (r - m) last1 cur1 cnt1) as
      (last' & cur' & cnt' & -> & Hm' & Ha' & Hc' & Hg' & Hs'); [done| |].
    + split; [lia|]. unfold available. rewrite (sumZ_ext _ (λ g, count_shards g last)).
      * unfold available in Hr. lia.
      * intros g Hg. apply Hd1; [set_solver|]. intros ->. apply list_elem_of_filter in Hg as [_ ?].
        contradiction.
    + exists last', cur', cnt'. split_and!; [done|done|lia| |lia|].
      * intros g Hg. by rewrite Hc', Hcnt.
      * intros g Hg Hne. by rewrite Hs', Hs1.
Qed.

(** The moves keep the length and every shard whose group stays. *)
Lemma move_shards_keep old gid r last cur last' cur' r' :
  move_shards old gid r last cur = (last', cur', r') →
  length last' = length last ∧ length cur' = length cur
  ∧ ∀ i x, x ≠ old → last !! i = Some x → last' !! i = Some x ∧ cur' !! i = cur !! i.
Proof.
  revert r cur last' cur' r'. induction last as [|l last IH]; intros r [|c cur] last' cur' r'; simpl;
    [intros; by simplify_eq..|].
  destruct (Z.eqb_spec l old) as [->|Hl].
  - destruct (r - 1 =? 0).
    + intros; simplify_eq/=. split_and!; [done..|]. intros [|i] x ? ?; simplify_eq/=; auto.
    + destruct (move_shards old gid (r - 1) last cur) as [[last1 cur1] r1] eqn:Heq.
      intros; simplify_eq/=. apply IH in Heq as (-> & -> & Hk). split_and!; [done..|].
      intros [|i] x ? ?; simplify_eq/=; auto.
  - destruct (r =? 0).
    + intros; simplify_eq/=. auto.
    + destruct (move_shards old gid r last cur) as [[last1 cur1] r1] eqn:Heq.
      intros; simplify_eq/=. apply IH in Heq as (-> & -> & Hk). split_and!; [done..|].
      intros [|i] x ? ?; simplify_eq/=; auto.
Qed.

(** [last] and [cur] agree with [shards0] on the shards of staying groups. *)
Definition kept (groups : gmap Z (list string)) (shards0 last cur : list Z) : Prop :=
  length cur = length shards0
  ∧ ∀ i x, shards0 !! i = Some x → is_Some (groups !! x) → last !! i = Some x ∧ cur !! i = Some x.

Lemma move_groups_keep groups shards0 gid r olds last cur cnt last' cur' cnt' :
  move_groups groups gid r olds last cur cnt = (last', cur', cnt') →
  kept groups shards0 last cur → kept groups shards0 last' cur'.
Proof.
  revert r last cur cnt. induction olds as [|old olds IH]; intros r last cur cnt; simpl.
  { intros [= <- <- <-]. done. }
  destruct (groups !! old) as [v|] eqn:Ho; [apply IH|].
  destruct (move_shards old gid r last cur) as [[last1 cur1] r1] eqn:Heq.
  intros Hm [Hlen Hk]. assert (kept groups shards0 last1 cur1) as Hk1.
  { apply move_shards_keep in Heq as (_ & Hl & Hk'). split; [congruence|].
    intros i x Hi Hx. destruct (Hk i x Hi Hx) as [H1 H2].
    assert (x ≠ old) by (intros ->; rewrite Ho in Hx; by destruct Hx).
    destruct (Hk' i x) as [? Hc]; [done|done|]. by rewrite Hc. }
  destruct (r1 =? 0); [by simplify_eq|]. by eapply IH.
Qed.

Lemma visit_ind {T} (P : T → Prop) (body : nat → Z → T → T) k gids s :
  (∀ k g s, P s → P (body k g s)) → P s → P (visit body k gids s).
Proof. intros Hb. revert k s. induction gids as [|g gids IH]; intros k s Hs; simpl; auto. Qed.

Lemma shrink_keep order groups lastGroups shards0 :
  kept groups shards0 shards0 (shrink order groups lastGroups shards0 shards0).
Proof.
  assert (∀ s r k g l, kept groups shards0 (sh_last s) (sh_cur s) →
    let '(last, cur, cnt) := move_groups groups g r (order k (keys lastGroups))
      (sh_last s) (sh_cur s) (sh_cnt s) in
    kept groups shards0 (sh_last (MkShrink last cur cnt l)) (sh_cur (MkShrink last cur cnt l))) as Hm.
  { intros s r k g l Hk. destruct (move_groups _ _ _ _ _ _ _) as [[last cur] cnt] eqn:Heq.
    by eapply move_groups_keep. }
  unfold shrink.
  set (s0 := MkShrink shards0 shards0 _ _).
  set (s1 := visit (shrink_same _ _ _ _) _ _ s0).
  set (s2 := visit (shrink_diff _ _ _ _) _ _ s1).
  assert (kept groups shards0 (sh_last s2) (sh_cur s2)) as [Hl Hk].
  { unfold s2. apply (visit_ind (λ s, kept groups shards0 (sh_last s) (sh_cur s))).
    - intros k g s Hs. unfold shrink_diff. destruct (sh_cnt s !! g); [done|].
      destruct (if _ >? 0 then _ else _) as [r l]. specialize (Hm s r (3 + k)%nat g l Hs).
      by destruct (move_groups _ _ _ _ _ _ _) as [[? ?] ?].
    - unfold s1. apply (visit_ind (λ s, kept groups shards0 (sh_last s) (sh_cur s))); [|by split].
      intros k g s Hs. unfold shrink_same. destruct (sh_cnt s !! g) as [n|]; [|done].
      destruct (_ =? 0); [done|].
      destruct (if _ >? 0 then _ else _) as [r l]. specialize (Hm s r (3 + k)%nat g l Hs).
      destruct (r =? 0); [done|]. by destruct (move_groups _ _ _ _ _ _ _) as [[? ?] ?]. }
  split; [done|]. intros i x Hi Hx. split; [done|]. by apply Hk.
Qed.

Section shrink_proofs.
Variable order : MapOrder.
Hypothesis Horder : legal_order order.
Implicit Types (groups lastGroups : gmap Z (list string)).

(** *** The shrinking branch *)
Section shrinking.
Context (groups : gmap Z (list string)) (olds : list Z) (shards0 : list Z).
Let D := departed groups olds.
Let avg := avg_shards groups.
Let c g := count_shards g shards0.

Hypothesis Holds : NoDup olds.
Hypothesis H0 : 0 ∉ olds.
Hypothesis Hroom : ∀ g, is_Some (groups !! g) → c g ≤ avg.
Hypothesis Havg : 1 ≤ avg.

(** The loop state when the groups [R] are still to be served. *)
Record shrink_inv (R : list Z) (s : Shrink) : Prop := {
  shi_NoDup : NoDup R;
  shi_groups : ∀ g, g ∈ R → is_Some (groups !! g) ∧ count_shards g (sh_cur s) = c g ∧ c g < avg;
  shi_moving : moving (.∈ D) groups (sh_last s) (sh_cur s);
  shi_available : available D (sh_last s) = sumZ (λ g, avg - c g) R + sh_left s;
  shi_left : 0 ≤ sh_left s ≤ len R;
  shi_cnt : ∀ g, is_Some (groups !! g) → sh_cnt s !! g = lastCnt_of order groups shards0 !! g;
  shi_done : ∀ g, is_Some (groups !! g) → g ∉ R → avg ≤ count_shards g (sh_cur s) ≤ avg + 1
}.

Lemma departed_order k : departed groups (order k olds) ≡ₚ D.
Proof. unfold departed, D. by rewrite (Horder k olds). Qed.

(** Serving one group: [r] is its deficit, plus one of the left-over shards if any. *)
Lemma shrink_take R g s k :
  let '(r, l) := if sh_left s >? 0 then (avg - c g + 1, sh_left s - 1) else (avg - c g, sh_left s) in
  shrink_inv (g :: R) s →
  r ≠ 0 ∧
  let '(last, cur, cnt) := move_groups groups g r (order k olds) (sh_last s) (sh_cur s) (sh_cnt s) in
  shrink_inv R (MkShrink last cur cnt l).
Proof.
  destruct (if sh_left s >? 0 then _ else _) as [r l] eqn:Hrl.
  intros [Hnd Hg Hmov Hav Hleft Hcnt Hdone]. simpl in Hav, Hleft.
  destruct (Hg g) as (HgS & Hgc & Hgav); [set_solver|].
  inversion_clear Hnd as [|? ? HgR HR].
  assert (0 ≤ sumZ (λ g, avg - c g) R) as Hsum.
  { assert (∀ l : list Z, (∀ x, x ∈ l → c x < avg) → 0 ≤ sumZ (λ g, avg - c g) l) as Hpos.
    { induction l0 as [|x l0 IH]; intros Hx; simpl; [done|].
      pose proof (Hx x ltac:(set_solver)). specialize (IH ltac:(set_solver)). lia. }
    apply Hpos. intros x Hx. by apply Hg; set_solver. }
  assert (r = avg - c g + (sh_left s - l) ∧ 0 ≤ l ≤ len R ∧ (l = sh_left s ∨ l = sh_left s - 1))
    as (Hr & Hl & Hlc).
  { revert Hrl. rewrite Z.gtb_ltb. destruct (Z.ltb_spec 0 (sh_left s)); intros; simplify_eq; lia. }
  split; [lia|].
  destruct (move_groups_spec groups D g r (order k olds) (sh_last s) (sh_cur s) (sh_cnt s))
    as (last & cur & cnt & -> & Hm & Ha & Hc & Hgr & Hs); try done.
  - by apply (NoDup_order _ Horder).
  - by apply list.NoDup_filter.
  - unfold D, departed. rewrite list_elem_of_filter. tauto.
  - by rewrite departed_order.
  - intros x [v Hv] Hx. apply list_elem_of_filter in Hx as [Hx _]. by rewrite Hv in Hx.
  - unfold available. rewrite (sumZ_perm _ _ _ (departed_order k)).
    fold (available D (sh_last s)). lia.
  - constructor; simpl; try done.
    + intros x Hx. destruct (Hg x) as (? & ? & ?); [set_solver|].
      split_and!; [done| |done]. rewrite Hs; [done|done|]. by intros ->.
    + lia.
    + intros x Hx. rewrite Hc by done. by apply Hcnt.
    + intros x Hx HxR. destruct (decide (x = g)) as [->|Hne]; [lia|].
      rewrite Hs by done. apply Hdone; [done|]. set_solver.
Qed.

(** The groups a list of visited groups still has to serve, in each loop. *)
Definition same_takers (gs : list Z) : list Z := filter (λ g, 0 < c g < avg) gs.
Definition diff_takers (gs : list Z) : list Z := filter (λ g, c g = 0) gs.

Lemma visit_same R gs k s :
  (∀ g, g ∈ gs → is_Some (groups !! g)) → shrink_inv (same_takers gs ++ R) s →
  shrink_inv R (visit (shrink_same order groups olds avg) k gs s).
Proof.
  revert k s. induction gs as [|g gs IH]; intros k s Hgs Hinv; [done|]. simpl.
  apply IH; [set_solver|]. unfold same_takers in *. rewrite filter_cons in Hinv.
  assert (is_Some (groups !! g)) as Hg by set_solver.
  unfold shrink_same. rewrite (shi_cnt _ _ Hinv g Hg), lastCnt_lookup by done. fold (c g).
  pose proof (Hroom g Hg). pose proof (count_nonneg g shards0) as Hc. fold (c g) in Hc.
  destruct (decide (c g = 0)) as [Hz|Hz].
  { rewrite decide_False by tauto. rewrite decide_False in Hinv by lia. done. }
  rewrite decide_True by tauto.
  destruct (Z.eqb_spec (avg - c g) 0) as [Ha|Ha].
  { rewrite decide_False in Hinv by lia. done. }
  rewrite decide_True in Hinv by lia. simpl in Hinv.
  pose proof (shrink_take (filter (λ g, 0 < c g < avg) gs ++ R) g s (3 + k)) as Ht.
  destruct (if sh_left s >? 0 then _ else _) as [r l].
  destruct (Ht Hinv) as [Hr Hi]. rewrite (proj2 (Z.eqb_neq r 0)) by done.
  destruct (move_groups _ _ _ _ _ _ _) as [[last cur] cnt]. done.
Qed.

Lemma visit_diff gs k s :
  (∀ g, g ∈ gs → is_Some (groups !! g)) → shrink_inv (diff_takers gs) s →
  shrink_inv [] (visit (shrink_diff order groups olds avg) k gs s).
Proof.
  revert k s. induction gs as [|g gs IH]; intros k s Hgs Hinv; [done|]. simpl.
  apply IH; [set_solver|]. unfold diff_takers in *. rewrite filter_cons in Hinv.
  assert (is_Some (groups !! g)) as Hg by set_solver.
  unfold shrink_diff. rewrite (shi_cnt _ _ Hinv g Hg), lastCnt_lookup by done. fold (c g).
  destruct (decide (c g = 0)) as [Hz|Hz].
  - rewrite (decide_False (P := _ ∧ _)) by tauto.
    pose proof (shrink_take (filter (λ g, c g = 0) gs) g s (3 + k)) as Ht. rewrite Hz, Z.sub_0_r in Ht.
    destruct (if sh_left s >? 0 then _ else _) as [r l]. destruct (Ht Hinv) as [_ Hi].
    destruct (move_groups _ _ _ _ _ _ _) as [[last cur] cnt]. done.
  - by rewrite (decide_True (P := _ ∧ _)) by tauto.
Qed.

End shrinking.

(** Enough groups are short of their share to take the left-over shards, and none has
    more than its share. *)
Definition room_to_shrink groups (shards0 : list Z) : Prop :=
  (∀ g : Z, is_Some (groups !! g) → count_shards g shards0 ≤ avg_shards groups)
  ∧ left_shards groups ≤ len (filter (λ g, count_shards g shards0 < avg_shards groups) (keys groups)).

Lemma available_pos D last x : x ∈ D → x ∈ last → 0 < available D last.
Proof.
  intros Hx Hl%count_pos. induction D as [|y D IH]; [by apply not_elem_of_nil in Hx|].
  unfold available. simpl. fold (available D last).
  pose proof (available_nonneg D last). pose proof (count_nonneg y last).
  apply elem_of_cons in Hx as [<-|Hx]; [lia|]. specialize (IH Hx). lia.
Qed.

(** The shards of the departed groups and of the remaining ones are all the shards. *)
Lemma departed_shards groups lastGroups shards0 :
  (∀ g, g ∈ shards0 → is_Some (lastGroups !! g)) →
  available (departed groups (keys lastGroups)) shards0
  + sumZ (λ g, count_shards g shards0) (keys groups) = len shards0.
Proof.
  intros Hin. unfold available. rewrite <- sumZ_app. apply sumZ_count.
  - apply list.NoDup_app. split_and!; [apply list.NoDup_filter, NoDup_keys| |apply NoDup_keys].
    intros g Hg Hg'. apply elem_of_keys in Hg' as [v Hv].
    apply list_elem_of_filter in Hg as [Hg _]. congruence.
  - intros g Hg. rewrite elem_of_app. unfold departed. rewrite list_elem_of_filter, !elem_of_keys.
    specialize (Hin g Hg). destruct (groups !! g) eqn:?; [right; eauto|left; done].
Qed.

Section shrink_start.
Context (groups lastGroups : gmap Z (list string)) (shards0 o2 o3 : list Z).
Hypothesis Hp2 : o2 ≡ₚ keys groups.
Hypothesis Hp3 : o3 ≡ₚ keys groups.
Hypothesis Havg : 1 ≤ avg_shards groups.
Hypothesis Hroom : ∀ g, is_Some (groups !! g) → count_shards g shards0 ≤ avg_shards groups.
Let c g := count_shards g shards0.

(** The groups served over both loops. *)
Definition takers : list Z := same_takers groups shards0 o2 ++ diff_takers shards0 o3.

Lemma elem_of_takers g : g ∈ takers ↔ is_Some (groups !! g) ∧ c g < avg_shards groups.
Proof.
  unfold takers, same_takers, diff_takers.
  rewrite elem_of_app, !list_elem_of_filter, Hp2, Hp3, elem_of_keys. fold (c g).
  pose proof (count_nonneg g shards0 : 0 ≤ c g).
  split; [intros [[? ?]|[? ?]]; split; (done || lia)|]. intros [? ?].
  destruct (decide (c g = 0)); [right; done|left; split; [lia|done]].
Qed.

Lemma NoDup_takers : NoDup takers.
Proof.
  unfold takers, same_takers, diff_takers. apply list.NoDup_app.
  split_and!; [apply list.NoDup_filter; rewrite Hp2; apply NoDup_keys| |
               apply list.NoDup_filter; rewrite Hp3; apply NoDup_keys].
  intros g. rewrite !list_elem_of_filter. lia.
Qed.

Lemma sum_takers (f : Z → Z) :
  (∀ g, is_Some (groups !! g) → c g = avg_shards groups → f g = 0) →
  sumZ f takers = sumZ f (keys groups).
Proof.
  intros Hf. unfold takers, same_takers, diff_takers. rewrite sumZ_app, !sumZ_filter.
  rewrite (sumZ_perm _ _ _ Hp2), (sumZ_perm _ _ _ Hp3), <- sumZ_plus.
  apply sumZ_ext. intros g Hg%elem_of_keys. specialize (Hroom g Hg). specialize (Hf g Hg).
  pose proof (count_nonneg g shards0). fold (c g) in *. repeat case_decide; lia.
Qed.

Lemma shrink_inv_start :
  0 < map_len groups → len shards0 = NShards → (∀ g, g ∈ shards0 → is_Some (lastGroups !! g)) →
  left_shards groups ≤ len (filter (λ g, count_shards g shards0 < avg_shards groups) (keys groups)) →
  shrink_inv groups (keys lastGroups) shards0 takers
    (MkShrink shards0 shards0 (lastCnt_of order groups shards0) (left_shards groups)).
Proof.
  intros Hpos Hlen Hin Hleft. destruct (avg_left groups Hpos) as (Hdiv & Hl & _).
  constructor; simpl.
  - apply NoDup_takers.
  - intros g [? ?]%elem_of_takers. done.
  - apply Forall2_same_length_lookup_2; [done|]. intros i x y Hx Hy. simplify_eq.
    assert (is_Some (lastGroups !! x)) as Hlx by (apply Hin; by eapply list_elem_of_lookup_2).
    unfold departed. rewrite list_elem_of_filter, elem_of_keys.
    destruct (groups !! x) as [v|] eqn:Hgx; [right; split; [|eauto]|left; auto].
    intros [? _]. done.
  - pose proof (departed_shards groups lastGroups shards0 Hin) as Ht.
    rewrite sum_takers by (intros; fold (c g); lia). fold c in Ht |- *.
    assert (∀ l, sumZ (λ g, avg_shards groups - c g) l = avg_shards groups * len l - sumZ c l) as ->.
    { induction l as [|x l IH]; simpl; [lia|]. rewrite IH. lia. }
    rewrite length_keys. lia.
  - rewrite len_sumZ, sumZ_filter in Hleft. rewrite (len_sumZ takers).
    split; [lia|]. unfold takers, same_takers, diff_takers. rewrite sumZ_app, !sumZ_filter.
    rewrite (sumZ_perm _ _ _ Hp2), (sumZ_perm _ _ _ Hp3), <- sumZ_plus.
    etrans; [exact Hleft|]. apply Z.eq_le_incl, sumZ_ext. intros g _.
    pose proof (count_nonneg g shards0). repeat case_decide; lia.
  - done.
  - intros g Hg HgR. rewrite elem_of_takers in HgR. specialize (Hroom g Hg).
    fold (c g) in *. assert (¬ c g < avg_shards groups) by tauto. lia.
Qed.
End shrink_start.

Lemma shrink_balanced groups lastGroups shards0 :
  lastGroups !! 0 = None → len shards0 = NShards →
  (∀ g, g ∈ shards0 → is_Some (lastGroups !! g)) →
  2 ≤ map_len groups ≤ NShards → room_to_shrink groups shards0 →
  balanced groups (shrink order groups lastGroups shards0 shards0).
Proof.
  intros H0 Hlen Hin Hcur [Hroom Hleft].
  destruct (shrink_keep order groups lastGroups shards0) as [Hk _].
  destruct (avg_left groups) as (Hdiv & Hl & _); [lia|].
  assert (1 ≤ avg_shards groups) as Havg by (unfold NShards in *; nia).
  unfold shrink in *. fold (avg_shards groups) (left_shards groups) in *.
  set (o2 := order 2 (keys groups)) in *.
  set (o3 := order (3 + 2 * length (keys groups)) (keys groups)) in *.
  assert (o2 ≡ₚ keys groups ∧ o3 ≡ₚ keys groups) as [Hp2 Hp3] by (split; apply Horder).
  assert (∀ g, g ∈ o2 → is_Some (groups !! g)) as Ho2 by (intros g; rewrite Hp2; apply elem_of_keys).
  assert (∀ g, g ∈ o3 → is_Some (groups !! g)) as Ho3 by (intros g; rewrite Hp3; apply elem_of_keys).
  assert (0 ∉ keys lastGroups) as H0o by (rewrite elem_of_keys, H0; by intros [? ?]).
  pose proof (shrink_inv_start groups lastGroups shards0 o2 o3 Hp2 Hp3 Havg Hroom
    ltac:(lia) Hlen Hin Hleft) as Hinv.
  apply visit_same with (k := 0%nat) in Hinv; [|apply NoDup_keys|done|done|done|done].
  apply visit_diff with (k := length (keys groups)) in Hinv; [|apply NoDup_keys|done|done|done|done].
  destruct Hinv as [_ _ Hmov Hav Hl0 _ Hdone]. simpl in Hav, Hl0.
  set (s2 := visit _ _ _ _) in *. split_and!.
  - lia.
  - intros g Hg. apply list_elem_of_lookup_1 in Hg as [i Hi].
    destruct (Forall2_lookup_r _ _ _ _ _ Hmov Hi) as (x & Hx & [[HxD ->]|[_ ?]]); [|done].
    apply list_elem_of_lookup_2 in Hx. pose proof (available_pos _ _ _ HxD Hx). lia.
  - intros g Hg. apply Hdone; [done|]. apply not_elem_of_nil.
Qed.

End shrink_proofs.
