(* ===== verification/ShardJoin.v ===== *)
(** * Joining groups: the growing branch of [adjustConfig]

    When groups join, each old group gives up what exceeds its share and the new groups
    take it: shards only move to new groups, and a balanced configuration stays so. *)
From S2P Require Import Prelude ShardConfig.

(** ** The loops *)

(** [shards'] is [shards] with some entries [a] replaced by [b]. *)
Definition replaced (a b : Z) (shards shards' : list Z) : Prop :=
  Forall2 (λ x y, y = x ∨ (x = a ∧ y = b)) shards shards'.

Lemma replaced_refl a b l : replaced a b l l.
Proof. unfold replaced. induction l; constructor; auto. Qed.

(** Taking [r] of at least [r] entries. *)
Lemma reassign_spec a b r l :
  a ≠ b → 0 < r ≤ count_shards a l →
  ∃ l', reassign a b r l = (l', 0) ∧ replaced a b l l'
  ∧ count_shards a l' = count_shards a l - r ∧ count_shards b l' = count_shards b l + r
  ∧ ∀ g, g ≠ a → g ≠ b → count_shards g l' = count_shards g l.
Proof.
  intros Hab. revert r. induction l as [|s l IH]; intros r Hr; [unfold count_shards in Hr; simpl in Hr; lia|].
  simpl. rewrite count_cons in Hr. destruct (Z.eqb_spec s a) as [->|Hs].
  - rewrite decide_True in Hr by done. destruct (Z.eqb_spec (r - 1) 0) as [Hr1|Hr1].
    + exists (b :: l). rewrite Hr1. split; [done|]. split; [constructor; [auto|apply replaced_refl]|].
      rewrite !count_cons. repeat case_decide; try congruence. split_and!; try lia.
      intros g ? ?. rewrite !count_cons. repeat case_decide; try congruence; lia.
    + destruct (IH (r - 1)) as (l' & -> & Hrep & Ha & Hb & Hg); [lia|].
      exists (b :: l'). split; [done|]. split; [constructor; auto|].
      rewrite !count_cons. repeat case_decide; try congruence. split_and!; try lia.
      intros g ? ?. rewrite !count_cons. repeat case_decide; try congruence; rewrite Hg by done; lia.
  - rewrite decide_False in Hr by done. destruct (Z.eqb_spec r 0); [lia|].
    destruct (IH r) as (l' & -> & Hrep & Ha & Hb & Hg); [lia|].
    exists (s :: l'). split; [done|]. split; [constructor; auto|].
    rewrite !count_cons. rewrite (decide_False (P := s = a)) by done. split_and!; try lia.
    intros g ? ?. rewrite !count_cons. rewrite Hg by done. lia.
Qed.

(** Taking none when there is none. *)
Lemma reassign_zero a b l : count_shards a l = 0 → reassign a b 0 l = (l, 0).
Proof.
  destruct l as [|s l]; [done|]. rewrite count_cons. pose proof (count_nonneg a l).
  case_decide; [lia|]. intros _. simpl. destruct (Z.eqb_spec s a); [done|]. done.
Qed.


Lemma replaced_zero g shards0 shards shards' :
  Forall2 (λ x y, y = x ∨ y = 0) shards0 shards → replaced g 0 shards shards' →
  Forall2 (λ x y, y = x ∨ y = 0) shards0 shards'.
Proof.
  intros Ha. revert shards'. induction Ha as [|x y l k Hxy _ IH]; intros shards' Hb;
    inversion Hb; subst; constructor; [intuition congruence|by apply IH].
Qed.

Section grow_proofs.
Variable order : MapOrder.
Hypothesis Horder : legal_order order.
Context (groups lastGroups : gmap Z (list string)) (shards0 : list Z).
Hypothesis Hsub : ∀ g, is_Some (lastGroups !! g) → is_Some (groups !! g).
Hypothesis H0 : groups !! 0 = None.
Hypothesis Hlen : len shards0 = NShards.
Let avg := avg_shards groups.
Let c g := count_shards g shards0.

(** The old shards: all unassigned, or balanced over the old groups. *)
Definition balanced_or_fresh : Prop :=
  (lastGroups = ∅ ∧ ∀ s, s ∈ shards0 → s = 0)
  ∨ (0 < map_len lastGroups ∧ balanced lastGroups shards0).
Hypothesis Hbal : balanced_or_fresh.
Hypothesis Hcur : 0 < map_len groups.

Definition is_new (g : Z) : Prop := lastGroups !! g = None.

Lemma map_len_le : map_len lastGroups ≤ map_len groups.
Proof.
  unfold map_len. rewrite <- !size_dom. apply inj_le, subseteq_size.
  intros g. rewrite !elem_of_dom. apply Hsub.
Qed.

Lemma old_ne_0 g : is_Some (lastGroups !! g) → g ≠ 0.
Proof. intros Hg ->. apply Hsub in Hg. rewrite H0 in Hg. by destruct Hg. Qed.

(** An old group has at least the new share. *)
Lemma old_share g :
  is_Some (lastGroups !! g) →
  avg ≤ avg_shards lastGroups ≤ c g ∧ c g ≤ avg_shards lastGroups + 1.
Proof.
  intros Hg. destruct Hbal as [[-> _]|(Hpos & _ & _ & Hb)].
  { rewrite lookup_empty in Hg. by destruct Hg. }
  destruct (Hb g Hg). split; [|done]. split; [|done].
  unfold avg, avg_shards. apply Z.quot_le_compat_l; [done|]. split; [done|]. apply map_len_le.
Qed.

(** *** The first loop: [ds] are the old groups already seen, [gs] the others *)
Record clean_inv (ds gs : list Z) (s : Grow) : Prop := {
  cl_NoDup : NoDup gs;
  cl_old : ∀ g, g ∈ gs → is_Some (lastGroups !! g) ∧ (g ∉ ds) ∧ count_shards g (gr_shards s) = c g;
  cl_shards : Forall2 (λ x y, y = x ∨ y = 0) shards0 (gr_shards s);
  cl_finish : ∀ g, g ∈ gr_finish s ↔ g ∈ ds;
  cl_done : ∀ g, g ∈ ds → is_Some (lastGroups !! g)
    ∧ avg ≤ count_shards g (gr_shards s) ≤ avg + 1 ∧ count_shards g (gr_shards s) ≤ c g
    ∧ (0 < gr_left s → avg < c g → count_shards g (gr_shards s) = avg + 1);
  cl_left : 0 ≤ gr_left s;
  cl_sum : sumZ (λ g, count_shards g (gr_shards s) - avg) ds = left_shards groups - gr_left s
}.

(** Recording that [g] is done with [n] of its shards left. *)
Lemma clean_inv_step g ds gs s shards l :
  clean_inv ds (g :: gs) s →
  Forall2 (λ x y, y = x ∨ y = 0) shards0 shards →
  (∀ h, h ≠ g → h ≠ 0 → count_shards h shards = count_shards h (gr_shards s)) →
  let n := count_shards g shards in
  avg ≤ n ≤ c g → n = avg + (gr_left s - l) → 0 ≤ l ≤ gr_left s → gr_left s ≤ l + 1 →
  (0 < l → avg < c g → n = avg + 1) →
  clean_inv (g :: ds) gs (MkGrow shards l ({[g]} ∪ gr_finish s)).
Proof.
  intros [Hnd Hold Hsh Hfin Hdone Hl Hsum] Hsh' Hoth n Hn Hnl Hl1 Hl2 Hn1.
  inversion_clear Hnd as [|? ? Hg Hgs].
  destruct (Hold g) as (Hgl & Hgd & _); [set_solver|].
  constructor; simpl; try done.
  - intros h Hh. destruct (Hold h) as (Hhl & Hhd & Hc); [set_solver|].
    assert (h ≠ g) by (by intros ->). split_and!; [done|set_solver|].
    rewrite Hoth; [done|done|by apply old_ne_0].
  - intros h. rewrite elem_of_union, elem_of_singleton, Hfin, elem_of_cons. done.
  - intros h Hh. apply elem_of_cons in Hh as [->|Hh].
    + split_and!; try done; fold n; lia.
    + destruct (Hdone h Hh) as (Hhl & Hb & Hc & Hx). assert (h ≠ g) by (by intros ->).
      rewrite Hoth by (done || by apply old_ne_0). split_and!; try done; lia.
  - lia.
  - fold n. rewrite (sumZ_ext _ (λ h, count_shards h (gr_shards s) - avg)); [lia|].
    intros h Hh. destruct (Hdone h Hh) as [Hhl _]. assert (h ≠ g) by (by intros ->).
    by rewrite Hoth by (done || by apply old_ne_0).
Qed.

Lemma grow_clean_inv k g ds gs s :
  clean_inv ds (g :: gs) s →
  clean_inv (g :: ds) gs (grow_clean groups (lastCnt_of order groups shards0) avg k g s).
Proof.
  intros Hinv. pose proof Hinv as [_ Hold Hsh _ _ Hl _].
  destruct (Hold g) as (Hgl & _ & Hgc); [set_solver|].
  destruct (old_share g Hgl) as [[Ha1 Ha2] _]. pose proof (old_ne_0 g Hgl) as Hg0.
  assert (avg ≤ c g) as Ha by lia. clear Ha1 Ha2.
  destruct (avg_left groups Hcur) as (_ & _ & Hav). fold avg in Hav.
  pose proof (Hsub g Hgl) as [v Hv]. unfold grow_clean. rewrite Hv, lastCnt_lookup by done.
  assert (default 0 (if decide (is_Some (groups !! g) ∧ count_shards g shards0 ≠ 0)
    then Some (count_shards g shards0) else None) = c g) as ->.
  { unfold c. case_decide as Hd; [done|]. rewrite Hv in Hd. simpl.
    destruct (decide (count_shards g shards0 = 0)); [done|]. exfalso. eauto. }
  destruct (Z.eqb_spec (c g - avg) 0) as [Hr|Hr].
  { apply (clean_inv_step g ds gs s); auto; rewrite ?Hgc; lia. }
  rewrite Z.gtb_ltb. destruct (Z.ltb_spec 0 (gr_left s)) as [Hpos|Hpos].
  - destruct (Z.eqb_spec (c g - avg - 1) 0) as [Hr1|Hr1].
    { apply (clean_inv_step g ds gs s); auto; rewrite ?Hgc; lia. }
    destruct (reassign_spec g 0 (c g - avg - 1) (gr_shards s)) as (sh & -> & Hrep & Hc & _ & Hoth);
      [done|rewrite Hgc; lia|]. change (0 =? 0) with true. cbn match.
    apply (clean_inv_step g ds gs s); auto; try lia. by eapply replaced_zero.
  - rewrite (proj2 (Z.eqb_neq _ 0)) by done.
    destruct (reassign_spec g 0 (c g - avg) (gr_shards s)) as (sh & -> & Hrep & Hc & _ & Hoth);
      [done|rewrite Hgc; lia|]. change (0 =? 0) with true. cbn match.
    apply (clean_inv_step g ds gs s); auto; try lia. by eapply replaced_zero.
Qed.

Lemma visit_clean ds gs k s :
  clean_inv ds gs s →
  clean_inv (reverse gs ++ ds) []
    (visit (grow_clean groups (lastCnt_of order groups shards0) avg) k gs s).
Proof.
  revert ds k s. induction gs as [|g gs IH]; intros ds k s Hinv; [done|]. simpl.
  rewrite reverse_cons, <- app_assoc. simpl. apply IH. by apply grow_clean_inv.
Qed.

(** After the first loop: the unassigned shards are what the new groups should get. *)
Lemma clean_end ds s :
  ds ≡ₚ keys lastGroups → clean_inv ds [] s →
  count_shards 0 (gr_shards s) = avg * (map_len groups - map_len lastGroups) + gr_left s
  ∧ gr_left s ≤ map_len groups - map_len lastGroups.
Proof.
  intros Hds [_ _ Hsh _ Hdone Hl Hsum].
  destruct (avg_left groups Hcur) as (Hdiv & Hlr & Hav). fold avg in Hdiv, Hav.
  assert (len ds = map_len lastGroups) as Hlds by (rewrite Hds; apply length_keys).
  assert (sumZ (λ g, count_shards g (gr_shards s)) (0 :: ds) = NShards) as Htot.
  { rewrite <- Hlen, (list.Forall2_length _ _ _ Hsh). apply sumZ_count.
    - constructor; [|rewrite Hds; apply NoDup_keys]. intros H0d.
      destruct (Hdone 0 H0d) as [H0l _]. by apply old_ne_0 in H0l.
    - intros y Hy. apply list_elem_of_lookup_1 in Hy as [i Hi].
      destruct (Forall2_lookup_r _ _ _ _ _ Hsh Hi) as (x & Hx & [->| ->]); [|set_solver].
      apply list_elem_of_lookup_2 in Hx. destruct Hbal as [[_ Hz]|(_ & _ & Hb & _)].
      + rewrite (Hz x Hx). set_solver.
      + apply elem_of_cons. right. rewrite Hds. by apply elem_of_keys, Hb. }
  simpl in Htot.
  assert (sumZ (λ g, count_shards g (gr_shards s) - avg) ds
    = sumZ (λ g, count_shards g (gr_shards s)) ds - avg * len ds) as Hs.
  { clear. induction ds as [|x l IH]; simpl; [lia|]. rewrite IH. lia. }
  rewrite Hs, Hlds in Hsum. fold avg in Hsum.
  pose proof map_len_le as Hle.
  split; [lia|]. destruct (decide (gr_left s = 0)) as [->|Hlz]; [lia|].
  destruct Hbal as [[Hemp _]|(Hpos & _ & Hb & _)].
  { assert (map_len lastGroups = 0) as HL by (rewrite Hemp; apply (f_equal Z.of_nat map_size_empty)).
    destruct ds as [|d ds]; cbn [length] in *; [|lia]. change (sumZ _ []) with 0 in Hsum. lia. }
  destruct (decide (avg < avg_shards lastGroups)) as [Hlt|Hge].
  - assert (sumZ (λ g, count_shards g (gr_shards s)) ds = (avg + 1) * len ds) as Hall.
    { rewrite <- sumZ_const. apply sumZ_ext. intros g Hg. destruct (Hdone g Hg) as (Hgl & _ & _ & Hx).
      destruct (old_share g Hgl) as [[_ ?] _]. apply Hx; lia. }
    rewrite Hall, Hlds in Hsum. lia.
  - assert (sumZ (λ g, count_shards g (gr_shards s)) ds = sumZ (λ g, c g) ds) as Hall.
    { apply sumZ_ext. intros g Hg. destruct (Hdone g Hg) as (Hgl & Hbn & Hc & Hx).
      destruct (old_share g Hgl) as [[? ?] ?].
      destruct (decide (avg < c g)); [rewrite Hx by lia; lia|lia]. }
    assert (sumZ (λ g, c g) ds = NShards) as Hc.
    { rewrite <- Hlen. apply sumZ_count; [rewrite Hds; apply NoDup_keys|].
      intros y Hy. rewrite Hds. by apply elem_of_keys, Hb. }
    pose proof (count_nonneg 0 (gr_shards s)). rewrite Hall, Hc in *. nia.
Qed.

(** *** The second loop: [gs] are the groups still to be visited *)
Definition new_of (gs : list Z) : list Z := filter (λ g, lastGroups !! g = None) gs.

Record fill_inv (gs : list Z) (s : Grow) : Prop := {
  fi_NoDup : NoDup gs;
  fi_groups : ∀ g, g ∈ gs → is_Some (groups !! g);
  fi_zero : count_shards 0 (gr_shards s) = avg * len (new_of gs) + gr_left s;
  fi_left : 0 ≤ gr_left s ≤ len (new_of gs);
  fi_new : ∀ g, g ∈ new_of gs → count_shards g (gr_shards s) = 0 ∧ (g ∉ gr_finish s);
  fi_old : ∀ g, is_Some (lastGroups !! g) → g ∈ gr_finish s;
  fi_done : ∀ g, is_Some (groups !! g) → g ∉ new_of gs → avg ≤ count_shards g (gr_shards s) ≤ avg + 1;
  fi_shards : Forall2 (λ x y, y = x ∨ y = 0 ∨ (lastGroups !! y = None ∧ is_Some (groups !! y)))
                shards0 (gr_shards s)
}.

(** Giving the group [g] its share. *)
Lemma fill_inv_step g gs s shards l fin :
  fill_inv (g :: gs) s → lastGroups !! g = None →
  replaced 0 g (gr_shards s) shards →
  (∀ h, h ≠ 0 → h ≠ g → count_shards h shards = count_shards h (gr_shards s)) →
  count_shards 0 shards = count_shards 0 (gr_shards s) - (avg + (gr_left s - l)) →
  count_shards g shards = avg + (gr_left s - l) →
  0 ≤ l ≤ len (new_of gs) → l ≤ gr_left s ≤ l + 1 →
  (fin = gr_finish s ∨ fin = {[g]} ∪ gr_finish s) →
  fill_inv gs (MkGrow shards l fin).
Proof.
  intros [Hnd Hgs Hz Hl Hnew Hold Hdone Hsh] Hg Hrep Hoth Hz' Hg' Hl' Hll Hfin.
  inversion_clear Hnd as [|? ? Hgn Hnd']. unfold new_of in *. rewrite filter_cons in *.
  rewrite decide_True in * by done. simpl in Hz, Hl.
  constructor; simpl; try done.
  - set_solver.
  - unfold new_of. lia.
  - intros h Hh. destruct (Hnew h) as [Hc Hf]; [set_solver|].
    assert (h ≠ g) by (intros ->; apply list_elem_of_filter in Hh; tauto).
    assert (is_Some (groups !! h)) as Hhg by (apply list_elem_of_filter in Hh; set_solver).
    assert (h ≠ 0) by (intros ->; rewrite H0 in Hhg; by destruct Hhg).
    split; [by rewrite Hoth|]. destruct Hfin as [->| ->]; set_solver.
  - intros h Hh. destruct Hfin as [->| ->]; set_solver.
  - intros h Hh Hhn. destruct (decide (h = g)) as [->|Hne]; [lia|].
    assert (h ≠ 0) by (intros ->; rewrite H0 in Hh; by destruct Hh).
    rewrite Hoth by done. apply Hdone; [done|]. set_solver.
  - assert (is_Some (groups !! g)) as Hgg by set_solver.
    clear -Hsh Hrep Hg Hgg. revert shards Hrep.
    induction Hsh as [|x y l0 k Hxy _ IH]; intros shards Hrep; inversion Hrep; subst; constructor;
      [|by apply IH]. intuition (subst; auto).
Qed.

Lemma grow_fill_inv k g gs s :
  fill_inv (g :: gs) s → fill_inv gs (grow_fill avg k g s).
Proof.
  intros Hinv. unfold grow_fill.
  destruct (lastGroups !! g) as [v|] eqn:Hg.
  { rewrite decide_True by (by eapply fi_old, mk_is_Some).
    destruct Hinv as [Hnd Hgs Hz Hl Hnew Hold Hdone Hsh]. inversion_clear Hnd.
    unfold new_of in *. rewrite filter_cons, decide_False in * by (by rewrite Hg).
    constructor; try done. set_solver. }
  pose proof Hinv as [_ Hgs Hz Hl Hnew _ _ _]. unfold new_of in Hz, Hl, Hnew.
  rewrite filter_cons, decide_True in Hz, Hl, Hnew by done.
  destruct (Hnew g) as [Hgc Hgf]; [set_solver|]. rewrite decide_False by done.
  fold (new_of gs) in Hz, Hl. simpl in Hz, Hl.
  assert (g ≠ 0) as Hg0 by (intros ->; destruct (Hgs 0) as [? ?]; [set_solver|congruence]).
  destruct (avg_left groups Hcur) as (_ & _ & Hav). fold avg in Hav.
  destruct (if gr_left s >? 0 then _ else _) as [r l] eqn:Hrl.
  assert (r = avg + (gr_left s - l) ∧ 0 ≤ l ≤ len (new_of gs) ∧ l ≤ gr_left s ≤ l + 1
    ∧ 0 ≤ r ≤ count_shards 0 (gr_shards s) ∧ (r = 0 → count_shards 0 (gr_shards s) = 0))
    as (Hr & Hl1 & Hl2 & Hr0 & Hrz).
  { revert Hrl. rewrite Z.gtb_ltb. destruct (Z.ltb_spec 0 (gr_left s)); intros; simplify_eq;
      split_and!; nia. }
  destruct (decide (r = 0)) as [Hr1|Hr1].
  - rewrite Hr1, reassign_zero by auto. change (0 =? 0) with true. cbn match.
    specialize (Hrz Hr1). apply (fill_inv_step g gs s); auto; try lia. apply replaced_refl.
  - destruct (reassign_spec 0 g r (gr_shards s)) as (sh & -> & Hrep & Hc0 & Hcg & Hoth);
      [done|lia|]. change (0 =? 0) with true. cbn match.
    apply (fill_inv_step g gs s); auto; lia.
Qed.

Lemma visit_fill gs k s : fill_inv gs s → fill_inv [] (visit (grow_fill avg) k gs s).
Proof.
  revert k s. induction gs as [|g gs IH]; intros k s Hinv; [done|]. simpl.
  by apply IH, grow_fill_inv.
Qed.

Lemma len_new : len (new_of (keys groups)) = map_len groups - map_len lastGroups.
Proof.
  assert (len (new_of (keys groups))
    + len (filter (λ g, ¬ lastGroups !! g = None) (keys groups)) = len (keys groups)) as Hsplit.
  { unfold new_of. generalize (keys groups) as l. induction l as [|x l IH]; [done|].
    rewrite !filter_cons. repeat case_decide; try tauto; simpl; lia. }
  assert (filter (λ g, ¬ lastGroups !! g = None) (keys groups) ≡ₚ keys lastGroups) as Hp.
  { apply NoDup_Permutation; [apply list.NoDup_filter, NoDup_keys|apply NoDup_keys|].
    intros g. rewrite list_elem_of_filter, !elem_of_keys. split.
    - intros [Hg _]. destruct (lastGroups !! g); [eauto|done].
    - intros Hg. split; [by destruct Hg as [v ->]|by apply Hsub]. }
  rewrite Hp, !length_keys in Hsplit. lia.
Qed.

Lemma clean_inv_start :
  clean_inv [] (order 2 (keys lastGroups)) (MkGrow shards0 (left_shards groups) ∅).
Proof.
  destruct (avg_left groups Hcur) as (_ & Hl & _). constructor; simpl.
  - apply NoDup_order, NoDup_keys. done.
  - intros g Hg. rewrite elem_of_order, elem_of_keys in Hg by done.
    split_and!; [done|apply not_elem_of_nil|done].
  - clear. induction shards0; constructor; auto.
  - set_solver.
  - intros g Hg. by apply not_elem_of_nil in Hg.
  - lia.
  - lia.
Qed.

Lemma fill_inv_start ds s gs :
  ds ≡ₚ keys lastGroups → gs ≡ₚ keys groups → clean_inv ds [] s → fill_inv gs s.
Proof.
  intros Hds Hgs Hinv. destruct (clean_end ds s Hds Hinv) as [Hz Hl].
  destruct Hinv as [_ _ Hsh Hfin Hdone Hl0 _].
  assert (len (new_of gs) = map_len groups - map_len lastGroups) as Hnew.
  { rewrite <- len_new. unfold new_of. by rewrite Hgs. }
  constructor.
  - rewrite Hgs. apply NoDup_keys.
  - intros g. by rewrite Hgs, elem_of_keys.
  - rewrite Hnew. done.
  - lia.
  - intros g Hg. apply list_elem_of_filter in Hg as [Hg Hgg]. rewrite Hgs, elem_of_keys in Hgg.
    split; [|rewrite Hfin, Hds, elem_of_keys, Hg; by intros [? ?]].
    apply count_zero. intros Hin. apply list_elem_of_lookup_1 in Hin as [i Hi].
    destruct (Forall2_lookup_r _ _ _ _ _ Hsh Hi) as (x & Hx & [->| ->]);
      [|rewrite H0 in Hgg; by destruct Hgg].
    apply list_elem_of_lookup_2 in Hx. destruct Hbal as [[_ Hz']|(_ & _ & Hb & _)].
    + rewrite (Hz' x Hx), H0 in Hgg. by destruct Hgg.
    + destruct (Hb x Hx). congruence.
  - intros g Hg. by rewrite Hfin, Hds, elem_of_keys.
  - intros g Hg Hgn. destruct (lastGroups !! g) eqn:Hlg.
    + apply Hdone. rewrite Hds, elem_of_keys. eauto.
    + exfalso. apply Hgn, list_elem_of_filter. by rewrite Hgs, elem_of_keys.
  - eapply list.Forall2_impl; [exact Hsh|]. simpl. intros x y [?|?]; auto.
Qed.

(** The growing branch keeps the configuration balanced and moves shards to new groups
    only. *)
Lemma grow_balanced :
  let shards := grow order groups lastGroups shards0 shards0 in
  balanced groups shards
  ∧ Forall2 (λ x y, y = x ∨ (lastGroups !! y = None ∧ is_Some (groups !! y))) shards0 shards.
Proof.
  cbv zeta. unfold grow. fold (avg_shards groups) (left_shards groups). fold avg.
  pose proof (visit_clean _ _ 0 _ clean_inv_start) as Hc. rewrite app_nil_r in Hc.
  eapply (fill_inv_start _ _ (order 3 (keys groups))) in Hc;
    [|rewrite reverse_Permutation; apply Horder|apply Horder].
  apply (visit_fill _ 0) in Hc. set (s := visit (grow_fill avg) _ _ _) in *.
  destruct Hc as [_ _ Hz Hl _ _ Hdone Hsh]. unfold new_of in Hz, Hl. cbn in Hl.
  assert (count_shards 0 (gr_shards s) = 0) as Hz0 by (rewrite Hz; simpl; lia).
  apply count_zero in Hz0.
  assert (Forall2 (λ x y, y = x ∨ (lastGroups !! y = None ∧ is_Some (groups !! y)))
    shards0 (gr_shards s)) as Hsh'.
  { apply Forall2_same_length_lookup in Hsh as [Hll Hi]. apply Forall2_same_length_lookup.
    split; [done|]. intros i x y Hx Hy. destruct (Hi i x y Hx Hy) as [?|[->|?]]; auto.
    exfalso. apply Hz0. by eapply list_elem_of_lookup_2. }
  split; [|done]. split_and!.
  - rewrite <- Hlen. f_equal. symmetry. by eapply list.Forall2_length.
  - intros y Hy. pose proof Hy as Hy'. apply list_elem_of_lookup_1 in Hy as [i Hi].
    destruct (Forall2_lookup_r _ _ _ _ _ Hsh' Hi) as (x & Hx & [->|[_ ?]]); [|done].
    apply list_elem_of_lookup_2 in Hx. destruct Hbal as [[_ Hz']|(_ & _ & Hb & _)].
    + rewrite (Hz' x Hx) in Hy'. contradiction.
    + by apply Hsub, Hb.
  - intros g Hg. apply Hdone; [done|]. apply not_elem_of_nil.
Qed.

End grow_proofs.
