(* ===== verification/ShardRebalance.v ===== *)
(** * What joining, leaving and moving do to the shards

    The contracts of [join], [leave] and [move] ([src/6.824/src/shardmaster/server.go])
    on configurations that are empty or balanced, for every order in which Go may range
    over the maps; and where the code breaks its own rule. *)
From S2P Require Import Prelude ShardConfig ShardLeave ShardJoin.

(** The configurations the service should keep: no group 0, and either no group at all
    or a balanced assignment. *)
Definition config_ok (c : Config) : Prop :=
  Groups c !! 0 = None
  ∧ ((Groups c = ∅ ∧ Shards c = no_shards) ∨ (0 < map_len (Groups c) ∧ balanced (Groups c) (Shards c))).

Lemma Config_Copy_id c : Config_Copy c = c.
Proof. destruct c. unfold Config_Copy. f_equal. apply map_fmap_id. Qed.

Lemma getConfigCopy_last cs c : list.last cs = Some c → getConfigCopy (-1) cs = Some c.
Proof.
  intros Hc. unfold getConfigCopy. change ((-1 <? 0) || _) with true. cbn match.
  apply last_Some in Hc as [l ->]. rewrite slice_get_app_r by (rewrite length_app; simpl; lia).
  rewrite length_app. simpl. replace (_ - 1 - len l) with 0 by lia.
  change ([c].[0]) with (Some c). simpl. by rewrite Config_Copy_id.
Qed.

Lemma map_len_nonneg {V} (m : gmap Z V) : 0 ≤ map_len m.
Proof. unfold map_len. lia. Qed.

Lemma map_len_0 {V} (m : gmap Z V) : map_len m = 0 ↔ m = ∅.
Proof. unfold map_len. rewrite <- map_size_empty_iff. lia. Qed.

Lemma balanced_length groups shards : balanced groups shards → length shards = Z.to_nat NShards.
Proof. intros (Hl & _). lia. Qed.

Lemma config_ok_length c : config_ok c → len (Shards c) = NShards.
Proof. intros (_ & [[_ ->]|[_ (? & _)]]); [done|done]. Qed.

(** A single group holds everything. *)
Lemma single_group (groups : gmap Z (list string)) :
  map_len groups = 1 → ∃ g, keys groups = [g] ∧ is_Some (groups !! g)
  ∧ ∀ h, is_Some (groups !! h) ↔ h = g.
Proof.
  intros H1. assert (length (keys groups) = 1%nat) as Hl by (pose proof (length_keys groups); lia).
  destruct (keys groups) as [|g [|? ?]] eqn:Hk; try done. exists g.
  assert (∀ h, is_Some (groups !! h) ↔ h = g) as Hh
    by (intros h; rewrite <- elem_of_keys, Hk, list_elem_of_singleton; done).
  split_and!; [done|by apply Hh|done].
Qed.

Lemma single_balanced (groups : gmap Z (list string)) g (l : list Z) :
  (∀ h, is_Some (groups !! h) ↔ h = g) → map_len groups = 1 → len l = NShards →
  balanced groups ((λ _, g) <$> l).
Proof.
  intros Hg H1 Hl. split_and!.
  - by rewrite length_fmap.
  - intros h (? & -> & _)%list_elem_of_fmap. by apply Hg.
  - intros h ->%Hg. unfold avg_shards. rewrite H1.
    assert (count_shards g ((λ _, g) <$> l) = len l) as ->.
    { clear. induction l as [|x l IH]; [done|]. csimpl. rewrite count_cons, decide_True by done. lia. }
    rewrite Hl. done.
Qed.

Lemma union_map_len (m1 m2 : gmap Z (list string)) : map_len m2 ≤ map_len (m1 ∪ m2).
Proof.
  unfold map_len. apply inj_le. rewrite <- !size_dom. apply subseteq_size.
  rewrite dom_union. set_solver.
Qed.

Lemma delete_gids (m : gmap Z (list string)) gids g :
  foldl (λ m gid, delete gid m) m gids !! g = if decide (g ∈ gids) then None else m !! g.
Proof.
  revert m. induction gids as [|h gids IH]; intros m; cbn [foldl].
  - case_decide as Hg; [by apply not_elem_of_nil in Hg|done].
  - rewrite IH. destruct (decide (g = h)) as [->|].
    + rewrite lookup_delete_eq. repeat case_decide; try done; exfalso; set_solver.
    + rewrite lookup_delete_ne by done. repeat case_decide; try done; exfalso; set_solver.
Qed.

Lemma config_ok_fresh c : config_ok c → balanced_or_fresh (Groups c) (Shards c).
Proof.
  intros [_ [[-> ->]|?]]; [left|by right]. split; [done|].
  intros s Hs. by apply elem_of_replicate in Hs as [-> _].
Qed.

(** [adjustConfig] after some groups have left. *)
Lemma adjust_leave order cs c config :
  legal_order order → list.last cs = Some c → config_ok c →
  (∀ g, is_Some (Groups config !! g) → is_Some (Groups c !! g)) → Shards config = Shards c →
  ∃ shards, adjustConfig order cs config = Some (config <| Shards := shards |>)
  ∧ (∀ i g, Shards c !! i = Some g → is_Some (Groups config !! g) → shards !! i = Some g)
  ∧ (Groups config = ∅ → shards = no_shards)
  ∧ (2 ≤ map_len (Groups config) < map_len (Groups c) →
     shards = shrink order (Groups config) (Groups c) (Shards c) (Shards c)).
Proof.
  intros Ho Hlast Hok Hsub Hsh. unfold adjustConfig. rewrite (getConfigCopy_last cs c Hlast), Hsh.
  set (groups := Groups config) in *.
  destruct (Z.eqb_spec (map_len groups) 0) as [H0|H0].
  { apply map_len_0 in H0. eexists. split; [done|]. rewrite H0. split_and!; [|done|].
    - intros i g _ [? Hg]. by rewrite lookup_empty in Hg.
    - intros [? _]. change (map_len (∅ : gmap Z (list string))) with 0 in *. lia. }
  assert (groups ≠ ∅) as Hne by (by rewrite <- map_len_0).
  destruct (Z.eqb_spec (map_len groups) 1) as [H1|H1]; simpl.
  { destruct (single_group groups H1) as (g & Hk & Hg & Hall). eexists. split; [done|].
    assert (order 0%nat (keys groups) = [g]) as ->.
    { apply Permutation_singleton_r. rewrite <- Hk. apply Ho. }
    simpl. split_and!; [|done|lia]. intros i h Hi ->%Hall. by rewrite list_lookup_fmap, Hi. }
  destruct (Z.ltb_spec (map_len groups) (map_len (Groups c))) as [Hlt|Hge].
  { eexists. split; [done|]. split_and!; [|done|done].
    intros i g Hi Hg. by apply (shrink_keep order groups (Groups c) (Shards c)). }
  eexists. split; [done|]. split_and!; [|done|lia].
  assert (dom groups ≡ dom (Groups c)) as Hdom.
  { apply set_subseteq_size_equiv; [intros g; rewrite !elem_of_dom; apply Hsub|].
    rewrite !size_dom. unfold map_len in Hge. lia. }
  pose proof (config_ok_length c Hok) as Hlen. pose proof Hok as [Hc0 _].
  destruct (grow_balanced order Ho groups (Groups c) (Shards c)) as [_ Hf].
  - intros g. rewrite <- !elem_of_dom. set_solver.
  - destruct (groups !! 0) eqn:Hg0; [|done]. assert (is_Some (Groups c !! 0)) as [? ?]
      by (apply Hsub; eauto). congruence.
  - done.
  - by apply config_ok_fresh.
  - pose proof (map_len_nonneg groups). lia.
  - intros i g Hi Hg. destruct (Forall2_lookup_l _ _ _ _ _ Hf Hi) as (y & Hy & [->|[Hn Hs]]); [done|].
    apply Hsub in Hs. rewrite Hn in Hs. by destruct Hs.
Qed.

Lemma visit_id {T} (body : nat → Z → T → T) gs k s :
  (∀ k g, g ∈ gs → body k g s = s) → visit body k gs s = s.
Proof.
  revert k. induction gs as [|g gs IH]; intros k Hb; simpl; [done|].
  rewrite Hb by set_solver. apply IH. intros k' g' Hg'. apply Hb. set_solver.
Qed.

(** ** Properties *)

(** C22. Joining groups rebalances and moves as little as it must: from an empty or
    balanced configuration, and for every order in which the maps are ranged over,
    [join] appends one configuration with the next number and all groups, in which every
    shard belongs to a group and the groups' shares differ by at most one, and in which
    each shard stays where it was or moves to a group that has just joined. *)
Theorem join_rebalances order servers cs c :
  legal_order order → list.last cs = Some c → config_ok c →
  servers !! 0 = None → servers ∪ Groups c ≠ ∅ →
  ∃ c', join order servers cs = Some (cs ++ [c'])
  ∧ Num c' = Num c + 1 ∧ Groups c' = servers ∪ Groups c
  ∧ balanced (Groups c') (Shards c')
  ∧ Forall2 (λ x y, y = x ∨ (Groups c !! y = None ∧ is_Some (Groups c' !! y))) (Shards c) (Shards c').
Proof.
  intros Ho Hlast Hok H0 Hne. pose proof (config_ok_length c Hok) as Hlen. destruct Hok as [Hc0 Hok].
  set (groups := servers ∪ Groups c) in *.
  assert (∀ g, is_Some (Groups c !! g) → is_Some (groups !! g)) as Hsub.
  { intros g Hg. unfold groups. rewrite <- !elem_of_dom, dom_union in *. set_solver. }
  assert (groups !! 0 = None) as Hg0 by (unfold groups; by rewrite lookup_union, H0, Hc0).
  unfold join. rewrite (getConfigCopy_last cs c Hlast). cbn [mbind option_bind].
  unfold adjustConfig. rewrite (getConfigCopy_last cs c Hlast). simpl. fold groups.
  rewrite <- map_len_0 in Hne. pose proof (map_len_nonneg groups).
  destruct (Z.eqb_spec (map_len groups) 0); [done|].
  destruct (Z.eqb_spec (map_len groups) 1) as [H1|H1]; simpl.
  - destruct (single_group groups H1) as (g & Hk & Hg & Hall). eexists. split; [done|]. simpl.
    assert (order 0%nat (keys groups) = [g]) as ->.
    { apply Permutation_singleton_r. rewrite <- Hk. apply Ho. }
    simpl. split_and!; [done|done|by apply single_balanced|].
    apply Forall2_fmap_r, Forall_Forall2_diag, list.Forall_forall. intros x Hx.
    destruct (Groups c !! g) eqn:Hcg; [|auto]. left.
    destruct Hok as [[Hempty _]|[_ (_ & Hb & _)]]; [by rewrite Hempty, lookup_empty in Hcg|].
    symmetry. by apply Hall, Hsub, Hb.
  - destruct (Z.ltb_spec (map_len groups) (map_len (Groups c))) as [Hlt|_];
      [pose proof (union_map_len servers (Groups c)) as Hu; fold groups in Hu; lia|].
    assert (balanced_or_fresh (Groups c) (Shards c)) as Hbal.
    { destruct Hok as [[-> ->]|?]; [left|by right]. split; [done|].
      intros s Hs. by apply elem_of_replicate in Hs as [-> _]. }
    destruct (grow_balanced order Ho groups (Groups c) (Shards c) Hsub Hg0 Hlen Hbal) as [Hb Hf];
      [lia|]. eexists. split; [done|]. simpl. done.
Qed.

(** C23. Groups that stay keep their shards: from an empty or balanced configuration and
    for every range order, [leave] appends one configuration without the groups that
    left in which every shard of a staying group is still that group's. *)
Theorem leave_keeps_staying_groups order gids cs c :
  legal_order order → list.last cs = Some c → config_ok c →
  ∃ c', leave order gids cs = Some (cs ++ [c'])
  ∧ Num c' = Num c + 1
  ∧ (∀ g, is_Some (Groups c' !! g) ↔ is_Some (Groups c !! g) ∧ g ∉ gids)
  ∧ (∀ i g, Shards c !! i = Some g → is_Some (Groups c' !! g) → Shards c' !! i = Some g)
  ∧ (Groups c' = ∅ → Shards c' = no_shards).
Proof.
  intros Ho Hlast Hok. unfold leave. rewrite (getConfigCopy_last cs c Hlast). cbn [mbind option_bind].
  set (config := c <| Num := _ |> <| Groups := _ |>).
  destruct (adjust_leave order cs c config Ho Hlast Hok) as (shards & -> & Hk & Hz & _); [|done|].
  { intros g. simpl. rewrite delete_gids. case_decide; [by intros [? ?]|done]. }
  eexists. split; [done|]. split_and!; [done| |exact Hk|exact Hz].
  intros g. simpl. rewrite delete_gids. case_decide as Hg; [|tauto].
  split; [by intros [? ?]|tauto].
Qed.

(** Leaving rebalances when there is room: if more than one group stays, no staying
    group has more than the new share, and at least as many staying groups are short of
    it as there are left-over shards, then for every range order the new configuration
    is balanced. *)
Theorem leave_rebalances_with_room order gids cs c :
  legal_order order → list.last cs = Some c → config_ok c →
  let groups := foldl (λ m gid, delete gid m) (Groups c) gids in
  2 ≤ map_len groups < map_len (Groups c) → map_len groups ≤ NShards →
  room_to_shrink groups (Shards c) →
  ∃ c', leave order gids cs = Some (cs ++ [c']) ∧ Groups c' = groups
  ∧ balanced (Groups c') (Shards c').
Proof.
  intros Ho Hlast Hok groups Hlen Hle Hroom. unfold leave.
  rewrite (getConfigCopy_last cs c Hlast). cbn [mbind option_bind]. fold groups.
  set (config := c <| Num := _ |> <| Groups := _ |>).
  destruct (adjust_leave order cs c config Ho Hlast Hok) as (shards & -> & _ & _ & Hsh); [|done|].
  { intros g. simpl. unfold groups. rewrite delete_gids. case_decide; [by intros [? ?]|done]. }
  eexists. split; [done|]. split; [done|]. simpl. rewrite Hsh by done.
  apply shrink_balanced; [done|apply Hok|by apply config_ok_length| |exact (conj (proj1 Hlen) Hle)|done].
  intros g Hg. destruct (config_ok_fresh c Hok) as [[_ Hz]|(_ & _ & Hin & _)]; [|by apply Hin].
  pose proof Hok as [_ [[He _]|[_ (_ & Hin & _)]]]; [|by apply Hin].
  apply map_len_0 in He. lia.
Qed.

(** Leaving can orphan shards: when every staying group already has exactly the new
    share, [leave] moves nothing, for any range order, so the shards of the groups that
    left stay assigned to groups that no longer exist. *)
Theorem leave_orphans_shards order gids cs c :
  legal_order order → list.last cs = Some c → config_ok c →
  let groups := foldl (λ m gid, delete gid m) (Groups c) gids in
  2 ≤ map_len groups < map_len (Groups c) → 0 < avg_shards groups →
  (∀ g, is_Some (groups !! g) → count_shards g (Shards c) = avg_shards groups) →
  leave order gids cs = Some (cs ++ [MkConfig (Num c + 1) (Shards c) groups]).
Proof.
  intros Ho Hlast Hok groups Hlen Havg Hc. unfold leave.
  rewrite (getConfigCopy_last cs c Hlast). cbn [mbind option_bind]. fold groups.
  set (config := c <| Num := _ |> <| Groups := _ |>).
  destruct (adjust_leave order cs c config Ho Hlast Hok) as (shards & -> & _ & _ & Hsh); [|done|].
  { intros g. simpl. unfold groups. rewrite delete_gids. case_decide; [by intros [? ?]|done]. }
  simpl. rewrite Hsh by done. do 4 f_equal. unfold shrink. simpl. fold (avg_shards groups).
  assert (∀ g, g ∈ keys groups → lastCnt_of order groups (Shards c) !! g = Some (avg_shards groups))
    as Hcnt.
  { intros g Hg%elem_of_keys. rewrite lastCnt_lookup by done. rewrite Hc by done.
    rewrite decide_True; [done|]. split; [done|lia]. }
  rewrite (visit_id (shrink_same _ _ _ _)); [rewrite visit_id; [done|]|];
    intros k g Hg; rewrite (Ho _ _) in Hg; unfold shrink_same, shrink_diff; simpl;
    rewrite Hcnt by done; [done|]. by rewrite Z.sub_diag.
Qed.

(** [move] changes one shard and nothing else, with the next number, and panics on a
    shard index out of range. *)
Theorem move_spec shard gid cs c :
  list.last cs = Some c → len (Shards c) = NShards →
  (0 ≤ shard < NShards →
   ∃ c', move shard gid cs = Some (cs ++ [c']) ∧ Num c' = Num c + 1 ∧ Groups c' = Groups c
   ∧ (Shards c').[shard] = Some gid
   ∧ ∀ i, i ≠ shard → (Shards c').[i] = (Shards c).[i])
  ∧ (¬ 0 ≤ shard < NShards → move shard gid cs = None).
Proof.
  intros Hlast Hlen. unfold move. rewrite (getConfigCopy_last cs c Hlast). simpl. split.
  - intros Hs. destruct (slice_set (Shards c) shard gid) as [l|] eqn:Hl;
      [|by rewrite slice_set_lt in Hl by lia].
    simpl. eexists. split; [done|]. split_and!; [done|done|by eapply slice_get_set_eq|].
    intros i Hi. simpl. eapply slice_get_set_ne; [done|congruence].
  - intros Hs. unfold slice_set. rewrite Hlen.
    destruct (Z.leb_spec 0 shard), (Z.ltb_spec shard NShards); simpl; try done. lia.
Qed.

(** ** Concrete configurations *)
Module RebalanceDemo.
Definition id_order : MapOrder := λ _ ks, ks.
Definition rev_order : MapOrder := λ _ ks, reverse ks.

Lemma id_legal : legal_order id_order.
Proof. intros k ks. reflexivity. Qed.
Lemma rev_legal : legal_order rev_order.
Proof. intros k ks. apply reverse_Permutation. Qed.

Definition gs (l : list Z) : gmap Z (list string) := list_to_map ((λ g, (g, [])) <$> l).
Definition c0 : Config := MkConfig 0 no_shards ∅.
Definition c2 : Config := MkConfig 2 [1;1;1;1;1;2;2;2;2;2] (gs [1;2]).
Definition c5 : Config := MkConfig 5 [1;1;2;2;3;3;4;4;5;5] (gs [1;2;3;4;5]).

(** A computable form of [config_ok]. *)
Definition balanced_b (groups : gmap Z (list string)) (shards : list Z) : bool :=
  (len shards =? NShards)
  && forallb (λ g, bool_decide (g ∈ keys groups)) shards
  && forallb (λ g, (avg_shards groups <=? count_shards g shards)
                   && (count_shards g shards <=? avg_shards groups + 1)) (keys groups).

Lemma balanced_b_sound groups shards : balanced_b groups shards = true → balanced groups shards.
Proof.
  unfold balanced_b. rewrite !andb_true_iff, !forallb_forall, Z.eqb_eq. intros [[Hl Hin] Hc].
  split_and!; [done| |].
  - intros g Hg. rewrite <- elem_of_keys. apply list_elem_of_In, Hin, bool_decide_eq_true in Hg. done.
  - intros g Hg. rewrite <- elem_of_keys in Hg. apply list_elem_of_In, Hc in Hg.
    rewrite andb_true_iff in Hg. lia.
Qed.

Lemma c2_ok : config_ok c2.
Proof. split; [done|]. right. split; [done|]. by apply balanced_b_sound. Qed.
Lemma c5_ok : config_ok c5.
Proof. split; [done|]. right. split; [done|]. by apply balanced_b_sound. Qed.
End RebalanceDemo.

Import RebalanceDemo.

(** Replicas can disagree: [join] is run by every replica on its own, and its result
    depends on the order in which Go ranges over the maps; from the same balanced
    configuration the same command gives two replicas different assignments. *)
Theorem replicas_may_diverge :
  ∃ order1 order2 servers cs cs1 cs2 c1 c2',
    legal_order order1 ∧ legal_order order2 ∧ config_ok c2 ∧ list.last cs = Some c2
    ∧ join order1 servers cs = Some cs1 ∧ join order2 servers cs = Some cs2
    ∧ list.last cs1 = Some c1 ∧ list.last cs2 = Some c2' ∧ Shards c1 ≠ Shards c2'.
Proof.
  exists id_order, rev_order, (gs [3]), [c2].
  eexists _, _, _, _. split_and!; [apply id_legal|apply rev_legal|apply c2_ok|done|..];
    [vm_compute; reflexivity|vm_compute; reflexivity|vm_compute; reflexivity|
     vm_compute; reflexivity|by vm_compute].
Qed.

(** After three [Move]s have unbalanced the groups, a [join] can leave a shard with the
    invalid group 0. *)
Lemma join_after_moves_orphans :
  (cs ← move 5 1 [c2]; cs ← move 6 1 cs; cs ← move 7 1 cs;
   cs ← join id_order (gs [3]) cs; c ← list.last cs; Some (count_shards 0 (Shards c))) = Some 1.
Proof. vm_compute. reflexivity. Qed.

(** ** Witnesses *)
Lemma join_rebalances_witness :
  ∃ c', join id_order (gs [3]) [c2] = Some [c2; c'] ∧ balanced (Groups c') (Shards c').
Proof.
  destruct (join_rebalances id_order (gs [3]) [c2] c2 id_legal eq_refl c2_ok) as (c' & Hj & _ & _ & Hb & _);
    [done|done|].
  exists c'. split; [exact Hj|exact Hb].
Defined.

Lemma leave_keeps_staying_groups_witness :
  ∃ c', leave id_order [3] [c5] = Some [c5; c'] ∧ Shards c' !! 2%nat = Some 2.
Proof.
  destruct (leave_keeps_staying_groups id_order [3] [c5] c5 id_legal eq_refl c5_ok)
    as (c' & Hl & _ & Hg & Hk & _).
  exists c'. split; [exact Hl|]. apply Hk; [done|]. apply Hg. split; [by eexists|set_solver].
Defined.

Lemma leave_rebalances_with_room_witness :
  ∃ c', leave id_order [3; 4; 5] [c5] = Some [c5; c'] ∧ balanced (Groups c') (Shards c').
Proof.
  destruct (leave_rebalances_with_room id_order [3; 4; 5] [c5] c5 id_legal eq_refl c5_ok)
    as (c' & Hl & _ & Hb); [by vm_compute|by vm_compute| |by exists c'].
  split; [|by vm_compute]. intros g Hg.
  rewrite <- elem_of_keys in Hg. vm_compute keys in Hg.
  repeat (apply elem_of_cons in Hg as [->|Hg]; [by vm_compute|]). by apply not_elem_of_nil in Hg.
Defined.

Lemma leave_orphans_shards_witness :
  leave id_order [5] [c5] = Some [c5; MkConfig 6 (Shards c5) (delete 5 (Groups c5))]
  ∧ 5 ∈ Shards c5.
Proof.
  split; [|by apply (bool_decide_unpack _); vm_compute].
  apply (leave_orphans_shards id_order [5] [c5] c5 id_legal eq_refl c5_ok); [by vm_compute|done|].
  intros g Hg.
  rewrite <- elem_of_keys in Hg. vm_compute keys in Hg.
  repeat (apply elem_of_cons in Hg as [->|Hg]; [by vm_compute|]). by apply not_elem_of_nil in Hg.
Defined.

Lemma move_spec_witness : ∃ c', move 5 1 [c2] = Some [c2; c'] ∧ (Shards c').[5] = Some 1.
Proof.
  destruct (move_spec 5 1 [c2] c2 eq_refl eq_refl) as [Hm _].
  destruct Hm as (c' & Hm & _ & _ & Hs & _); [done|]. exists c'. split; [exact Hm|exact Hs].
Defined.
