(* ===== verification/ShardMaster.v ===== *)
(** * The shard master: the replicated configuration service

    [src/6.824/src/shardmaster/server.go] and [client.go]: the apply loop over the
    configurations of [ShardConfig], its duplicate filter, the RPC handlers with their
    STABLE / TRANSITION / FREEZE gate, and the clerk. *)
From S2P Require Import Prelude RaftState ShardConfig ShardLeave ShardJoin ShardRebalance.

Definition OK : string := "OK".
Definition ErrWrongLeader : string := "ErrWrongLeader".
Definition ErrTimeOut : string := "ErrTimeOut".
Definition ErrTransition : string := "ErrTransition".

(** The states of the gate, as the source's [iota] constants. *)
Definition STABLE : Z := 0.
Definition TRANSITION : Z := 1.
Definition FREEZE : Z := 2.

(** [Op.Args] is an [interface{}] holding one of the four argument structs. *)
Inductive OpArgs :=
  | JoinArgs (servers : gmap Z (list string))
  | LeaveArgs (gids : list Z)
  | MoveArgs (shard gid : Z)
  | QueryArgs (num : Z).

#[export] Instance OpArgs_eq_dec : EqDecision OpArgs.
Proof. solve_decision. Defined.
#[export] Program Instance OpArgs_countable : Countable OpArgs :=
  inj_countable' (λ a, match a with JoinArgs s => inl (inl s) | LeaveArgs g => inl (inr g)
      | MoveArgs s g => inr (inl (s, g)) | QueryArgs n => inr (inr n) end)
    (λ a, match a with inl (inl s) => JoinArgs s | inl (inr g) => LeaveArgs g
      | inr (inl (s, g)) => MoveArgs s g | inr (inr n) => QueryArgs n end) _.
Next Obligation. by intros []. Qed.

Record Op := MkOp {
  Method : string;
  ClientId : Z;
  MsgId : Z;
  RequestId : Z;
  Args : OpArgs
}.
#[export] Instance Op_eq_dec : EqDecision Op.
Proof. solve_decision. Defined.
#[export] Program Instance Op_countable : Countable Op :=
  inj_countable' (λ o, (Method o, ClientId o, MsgId o, RequestId o, Args o))
    (λ '(m, c, i, r, a), MkOp m c i r a) _.
Next Obligation. by intros []. Qed.

Record NotifyMsg := MkNotifyMsg { nm_Err : string; nm_WrongLeader : bool }.

(** The reply of [Join], [Leave] and [Move], and that of [Query]. *)
Record Reply := MkReply { rp_WrongLeader : bool; rp_Err : string }.
Record QueryReply := MkQueryReply { qr_WrongLeader : bool; qr_Err : string; qr_Config : Config }.

Record ShardMaster := MkSM {
  sm_me : Z;
  configs : list Config;
  lastApplies : gmap Z Z;
  sm_notifyData : gmap Z unit;
  sm_state : Z;
  sm_LockSeq : list string
}.
#[export] Instance ShardMaster_eta : Eta ShardMaster := λ s,
  MkSM (sm_me s) (configs s) (lastApplies s) (sm_notifyData s) (sm_state s) (sm_LockSeq s).

(** How the [select] of [waitForRaft] ended. *)
Inductive WaitOutcome := Notified (msg : NotifyMsg) | WaitTimedOut.

(** A handler's reply, or that it is still polling the gate. *)
Inductive Handled (R : Type) := Replied (r : R) | Polling.
Arguments Replied {R}. Arguments Polling {R}.

Section server.
Context `{GoRand, GobCodec (RaftVal Op)}.
Implicit Types (sm : ShardMaster) (rf : Raft Op) (op : Op).

Definition Lock (m : string) sm : ShardMaster := sm <| sm_LockSeq := sm_LockSeq sm ++ [m] |>.

Definition Unlock (m : string) sm : option ShardMaster :=
  m0 ← (sm_LockSeq sm).[0];
  Some (if bool_decide (m = m0) then sm <| sm_LockSeq := drop 1 (sm_LockSeq sm) |> else sm).

Definition CheckApplied (msgId clientId : Z) sm : bool :=
  match lastApplies sm !! clientId with
  | Some oldMsgId => msgId =? oldMsgId
  | None => false
  end.

(** The configuration change of an operation that is not a repeat; a type assertion on
    other arguments panics. *)
Definition apply_config (order : MapOrder) op (cs : list Config) : option (list Config) :=
  if bool_decide (Method op = "Join"%string) then
    match Args op with JoinArgs servers => join order servers cs | _ => None end
  else if bool_decide (Method op = "Leave"%string) then
    match Args op with LeaveArgs gids => leave order gids cs | _ => None end
  else if bool_decide (Method op = "Move"%string) then
    match Args op with MoveArgs shard gid => move shard gid cs | _ => None end
  else Some cs.

(** One message of [applyCh], with the notification sent to a waiting handler. *)
Definition apply (order : MapOrder) (msg : ApplyMsg Op) sm :
    option (ShardMaster * option (Z * NotifyMsg)) :=
  if negb (CommandValid msg) then Some (sm, None)
  else
    match msg_Command msg with
    | ICmd op =>
        let repeat := CheckApplied (MsgId op) (ClientId op) sm in
        cs ← (if repeat then Some (configs sm) else apply_config order op (configs sm));
        let sm := sm <| configs := cs |> in
        let sm := sm <| lastApplies := <[ClientId op := MsgId op]> (lastApplies sm) |> in
        Some (sm, match sm_notifyData sm !! RequestId op with
                  | Some _ => Some (RequestId op, MkNotifyMsg OK false)
                  | None => None
                  end)
    | _ => None
    end.

Definition removeCh (id : Z) sm : ShardMaster :=
  sm <| sm_notifyData := delete id (sm_notifyData sm) |>.

Definition changeState (state : Z) sm : ShardMaster := sm <| sm_state := state |>.

(** The result the [select] gives. *)
Definition wait_result (o : WaitOutcome) : NotifyMsg :=
  match o with Notified res => res | WaitTimedOut => MkNotifyMsg ErrTimeOut false end.

(** [waitForRaft] with nothing interleaved but the outcome of its [select]. *)
Definition waitForRaft op (o : WaitOutcome) sm rf : option (ShardMaster * Raft Op * NotifyMsg) :=
  '(rf, (_, _, isLeader)) ← Start op rf;
  if (isLeader : bool) then
    let sm := sm <| sm_notifyData := <[RequestId op := ()]> (sm_notifyData sm) |> in
    let sm := removeCh (RequestId op) sm in
    Some (sm, rf, wait_result o)
  else Some (sm, rf, MkNotifyMsg ErrWrongLeader true).

(** The loop that waits for the gate, over the states it reads. *)
Fixpoint wait_gate (pass : Z → bool) (polls : list Z) : bool :=
  match polls with
  | [] => false
  | s :: polls => if pass s then true else wait_gate pass polls
  end.

(** The body shared by [Join], [Leave] (with [freezes]) and [Move] (without). *)
Definition change_handler (freezes : bool) op (polls : list Z) (o : WaitOutcome) sm rf :
    option (ShardMaster * Raft Op * Handled Reply) :=
  let '(_, isLeader) := GetState rf in
  if negb isLeader then Some (sm, rf, Replied (MkReply true ErrWrongLeader))
  else if wait_gate (λ s, s =? STABLE) polls then
    let sm := changeState TRANSITION sm in
    '(sm, rf, res) ← waitForRaft op o sm rf;
    let sm := if freezes then changeState FREEZE sm else sm in
    let sm := changeState STABLE sm in
    Some (sm, rf, Replied (MkReply (nm_WrongLeader res) (nm_Err res)))
  else Some (sm, rf, Polling).

(** [c], [m] and [r] are the client's id and message id and the random request id. *)
Definition Join (servers : gmap Z (list string)) (c m r : Z) :=
  change_handler true (MkOp "Join" c m r (JoinArgs servers)).
Definition Leave (gids : list Z) (c m r : Z) :=
  change_handler true (MkOp "Leave" c m r (LeaveArgs gids)).
Definition Move (shard gid : Z) (c m r : Z) :=
  change_handler false (MkOp "Move" c m r (MoveArgs shard gid)).

Definition Query (num c m r : Z) (polls : list Z) (o : WaitOutcome) sm rf :
    option (ShardMaster * Raft Op * Handled QueryReply) :=
  let '(_, isLeader) := GetState rf in
  if negb isLeader then
    Some (sm, rf, Replied (MkQueryReply true ErrWrongLeader (MkConfig 0 no_shards ∅)))
  else if wait_gate (λ s, negb (s =? TRANSITION)) polls then
    '(sm, rf, res) ← waitForRaft (MkOp "Query" c m r (QueryArgs num)) o sm rf;
    config ← getConfigCopy num (configs sm);
    Some (sm, rf, Replied (MkQueryReply (nm_WrongLeader res) (nm_Err res) config))
  else Some (sm, rf, Polling).

Definition Stable sm : string := if sm_state sm =? STABLE then OK else ErrTransition.

(** The gid and the error of [findGid]; an index out of [Shards] panics. *)
Definition findGid (shard : Z) sm : option (Z * string) :=
  if negb (sm_state sm =? STABLE) then Some (0, ErrTransition)
  else
    config ← getConfigCopy (-1) (configs sm);
    gid ← (Shards config).[shard];
    Some (gid, OK).

Definition SM_Kill sm rf : option (ShardMaster * Raft Op) := rf ← Kill rf; Some (sm, rf).

Definition StartServer (nservers me : Z) (ps : Persister) : option (ShardMaster * Raft Op) :=
  let sm := MkSM me [MkConfig 0 no_shards ∅] ∅ ∅ STABLE [] in
  rf ← Make nservers me ps;
  Some (sm, rf).

(** ** The clerk

    Each round asks every server in turn; a failed call is [None]. *)
Fixpoint try_servers {R} (accept : R → bool) (replies : list (option R)) : option R :=
  match replies with
  | [] => None
  | Some r :: replies => if accept r then Some r else try_servers accept replies
  | None :: replies => try_servers accept replies
  end.

Fixpoint clerk_loop {R} (accept : R → bool) (rounds : list (list (option R))) : option R :=
  match rounds with
  | [] => None
  | round :: rounds =>
      match try_servers accept round with Some r => Some r | None => clerk_loop accept rounds end
  end.

(** [None] while the call is still running. *)
Definition Clerk_Query (rounds : list (list (option QueryReply))) : option Config :=
  qr_Config <$> clerk_loop (λ r, negb (qr_WrongLeader r)) rounds.
Definition Clerk_Change (rounds : list (list (option Reply))) : option unit :=
  (λ _, tt) <$> clerk_loop (λ r, negb (rp_WrongLeader r)) rounds.
Definition Clerk_Stable (replies : list (option string)) : bool :=
  match try_servers (λ e, bool_decide (e = OK)) replies with Some _ => true | None => false end.
Definition Clerk_FindGid (rounds : list (list (option (Z * string)))) : option Z :=
  fst <$> clerk_loop (λ r, bool_decide (r.2 = OK)) rounds.

(** ** The gate under interleaving

    Each handler tests the state and sets it in separate critical sections. *)
Inductive GatePc := GPoll | GEnter | GWait | GFreeze | GDone.

Record Gate := MkGate { ga_state : Z; ga_pcs : gmap nat GatePc }.

Inductive gate_step : Gate → Gate → Prop :=
  | gate_poll h st pcs : pcs !! h = Some GPoll → st = STABLE →
      gate_step (MkGate st pcs) (MkGate st (<[h := GEnter]> pcs))
  | gate_enter h st pcs : pcs !! h = Some GEnter →
      gate_step (MkGate st pcs) (MkGate TRANSITION (<[h := GWait]> pcs))
  | gate_applied h st pcs : pcs !! h = Some GWait →
      gate_step (MkGate st pcs) (MkGate FREEZE (<[h := GFreeze]> pcs))
  | gate_thaw h st pcs : pcs !! h = Some GFreeze →
      gate_step (MkGate st pcs) (MkGate STABLE (<[h := GDone]> pcs)).

(** Two concurrent changes can both pass the test, and the first to finish opens the gate
    while the second is still waiting for its command. *)
Lemma gate_not_exclusive :
  ∃ g, rtc gate_step (MkGate STABLE {[0%nat := GPoll; 1%nat := GPoll]}) g
  ∧ ga_state g = STABLE ∧ ga_pcs g !! 1%nat = Some GWait.
Proof.
  eexists. split.
  - eapply rtc_l; [apply (gate_poll 0); done|]. eapply rtc_l; [apply (gate_poll 1); done|].
    eapply rtc_l; [apply (gate_enter 0); done|]. eapply rtc_l; [apply (gate_enter 1); done|].
    eapply rtc_l; [apply (gate_applied 0); done|]. eapply rtc_l; [apply (gate_thaw 0); done|].
    apply rtc_refl.
  - done.
Qed.

(** A change that timed out is reported to the clerk with [WrongLeader] false, and the
    clerk takes it for done. *)
Lemma clerk_accepts_timeout : Clerk_Change [[Some (MkReply false ErrTimeOut)]] = Some tt.
Proof. done. Qed.

(** ** Lemmas *)

(** The list of configurations: never empty, each at the index of its number. *)
Definition history_ok (cs : list Config) : Prop :=
  cs ≠ [] ∧ ∀ i c, cs !! i = Some c → Num c = Z.of_nat i.

Lemma history_last cs : history_ok cs → ∃ c, list.last cs = Some c ∧ Num c = len cs - 1.
Proof.
  intros [Hne Hn]. destruct (list.last cs) as [c|] eqn:Hl; [|by apply last_None in Hl].
  exists c. split; [done|]. apply last_Some in Hl as [l ->].
  rewrite (Hn (length l) c) by (by apply list_lookup_middle). rewrite length_app. simpl. lia.
Qed.

Lemma history_snoc cs c : history_ok cs → Num c = len cs → history_ok (cs ++ [c]).
Proof.
  intros [Hne Hn] Hc. split; [by destruct cs|]. intros i d Hi.
  apply lookup_snoc_Some in Hi as [[_ Hi]|[-> ->]]; [by apply Hn|done].
Qed.

Lemma adjustConfig_Num order cs c c' : adjustConfig order cs c = Some c' → Num c' = Num c.
Proof.
  unfold adjustConfig. destruct (_ =? 0); [by intros [= <-]|]. destruct (_ =? 1); [by intros [= <-]|].
  destruct (getConfigCopy (-1) cs); simpl; [|done]. destruct (_ <? _); by intros [= <-].
Qed.

(** An operation extends the history by at most one configuration. *)
Lemma apply_config_extends order op cs cs' :
  history_ok cs → apply_config order op cs = Some cs' →
  cs' = cs ∨ ∃ c, cs' = cs ++ [c] ∧ Num c = len cs.
Proof.
  intros Hh. destruct (history_last cs Hh) as (c & Hl & Hn). unfold apply_config.
  assert (∀ config cs1, Num config = len cs →
    (config ← adjustConfig order cs config; Some (cs ++ [config])) = Some cs1 →
    ∃ c, cs1 = cs ++ [c] ∧ Num c = len cs) as Hadj.
  { intros config cs1 Hc. destruct (adjustConfig order cs config) as [c1|] eqn:Ha; simpl; [|done].
    intros [= <-]. exists c1. split; [done|]. apply adjustConfig_Num in Ha. congruence. }
  repeat case_bool_decide; [..|intros [= <-]; by left]; (destruct (Args op); try done).
  - unfold join. rewrite (getConfigCopy_last cs c Hl). cbn [mbind option_bind].
    intros Hj. right. eapply Hadj; [|exact Hj]. simpl. lia.
  - unfold leave. rewrite (getConfigCopy_last cs c Hl). cbn [mbind option_bind].
    intros Hj. right. eapply Hadj; [|exact Hj]. simpl. lia.
  - unfold move. rewrite (getConfigCopy_last cs c Hl). cbn [mbind option_bind].
    destruct (slice_set _ _ _); [|done]. intros [= <-]. right. eexists. split; [done|]. simpl. lia.
Qed.

Lemma apply_commands_repeat order op sm :
  CheckApplied (MsgId op) (ClientId op) sm = true →
  ∀ i, ∃ sm' n, apply order (MkApplyMsg true (ICmd op) i) sm = Some (sm', n)
    ∧ configs sm' = configs sm.
Proof. intros Hc i. unfold apply. simpl. rewrite Hc. simpl. eauto. Qed.

(** ** Properties *)

(** C38. The configuration history only grows and is numbered without gaps: whatever
    message is applied, with any range order, no configuration is changed or lost, at
    most one is added, and the [i]-th keeps the number [i]; a notification that is sent is
    [OK] and goes to a handler that waits. *)
Theorem apply_extends_history order msg sm sm' note :
  history_ok (configs sm) → apply order msg sm = Some (sm', note) →
  history_ok (configs sm')
  ∧ (configs sm' = configs sm ∨ ∃ c, configs sm' = configs sm ++ [c])
  ∧ (∀ id m, note = Some (id, m) → m = MkNotifyMsg OK false ∧ is_Some (sm_notifyData sm !! id)).
Proof.
  intros Hh. unfold apply. destruct (CommandValid msg); simpl; [|intros [= <- <-]; split_and!; [done|by left|done]].
  destruct (msg_Command msg) as [| |op]; [done|done|].
  destruct (CheckApplied (MsgId op) (ClientId op) sm); simpl.
  - intros [= <- <-]. simpl. split_and!; auto. intros id m. case_match; naive_solver.
  - destruct (apply_config order op (configs sm)) as [cs|] eqn:Ha; simpl; [|done].
    intros [= <- <-]. simpl. destruct (apply_config_extends _ _ _ _ Hh Ha) as [->|(c & -> & Hc)].
    + split_and!; auto. intros id m. case_match; naive_solver.
    + split_and!; [by apply history_snoc|eauto|]. intros id m. case_match; naive_solver.
Qed.

(** Retries change nothing: after a client's operation has been applied, a second
    delivery with the same client and message ids leaves every configuration alone,
    whatever its method, arguments, log index or range order. *)
Theorem shardmaster_retry_idempotent order order' op op' i i' sm sm1 n :
  apply order (MkApplyMsg true (ICmd op) i) sm = Some (sm1, n) →
  ClientId op' = ClientId op → MsgId op' = MsgId op →
  ∃ sm2 n', apply order' (MkApplyMsg true (ICmd op') i') sm1 = Some (sm2, n')
  ∧ configs sm2 = configs sm1.
Proof.
  intros Ha Hc Hm. apply apply_commands_repeat. rewrite Hc, Hm.
  unfold apply in Ha. simpl in Ha.
  destruct (if CheckApplied (MsgId op) (ClientId op) sm then _ else _); simpl in Ha; [|done].
  injection Ha as <- <-. unfold CheckApplied. simpl. rewrite lookup_insert_eq. apply Z.eqb_refl.
Qed.

(** [Query] answers from the history: on a leader past its gate the reply carries the
    configuration with the requested number, or the newest one if there is no such
    number; a server that is not the leader answers [ErrWrongLeader]. *)
Theorem Query_answers num c m r polls o sm rf :
  history_ok (configs sm) → raft_wf rf →
  (state rf ≠ LEADER → Query num c m r polls o sm rf
     = Some (sm, rf, Replied (MkQueryReply true ErrWrongLeader (MkConfig 0 no_shards ∅))))
  ∧ (state rf = LEADER → Exists (λ s, s ≠ TRANSITION) polls →
     ∃ sm' rf' err config,
       Query num c m r polls o sm rf = Some (sm', rf', Replied (MkQueryReply
         (nm_WrongLeader (wait_result o)) err config))
     ∧ configs sm' = configs sm ∧ config ∈ configs sm
     ∧ Num config = (if (0 <=? num) && (num <? len (configs sm)) then num else len (configs sm) - 1)).
Proof.
  intros Hh Hwf. unfold Query, GetState. split; intros Hs.
  { by rewrite bool_decide_eq_false_2. }
  intros Hpoll. rewrite bool_decide_eq_true_2 by done. simpl.
  assert (wait_gate (λ s, negb (s =? TRANSITION)) polls = true) as ->.
  { clear -Hpoll. induction Hpoll as [s polls Hs|s polls _ IH]; simpl.
    - by rewrite (proj2 (Z.eqb_neq s TRANSITION)).
    - rewrite IH. by destruct (negb _). }
  pose proof Hwf as [Hl Hme _ Hn Hm _]. unfold waitForRaft, Start.
  rewrite lastLogTermIndex_spec by done. simpl. rewrite bool_decide_eq_true_2 by done.
  specialize (Hn Hs). specialize (Hm Hs).
  rewrite slice_set_lt by lia. simpl. rewrite slice_set_lt by lia. simpl.
  destruct (history_last _ Hh) as (cl & Hlast & Hnum).
  unfold getConfigCopy. rewrite (Z.leb_antisym num (len (configs sm))).
  destruct ((0 <=? num) && (num <? len (configs sm))) eqn:Hin.
  - replace ((num <? 0) || negb (num <? len (configs sm))) with false by lia.
    destruct (slice_get_lt (configs sm) num) as [cn Hcn]; [lia|]. rewrite Hcn. simpl.
    rewrite Config_Copy_id. eexists _, _, _, _. split; [done|]. split; [done|].
    apply slice_get_Some in Hcn as [? Hcn]. split; [by eapply list_elem_of_lookup_2|].
    destruct Hh as [_ Hh]. rewrite (Hh _ _ Hcn). lia.
  - replace ((num <? 0) || negb (num <? len (configs sm))) with true by lia.
    pose proof (getConfigCopy_last _ _ Hlast) as Hg. unfold getConfigCopy in Hg. simpl in Hg.
    change ((-1 <? 0)) with true in Hg. simpl in Hg. rewrite Hg. simpl.
    eexists _, _, _, _. split; [done|]. split_and!; [done| |done].
    apply last_Some in Hlast as [l ->]. set_solver.
Qed.

(** A change is answered once it has gone through the gate: a leader that reads
    [STABLE] while polling logs the operation, ends [STABLE] again with no waiter left,
    and answers what the wait gave, [ErrTimeOut] included; one that never reads [STABLE]
    logs nothing and is still polling; any other peer answers [ErrWrongLeader]. *)
Theorem change_handler_gate freezes op polls o sm rf :
  raft_wf rf →
  (state rf ≠ LEADER →
     change_handler freezes op polls o sm rf = Some (sm, rf, Replied (MkReply true ErrWrongLeader)))
  ∧ (state rf = LEADER → Forall (λ s, s ≠ STABLE) polls →
     change_handler freezes op polls o sm rf = Some (sm, rf, Polling))
  ∧ (state rf = LEADER → STABLE ∈ polls →
     ∃ sm' rf', change_handler freezes op polls o sm rf
       = Some (sm', rf', Replied (MkReply (nm_WrongLeader (wait_result o)) (nm_Err (wait_result o))))
     ∧ sm_state sm' = STABLE ∧ sm_notifyData sm' !! RequestId op = None
     ∧ configs sm' = configs sm
     ∧ log rf' = log rf ++ [MkLog (ICmd op) (currentTerm rf)]).
Proof.
  intros [Hl Hme _ Hn Hm _]. unfold change_handler, GetState. split_and!; intros Hs.
  - by rewrite bool_decide_eq_false_2.
  - intros Hp. rewrite bool_decide_eq_true_2 by done. simpl.
    assert (wait_gate (λ s, s =? STABLE) polls = false) as ->; [|done].
    induction Hp as [|s polls Hst _ IH]; simpl; [done|]. by rewrite (proj2 (Z.eqb_neq s STABLE)).
  - intros Hp. rewrite bool_decide_eq_true_2 by done. simpl.
    assert (wait_gate (λ s, s =? STABLE) polls = true) as ->.
    { induction polls as [|s polls IH]; [by apply not_elem_of_nil in Hp|]. simpl.
      destruct (Z.eqb_spec s STABLE); [done|]. apply IH. set_solver. }
    unfold waitForRaft, Start. rewrite lastLogTermIndex_spec by done. simpl.
    rewrite bool_decide_eq_true_2 by done. specialize (Hn Hs). specialize (Hm Hs).
    rewrite slice_set_lt by lia. simpl. rewrite slice_set_lt by lia. simpl.
    eexists _, _. split; [done|].
    destruct freezes; simpl; (split_and!; [done|apply lookup_delete_eq|done|done]).
Qed.

(** The clerk's loop returns the first acceptable answer, in the order of rounds and
    of servers within a round, and keeps trying as long as there is none. *)
Theorem clerk_loop_first {R} (accept : R → bool) rounds :
  clerk_loop accept rounds = head (filter (λ r, accept r) (omap id (concat rounds))).
Proof.
  assert (∀ replies : list (option R),
    try_servers accept replies = head (filter (λ r, accept r) (omap id replies))) as Ht.
  { induction replies as [|[r|] replies IH]; simpl; [done| |done].
    rewrite filter_cons. by destruct (accept r). }
  induction rounds as [|round rounds IH]; simpl; [done|].
  rewrite omap_app, list.filter_app, Ht, IH. by destruct (filter _ (omap id round)).
Qed.

End server.

(** ** Witnesses *)
Module MasterDemo.
Export ZeroRand CountableCodec.
Definition no_raft : Raft Op :=
  MkRaft 0 MakePersister 0 true FOLLOWER 0 (-1) [] 0 0 [] [] 0 [] 0 true [] 0 0 0 0.
Definition rf0 : Raft Op := default no_raft (Make 3 0 MakePersister)
  <| state := LEADER |> <| nextIndex := [1; 1; 1] |> <| matchIndex := [0; 0; 0] |>.
Lemma rf0_wf : raft_wf rf0.
Proof. by split; vm_compute. Qed.
Definition sm0 : ShardMaster := MkSM 0 [RebalanceDemo.c0] ∅ {[9 := ()]} STABLE [].
Lemma sm0_history : history_ok (configs sm0).
Proof. split; [done|]. intros [|i] c Hc; by simplify_eq/=. Qed.
Definition join1 : Op := MkOp "Join" 5 1 9 (JoinArgs (RebalanceDemo.gs [1])).
End MasterDemo.

Section witnesses.
Import MasterDemo.

Lemma apply_extends_history_witness :
  ∃ sm' note, apply RebalanceDemo.id_order (MkApplyMsg true (ICmd join1) 1) sm0 = Some (sm', note)
  ∧ history_ok (configs sm').
Proof.
  assert (is_Some (apply RebalanceDemo.id_order (MkApplyMsg true (ICmd join1) 1) sm0))
    as [[sm' note] Ha] by (vm_compute; eauto).
  exists sm', note. split; [exact Ha|].
  apply (apply_extends_history _ _ _ _ _ sm0_history Ha).
Defined.

Lemma shardmaster_retry_idempotent_witness :
  ∃ sm1 n sm2 n', apply RebalanceDemo.id_order (MkApplyMsg true (ICmd join1) 1) sm0 = Some (sm1, n)
  ∧ apply RebalanceDemo.rev_order (MkApplyMsg true (ICmd join1) 2) sm1 = Some (sm2, n')
  ∧ configs sm2 = configs sm1.
Proof.
  assert (is_Some (apply RebalanceDemo.id_order (MkApplyMsg true (ICmd join1) 1) sm0))
    as [[sm1 n] Ha] by (vm_compute; eauto).
  destruct (shardmaster_retry_idempotent _ RebalanceDemo.rev_order join1 join1 1 2 sm0 sm1 n Ha
    eq_refl eq_refl) as (sm2 & n' & Ha2 & Hc).
  exists sm1, n, sm2, n'. split; [exact Ha|]. split; [exact Ha2|exact Hc].
Defined.

Lemma Query_answers_witness :
  ∃ sm' rf' err config, Query 7 5 1 9 [TRANSITION; STABLE] WaitTimedOut sm0 rf0
    = Some (sm', rf', Replied (MkQueryReply false err config)) ∧ Num config = 0.
Proof.
  destruct (Query_answers 7 5 1 9 [TRANSITION; STABLE] WaitTimedOut sm0 rf0 sm0_history rf0_wf)
    as [_ Hq].
  destruct Hq as (sm' & rf' & err & config & Hq & _ & _ & Hn); [done|by right; left|].
  exists sm', rf', err, config. split; [exact Hq|exact Hn].
Defined.

Lemma change_handler_gate_witness :
  ∃ sm' rf', change_handler true join1 [FREEZE; STABLE] WaitTimedOut sm0 rf0
    = Some (sm', rf', Replied (MkReply false ErrTimeOut)) ∧ sm_state sm' = STABLE.
Proof.
  destruct (change_handler_gate true join1 [FREEZE; STABLE] WaitTimedOut sm0 rf0 rf0_wf)
    as (_ & _ & Hc).
  destruct Hc as (sm' & rf' & Hc & Hs & _); [done|set_solver|].
  exists sm', rf'. split; [exact Hc|exact Hs].
Defined.

End witnesses.
