(* ===== verification/ShardKv.v ===== *)
(** * The sharded key/value server

    [src/6.824/src/shardkv]: [server.go] (handlers, snapshots), [waitApply.go] (the apply
    loop), the handler [Migration] of [migration.go] and [key2shard] of [client.go].

    A shard's map may be nil: [None]; a shard without an entry in [data] is absent. A
    handler is one function of the server and its Raft peer as they are when the request
    arrives, and of what the other goroutines do between its critical sections ([Other]).
    A notification is handed to a handler that waits; one that comes after the handler's
    timer fired is not modelled (the [ch <-] would block the apply loop; [KvNotify] treats
    this for the unsharded service, whose code is the same here). *)
From S2P Require Import Prelude RaftState RaftSnapshot ShardConfig.

Definition NShard : Z := 10.
Definition STABLE : Z := 0.
Definition TRANSITION : Z := 1.
Definition OK : string := "OK".
Definition ErrNoKey : string := "ErrNoKey".
Definition ErrWrongGroup : string := "ErrWrongGroup".
Definition ErrWrongLeader : string := "ErrWrongLeader".
Definition ErrTimeOut : string := "ErrTimeOut".

Abbreviation KvMap := (gmap string string).

Record Op := MkOp {
  Method : string;
  Shard : Z;
  Key : string;
  Value : string;
  ClientId : Z;
  MsgId : Z;
  RequestId : Z;
  MigrationData : option KvMap
}.
#[export] Instance Op_eq_dec : EqDecision Op.
Proof. solve_decision. Defined.
#[export] Program Instance Op_countable : Countable Op :=
  inj_countable' (λ o, (Method o, Shard o, Key o, Value o, ClientId o, MsgId o, RequestId o, MigrationData o))
    (λ '(m, s, k, v, c, i, r, d), MkOp m s k v c i r d) _.
Next Obligation. by intros []. Qed.

(** The commands of a group's log. *)
Inductive Cmd := COp (op : Op) | CConfig (c : Config).
#[export] Instance Cmd_eq_dec : EqDecision Cmd.
Proof. solve_decision. Defined.
#[export] Program Instance Cmd_countable : Countable Cmd :=
  inj_countable' (λ c, match c with COp o => inl o | CConfig c => inr c end)
    (λ c, match c with inl o => COp o | inr c => CConfig c end) _.
Next Obligation. by intros []. Qed.

Record NotifyMsg := MkNotifyMsg { nm_Err : string; nm_Value : string }.
Record PutAppendArgs := MkPutAppendArgs {
  pa_Key : string; pa_Value : string; pa_Op : string; pa_MsgId : Z; pa_ClientId : Z;
  pa_Gid : Z; pa_Shard : Z
}.
Record GetArgs := MkGetArgs {
  ga_Key : string; ga_MsgId : Z; ga_ClientId : Z; ga_Gid : Z; ga_Shard : Z
}.
Record GetReply := MkGetReply { gr_Err : string; gr_Value : string }.
Record MigrationArgs := MkMigrationArgs {
  ma_Shard : Z; ma_Data : option KvMap; ma_NewGid : Z; ma_MsgId : Z; ma_ClientId : Z
}.

(** Values of the snapshot's gob stream. *)
Inductive ShardVal := SData (d : gmap Z (option KvMap)) | SApplied (l : gmap Z Z) | SConfig (c : Config).
#[export] Instance ShardVal_eq_dec : EqDecision ShardVal.
Proof. solve_decision. Defined.
#[export] Program Instance ShardVal_countable : Countable ShardVal :=
  inj_countable' (λ v, match v with SData d => inl d | SApplied l => inr (inl l) | SConfig c => inr (inr c) end)
    (λ v, match v with inl d => SData d | inr (inl l) => SApplied l | inr (inr c) => SConfig c end) _.
Next Obligation. by intros []. Qed.

Record ShardKV := MkShardKV {
  kv_me : Z;
  gid : Z;
  maxraftstate : Z;
  config : option Config;
  data : gmap Z (option KvMap);
  kv_lastApplied : gmap Z Z;
  notifyData : gmap Z unit;
  kv_LockSeq : list string;
  kv_state : Z
}.
#[export] Instance ShardKV_eta : Eta ShardKV := λ k,
  MkShardKV (kv_me k) (gid k) (maxraftstate k) (config k) (data k) (kv_lastApplied k)
    (notifyData k) (kv_LockSeq k) (kv_state k).

(** A server's state with its Raft peer's. *)
Abbreviation World := (ShardKV * Raft Cmd)%type.

(** A critical section of another goroutine: the apply loop takes a message, a handler
    adds or removes its channel, [FindConfig] moves the gate or drops a shard, the Raft
    peer moves to some state. *)
Inductive Other :=
  | OApplies (msg : ApplyMsg Cmd)
  | ORegisters (id : Z)
  | OLeaves (id : Z)
  | OGate (s : Z)
  | ORemoves (shard : Z)
  | ORaft (rf : Raft Cmd).

(** What the others do during [waitForRaft]: between [Start] and the registration of the
    channel, and during the wait. *)
Record WaitRun := MkWaitRun { wr_register : list Other; wr_wait : list Other }.

(** What they do during [Get] or [PutAppend]: before each look at the gate, before the
    ownership check, before [Start], and from there. *)
Record ServeRun := MkServeRun {
  sr_polls : list (list Other); sr_check : list Other; sr_start : list Other; sr_wait : WaitRun
}.

(** A handler's reply, or that it is still polling for [STABLE]. *)
Inductive Handled (R : Type) := Replied (r : R) | Polling.
Arguments Replied {R}. Arguments Polling {R}.

(** [int(key[0]) % NShards], and 0 for the empty key. *)
Definition key2shard (key : string) : Z :=
  let shard := match key with String c _ => Z.of_nat (Ascii.nat_of_ascii c) | EmptyString => 0 end in
  Z.rem shard NShards.

Section server.
Context `{GoRand, GobCodec (RaftVal Cmd), GobCodec ShardVal}.
Implicit Types (kv : ShardKV) (rf : Raft Cmd) (op : Op).

Definition Lock (m : string) kv : ShardKV := kv <| kv_LockSeq := kv_LockSeq kv ++ [m] |>.

(** [LockSeq[1:]] panics on an empty slice. *)
Definition Unlock (m : string) kv : option ShardKV :=
  l ← slice_from (kv_LockSeq kv) 1; Some (kv <| kv_LockSeq := l |>).

(** ** The apply loop ([waitApply.go]) *)

Definition CheckApplied (msgId clientId : Z) kv : bool :=
  match kv_lastApplied kv !! clientId with
  | Some oldMsgId => msgId =? oldMsgId
  | None => false
  end.

(** [kv.data[shard][key]]: the empty string if anything is missing. *)
Definition lookup_data (shard : Z) (key : string) kv : string :=
  match data kv !! shard with
  | Some (Some m) => default ""%string (m !! key)
  | _ => ""%string
  end.

(** [if _, ok := kv.data[shard]; !ok { kv.data[shard] = make(...) }]. *)
Definition ensure_shard (shard : Z) kv : ShardKV :=
  match data kv !! shard with
  | Some _ => kv
  | None => kv <| data := <[shard := Some ∅]> (data kv) |>
  end.

(** [kv.data[shard][key] = value]: panics on a nil map. *)
Definition assign (shard : Z) (key value : string) kv : option ShardKV :=
  match data kv !! shard with
  | Some (Some m) => Some (kv <| data := <[shard := Some (<[key := value]> m)]> (data kv) |>)
  | _ => None
  end.

Definition mark_applied op kv : ShardKV :=
  kv <| kv_lastApplied := <[ClientId op := MsgId op]> (kv_lastApplied kv) |>.

(** The effect of an operation on the data and the duplicate filter. *)
Definition apply_effect op kv : option ShardKV :=
  let repeat := CheckApplied (MsgId op) (ClientId op) kv in
  if negb repeat && bool_decide (Method op = "Migration"%string) then
    let kv := ensure_shard (Shard op) kv in
    Some (kv <| data := <[Shard op := MigrationData op]> (data kv) |>)
  else if negb repeat && bool_decide (Method op = "Put"%string) then
    let kv := ensure_shard (Shard op) kv in
    let kv := match data kv !! Shard op with
      | Some None => kv <| data := <[Shard op := Some ∅]> (data kv) |>
      | _ => kv end in
    kv ← assign (Shard op) (Key op) (Value op) kv;
    Some (mark_applied op kv)
  else if negb repeat && bool_decide (Method op = "Append"%string) then
    let kv := ensure_shard (Shard op) kv in
    let v := lookup_data (Shard op) (Key op) kv in
    kv ← assign (Shard op) (Key op) (v +:+ Value op)%string kv;
    Some (mark_applied op kv)
  else Some kv.

(** Encoding a nil configuration panics. *)
Definition encode_snapshot kv : option (list Byte.byte) :=
  c ← config kv; Some (gob_encode [SData (data kv); SApplied (kv_lastApplied kv); SConfig c]).

Definition saveSnapshot (index : Z) kv rf : option (Raft Cmd) :=
  if (maxraftstate kv =? -1) || (RaftStateSize (persister rf) <? maxraftstate kv) then Some rf
  else bs ← encode_snapshot kv; SaveStateAndSnapshot index (Some bs) rf.

(** The configuration is decoded but not restored; [None] is [os.Exit(1)]. *)
Definition ReadSnapshot (snap : option (list Byte.byte)) kv : option ShardKV :=
  match snap with
  | None => Some kv
  | Some bs =>
      match gob_Decode (gob_NewDecoder bs) with
      | Some (SData kvdata, d) =>
          match gob_Decode d with
          | Some (SApplied lastApplied, d) =>
              match gob_Decode d with
              | Some (SConfig _, _) =>
                  Some (kv <| kv_lastApplied := lastApplied |> <| data := kvdata |>)
              | _ => None
              end
          | _ => None
          end
      | _ => None
      end
  end.

Definition applyOp (index : Z) op kv rf : option (ShardKV * Raft Cmd * option (Z * NotifyMsg)) :=
  kv ← apply_effect op kv;
  rf ← saveSnapshot index kv rf;
  Some (kv, rf, match notifyData kv !! RequestId op with
                | Some _ => Some (RequestId op, MkNotifyMsg OK (lookup_data (Shard op) (Key op) kv))
                | None => None
                end).

(** A configuration that is not newer only triggers a snapshot. *)
Definition applyConfig (index : Z) (newConfig : Config) kv rf : option (ShardKV * Raft Cmd) :=
  match config kv with
  | Some c =>
      if Num newConfig <=? Num c then rf ← saveSnapshot index kv rf; Some (kv, rf)
      else Some (kv <| config := Some newConfig |>, rf)
  | None => Some (kv <| config := Some newConfig |>, rf)
  end.

(** One message of [applyCh]; commands of other types are ignored. *)
Definition WaitApplyCh_msg (msg : ApplyMsg Cmd) kv rf :
    option (ShardKV * Raft Cmd * option (Z * NotifyMsg)) :=
  if negb (CommandValid msg) then
    kv ← ReadSnapshot (Persister_ReadSnapshot (persister rf)) kv; Some (kv, rf, None)
  else
    match msg_Command msg with
    | ICmd (COp op) => applyOp (CommandIndex msg) op kv rf
    | ICmd (CConfig c) => '(kv, rf) ← applyConfig (CommandIndex msg) c kv rf; Some (kv, rf, None)
    | _ => Some (kv, rf, None)
    end.

(** ** The other goroutines

    A handler takes [kv.mu] several times and sleeps in between. What the server's other
    goroutines do meanwhile is a list of [Other]s, each one critical section. *)

Definition removeCh (id : Z) kv : ShardKV := kv <| notifyData := delete id (notifyData kv) |>.

(** [kv.notifyData[op.RequestId] = ch]. *)
Definition addCh (id : Z) kv : ShardKV := kv <| notifyData := <[id := ()]> (notifyData kv) |>.

Definition removeShardData (shard : Z) kv : ShardKV := kv <| data := delete shard (data kv) |>.

(** One critical section of another goroutine, and the notification it sends. *)
Definition other_step (o : Other) '((kv, rf) : World) : option (World * option (Z * NotifyMsg)) :=
  match o with
  | OApplies msg => '(kv, rf, note) ← WaitApplyCh_msg msg kv rf; Some ((kv, rf), note)
  | ORegisters id => Some ((addCh id kv, rf), None)
  | OLeaves id => Some ((removeCh id kv, rf), None)
  | OGate s => Some ((kv <| kv_state := s |>, rf), None)
  | ORemoves shard => Some ((removeShardData shard kv, rf), None)
  | ORaft rf => Some ((kv, rf), None)
  end.

Definition other_do (w : World) (o : Other) : option World := '(w, _) ← other_step o w; Some w.

Definition others_do (evs : list Other) (w : World) : option World := foldM other_do w evs.

(** ** The handlers ([server.go]) *)

(** The wait for the notification with this id: the first one sent, if any. *)
Definition await_step (id : Z) '((w, got) : World * option NotifyMsg) (o : Other) :
    option (World * option NotifyMsg) :=
  '(w, note) ← other_step o w;
  Some (w, match got, note with
           | None, Some (i, msg) => if i =? id then Some msg else None
           | _, _ => got
           end).

Definition await (id : Z) (evs : list Other) (w : World) : option (World * option NotifyMsg) :=
  foldM (await_step id) (w, None) evs.

(** [Start], the registration of the channel, and the wait, which ends by the timer when
    no notification has come. *)
Definition waitForRaft op (run : WaitRun) '((kv, rf) : World) : option (World * NotifyMsg) :=
  '(rf, (_, _, isLeader)) ← Start (COp op) rf;
  if (isLeader : bool) then
    '(kv, rf) ← others_do (wr_register run) (kv, rf);
    '((kv, rf), got) ← await (RequestId op) (wr_wait run) (addCh (RequestId op) kv, rf);
    Some ((removeCh (RequestId op) kv, rf),
          match got with
          | Some res => MkNotifyMsg OK (nm_Value res)
          | None => MkNotifyMsg ErrTimeOut ""
          end)
  else Some ((kv, rf), MkNotifyMsg ErrWrongLeader "").

(** Dereferences the configuration and indexes its shards. *)
Definition checkAndMigrateShard (shard : Z) kv : option bool :=
  c ← config kv; newGid ← (Shards c).[shard]; Some (newGid =? gid kv).

(** The poll for [STABLE], given what the others do before each look; [false] while it
    still polls. *)
Fixpoint wait_stable (polls : list (list Other)) (w : World) : option (World * bool) :=
  match polls with
  | [] => Some (w, false)
  | evs :: polls =>
      w ← others_do evs w;
      if kv_state (fst w) =? STABLE then Some (w, true) else wait_stable polls w
  end.

(** The common body of [Get] and [PutAppend]. *)
Definition serve op (argGid : Z) (run : ServeRun) (w : World) : option (World * Handled NotifyMsg) :=
  let '(_, isLeader) := GetState (snd w) in
  if negb isLeader then Some (w, Replied (MkNotifyMsg ErrWrongLeader ""))
  else
    '(w, stable) ← wait_stable (sr_polls run) w;
    if negb (stable : bool) then Some (w, Polling)
    else if negb (argGid =? gid (fst w)) then Some (w, Replied (MkNotifyMsg ErrWrongGroup ""))
    else
      w ← others_do (sr_check run) w;
      mine ← checkAndMigrateShard (Shard op) (fst w);
      if negb mine then Some (w, Replied (MkNotifyMsg ErrWrongGroup ""))
      else
        w ← others_do (sr_start run) w;
        '(w, res) ← waitForRaft op (sr_wait run) w; Some (w, Replied res).

Definition Get (args : GetArgs) (reqId : Z) :=
  serve (MkOp "Get" (ga_Shard args) (ga_Key args) "" (ga_ClientId args) (ga_MsgId args) reqId None)
    (ga_Gid args).

Definition PutAppend (args : PutAppendArgs) (reqId : Z) :=
  serve (MkOp (pa_Op args) (pa_Shard args) (pa_Key args) (pa_Value args) (pa_ClientId args)
           (pa_MsgId args) reqId None) (pa_Gid args).

(** The operation a receiver's [Migration] builds from a request. *)
Definition migration_op (args : MigrationArgs) (reqId : Z) kv : Op :=
  MkOp "Migration" (ma_Shard args) "" "" (kv_me kv) (ma_MsgId args) reqId (ma_Data args).

(** [Migration] of [migration.go], with what the others do between its look at the
    leadership and [waitForRaft]. *)
Definition Migration (args : MigrationArgs) (reqId : Z) (start : list Other) (run : WaitRun) (w : World) :
    option (World * string) :=
  if negb (ma_NewGid args =? gid (fst w)) then Some (w, ErrWrongGroup)
  else
    let '(_, isLeader) := GetState (snd w) in
    if negb isLeader then Some (w, ErrWrongLeader)
    else
      let serverOp := migration_op args reqId (fst w) in
      w ← others_do start w;
      '(w, res) ← waitForRaft serverOp run w;
      Some (w, nm_Err res).

Definition ShardKV_Kill kv rf : option (ShardKV * Raft Cmd) := rf ← Kill rf; Some (kv, rf).

Definition StartServer (nservers me : Z) (ps : Persister) (maxraftstate gid : Z) :
    option (ShardKV * Raft Cmd) :=
  let kv := MkShardKV me gid maxraftstate None ∅ ∅ ∅ [] 0 in
  rf ← Make nservers me ps;
  kv ← ReadSnapshot (Persister_ReadSnapshot (persister rf)) kv;
  Some (kv, rf).

(** ** Lemmas *)

Lemma lookup_data_insert shard m s k kv :
  lookup_data s k (kv <| data := <[shard := m]> (data kv) |>) =
  if decide (s = shard) then match m with Some m => default ""%string (m !! k) | None => ""%string end
  else lookup_data s k kv.
Proof.
  unfold lookup_data. simpl. case_decide as Hs.
  - subst. rewrite lookup_insert_eq. done.
  - by rewrite lookup_insert_ne.
Qed.

Lemma assign_lookup shard key value kv kv' s k :
  assign shard key value kv = Some kv' →
  lookup_data s k kv' = (if decide (s = shard ∧ k = key) then value else lookup_data s k kv)
  ∧ kv_lastApplied kv' = kv_lastApplied kv.
Proof.
  unfold assign. destruct (data kv !! shard) as [[m|]|] eqn:Hm; [|done..]. intros [= <-].
  split; [|done]. rewrite lookup_data_insert. destruct (decide (s = shard)) as [->|].
  - destruct (decide (k = key)) as [->|].
    + by rewrite lookup_insert_eq, decide_True.
    + rewrite lookup_insert_ne, decide_False by naive_solver. unfold lookup_data. by rewrite Hm.
  - by rewrite decide_False by naive_solver.
Qed.

Lemma ensure_shard_lookup shard s k kv : lookup_data s k (ensure_shard shard kv) = lookup_data s k kv.
Proof.
  unfold ensure_shard. destruct (data kv !! shard) eqn:Hs; [done|].
  rewrite lookup_data_insert. case_decide; [|done]. subst. unfold lookup_data. by rewrite Hs, lookup_empty.
Qed.

Lemma ensure_shard_Some shard kv :
  data (ensure_shard shard kv) !! shard = Some (default (Some ∅) (data kv !! shard)).
Proof.
  unfold ensure_shard. destruct (data kv !! shard) eqn:Hs; simpl; [done|]. by rewrite lookup_insert_eq.
Qed.

Lemma ensure_shard_applied shard kv : kv_lastApplied (ensure_shard shard kv) = kv_lastApplied kv.
Proof. unfold ensure_shard. by destruct (data kv !! shard). Qed.

(** The map a key lives in, for a shard that is not nil. *)
Lemma ensure_shard_map shard kv :
  data kv !! shard ≠ Some None → ∃ m, data (ensure_shard shard kv) !! shard = Some (Some m).
Proof.
  intros Hn. rewrite ensure_shard_Some. destruct (data kv !! shard) as [[m|]|]; simpl; eauto; done.
Qed.


(** The command is a configuration only if [applyConfig] runs. *)
Definition keeps_config (o : Other) : Prop :=
  match o with
  | OApplies msg => match msg_Command msg with ICmd (CConfig _) => False | _ => True end
  | _ => True
  end.

(** No message is applied, and the Raft peer stays well formed. *)
Definition calm (o : Other) : Prop :=
  match o with OApplies _ => False | ORaft rf => raft_wf rf | _ => True end.

(** What applying an operation leaves alone. *)
Lemma apply_effect_frame op kv kv' :
  apply_effect op kv = Some kv' →
  kv_me kv' = kv_me kv ∧ gid kv' = gid kv ∧ config kv' = config kv ∧ notifyData kv' = notifyData kv
  ∧ (∀ s, s ≠ Shard op → data kv' !! s = data kv !! s).
Proof.
  assert (∀ s, s ≠ Shard op → data (ensure_shard (Shard op) kv) !! s = data kv !! s) as Hens.
  { intros s Hs. unfold ensure_shard. case_match; [done|]. simpl. by rewrite lookup_insert_ne. }
  unfold apply_effect, assign, mark_applied.
  assert (kv_me (ensure_shard (Shard op) kv) = kv_me kv ∧ gid (ensure_shard (Shard op) kv) = gid kv
    ∧ config (ensure_shard (Shard op) kv) = config kv
    ∧ notifyData (ensure_shard (Shard op) kv) = notifyData kv) as (Hme & Hgid & Hcfg & Hnd)
    by (unfold ensure_shard; by case_match).
  repeat case_match; intros ?; simplify_option_eq; split_and!; try done; intros s Hs; simpl;
    rewrite ?lookup_insert_ne by done; auto.
Qed.

Lemma WaitApplyCh_msg_frame msg kv rf kv' rf' note :
  WaitApplyCh_msg msg kv rf = Some (kv', rf', note) →
  kv_me kv' = kv_me kv ∧ gid kv' = gid kv ∧ (keeps_config (OApplies msg) → config kv' = config kv).
Proof.
  unfold WaitApplyCh_msg, ReadSnapshot, applyOp, applyConfig. simpl.
  repeat case_match; intros ?; simplify_option_eq; try done;
    try (edestruct apply_effect_frame as (? & ? & ? & _); [done|]; done).
  all: repeat case_match; simplify_option_eq; done.
Qed.

(** A notification answers the operation applied, with its key's value. *)
Lemma other_step_note o w w' id m :
  other_step o w = Some (w', Some (id, m)) →
  ∃ msg op, o = OApplies msg ∧ msg_Command msg = ICmd (COp op) ∧ RequestId op = id
  ∧ nm_Value m = lookup_data (Shard op) (Key op) (fst w').
Proof.
  destruct w as [kv rf]. destruct o as [msg| | | | |]; simpl; try done.
  unfold WaitApplyCh_msg, applyOp. destruct (CommandValid msg); simpl; [|by intros ?; simplify_option_eq].
  destruct (msg_Command msg) as [| |[op|c]] eqn:Hc; intros ?; simplify_option_eq;
    try done; [|by repeat case_match; simplify_eq].
  repeat case_match; simplify_eq. by eexists _, op.
Qed.

Lemma other_step_frame o w w' note :
  other_step o w = Some (w', note) →
  kv_me (fst w') = kv_me (fst w) ∧ gid (fst w') = gid (fst w)
  ∧ (keeps_config o → config (fst w') = config (fst w)).
Proof.
  destruct w as [kv rf]. destruct o as [msg| | | | |]; simpl; try (by intros; simplify_eq).
  destruct (WaitApplyCh_msg msg kv rf) as [[[kv1 rf1] n]|] eqn:Hm; simpl; [|done]. intros [= <- <-].
  by apply WaitApplyCh_msg_frame in Hm.
Qed.

Lemma other_do_step o w w' : other_do w o = Some w' → ∃ note, other_step o w = Some (w', note).
Proof. unfold other_do. destruct (other_step o w) as [[w1 n]|]; simpl; [|done]. intros [= ->]. by exists n. Qed.

Lemma others_do_cons o evs w : others_do (o :: evs) w = (w ← other_do w o; others_do evs w).
Proof. apply foldM_cons. Qed.

Lemma others_do_app evs evs' w : others_do (evs ++ evs') w = (w ← others_do evs w; others_do evs' w).
Proof. apply foldM_app. Qed.

Lemma others_do_frame evs w w' :
  others_do evs w = Some w' →
  kv_me (fst w') = kv_me (fst w) ∧ gid (fst w') = gid (fst w)
  ∧ (Forall keeps_config evs → config (fst w') = config (fst w)).
Proof.
  revert w. induction evs as [|o evs IH]; intros w; [by intros [= <-]|]. rewrite others_do_cons.
  destruct (other_do w o) as [w1|] eqn:Ho; simpl; [|done]. intros He.
  apply other_do_step in Ho as [n Ho]. destruct (other_step_frame _ _ _ _ Ho) as (? & ? & Hc).
  destruct (IH _ He) as (? & ? & Hc'). split_and!; [congruence..|]. intros [??]%Forall_cons.
  rewrite Hc', Hc by done. done.
Qed.

Lemma calm_step o w :
  calm o → raft_wf (snd w) →
  ∃ w', other_step o w = Some (w', None) ∧ raft_wf (snd w') ∧ config (fst w') = config (fst w).
Proof. destruct w as [kv rf]. destruct o; simpl; try done; intros; eexists; done. Qed.

Lemma calm_others evs w :
  Forall calm evs → raft_wf (snd w) →
  ∃ w', others_do evs w = Some w' ∧ raft_wf (snd w') ∧ config (fst w') = config (fst w).
Proof.
  intros Hc. revert w. induction Hc as [|o evs Ho Hc IH]; intros w Hw; [by exists w|].
  destruct (calm_step o w Ho Hw) as (w1 & Hs & Hw1 & Hcfg). rewrite others_do_cons.
  unfold other_do. rewrite Hs. simpl. destruct (IH w1 Hw1) as (w2 & ? & ? & ?). exists w2.
  split_and!; [done..|congruence].
Qed.

(** ** The handlers' stages *)

Lemma wait_stable_spec polls w w' st :
  wait_stable polls w = Some (w', st) →
  ∃ k, others_do (concat (take k polls)) w = Some w'
  ∧ (if st then kv_state (fst w') = STABLE
     else take k polls = polls ∧ ∀ j w1, (0 < j ≤ length polls)%nat →
       others_do (concat (take j polls)) w = Some w1 → kv_state (fst w1) ≠ STABLE).
Proof.
  revert w. induction polls as [|evs polls IH]; intros w; cbn [wait_stable].
  { intros [= <- <-]. exists 0%nat. split_and!; [done|done|]. simpl. lia. }
  destruct (others_do evs w) as [w1|] eqn:He; simpl; [|done].
  destruct (Z.eqb_spec (kv_state (fst w1)) STABLE) as [Hs|Hs].
  { intros [= <- <-]. exists 1%nat. cbn [take concat]. rewrite take_0. simpl. rewrite app_nil_r. done. }
  intros Hw. destruct (IH _ Hw) as (k & Hd & Hk). exists (S k). cbn [take concat].
  rewrite others_do_app, He. split; [done|]. destruct st; [done|]. destruct Hk as [Ht Hall].
  split; [by rewrite Ht|]. intros [|j] w2 Hj; [lia|]. cbn [take concat]. rewrite others_do_app, He.
  cbn [mbind option_bind]. destruct j as [|j]; [rewrite take_0; by intros [= <-]|].
  apply Hall. simpl in Hj. lia.
Qed.

Lemma wait_stable_total polls w :
  Forall (Forall calm) polls → raft_wf (snd w) →
  ∃ w' st, wait_stable polls w = Some (w', st) ∧ raft_wf (snd w') ∧ config (fst w') = config (fst w).
Proof.
  intros Hc. revert w. induction Hc as [|evs polls He Hc IH]; intros w Hw; simpl; [by eexists _, _|].
  destruct (calm_others evs w He Hw) as (w1 & -> & Hw1 & Hcfg). simpl. case_match; [by eexists _, _|].
  destruct (IH w1 Hw1) as (w2 & st & ? & ? & ?). eexists _, _. split_and!; [done..|congruence].
Qed.

(** The operation with this id is applied at a point of [evs], where its key has the
    value [v]. *)
Definition applied_during (id : Z) (v : string) (evs : list Other) (w : World) : Prop :=
  ∃ pre msg op post w1, evs = pre ++ OApplies msg :: post ∧ msg_Command msg = ICmd (COp op)
  ∧ RequestId op = id ∧ others_do (pre ++ [OApplies msg]) w = Some w1
  ∧ v = lookup_data (Shard op) (Key op) (fst w1).

(** The first notification with the id, sent while the handler waits. *)
Lemma await_spec id evs w w' got :
  await id evs w = Some (w', got) →
  others_do evs w = Some w' ∧ ∀ m, got = Some m → applied_during id (nm_Value m) evs w.
Proof.
  unfold await. apply (foldM_inv (λ pre s, others_do pre w = Some s.1
    ∧ ∀ m, s.2 = Some m → applied_during id (nm_Value m) pre w)); [done|].
  intros pre o [w1 got1] [w2 got2] [Hd Hg]. simpl in *. unfold await_step.
  destruct (other_step o w1) as [[w3 note]|] eqn:Ho; simpl; [|done]. intros [= <- Hgot].
  assert (others_do (pre ++ [o]) w = Some w3) as Hd'.
  { rewrite others_do_app, Hd. simpl. rewrite others_do_cons. unfold other_do. by rewrite Ho. }
  split; [done|]. intros m ->. destruct got1 as [m1|].
  - injection Hgot as ->. destruct (Hg m eq_refl) as (pre' & msg & op & post & wa & -> & ?).
    exists pre', msg, op, (post ++ [o]), wa. by rewrite <- app_assoc.
  - destruct note as [[i msg']|]; [|done]. destruct (Z.eqb_spec i id) as [->|]; [|done].
    injection Hgot as ->. apply other_step_note in Ho as (msg & op & -> & ? & ? & ?).
    by exists pre, msg, op, [], w3.
Qed.

Lemma await_total id evs w :
  Forall calm evs → raft_wf (snd w) → is_Some (await id evs w).
Proof.
  intros Hc Hw. destruct (foldM_total (λ _ s, raft_wf s.1.2) (await_step id) (w, None) evs) as (s & Hs & _).
  - done.
  - intros pre o rest [w1 got] Hl Hw1. simpl in Hw1.
    assert (calm o) as Ho by (rewrite Hl, Forall_app, Forall_cons in Hc; naive_solver).
    destruct (calm_step o w1 Ho Hw1) as (w2 & Hst & Hw2 & _). unfold await_step. rewrite Hst. by eexists.
  - unfold await. by rewrite Hs.
Qed.

(** [Start] at a leader appends the operation, and elsewhere nothing. *)
Lemma Start_logs command rf rf' r :
  Start (C := Cmd) command rf = Some (rf', r) →
  (state rf = LEADER ∧ r.2 = true ∧ log rf' = log rf ++ [MkLog (ICmd command) (currentTerm rf)])
  ∨ (state rf ≠ LEADER ∧ r.2 = false ∧ rf' = rf).
Proof.
  unfold Start. destruct (lastLogTermIndex rf) as [[lt li]|]; simpl; [|done]. case_bool_decide as Hs.
  - destruct (slice_set (nextIndex rf) _ _); simpl; [|done].
    destruct (slice_set (matchIndex rf) _ _); simpl; [|done]. intros [= <- <-]. by left.
  - intros [= <- <-]. by right.
Qed.

(** What happens to the server from [Start] to the end of [waitForRaft]. *)
Definition waitForRaft_events op (run : WaitRun) : list Other :=
  wr_register run ++ [ORegisters (RequestId op)] ++ wr_wait run ++ [OLeaves (RequestId op)].

(** The answer after the wait: the timer fired, or an operation of this id was applied
    after the registration, and the answer has its key's value then. *)
Definition waited op (run : WaitRun) (w : World) (res : NotifyMsg) : Prop :=
  res = MkNotifyMsg ErrTimeOut ""
  ∨ nm_Err res = OK
    ∧ ∃ w2, others_do (wr_register run ++ [ORegisters (RequestId op)]) w = Some w2
    ∧ applied_during (RequestId op) (nm_Value res) (wr_wait run) w2.

(** [waitForRaft]: refused at a peer that does not lead; otherwise the operation is
    logged and waited for. *)
Lemma waitForRaft_spec op run w w' res :
  waitForRaft op run w = Some (w', res) →
  (state (snd w) ≠ LEADER ∧ w' = w ∧ res = MkNotifyMsg ErrWrongLeader "")
  ∨ (state (snd w) = LEADER
     ∧ ∃ rf1, log rf1 = log (snd w) ++ [MkLog (ICmd (COp op)) (currentTerm (snd w))]
       ∧ others_do (waitForRaft_events op run) (fst w, rf1) = Some w'
       ∧ waited op run (fst w, rf1) res).
Proof.
  destruct w as [kv rf]. cbn [waitForRaft fst snd].
  destruct (Start (COp op) rf) as [[rf1 [[i t] b]]|] eqn:Hst; cbn [mbind option_bind]; [|done].
  apply Start_logs in Hst as [(Hs & Hb & Hlog)|(Hs & Hb & ->)]; simpl in Hb; subst b; cbv iota.
  2: { intros [= <- <-]. by left. }
  destruct (others_do (wr_register run) (kv, rf1)) as [[kv2 rf2]|] eqn:Hr; cbn [mbind option_bind]; [|done].
  destruct (await (RequestId op) (wr_wait run) _) as [[[kv3 rf3] got]|] eqn:Ha; cbn [mbind option_bind]; [|done].
  apply await_spec in Ha as [Ha Hgot]. intros [= <- <-]. right. split; [done|]. exists rf1. split_and!; [done| |].
  - unfold waitForRaft_events. rewrite others_do_app, Hr.
    cbn [mbind option_bind]. rewrite others_do_app. cbn. rewrite others_do_app, Ha. done.
  - destruct got as [m|]; [right|by left]. split; [done|].
    exists (addCh (RequestId op) kv2, rf2). split; [by rewrite others_do_app, Hr|exact (Hgot m eq_refl)].
Qed.

Lemma waitForRaft_removes op run w w' :
  others_do (waitForRaft_events op run) w = Some w' → notifyData (fst w') !! RequestId op = None.
Proof.
  unfold waitForRaft_events. rewrite !app_assoc, others_do_app.
  destruct (others_do _ w) as [[kv rf]|]; [|done]. intros [= <-]. simpl. apply lookup_delete_eq.
Qed.

(** [Start] at a well-formed peer returns one. *)
Lemma Start_returns command rf :
  raft_wf rf → ∃ rf' r, Start (C := Cmd) command rf = Some (rf', r) ∧ raft_wf rf'.
Proof.
  intros Hwf. pose proof Hwf as [Hl Hme Ht Hn Hm Hsn]. unfold Start. rewrite lastLogTermIndex_spec by done.
  cbn [mbind option_bind]. case_bool_decide as Hs; [|by eexists _, _].
  specialize (Hn Hs). specialize (Hm Hs).
  destruct (slice_set (nextIndex rf) (me rf) (lastIndex rf + 1 + 1)) as [nx|] eqn:Hnx;
    [|by rewrite slice_set_lt in Hnx by lia].
  destruct (slice_set (matchIndex rf) (me rf) (lastIndex rf + 1)) as [mt|] eqn:Hmt;
    [|by rewrite slice_set_lt in Hmt by lia].
  simpl. rewrite Hnx. simpl. rewrite Hmt. simpl. eexists _, _. split; [done|].
  apply slice_set_length in Hnx, Hmt.
  split; simpl; [by destruct (log rf)|done| |intros _; lia..|done]. rewrite ?length_fmap. done.
Qed.

Lemma waitForRaft_total op run w :
  Forall calm (wr_register run ++ wr_wait run) → raft_wf (snd w) → is_Some (waitForRaft op run w).
Proof.
  intros [Hr Hwt]%Forall_app Hw. destruct w as [kv rf]. cbn [waitForRaft].
  destruct (Start_returns (COp op) rf Hw) as (rf1 & [[i t] b] & -> & Hw1). cbn [mbind option_bind].
  destruct b; [|done].
  destruct (calm_others (wr_register run) (kv, rf1) Hr Hw1) as ([kv2 rf2] & -> & Hw2 & _). cbn [mbind option_bind].
  destruct (await_total (RequestId op) (wr_wait run) (addCh (RequestId op) kv2, rf2) Hwt Hw2) as [[[kv3 rf3] got] ->].
  done.
Qed.

(** Everything the others do during the handler. *)
Definition serve_events (run : ServeRun) : list Other :=
  concat (sr_polls run) ++ sr_check run ++ sr_start run ++ wr_register (sr_wait run) ++ wr_wait (sr_wait run).

Lemma serve_total op argGid run w :
  raft_wf (snd w) → (∀ c, config (fst w) = Some c → is_Some ((Shards c).[Shard op])) →
  is_Some (config (fst w)) → Forall calm (serve_events run) → is_Some (serve op argGid run w).
Proof.
  intros Hw Hsh [c Hc] Hcalm. unfold serve_events in Hcalm. rewrite !Forall_app, Forall_concat in Hcalm.
  destruct Hcalm as (Hp & Hck & Hst & Hrg & Hwt). unfold serve. destruct (GetState (snd w)) as [t b].
  destruct b; [|done]. simpl.
  destruct (wait_stable_total (sr_polls run) w Hp Hw) as (w1 & st & -> & Hw1 & Hc1). simpl.
  destruct st; [|done]. simpl. destruct (argGid =? gid (fst w1)); [|done]. simpl.
  destruct (calm_others (sr_check run) w1 Hck Hw1) as (w2 & -> & Hw2 & Hc2). simpl.
  destruct (Hsh c Hc) as [g Hg].
  unfold checkAndMigrateShard. rewrite Hc2, Hc1, Hc. simpl. rewrite Hg. simpl. destruct (g =? gid (fst w2)); [|done].
  simpl. destruct (calm_others (sr_start run) w2 Hst Hw2) as (w3 & -> & Hw3 & _). simpl.
  destruct (waitForRaft_total op (sr_wait run) w3) as [[w4 res] ->]; [by apply Forall_app|done|done].
Qed.

(** ** Properties *)

(** Operations act on one key and execute once: an operation whose message id is the
    client's last changes nothing; a [Put] or [Append] that is not a repeat sets exactly
    its key of its shard and records its id, provided the shard's map is not nil for
    [Append], which panics there; a migrated shard replaces the map of that shard only. *)
Theorem apply_effect_spec op kv :
  (CheckApplied (MsgId op) (ClientId op) kv = true → apply_effect op kv = Some kv)
  ∧ (CheckApplied (MsgId op) (ClientId op) kv = false →
     (Method op = "Put"%string ∨ Method op = "Append"%string ∧ data kv !! Shard op ≠ Some None →
       ∃ kv', apply_effect op kv = Some kv'
       ∧ (∀ s k, lookup_data s k kv' =
            if decide (s = Shard op ∧ k = Key op)
            then (if decide (Method op = "Put"%string) then Value op
                  else lookup_data (Shard op) (Key op) kv +:+ Value op)%string
            else lookup_data s k kv)
       ∧ kv_lastApplied kv' = <[ClientId op := MsgId op]> (kv_lastApplied kv))
     ∧ (Method op = "Append"%string → data kv !! Shard op = Some None → apply_effect op kv = None)
     ∧ (Method op = "Migration"%string →
       ∃ kv', apply_effect op kv = Some kv' ∧ data kv' !! Shard op = Some (MigrationData op)
       ∧ (∀ s, s ≠ Shard op → data kv' !! s = data kv !! s)
       ∧ kv_lastApplied kv' = kv_lastApplied kv)).
Proof.
  unfold apply_effect. destruct (CheckApplied _ _ kv); (split; [done|]); [done|]. intros _. simpl.
  pose proof (ensure_shard_Some (Shard op) kv) as Hes. split_and!.
  - intros [Hp|[Ha Hn]].
    + rewrite Hp. simpl.
      set (kv1 := match data _ !! _ with Some None => _ | _ => _ end).
      assert (∃ m, data kv1 !! Shard op = Some (Some m)) as [m Hm].
      { unfold kv1. rewrite Hes. destruct (data kv !! Shard op) as [[m|]|] eqn:Hd; simpl; eauto.
        eexists. apply lookup_insert_eq. }
      assert (∀ s k, lookup_data s k kv1 = lookup_data s k kv) as Hk1.
      { intros s k. unfold kv1. rewrite Hes. destruct (data kv !! Shard op) as [[m'|]|] eqn:Hd; simpl;
          [apply ensure_shard_lookup| |apply ensure_shard_lookup].
        rewrite lookup_data_insert, ensure_shard_lookup, lookup_empty. case_decide; [|done].
        subst. unfold lookup_data. by rewrite Hd. }
      assert (kv_lastApplied kv1 = kv_lastApplied kv) as Hl1.
      { unfold kv1. repeat case_match; simpl; apply ensure_shard_applied. }
      assert (is_Some (assign (Shard op) (Key op) (Value op) kv1)) as [kv2 H2]
        by (unfold assign; rewrite Hm; eauto).
      rewrite H2. simpl. eexists. split; [done|]. split.
      * intros s k. destruct (assign_lookup _ _ _ _ _ s k H2) as [Ha _].
        change (lookup_data s k (mark_applied op kv2)) with (lookup_data s k kv2).
        by rewrite Ha, <- Hk1.
      * simpl. destruct (assign_lookup _ _ _ _ _ 0 "" H2) as [_ ->]. by rewrite Hl1.
    + rewrite Ha. simpl. destruct (ensure_shard_map _ _ Hn) as [m Hm].
      set (v := (lookup_data (Shard op) (Key op) (ensure_shard (Shard op) kv) +:+ Value op)%string).
      assert (is_Some (assign (Shard op) (Key op) v (ensure_shard (Shard op) kv))) as [kv2 H2]
        by (unfold assign; rewrite Hm; eauto).
      rewrite H2. simpl. eexists. split; [done|]. split.
      * intros s k. destruct (assign_lookup _ _ _ _ _ s k H2) as [Hv _].
        change (lookup_data s k (mark_applied op kv2)) with (lookup_data s k kv2).
        rewrite Hv. unfold v. rewrite !ensure_shard_lookup. done.
      * simpl. destruct (assign_lookup _ _ _ _ _ 0 "" H2) as [_ ->]. by rewrite ensure_shard_applied.
  - intros -> Hn. simpl. unfold assign. rewrite Hes, Hn. done.
  - intros ->. simpl. eexists. split; [done|]. simpl. split_and!.
    + apply lookup_insert_eq.
    + intros s Hs. rewrite lookup_insert_ne by done. unfold ensure_shard.
      destruct (data kv !! Shard op); simpl; [done|by rewrite lookup_insert_ne].
    + apply ensure_shard_applied.
Qed.

(** The gate is found open at one of the handler's looks. *)
Definition gate_open (polls : list (list Other)) (w w' : World) : Prop :=
  ∃ k, others_do (concat (take k polls)) w = Some w' ∧ kv_state (fst w') = STABLE.

(** It is found closed at each of them. *)
Definition gate_shut (polls : list (list Other)) (w : World) : Prop :=
  ∀ j w', (0 < j ≤ length polls)%nat → others_do (concat (take j polls)) w = Some w' →
    kv_state (fst w') ≠ STABLE.

(** The server after the ownership check, with the group it found the owner. *)
Definition owner_found op (run : ServeRun) (w w' : World) (g : Z) : Prop :=
  ∃ w1 c, gate_open (sr_polls run) w w1 ∧ others_do (sr_check run) w1 = Some w'
  ∧ config (fst w') = Some c ∧ (Shards c).[Shard op] = Some g.

(** What a request may come to, when the others do [run] and [w] is the server on its
    arrival. *)
Inductive Served op (argGid : Z) (run : ServeRun) (w : World) : World → Handled NotifyMsg → Prop :=
  | Served_not_leader :
      state (snd w) ≠ LEADER →
      Served op argGid run w w (Replied (MkNotifyMsg ErrWrongLeader ""))
  | Served_polling w' :
      state (snd w) = LEADER → gate_shut (sr_polls run) w →
      others_do (concat (sr_polls run)) w = Some w' →
      Served op argGid run w w' Polling
  | Served_other_group w' :
      state (snd w) = LEADER → gate_open (sr_polls run) w w' → argGid ≠ gid (fst w) →
      Served op argGid run w w' (Replied (MkNotifyMsg ErrWrongGroup ""))
  | Served_not_owner w' g :
      state (snd w) = LEADER → owner_found op run w w' g → argGid = gid (fst w) → g ≠ gid (fst w) →
      Served op argGid run w w' (Replied (MkNotifyMsg ErrWrongGroup ""))
  | Served_deposed w2 w' :
      state (snd w) = LEADER → owner_found op run w w2 (gid (fst w)) → argGid = gid (fst w) →
      others_do (sr_start run) w2 = Some w' → state (snd w') ≠ LEADER →
      Served op argGid run w w' (Replied (MkNotifyMsg ErrWrongLeader ""))
  | Served_logged w2 w3 rf1 w' res :
      state (snd w) = LEADER → owner_found op run w w2 (gid (fst w)) → argGid = gid (fst w) →
      others_do (sr_start run) w2 = Some w3 → state (snd w3) = LEADER →
      log rf1 = log (snd w3) ++ [MkLog (ICmd (COp op)) (currentTerm (snd w3))] →
      others_do (waitForRaft_events op (sr_wait run)) (fst w3, rf1) = Some w' →
      notifyData (fst w') !! RequestId op = None →
      waited op (sr_wait run) (fst w3, rf1) res →
      (Forall keeps_config (sr_start run) → config (fst w3) = config (fst w2)) →
      Served op argGid run w w' (Replied res).

(** C39. Only the owner of a shard logs its operations. For any behaviour of the other
    goroutines between the handler's critical sections, and when none of them panics: a
    peer that is not the leader when the request arrives answers [ErrWrongLeader] at once;
    a handler that finds the gate shut at every look is still polling; if the request
    names another group, or the configuration at the ownership check gives the shard to
    another group, the answer is [ErrWrongGroup], and if the peer no longer leads when it
    calls [Start], [ErrWrongLeader]; in all these cases the server changes only by what
    the others did. Otherwise the peer led on arrival and at [Start], the gate was found
    open, the configuration at the check gives the shard to this group (it is still the
    server's at [Start] if no configuration was applied in between), the operation is
    appended to the peer's log, the channel is gone at the end, and the answer is
    [ErrTimeOut], or [OK] with the key's value at the moment the operation of this id was
    applied. With no message applied meanwhile, a server that has a configuration with the
    shard always comes to one of these. *)
Theorem serve_ownership op argGid run w :
  (∀ w' r, serve op argGid run w = Some (w', r) → Served op argGid run w w' r)
  ∧ (raft_wf (snd w) → (∃ c, config (fst w) = Some c ∧ is_Some ((Shards c).[Shard op])) →
     Forall calm (serve_events run) → ∃ w' r, serve op argGid run w = Some (w', r)).
Proof.
  split.
  2: { intros Hw (c & Hc & Hsh) Hcalm.
       destruct (serve_total op argGid run w Hw) as [[w' r] ->]; [|by eexists|done|by eexists _, _].
       intros c' Hc'. rewrite Hc in Hc'. by injection Hc' as <-. }
  intros w' r. unfold serve, GetState. case_bool_decide as Hs; simpl.
  2: { intros [= <- <-]. by constructor. }
  destruct (wait_stable (sr_polls run) w) as [[w1 st]|] eqn:Hst; simpl; [|done].
  apply wait_stable_spec in Hst as (k & Hk & Hst). destruct st; simpl.
  2: { intros [= <- <-]. destruct Hst as [Ht Hall]. rewrite Ht in Hk. by constructor. }
  assert (gate_open (sr_polls run) w w1) as Hgate by (by exists k).
  destruct (others_do_frame _ _ _ Hk) as (_ & Hg1 & _).
  destruct (Z.eqb_spec argGid (gid (fst w1))) as [Hg|Hg]; simpl.
  2: { intros [= <- <-]. constructor; [done..|congruence]. }
  destruct (others_do (sr_check run) w1) as [w2|] eqn:Hck; simpl; [|done].
  destruct (others_do_frame _ _ _ Hck) as (_ & Hg2 & _). unfold checkAndMigrateShard.
  destruct (config (fst w2)) as [c|] eqn:Hc; simpl; [|done].
  destruct ((Shards c).[Shard op]) as [g|] eqn:Hsh; simpl; [|done].
  assert (owner_found op run w w2 g) as Hown by (by exists w1, c).
  destruct (Z.eqb_spec g (gid (fst w2))) as [Hgg|Hgg]; simpl.
  2: { intros [= <- <-]. apply (Served_not_owner _ _ _ _ _ g); congruence || done. }
  assert (g = gid (fst w)) as -> by congruence.
  destruct (others_do (sr_start run) w2) as [w3|] eqn:Hst3; simpl; [|done].
  destruct (others_do_frame _ _ _ Hst3) as (_ & _ & Hc3).
  destruct (waitForRaft op (sr_wait run) w3) as [[w4 res]|] eqn:Hw; simpl; [|done]. intros [= <- <-].
  apply waitForRaft_spec in Hw as [(? & -> & ->)|(? & rf1 & Hlog & Hd & Hres)].
  - eapply Served_deposed; eauto. congruence.
  - eapply Served_logged; eauto using waitForRaft_removes. congruence.
Qed.

(** Configurations never go back: applying any sequence of configurations in which no
    snapshot is due leaves the newest of those applied and the one held before, and
    never touches the data. *)
Theorem applyConfig_newest cfgs index kv kv' rf c :
  config kv = Some c → maxraftstate kv = -1 →
  foldl (λ o cfg, '(kv, rf) ← o; applyConfig index cfg kv rf) (Some (kv, rf)) cfgs = Some (kv', rf) →
  ∃ c', config kv' = Some c' ∧ c' ∈ c :: cfgs ∧ (∀ d, d ∈ c :: cfgs → Num d ≤ Num c')
  ∧ data kv' = data kv.
Proof.
  intros Hc Hmax. revert kv' . induction cfgs as [|cfg cfgs IH] using rev_ind; intros kv'.
  { intros [= <-]. exists c. split_and!; [done|set_solver| |done]. intros d ->%list_elem_of_singleton. lia. }
  rewrite foldl_app. simpl.
  assert (∃ kv1, foldl (λ o cfg, '(kv, rf) ← o; applyConfig index cfg kv rf) (Some (kv, rf)) cfgs
    = Some (kv1, rf) ∧ maxraftstate kv1 = -1) as (kv1 & Hf & Hmax1).
  { clear IH. induction cfgs as [|d cfgs IH] using rev_ind; [by exists kv|].
    destruct IH as (kv1 & Hf & Hm1). rewrite foldl_app, Hf. simpl. unfold applyConfig, saveSnapshot.
    rewrite Hm1. simpl. destruct (config kv1); [destruct (_ <=? _)|]; simpl; eexists; split; done. }
  rewrite Hf. simpl. destruct (IH kv1 Hf) as (c1 & Hc1 & Hin & Hle & Hd).
  unfold applyConfig. rewrite Hc1. unfold saveSnapshot. rewrite Hmax1. simpl.
  destruct (Z.leb_spec (Num cfg) (Num c1)) as [Hn|Hn]; simpl; intros [= <-].
  - exists c1. split_and!; [done|set_solver| |done]. intros d Hd'.
    rewrite app_comm_cons, elem_of_app, list_elem_of_singleton in Hd'.
    destruct Hd' as [?| ->]; [by apply Hle|done].
  - exists cfg. split_and!; [done|set_solver| |done]. intros d Hd'.
    rewrite app_comm_cons, elem_of_app, list_elem_of_singleton in Hd'.
    destruct Hd' as [Hd'| ->]; [|lia]. specialize (Hle d Hd'). lia.
Qed.

(** C40. A restart restores the data but not the configuration: a server made from a
    persister whose snapshot was saved from [kv] has [kv]'s shards and duplicate filter,
    yet no configuration, although the snapshot contains one, so the handlers' ownership
    check dereferences nil until the log delivers a configuration again. *)
Theorem restart_forgets_config index kv rf rf' c n me max g kv1 rf1 shard :
  config kv = Some c → maxraftstate kv ≠ -1 → maxraftstate kv ≤ RaftStateSize (persister rf) →
  lastSnapshotIndex rf ≤ index → saveSnapshot index kv rf = Some rf' →
  StartServer n me (persister rf') max g = Some (kv1, rf1) →
  data kv1 = data kv ∧ kv_lastApplied kv1 = kv_lastApplied kv ∧ lastSnapshotIndex rf1 = index
  ∧ config kv1 = None ∧ checkAndMigrateShard shard kv1 = None.
Proof.
  intros Hc Hmax Hsz Hidx Hsave Hstart. unfold saveSnapshot in Hsave.
  destruct (Z.eqb_spec (maxraftstate kv) (-1)); [done|].
  destruct (Z.ltb_spec (RaftStateSize (persister rf)) (maxraftstate kv)); [lia|]. simpl in Hsave.
  unfold encode_snapshot in Hsave. rewrite Hc in Hsave. simpl in Hsave.
  set (bs := gob_encode _) in *. destruct (snapshot_saved index _ rf rf' Hidx Hsave) as [Hp Hi].
  unfold StartServer in Hstart.
  destruct (Make n me (persister rf')) as [rf2|] eqn:Hm; cbn [mbind option_bind] in Hstart; [|done].
  apply Make_persisted with (rf := rf') in Hm as (Hp2 & _ & Hi2); [|by rewrite Hp].
  rewrite Hp2 in Hstart. unfold Persister_ReadSnapshot in Hstart. rewrite Hp in Hstart.
  cbn [snapshot] in Hstart.
  unfold ReadSnapshot in Hstart.
  pose proof (gob_encode_reads [SData (data kv); SApplied (kv_lastApplied kv); SConfig c]) as Hr.
  fold bs in Hr. simpl in Hr. destruct Hr as (d1 & H1' & d2 & H2' & d3 & H3' & _).
  rewrite H1', H2', H3' in Hstart. simpl in Hstart. injection Hstart as <- <-.
  split_and!; (done || congruence).
Qed.

(** Every key has a shard of the array, determined by its first character. *)
Theorem key2shard_bounds key key' :
  0 ≤ key2shard key < NShards
  ∧ (String.get 0 key = String.get 0 key' → key2shard key = key2shard key').
Proof.
  unfold key2shard. split.
  - apply Z.rem_bound_pos; [|done]. destruct key; lia.
  - destruct key, key'; simpl; intros ?; simplify_eq; done.
Qed.

End server.

(** ** Executions on concrete servers *)
Module ShardDemo.
Export ZeroRand CountableCodec.
Definition no_raft : Raft Cmd :=
  MkRaft 0 MakePersister 0 true FOLLOWER 0 (-1) [] 0 0 [] [] 0 [] 0 true [] 0 0 0 0.
Definition rf0 : Raft Cmd := default no_raft (Make 3 0 MakePersister)
  <| state := LEADER |> <| nextIndex := [1; 1; 1] |> <| matchIndex := [0; 0; 0] |>.
Lemma leader_wf : raft_wf rf0.
Proof. by split; vm_compute. Qed.
(** A leader with one entry to compact. *)
Definition rf1 : Raft Cmd :=
  rf0 <| log := [MkLog (IString "") 0; MkLog INil 1] |>.
Definition groups (l : list Z) : gmap Z (list string) := list_to_map ((λ g, (g, ["srv"])) <$> l).
Definition c1 : Config := MkConfig 1 [1;1;1;1;1;1;1;1;1;1] (groups [1]).
Definition c2 : Config := MkConfig 2 [2;1;1;1;1;1;1;1;1;1] (groups [1; 2]).
Definition c3 : Config := MkConfig 3 [3;1;1;1;1;1;1;1;1;1] (groups [1; 3]).
Definition kv1 : ShardKV :=
  MkShardKV 0 1 (-1) (Some c1) {[0 := Some {["k"%string := "v"%string]}]} ∅ ∅ [] STABLE.
Definition kv2 : ShardKV := kv1 <| config := Some c2 |>.
Definition put : Op := MkOp "Put" 1 "a" "b" 7 5 2 None.
Definition put0 : Op := MkOp "Put" 0 "a" "b" 7 5 2 None.
(** The apply loop takes a command, with nothing to compact. *)
Definition applies (c : Cmd) : Other := OApplies (MkApplyMsg true (ICmd c) 1).
(** The gate opens while the handler polls. *)
Definition run1 : ServeRun := MkServeRun [[OGate TRANSITION]; [OGate STABLE]] [] [] (MkWaitRun [] []).
(** A configuration is applied before, or after, the ownership check. *)
Definition run_before : ServeRun := MkServeRun [[]] [applies (CConfig c2)] [] (MkWaitRun [] [applies (COp put0)]).
Definition run_after : ServeRun := MkServeRun [[]] [] [applies (CConfig c2)] (MkWaitRun [] [applies (COp put0)]).
(** The peer is deposed while the handler polls. *)
Definition run_deposed : ServeRun :=
  MkServeRun [[ORaft (rf0 <| state := FOLLOWER |>)]] [] [] (MkWaitRun [] []).
End ShardDemo.

Section witnesses.
Import ShardDemo.

Lemma apply_effect_spec_witness :
  ∃ kv', apply_effect put kv1 = Some kv' ∧ lookup_data 1 "a" kv' = "b"%string.
Proof.
  destruct (apply_effect_spec put kv1) as [_ Hp]. destruct Hp as [Hp _]; [done|].
  destruct Hp as (kv' & Hp & Hl & _); [by left|].
  exists kv'. split; [exact Hp|]. by rewrite Hl.
Defined.

Lemma serve_ownership_witness :
  ∃ w' r, serve put 1 run1 (kv1, rf0) = Some (w', r) ∧ Served put 1 run1 (kv1, rf0) w' r
  ∧ r = Replied (MkNotifyMsg ErrTimeOut "").
Proof.
  destruct (serve_ownership put 1 run1 (kv1, rf0)) as [Hs Hret].
  destruct Hret as (w' & r & Hsv).
  - exact leader_wf.
  - exists c1. split; [reflexivity|vm_compute; eauto].
  - repeat constructor.
  - exists w', r. split; [exact Hsv|]. split; [exact (Hs w' r Hsv)|].
    assert (snd <$> serve put 1 run1 (kv1, rf0) = Some (Replied (MkNotifyMsg ErrTimeOut ""))) as Hr
      by (vm_compute; reflexivity).
    rewrite Hsv in Hr. by injection Hr.
Defined.

(** The configuration that counts is the one at the ownership check: applied before it, it
    has the request refused; applied between it and [Start], the group logs, applies and
    acknowledges a write to a shard that is no longer its own. *)
Lemma stale_check_logs :
  (snd <$> serve put0 1 run_before (kv1, rf0)) = Some (Replied (MkNotifyMsg ErrWrongGroup ""))
  ∧ ((λ '(w, r), (r, checkAndMigrateShard 0 (fst w), lookup_data 0 "a" (fst w), len (log (snd w))))
       <$> serve put0 1 run_after (kv1, rf0))
    = Some (Replied (MkNotifyMsg OK "b"), Some false, "b"%string, 2).
Proof. split; vm_compute; reflexivity. Qed.

(** A leader deposed while the handler polls answers [ErrWrongLeader] and logs nothing. *)
Lemma deposed_while_polling :
  ((λ '(w, r), (r, log (snd w))) <$> serve put 1 run_deposed (kv1, rf0))
  = Some (Replied (MkNotifyMsg ErrWrongLeader ""), log rf0).
Proof. vm_compute; reflexivity. Qed.

(** An operation applied between [Start] and the registration of the channel is not
    notified: the request times out although it was executed. *)
Lemma applied_before_registration :
  ((λ '(w, r), (r, lookup_data 1 "a" (fst w)))
     <$> serve put 1 (MkServeRun [[]] [] [] (MkWaitRun [applies (COp put)] [])) (kv1, rf0))
  = Some (Replied (MkNotifyMsg ErrTimeOut ""), "b"%string).
Proof. vm_compute; reflexivity. Qed.

Lemma applyConfig_newest_witness :
  ∃ kv', foldl (λ o cfg, '(kv, rf) ← o; applyConfig 0 cfg kv rf) (Some (kv1, rf0)) [c3; c2] = Some (kv', rf0)
  ∧ data kv' = data kv1.
Proof.
  exists (kv1 <| config := Some c3 |>).
  assert (foldl (λ o cfg, '(kv, rf) ← o; applyConfig 0 cfg kv rf) (Some (kv1, rf0)) [c3; c2]
    = Some (kv1 <| config := Some c3 |>, rf0)) as Hf by (vm_compute; reflexivity).
  split; [exact Hf|].
  destruct (applyConfig_newest [c3; c2] 0 kv1 _ rf0 c1 eq_refl eq_refl Hf) as (c' & _ & _ & _ & Hd).
  exact Hd.
Defined.

Lemma restart_forgets_config_witness :
  ∃ kv' rf'', data kv' = ∅ ∧ config kv' = None ∧ lastSnapshotIndex (C := Cmd) rf'' = 1.
Proof.
  pose (kv := MkShardKV 0 1 0 (Some (MkConfig 1 [] ∅)) ∅ ∅ ∅ [] STABLE).
  assert (is_Some (saveSnapshot 1 kv rf1)) as [rf' Hs] by (vm_compute; eauto).
  assert (∃ p, StartServer 3 0 (persister rf') 100 1 = Some p) as [[kv' rf''] Hst].
  { assert (rf' = default no_raft (saveSnapshot 1 kv rf1)) as -> by (by rewrite Hs).
    eexists. vm_compute. reflexivity. }
  exists kv', rf''.
  destruct (restart_forgets_config 1 kv rf1 rf' (MkConfig 1 [] ∅) 3 0 100 1 kv' rf'' 0) as (Hd & _ & Hi & Hc & _);
    try done; by vm_compute.
Defined.

Lemma key2shard_bounds_witness : 0 ≤ key2shard "apple" < NShards.
Proof. apply (key2shard_bounds "apple" "avocado"). Defined.

End witnesses.
