(* ===== verification/ShardMigrate.v ===== *)
(** * The sharded key/value server: handing a shard over

    [migrationToPeer] of [shardkv/migration.go] and [FindConfig] of [shardkv/server.go].

    The loop over attempts releases [kv.mu] between reading the shard and removing it, so
    what the server's other goroutines do in between is part of the model ([Other] of
    [ShardKv]). The request refers to the server's own map of the shard until it is
    encoded, at each call: [MapRef] follows that map. *)
From S2P Require Import Prelude RaftState RaftSnapshot ShardConfig ShardKv.

(** What one pass over a group's servers came to. *)
Inductive PeerPass := PeerDone | PeerRetry | PeerWaiting.

(** One call: what the others do before it is encoded, its outcome ([None]: the RPC
    failed), and what they do from there to the next section of the loop. *)
Record PeerCall := MkPeerCall {
  pc_before : list Other; pc_reply : option string; pc_after : list Other
}.

(** One attempt: what the others do before it takes the lock, the message id it draws, and
    its calls. *)
Record Attempt := MkAttempt { at_before : list Other; at_msgId : Z; at_calls : list PeerCall }.

(** The map [args.Data] refers to, and whether the server's [data] still holds it. *)
Record MapRef := MkMapRef { ref_map : option KvMap; ref_bound : bool }.

(** One firing of the configuration timer: the attempts for each shard, and what the
    others do before [FindConfig] closes the gate, reads the shards, opens the gate and
    calls [Start]. *)
Record FcRun := MkFcRun {
  fc_gate : list Other; fc_shards : list Other; fc_attempts : Z → list Attempt;
  fc_stable : list Other; fc_start : list Other
}.

Section migration.
Context `{GoRand, GobCodec (RaftVal Cmd), GobCodec ShardVal}.
Implicit Types (kv : ShardKV) (rf : Raft Cmd) (op : Op) (w : World).

(** [kv.data[shard]]: a nil map is not shared with anything. *)
Definition data_ref (shard : Z) kv : MapRef :=
  match data kv !! shard with
  | Some (Some m) => MkMapRef (Some m) true
  | _ => MkMapRef None false
  end.

(** The event puts another map, or none, in the place of a shard's map: a hand-over to
    this server, the reading of a snapshot, or a removal. *)
Definition rebinds (shard : Z) (o : Other) w : bool :=
  match o with
  | OApplies msg =>
      if CommandValid msg then
        match msg_Command msg with
        | ICmd (COp op) =>
            bool_decide (Method op = "Migration"%string) && (Shard op =? shard)
            && negb (CheckApplied (MsgId op) (ClientId op) (fst w))
        | _ => false
        end
      else bool_decide (is_Some (Persister_ReadSnapshot (persister (snd w))))
  | ORemoves s => s =? shard
  | _ => false
  end.

(** The map referred to changes with the server's as long as it is the server's. *)
Definition watch (shard : Z) '((w, ref) : World * MapRef) (o : Other) : option (World * MapRef) :=
  w' ← other_do w o;
  Some (w', if negb (ref_bound ref) then ref
            else if rebinds shard o w then MkMapRef (ref_map ref) false
            else data_ref shard (fst w')).

Definition watches (shard : Z) (evs : list Other) (s : World * MapRef) : option (World * MapRef) :=
  foldM (watch shard) s evs.

(** The arguments of a call: [args.Data] as it is when the call encodes it. *)
Definition migration_args (shard newGid msgId : Z) (ref : MapRef) kv : MigrationArgs :=
  MkMigrationArgs shard (ref_map ref) newGid msgId (kv_me kv).

(** One pass over the servers of the new group: the requests sent, with their servers. *)
Fixpoint try_peers (shard newGid msgId : Z) (servers : list string) (calls : list PeerCall)
    (s : World * MapRef) : option (World * list (string * MigrationArgs) * PeerPass) :=
  match servers, calls with
  | [], _ => Some (fst s, [], PeerRetry)
  | _ :: _, [] => Some (fst s, [], PeerWaiting)
  | srv :: servers, c :: calls =>
      s ← watches shard (pc_before c) s;
      let sent := (srv, migration_args shard newGid msgId (snd s) (fst (fst s))) in
      s ← watches shard (pc_after c) s;
      match pc_reply c with
      | Some err =>
          if bool_decide (err = OK) then Some (fst s, [sent], PeerDone)
          else if bool_decide (err = ErrWrongLeader) then
            '(w, more, pass) ← try_peers shard newGid msgId servers calls s;
            Some (w, sent :: more, pass)
          else Some (fst s, [sent], PeerRetry)
      | None =>
          '(w, more, pass) ← try_peers shard newGid msgId servers calls s;
          Some (w, sent :: more, pass)
      end
  end.

(** The loop over attempts: the requests sent and whether the migration finished. *)
Fixpoint migrate_loop (shard newGid : Z) (newConfig : Config) (attempts : list Attempt) w :
    option (World * list (string * MigrationArgs) * bool) :=
  match attempts with
  | [] => Some (w, [], false)
  | a :: attempts =>
      w ← others_do (at_before a) w;
      let ref := data_ref shard (fst w) in
      match Groups newConfig !! newGid with
      | Some servers =>
          '(w, sent, pass) ← try_peers shard newGid (at_msgId a) servers (at_calls a) (w, ref);
          match pass with
          | PeerDone => Some ((removeShardData shard (fst w), snd w), sent, true)
          | PeerWaiting => Some (w, sent, false)
          | PeerRetry =>
              '(w, more, fin) ← migrate_loop shard newGid newConfig attempts w;
              Some (w, sent ++ more, fin)
          end
      | None => migrate_loop shard newGid newConfig attempts w
      end
  end.

Definition migrationToPeer (shard : Z) (newConfig : Config) (attempts : list Attempt) w :
    option (World * list (string * MigrationArgs) * bool) :=
  newGid ← (Shards newConfig).[shard];
  migrate_loop shard newGid newConfig attempts w.

(** The shards of this group in its configuration. *)
Definition lastConfigShards (c : Config) kv : list Z :=
  filter (λ i, (Shards c).[i] = Some (gid kv)) (seqZ 0 NShard).

(** [range lastConfigShards]: the shards in the order visited. *)
Fixpoint migrate_all (newConfig : Config) (env : Z → list Attempt) (shards : list Z) w :
    option (World * list (string * MigrationArgs) * bool) :=
  match shards with
  | [] => Some (w, [], true)
  | shard :: shards =>
      newGid ← (Shards newConfig).[shard];
      if newGid =? gid (fst w) then migrate_all newConfig env shards w
      else
        '(w, sent, fin) ← migrationToPeer shard newConfig (env shard) w;
        if (fin : bool) then
          '(w, more, fin) ← migrate_all newConfig env shards w; Some (w, sent ++ more, fin)
        else Some (w, sent, false)
  end.

(** Whether [FindConfig] migrates: only if the number of groups changed. *)
Definition should_migrate (curConfig : Config) kv : bool :=
  match config kv with
  | Some c =>
      negb (map_len (Groups c) =? 0) && negb (map_len (Groups curConfig) =? 0)
      && negb (map_len (Groups curConfig) =? map_len (Groups c))
  | None => false
  end.

(** One firing of the configuration timer, when the shard master answers [curConfig] after
    the others did [query]; the boolean is whether the round finished. The old
    configuration is read without the lock, and here at once. *)
Definition FindConfig (order : MapOrder) (query : list Other) (curConfig : Config) (run : FcRun) w :
    option (World * list (string * MigrationArgs) * bool) :=
  let '(_, isLeader) := GetState (snd w) in
  if negb isLeader then Some (w, [], true)
  else
    w ← others_do query w;
    '(w, sent, fin) ← (
      if should_migrate curConfig (fst w) then
        '(kv, rf) ← others_do (fc_gate run) w;
        w ← others_do (fc_shards run) (kv <| kv_state := TRANSITION |>, rf);
        c ← config (fst w);
        '(w, sent, fin) ←
          migrate_all curConfig (fc_attempts run) (order 0%nat (lastConfigShards c (fst w))) w;
        if (fin : bool) then
          '(kv, rf) ← others_do (fc_stable run) w; Some ((kv <| kv_state := STABLE |>, rf), sent, true)
        else Some (w, sent, false)
      else Some (w, [], true));
    if (fin : bool) then
      '(kv, rf) ← others_do (fc_start run) w;
      '(rf, _) ← Start (CConfig (Config_Copy curConfig)) rf; Some ((kv, rf), sent, true)
    else Some (w, sent, false).

(** ** Lemmas *)

(** The map of a shard, nil if there is none. *)
Definition shard_map (shard : Z) kv : option KvMap := mjoin (data kv !! shard).

(** The event leaves a shard's map in place, changed or not. *)
Definition keeps_map (shard : Z) (o : Other) : Prop :=
  match o with
  | OApplies msg => CommandValid msg = true
      ∧ match msg_Command msg with
        | ICmd (COp op) => Method op ≠ "Migration"%string ∨ Shard op ≠ shard
        | _ => True
        end
  | ORemoves s => s ≠ shard
  | _ => True
  end.

(** It has nothing to do with the shard. *)
Definition quiet (shard : Z) (o : Other) : Prop :=
  match o with
  | OApplies msg => CommandValid msg = true
      ∧ match msg_Command msg with ICmd (COp op) => Shard op ≠ shard | _ => True end
  | ORemoves s => s ≠ shard
  | _ => True
  end.

Definition call_events (c : PeerCall) : list Other := pc_before c ++ pc_after c.

Lemma lookup_data_map shard k kv :
  lookup_data shard k kv = match shard_map shard kv with Some m => default ""%string (m !! k) | None => ""%string end.
Proof. unfold lookup_data, shard_map. by destruct (data kv !! shard) as [[m|]|]. Qed.

Lemma data_ref_map shard kv : ref_map (data_ref shard kv) = shard_map shard kv.
Proof. unfold data_ref, shard_map. by destruct (data kv !! shard) as [[m|]|]. Qed.

(** An operation keeps the map of its shard, if there is one, and the other shards. *)
Lemma apply_effect_map op kv kv' m :
  apply_effect op kv = Some kv' → Method op ≠ "Migration"%string → shard_map (Shard op) kv = Some m →
  is_Some (shard_map (Shard op) kv').
Proof.
  unfold shard_map. intros Ha Hm Hd. destruct (data kv !! Shard op) as [[m0|]|] eqn:Hs; [|done..]. revert Ha.
  unfold apply_effect, ensure_shard, assign, mark_applied. rewrite Hs, Hs, bool_decide_eq_false_2 by done.
  rewrite !andb_false_r. repeat case_match; intros ?; simplify_option_eq; rewrite ?lookup_insert_eq, ?Hs; done.
Qed.

(** What one event does to the data. *)
Lemma other_do_data o w w' shard :
  other_do w o = Some w' → keeps_map shard o →
  data (fst w') !! shard = data (fst w) !! shard
  ∨ ∃ msg op kv, o = OApplies msg ∧ msg_Command msg = ICmd (COp op) ∧ Shard op = shard
    ∧ Method op ≠ "Migration"%string ∧ apply_effect op (fst w) = Some kv
    ∧ data (fst w') !! shard = data kv !! shard.
Proof.
  destruct w as [kv rf]. unfold other_do. destruct o as [msg|id|id|g|s|rf']; simpl;
    try (by intros [= <-]; left).
  2: { intros [= <-] Hs. left. simpl. by rewrite lookup_delete_ne. }
  intros Hd [Hv Hop]. unfold WaitApplyCh_msg in Hd. rewrite Hv in Hd. simpl in Hd.
  destruct (msg_Command msg) as [| |[op|c]] eqn:Hc; [by simplify_option_eq; left..| |].
  - unfold applyOp in Hd. destruct (apply_effect op kv) as [kv1|] eqn:Ha; simpl in Hd; [|done].
    destruct (saveSnapshot _ kv1 rf); simpl in Hd; [|done]. injection Hd as <-. simpl.
    destruct (decide (Shard op = shard)) as [Hs|Hs]; [right; exists msg, op, kv1; naive_solver|].
    left. apply apply_effect_frame in Ha as (_ & _ & _ & _ & Ha). by apply Ha.
  - left. unfold applyConfig in Hd. repeat case_match; simplify_option_eq; done.
Qed.

Lemma quiet_keeps shard o : quiet shard o → keeps_map shard o.
Proof.
  destruct o as [msg| | | | |]; simpl; try done. intros [? Hm]. split; [done|]. repeat case_match; auto.
Qed.

Lemma quiet_data shard o w w' :
  other_do w o = Some w' → quiet shard o → data (fst w') !! shard = data (fst w) !! shard.
Proof.
  intros Hd Hq. destruct (other_do_data o w w' shard Hd (quiet_keeps _ _ Hq)) as [?|(msg & op & kv & -> & Hc & Hs & _)];
    [done|]. simpl in Hq. rewrite Hc in Hq. by destruct Hq.
Qed.

Lemma quiet_all shard evs w w' :
  others_do evs w = Some w' → Forall (quiet shard) evs → shard_map shard (fst w') = shard_map shard (fst w).
Proof.
  revert w. induction evs as [|o evs IH]; intros w; [by intros [= <-]|]. rewrite others_do_cons.
  destruct (other_do w o) as [w1|] eqn:Ho; simpl; [|done]. intros Hd [Hq Hqs]%Forall_cons.
  rewrite (IH w1 Hd Hqs). unfold shard_map. by rewrite (quiet_data shard o w w1).
Qed.

Lemma keeps_not_rebinds shard o w : keeps_map shard o → rebinds shard o w = false.
Proof.
  destruct o as [msg| | | |s|]; simpl; try done.
  - intros [-> Hop]. destruct (msg_Command msg) as [| |[op|]]; [done..| |done].
    destruct Hop as [?|?]; [by rewrite bool_decide_eq_false_2|]. rewrite (proj2 (Z.eqb_neq _ _)) by done.
    by rewrite andb_false_r.
  - by apply Z.eqb_neq.
Qed.

Lemma watches_others shard evs w ref w' ref' :
  watches shard evs (w, ref) = Some (w', ref') → others_do evs w = Some w'.
Proof.
  revert w ref. induction evs as [|o evs IH]; intros w ref; [by intros [= <- _]|].
  unfold watches. rewrite foldM_cons, others_do_cons. simpl. destruct (other_do w o); simpl; [|done]. apply IH.
Qed.

Lemma watches_app shard evs evs' s : watches shard (evs ++ evs') s = (s ← watches shard evs s; watches shard evs' s).
Proof. apply foldM_app. Qed.

(** While the map stays in place, the request follows what is written to it. *)
Lemma watches_keeps shard evs w m w' ref' :
  shard_map shard (fst w) = Some m → watches shard evs (w, data_ref shard (fst w)) = Some (w', ref') →
  Forall (keeps_map shard) evs → ref' = data_ref shard (fst w').
Proof.
  revert w m. induction evs as [|o evs IH]; intros w m Hm; [by intros [= <- <-]|].
  unfold watches. rewrite foldM_cons. simpl. destruct (other_do w o) as [w1|] eqn:Ho; simpl; [|done].
  assert (ref_bound (data_ref shard (fst w)) = true) as ->.
  { unfold data_ref, shard_map in *. by destruct (data (fst w) !! shard) as [[?|]|]. }
  intros Hw [Hk Hks]%Forall_cons. rewrite (keeps_not_rebinds _ _ _ Hk) in Hw. simpl in Hw.
  assert (is_Some (shard_map shard (fst w1))) as [m1 Hm1].
  { destruct (other_do_data _ _ _ _ Ho Hk) as [He|(msg & op & kv & _ & _ & Hs & Hme & Ha & He)].
    - unfold shard_map in *. rewrite He. by exists m.
    - unfold shard_map in *. rewrite He. subst shard. by eapply apply_effect_map. }
  by eapply IH.
Qed.

(** While nothing touches the shard, the request is the shard's map. *)
Lemma watches_quiet shard evs w ref w' ref' :
  ref_map ref = shard_map shard (fst w) → watches shard evs (w, ref) = Some (w', ref') →
  Forall (quiet shard) evs → ref_map ref' = shard_map shard (fst w').
Proof.
  revert w ref. induction evs as [|o evs IH]; intros w ref Hr; [by intros [= <- <-]|].
  unfold watches. rewrite foldM_cons. simpl. destruct (other_do w o) as [w1|] eqn:Ho; simpl; [|done].
  intros Hw [Hk Hks]%Forall_cons. eapply IH; [|exact Hw|done].
  rewrite (keeps_not_rebinds _ _ _ (quiet_keeps _ _ Hk)).
  destruct (ref_bound ref); simpl; [apply data_ref_map|]. rewrite Hr. unfold shard_map.
  by rewrite (quiet_data shard o w w1).
Qed.

Lemma last_cons_ne {A} (x : A) l : l ≠ [] → list.last (x :: l) = list.last l.
Proof. by destruct l. Qed.

(** A pass that is done: the calls before the one that succeeded failed or met a peer that
    does not lead. *)
Lemma try_peers_done shard newGid msgId servers calls w ref w' sent :
  try_peers shard newGid msgId servers calls (w, ref) = Some (w', sent, PeerDone) →
  ∃ pre c post srv wE refE, calls = pre ++ c :: post
  ∧ Forall (λ c, pc_reply c = None ∨ pc_reply c = Some ErrWrongLeader) pre
  ∧ pc_reply c = Some OK ∧ servers !! length pre = Some srv
  ∧ watches shard (concat (call_events <$> pre) ++ pc_before c) (w, ref) = Some (wE, refE)
  ∧ others_do (pc_after c) wE = Some w'
  ∧ list.last sent = Some (srv, migration_args shard newGid msgId refE (fst wE)).
Proof.
  revert calls w ref sent. induction servers as [|srv servers IH]; intros [|c calls] w ref sent; simpl; [done..|].
  destruct (watches shard (pc_before c) (w, ref)) as [[w1 ref1]|] eqn:Hb; simpl; [|done].
  destruct (watches shard (pc_after c) (w1, ref1)) as [[w2 ref2]|] eqn:Ha; simpl; [|done].
  assert (∀ more, try_peers shard newGid msgId servers calls (w2, ref2) = Some (w', more, PeerDone) →
    (pc_reply c = None ∨ pc_reply c = Some ErrWrongLeader) →
    list.last ((srv, migration_args shard newGid msgId ref1 (fst w1)) :: more) = list.last more →
    ∃ pre c0 post srv0 wE refE, c :: calls = pre ++ c0 :: post
    ∧ Forall (λ c, pc_reply c = None ∨ pc_reply c = Some ErrWrongLeader) pre
    ∧ pc_reply c0 = Some OK ∧ (srv :: servers) !! length pre = Some srv0
    ∧ watches shard (concat (call_events <$> pre) ++ pc_before c0) (w, ref) = Some (wE, refE)
    ∧ others_do (pc_after c0) wE = Some w'
    ∧ list.last ((srv, migration_args shard newGid msgId ref1 (fst w1)) :: more)
      = Some (srv0, migration_args shard newGid msgId refE (fst wE))) as Hnext.
  { intros more Hm Hr Hl.
    destruct (IH _ _ _ _ Hm) as (pre & c0 & post & srv0 & wE & refE & -> & ? & ? & ? & Hw & ? & Hls).
    exists (c :: pre), c0, post, srv0, wE, refE. split_and!; [done|by constructor|done|done| |done|congruence].
    rewrite fmap_cons. cbn [concat]. unfold call_events at 1. rewrite <- !app_assoc, !watches_app, Hb. simpl.
    rewrite watches_app, Ha. simpl. done. }
  destruct (pc_reply c) as [err|] eqn:Hr.
  - case_bool_decide as Hok.
    + intros [= <- <-]. exists [], c, calls, srv, w1, ref1. subst err. split_and!; try done.
      by eapply watches_others.
    + case_bool_decide as Hwl; [|done]. subst err.
      destruct (try_peers shard newGid msgId servers calls (w2, ref2)) as [[[w3 more] pass]|] eqn:Ht; simpl; [|done].
      intros [= <- <- ->]. apply Hnext; [done|by right|]. apply last_cons_ne.
      destruct (IH _ _ _ _ Ht) as (? & ? & ? & ? & ? & ? & ? & ? & ? & ? & ? & ? & Hls).
      intros Hn. by rewrite Hn in Hls.
  - destruct (try_peers shard newGid msgId servers calls (w2, ref2)) as [[[w3 more] pass]|] eqn:Ht; simpl; [|done].
    intros [= <- <- ->]. apply Hnext; [done|by left|]. apply last_cons_ne.
    destruct (IH _ _ _ _ Ht) as (? & ? & ? & ? & ? & ? & ? & ? & ? & ? & ? & ? & Hls).
      intros Hn. by rewrite Hn in Hls.
Qed.

(** A pass runs some of the others' events, and sends requests for the shard. *)
Lemma try_peers_runs shard newGid msgId servers calls w ref w' sent pass :
  try_peers shard newGid msgId servers calls (w, ref) = Some (w', sent, pass) →
  (∃ evs, others_do evs w = Some w' ∧ ∀ P, Forall P (concat (call_events <$> calls)) → Forall P evs)
  ∧ Forall (λ p, fst p ∈ servers ∧ ma_Shard (snd p) = shard ∧ ma_NewGid (snd p) = newGid) sent.
Proof.
  revert calls w ref sent. induction servers as [|srv servers IH]; intros [|c calls] w ref sent; simpl;
    [by intros [= <- <- <-]; split; [exists []|]..|].
  destruct (watches shard (pc_before c) (w, ref)) as [[w1 ref1]|] eqn:Hb; simpl; [|done].
  destruct (watches shard (pc_after c) (w1, ref1)) as [[w2 ref2]|] eqn:Ha; simpl; [|done].
  apply watches_others in Hb, Ha.
  assert (others_do (call_events c) w = Some w2) as Hc by (unfold call_events; by rewrite others_do_app, Hb).
  assert (fst (srv, migration_args shard newGid msgId ref1 (fst w1)) ∈ srv :: servers
    ∧ ma_Shard (snd (srv, migration_args shard newGid msgId ref1 (fst w1))) = shard
    ∧ ma_NewGid (snd (srv, migration_args shard newGid msgId ref1 (fst w1))) = newGid) as Hhd
    by (split_and!; [set_solver|done..]).
  assert ((∃ evs, others_do evs w = Some w2
    ∧ ∀ P, Forall P (concat (call_events <$> c :: calls)) → Forall P evs)) as Hone.
  { exists (call_events c). split; [done|]. intros P. rewrite fmap_cons. cbn [concat]. by intros [? _]%Forall_app. }
  assert (∀ more, try_peers shard newGid msgId servers calls (w2, ref2) = Some (w', more, pass) →
    (∃ evs, others_do evs w = Some w' ∧ ∀ P, Forall P (concat (call_events <$> c :: calls)) → Forall P evs)
    ∧ Forall (λ p, fst p ∈ srv :: servers ∧ ma_Shard (snd p) = shard ∧ ma_NewGid (snd p) = newGid)
        ((srv, migration_args shard newGid msgId ref1 (fst w1)) :: more)) as Hnext.
  { intros more Ht. destruct (IH _ _ _ _ Ht) as [(evs & He & HP) Hs]. split.
    - exists (call_events c ++ evs). rewrite others_do_app, Hc. split; [done|]. intros P. rewrite fmap_cons.
      cbn [concat]. intros [? ?]%Forall_app. apply Forall_app. auto.
    - constructor; [done|]. eapply Forall_impl; [exact Hs|]. intros p (? & ? & ?). split_and!; [set_solver|done..]. }
  destruct (pc_reply c) as [err|].
  - case_bool_decide; [by intros [= <- <- <-]; split; [|by constructor]|].
    case_bool_decide; [|by intros [= <- <- <-]; split; [|by constructor]].
    destruct (try_peers _ _ _ servers calls _) as [[[w3 more] pass']|] eqn:Ht; simpl; [|done].
    intros [= <- <- <-]. by apply Hnext.
  - destruct (try_peers _ _ _ servers calls _) as [[[w3 more] pass']|] eqn:Ht; simpl; [|done].
    intros [= <- <- <-]. by apply Hnext.
Qed.

Definition attempt_events (a : Attempt) : list Other := at_before a ++ concat (call_events <$> at_calls a).

(** A hand-over that is not a repeat replaces the map of its shard only. *)
Lemma apply_migration op kv :
  CheckApplied (MsgId op) (ClientId op) kv = false → Method op = "Migration"%string →
  ∃ kv', apply_effect op kv = Some kv' ∧ data kv' !! Shard op = Some (MigrationData op)
  ∧ ∀ s, s ≠ Shard op → data kv' !! s = data kv !! s.
Proof.
  intros Hrep Hm. unfold apply_effect. rewrite Hrep, Hm. simpl. eexists. split; [done|]. simpl. split.
  - apply lookup_insert_eq.
  - intros s Hs. rewrite lookup_insert_ne by done. unfold ensure_shard.
    destruct (data kv !! Shard op); simpl; [done|by rewrite lookup_insert_ne].
Qed.

(** The loop ends with a pass that is done, after which it removes the shard. *)
Lemma migrate_loop_done shard newGid c attempts w w' sent :
  migrate_loop shard newGid c attempts w = Some (w', sent, true) →
  ∃ a servers before wS wL last_sent, a ∈ attempts ∧ Groups c !! newGid = Some servers
  ∧ (∀ P, Forall P (concat (attempt_events <$> attempts)) → Forall P before)
  ∧ others_do before w = Some wS
  ∧ try_peers shard newGid (at_msgId a) servers (at_calls a) (wS, data_ref shard (fst wS))
    = Some (wL, last_sent, PeerDone)
  ∧ w' = (removeShardData shard (fst wL), snd wL) ∧ last_sent ≠ [] ∧ list.last sent = list.last last_sent.
Proof.
  revert w sent. induction attempts as [|a attempts IH]; intros w sent; simpl; [done|].
  destruct (others_do (at_before a) w) as [wS|] eqn:Hb; simpl; [|done].
  assert (∀ before more w1, others_do before w = Some w1 →
    (∀ P, Forall P (attempt_events a) → Forall P before) →
    migrate_loop shard newGid c attempts w1 = Some (w', more, true) →
    ∃ a0 servers before wS wL last_sent, a0 ∈ a :: attempts ∧ Groups c !! newGid = Some servers
    ∧ (∀ P, Forall P (attempt_events a ++ concat (attempt_events <$> attempts)) → Forall P before)
    ∧ others_do before w = Some wS
    ∧ try_peers shard newGid (at_msgId a0) servers (at_calls a0) (wS, data_ref shard (fst wS))
      = Some (wL, last_sent, PeerDone)
    ∧ w' = (removeShardData shard (fst wL), snd wL) ∧ last_sent ≠ []
    ∧ list.last more = list.last last_sent) as Hnext.
  { intros before more w1 Hb1 HP Hm.
    destruct (IH _ _ Hm) as (a0 & servers & b0 & wS0 & wL & ls & Hin & Hg & HP0 & Hb0 & Ht & Hrest).
    exists a0, servers, (before ++ b0), wS0, wL, ls. rewrite others_do_app, Hb1. simpl.
    split_and!; [set_solver|done| |done..|apply Hrest|apply Hrest|apply Hrest].
    intros P [??]%Forall_app. apply Forall_app. auto. }
  assert (∀ P, Forall P (attempt_events a) → Forall P (at_before a)) as HPb by (by intros P [? _]%Forall_app).
  destruct (Groups c !! newGid) as [servers|] eqn:Hg; [|by eauto].
  destruct (try_peers _ _ _ servers (at_calls a) _) as [[[w1 sent1] pass]|] eqn:Ht; simpl; [|done].
  destruct pass; [| |done].
  - intros [= <- <-]. exists a, servers, (at_before a), wS, w1, sent1. split_and!; [set_solver|done| |done..| |done].
    { intros P [? _]%Forall_app. auto. }
    destruct (try_peers_done _ _ _ _ _ _ _ _ _ Ht) as (? & ? & ? & ? & ? & ? & ? & ? & ? & ? & ? & ? & Hls).
    intros Hn. by rewrite Hn in Hls.
  - destruct (migrate_loop _ _ _ attempts w1) as [[[w2 more] fin]|] eqn:Hm; simpl; [|done].
    intros [= <- <- ->]. destruct (try_peers_runs _ _ _ _ _ _ _ _ _ _ Ht) as [(evs & He & HP) _].
    destruct (Hnext (at_before a ++ evs) more w1)
      as (a0 & sv & b0 & wS0 & wL & ls & Hin & Hg0 & HP0 & Hb0 & Ht0 & -> & Hne & Hl);
      [by rewrite others_do_app, Hb|intros P [??]%Forall_app; apply Forall_app; auto|done|].
    exists a0, sv, b0, wS0, wL, ls. split_and!; try done. rewrite <- Hl. rewrite last_app.
    destruct (list.last more) eqn:Hlm; [done|].
    exfalso. apply Hne, last_None. congruence.
Qed.

(** Whatever the loop comes to, it has run some of the others' events, removed the shard
    if it finished, and sent requests for the shard to servers of the new group. *)
Lemma migrate_loop_runs shard newGid c attempts w w' sent fin :
  migrate_loop shard newGid c attempts w = Some (w', sent, fin) →
  (∃ evs wL, others_do evs w = Some wL
   ∧ w' = (if (fin : bool) then (removeShardData shard (fst wL), snd wL) else wL)
   ∧ ∀ P, Forall P (concat (attempt_events <$> attempts)) → Forall P evs)
  ∧ Forall (λ p, ∃ servers, Groups c !! newGid = Some servers ∧ fst p ∈ servers
      ∧ ma_Shard (snd p) = shard ∧ ma_NewGid (snd p) = newGid) sent.
Proof.
  revert w sent. induction attempts as [|a attempts IH]; intros w sent; simpl.
  { intros [= <- <- <-]. split; [by exists [], w|done]. }
  destruct (others_do (at_before a) w) as [wS|] eqn:Hb; simpl; [|done].
  assert (∀ evs w1 more, others_do evs w = Some w1 →
    migrate_loop shard newGid c attempts w1 = Some (w', more, fin) →
    (∀ P, Forall P (attempt_events a) → Forall P evs) →
    ∃ evs wL, others_do evs w = Some wL
    ∧ w' = (if (fin : bool) then (removeShardData shard (fst wL), snd wL) else wL)
    ∧ ∀ P, Forall P (attempt_events a ++ concat (attempt_events <$> attempts)) → Forall P evs) as Hnext.
  { intros evs w1 more He Hm HP. destruct (IH _ _ Hm) as [(evs2 & wL & He2 & Hw & HP2) _].
    exists (evs ++ evs2), wL. rewrite others_do_app, He. split_and!; [done..|].
    intros P [??]%Forall_app. apply Forall_app. auto. }
  destruct (Groups c !! newGid) as [servers|] eqn:Hg.
  2: { intros Hm. split; [|by eapply IH]. eapply Hnext; [done|done|]. by intros P [? _]%Forall_app. }
  destruct (try_peers _ _ _ servers (at_calls a) _) as [[[w1 sent1] pass]|] eqn:Ht; simpl; [|done].
  destruct (try_peers_runs _ _ _ _ _ _ _ _ _ _ Ht) as [(evs & He & HP) Hs].
  assert (others_do (at_before a ++ evs) w = Some w1) as Hall by (by rewrite others_do_app, Hb).
  assert (∀ P, Forall P (attempt_events a) → Forall P (at_before a ++ evs)) as HPa.
  { intros P [??]%Forall_app. apply Forall_app. auto. }
  assert (Forall (λ p, ∃ sv, Some servers = Some sv ∧ fst p ∈ sv
    ∧ ma_Shard (snd p) = shard ∧ ma_NewGid (snd p) = newGid) sent1) as Hs1.
  { eapply Forall_impl; [exact Hs|]. intros p ?. by exists servers. }
  assert (∀ P, Forall P (attempt_events a ++ concat (attempt_events <$> attempts)) →
    Forall P (at_before a ++ evs)) as HPe by (intros P [? _]%Forall_app; auto).
  destruct pass.
  - intros [= <- <- <-]. split; [|done]. by exists (at_before a ++ evs), w1.
  - destruct (migrate_loop _ _ _ attempts w1) as [[[w2 more] fin']|] eqn:Hm; simpl; [|done].
    intros [= <- <- <-]. split; [by eapply Hnext|]. apply Forall_app. split; [done|].
    by apply (IH w1).
  - intros [= <- <- <-]. split; [|done]. by exists (at_before a ++ evs), w1.
Qed.

(** ** Properties *)

(** C24. A migration carries the shard over. For any behaviour of the server's other
    goroutines meanwhile, when the loop of [migrationToPeer] finishes, one of its attempts
    had a call answered [OK] after calls that failed or met a peer that does not lead; all
    requests are for this shard and go to servers of the new group, the last one to that
    call's; the server is then as the others left it when that call was over, without the
    shard. A receiver that applies the operation its handler builds from this request, and
    has not just applied one with its message id, changes no other shard, and answers every
    key of the shard as the sender did when the call was encoded, unless the sender had no
    map for the shard when it built the request, or another took its place before; if
    nothing happened to the shard from then until the removal, it answers as the sender did
    up to the moment it removed the shard. (What is applied between the encoding and the
    removal is lost: [write_lost_in_migration].) *)
Theorem migration_transfers_shard shard newConfig attempts w w' sent :
  migrationToPeer shard newConfig attempts w = Some (w', sent, true) →
  ∃ newGid servers a calls c rest srv args before wS wE wL,
    (Shards newConfig).[shard] = Some newGid ∧ Groups newConfig !! newGid = Some servers
    ∧ a ∈ attempts ∧ at_calls a = calls ++ c :: rest
    ∧ Forall (λ c, pc_reply c = None ∨ pc_reply c = Some ErrWrongLeader) calls ∧ pc_reply c = Some OK
    ∧ list.last sent = Some (srv, args) ∧ servers !! length calls = Some srv
    ∧ Forall (λ p, fst p ∈ servers ∧ ma_Shard (snd p) = shard ∧ ma_NewGid (snd p) = newGid) sent
    ∧ ma_MsgId args = at_msgId a
    ∧ before ⊆ concat (attempt_events <$> attempts) ∧ others_do before w = Some wS
    ∧ others_do (concat (call_events <$> calls) ++ pc_before c) wS = Some wE
    ∧ others_do (pc_after c) wE = Some wL
    ∧ w' = (fst wL <| data := delete shard (data (fst wL)) |>, snd wL)
    ∧ ∀ reqId kvB, CheckApplied (ma_MsgId args) (kv_me kvB) kvB = false →
        ∃ kvB', apply_effect (migration_op args reqId kvB) kvB = Some kvB'
        ∧ (∀ s, s ≠ shard → data kvB' !! s = data kvB !! s)
        ∧ (Forall (keeps_map shard) (concat (call_events <$> calls) ++ pc_before c) →
           is_Some (shard_map shard (fst wS)) →
           ∀ k, lookup_data shard k kvB' = lookup_data shard k (fst wE))
        ∧ (Forall (quiet shard) (concat (call_events <$> calls) ++ pc_before c ++ pc_after c) →
           ∀ k, lookup_data shard k kvB' = lookup_data shard k (fst wL)).
Proof.
  unfold migrationToPeer. destruct ((Shards newConfig).[shard]) as [newGid|] eqn:Hg; simpl; [|done].
  intros Hm. destruct (migrate_loop_runs _ _ _ _ _ _ _ _ Hm) as [_ Hsent].
  apply migrate_loop_done in Hm as (a & servers & before & wS & wL & ls & Ha & Hgr & HP & Hb & Ht & Hw & _ & Hl).
  apply try_peers_done in Ht
    as (calls & c & rest & srv & wE & refE & Hcs & Hfail & Hok & Hsrv & Hwt & Haf & Hls).
  pose proof (watches_others _ _ _ _ _ _ Hwt) as HwE.
  eexists newGid, servers, a, calls, c, rest, srv, _, before, wS, wE, wL.
  rewrite Hl. split_and!; try done.
  { eapply Forall_impl; [exact Hsent|]. intros p (sv & Hsv & ?). rewrite Hgr in Hsv. by injection Hsv as <-. }
  { intros o Ho. specialize (HP (.∈ concat (attempt_events <$> attempts))). rewrite !list.Forall_forall in HP. auto. }
  intros reqId kvB Hrep.
  destruct (apply_migration (migration_op (migration_args shard newGid (at_msgId a) refE (fst wE)) reqId kvB) kvB)
    as (kvB' & HB & Hd & Hrest); [done|done|].
  exists kvB'. simpl in Hd, Hrest. split_and!; [done|done| |].
  - intros Hk [m Hm] k. rewrite !lookup_data_map. unfold shard_map at 1. rewrite Hd. simpl.
    by rewrite (watches_keeps _ _ _ _ _ _ Hm Hwt Hk), data_ref_map.
  - rewrite app_assoc. intros [Hq1 Hq2]%Forall_app k. rewrite !lookup_data_map. unfold shard_map at 1. rewrite Hd. simpl.
    rewrite (watches_quiet _ _ _ _ _ _ (data_ref_map _ _) Hwt Hq1).
    by rewrite (quiet_all _ _ _ _ Haf Hq2).
Qed.

(** ** A round of [FindConfig] *)

(** Another handler's channel, or the Raft peer: nothing that [FindConfig] reads. *)
Definition idle (o : Other) : Prop :=
  match o with ORegisters _ | OLeaves _ | ORaft _ => True | _ => False end.

(** The server but for its channels. *)
Definition same_server kv kv' : Prop :=
  gid kv' = gid kv ∧ config kv' = config kv ∧ kv_lastApplied kv' = kv_lastApplied kv
  ∧ kv_state kv' = kv_state kv ∧ data kv' = data kv.

Lemma idle_others evs w w' : others_do evs w = Some w' → Forall idle evs → same_server (fst w) (fst w').
Proof.
  revert w. induction evs as [|o evs IH]; intros w; [by intros [= <-]|]. rewrite others_do_cons.
  destruct (other_do w o) as [w1|] eqn:Ho; simpl; [|done]. intros Hd [Hi His]%Forall_cons.
  assert (same_server (fst w) (fst w1)) as (? & ? & ? & ? & ?).
  { destruct w as [kv rf]. unfold other_do in Ho. by destruct o; simplify_eq/=. }
  destruct (IH w1 Hd His) as (? & ? & ? & ? & ?). split_and!; congruence.
Qed.

Definition idle_run (run : FcRun) : Prop :=
  Forall idle (fc_gate run) ∧ Forall idle (fc_shards run) ∧ Forall idle (fc_stable run)
  ∧ Forall idle (fc_start run)
  ∧ ∀ s, Forall idle (concat (attempt_events <$> fc_attempts run s)).

Lemma migrationToPeer_idle shard newConfig attempts w w' sent fin :
  migrationToPeer shard newConfig attempts w = Some (w', sent, fin) →
  Forall idle (concat (attempt_events <$> attempts)) →
  gid (fst w') = gid (fst w) ∧ config (fst w') = config (fst w) ∧ kv_state (fst w') = kv_state (fst w)
  ∧ data (fst w') = if (fin : bool) then delete shard (data (fst w)) else data (fst w).
Proof.
  unfold migrationToPeer. destruct ((Shards newConfig).[shard]) as [g|]; simpl; [|done].
  intros Hm Hi. apply migrate_loop_runs in Hm as [(evs & wL & He & -> & HP) _].
  destruct (idle_others _ _ _ He (HP _ Hi)) as (? & ? & ? & ? & Hd). by destruct fin; simpl; rewrite ?Hd.
Qed.

(** What a round of hand-overs leaves: the visited shards that belong elsewhere are gone. *)
Lemma migrate_all_data newConfig env shards w w' sent fin :
  migrate_all newConfig env shards w = Some (w', sent, fin) →
  (∀ s, Forall idle (concat (attempt_events <$> env s))) →
  gid (fst w') = gid (fst w) ∧ config (fst w') = config (fst w)
  ∧ (∀ s, data (fst w') !! s = data (fst w) !! s ∨ (data (fst w') !! s = None ∧ s ∈ shards
       ∧ ∃ g, (Shards newConfig).[s] = Some g ∧ g ≠ gid (fst w)))
  ∧ (fin = true → ∀ s g, s ∈ shards → (Shards newConfig).[s] = Some g → g ≠ gid (fst w) →
       data (fst w') !! s = None).
Proof.
  intros Hm Hi. revert w w' sent fin Hm. induction shards as [|shard shards IH]; intros w w' sent fin; simpl.
  { intros [= <- <- <-]. split_and!; auto. intros _ s g Hs. by apply not_elem_of_nil in Hs. }
  destruct ((Shards newConfig).[shard]) as [newGid|] eqn:Hg; simpl; [|done].
  destruct (Z.eqb_spec newGid (gid (fst w))) as [He|He].
  { intros Hm. destruct (IH _ _ _ _ Hm) as (Hgid & Hc & Hd & Hgone). split_and!; try done.
    - intros s. destruct (Hd s) as [?|(? & ? & ?)]; [by left|right]. split_and!; [done|set_solver|done].
    - intros Hf s g Hs Hsg Hne. apply elem_of_cons in Hs as [->|Hs]; [congruence|by eapply Hgone]. }
  destruct (migrationToPeer shard newConfig (env shard) w) as [[[w1 sent1] fin1]|] eqn:Hl; simpl; [|done].
  apply migrationToPeer_idle in Hl as (Hg1 & Hc1 & _ & Hd1); [|done]. destruct fin1; simpl.
  2: { intros [= <- <- <-]. split_and!; [done..| |done]. intros s. left. by rewrite Hd1. }
  destruct (migrate_all newConfig env shards w1) as [[[w2 more] fin2]|] eqn:Hm; simpl; [|done].
  intros [= <- <- <-]. destruct (IH _ _ _ _ Hm) as (Hgid & Hc & Hd & Hgone). rewrite Hg1 in Hd, Hgone.
  split_and!; [congruence..| |].
  - intros s. destruct (decide (s = shard)) as [->|Hne].
    + right. split_and!; [|set_solver|by exists newGid].
      destruct (Hd shard) as [->|(? & _)]; [rewrite Hd1; apply lookup_delete_eq|done].
    + destruct (Hd s) as [Hds|(? & ? & ?)].
      * left. by rewrite Hds, Hd1, lookup_delete_ne.
      * right. split_and!; [done|set_solver|done].
  - intros Hf s g Hs Hsg Hne. destruct (decide (s = shard)) as [->|Hsn].
    + destruct (Hd shard) as [->|(? & _)]; [rewrite Hd1; apply lookup_delete_eq|done].
    + eapply Hgone; [done| |done|done]. set_solver.
Qed.

(** [Start] as a statement about the log. *)
Definition logs (command : Cmd) rf rf' : Prop :=
  (state rf = LEADER → log rf' = log rf ++ [MkLog (ICmd command) (currentTerm rf)])
  ∧ (state rf ≠ LEADER → rf' = rf).

Lemma Start_logs_iff command rf rf' r : Start (C := Cmd) command rf = Some (rf', r) → logs command rf rf'.
Proof. intros Hs. by apply Start_logs in Hs as [(? & _ & ?)|(? & _ & ?)]. Qed.

(** A configuration change hands over every shard that moved: when the number of
    groups changed, a leader's [FindConfig] round finishes and meanwhile no message is
    applied, then for every range order no shard that its old configuration gave it and the
    new one gives to another group is left, every other shard is untouched, the gate is
    open again, and the new configuration is in the log if the peer still led at the end. *)
Theorem FindConfig_hands_over order query curConfig run w w' sent c :
  legal_order order → config (fst w) = Some c → state (snd w) = LEADER → Forall idle query → idle_run run →
  should_migrate curConfig (fst w) = true →
  FindConfig order query curConfig run w = Some (w', sent, true) →
  kv_state (fst w') = STABLE
  ∧ (∀ s g, 0 ≤ s < NShard → (Shards c).[s] = Some (gid (fst w)) →
       (Shards curConfig).[s] = Some g → g ≠ gid (fst w) → data (fst w') !! s = None)
  ∧ (∀ s, (Shards c).[s] ≠ Some (gid (fst w)) ∨ (Shards curConfig).[s] = Some (gid (fst w)) →
       data (fst w') !! s = data (fst w) !! s)
  ∧ ∃ rf, logs (CConfig (Config_Copy curConfig)) rf (snd w').
Proof.
  intros Ho Hc Hs Hq (Hi1 & Hi2 & Hi3 & Hi4 & Hi5) Hm. unfold FindConfig, GetState.
  rewrite bool_decide_eq_true_2 by done. simpl.
  destruct (others_do query w) as [w1|] eqn:Hd1; simpl; [|done].
  apply idle_others in Hd1 as (Hg1 & Hc1 & _ & _ & Hd1); [|done].
  replace (should_migrate curConfig (fst w1)) with true by (unfold should_migrate in *; by rewrite Hc1).
  destruct (others_do (fc_gate run) w1) as [[kv2 rf2]|] eqn:Hd2; simpl; [|done].
  apply idle_others in Hd2 as (Hg2 & Hc2 & _ & _ & Hd2); [|done]. simpl in Hg2, Hc2, Hd2.
  destruct (others_do (fc_shards run) _) as [w3|] eqn:Hd3; simpl; [|done].
  apply idle_others in Hd3 as (Hg3 & Hc3 & _ & _ & Hd3); [|done]. simpl in Hg3, Hc3, Hd3.
  rewrite Hc3, Hc2, Hc1, Hc. simpl. set (shards := order 0%nat _).
  destruct (migrate_all curConfig (fc_attempts run) shards w3) as [[[w4 sent1] fin]|] eqn:Hall; simpl; [|done].
  destruct fin; simpl; [|done].
  apply migrate_all_data in Hall as (Hg4 & _ & Hd & Hgone); [|done].
  destruct (others_do (fc_stable run) w4) as [[kv5 rf5]|] eqn:Hd5; simpl; [|done].
  apply idle_others in Hd5 as (_ & _ & _ & _ & Hd5); [|done]. simpl in Hd5.
  destruct (others_do (fc_start run) _) as [[kv6 rf6]|] eqn:Hd6; simpl; [|done].
  apply idle_others in Hd6 as (_ & _ & _ & Hst6 & Hd6); [|done]. simpl in Hst6, Hd6.
  destruct (Start _ rf6) as [[rf7 r]|] eqn:Hst; simpl; [|done]. intros [= <- <-]. simpl.
  assert (gid (fst w3) = gid (fst w)) as Hgid by congruence.
  assert (data (fst w3) = data (fst w)) as Hdata by congruence. rewrite Hgid, Hdata in Hd. rewrite Hgid in Hgone.
  assert (∀ s, s ∈ shards ↔ (Shards c).[s] = Some (gid (fst w)) ∧ 0 ≤ s < NShard) as Hsh.
  { intros s. unfold shards. rewrite (Ho _ _). unfold lastConfigShards.
    rewrite list_elem_of_filter, elem_of_seqZ, Hgid. simpl. done. }
  rewrite Hd6, Hd5. split_and!; [done| | |].
  - intros s g Hrs Hcs Hns Hne. apply (Hgone eq_refl s g); [by apply Hsh|done|done].
  - intros s Hor. destruct (Hd s) as [?|(Hnone & Hin & g & Hg & Hne)]; [done|].
    apply Hsh in Hin as [Hin _]. destruct Hor as [?|Hcur]; [done|congruence].
  - exists rf6. by eapply Start_logs_iff.
Qed.

(** A change that keeps the number of groups hands nothing over, whatever the others do:
    [FindConfig] sends no migration and changes no shard itself, and a server that holds
    the old configuration when it applies the new one keeps the moved shards' data and
    refuses their keys. *)
Theorem FindConfig_ignores_equal_group_count order query curConfig run w w1 w' sent fin c s g :
  state (snd w) = LEADER → others_do query w = Some w1 → config (fst w1) = Some c →
  map_len (Groups curConfig) = map_len (Groups c) →
  FindConfig order query curConfig run w = Some (w', sent, fin) →
  sent = [] ∧ fin = true
  ∧ (∃ rf, others_do (fc_start run) w1 = Some (fst w', rf) ∧ logs (CConfig (Config_Copy curConfig)) rf (snd w'))
  ∧ ∀ kv rf, config kv = Some c → gid kv = gid (fst w) → Num c < Num curConfig →
      (Shards curConfig).[s] = Some g → g ≠ gid (fst w) →
      ∃ kv', applyConfig 0 (Config_Copy curConfig) kv rf = Some (kv', rf) ∧ data kv' = data kv
      ∧ checkAndMigrateShard s kv' = Some false.
Proof.
  intros Hs Hq Hc Hlen. unfold FindConfig, GetState, should_migrate.
  rewrite bool_decide_eq_true_2 by done. simpl. rewrite Hq. simpl. rewrite Hc, Hlen, Z.eqb_refl. simpl.
  rewrite !andb_false_r. simpl. destruct (others_do (fc_start run) w1) as [[kv2 rf2]|] eqn:Hd; simpl; [|done].
  destruct (Start _ rf2) as [[rf3 r]|] eqn:Hst; simpl; [|done]. intros [= <- <- <-]. split_and!; [done..| |].
  - exists rf2. split; [done|]. by eapply Start_logs_iff.
  - intros kv rf Hck Hgid Hnum Hg Hne. unfold applyConfig. rewrite Hck. unfold Config_Copy. simpl.
    rewrite (proj2 (Z.leb_gt _ _)) by lia. eexists. split; [done|]. split; [done|].
    unfold checkAndMigrateShard. simpl. rewrite Hg. simpl. by rewrite (proj2 (Z.eqb_neq g (gid kv))) by congruence.
Qed.

(** ** What goes wrong *)

(** A hand-over is retried with a fresh message id, so a late copy of the request is not
    filtered: it overwrites what clients wrote in between. *)
Lemma late_migration_overwrites :
  let m1 := MkOp "Migration" 3 "" "" 0 100 1 (Some ∅) in
  let put := MkOp "Put" 3 "k" "v" 7 5 2 None in
  let m2 := MkOp "Migration" 3 "" "" 0 101 3 (Some ∅) in
  let kv := MkShardKV 0 1 (-1) None ∅ ∅ ∅ [] STABLE in
  (kv1 ← apply_effect m1 kv; kv2 ← apply_effect put kv1; Some (lookup_data 3 "k" kv2)) = Some "v"%string
  ∧ (kv1 ← apply_effect m1 kv; kv2 ← apply_effect put kv1; kv3 ← apply_effect m2 kv2;
     Some (lookup_data 3 "k" kv3)) = Some ""%string.
Proof. vm_compute. done. Qed.

(** A shard that was never written is handed over as a nil map, on which the next
    [Append] panics. *)
Lemma append_after_empty_migration_panics shard key value c m r kv :
  data kv !! shard = None → CheckApplied m c kv = false →
  ma_Data (migration_args shard 0 0 (data_ref shard kv) kv) = None
  ∧ ∀ kvB, CheckApplied 0 0 kvB = false → CheckApplied m c kvB = false →
      (kv1 ← apply_effect (MkOp "Migration" shard "" "" 0 0 r None) kvB;
       apply_effect (MkOp "Append" shard key value c m r None) kv1) = None.
Proof.
  intros Hd Hc. unfold migration_args, data_ref. rewrite Hd. split; [done|]. intros kvB Hz Hm.
  assert (apply_effect (MkOp "Migration" shard "" "" 0 0 r None) kvB
    = Some (ensure_shard shard kvB
        <| data := <[shard := None]> (data (ensure_shard shard kvB)) |>)) as ->
    by (unfold apply_effect; simpl; by rewrite Hz).
  simpl. unfold apply_effect. simpl. replace (CheckApplied m c _) with false.
  - set (kv2 := ensure_shard shard kvB <| data := <[shard := None]> (data (ensure_shard shard kvB)) |>).
    cbn [negb andb].
    assert (data kv2 !! shard = Some None) as Hn by apply lookup_insert_eq.
    assert (ensure_shard shard kv2 = kv2) as -> by (unfold ensure_shard; by rewrite Hn).
    unfold assign. by rewrite Hn.
  - unfold CheckApplied in *. simpl. by rewrite ensure_shard_applied.
Qed.

End migration.

(** ** Executions on concrete servers *)
Module MigrateDemo.
Export ShardDemo.
Definition id_order : MapOrder := λ _ ks, ks.
Lemma demo_order_legal : legal_order id_order.
Proof. intros k ks. reflexivity. Qed.
(** A first attempt whose call fails while a write is applied, then one that succeeds. *)
Definition retried : list Attempt :=
  [MkAttempt [] 99 [MkPeerCall [] None [applies (COp put0)]];
   MkAttempt [ORegisters 5] 100 [MkPeerCall [] (Some OK) [OLeaves 5]]].
(** A write is applied while the call that succeeds is under way. *)
Definition overtaken : list Attempt :=
  [MkAttempt [] 100 [MkPeerCall [] (Some OK) [ORegisters 2; applies (COp put0)]]].
Definition fc_run : FcRun :=
  MkFcRun [ORegisters 5] [] (λ _, [MkAttempt [] 100 [MkPeerCall [] (Some OK) []]]) [OLeaves 5] [].
(** As many groups as [c2], other owners. *)
Definition c3' : Config := MkConfig 3 [3;3;1;1;1;1;1;1;1;1] (groups [1; 3]).
(** The receiver: a server of group 2 without the shard. *)
Definition kvB : ShardKV := MkShardKV 0 2 (-1) (Some c2) ∅ ∅ ∅ [] STABLE.
Lemma same_number : map_len (Groups c3') = map_len (Groups c2).
Proof. vm_compute. reflexivity. Qed.
Lemma fc_run_idle : idle_run fc_run.
Proof. split_and!; repeat constructor. Qed.
End MigrateDemo.

Section witnesses.
Import MigrateDemo.

(** A write that the sender applies, and acknowledges to the waiting handler, while the
    call that hands the shard over is under way is in neither group afterwards. *)
Lemma write_lost_in_migration :
  snd <$> (w ← others_do [ORegisters 2] (kv1, rf0); other_step (applies (COp put0)) w)
  = Some (Some (2, MkNotifyMsg OK "b"))
  ∧ ('(w', sent, fin) ← migrationToPeer 0 c2 overtaken (kv1, rf0);
     args ← snd <$> list.last sent;
     kvB' ← apply_effect (migration_op args 7 kvB) kvB;
     Some (fin, shard_map 0 (fst w'), lookup_data 0 "k" kvB', lookup_data 0 "a" kvB'))
  = Some (true, None, "v"%string, ""%string).
Proof. split; vm_compute; reflexivity. Qed.

(** A write applied before a later attempt is built travels with it. *)
Lemma migration_transfers_shard_witness :
  ∃ w' sent, migrationToPeer 0 c2 retried (kv1, rf0) = Some (w', sent, true)
  ∧ ∃ srv args, list.last sent = Some (srv, args) ∧ data (fst w') !! 0 = None
  ∧ ∃ kvB', apply_effect (migration_op args 7 kvB) kvB = Some kvB'.
Proof.
  assert (∃ p, migrationToPeer 0 c2 retried (kv1, rf0) = Some (p.1, p.2, true)) as [[w' sent] Hm]
    by (eexists (_, _); vm_compute; reflexivity).
  exists w', sent. split; [exact Hm|].
  destruct (migration_transfers_shard 0 c2 retried (kv1, rf0) w' sent Hm)
    as (newGid & servers & a & calls & c & rest & srv & args & before & wS & wE & wL & Hrest).
  destruct Hrest as (_ & _ & _ & _ & _ & _ & Hl & _ & _ & _ & _ & _ & _ & _ & Hw & HB).
  exists srv, args. split; [exact Hl|]. split; [rewrite Hw; apply lookup_delete_eq|].
  destruct (HB 7 kvB) as (kvB' & Ha & _).
  - reflexivity.
  - exists kvB'. exact Ha.
Defined.

Lemma FindConfig_hands_over_witness :
  ∃ w' sent, FindConfig id_order [] c2 fc_run (kv1, rf0) = Some (w', sent, true)
  ∧ data (fst w') !! 0 = None.
Proof.
  assert (∃ p, FindConfig id_order [] c2 fc_run (kv1, rf0) = Some (p.1, p.2, true)) as [[w' sent] Hf]
    by (eexists (_, _); vm_compute; reflexivity).
  exists w', sent. split; [exact Hf|].
  destruct (FindConfig_hands_over id_order [] c2 fc_run (kv1, rf0) w' sent c1 demo_order_legal eq_refl eq_refl
    (Forall_nil_2 _) fc_run_idle eq_refl Hf) as (_ & Hg & _).
  by apply (Hg 0 2).
Defined.

Lemma FindConfig_ignores_equal_group_count_witness :
  ∃ kv', applyConfig 0 (Config_Copy c3') kv2 rf0 = Some (kv', rf0)
  ∧ checkAndMigrateShard 1 kv' = Some false.
Proof.
  assert (∃ p, FindConfig id_order [] c3' fc_run (kv2, rf0)
    = Some (p.1.1, p.1.2, p.2)) as [[[w' sent] fin] Hf] by (eexists (_, _, _); vm_compute; reflexivity).
  destruct (FindConfig_ignores_equal_group_count id_order [] c3'
    fc_run (kv2, rf0) (kv2, rf0) w' sent fin c2 1 3 eq_refl eq_refl eq_refl same_number Hf) as (_ & _ & _ & Hall).
  destruct (Hall kv2 rf0) as (kv' & Ha & _ & Hc); [by vm_compute..|].
  exists kv'. split; [exact Ha|exact Hc].
Defined.

End witnesses.
