(* ===== verification/ShardClerk.v ===== *)
(** * The client of the sharded store

    [src/6.824/src/shardkv/client.go]: [Get] and [PutAppend] route a key to the group
    that the clerk's configuration names, try its servers in order, and ask the shard
    master for a newer configuration after a pass without an answer. *)
From S2P Require Import Prelude RaftState ShardConfig ShardKv.

(** What a reply does to the pass over a group's servers. *)
Inductive Verdict (A : Type) := VReturn (a : A) | VBreak | VNext.
Arguments VReturn {A}. Arguments VBreak {A}. Arguments VNext {A}.

(** How a pass ended: with a result, without one, or in the middle of a call. *)
Inductive PassEnd (A : Type) := PReturn (a : A) | PNoAnswer | PCalling.
Arguments PReturn {A}. Arguments PNoAnswer {A}. Arguments PCalling {A}.

Definition get_verdict (r : GetReply) : Verdict string :=
  if bool_decide (gr_Err r = OK) || bool_decide (gr_Err r = ErrNoKey) then VReturn (gr_Value r)
  else if bool_decide (gr_Err r = ErrWrongGroup) then VBreak
  else VNext.

(** [e] is the error of the reply. *)
Definition put_verdict (e : string) : Verdict unit :=
  if bool_decide (e = OK) then VReturn tt
  else if bool_decide (e = ErrWrongGroup) then VBreak
  else VNext.

Section clerk.
Context {R A Args : Type} (verdict : R → Verdict A) (zero : R).

(** One pass: the servers called and how it ended.  A failed call ([None]) leaves the zero
    reply, which the code then inspects. *)
Fixpoint pass (servers : list string) (replies : list (option R)) : list string * PassEnd A :=
  match servers with
  | [] => ([], PNoAnswer)
  | srv :: servers =>
      match replies with
      | [] => ([srv], PCalling)
      | r :: replies =>
          match verdict (default zero r) with
          | VReturn a => ([srv], PReturn a)
          | VBreak => ([srv], PNoAnswer)
          | VNext => let '(called, e) := pass servers replies in (srv :: called, e)
          end
      end
  end.

(** The loop: each round has the calls' outcomes and the configuration the master answers
    afterwards.  [make_args] builds the arguments for a shard and a gid.  The result is
    the requests sent with their servers, and the value once the call returns. *)
Fixpoint route_loop (key : string) (make_args : Z → Z → Args) (config : Config)
    (rounds : list (list (option R) * Config)) : option (list (string * Args) * option A) :=
  match rounds with
  | [] => Some ([], None)
  | (replies, next) :: rounds =>
      let shard := key2shard key in
      gid ← (Shards config).[shard];
      let args := make_args shard gid in
      let '(called, e) :=
        match Groups config !! gid with
        | Some servers => pass servers replies
        | None => ([], PNoAnswer)
        end in
      let sent := (λ srv, (srv, args)) <$> called in
      match e with
      | PReturn a => Some (sent, Some a)
      | PCalling => Some (sent, None)
      | PNoAnswer =>
          '(more, res) ← route_loop key make_args next rounds;
          Some (sent ++ more, res)
      end
  end.

End clerk.

Definition Clerk_Get (clientId msgId : Z) (key : string) (config : Config)
    (rounds : list (list (option GetReply) * Config)) : option (list (string * GetArgs) * option string) :=
  route_loop get_verdict (MkGetReply "" "") key
    (λ shard gid, MkGetArgs key msgId clientId gid shard) config rounds.

Definition Clerk_PutAppend (clientId msgId : Z) (key value op : string) (config : Config)
    (rounds : list (list (option string) * Config)) : option (list (string * PutAppendArgs) * option unit) :=
  route_loop put_verdict ""%string key
    (λ shard gid, MkPutAppendArgs key value op msgId clientId gid shard) config rounds.

Definition Clerk_Put (c m : Z) (key value : string) := Clerk_PutAppend c m key value "Put".
Definition Clerk_Append (c m : Z) (key value : string) := Clerk_PutAppend c m key value "Append".

(** ** Lemmas *)
Section lemmas.
Context {R A Args : Type} (verdict : R → Verdict A) (zero : R).

Lemma pass_called servers replies called e :
  pass verdict zero servers replies = (called, e) → called `prefix_of` servers.
Proof.
  revert replies called e. induction servers as [|srv servers IH]; intros replies called e; simpl.
  { by intros [= <- <-]. }
  destruct replies as [|r replies]; [intros [= <- <-]; by eexists|].
  destruct (verdict (default zero r)); [intros [= <- <-]; by eexists|intros [= <- <-]; by eexists|].
  destruct (pass verdict zero servers replies) as [c1 e1] eqn:Hp. intros [= <- <-].
  apply prefix_cons. by eapply IH.
Qed.

(** Every request goes to a server of the group that one of the clerk's configurations
    names for the key's shard, with arguments built for that shard and group. *)
Lemma route_loop_sent key (make_args : Z → Z → Args) config rounds sent res :
  route_loop verdict zero key make_args config rounds = Some (sent, res) →
  Forall (λ p, ∃ c gid servers, c ∈ config :: rounds.*2 ∧ (Shards c).[key2shard key] = Some gid
    ∧ Groups c !! gid = Some servers ∧ p.1 ∈ servers ∧ p.2 = make_args (key2shard key) gid) sent.
Proof.
  revert config sent res. induction rounds as [|[replies next] rounds IH]; intros config sent res; simpl.
  { intros [= <- <-]. constructor. }
  destruct ((Shards config).[key2shard key]) as [gid|] eqn:Hg; simpl; [|done].
  destruct (match Groups config !! gid with Some s => _ | None => _ end) as [called e] eqn:He.
  assert (Forall (λ p, ∃ c gid servers, c ∈ config :: next :: rounds.*2
      ∧ (Shards c).[key2shard key] = Some gid ∧ Groups c !! gid = Some servers
      ∧ p.1 ∈ servers ∧ p.2 = make_args (key2shard key) gid)
    ((λ srv, (srv, make_args (key2shard key) gid)) <$> called)) as Hsent.
  { apply Forall_fmap, list.Forall_forall. intros srv Hsrv.
    destruct (Groups config !! gid) as [servers|] eqn:Hgr.
    - apply pass_called in He. exists config, gid, servers. split_and!; [set_solver|done|done| |done].
      simpl. destruct He as [k ->]. set_solver.
    - simplify_eq. by apply not_elem_of_nil in Hsrv. }
  destruct e.
  - intros [= <- <-]. done.
  - destruct (route_loop _ _ _ _ next rounds) as [[more res1]|] eqn:Hl; simpl; [|done].
    intros [= <- <-]. apply Forall_app. split; [done|].
    eapply list.Forall_impl; [by eapply IH|]. simpl.
    intros p (c & g & servers & Hc & ?). exists c, g, servers. split; [set_solver|done].
  - intros [= <- <-]. done.
Qed.

(** The value returned is one some reply gave. *)
Lemma route_loop_result key (make_args : Z → Z → Args) config rounds sent a :
  route_loop verdict zero key make_args config rounds = Some (sent, Some a) →
  ∃ round r, round ∈ rounds ∧ r ∈ round.1 ∧ verdict (default zero r) = VReturn a.
Proof.
  assert (∀ servers replies called, pass verdict zero servers replies = (called, PReturn a) →
    ∃ r, r ∈ replies ∧ verdict (default zero r) = VReturn a) as Hpass.
  { induction servers as [|srv servers IH]; intros replies called; simpl; [done|].
    destruct replies as [|r replies]; [done|].
    destruct (verdict (default zero r)) eqn:Hv; [intros [= <- <-]; exists r; set_solver|done|].
    destruct (pass verdict zero servers replies) as [c1 e1] eqn:Hp. intros [= <- ->].
    destruct (IH _ _ Hp) as (r' & ? & ?). exists r'. set_solver. }
  revert config sent. induction rounds as [|[replies next] rounds IH]; intros config sent; simpl; [done|].
  destruct ((Shards config).[key2shard key]) as [gid|] eqn:Hg; simpl; [|done].
  destruct (match Groups config !! gid with Some s => _ | None => _ end) as [called e] eqn:He.
  destruct e as [b| |].
  - intros [= <- ->]. destruct (Groups config !! gid) as [servers|]; [|done].
    destruct (Hpass _ _ _ He) as (r & Hr & Hv). exists (replies, next), r. split; [set_solver|done].
  - destruct (route_loop _ _ _ _ next rounds) as [[more res1]|] eqn:Hl; simpl; [|done].
    intros [= <- ->]. destruct (IH _ _ Hl) as (round & r & Hin & Hr). exists round, r.
    split; [set_solver|done].
  - done.
Qed.

End lemmas.

(** ** Properties *)

(** Writes are routed: every [PutAppend] request goes to a server of the group that
    one of the configurations the clerk has held names for the key's shard, and carries
    the call's own client and message ids, that shard and that group; and the call
    returns only on a reply of [OK]. *)
Theorem shard_clerk_routes clientId msgId key value op config rounds sent res :
  Clerk_PutAppend clientId msgId key value op config rounds = Some (sent, res) →
  Forall (λ p, ∃ c gid servers, c ∈ config :: rounds.*2
    ∧ (Shards c).[key2shard key] = Some gid ∧ Groups c !! gid = Some servers ∧ p.1 ∈ servers
    ∧ p.2 = MkPutAppendArgs key value op msgId clientId gid (key2shard key)) sent
  ∧ (res = Some tt → ∃ round, round ∈ rounds ∧ Some OK ∈ round.1).
Proof.
  intros Hl. split; [by eapply route_loop_sent in Hl|]. intros ->.
  apply route_loop_result in Hl as (round & r & Hin & Hr & Hv). exists round. split; [done|].
  unfold put_verdict in Hv. destruct r as [e|]; simpl in Hv.
  - case_bool_decide as He; [by rewrite He in Hr|]. by case_bool_decide.
  - by vm_compute in Hv.
Qed.

(** Reads return only answers: the value [Get] returns was given in a reply of [OK] or
    [ErrNoKey]. *)
Theorem shard_clerk_Get_answers clientId msgId key config rounds sent v :
  Clerk_Get clientId msgId key config rounds = Some (sent, Some v) →
  ∃ round e, round ∈ rounds ∧ Some (MkGetReply e v) ∈ round.1 ∧ (e = OK ∨ e = ErrNoKey).
Proof.
  intros Hl. apply route_loop_result in Hl as (round & r & Hin & Hr & Hv).
  unfold get_verdict in Hv. destruct r as [[e w]|]; simpl in Hv.
  - exists round, e. destruct (bool_decide (e = OK) || bool_decide (e = ErrNoKey)) eqn:He.
    + injection Hv as ->. split_and!; [done|done|].
      apply orb_prop in He as [He|He]; apply bool_decide_eq_true in He; auto.
    + by case_bool_decide.
  - by vm_compute in Hv.
Qed.

(** ** Witnesses *)
Definition demo_config (g : Z) : Config :=
  MkConfig 1 [g;g;g;g;g;g;g;g;g;g] {[g := ["s1"; "s2"]%string]}.

Lemma shard_clerk_routes_witness :
  ∃ sent, Clerk_PutAppend 7 5 "k" "v" "Put" (demo_config 1)
    [([None; Some ErrWrongGroup], demo_config 2); ([Some ErrWrongLeader; Some OK], demo_config 2)]
    = Some (sent, Some tt) ∧ length sent = 4%nat ∧ (∃ p, p ∈ sent ∧ pa_Gid p.2 = 2).
Proof.
  assert (∃ sent, Clerk_PutAppend 7 5 "k" "v" "Put" (demo_config 1)
    [([None; Some ErrWrongGroup], demo_config 2); ([Some ErrWrongLeader; Some OK], demo_config 2)]
    = Some (sent, Some tt) ∧ length sent = 4%nat ∧ (∃ p, p ∈ sent ∧ pa_Gid p.2 = 2))
    as (sent & Hs & Hl & Hp).
  { eexists. vm_compute. split; [reflexivity|]. split; [reflexivity|].
    eexists. split; [right; right; left|reflexivity]. }
  exists sent. split; [exact Hs|]. split; [exact Hl|].
  destruct (shard_clerk_routes _ _ _ _ _ _ _ _ _ Hs) as [_ _]. exact Hp.
Defined.

Lemma shard_clerk_Get_answers_witness :
  ∃ e, Some (MkGetReply e "v") ∈ [Some (MkGetReply OK "v")] ∧ (e = OK ∨ e = ErrNoKey).
Proof.
  destruct (shard_clerk_Get_answers 7 5 "k" (demo_config 1) [([Some (MkGetReply OK "v")], demo_config 1)]
    [("s1"%string, MkGetArgs "k" 5 7 1 7)] "v") as (round & e & Hr & He & Hoe).
  - vm_compute. reflexivity.
  - apply list_elem_of_singleton in Hr as ->. exists e. split; [exact He|exact Hoe].
Defined.
