(* ===== verification/MrMaster.v ===== *)
(** * MapReduce: the master

    [src/6.824/src/mr/master.go] with the types of [rpc.go], [common.go] and [state.go]:
    the task table, the queue of free tasks, the phases, and the RPC handlers that hand
    tasks out and take reports.  Times are nanoseconds; [now] is the clock. *)
From S2P Require Import Prelude.

(** Task states and reply states ([state.go]). *)
Definition IDLE : Z := 0.
Definition IN_QUEUE : Z := 1.
Definition IN_PROGRESS : Z := 2.
Definition COMPLETED : Z := 3.
Definition GOT : Z := 0.
Definition BARRIER : Z := 1.
Definition FIN : Z := 2.

Record TaskState := MkTaskState { Status : Z; WorkerId : Z; StartTime : Z }.
#[export] Instance TaskState_eta : Eta TaskState := λ t,
  MkTaskState (Status t) (WorkerId t) (StartTime t).

Record Task := MkTask {
  TDone : bool; Phase : string; FileName : string;
  Imap : Z; IReduce : Z; NMap : Z; NReduce : Z
}.
#[export] Instance Task_eq_dec : EqDecision Task.
Proof. solve_decision. Defined.

(** [reply.Task] is a pointer that stays nil when no task is handed out. *)
Record TaskReply := MkTaskReply { TaskReplyState : Z; reply_Task : option Task }.

Record Master := MkMaster {
  nTask : Z;
  nReduce : Z;
  allTask : list TaskState;
  files : list string;
  seq : Z;
  freeTaskQueue : list Task;
  phase : string
}.
#[export] Instance Master_eta : Eta Master := λ m,
  MkMaster (nTask m) (nReduce m) (allTask m) (files m) (seq m) (freeTaskQueue m) (phase m).

Definition NewMaster (now : Z) (fs : list string) (nReduce : Z) : Master :=
  MkMaster (len fs) nReduce (replicate (length fs) (MkTaskState IDLE (-1) now)) fs 0 [] "map".

Definition Done (m : Master) : bool := bool_decide (phase m = "fin"%string).

(** [strings.Contains(s, sub)]. *)
Fixpoint contains (sub s : string) : bool :=
  String.prefix sub s || match s with String _ s => contains sub s | EmptyString => false end.

Definition set_status (i st : Z) (m : Master) : option Master :=
  t ← (allTask m).[i];
  l ← slice_set (allTask m) i (t <| Status := st |>);
  Some (m <| allTask := l |>).

(** The first tests are made before the mutex is taken; [seen] is the phase they find,
    which need not be the one found under the mutex. *)
Definition ReqTask (seen : string) (m : Master) : option (Master * TaskReply) :=
  if bool_decide (seen = "map_barrier"%string) || bool_decide (seen = "reduce_barrier"%string)
  then Some (m, MkTaskReply BARRIER None)
  else if bool_decide (seen = "fin"%string) then Some (m, MkTaskReply FIN None)
  else if bool_decide (phase m = "map"%string) || bool_decide (phase m = "reduce"%string) then
    match freeTaskQueue m with
    | [] => Some (m, MkTaskReply 0 None)
    | task :: queue =>
        let m := m <| freeTaskQueue := queue |> in
        m ← (if bool_decide (phase m = "map"%string) then set_status (Imap task) IN_PROGRESS m
             else set_status (IReduce task) IN_PROGRESS m);
        Some (m, MkTaskReply GOT (Some task))
    end
  else Some (m, MkTaskReply 0 None).

Definition WorkerRegister (m : Master) : Master * Z := (m <| seq := seq m + 1 |>, seq m).

(** [ReportTask] up to the [schedule] it starts in a goroutine. *)
Definition ReportTask (task : Task) (m : Master) : option Master :=
  m ← (if contains "map" (Phase task) then set_status (Imap task) COMPLETED m else Some m);
  if contains "reduce" (Phase task) then set_status (IReduce task) COMPLETED m else Some m.

Definition getTask (i : Z) (m : Master) : option Task :=
  if contains "map" (phase m) then
    f ← (files m).[i]; Some (MkTask false "map" f i (-1) (nTask m) (nReduce m))
  else Some (MkTask false "reduce" "" (-1) i (nTask m) (nReduce m)).

(** More than 10 seconds since the start time. *)
Definition late (now : Z) (t : TaskState) : bool := now - StartTime t >? 10 * 1000000000.

(** Appends task [i] to the queue and marks it. *)
Definition enqueue (i : Z) (m : Master) : option Master :=
  task ← getTask i m;
  set_status i IN_QUEUE (m <| freeTaskQueue := freeTaskQueue m ++ [task] |>).

(** The body of each of the four loops of [schedule], on the state and the boolean flag
    ([barrier] or [allComplete]). *)
Definition map_body (i : Z) (t : TaskState) (s : Master * bool) : option (Master * bool) :=
  let '(m, barrier) := s in
  if Status t =? IDLE then m ← enqueue i m; Some (m, false)
  else if Status t =? IN_QUEUE then Some (m, false)
  else Some (m, barrier).

Definition barrier_body (next : string) (now i : Z) (t : TaskState) (s : Master * bool) :
    option (Master * bool) :=
  let '(m, allComplete) := s in
  m ← (if (Status t =? IN_PROGRESS) && late now t then
         m ← enqueue i m; Some (m <| phase := next |>)
       else Some m);
  Some (m, if Status t =? COMPLETED then allComplete else false).

Definition reduce_body (now i : Z) (t : TaskState) (s : Master * bool) : option (Master * bool) :=
  let '(m, barrier) := s in
  if Status t =? IDLE then m ← enqueue i m; Some (m, false)
  else if Status t =? IN_QUEUE then Some (m, false)
  else if (Status t =? IN_PROGRESS) && late now t then m ← enqueue i m; Some (m, barrier)
  else Some (m, barrier).

(** [for i, t := range allTask]: the slice is fixed when the loop starts, and iteration
    [i] writes only element [i], so each [t] is the element found at the start. *)
Fixpoint range_tasks (body : Z → TaskState → Master * bool → option (Master * bool))
    (i : Z) (ts : list TaskState) (s : Master * bool) : option (Master * bool) :=
  match ts with
  | [] => Some s
  | t :: ts => s ← body i t s; range_tasks body (i + 1) ts s
  end.

(** [schedule] from its [Lock] to its [Unlock]; the boolean says that it then calls
    itself. *)
Definition schedule_once (now : Z) (m : Master) : option (Master * bool) :=
  if bool_decide (phase m = "map"%string) then
    '(m, barrier) ← range_tasks map_body 0 (allTask m) (m, true);
    Some (if (barrier : bool) then m <| phase := "map_barrier" |> else m, false)
  else if bool_decide (phase m = "map_barrier"%string) then
    '(m, allComplete) ← range_tasks (barrier_body "map" now) 0 (allTask m) (m, true);
    if (allComplete : bool) then
      let m := m <| phase := "reduce" |> <| freeTaskQueue := [] |> in
      ts ← make_slice (nReduce m) (MkTaskState IDLE (-1) now);
      Some (m <| allTask := ts |>, true)
    else Some (m, false)
  else if bool_decide (phase m = "reduce"%string) then
    '(m, barrier) ← range_tasks (reduce_body now) 0 (allTask m) (m, true);
    Some (if (barrier : bool) then m <| phase := "reduce_barrier" |> else m, false)
  else if bool_decide (phase m = "reduce_barrier"%string) then
    '(m, allComplete) ← range_tasks (barrier_body "reduce" now) 0 (allTask m) (m, true);
    Some (if (allComplete : bool) then m <| phase := "fin" |> else m, false)
  else Some (m, false).

(** [schedule] with no one else in between; [fuel] bounds the nesting. *)
Fixpoint schedule_fuel (fuel : nat) (now : Z) (m : Master) : option Master :=
  match fuel with
  | O => None
  | S fuel =>
      '(m, again) ← schedule_once now m;
      if (again : bool) then schedule_fuel fuel now m else Some m
  end.

Definition schedule (now : Z) (m : Master) : option Master := schedule_fuel 2 now m.

(** One turn of the loop of [TickSchedule], and [MakeMaster] up to its goroutines. *)
Definition TickSchedule_step (now : Z) (m : Master) : option Master :=
  if Done m then Some m else schedule now m.
Definition MakeMaster (now : Z) (fs : list string) (nReduce : Z) : Master := NewMaster now fs nReduce.

(** ** The master's steps

    [issued] and [reported] are history: the tasks handed out, and those reported back
    with the master's phase at that time.  A worker reports a task it was given, at any
    time and any number of times.  A request may act on a phase read at any time, and
    between a [schedule] and the one it calls anything may happen. *)
Record MasterRun := MkRun {
  mr_master : Master; issued : list Task; reported : list (string * Task)
}.

Inductive master_step : MasterRun → MasterRun → Prop :=
  | step_request seen m m' r ts rs :
      ReqTask seen m = Some (m', r) →
      master_step (MkRun m ts rs) (MkRun m' (ts ++ option_list (reply_Task r)) rs)
  | step_report m m' task ts rs :
      task ∈ ts → ReportTask task m = Some m' →
      master_step (MkRun m ts rs) (MkRun m' ts (rs ++ [(phase m, task)]))
  | step_schedule m m' now again ts rs :
      schedule_once now m = Some (m', again) → master_step (MkRun m ts rs) (MkRun m' ts rs)
  | step_register m ts rs :
      master_step (MkRun m ts rs) (MkRun (WorkerRegister m).1 ts rs).

Definition master_reachable (now : Z) (fs : list string) (nReduce : Z) (r : MasterRun) : Prop :=
  rtc master_step (MkRun (NewMaster now fs nReduce) [] []) r.

(** In the map phase, or in the reduce phase or after it. *)
Definition is_mapping (p : string) : Prop := p = "map"%string ∨ p = "map_barrier"%string.
Definition is_reducing (p : string) : Prop :=
  p = "reduce"%string ∨ p = "reduce_barrier"%string ∨ p = "fin"%string.

(** Some worker reported map task [i]; some worker reported, once the reduce phase had
    begun, reduce task [i] or a task whose map index is [i]. *)
Definition map_reported (i : Z) (rs : list (string * Task)) : Prop :=
  ∃ p task, (p, task) ∈ rs ∧ Phase task = "map"%string ∧ Imap task = i.
Definition reduce_reported (i : Z) (rs : list (string * Task)) : Prop :=
  ∃ p task, (p, task) ∈ rs ∧ is_reducing p
    ∧ (Phase task = "reduce"%string ∧ IReduce task = i ∨ Phase task = "map"%string ∧ Imap task = i).

(** ** Lemmas *)

Definition is_task (t : Task) : Prop := Phase t = "map"%string ∨ Phase t = "reduce"%string.

(** Each entry of the table that is [COMPLETED] satisfies [R]. *)
Definition completed_by (R : Z → Prop) (m : Master) : Prop :=
  ∀ i t, (allTask m).[i] = Some t → Status t = COMPLETED → R i.

(** The loop invariant of [schedule]: only the table's statuses, the queue and the phase
    change, and no task becomes [COMPLETED]. *)
Record sched_inv (Q : Task → Prop) (R : Z → Prop) (m0 m : Master) : Prop := {
  sc_nTask : nTask m = nTask m0;
  sc_nReduce : nReduce m = nReduce m0;
  sc_len : length (allTask m) = length (allTask m0);
  sc_queue : Forall Q (freeTaskQueue m);
  sc_completed : completed_by R m
}.

Lemma set_status_spec i st m m' :
  set_status i st m = Some m' →
  ∃ l t, m' = m <| allTask := l |> ∧ length l = length (allTask m) ∧ l.[i] = Some t ∧ Status t = st
  ∧ ∀ j, j ≠ i → l.[j] = (allTask m).[j].
Proof.
  unfold set_status. destruct ((allTask m).[i]) as [t|]; simpl; [|done].
  destruct (slice_set _ _ _) as [l|] eqn:Hl; simpl; [|done]. intros [= <-].
  exists l, (t <| Status := st |>). split_and!; [done|by eapply slice_set_length|
    by eapply slice_get_set_eq|done|].
  intros j Hj. eapply slice_get_set_ne; [done|congruence].
Qed.

Lemma completed_set R i st m m' :
  set_status i st m = Some m' → (st = COMPLETED → R i) → completed_by R m → completed_by R m'.
Proof.
  intros (l & t & -> & _ & Hi & Ht & Hne)%set_status_spec HR Hc j u Hj Hu. simpl in Hj.
  destruct (decide (j = i)) as [->|Hji].
  - assert (u = t) as -> by congruence. apply HR. congruence.
  - rewrite Hne in Hj by done. by eapply Hc.
Qed.

(** Which phase's tasks [getTask] makes. *)
Lemma getTask_phase i m task :
  getTask i m = Some task →
  (is_mapping (phase m) → Phase task = "map"%string)
  ∧ (is_reducing (phase m) → Phase task = "reduce"%string).
Proof.
  unfold getTask, is_mapping, is_reducing. intros Hg. split.
  - intros [Hp|Hp]; rewrite Hp in Hg; simpl in Hg;
      (destruct ((files m).[i]); simpl in Hg; [by simplify_eq|done]).
  - intros [Hp|[Hp|Hp]]; rewrite Hp in Hg; simpl in Hg; by simplify_eq.
Qed.

Lemma enqueue_inv Q R m0 i m m' :
  (∀ task, getTask i m = Some task → Q task) → enqueue i m = Some m' →
  sched_inv Q R m0 m → sched_inv Q R m0 m' ∧ phase m' = phase m.
Proof.
  intros HQ. unfold enqueue. destruct (getTask i m) as [task|]; simpl; [|done].
  intros Hs [Hn Hr Hl Hq Hc].
  assert (completed_by R m') as Hc' by (eapply completed_set; [exact Hs|done|exact Hc]).
  apply set_status_spec in Hs as (l & t & -> & Hll & _). split; [|done].
  constructor; simpl in *; [done|done|congruence| |done].
  apply Forall_app. split; [done|]. apply Forall_singleton. by apply HQ.
Qed.

(** Properties kept by a loop body are kept by the loop. *)
Lemma range_tasks_ind (P : Master → Prop) body i ts m b m' b' :
  (∀ i t m b m' b', body i t (m, b) = Some (m', b') → P m → P m') →
  range_tasks body i ts (m, b) = Some (m', b') → P m → P m'.
Proof.
  intros Hb. revert i m b. induction ts as [|t ts IH]; intros i m b; simpl; [by intros [= <- <-]|].
  destruct (body i t (m, b)) as [[m1 b1]|] eqn:He; simpl; [|done]. intros Hr Hm. eauto.
Qed.

Lemma all_complete next now i ts m b m' :
  range_tasks (barrier_body next now) i ts (m, b) = Some (m', true) →
  b = true ∧ Forall (λ t, Status t = COMPLETED) ts.
Proof.
  revert i m b. induction ts as [|t ts IH]; intros i m b; simpl; [by intros [= <- ->]|].
  destruct (if _ && _ then _ else _) as [m1|]; simpl; [|done]. intros Hr.
  apply IH in Hr as [Hb Hts]. destruct (Z.eqb_spec (Status t) COMPLETED); [|done].
  split; [done|by constructor].
Qed.

Section bodies.
Context (m0 : Master) (R : Z → Prop).
Let inv Q p m := (phase m = p) ∧ sched_inv Q R m0 m.
Let is_map t := Phase t = "map"%string.
Let is_reduce t := Phase t = "reduce"%string.

Lemma enqueue_map i m m' p :
  is_mapping p → enqueue i m = Some m' → inv is_map p m → inv is_map p m'.
Proof.
  intros Hmp He [Hp Hs]. apply (enqueue_inv is_map R m0) in He as [? Hp'];
    [|intros task Ht; apply (getTask_phase i m task Ht); by rewrite Hp|done].
  split; [congruence|done].
Qed.

Lemma enqueue_reduce i m m' p :
  is_reducing p → enqueue i m = Some m' → inv is_reduce p m → inv is_reduce p m'.
Proof.
  intros Hmp He [Hp Hs]. apply (enqueue_inv is_reduce R m0) in He as [? Hp'];
    [|intros task Ht; apply (getTask_phase i m task Ht); by rewrite Hp|done].
  split; [congruence|done].
Qed.

Lemma map_body_inv i t m b m' b' p :
  is_mapping p → map_body i t (m, b) = Some (m', b') → inv is_map p m → inv is_map p m'.
Proof.
  intros Hp. unfold map_body. destruct (_ =? IDLE).
  - destruct (enqueue i m) as [m1|] eqn:He; simpl; [|done]. intros [= <- <-]. by eapply enqueue_map.
  - destruct (_ =? IN_QUEUE); by intros [= <- <-].
Qed.

Lemma reduce_body_inv now i t m b m' b' p :
  is_reducing p → reduce_body now i t (m, b) = Some (m', b') → inv is_reduce p m → inv is_reduce p m'.
Proof.
  intros Hp. unfold reduce_body. destruct (_ =? IDLE).
  { destruct (enqueue i m) as [m1|] eqn:He; simpl; [|done]. intros [= <- <-]. by eapply enqueue_reduce. }
  destruct (_ =? IN_QUEUE); [by intros [= <- <-]|]. destruct (_ && _); [|by intros [= <- <-]].
  destruct (enqueue i m) as [m1|] eqn:He; simpl; [|done]. intros [= <- <-]. by eapply enqueue_reduce.
Qed.

(** In a barrier loop the phase may go back to [next]. *)
Lemma barrier_body_inv Q next now p i t m b m' b' :
  (∀ q i m m', q = p ∨ q = next → enqueue i m = Some m' → inv Q q m → inv Q q m') →
  barrier_body next now i t (m, b) = Some (m', b') →
  inv Q p m ∨ inv Q next m → inv Q p m' ∨ inv Q next m'.
Proof.
  intros HQ. unfold barrier_body. destruct (_ && _); simpl; [|by intros [= <- <-]].
  destruct (enqueue i m) as [m1|] eqn:He; simpl; [|done]. intros [= <- <-] Hm. right.
  assert (inv Q p m1 ∨ inv Q next m1) as Hm1.
  { destruct Hm as [Hm|Hm]; [left; apply (HQ p i m)|right; apply (HQ next i m)]; auto. }
  assert (sched_inv Q R m0 m1) as [? ? ? ? ?] by (by destruct Hm1 as [[_ ?]|[_ ?]]).
  split; [done|by constructor].
Qed.

End bodies.

(** ** The invariant of a run *)
Record run_inv (n k : Z) (r : MasterRun) : Prop := {
  ri_issued : Forall is_task (issued r);
  ri_nTask : nTask (mr_master r) = n;
  ri_nReduce : nReduce (mr_master r) = k;
  ri_phase : (is_mapping (phase (mr_master r))
      ∧ Forall (λ t, Phase t = "map"%string) (issued r)
      ∧ Forall (λ t, Phase t = "map"%string) (freeTaskQueue (mr_master r))
      ∧ len (allTask (mr_master r)) = n
      ∧ completed_by (λ i, map_reported i (reported r)) (mr_master r))
    ∨ (is_reducing (phase (mr_master r))
      ∧ Forall (λ t, Phase t = "reduce"%string) (freeTaskQueue (mr_master r))
      ∧ (∀ i, 0 ≤ i < n → map_reported i (reported r))
      ∧ len (allTask (mr_master r)) = Z.max 0 k
      ∧ (completed_by (λ i, reduce_reported i (reported r)) (mr_master r))
      ∧ (phase (mr_master r) = "fin"%string → ∀ i, 0 ≤ i < k → reduce_reported i (reported r)))
}.

(** One call of [schedule] whose phase is past the map phase. *)
Lemma schedule_reducing now m m' again R :
  is_reducing (phase m) → Forall (λ t, Phase t = "reduce"%string) (freeTaskQueue m) → completed_by R m →
  schedule_once now m = Some (m', again) →
  again = false ∧ is_reducing (phase m') ∧ sched_inv (λ t, Phase t = "reduce"%string) R m m'
  ∧ (phase m' = "fin"%string → phase m = "fin"%string
     ∨ phase m = "reduce_barrier"%string ∧ ∀ i, 0 ≤ i < len (allTask m) → R i).
Proof.
  intros Hp Hq Hc. unfold schedule_once.
  assert (sched_inv (λ t, Phase t = "reduce"%string) R m m) as Hm by (by constructor).
  destruct Hp as [Hp|[Hp|Hp]]; rewrite Hp; simpl.
  - destruct (range_tasks _ _ _ _) as [[m1 b]|] eqn:Hr; simpl; [|done]. intros [= <- <-]. split; [done|].
    apply (range_tasks_ind (λ m', phase m' = "reduce"%string ∧ sched_inv (λ t, Phase t = "reduce"%string) R m m')) in Hr
      as [Hp1 Hs1]; [|intros; eapply reduce_body_inv; [by left|done|done]|done].
    destruct b; [destruct Hs1; split_and!; [right; by left|by constructor|done]|].
    split_and!; [by left|done|]. intros Hf. by rewrite Hp1 in Hf.
  - destruct (range_tasks _ _ _ _) as [[m1 b]|] eqn:Hr; simpl; [|done]. intros [= <- <-]. split; [done|].
    pose proof Hr as Hr'.
    apply (range_tasks_ind (λ m', (phase m' = "reduce_barrier"%string ∧ sched_inv (λ t, Phase t = "reduce"%string) R m m')
      ∨ (phase m' = "reduce"%string ∧ sched_inv (λ t, Phase t = "reduce"%string) R m m'))) in Hr.
    + assert (sched_inv (λ t, Phase t = "reduce"%string) R m m1 ∧ (phase m1 = "reduce_barrier"%string ∨ phase m1 = "reduce"%string))
        as [Hs1 Hp1] by tauto.
      destruct b.
      * apply all_complete in Hr' as [_ Hall]. destruct Hs1.
        split_and!; [by right; right|by constructor|]. intros _. right. split; [done|]. intros i Hi.
        destruct (slice_get_lt (allTask m) i Hi) as [t Ht]. apply (Hc i t Ht).
        rewrite list.Forall_forall in Hall. apply Hall. by eapply slice_get_elem.
      * split_and!; [destruct Hp1; [right; by left|by left]|done|].
        intros Hf. destruct Hp1; congruence.
    + intros i t ma ba mb bb Hb. eapply barrier_body_inv; [|exact Hb].
      intros q j mc md [-> | ->]; apply enqueue_reduce; [right; by left|by left].
    + by left.
  - intros [= <- <-]. split; [done|]. split_and!; [by right; right|done|by left].
Qed.

(** One call of [schedule] in the map phase: it stays there, or every task of the table
    was complete, a fresh table of reduce tasks is made and it calls itself. *)
Lemma schedule_mapping now m m' again R :
  is_mapping (phase m) → Forall (λ t, Phase t = "map"%string) (freeTaskQueue m) → completed_by R m →
  schedule_once now m = Some (m', again) →
  (again = false ∧ is_mapping (phase m') ∧ sched_inv (λ t, Phase t = "map"%string) R m m')
  ∨ (again = true ∧ (∀ i, 0 ≤ i < len (allTask m) → R i) ∧ phase m' = "reduce"%string
     ∧ nTask m' = nTask m ∧ nReduce m' = nReduce m ∧ len (allTask m') = Z.max 0 (nReduce m)
     ∧ freeTaskQueue m' = [] ∧ completed_by (λ _, False) m').
Proof.
  intros Hp Hq Hc. unfold schedule_once.
  assert (sched_inv (λ t, Phase t = "map"%string) R m m) as Hm by (by constructor).
  destruct Hp as [Hp|Hp]; simpl; rewrite Hp; simpl.
  - destruct (range_tasks _ _ _ _) as [[m1 b]|] eqn:Hr; simpl; [|done]. intros [= <- <-]. left. split; [done|].
    apply (range_tasks_ind (λ m', phase m' = "map"%string
      ∧ sched_inv (λ t, Phase t = "map"%string) R m m')) in Hr as [Hp1 Hs1];
      [|intros; eapply map_body_inv; [by left|done|done]|done].
    destruct b; [|split; [by left|done]]. destruct Hs1. split; [by right|by constructor].
  - destruct (range_tasks _ _ _ _) as [[m1 b]|] eqn:Hr; cbn [mbind option_bind]; [|done].
    pose proof Hr as Hr'.
    apply (range_tasks_ind (λ m', (phase m' = "map_barrier"%string
        ∧ sched_inv (λ t, Phase t = "map"%string) R m m')
      ∨ (phase m' = "map"%string ∧ sched_inv (λ t, Phase t = "map"%string) R m m'))) in Hr;
      [| |by left].
    2:{ intros i t ma ba mb bb Hb. eapply barrier_body_inv; [|exact Hb].
        intros q j mc md [-> | ->]; apply enqueue_map; [by right|by left]. }
    assert (sched_inv (λ t, Phase t = "map"%string) R m m1
      ∧ (phase m1 = "map_barrier"%string ∨ phase m1 = "map"%string)) as [Hs1 Hp1] by tauto.
    destruct b; [|intros [= <- <-]; left; split_and!; [done|destruct Hp1; [by right|by left]|done]].
    apply all_complete in Hr' as [_ Hall]. destruct Hs1 as [Hn Hk _ _ _]. simpl.
    unfold make_slice. destruct (Z.leb_spec 0 (nReduce m1)) as [Hpos|]; cbn [mbind option_bind]; [|done].
    intros [= <- <-]. right. simpl. split_and!; try done.
    + intros i Hi. destruct (slice_get_lt (allTask m) i Hi) as [t Ht]. apply (Hc i t Ht).
      rewrite list.Forall_forall in Hall. apply Hall. by eapply slice_get_elem.
    + rewrite length_replicate, <- Hk. lia.
    + intros i t Hi Ht. simpl in Hi. apply slice_get_elem, elem_of_replicate in Hi as [-> _]. done.
Qed.

Lemma completed_mono (R R' : Z → Prop) m :
  (∀ i, R i → R' i) → completed_by R m → completed_by R' m.
Proof. intros HR Hc i t Hi Ht. eauto. Qed.

Lemma map_reported_app i rs rs' : map_reported i rs → map_reported i (rs ++ rs').
Proof. intros (p & t & Hin & ?). exists p, t. split; [set_solver|done]. Qed.
Lemma reduce_reported_app i rs rs' : reduce_reported i rs → reduce_reported i (rs ++ rs').
Proof. intros (p & t & Hin & ?). exists p, t. split; [set_solver|done]. Qed.

(** What handing out a task changes. *)
Lemma ReqTask_spec seen m m' r :
  ReqTask seen m = Some (m', r) →
  nTask m' = nTask m ∧ nReduce m' = nReduce m ∧ phase m' = phase m
  ∧ length (allTask m') = length (allTask m)
  ∧ freeTaskQueue m = option_list (reply_Task r) ++ freeTaskQueue m'
  ∧ ∀ R, completed_by R m → completed_by R m'.
Proof.
  unfold ReqTask. destruct (_ || _); [by intros [= <- <-]|].
  destruct (bool_decide (seen = "fin"%string)); [by intros [= <- <-]|].
  destruct (_ || _); [|by intros [= <- <-]].
  destruct (freeTaskQueue m) as [|task queue] eqn:Hq; [by intros [= <- <-]; rewrite Hq|].
  set (m1 := m <| freeTaskQueue := queue |>).
  destruct (if bool_decide _ then _ else _) as [m2|] eqn:Hs; simpl; [|done]. intros [= <- <-].
  assert (∃ i, set_status i IN_PROGRESS m1 = Some m2) as [i Hi] by (destruct (bool_decide _); eauto).
  pose proof Hi as (l & t & -> & Hl & _)%set_status_spec. simpl. split_and!; try done.
  intros R HR. eapply completed_set; [exact Hi|done|exact HR].
Qed.

(** What a report changes: the status of the task's own index. *)
Lemma ReportTask_spec task m m' :
  is_task task → ReportTask task m = Some m' →
  ∃ i, (Phase task = "map"%string ∧ Imap task = i ∨ Phase task = "reduce"%string ∧ IReduce task = i)
  ∧ set_status i COMPLETED m = Some m'.
Proof.
  unfold ReportTask. intros [Hp|Hp]; rewrite Hp; simpl.
  - destruct (set_status (Imap task) COMPLETED m) eqn:Hs; simpl; [|done]. intros [= <-]. eauto.
  - intros Hs. eauto.
Qed.

Lemma run_inv_step n k r r' : run_inv n k r → master_step r r' → run_inv n k r'.
Proof.
  intros [Hiss Hn Hk Hph] Hstep.
  destruct Hstep as [seen m m' rep ts rs Hr|m m' task ts rs Hin Hr|m m' now again ts rs Hs|m ts rs]; simpl in *.
  - apply ReqTask_spec in Hr as (Hn' & Hk' & Hp' & Hl' & Hq' & Hc'). constructor; simpl.
    + apply Forall_app. split; [done|].
      destruct Hph as [(_ & _ & Hq & _)|(_ & Hq & _)]; rewrite Hq' in Hq;
        apply Forall_app in Hq as [Hq _]; (eapply list.Forall_impl; [exact Hq|]); [by left|by right].
    + congruence.
    + congruence.
    + destruct Hph as [(Hp & Hi & Hq & Hl & Hc)|(Hp & Hq & Hm & Hl & Hc & Hf)];
        rewrite Hq' in Hq; apply Forall_app in Hq as [Hq1 Hq2]; [left|right]; rewrite Hp', Hl'.
      * split_and!; [done|by apply Forall_app|done|done|by apply Hc'].
      * split_and!; [done|done|done|done|by apply Hc'|done].
  - rewrite list.Forall_forall in Hiss. pose proof (Hiss task Hin) as Ht.
    apply (ReportTask_spec task m m' Ht) in Hr as (i & Hti & Hs).
    pose proof Hs as (l & t & -> & Hl' & _)%set_status_spec. constructor; simpl; try done.
    { by rewrite list.Forall_forall. }
    destruct Hph as [(Hp & Hi & Hq & Hl & Hc)|(Hp & Hq & Hm & Hl & Hc & Hf)]; [left|right];
      (split_and!; try done; try congruence).
    + eapply completed_set; [exact Hs|intros _|eapply completed_mono; [|exact Hc];
        intros; by apply map_reported_app].
      rewrite list.Forall_forall in Hi. specialize (Hi task Hin). exists (phase m), task.
      split_and!; [set_solver|done|]. destruct Hti as [[_ ?]|[Hr _]]; [done|congruence].
    + intros j Hj. by apply map_reported_app, Hm.
    + eapply completed_set; [exact Hs|intros _|eapply completed_mono; [|exact Hc];
        intros; by apply reduce_reported_app].
      exists (phase m), task. split_and!; [set_solver|done|tauto].
    + intros Hfin j Hj. by apply reduce_reported_app, Hf.
  - destruct Hph as [(Hp & Hi & Hq & Hl & Hc)|(Hp & Hq & Hm & Hl & Hc & Hf)].
    + destruct (schedule_mapping now m m' again _ Hp Hq Hc Hs)
        as [(_ & Hp' & [Sn Sk Sl Sq Sc])|(_ & Hall & Hp' & Sn & Sk & Sl & Sq & Sc)].
      * constructor; simpl; [done|congruence|congruence|]. left. split_and!; try done. congruence.
      * constructor; simpl; [done|congruence|congruence|]. right. rewrite Hp', Sq.
        split_and!; [by left|constructor| |congruence| |done].
        -- intros i Hi'. apply Hall. lia.
        -- eapply completed_mono; [|exact Sc]. done.
    + destruct (schedule_reducing now m m' again _ Hp Hq Hc Hs) as (_ & Hp' & [Sn Sk Sl Sq Sc] & Hf').
      constructor; simpl; [done|congruence|congruence|]. right. split_and!; try done; [congruence|].
      intros Hfin i Hi'. destruct (Hf' Hfin) as [?|[_ Hall]]; [by apply Hf|]. apply Hall. lia.
  - constructor; simpl; done.
Qed.

Lemma run_inv_reachable now fs k r : master_reachable now fs k r → run_inv (len fs) k r.
Proof.
  unfold master_reachable. intros Hr.
  assert (run_inv (len fs) k (MkRun (NewMaster now fs k) [] [])) as Hi.
  { constructor; simpl; [constructor|done|done|]. left.
    split_and!; [by left|constructor|constructor|by rewrite length_replicate|].
    intros i t Hi Ht. simpl in Hi. by apply slice_get_elem, elem_of_replicate in Hi as [-> _]. }
  revert Hi. induction Hr as [|x y z Hxy _ IH]; [done|]. intros Hi. apply IH. by eapply run_inv_step.
Qed.

(** *** [schedule] returns *)
Section total.
Context (F : list string) (k : Z).

(** A state whose loops stay in range. *)
Definition in_range (L : Z) (m : Master) : Prop :=
  len (allTask m) = L ∧ files m = F ∧ nReduce m = k ∧ (contains "map" (phase m) = true → L ≤ len F).

Lemma enqueue_total L i m :
  in_range L m → 0 ≤ i < L → ∃ m', enqueue i m = Some m' ∧ in_range L m'.
Proof.
  intros (Hl & Hf & Hk & Hm) Hi. unfold enqueue, getTask.
  assert (∀ task, ∃ m', set_status i IN_QUEUE (m <| freeTaskQueue := freeTaskQueue m ++ [task] |>) = Some m'
    ∧ in_range L m') as Hs.
  { intros task. unfold set_status. simpl. destruct (slice_get_lt (allTask m) i) as [t Ht]; [lia|].
    rewrite Ht. simpl. rewrite slice_set_lt by lia. simpl. eexists. split; [done|].
    unfold in_range. simpl. rewrite length_insert. done. }
  destruct (contains "map" (phase m)); simpl; [|apply Hs].
  destruct (slice_get_lt (files m) i) as [f Hfi]; [rewrite Hf; lia|]. rewrite Hfi. apply Hs.
Qed.

Lemma range_total L body ts i m b :
  (∀ i t m b, in_range L m → 0 ≤ i < L → ∃ m' b', body i t (m, b) = Some (m', b') ∧ in_range L m') →
  in_range L m → 0 ≤ i → i + len ts ≤ L →
  ∃ m' b', range_tasks body i ts (m, b) = Some (m', b') ∧ in_range L m'.
Proof.
  intros Hb. revert i m b. induction ts as [|t ts IH]; intros i m b Hm Hi Hl; simpl; [by exists m, b|].
  simpl in Hl. destruct (Hb i t m b Hm) as (m1 & b1 & -> & Hm1); [lia|]. simpl. apply IH; [done|lia|lia].
Qed.

Lemma map_body_total L i t m b :
  in_range L m → 0 ≤ i < L → ∃ m' b', map_body i t (m, b) = Some (m', b') ∧ in_range L m'.
Proof.
  intros Hm Hi. unfold map_body. destruct (_ =? IDLE); [|destruct (_ =? IN_QUEUE); by eexists _, _].
  destruct (enqueue_total L i m Hm Hi) as (m' & -> & ?). by eexists _, _.
Qed.

Lemma reduce_body_total now L i t m b :
  in_range L m → 0 ≤ i < L → ∃ m' b', reduce_body now i t (m, b) = Some (m', b') ∧ in_range L m'.
Proof.
  intros Hm Hi. destruct (enqueue_total L i m Hm Hi) as (m' & He & ?). unfold reduce_body. rewrite He.
  destruct (_ =? IDLE); [by eexists _, _|]. destruct (_ =? IN_QUEUE); [by eexists _, _|].
  destruct (_ && _); by eexists _, _.
Qed.

Lemma barrier_body_total next now L i t m b :
  (contains "map" next = true → L ≤ len F) →
  in_range L m → 0 ≤ i < L →
  ∃ m' b', barrier_body next now i t (m, b) = Some (m', b') ∧ in_range L m'.
Proof.
  intros Hnext Hm Hi. destruct (enqueue_total L i m Hm Hi) as (m' & He & Hm').
  unfold barrier_body. rewrite He. destruct (_ && _); simpl; [|by eexists _, _].
  eexists _, _. split; [done|]. destruct Hm' as (? & ? & ? & ?). by unfold in_range.
Qed.

End total.

(** One section of [schedule] returns, and asks for another only at the end of the map
    phase. *)
Lemma schedule_once_total now m :
  0 ≤ nReduce m → (contains "map" (phase m) = true → len (allTask m) ≤ len (files m)) →
  ∃ m' again, schedule_once now m = Some (m', again)
  ∧ (again = true → phase m' = "reduce"%string ∧ 0 ≤ nReduce m').
Proof.
  intros Hk Hfiles. set (L := len (allTask m)).
  assert (in_range (files m) (nReduce m) L m) as Hm by done. unfold schedule_once.
  case_bool_decide as Hp1.
  { destruct (range_total _ _ _ map_body (allTask m) 0 m true (map_body_total _ _ _) Hm)
      as (m2 & b & -> & _); [done|unfold L; lia|]. simpl. by eexists _, _. }
  case_bool_decide as Hp2.
  { destruct (range_total _ _ _ (barrier_body "map" now) (allTask m) 0 m true
      (λ i t m b, barrier_body_total _ _ "map" now L i t m b ltac:(intros _; apply Hfiles; by rewrite Hp2)) Hm)
      as (m2 & b & -> & (_ & _ & Hk2 & _)); [done|unfold L; lia|]. cbn [mbind option_bind].
    destruct b; [|by eexists _, _]. cbn zeta. rewrite make_slice_nonneg by (simpl; lia). cbn [mbind option_bind].
    eexists _, _. split; [done|]. intros _. simpl. split; [done|lia]. }
  case_bool_decide as Hp4.
  { destruct (range_total _ _ _ (reduce_body now) (allTask m) 0 m true (reduce_body_total _ _ now _) Hm)
      as (m2 & b & -> & _); [done|unfold L; lia|]. simpl. by eexists _, _. }
  case_bool_decide as Hp3; [|by eexists _, _].
  destruct (range_total _ _ _ (barrier_body "reduce" now) (allTask m) 0 m true
    (λ i t m b, barrier_body_total _ _ "reduce" now L i t m b ltac:(done)) Hm)
    as (m2 & b & -> & _); [done|unfold L; lia|]. simpl. by eexists _, _.
Qed.

(** ** Properties *)

(** C26. Reducing waits for mapping: in every reachable run, whatever the order of
    requests, schedules, reports and repeated reports and however the clock runs, the
    master leaves the map phase only after every map task has been reported by a worker
    it was given to. *)
Theorem reduce_waits_for_maps now fs k r :
  master_reachable now fs k r → ¬ is_mapping (phase (mr_master r)) →
  is_reducing (phase (mr_master r)) ∧ ∀ i, 0 ≤ i < len fs → map_reported i (reported r).
Proof.
  intros Hr Hp. destruct (run_inv_reachable _ _ _ _ Hr) as [_ _ _ [(? & _)|(? & _ & Hm & _)]]; [done|].
  done.
Qed.

(** The job ends only after reports: when the master is done, for each reduce task
    some report came in during the reduce phase, of that task or else of a map task with
    the same number. *)
Theorem done_after_reports now fs k r :
  master_reachable now fs k r → Done (mr_master r) = true →
  (∀ i, 0 ≤ i < len fs → map_reported i (reported r))
  ∧ ∀ i, 0 ≤ i < k → reduce_reported i (reported r).
Proof.
  intros Hr Hd. apply bool_decide_eq_true in Hd.
  destruct (run_inv_reachable _ _ _ _ Hr) as [_ _ _ [([Hp|Hp] & _)|(_ & _ & Hm & _ & _ & Hf)]];
    [congruence|congruence|]. split; [done|by apply Hf].
Qed.

(** [schedule] always returns: with a table no longer than the list of files during the
    map phase, no loop of one of its sections indexes out of range, and it calls itself
    only to schedule the reduce tasks, so the nesting ends there, for every clock value. *)
Theorem schedule_total now m :
  0 ≤ nReduce m → (contains "map" (phase m) = true → len (allTask m) ≤ len (files m)) →
  is_Some (schedule now m)
  ∧ ∃ m' again, schedule_once now m = Some (m', again) ∧ (again = true → phase m' = "reduce"%string).
Proof.
  intros Hk Hfiles. destruct (schedule_once_total now m Hk Hfiles) as (m1 & again & H1 & Hag).
  split; [|exists m1, again; naive_solver]. unfold schedule. cbn [schedule_fuel]. rewrite H1.
  cbn [mbind option_bind]. destruct again; [|by eexists]. destruct (Hag eq_refl) as [Hp Hk1].
  destruct (schedule_once_total now m1 Hk1) as (m2 & again2 & H2 & Hag2); [by rewrite Hp|].
  rewrite H2. cbn [mbind option_bind]. destruct again2; [|by eexists]. exfalso.
  unfold schedule_once in H2. rewrite Hp in H2. simpl in H2.
  destruct (range_tasks _ _ _ _) as [[m3 b]|]; simpl in H2; by simplify_eq.
Qed.

(** ** What goes wrong *)

(** With no task in the queue the reply is [GOT] with a nil task, which the worker
    dereferences. *)
Lemma ReqTask_empty_queue m :
  phase m = "map"%string → freeTaskQueue m = [] → ReqTask (phase m) m = Some (m, MkTaskReply GOT None).
Proof. intros Hp Hq. unfold ReqTask. rewrite Hp, Hq. done. Qed.

(** A map report that is repeated after the reduce phase has begun marks a reduce task as
    complete: the job can be done with reduce tasks nobody was given. *)
Definition late_report_run : option MasterRun :=
  let m := NewMaster 0 ["f"%string] 1 in
  m ← schedule 0 m;
  '(m, r) ← ReqTask (phase m) m;
  task ← reply_Task r;
  m ← ReportTask task m;
  m ← schedule 0 m;
  m ← schedule 0 m;
  m1 ← ReportTask task m;
  m ← schedule 0 m1;
  m ← schedule 0 m;
  Some (MkRun m [task] [("map"%string, task); (phase m1, task)]).

Lemma late_report_skips_reduce :
  ∃ r, late_report_run = Some r ∧ Done (mr_master r) = true
  ∧ Forall (λ t, Phase t ≠ "reduce"%string) (issued r).
Proof. eexists. split; [vm_compute; reflexivity|]. split; [done|]. by repeat constructor. Qed.

(** The start time is written when the table is made, so a slow task is requeued by every
    [schedule] once the phase is 10 seconds old, even right after it was handed out. *)
Lemma requeue_ignores_handout now i t m :
  Status t = IN_PROGRESS → now - StartTime t > 10 * 1000000000 →
  ∀ m' b, reduce_body now i t (m, b) = Some (m', b) →
  ∃ task, freeTaskQueue m' = freeTaskQueue m ++ [task].
Proof.
  intros Hs Hl m' b. unfold reduce_body, late. rewrite Hs. simpl.
  rewrite Z.gtb_ltb, (proj2 (Z.ltb_lt _ _)) by lia. unfold enqueue.
  destruct (getTask i m) as [task|]; simpl; [|done].
  destruct (set_status i IN_QUEUE _) as [m1|] eqn:Hm; simpl; [|done]. intros [= <-].
  apply set_status_spec in Hm as (l & t' & -> & _). simpl. eauto.
Qed.

(** ** Witnesses *)
Module MasterRunDemo.
Definition demo_run : option MasterRun :=
  let m := NewMaster 0 ["f"%string] 1 in
  m ← schedule 0 m; '(m, r) ← ReqTask (phase m) m; task ← reply_Task r;
  m1 ← ReportTask task m; m2 ← schedule 0 m1; m3 ← schedule 0 m2;
  '(m4, r') ← ReqTask (phase m3) m3; task' ← reply_Task r'; m5 ← ReportTask task' m4;
  m6 ← schedule 0 m5; m7 ← schedule 0 m6;
  Some (MkRun m7 [task; task'] [(phase m, task); (phase m4, task')]).

Lemma demo_reachable : ∃ r, demo_run = Some r ∧ master_reachable 0 ["f"%string] 1 r
  ∧ phase (mr_master r) = "fin"%string.
Proof.
  eexists. split; [vm_compute; reflexivity|]. split; [|reflexivity]. unfold master_reachable.
  eapply rtc_l; [eapply step_schedule with (now := 0); vm_compute; reflexivity|].
  eapply rtc_l; [apply step_request with (seen := "map"%string); vm_compute; reflexivity|].
  eapply rtc_l; [eapply step_report; [apply list_elem_of_here|vm_compute; reflexivity]|].
  eapply rtc_l; [eapply step_schedule with (now := 0); vm_compute; reflexivity|].
  eapply rtc_l; [eapply step_schedule with (now := 0); vm_compute; reflexivity|].
  eapply rtc_l; [eapply step_schedule with (now := 0); vm_compute; reflexivity|].
  eapply rtc_l; [apply step_request with (seen := "reduce"%string); vm_compute; reflexivity|].
  eapply rtc_l; [eapply step_report; [apply list_elem_of_further, list_elem_of_here|vm_compute; reflexivity]|].
  eapply rtc_l; [eapply step_schedule with (now := 0); vm_compute; reflexivity|].
  eapply rtc_l; [eapply step_schedule with (now := 0); vm_compute; reflexivity|].
  apply rtc_refl.
Qed.
End MasterRunDemo.

Lemma reduce_waits_for_maps_witness :
  ∃ r, phase (mr_master r) = "fin"%string ∧ map_reported 0 (reported r).
Proof.
  destruct MasterRunDemo.demo_reachable as (r & _ & Hr & Hp). exists r. split; [exact Hp|].
  apply (reduce_waits_for_maps 0 ["f"%string] 1 r Hr); [|done].
  rewrite Hp. by intros [|].
Defined.

Lemma done_after_reports_witness :
  ∃ r, phase (mr_master r) = "fin"%string ∧ reduce_reported 0 (reported r).
Proof.
  destruct MasterRunDemo.demo_reachable as (r & _ & Hr & Hp). exists r. split; [exact Hp|].
  destruct (done_after_reports 0 ["f"%string] 1 r Hr) as [_ Hd]; [|by apply Hd].
  unfold Done. by rewrite Hp.
Defined.

Lemma schedule_total_witness : is_Some (schedule 5 (NewMaster 0 ["f"%string; "g"%string] 3)).
Proof. apply (schedule_total 5 (NewMaster 0 ["f"%string; "g"%string] 3)); done. Defined.

