(* ===== verification/MrWorker.v ===== *)
(** * MapReduce: the worker, the sequential program and the applications

    [src/6.824/src/mr/worker.go], [main/mrsequential.go], and the Map and Reduce functions
    of [mrapps/].  The working directory is a map from names to contents.  [None] is the
    end of the process: a [log.Fatal] or a panic. *)
From S2P Require Import Prelude MrMaster.
From Stdlib Require Import Ascii.
#[local] Open Scope Z_scope.

Record KeyValue := MkKV { Key : string; Value : string }.
#[export] Instance KeyValue_eq_dec : EqDecision KeyValue.
Proof. solve_decision. Defined.

Definition bytes_of (s : string) : list Z := (λ c, Z.of_N (Ascii.N_of_ascii c)) <$> String.list_ascii_of_string s.
Definition of_bytes (bs : list Z) : string :=
  String.string_of_list_ascii ((λ b, Ascii.ascii_of_N (Z.to_N b)) <$> bs).

(** ** Hashing keys *)

(** [hash/fnv]'s 32-bit FNV-1a. *)
Definition fnv32a_step (h b : Z) : Z := (Z.lxor h b * 16777619) mod 2 ^ 32.
Definition fnv32a (s : string) : Z := foldl fnv32a_step 2166136261 (bytes_of s).

Definition ihash (key : string) : Z := Z.land (fnv32a key) 0x7fffffff.

(** ** Text through [encoding/json]

    A Go string is bytes; encoding it as JSON and decoding it again replaces each byte
    that is not part of a valid UTF-8 sequence by U+FFFD and keeps everything else. *)
Definition RuneError : Z := 0xFFFD.

Definition between (lo b hi : Z) : bool := (lo <=? b) && (b <=? hi).

(** [utf8.DecodeRune] on a non-empty slice: the rune and its width. *)
Definition DecodeRune (bs : list Z) : Z * nat :=
  let cont b := between 0x80 b 0xBF in
  let low b k := Z.shiftl (Z.land b 0x3F) k in
  match bs with
  | b0 :: rest =>
      if b0 <? 0x80 then (b0, 1%nat)
      else match rest with
      | b1 :: rest2 =>
          if between 0xC2 b0 0xDF && cont b1 then
            (Z.lor (Z.shiftl (Z.land b0 0x1F) 6) (low b1 0), 2%nat)
          else match rest2 with
          | b2 :: rest3 =>
              if between 0xE0 b0 0xEF
                 && between (if b0 =? 0xE0 then 0xA0 else 0x80) b1 (if b0 =? 0xED then 0x9F else 0xBF)
                 && cont b2
              then (Z.lor (Z.shiftl (Z.land b0 0x0F) 12) (Z.lor (low b1 6) (low b2 0)), 3%nat)
              else match rest3 with
              | b3 :: _ =>
                  if between 0xF0 b0 0xF4
                     && between (if b0 =? 0xF0 then 0x90 else 0x80) b1 (if b0 =? 0xF4 then 0x8F else 0xBF)
                     && cont b2 && cont b3
                  then (Z.lor (Z.shiftl (Z.land b0 0x07) 18)
                         (Z.lor (low b1 12) (Z.lor (low b2 6) (low b3 0))), 4%nat)
                  else (RuneError, 1%nat)
              | [] => (RuneError, 1%nat)
              end
          | [] => (RuneError, 1%nat)
          end
      | [] => (RuneError, 1%nat)
      end
  | [] => (RuneError, 0%nat)
  end.

(** The runes of a text, each with its bytes: [for i, r := range text].  A rune has at
    least one byte, so as many turns as bytes are enough. *)
Fixpoint runes_loop (fuel : nat) (bs : list Z) : list (Z * list Z) :=
  match fuel, bs with
  | S fuel, _ :: _ =>
      let '(c, w) := DecodeRune bs in (c, take w bs) :: runes_loop fuel (drop w bs)
  | _, _ => []
  end.
Definition runes (bs : list Z) : list (Z * list Z) := runes_loop (length bs) bs.

Definition json_rune (r : Z * list Z) : list Z :=
  if (r.1 =? RuneError) && (len (r.2) =? 1) then [0xEF; 0xBF; 0xBD] else r.2.

Definition json_string (s : string) : string := of_bytes (concat (json_rune <$> runes (bytes_of s))).
Definition json_kv (kv : KeyValue) : KeyValue := MkKV (json_string (Key kv)) (json_string (Value kv)).

(** ** Files *)

(** A file holds what was written to it: text, piece by piece, or a JSON stream. *)
Inductive FileData := TextFile (pieces : list string) | JsonFile (kvs : list KeyValue).
Abbreviation FS := (gmap string FileData).

(** Paths name files relative to the working directory: ["./f"] is ["f"]. *)
Definition clean (path : string) : string :=
  match path with String "."%char (String "/"%char name) => name | _ => path end.

Definition read_text (path : string) (fs : FS) : option string :=
  f ← fs !! clean path;
  match f with TextFile pieces => Some (String.concat "" pieces) | JsonFile _ => None end.

(** The records of a stream of key/values, decoded one at a time. *)
Definition read_json (path : string) (fs : FS) : option (list KeyValue) :=
  f ← fs !! clean path;
  match f with JsonFile kvs => Some (json_kv <$> kvs) | TextFile _ => None end.

Definition create (path : string) (f : FileData) (fs : FS) : FS := <[clean path := f]> fs.

Definition inter_name (imap ireduce : Z) : string := "mr-" +:+ pretty imap +:+ "-" +:+ pretty ireduce.
Definition out_name (ireduce : Z) : string := "mr-out-" +:+ pretty ireduce.

(** ** Map tasks *)

Definition add_partition (NReduce : Z) (partitions : list (list KeyValue)) (kv : KeyValue) :
    option (list (list KeyValue)) :=
  let bucket := Z.rem (ihash (Key kv)) NReduce in
  par ← partitions.[bucket];
  slice_set partitions bucket (par ++ [MkKV (Key kv) (Value kv)]).

Definition write_partitions (imap : Z) (partitions : list (list KeyValue)) (fs : FS) : FS :=
  foldl (λ fs '(i, par), create ("./" +:+ inter_name imap i) (JsonFile par) fs) fs
    (zip (seqZ 0 (len partitions)) partitions).

Definition doMapTask (mapf : string → string → list KeyValue) (task : Task) (fs : FS) : option FS :=
  content ← read_text (FileName task) fs;
  partitions ← make_slice (NReduce task) [];
  partitions ← foldM (add_partition (NReduce task)) partitions (mapf (FileName task) content);
  Some (write_partitions (Imap task) partitions fs).

(** ** Reduce tasks *)

(** [sort.Sort] with [Less] comparing keys: some order of the elements with ascending
    keys.  It is not stable, so which of these orders is left open. *)
Class KeySort := {
  sort_Sort : list KeyValue → list KeyValue;
  sort_perm : ∀ kvs, sort_Sort kvs ≡ₚ kvs;
  sort_sorted : ∀ kvs, StronglySorted (λ a b, String.le (Key a) (Key b)) (sort_Sort kvs)
}.

(** The elements from the front whose key is [k], and the rest: the loop on [j]. *)
Fixpoint key_run (k : string) (kvs : list KeyValue) : list KeyValue * list KeyValue :=
  match kvs with
  | kv :: rest =>
      if decide (Key kv = k) then let '(run, next) := key_run k rest in (kv :: run, next)
      else ([], kvs)
  | [] => ([], [])
  end.

(** [fmt.Fprintf(ofile, "%v %v\n", k, output)]. *)
Definition line (k output : string) : string := k +:+ " " +:+ output +:+ String "010"%char EmptyString.

(** The loop on [i], from [intermediate[i:]]; each turn consumes at least one element. *)
Fixpoint reduce_loop (reducef : string → list string → string) (fuel : nat) (kvs : list KeyValue) :
    list string :=
  match fuel, kvs with
  | S fuel, kv :: rest =>
      let '(run, next) := key_run (Key kv) rest in
      line (Key kv) (reducef (Key kv) (Value <$> kv :: run)) :: reduce_loop reducef fuel next
  | _, _ => []
  end.

Definition reduce_lines (reducef : string → list string → string) (kvs : list KeyValue) : list string :=
  reduce_loop reducef (length kvs) kvs.

Definition read_partitions (NMap ireduce : Z) (fs : FS) : option (list KeyValue) :=
  kvss ← mapM (λ i, read_json (inter_name i ireduce) fs) (seqZ 0 NMap);
  Some (concat kvss).

Definition doReduceTask `{KeySort} (reducef : string → list string → string) (task : Task) (fs : FS) :
    option FS :=
  let fs := create (out_name (IReduce task)) (TextFile []) fs in
  intermediate ← read_partitions (NMap task) (IReduce task) fs;
  Some (create (out_name (IReduce task)) (TextFile (reduce_lines reducef (sort_Sort intermediate))) fs).

(** ** The worker's loop *)

Inductive WorkerNext := Stop | Sleep | Report (task : Task).

(** One turn of [run], up to the report. *)
Definition run_turn `{KeySort} (mapf : string → string → list KeyValue)
    (reducef : string → list string → string) (reply : TaskReply) (fs : FS) : option (WorkerNext * FS) :=
  if TaskReplyState reply =? FIN then Some (Stop, fs)
  else if TaskReplyState reply =? BARRIER then Some (Sleep, fs)
  else
    task ← reply_Task reply;
    if (TaskReplyState reply =? GOT) && bool_decide (Phase task = "map"%string) then
      fs ← doMapTask mapf task fs; Some (Report task, fs)
    else if (TaskReplyState reply =? GOT) && bool_decide (Phase task = "reduce"%string) then
      fs ← doReduceTask reducef task fs; Some (Report task, fs)
    else Some (Sleep, fs).

(** ** The sequential program *)

Definition read_inputs (mapf : string → string → list KeyValue) (args : list string) (fs : FS) :
    option (list KeyValue) :=
  foldM (λ intermediate filename,
    content ← read_text filename fs; Some (intermediate ++ mapf filename content)) [] args.

Definition mrsequential `{KeySort} (mapf : string → string → list KeyValue)
    (reducef : string → list string → string) (args : list string) (fs : FS) : option FS :=
  intermediate ← read_inputs mapf args fs;
  Some (create "mr-out-0" (TextFile (reduce_lines reducef (sort_Sort intermediate))) fs).

(** ** The applications ([mrapps/]) *)

(** [unicode.IsLetter]'s table. *)
Class UnicodeLetters := { IsLetter : Z → bool }.

(** [strings.FieldsFunc]: the maximal runs of runes on which [f] is false; [word] is the
    run so far. *)
Fixpoint fields (f : Z → bool) (word : list Z) (rs : list (Z * list Z)) : list (list Z) :=
  let flush := match word with [] => [] | _ => [word] end in
  match rs with
  | [] => flush
  | (c, bs) :: rs => if f c then flush ++ fields f [] rs else fields f (word ++ bs) rs
  end.
Definition FieldsFunc (f : Z → bool) (text : string) : list string :=
  of_bytes <$> fields f [] (runes (bytes_of text)).

(** [strings.Join], and [sort.Strings], whose result is determined: equal strings are
    indistinguishable. *)
Definition Join (ss : list string) (sep : string) : string := String.concat sep ss.
Definition sort_Strings (ss : list string) : list string := merge_sort String.le ss.

Module Wc.
Definition Map `{UnicodeLetters} (filename contents : string) : list KeyValue :=
  (λ w, MkKV w "1") <$> FieldsFunc (λ r, negb (IsLetter r)) contents.
Definition Reduce (key : string) (values : list string) : string := pretty (len values).
End Wc.

Module Indexer.
(** The words of the document's set, in the order [range] visits them. *)
Definition Map `{UnicodeLetters} (range : gset string → list string) (document value : string) :
    list KeyValue :=
  (λ w, MkKV w document) <$>
    range (list_to_set (FieldsFunc (λ x, negb (IsLetter x)) value)).
Definition Reduce (key : string) (values : list string) : string :=
  let values := sort_Strings values in
  pretty (len values) +:+ " " +:+ Join values ",".
End Indexer.

(** [nocrash.go], and [crash.go] when it does not exit. *)
Module Crash.
Definition Map (filename contents : string) : list KeyValue :=
  [MkKV "a" filename; MkKV "b" (pretty (Z.of_nat (String.length filename)));
   MkKV "c" (pretty (Z.of_nat (String.length contents))); MkKV "d" "xyzzy"].
Definition Reduce (key : string) (values : list string) : string := Join (sort_Strings values) " ".
End Crash.

(** ** Lemmas on keys and partitions *)

Lemma ihash_bounds key : 0 ≤ ihash key < 2 ^ 31.
Proof.
  unfold ihash. change 0x7fffffff with (Z.ones 31). rewrite Z.land_ones by lia.
  apply Z.mod_pos_bound. lia.
Qed.

Lemma list_filter_all {A} (P : A → Prop) `{∀ x, Decision (P x)} (l : list A) :
  Forall P l → filter P l = l.
Proof. induction 1; [done|]. rewrite filter_cons_True by done. by f_equal. Qed.

Lemma list_filter_none {A} (P : A → Prop) `{∀ x, Decision (P x)} (l : list A) :
  Forall (λ x, ¬ P x) l → filter P l = [].
Proof. induction 1; [done|]. by rewrite filter_cons_False. Qed.

(** The values of key [k], in the order of their records. *)
Definition values_of (k : string) (kvs : list KeyValue) : list string :=
  Value <$> filter (λ kv, Key kv = k) kvs.

(** A reduce function that does not look at the order of the values. *)
Definition order_insensitive (reducef : string → list string → string) : Prop :=
  ∀ k vs vs', vs ≡ₚ vs' → reducef k vs = reducef k vs'.

Abbreviation key_le := (λ a b, String.le (Key a) (Key b)).

Lemma key_run_spec k kvs run next :
  key_run k kvs = (run, next) → StronglySorted key_le kvs → Forall (λ b, String.le k (Key b)) kvs →
  kvs = run ++ next ∧ Forall (λ kv, Key kv = k) run ∧ Forall (λ kv, Key kv ≠ k) next.
Proof.
  revert run next. induction kvs as [|kv kvs IH]; intros run next Hr Hs Hk; simpl in Hr.
  { by simplify_eq. }
  apply StronglySorted_cons in Hs as [Hle Hs]. apply Forall_cons in Hk as [Hk1 Hk].
  case_decide as He.
  - destruct (key_run k kvs) as [run1 next1] eqn:Hrun. simplify_eq.
    destruct (IH run1 next eq_refl Hs Hk) as (-> & ? & ?). split_and!; [done|by constructor|done].
  - simplify_eq. split_and!; [done|constructor|]. constructor; [done|].
    eapply list.Forall_impl; [exact Hle|]. intros b Hb Hbk. simpl in Hb. subst k.
    apply He. by apply (anti_symm String.le).
Qed.

(** What the loop prints: one line for each key, of all the key's values. *)
Lemma reduce_loop_spec reducef fuel kvs :
  (length kvs ≤ fuel)%nat → StronglySorted key_le kvs →
  ∃ ks, NoDup ks ∧ (∀ k, k ∈ ks ↔ k ∈ Key <$> kvs)
    ∧ reduce_loop reducef fuel kvs = (λ k, line k (reducef k (values_of k kvs))) <$> ks.
Proof.
  revert kvs. induction fuel as [|fuel IH]; intros [|kv kvs] Hf Hs; simpl in Hf; try lia.
  1,2: exists []; split_and!; [constructor|set_solver|done].
  apply StronglySorted_cons in Hs as [Hle Hs]. simpl.
  destruct (key_run (Key kv) kvs) as [run next] eqn:Hr.
  destruct (key_run_spec _ _ _ _ Hr Hs Hle) as (-> & Hrun & Hnext).
  rewrite length_app in Hf.
  destruct (IH next) as (ks & Hnd & Hks & ->); [lia|by eapply StronglySorted_app_1_r|].
  assert (∀ k, k ∈ ks → k ≠ Key kv) as Hne.
  { intros k Hk ->. apply Hks, list_elem_of_fmap in Hk as (x & Hx & Hxn).
    rewrite list.Forall_forall in Hnext. by apply (Hnext x). }
  exists (Key kv :: ks). split_and!.
  - constructor; [intros Hk; by apply (Hne _ Hk)|done].
  - intros k. rewrite fmap_app, !elem_of_cons, elem_of_app, Hks.
    rewrite list.Forall_forall in Hrun. split; [naive_solver|]. intros [->|[Hk|Hk]]; [by left| |by right].
    apply list_elem_of_fmap in Hk as (x & -> & Hx). left. by apply Hrun.
  - simpl. f_equal.
    + unfold values_of. rewrite filter_cons_True by done. rewrite list.filter_app.
      rewrite (list_filter_all _ run) by done. rewrite (list_filter_none _ next) by done.
      by rewrite app_nil_r.
    + apply list_fmap_ext. intros i k Hk%list_elem_of_lookup_2. unfold values_of.
      rewrite filter_cons_False by (intros He; by apply (Hne k)).
      rewrite list.filter_app, (list_filter_none _ run); [done|].
      eapply list.Forall_impl; [exact Hrun|]. intros x Hx Hxk. apply (Hne k Hk). simpl in *. congruence.
Qed.

Section lines.
Context `{KeySort} (reducef : string → list string → string).
Hypothesis Hins : order_insensitive reducef.

Definition lines_of (kvs : list KeyValue) : list string := reduce_lines reducef (sort_Sort kvs).

Definition key_line (kvs : list KeyValue) (k : string) : string := line k (reducef k (values_of k kvs)).

Lemma lines_of_spec kvs :
  ∃ ks, NoDup ks ∧ (∀ k, k ∈ ks ↔ k ∈ Key <$> kvs) ∧ lines_of kvs = key_line kvs <$> ks.
Proof.
  destruct (reduce_loop_spec reducef (length (sort_Sort kvs)) (sort_Sort kvs)) as (ks & Hnd & Hks & Hl);
    [lia|apply sort_sorted|].
  exists ks. split_and!; [done| |].
  - intros k. by rewrite Hks, sort_perm.
  - unfold lines_of, reduce_lines. rewrite Hl. apply list_fmap_ext. intros i k _.
    unfold key_line. f_equal. apply Hins. unfold values_of. by rewrite sort_perm.
Qed.

(** The records of bucket [j] of [n]. *)
Definition part (n j : Z) (kvs : list KeyValue) : list KeyValue :=
  filter (λ kv, Z.rem (ihash (Key kv)) n = j) kvs.

Lemma values_of_part n k kvs : values_of k (part n (Z.rem (ihash k) n) kvs) = values_of k kvs.
Proof.
  unfold values_of, part. rewrite list_filter_filter_l; [done|]. by intros kv ->.
Qed.

Lemma elem_of_part_keys n j k kvs :
  k ∈ Key <$> part n j kvs ↔ k ∈ Key <$> kvs ∧ Z.rem (ihash k) n = j.
Proof.
  unfold part. rewrite !list_elem_of_fmap. setoid_rewrite list_elem_of_filter. naive_solver.
Qed.

(** Over any set of buckets, the lines are those of the keys of these buckets. *)
Lemma lines_of_parts n kvs js :
  NoDup js →
  ∃ ks, NoDup ks ∧ (∀ k, k ∈ ks ↔ k ∈ Key <$> kvs ∧ Z.rem (ihash k) n ∈ js)
    ∧ concat ((λ j, lines_of (part n j kvs)) <$> js) = key_line kvs <$> ks.
Proof.
  induction 1 as [|j js Hj Hnd (ks & Hks & Hin & Hl)].
  { exists []. split_and!; [constructor|set_solver|done]. }
  destruct (lines_of_spec (part n j kvs)) as (ks' & Hks' & Hin' & Hl').
  exists (ks' ++ ks). split_and!.
  - apply list.NoDup_app. split_and!; [done| |done].
    intros k [_ <-]%Hin'%elem_of_part_keys [_ Hk]%Hin. done.
  - intros k. rewrite elem_of_app, Hin, Hin', elem_of_part_keys, elem_of_cons. naive_solver.
  - rewrite fmap_cons, concat_cons, Hl, Hl', fmap_app. f_equal. apply list_fmap_ext. intros i k Hk%list_elem_of_lookup_2.
    apply Hin', elem_of_part_keys in Hk as [_ <-]. unfold key_line. by rewrite values_of_part.
Qed.

Lemma parts_lines n kvs :
  0 < n → concat ((λ j, lines_of (part n j kvs)) <$> seqZ 0 n) ≡ₚ lines_of kvs.
Proof.
  intros Hn. destruct (lines_of_parts n kvs (seqZ 0 n)) as (ks & Hnd & Hin & ->); [apply NoDup_seqZ|].
  destruct (lines_of_spec kvs) as (ks' & Hnd' & Hin' & ->). apply fmap_Permutation.
  apply NoDup_Permutation; [done..|]. intros k. rewrite Hin, Hin', elem_of_seqZ.
  pose proof (ihash_bounds k). pose proof (Z.rem_bound_pos (ihash k) n). naive_solver lia.
Qed.

End lines.

(** [doMapTask]'s loop splits the records by bucket. *)
Lemma add_partition_spec n kvs ps :
  0 < n → len ps = n →
  ∃ ps', foldM (add_partition n) ps kvs = Some ps' ∧ len ps' = n
    ∧ ∀ j par, ps.[j] = Some par → ps'.[j] = Some (par ++ part n j kvs).
Proof.
  intros Hn. revert ps. induction kvs as [|kv kvs IH]; intros ps Hl.
  { exists ps. split_and!; [done|done|]. intros j par ->. by rewrite app_nil_r. }
  pose proof (ihash_bounds (Key kv)). pose proof (Z.rem_bound_pos (ihash (Key kv)) n).
  rewrite foldM_cons. unfold add_partition at 2.
  destruct (slice_get_lt ps (Z.rem (ihash (Key kv)) n)) as [par Hpar]; [lia|]. rewrite Hpar. simpl.
  destruct (slice_set ps _ _) as [ps1|] eqn:Hs.
  2: { rewrite slice_set_lt in Hs by lia. done. }
  destruct (IH ps1) as (ps' & He & Hl' & Hps'); [apply slice_set_length in Hs; lia|].
  exists ps'. simpl. split_and!; [done|done|]. intros j par' Hj. unfold part. rewrite filter_cons.
  case_decide as Hb.
  - subst j. replace par' with par by congruence. apply slice_get_set_eq in Hs.
    rewrite (Hps' _ _ Hs), <-app_assoc. by destruct kv.
  - apply Hps'. by rewrite (slice_get_set_ne _ _ _ _ _ Hs).
Qed.

(** ** Lemmas on file names *)

Lemma inter_name_inj i j i' j' :
  0 ≤ i → 0 ≤ i' → inter_name i j = inter_name i' j' → i = i' ∧ j = j'.
Proof.
  intros Hi Hi' He. unfold inter_name in He. simpl in He. injection He as He.
  apply dash_split in He as [?%(inj pretty) ?%(inj pretty)]; [done|by apply pretty_Z_digits..].
Qed.

Lemma out_name_ne_inter i j j' : 0 ≤ i → out_name j' ≠ inter_name i j.
Proof.
  intros Hi He. pose proof (pretty_Z_digits i Hi) as Hd. unfold out_name, inter_name in He.
  destruct (pretty i) as [|c s]; simpl in He; [discriminate|]. injection He as Hc _.
  apply Forall_cons in Hd as [[x Hx] _]. rewrite <-Hc in Hx. unfold pretty_N_char in Hx.
  by repeat case_match.
Qed.

Lemma out_name_inj j j' : out_name j = out_name j' → j = j'.
Proof.
  intros He. unfold out_name in He. simpl in He. injection He as He. exact (inj pretty _ _ He).
Qed.

(** ** Distributed runs *)

Lemma part_concat n j kvss : part n j (concat kvss) = concat (part n j <$> kvss).
Proof. unfold part. induction kvss as [|kvs kvss IH]; [done|]. simpl. by rewrite list.filter_app, IH. Qed.

Lemma create_lookup path path' f fs :
  create path f fs !! path' = if decide (clean path = path') then Some f else fs !! path'.
Proof. unfold create. rewrite lookup_insert. done. Qed.

Lemma write_partitions_lookup imap ps fs name :
  0 ≤ imap →
  (∀ j par, ps.[j] = Some par → write_partitions imap ps fs !! inter_name imap j = Some (JsonFile par))
  ∧ ((∀ j, name ≠ inter_name imap j) → write_partitions imap ps fs !! name = fs !! name).
Proof.
  intros Hi. unfold write_partitions. induction ps as [|par ps IH] using rev_ind.
  { split; [|done]. intros j par [_ Hj]%slice_get_Some. done. }
  rewrite length_app, Nat2Z.inj_add, seqZ_app, zip_with_app, foldl_app by (rewrite ?length_seqZ; lia).
  simpl. destruct IH as [IH1 IH2]. split.
  - intros j par' Hj. rewrite create_lookup. simpl. case_decide as Hd.
    + apply inter_name_inj in Hd as [_ <-]; [|done..].
      rewrite slice_get_app_r in Hj by lia. replace (_ - _) with 0 in Hj by lia. by injection Hj as ->.
    + apply IH1. rewrite slice_get_app_l in Hj; [done|].
      apply mk_is_Some, slice_get_is_Some in Hj. rewrite length_app in Hj. simpl in Hj.
      destruct (decide (j = len ps)); [subst; by destruct Hd|lia].
  - intros Hne. rewrite create_lookup. simpl. rewrite decide_False by (intros Hd; by apply (Hne (0 + len ps))).
    by apply IH2.
Qed.

Section job.
Context `{KeySort} (mapf : string → string → list KeyValue) (reducef : string → list string → string).
Context (args : list string) (text : string → string) (nR : Z).

(** The tasks [getTask] makes for the job. *)
Definition map_task (i : Z) (f : string) : Task := MkTask false "map" f i (-1) (len args) nR.
Definition reduce_task (j : Z) : Task := MkTask false "reduce" "" (-1) j (len args) nR.
Definition is_map_task (t : Task) : Prop := ∃ i f, args.[i] = Some f ∧ t = map_task i f.
Definition is_reduce_task (t : Task) : Prop := ∃ j, 0 ≤ j < nR ∧ t = reduce_task j.

(** A worker, or several in turn, doing tasks one after the other. *)
Definition work (ts : list Task) (fs : FS) : option FS :=
  foldM (λ fs task, '(_, fs) ← run_turn mapf reducef (MkTaskReply GOT (Some task)) fs; Some fs) fs ts.

Definition inputs_at (fs : FS) : Prop := ∀ f, f ∈ args → read_text f fs = Some (text f).

(** All the records the map function emits. *)
Definition emitted : list KeyValue := concat ((λ f, mapf f (text f)) <$> args).

(** The job's inputs are not named like its own files, its records are text that JSON
    carries, and the reduce function does not depend on the order of the values. *)
Record job_ok : Prop := {
  job_nR : 0 < nR;
  job_names : ∀ f, f ∈ args → String.prefix "mr-" (clean f) = false;
  job_text : Forall (λ kv, json_kv kv = kv) emitted;
  job_reduce : order_insensitive reducef
}.

(** The map tasks in [D] and the reduce tasks in [E] are done. *)
Record progress (D E : Z → Prop) (fs : FS) : Prop := {
  pr_inputs : inputs_at fs;
  pr_inter : ∀ i f j, D i → args.[i] = Some f → 0 ≤ j < nR →
    fs !! inter_name i j = Some (JsonFile (part nR j (mapf f (text f))));
  pr_out : ∀ j, E j → fs !! out_name j = Some (TextFile (lines_of reducef (part nR j emitted)))
}.

Hypothesis Hok : job_ok.

Lemma input_not_mr f s : f ∈ args → clean f ≠ "mr-" +:+ s.
Proof. intros Hf He. apply (job_names Hok) in Hf. rewrite He in Hf. simpl in Hf. by destruct s. Qed.

Lemma inputs_kept fs fs' :
  (∀ name, (∀ s, name ≠ "mr-" +:+ s) → fs' !! name = fs !! name) → inputs_at fs → inputs_at fs'.
Proof.
  intros Hk Hin f Hf. rewrite <-(Hin f Hf). unfold read_text. rewrite Hk; [done|].
  intros s. by apply input_not_mr.
Qed.

Lemma map_turn D E fs i f :
  args.[i] = Some f → progress D E fs →
  ∃ fs', run_turn mapf reducef (MkTaskReply GOT (Some (map_task i f))) fs = Some (Report (map_task i f), fs')
    ∧ progress (λ i', D i' ∨ i' = i) E fs'.
Proof.
  intros Hf [Hin Hint Hout]. pose proof (slice_get_elem _ _ _ Hf) as Helem.
  assert (0 ≤ i) as Hi by (apply slice_get_Some in Hf; lia).
  pose proof (job_nR Hok) as HnR. unfold run_turn. simpl. unfold doMapTask. simpl.
  rewrite (Hin f Helem). simpl. rewrite make_slice_nonneg by lia. simpl.
  destruct (add_partition_spec nR (mapf f (text f)) (replicate (Z.to_nat nR) []) HnR)
    as (ps & -> & Hl & Hps); [rewrite length_replicate; lia|]. simpl.
  eexists. split; [done|]. split.
  - eapply inputs_kept; [|done]. intros name Hn. apply (write_partitions_lookup i ps fs name Hi).
    intros j. apply Hn.
  - intros i' f' j HD Hf' Hj. destruct (decide (i' = i)) as [->|Hne].
    + replace f' with f by congruence. apply (write_partitions_lookup i ps fs "" Hi).
      apply (Hps j []). apply slice_get_Some. split; [lia|]. apply lookup_replicate_2. lia.
    + destruct (write_partitions_lookup i ps fs (inter_name i' j) Hi) as [_ ->].
      * apply Hint; [by destruct HD|done|done].
      * intros j' He. apply inter_name_inj in He as [? _]; [done| |done]. apply slice_get_Some in Hf'. lia.
  - intros j HE. destruct (write_partitions_lookup i ps fs (out_name j) Hi) as [_ ->]; [by apply Hout|].
    intros j'. by apply out_name_ne_inter.
Qed.

Lemma read_partitions_done D E fs j :
  progress D E fs → (∀ i, 0 ≤ i < len args → D i) → 0 ≤ j < nR →
  read_partitions (len args) j fs = Some (part nR j emitted).
Proof.
  intros Hp HD Hj. unfold read_partitions.
  assert (mapM (λ i, read_json (inter_name i j) fs) (seqZ 0 (len args))
    = Some ((λ f, part nR j (mapf f (text f))) <$> args)) as ->.
  { apply mapM_Some, Forall2_same_length_lookup_2.
    { rewrite length_fmap, length_seqZ. lia. }
    intros i x y Hx Hy. apply lookup_seqZ in Hx as [-> Hi].
    apply list_lookup_fmap_Some in Hy as (f & -> & Hf). unfold read_json.
    assert (args.[0 + Z.of_nat i] = Some f) as Hf' by (apply slice_get_Some; split; [lia|by rewrite Z.add_0_l, Nat2Z.id]).
    change (clean (inter_name (0 + Z.of_nat i) j)) with (inter_name (0 + Z.of_nat i) j).
    rewrite (pr_inter _ _ _ Hp _ f j); [|apply HD; lia|done|done]. simpl. f_equal.
    pose proof (job_text Hok) as Ht. unfold emitted in Ht. rewrite Forall_concat, Forall_fmap in Ht.
    rewrite list.Forall_forall in Ht. specialize (Ht f (list_elem_of_lookup_2 _ _ _ Hf)). simpl in Ht.
    unfold part. induction Ht as [|kv kvs Hkv Ht IH]; [done|]. rewrite filter_cons. case_decide; [|done].
    rewrite fmap_cons. by f_equal. }
  simpl. unfold emitted. rewrite part_concat, <-list_fmap_compose. done.
Qed.

Lemma reduce_turn D E fs j :
  0 ≤ j < nR → (∀ i, 0 ≤ i < len args → D i) → progress D E fs →
  ∃ fs', run_turn mapf reducef (MkTaskReply GOT (Some (reduce_task j))) fs = Some (Report (reduce_task j), fs')
    ∧ progress D (λ j', E j' ∨ j' = j) fs'.
Proof.
  intros Hj HD Hp.
  assert (∀ f fs, progress D E fs → progress D (λ j', E j' ∧ j' ≠ j) (create (out_name j) f fs)) as Hc.
  { intros c fs1 [Hin Hint Hout].
    assert (∀ name, name ≠ out_name j → create (out_name j) c fs1 !! name = fs1 !! name) as Hl.
    { intros name Hn. rewrite create_lookup. by rewrite decide_False. }
    split.
    - eapply inputs_kept; [|done]. intros name Hn. apply Hl. by apply (Hn ("out-" +:+ pretty j)).
    - intros i f j' Hi Hf Hj'. rewrite Hl; [by apply Hint|]. intros He. symmetry in He. revert He.
      apply out_name_ne_inter. apply slice_get_Some in Hf. lia.
    - intros j' [HE Hne]. rewrite Hl; [by apply Hout|]. intros He. apply Hne. by apply out_name_inj. }
  unfold run_turn. simpl. unfold doReduceTask. simpl.
  rewrite (read_partitions_done D (λ j', E j' ∧ j' ≠ j)) by auto. simpl.
  eexists. split; [done|]. destruct (Hc (TextFile []) fs Hp) as [Hin Hint Hout].
  set (fs2 := create (out_name j) (TextFile []) fs) in *.
  assert (∀ name c, name ≠ out_name j → create (out_name j) c fs2 !! name = fs2 !! name) as Hl.
  { intros name c Hn. rewrite create_lookup. by rewrite decide_False. }
  split.
  - eapply inputs_kept; [|done]. intros name Hn. apply Hl. by apply (Hn ("out-" +:+ pretty j)).
  - intros i f j' Hi Hf Hj'. rewrite Hl; [by apply Hint|]. intros He. symmetry in He. revert He.
    apply out_name_ne_inter. apply slice_get_Some in Hf. lia.
  - intros j' HE. destruct (decide (j' = j)) as [->|Hne].
    + rewrite create_lookup. by rewrite decide_True.
    + rewrite Hl by (intros He; by apply Hne, out_name_inj). apply Hout. naive_solver.
Qed.

Lemma maps_run D E ts fs :
  Forall is_map_task ts → progress D E fs →
  ∃ fs', work ts fs = Some fs' ∧ progress (λ i, D i ∨ ∃ f, map_task i f ∈ ts) E fs'.
Proof.
  revert D fs. induction ts as [|t ts IH]; intros D fs Hts Hp.
  { exists fs. split; [done|]. destruct Hp as [H1 H2 H3]. split; [done| |done].
    intros i f j [HD|[f' Hf']]; [by apply H2|set_solver]. }
  apply Forall_cons in Hts as [(i & f & Hf & ->) Hts].
  destruct (map_turn D E fs i f Hf Hp) as (fs1 & Hr & Hp1).
  destruct (IH _ fs1 Hts Hp1) as (fs' & Hw & [H1 H2 H3]).
  exists fs'. split; [unfold work in *; rewrite foldM_cons, Hr; exact Hw|]. split; [done| |done].
  intros i' f' j HD. apply H2. destruct HD as [HD|[f1 Hin]]; [by left; left|].
  apply elem_of_cons in Hin as [[= -> ->]|Hin]; [by left; right|right; eauto].
Qed.

Lemma rest_run D E ts fs :
  (∀ i, 0 ≤ i < len args → D i) → Forall (λ t, is_map_task t ∨ is_reduce_task t) ts → progress D E fs →
  ∃ fs', work ts fs = Some fs' ∧ progress D (λ j, E j ∨ reduce_task j ∈ ts) fs'.
Proof.
  intros HD. revert E fs. induction ts as [|t ts IH]; intros E fs Hts Hp.
  { exists fs. split; [done|]. destruct Hp as [H1 H2 H3]. split; [done|done|].
    intros j [HE|?]; [by apply H3|set_solver]. }
  apply Forall_cons in Hts as [Ht Hts].
  assert (∃ a fs1, run_turn mapf reducef (MkTaskReply GOT (Some t)) fs = Some (a, fs1)
    ∧ progress D (λ j, E j ∨ t = reduce_task j) fs1) as (a & fs1 & Hr & Hp1).
  { destruct Ht as [(i & f & Hf & ->)|(j & Hj & ->)].
    - destruct (map_turn D E fs i f Hf Hp) as (fs1 & Hr & [H1 H2 H3]). eexists _, fs1. split; [exact Hr|].
      split; [done| |intros j [HE|[=]]; by apply H3].
      intros i' f' j HD' Hf'. apply H2; [by left|done].
    - destruct (reduce_turn D E fs j Hj HD Hp) as (fs1 & Hr & [H1 H2 H3]). eexists _, fs1. split; [exact Hr|].
      split; [done|done|]. intros j' HE. apply H3. destruct HE as [HE|[= ->]]; auto. }
  destruct (IH _ fs1 Hts Hp1) as (fs' & Hw & [H1 H2 H3]).
  exists fs'. split; [unfold work in *; rewrite foldM_cons, Hr; exact Hw|]. split; [done|done|].
  intros j HE. apply H3. rewrite elem_of_cons in HE. destruct HE as [HE|[He|Hin]]; auto.
Qed.

Lemma read_inputs_emitted fs :
  inputs_at fs → read_inputs mapf args fs = Some emitted.
Proof.
  intros Hin. unfold read_inputs, emitted, inputs_at in *.
  cut (∀ acc, foldM (λ intermediate filename, content ← read_text filename fs;
    Some (intermediate ++ mapf filename content)) acc args = Some (acc ++ concat ((λ f, mapf f (text f)) <$> args))).
  { intros Hc. by rewrite Hc. }
  induction args as [|f l IH]; intros acc; [cbn; by rewrite app_nil_r|]. rewrite foldM_cons.
  rewrite Hin by apply list_elem_of_here. simpl. rewrite IH; [by rewrite app_assoc|].
  intros f' Hf'. apply Hin. by apply list_elem_of_further.
Qed.

End job.

(** ** Properties *)

(** A distributed run prints what the sequential program prints: with every map task done
    at least once, in any order and any number of times, and then every reduce task done
    at least once, with reduce and repeated map tasks interleaved at will, no task fails,
    and the lines of the files [mr-out-0 .. mr-out-(nR-1)] are a permutation of the lines
    of [mrsequential]'s [mr-out-0]. *)
Theorem mapreduce_matches_sequential `{KeySort} mapf reducef args text nR maps rest fs :
  job_ok mapf reducef args text nR → inputs_at args text fs →
  Forall (is_map_task args nR) maps → (∀ i f, args.[i] = Some f → map_task args nR i f ∈ maps) →
  Forall (λ t, is_map_task args nR t ∨ is_reduce_task args nR t) rest →
  (∀ j, 0 ≤ j < nR → reduce_task args nR j ∈ rest) →
  ∃ fs' seq_fs (outs : Z → list string) lines,
    work mapf reducef (maps ++ rest) fs = Some fs'
    ∧ (∀ j, 0 ≤ j < nR → fs' !! out_name j = Some (TextFile (outs j)))
    ∧ mrsequential mapf reducef args fs = Some seq_fs
    ∧ seq_fs !! "mr-out-0"%string = Some (TextFile lines)
    ∧ concat (outs <$> seqZ 0 nR) ≡ₚ lines.
Proof.
  intros Hok Hin Hmaps Hcov Hrest Hred.
  assert (progress mapf reducef args text nR (λ _, False) (λ _, False) fs) as Hp0 by (by split).
  destruct (maps_run _ _ _ _ _ Hok _ _ maps fs Hmaps Hp0) as (fs1 & Hw1 & Hp1).
  destruct ((λ HD, rest_run _ _ _ _ _ Hok _ _ rest fs1 HD Hrest Hp1)) as (fs' & Hw2 & [_ _ Hout]).
  { intros i Hi. destruct (slice_get_lt args i Hi) as [f Hf]. right. eauto. }
  exists fs', (create "mr-out-0" (TextFile (lines_of reducef (emitted mapf args text))) fs),
    (λ j, lines_of reducef (part nR j (emitted mapf args text))), (lines_of reducef (emitted mapf args text)).
  split_and!.
  - unfold work in *. by rewrite foldM_app, Hw1.
  - intros j Hj. apply Hout. auto.
  - unfold mrsequential. by rewrite (read_inputs_emitted _ _ text).
  - rewrite create_lookup. by rewrite decide_True.
  - apply parts_lines; [apply Hok|apply Hok].
Qed.

(** [sort.Strings] forgets the order. *)
Lemma sort_Strings_perm vs vs' : vs ≡ₚ vs' → sort_Strings vs = sort_Strings vs'.
Proof.
  intros Hp. apply (StronglySorted_unique String.le).
  1,2: apply Sorted_StronglySorted, Sorted_merge_sort; apply _.
  unfold sort_Strings. by rewrite !merge_sort_Permutation.
Qed.

Lemma Wc_Reduce_insensitive : order_insensitive Wc.Reduce.
Proof. intros k vs vs' Hp. unfold Wc.Reduce. by rewrite Hp. Qed.

Lemma Indexer_Reduce_insensitive : order_insensitive Indexer.Reduce.
Proof. intros k vs vs' Hp. unfold Indexer.Reduce. by rewrite (sort_Strings_perm _ _ Hp). Qed.

Lemma Crash_Reduce_insensitive : order_insensitive Crash.Reduce.
Proof. intros k vs vs' Hp. unfold Crash.Reduce. by rewrite (sort_Strings_perm _ _ Hp). Qed.

(** Word count counts: whatever the files, the records and the split into reduce tasks,
    the line printed for a word [w] of the input carries the number of times [Map] emitted
    it, in each of the two programs. *)
Theorem wc_counts `{KeySort} `{UnicodeLetters} (args : list string) (text : string → string) nR w :
  let emits := emitted Wc.Map args text in
  w ∈ Key <$> emits →
  line w (pretty (len (filter (λ kv, Key kv = w) emits))) ∈ lines_of Wc.Reduce emits
  ∧ line w (pretty (len (filter (λ kv, Key kv = w) emits)))
    ∈ lines_of Wc.Reduce (part nR (Z.rem (ihash w) nR) emits).
Proof.
  intros emits Hw.
  assert (∀ kvs, w ∈ Key <$> kvs → values_of w kvs = values_of w emits →
    line w (pretty (len (filter (λ kv, Key kv = w) emits))) ∈ lines_of Wc.Reduce kvs) as Hl.
  { intros kvs Hk Hv. destruct (lines_of_spec Wc.Reduce Wc_Reduce_insensitive kvs) as (ks & _ & Hin & ->).
    apply list_elem_of_fmap. exists w. split; [|by apply Hin]. unfold key_line, Wc.Reduce.
    rewrite Hv. unfold values_of. by rewrite length_fmap. }
  split; [by apply Hl|]. apply Hl; [by apply elem_of_part_keys|apply values_of_part].
Qed.

(** Text in ASCII goes through the intermediate files unchanged. *)
Lemma json_ascii s : Forall (λ b, b < 0x80) (bytes_of s) → json_string s = s.
Proof.
  intros Ha. assert (∀ fuel bs, (length bs ≤ fuel)%nat → Forall (λ b, b < 0x80) bs →
    concat (json_rune <$> runes_loop fuel bs) = bs) as Hr.
  { induction fuel as [|fuel IH]; intros [|b bs]; simpl; intros Hf Hb; try done; [lia|].
    apply Forall_cons in Hb as [Hb Hbs]. rewrite (proj2 (Z.ltb_lt _ _)) by done. simpl.
    unfold json_rune at 1. simpl. rewrite (proj2 (Z.eqb_neq _ _)) by (unfold RuneError; lia). simpl.
    f_equal. rewrite drop_0. apply IH; [lia|done]. }
  unfold json_string, runes. rewrite Hr by done. unfold of_bytes, bytes_of.
  rewrite <-list_fmap_compose. rewrite <-(String.string_of_list_ascii_of_string s) at 2. f_equal.
  rewrite <-list_fmap_id. apply list_fmap_ext. intros i c _. simpl.
  by rewrite N2Z.id, Ascii.ascii_N_embedding.
Qed.

(** ** What goes wrong *)

(** A worker that asks while the queue is empty is answered [GOT] with no task, and
    dereferences it. *)
Lemma worker_panics_on_empty_queue `{KeySort} mapf reducef m fs :
  phase m = "map"%string → freeTaskQueue m = [] →
  ∃ reply, ReqTask (phase m) m = Some (m, reply) ∧ run_turn mapf reducef reply fs = None.
Proof. intros Hp Hq. eexists. split; [by apply ReqTask_empty_queue|done]. Qed.

(** ** Witnesses *)
Module WcDemo.
#[export] Instance demo_letters : UnicodeLetters :=
  {| IsLetter := λ r, between 65 r 90 || between 97 r 122 |}.

#[export] Program Instance demo_sort : KeySort := {| sort_Sort := merge_sort key_le |}.
Next Obligation. intros kvs. apply merge_sort_Permutation. Qed.
Next Obligation.
  intros kvs. apply StronglySorted_merge_sort.
  - intros a b c. apply (transitivity (R := String.le)).
  - intros a b. apply (total String.le).
Qed.

Definition demo_text (_ : string) : string := "to be or not to be".
Definition demo_fs : FS := {["pg"%string := TextFile [demo_text ""]]}.

Lemma demo_job : job_ok Wc.Map Wc.Reduce ["pg"%string] demo_text 2.
Proof.
  split; [done| | |apply Wc_Reduce_insensitive].
  - intros f Hf. apply list_elem_of_singleton in Hf as ->. reflexivity.
  - repeat constructor.
Qed.
End WcDemo.

Lemma mapreduce_matches_sequential_witness :
  ∃ fs', work (H := WcDemo.demo_sort) (Wc.Map (H := WcDemo.demo_letters)) Wc.Reduce
    [map_task ["pg"%string] 2 0 "pg"; reduce_task ["pg"%string] 2 1; map_task ["pg"%string] 2 0 "pg";
     reduce_task ["pg"%string] 2 0] WcDemo.demo_fs = Some fs'.
Proof.
  destruct (mapreduce_matches_sequential (H := WcDemo.demo_sort) (Wc.Map (H := WcDemo.demo_letters)) Wc.Reduce
    ["pg"%string] WcDemo.demo_text 2
    [map_task ["pg"%string] 2 0 "pg"]
    [reduce_task ["pg"%string] 2 1; map_task ["pg"%string] 2 0 "pg"; reduce_task ["pg"%string] 2 0]
    WcDemo.demo_fs WcDemo.demo_job) as (fs' & _ & _ & _ & Hw & _).
  - intros f Hf. apply list_elem_of_singleton in Hf as ->. vm_compute. reflexivity.
  - constructor; [|constructor]. by exists 0, "pg"%string.
  - intros i f [Hi Hf]%slice_get_Some. apply list_lookup_singleton_Some in Hf as [Hf <-].
    replace i with 0 by lia. set_solver.
  - constructor; [right; by exists 1|]. constructor; [left; by exists 0, "pg"%string|].
    constructor; [right; by exists 0|constructor].
  - intros j Hj. assert (j = 0 ∨ j = 1) as [-> | ->] by lia; set_solver.
  - exists fs'. exact Hw.
Defined.

Lemma wc_counts_witness :
  line "be" "2" ∈ lines_of (H := WcDemo.demo_sort) Wc.Reduce
    (emitted (Wc.Map (H := WcDemo.demo_letters)) ["pg"%string] WcDemo.demo_text).
Proof.
  apply (wc_counts (H := WcDemo.demo_sort) (H0 := WcDemo.demo_letters) ["pg"%string] WcDemo.demo_text 2 "be").
  vm_compute. apply list_elem_of_further, list_elem_of_here.
Defined.
