(* ===== verification/MrSystem.v ===== *)
(** * MapReduce: master, workers and files together

    The whole job as one step relation: the master's handlers and [schedule], and any number
    of workers that register, request tasks, do them file by file, report, and die at any
    moment ([src/6.824/src/mr/worker.go] with [master.go]).  When no two living workers
    have the same task, the files of a finished job are those of the sequential program;
    when two have, they need not be. *)
From S2P Require Import Prelude MrMaster MrWorker.
#[local] Open Scope Z_scope.

(** ** A worker's turn, in pieces

    Where a worker is in [run]: between two calls, with a reply, in one of the loops of
    [doMapTask] and [doReduceTask], about to report, or out of the loop.  [todo] are the
    files not yet created, with their contents. *)
Inductive WorkerPc :=
  | PIdle
  | PReply (r : TaskReply)
  | PMap (t : Task) (todo : list (Z * list KeyValue))
  | PFill (t : Task) (i : Z) (par : list KeyValue) (todo : list (Z * list KeyValue))
  | PRead (t : Task) (i : Z) (intermediate : list KeyValue)
  | PWrite (t : Task) (lines : list string)
  | PReport (t : Task)
  | PStop.

(** The task a worker has. *)
Definition held (pc : WorkerPc) : option Task :=
  match pc with
  | PIdle | PStop => None
  | PReply r => reply_Task r
  | PMap t _ | PFill t _ _ _ | PRead t _ _ | PWrite t _ | PReport t => Some t
  end.

Section system.
Context `{KeySort} (mapf : string → string → list KeyValue) (reducef : string → list string → string).
Implicit Types (t : Task) (pc : WorkerPc) (fs : FS) (i j : Z) (m : Master).

(** The partitions [doMapTask] has made when it begins to write. *)
Definition map_partitions t fs : option (list (list KeyValue)) :=
  content ← read_text (FileName t) fs;
  partitions ← make_slice (NReduce t) [];
  foldM (add_partition (NReduce t)) partitions (mapf (FileName t) content).

Definition inter_path t i : string := "./" +:+ inter_name (Imap t) i.

(** The pieces.  [os.Create] truncates the file; while a file is being written it holds
    some of its contents. *)
Inductive turn_step : WorkerPc → FS → WorkerPc → FS → Prop :=
  | t_stop r fs : TaskReplyState r = FIN → turn_step (PReply r) fs PStop fs
  | t_sleep r fs : TaskReplyState r = BARRIER → turn_step (PReply r) fs PIdle fs
  | t_other r t fs :
      TaskReplyState r ≠ FIN → TaskReplyState r ≠ BARRIER → reply_Task r = Some t →
      TaskReplyState r ≠ GOT ∨ Phase t ≠ "map"%string ∧ Phase t ≠ "reduce"%string → turn_step (PReply r) fs PIdle fs
  | t_map t ps fs :
      Phase t = "map"%string → map_partitions t fs = Some ps →
      turn_step (PReply (MkTaskReply GOT (Some t))) fs (PMap t (zip (seqZ 0 (len ps)) ps)) fs
  | t_create t i par todo fs :
      turn_step (PMap t ((i, par) :: todo)) fs (PFill t i par todo) (create (inter_path t i) (JsonFile []) fs)
  | t_partial t i par todo k fs :
      turn_step (PFill t i par todo) fs (PFill t i par todo) (create (inter_path t i) (JsonFile (take k par)) fs)
  | t_filled t i par todo fs :
      turn_step (PFill t i par todo) fs (PMap t todo) (create (inter_path t i) (JsonFile par) fs)
  | t_mapped t fs : turn_step (PMap t []) fs (PReport t) fs
  | t_reduce t fs :
      Phase t = "reduce"%string →
      turn_step (PReply (MkTaskReply GOT (Some t))) fs (PRead t 0 []) (create (out_name (IReduce t)) (TextFile []) fs)
  | t_read t i acc kvs fs :
      i < NMap t → read_json (inter_name i (IReduce t)) fs = Some kvs →
      turn_step (PRead t i acc) fs (PRead t (i + 1) (acc ++ kvs)) fs
  | t_sort t i acc fs :
      NMap t ≤ i → turn_step (PRead t i acc) fs (PWrite t (reduce_lines reducef (sort_Sort acc))) fs
  | t_write t lines k fs :
      turn_step (PWrite t lines) fs (PWrite t lines) (create (out_name (IReduce t)) (TextFile (take k lines)) fs)
  | t_written t lines fs :
      turn_step (PWrite t lines) fs (PReport t) (create (out_name (IReduce t)) (TextFile lines) fs).

(** ** The system *)

Record Sys := MkSys { sy_master : Master; sy_fs : FS; sy_workers : gmap nat WorkerPc }.

(** Workers are numbered as they are started.  A call carries its arguments to the master's
    handler and brings the reply back; when it fails, or when a handler or a file is
    missing, the worker ends its process, as it may at any moment. *)
Inductive sys_step : Sys → Sys → Prop :=
  | y_register m fs ws w :
      ws !! w = None → sys_step (MkSys m fs ws) (MkSys (WorkerRegister m).1 fs (<[w := PIdle]> ws))
  | y_request seen m m' r fs ws w :
      ws !! w = Some PIdle → ReqTask seen m = Some (m', r) →
      sys_step (MkSys m fs ws) (MkSys m' fs (<[w := PReply r]> ws))
  | y_turn m fs fs' ws w pc pc' :
      ws !! w = Some pc → turn_step pc fs pc' fs' → sys_step (MkSys m fs ws) (MkSys m fs' (<[w := pc']> ws))
  | y_report m m' fs ws w t :
      ws !! w = Some (PReport t) → ReportTask t m = Some m' →
      sys_step (MkSys m fs ws) (MkSys m' fs (<[w := PIdle]> ws))
  | y_schedule m m' now again fs ws : schedule_once now m = Some (m', again) →
      sys_step (MkSys m fs ws) (MkSys m' fs ws)
  | y_die m fs ws w : sys_step (MkSys m fs ws) (MkSys m fs (delete w ws)).

(** No two living workers have the same task. *)
Definition one_worker (s : Sys) : Prop :=
  ∀ w w' pc pc' t, sy_workers s !! w = Some pc → sy_workers s !! w' = Some pc' →
    held pc = Some t → held pc' = Some t → w = w'.

Definition sys_start (now : Z) (args : list string) (nR : Z) (fs : FS) : Sys := MkSys (MakeMaster now args nR) fs ∅.

(** Runs in which that is so throughout. *)
Definition exclusive_step (s s' : Sys) : Prop := sys_step s s' ∧ one_worker s'.
Definition exclusive_run (now : Z) (args : list string) (nR : Z) (fs : FS) (s : Sys) : Prop :=
  rtc exclusive_step (sys_start now args nR fs) s.

(** ** A worker alone *)

Definition alone (x y : WorkerPc * FS) : Prop := turn_step x.1 x.2 y.1 y.2.

Lemma alone_l pc fs pc1 fs1 y : turn_step pc fs pc1 fs1 → rtc alone (pc1, fs1) y → rtc alone (pc, fs) y.
Proof. intros Ht. by apply (rtc_l alone (pc, fs) (pc1, fs1)). Qed.

Lemma alone_once pc fs pc1 fs1 : turn_step pc fs pc1 fs1 → rtc alone (pc, fs) (pc1, fs1).
Proof. intros Ht. by apply (alone_l _ _ pc1 fs1). Qed.

Definition turn_end (next : WorkerNext) : WorkerPc :=
  match next with Stop => PStop | Sleep => PIdle | Report t => PReport t end.

Lemma alone_map t todo fs :
  rtc alone (PMap t todo, fs) (PReport t, foldl (λ fs '(i, par), create (inter_path t i) (JsonFile par) fs) fs todo).
Proof.
  revert fs. induction todo as [|[i par] todo IH]; intros fs; [apply alone_once, t_mapped|].
  eapply alone_l; [apply t_create|]. eapply alone_l; [apply t_filled|]. simpl.
  assert (create (inter_path t i) (JsonFile par) (create (inter_path t i) (JsonFile []) fs) = create (inter_path t i) (JsonFile par) fs) as ->.
  { unfold create. by rewrite insert_insert_eq. }
  apply IH.
Qed.

Lemma alone_read t i acc kvss fs :
  0 ≤ i ≤ NMap t → mapM (λ i, read_json (inter_name i (IReduce t)) fs) (seqZ i (NMap t - i)) = Some kvss →
  rtc alone (PRead t i acc, fs) (PRead t (NMap t) (acc ++ concat kvss), fs).
Proof.
  intros Hi. remember (Z.to_nat (NMap t - i)) as n eqn:Hn. revert i acc kvss Hi Hn.
  induction n as [|n IH]; intros i acc kvss Hi Hn Hm.
  - replace (NMap t - i) with 0 in Hm by lia. simpl in Hm. injection Hm as <-. simpl. rewrite app_nil_r.
    by replace (NMap t) with i by lia.
  - rewrite seqZ_cons in Hm by lia. cbn [mapM] in Hm.
    destruct (read_json _ fs) as [kvs|] eqn:Hr; cbn [mbind option_bind] in Hm; [|done].
    destruct (mapM _ _) as [rest|] eqn:Hrest; cbn [mbind option_bind] in Hm; [|done]. injection Hm as <-.
    eapply alone_l; [apply t_read; [lia|exact Hr]|]. rewrite concat_cons, app_assoc.
    apply (IH (i + 1)); [lia|lia|]. by replace (NMap t - (i + 1)) with (Z.pred (NMap t - i)) by lia.
Qed.

(** Without interference the pieces do what the turn of [MrWorker] does. *)
Lemma turn_alone r fs next fs' :
  (∀ t, reply_Task r = Some t → 0 ≤ NMap t) → run_turn mapf reducef r fs = Some (next, fs') →
  rtc alone (PReply r, fs) (turn_end next, fs').
Proof.
  intros HN. unfold run_turn. destruct (Z.eqb_spec (TaskReplyState r) FIN) as [Hf|Hf].
  { intros [= <- <-]. by apply alone_once, t_stop. }
  destruct (Z.eqb_spec (TaskReplyState r) BARRIER) as [Hb|Hb]; [intros [= <- <-]; by apply alone_once, t_sleep|].
  destruct r as [st [t|]]; cbn [mbind option_bind]; [|done]. simpl in *.
  destruct (Z.eqb_spec st GOT) as [->|Hg]; cbn [andb].
  2:{ intros [= <- <-]. apply alone_once. eapply t_other; simpl; auto. }
  case_bool_decide as Hmap.
  { destruct (doMapTask mapf t fs) as [fs1|] eqn:Hd; cbn [mbind option_bind]; [|done]. intros [= <- <-].
    unfold doMapTask in Hd. destruct (map_partitions t fs) as [ps|] eqn:Hps.
    2:{ unfold map_partitions in Hps. destruct (read_text _ fs) as [content|]; cbn [mbind option_bind] in *; [|done].
        destruct (make_slice _ _) as [ps0|]; cbn [mbind option_bind] in *; [|done]. by rewrite Hps in Hd. }
    eapply alone_l; [by apply t_map|]. pose proof Hps as Hps'. unfold map_partitions in Hps'.
    destruct (read_text _ fs) as [content|]; cbn [mbind option_bind] in *; [|done].
    destruct (make_slice _ _) as [ps0|]; cbn [mbind option_bind] in *; [|done].
    rewrite Hps' in Hd. cbn [mbind option_bind] in Hd. injection Hd as <-. apply alone_map. }
  case_bool_decide as Hred.
  2:{ intros [= <- <-]. apply alone_once. eapply t_other; simpl; auto. }
  destruct (doReduceTask reducef t fs) as [fs1|] eqn:Hd; cbn [mbind option_bind]; [|done]. intros [= <- <-].
  unfold doReduceTask, read_partitions in Hd. set (fs0 := create (out_name (IReduce t)) (TextFile []) fs) in *.
  destruct (mapM _ _) as [kvss|] eqn:Hm; cbn [mbind option_bind] in Hd; [|done]. injection Hd as <-.
  eapply alone_l; [by apply t_reduce|]. fold fs0.
  etrans; [apply (alone_read t 0 [] kvss); [specialize (HN t eq_refl); lia|by rewrite Z.sub_0_r]|].
  eapply alone_l; [by apply t_sort|]. apply alone_once. apply t_written.
Qed.
End system.

(** ** The job's invariant *)

Section job.
Context `{KeySort} (mapf : string → string → list KeyValue) (reducef : string → list string → string).
Context (args : list string) (text : string → string) (nR : Z).
Hypothesis Hok : job_ok mapf reducef args text nR.
Implicit Types (t : Task) (pc : WorkerPc) (fs : FS) (i j k : Z) (m : Master) (ws : gmap nat WorkerPc) (f : string).

Local Abbreviation mtask := (map_task args nR).
Local Abbreviation rtask := (reduce_task args nR).
Local Abbreviation turn := (turn_step mapf reducef).

Definition known t : Prop := (∃ i f, args.[i] = Some f ∧ t = mtask i f) ∨ ∃ j, t = rtask j.

Definition master_ok m : Prop := files m = args ∧ nTask m = len args ∧ nReduce m = nR ∧ Forall known (freeTaskQueue m).

Definition map_complete fs i : Prop := ∀ f j, args.[i] = Some f → 0 ≤ j < nR →
  fs !! inter_name i j = Some (JsonFile (part nR j (mapf f (text f)))).
Definition out_complete fs j : Prop :=
  fs !! out_name j = Some (TextFile (lines_of reducef (part nR j (emitted mapf args text)))).

(** Some living worker has the task. *)
Definition running ws t : Prop := ∃ w pc, ws !! w = Some pc ∧ held pc = Some t.

Definition map_done fs ws i : Prop := map_complete fs i ∧ ∀ f, args.[i] = Some f → ¬ running ws (mtask i f).
Definition red_done fs ws j : Prop := out_complete fs j ∧ ¬ running ws (rtask j).

(** What a worker has to write for an input, and has written. *)
Definition map_todo f : list (Z * list KeyValue) := (λ j, (j, part nR j (mapf f (text f)))) <$> seqZ 0 nR.
Definition written fs i (pre : list (Z * list KeyValue)) : Prop :=
  ∀ j par, (j, par) ∈ pre → fs !! inter_name i j = Some (JsonFile par).

Definition pc_ok fs pc : Prop :=
  match pc with
  | PIdle | PStop | PReply _ => True
  | PMap t todo => ∃ i f pre, args.[i] = Some f ∧ t = mtask i f ∧ map_todo f = pre ++ todo ∧ written fs i pre
  | PFill t j par todo =>
      ∃ i f pre, args.[i] = Some f ∧ t = mtask i f ∧ map_todo f = pre ++ (j, par) :: todo ∧ written fs i pre
  | PRead t i acc => ∃ j, t = rtask j ∧ 0 ≤ i ≤ len args
      ∧ acc = part nR j (concat ((λ f, mapf f (text f)) <$> take (Z.to_nat i) args))
  | PWrite t lines => ∃ j, t = rtask j ∧ lines = lines_of reducef (part nR j (emitted mapf args text))
  | PReport t => (∃ i f, args.[i] = Some f ∧ t = mtask i f ∧ map_complete fs i) ∨ ∃ j, t = rtask j ∧ out_complete fs j
  end.

(** The files a task writes. *)
Definition owns t (name : string) : Prop :=
  Phase t = "map"%string ∧ (∃ j, name = inter_name (Imap t) j) ∨ Phase t = "reduce"%string ∧ name = out_name (IReduce t).

Lemma arg_range i f : args.[i] = Some f → 0 ≤ i < len args.
Proof. intros Hf. by apply slice_get_is_Some; exists f. Qed.

Lemma owns_one t t' name : known t → known t' → owns t name → owns t' name → t = t'.
Proof.
  intros [(i & f & Hf & ->)|[j ->]] [(i' & f' & Hf' & ->)|[j' ->]] [[Hp Ho]|[Hp Ho]] [[Hp' Ho']|[Hp' Ho']]; try done; simpl in *.
  - destruct Ho as [j ->], Ho' as [j' Hj]. apply inter_name_inj in Hj as [<- _]; [|by apply arg_range in Hf; lia|by apply arg_range in Hf'; lia].
    congruence.
  - destruct Ho as [j ->]. exfalso. eapply (out_name_ne_inter i); [|done]. apply arg_range in Hf. lia.
  - destruct Ho' as [j1 ->]. exfalso. eapply (out_name_ne_inter i'); [|done]. apply arg_range in Hf'. lia.
  - subst name. by apply out_name_inj in Ho' as ->.
Qed.

Lemma known_is_task t : known t → is_task t.
Proof. intros [(i & f & _ & ->)|[j ->]]; [by left|by right]. Qed.

(** *** The files *)

Lemma create_ne path path' c fs : clean path ≠ path' → create path c fs !! path' = fs !! path'.
Proof. intros Hne. rewrite create_lookup. by rewrite decide_False. Qed.

Lemma turn_frame pc fs pc' fs' :
  pc_ok fs pc → turn pc fs pc' fs' → ∀ name, (∀ t, held pc = Some t → ¬ owns t name) → fs' !! name = fs !! name.
Proof.
  intros Hpc Hstep name Hown. destruct Hstep; try done; simpl in Hpc, Hown; specialize (Hown _ eq_refl); apply create_ne; intros He; apply Hown.
  - destruct Hpc as (i' & f & pre & _ & -> & _). left. split; [done|]. by exists i.
  - destruct Hpc as (i' & f & pre & _ & -> & _). left. split; [done|]. by exists i.
  - destruct Hpc as (i' & f & pre & _ & -> & _). left. split; [done|]. by exists i.
  - right. split; [done|]. by rewrite <-He.
  - destruct Hpc as (j & -> & _). right. split; [done|]. by rewrite <-He.
  - destruct Hpc as (j & -> & _). right. split; [done|]. by rewrite <-He.
Qed.

Lemma turn_held pc fs pc' fs' t : turn pc fs pc' fs' → held pc' = Some t → held pc = Some t.
Proof. by destruct 1; simpl. Qed.

Lemma map_complete_frame fs fs' i f :
  args.[i] = Some f → (∀ j, fs' !! inter_name i j = fs !! inter_name i j) → map_complete fs i → map_complete fs' i.
Proof. intros Hf Hfr Hc f' j Hf' Hj. rewrite Hfr. by apply Hc. Qed.

Lemma pc_ok_frame fs fs' pc :
  (∀ t name, held pc = Some t → owns t name → fs' !! name = fs !! name) → pc_ok fs pc → pc_ok fs' pc.
Proof.
  intros Hfr. destruct pc as [|r|t todo|t j par todo|t i acc|t lines|t|]; simpl in *; try done; specialize (Hfr t).
  - intros (i & f & pre & Hf & -> & Hp & Hw). exists i, f, pre. split_and!; [done..|]. intros j par Hin.
    rewrite Hfr; [by apply Hw|done|]. left. split; [done|]. by exists j.
  - intros (i & f & pre & Hf & -> & Hp & Hw). exists i, f, pre. split_and!; [done..|]. intros j' par' Hin.
    rewrite Hfr; [by apply Hw|done|]. left. split; [done|]. by exists j'.
  - intros [(i & f & Hf & -> & Hc)|(j & -> & Hc)]; [left|right].
    + exists i, f. split_and!; [done..|]. eapply map_complete_frame; [exact Hf| |exact Hc]. intros j. apply Hfr; [done|].
      left. split; [done|]. by exists j.
    + exists j. split; [done|]. unfold out_complete in *. rewrite Hfr; [done|done|]. by right.
Qed.

(** *** What a worker does *)

Lemma map_todo_elem f j par : (j, par) ∈ map_todo f ↔ 0 ≤ j < nR ∧ par = part nR j (mapf f (text f)).
Proof. unfold map_todo. rewrite list_elem_of_fmap. setoid_rewrite elem_of_seqZ. naive_solver lia. Qed.

Lemma map_todo_fst f : (map_todo f).*1 = seqZ 0 nR.
Proof. unfold map_todo. rewrite <-list_fmap_compose. simpl. apply list_fmap_id. Qed.

Lemma map_todo_partitions i f fs ps :
  args.[i] = Some f → inputs_at args text fs → map_partitions mapf (mtask i f) fs = Some ps →
  zip (seqZ 0 (len ps)) ps = map_todo f.
Proof.
  intros Hf Hin. pose proof (job_nR _ _ _ _ _ Hok) as HnR. unfold map_partitions. simpl.
  rewrite (Hin f) by by eapply slice_get_elem. cbn [mbind option_bind]. rewrite make_slice_nonneg by lia. cbn [mbind option_bind].
  destruct (add_partition_spec nR (mapf f (text f)) (replicate (Z.to_nat nR) []) HnR) as (ps' & -> & Hl & Hps);
    [rewrite length_replicate; lia|]. intros [= <-].
  apply list_eq. intros k. unfold map_todo. rewrite list_lookup_fmap, Hl.
  destruct (decide (k < Z.to_nat nR)%nat) as [Hk|Hk].
  - assert (seqZ 0 nR !! k = Some (Z.of_nat k)) as Hs by (rewrite lookup_seqZ_lt by lia; f_equal; lia). rewrite Hs. simpl.
    assert (ps' !! k = Some (part nR (Z.of_nat k) (mapf f (text f)))) as Hp.
    { specialize (Hps (Z.of_nat k) []). rewrite app_nil_l in Hps.
      assert (ps'.[Z.of_nat k] = Some (part nR (Z.of_nat k) (mapf f (text f)))) as Hg.
      { apply Hps, slice_get_Some. split; [lia|]. rewrite Nat2Z.id. apply lookup_replicate_2. lia. }
      apply slice_get_Some in Hg as [_ Hg]. by rewrite Nat2Z.id in Hg. }
    by rewrite lookup_zip_with, Hs, Hp.
  - rewrite (lookup_ge_None_2 (seqZ 0 nR)) by (rewrite length_seqZ; lia). simpl.
    apply lookup_ge_None_2. rewrite length_zip_with, length_seqZ. lia.
Qed.

(** Creating the next file of a map task leaves those before it. *)
Lemma written_create i f pre j par todo c fs :
  args.[i] = Some f → map_todo f = pre ++ (j, par) :: todo → written fs i pre →
  written (create (inter_path (mtask i f) j) c fs) i pre
    ∧ create (inter_path (mtask i f) j) c fs !! inter_name i j = Some c.
Proof.
  intros Hf Htodo Hw. split; [|by rewrite create_lookup, decide_True].
  intros j' par' Hin. rewrite create_ne; [by apply Hw|]. intros He.
  apply (inter_name_inj i j i j') in He as [_ <-]; [|by apply arg_range in Hf; lia..].
  pose proof (map_todo_fst f) as Hfst. rewrite Htodo, fmap_app, fmap_cons in Hfst.
  assert (NoDup (pre.*1 ++ j :: todo.*1)) as Hnd by (simpl in Hfst; rewrite Hfst; apply NoDup_seqZ).
  apply list.NoDup_app in Hnd as (_ & Hd & _). apply (Hd j); [|left].
  apply list_elem_of_fmap. by exists (j, par').
Qed.

Lemma json_part i f j : args.[i] = Some f → json_kv <$> part nR j (mapf f (text f)) = part nR j (mapf f (text f)).
Proof.
  intros Hf%slice_get_elem. pose proof (job_text _ _ _ _ _ Hok) as Ht. unfold emitted in Ht.
  rewrite Forall_concat, Forall_fmap, list.Forall_forall in Ht. specialize (Ht f Hf). simpl in Ht.
  unfold part. induction Ht as [|kv kvs Hkv _ IH]; [done|]. rewrite filter_cons. case_decide; [|done].
  rewrite fmap_cons. by f_equal.
Qed.

Lemma take_arg i f : args.[i] = Some f → take (Z.to_nat (i + 1)) args = take (Z.to_nat i) args ++ [f].
Proof.
  intros [Hi Hf]%slice_get_Some. replace (Z.to_nat (i + 1)) with (S (Z.to_nat i)) by lia. by apply take_S_r.
Qed.

Lemma turn_ok pc fs pc' fs' :
  inputs_at args text fs → (∀ t, held pc = Some t → known t) → (∀ j, held pc = Some (rtask j) → 0 ≤ j < nR ∧ ∀ i, map_complete fs i) →
  pc_ok fs pc → turn pc fs pc' fs' → pc_ok fs' pc'.
Proof.
  intros Hin Hknown Hred Hpc Hstep. destruct Hstep as [| | |t ps fs Hp Hps|t i par todo fs|t i par todo k fs|t i par todo fs|t fs|
    t fs Hp|t i acc kvs fs Hi Hr|t i acc fs Hi|t lines k fs|t lines fs]; simpl in *; try done.
  - destruct (Hknown t eq_refl) as [(i & f & Hf & ->)|[j ->]]; [|done]. exists i, f, []. split_and!; [done|done| |].
    + symmetry. by eapply map_todo_partitions.
    + by intros j par ?%elem_of_nil.
  - destruct Hpc as (i' & f & pre & Hf & -> & Htodo & Hw). exists i', f, pre. split_and!; [done..|].
    by eapply written_create.
  - destruct Hpc as (i' & f & pre & Hf & -> & Htodo & Hw). exists i', f, pre. split_and!; [done..|].
    by eapply written_create.
  - destruct Hpc as (i' & f & pre & Hf & -> & Htodo & Hw). exists i', f, (pre ++ [(i, par)]). split_and!; [done|done|by rewrite <-app_assoc|].
    destruct (written_create i' f pre i par todo (JsonFile par) fs Hf Htodo Hw) as [Hw' Hnew].
    intros j par' [Hj|[= -> ->]%list_elem_of_singleton]%elem_of_app; [by apply Hw'|exact Hnew].
  - destruct Hpc as (i & f & pre & Hf & -> & Htodo & Hw). left. exists i, f. split_and!; [done..|].
    intros f' j Hf' Hj. replace f' with f by congruence. apply Hw. rewrite app_nil_r in Htodo. rewrite <-Htodo. by apply map_todo_elem.
  - destruct (Hknown t eq_refl) as [(i & f & Hf & ->)|[j ->]]; [done|]. exists j. split_and!; [done|lia|lia|done].
  - destruct Hpc as (j & -> & Hrange & ->). exists j. simpl in *. split_and!; [done|lia|lia|].
    destruct (Hred j eq_refl) as [Hj Hmaps]. destruct (slice_get_lt args i) as [f Hf]; [lia|].
    rewrite (take_arg i f Hf), fmap_app, concat_app, fmap_cons. simpl. rewrite app_nil_r.
    unfold read_json in Hr. change (clean (inter_name i j)) with (inter_name i j) in Hr.
    rewrite (Hmaps i f j Hf Hj) in Hr. simpl in Hr. injection Hr as <-. change (list_fmap _ _ json_kv) with (fmap (M:=list) json_kv).
    rewrite (json_part i f j Hf). unfold part. by rewrite list.filter_app.
  - destruct Hpc as (j & -> & Hrange & ->). simpl in Hi. exists j. split; [done|].
    rewrite (take_ge args) by lia. done.
  - destruct Hpc as (j & -> & ->). right. exists j. split; [done|]. unfold out_complete.
    change (clean _) with (out_name j). rewrite create_lookup. by rewrite decide_True.
Qed.

(** *** What the master keeps *)

Lemma enqueue_master i m m' : master_ok m → enqueue i m = Some m' → master_ok m'.
Proof.
  intros (Hf & Hn & Hk & Hq). unfold enqueue. destruct (getTask i m) as [task|] eqn:Hg; cbn [mbind option_bind]; [|done].
  intros (l & u & -> & _)%set_status_spec. split_and!; try done. simpl. apply Forall_app. split; [done|]. apply Forall_singleton.
  unfold getTask in Hg. rewrite Hf, Hn, Hk in Hg. destruct (contains _ _).
  - destruct (args.[i]) as [f|] eqn:Ha; cbn [mbind option_bind] in Hg; [|done]. injection Hg as <-. left. by exists i, f.
  - injection Hg as <-. right. by exists i.
Qed.

Lemma master_ok_phase p m : master_ok m → master_ok (m <| phase := p |>).
Proof. done. Qed.

Lemma body_master m b m' b' i u now next :
  map_body i u (m, b) = Some (m', b') ∨ barrier_body next now i u (m, b) = Some (m', b') ∨ reduce_body now i u (m, b) = Some (m', b') →
  master_ok m → master_ok m'.
Proof.
  intros Hb Hm. pose proof (λ m', enqueue_master i m m' Hm) as He.
  destruct Hb as [Hb|[Hb|Hb]]; [unfold map_body in Hb|unfold barrier_body in Hb|unfold reduce_body in Hb].
  all: destruct (enqueue i m) as [m1|]; [specialize (He m1 eq_refl)|];
    repeat (case_match; cbn [mbind option_bind] in *; simplify_eq); auto.
Qed.

Lemma schedule_master now m m' again : master_ok m → schedule_once now m = Some (m', again) → master_ok m'.
Proof.
  intros Hm. unfold schedule_once.
  assert (∀ body b m1 b1, (∀ i u ma ba mb bb, body i u (ma, ba) = Some (mb, bb) → master_ok ma → master_ok mb) →
    range_tasks body 0 (allTask m) (m, b) = Some (m1, b1) → master_ok m1) as Hloop.
  { intros body b m1 b1 Hb Hr. by apply (range_tasks_ind master_ok _ _ _ _ _ _ _ Hb) in Hr. }
  repeat case_bool_decide; [..|by intros [= <- <-]].
  - destruct (range_tasks _ _ _ _) as [[m1 b]|] eqn:Hr; cbn [mbind option_bind]; [|done]. intros [= <- <-].
    apply Hloop in Hr; [by destruct b|]. intros i u ma ba mb bb Hb. eapply (body_master _ _ _ _ _ _ 0 ""); eauto.
  - destruct (range_tasks _ _ _ _) as [[m1 b]|] eqn:Hr; cbn [mbind option_bind]; [|done].
    apply Hloop in Hr; [|intros i u ma ba mb bb Hb; eapply body_master; eauto].
    destruct b; [|by intros [= <- <-]]. destruct (make_slice _ _) as [ts|]; cbn [mbind option_bind]; [|done]. intros [= <- <-].
    destruct Hr as (? & ? & ? & ?). split_and!; [done..|constructor].
  - destruct (range_tasks _ _ _ _) as [[m1 b]|] eqn:Hr; cbn [mbind option_bind]; [|done]. intros [= <- <-].
    apply Hloop in Hr; [by destruct b|]. intros i u ma ba mb bb Hb. eapply (body_master _ _ _ _ _ _ _ ""); eauto.
  - destruct (range_tasks _ _ _ _) as [[m1 b]|] eqn:Hr; cbn [mbind option_bind]; [|done]. intros [= <- <-].
    apply Hloop in Hr; [by destruct b|]. intros i u ma ba mb bb Hb. eapply body_master; eauto.
Qed.

(** Handing out: no task, or the first of the queue, whose entry is no longer complete. *)
Lemma ReqTask_cases seen m m' r :
  ReqTask seen m = Some (m', r) →
  m' = m ∧ reply_Task r = None
  ∨ ∃ t q i, freeTaskQueue m = t :: q ∧ reply_Task r = Some t ∧ phase m ≠ "fin"%string
      ∧ i = (if decide (phase m = "map"%string) then Imap t else IReduce t)
      ∧ (phase m = "map"%string ∨ phase m = "reduce"%string)
      ∧ set_status i IN_PROGRESS (m <| freeTaskQueue := q |>) = Some m'.
Proof.
  unfold ReqTask. destruct (_ || _); [intros [= <- <-]; by left|].
  case_bool_decide as Hfin; [intros [= <- <-]; by left|].
  destruct (bool_decide (phase m = "map"%string) || _) eqn:Hp; [|intros [= <- <-]; by left].
  apply orb_true_iff in Hp. rewrite !bool_decide_eq_true in Hp.
  destruct (freeTaskQueue m) as [|t q]; [intros [= <- <-]; by left|].
  change (phase (m <| freeTaskQueue := q |>)) with (phase m).
  destruct (if bool_decide (phase m = "map"%string) then _ else _) as [m1|] eqn:Hs; cbn [mbind option_bind]; [|done].
  intros [= <- <-]. right. eexists t, q, _. split_and!; [done|done|by destruct Hp as [-> | ->]|done|done|].
  case_bool_decide as Hm; [rewrite decide_True by done|rewrite decide_False by done]; exact Hs.
Qed.

Lemma completed_started R i st m m' :
  set_status i st m = Some m' → st ≠ COMPLETED → completed_by R m → completed_by (λ k, R k ∧ k ≠ i) m'.
Proof.
  intros (l & u & -> & _ & Hi & Hu & Hne)%set_status_spec Hst Hc k v Hk Hv. simpl in Hk.
  destruct (decide (k = i)) as [->|Hki]; [congruence|]. split; [|done]. rewrite Hne in Hk by done. by eapply Hc.
Qed.

Lemma set_status_range i st m m' : set_status i st m = Some m' → 0 ≤ i < len (allTask m).
Proof.
  unfold set_status. destruct ((allTask m).[i]) as [u|] eqn:Hu; simpl; [|done]. intros _.
  apply slice_get_is_Some. by exists u.
Qed.

(** *** The system *)

Definition all_held ws (P : Task → Prop) : Prop := ∀ t, running ws t → P t.

Definition mapping_inv m fs ws : Prop :=
  is_mapping (phase m) ∧ Forall (λ t, Phase t = "map"%string) (freeTaskQueue m) ∧ len (allTask m) = len args
  ∧ all_held ws (λ t, Phase t = "map"%string) ∧ completed_by (map_done fs ws) m.

Definition reducing_inv m fs ws : Prop :=
  is_reducing (phase m) ∧ Forall (λ t, Phase t = "reduce"%string) (freeTaskQueue m) ∧ len (allTask m) = nR
  ∧ all_held ws (λ t, Phase t = "reduce"%string ∧ 0 ≤ IReduce t < nR) ∧ (∀ i, map_complete fs i)
  ∧ completed_by (red_done fs ws) m ∧ (phase m = "fin"%string → ∀ j, 0 ≤ j < nR → red_done fs ws j).

Record sys_inv (s : Sys) : Prop := {
  v_master : master_ok (sy_master s);
  v_inputs : inputs_at args text (sy_fs s);
  v_known : all_held (sy_workers s) known;
  v_pc w pc : sy_workers s !! w = Some pc → pc_ok (sy_fs s) pc;
  v_phase : mapping_inv (sy_master s) (sy_fs s) (sy_workers s) ∨ reducing_inv (sy_master s) (sy_fs s) (sy_workers s)
}.

Lemma running_insert ws w pc t : running (<[w := pc]> ws) t → held pc = Some t ∨ running (delete w ws) t.
Proof.
  intros (w' & pc' & Hw & Ht). destruct (decide (w' = w)) as [->|Hne].
  - rewrite lookup_insert_eq in Hw. left. congruence.
  - rewrite lookup_insert_ne in Hw by done. right. exists w', pc'. by rewrite lookup_delete_ne.
Qed.

Lemma running_delete ws w t : running (delete w ws) t → ∃ w' pc, w' ≠ w ∧ ws !! w' = Some pc ∧ held pc = Some t.
Proof. intros (w' & pc & [Hne Hw]%lookup_delete_Some & Ht). by exists w', pc. Qed.

Lemma running_sub ws w t : running (delete w ws) t → running ws t.
Proof. intros (w' & pc & _ & ? & ?)%running_delete. by exists w', pc. Qed.

Lemma map_done_sub fs ws ws' i : (∀ t, running ws' t → running ws t) → map_done fs ws i → map_done fs ws' i.
Proof. intros Hsub [Hc Hfree]. split; [done|]. intros f Hf Hr. by eapply Hfree, Hsub. Qed.

Lemma red_done_sub fs ws ws' j : (∀ t, running ws' t → running ws t) → red_done fs ws j → red_done fs ws' j.
Proof. intros Hsub [Hc Hfree]. split; [done|]. intros Hr. by apply Hfree, Hsub. Qed.

(** Workers give up tasks, or the master's counter moves. *)
Lemma inv_shrink m m' fs ws ws' :
  (files m' = files m ∧ nTask m' = nTask m ∧ nReduce m' = nReduce m) ∧ freeTaskQueue m' = freeTaskQueue m
    ∧ allTask m' = allTask m ∧ phase m' = phase m →
  (∀ t, running ws' t → running ws t) → (∀ w pc, ws' !! w = Some pc → pc_ok fs pc) →
  sys_inv (MkSys m fs ws) → sys_inv (MkSys m' fs ws').
Proof.
  intros ((Hf & Hn & Hk) & Hq & Ha & Hp) Hsub Hpc [(? & ? & ? & ?) Hin Hknown _ Hphase]. simpl in *. split; simpl.
  - unfold master_ok. rewrite Hf, Hn, Hk, Hq. done.
  - done.
  - intros t Ht. by apply Hknown, Hsub.
  - done.
  - unfold mapping_inv, reducing_inv, completed_by. rewrite Hp, Hq, Ha.
    destruct Hphase as [(? & ? & ? & Hheld & Hc)|(? & ? & ? & Hheld & ? & Hc & Hfin)]; [left|right]; split_and!; try done.
    + intros t Ht. by apply Hheld, Hsub.
    + intros i u Hi Hu. eapply map_done_sub; [exact Hsub|]. by eapply Hc.
    + intros t Ht. by apply Hheld, Hsub.
    + intros i u Hi Hu. eapply red_done_sub; [exact Hsub|]. by eapply Hc.
    + intros Hfin' j Hj. eapply red_done_sub; [exact Hsub|]. by apply Hfin.
Qed.

(** A worker writes its own files only. *)
Lemma inv_turn m fs fs' ws w pc pc' :
  sys_inv (MkSys m fs ws) → one_worker (MkSys m fs ws) → ws !! w = Some pc → turn pc fs pc' fs' → sys_inv (MkSys m fs' (<[w := pc']> ws)).
Proof.
  intros [Hm Hin Hknown Hpcs Hphase] Hone Hw Hstep. simpl in *.
  assert (∀ t, held pc = Some t → running ws t) as Hrun by (intros t Ht; by exists w, pc).
  assert (∀ t, running (<[w := pc']> ws) t → running ws t) as Hsub.
  { intros t [Ht|Ht%running_sub]%running_insert; [|done]. by eapply Hrun, turn_held. }
  pose proof (turn_frame _ _ _ _ (Hpcs w pc Hw) Hstep) as Hframe.
  assert (∀ t name, known t → owns t name → ¬ held pc = Some t → fs' !! name = fs !! name) as Hother.
  { intros t name Ht Hname Hne. apply Hframe. intros t' Ht' Hname'. apply Hne.
    by rewrite (owns_one t t' name Ht (Hknown _ (Hrun _ Ht')) Hname Hname'). }
  assert (∀ i, map_done fs ws i → map_done fs' (<[w := pc']> ws) i) as Hmaps.
  { intros i [Hc Hfree]. split; [|intros f Hf Hr; by eapply Hfree, Hsub].
    intros f j Hf Hj. rewrite (Hother (mtask i f)); [by apply Hc|left; by exists i, f|left; split; [done|by exists j]|].
    intros Hh. by apply (Hfree f Hf), Hrun. }
  assert (∀ j, red_done fs ws j → red_done fs' (<[w := pc']> ws) j) as Hreds.
  { intros j [Hc Hfree]. split; [|intros Hr; by apply Hfree, Hsub]. unfold out_complete.
    rewrite (Hother (rtask j)); [done|right; by exists j|by right|]. intros Hh. by apply Hfree, Hrun. }
  split; simpl; [done| | | |].
  - apply (inputs_kept _ _ _ _ _ Hok fs fs'); [|done]. intros name Hname. apply Hframe.
    intros t _ [[_ [j ->]]|[_ ->]]; [by eapply Hname|by eapply (Hname ("out-" +:+ pretty (IReduce t)))].
  - intros t Ht. by apply Hknown, Hsub.
  - intros w' pc1 Hw'. destruct (decide (w' = w)) as [->|Hne].
    + rewrite lookup_insert_eq in Hw'. injection Hw' as <-. eapply turn_ok; [done| | |by eapply Hpcs|done].
      * intros t Ht. by apply Hknown, Hrun.
      * intros j Hj. destruct Hphase as [(_ & _ & _ & Hheld & _)|(_ & _ & _ & Hheld & Hc & _)].
        -- by specialize (Hheld _ (Hrun _ Hj)).
        -- split; [|done]. by destruct (Hheld _ (Hrun _ Hj)) as [_ ?].
    + rewrite lookup_insert_ne in Hw' by done. eapply pc_ok_frame; [|by eapply Hpcs].
      intros t name Ht Hname. apply (Hother t); [apply Hknown; by exists w', pc1|done|].
      intros Hh. apply Hne. symmetry. by eapply (Hone w w' pc pc1 t).
  - destruct Hphase as [(? & ? & ? & Hheld & Hc)|(? & ? & ? & Hheld & Hall & Hc & Hfin)]; [left|right]; split_and!; try done.
    + intros t Ht. by apply Hheld, Hsub.
    + intros i u Hi Hu. by eapply Hmaps, Hc.
    + intros t Ht. by apply Hheld, Hsub.
    + intros i f j Hf Hj. rewrite (Hother (mtask i f)); [by apply Hall|left; by exists i, f|left; split; [done|by exists j]|].
      intros Hh. by destruct (Hheld _ (Hrun _ Hh)).
    + intros i u Hi Hu. by eapply Hreds, Hc.
    + intros Hf j Hj. by apply Hreds, Hfin.
Qed.

Lemma inv_request seen m m' r fs ws w :
  sys_inv (MkSys m fs ws) → ws !! w = Some PIdle → ReqTask seen m = Some (m', r) → sys_inv (MkSys m' fs (<[w := PReply r]> ws)).
Proof.
  intros Hinv Hw Hreq. assert (∀ w' pc, <[w := PReply r]> ws !! w' = Some pc → pc_ok fs pc) as Hpcs.
  { intros w' pc [[_ <-]|[_ Hw']]%lookup_insert_Some; [done|]. by eapply (v_pc _ Hinv). }
  destruct (ReqTask_cases _ _ _ _ Hreq) as [[-> Hr]|(t & q & i & Hq & Hr & Hnf & Hi & Hp & Hs)].
  { eapply inv_shrink; [done| |done|exact Hinv]. intros t [Ht|?%running_sub]%running_insert; [simpl in Ht; congruence|done]. }
  destruct Hinv as [(Hf & Hn & Hk & Hqk) Hin Hknown _ Hphase]. simpl in *. rewrite Hq in Hqk. apply Forall_cons in Hqk as [Ht Hqk].
  pose proof (set_status_range _ _ _ _ Hs) as Hrange. simpl in Hrange.
  assert (∀ t', running (<[w := PReply r]> ws) t' → t' = t ∨ running ws t') as Hrun.
  { intros t' [Ht'|?%running_sub]%running_insert; [simpl in Ht'; left; congruence|by right]. }
  pose proof Hs as (l & u & -> & Hl & _)%set_status_spec. simpl in *. split; simpl; [done|done| |done|].
  - intros t' [->|?]%Hrun; [done|by apply Hknown].
  - destruct Hphase as [(Hmp & Hqm & Hlen & Hheld & Hc)|(Hmp & Hqm & Hlen & Hheld & Hall & Hc & Hfin)]; [left|right].
    + rewrite Hq in Hqm. apply Forall_cons in Hqm as [Htm Hqm].
      assert (phase m = "map"%string) as Hpm by (destruct Hp as [?|Hp]; [done|]; destruct Hmp; congruence).
      rewrite decide_True in Hi by done. subst i.
      split_and!; [done|done|simpl; congruence| |].
      * intros t' [->|?]%Hrun; [done|by apply Hheld].
      * apply (completed_started (map_done fs ws)) in Hs; [|done|done].
        eapply completed_mono; [|exact Hs]. intros k [[Hmc Hfree] Hne]. split; [done|].
        intros f Hf' [Heq|Hr']%Hrun; [|by eapply Hfree]. apply Hne. by rewrite <-Heq.
    + rewrite Hq in Hqm. apply Forall_cons in Hqm as [Htr Hqm].
      assert (phase m ≠ "map"%string) as Hpm by (destruct Hmp as [Hm|[Hm|Hm]]; rewrite Hm; done).
      rewrite decide_False in Hi by done. subst i.
      split_and!; [done|done|simpl; congruence| |done| |done].
      * intros t' [->|?]%Hrun; [split; [done|lia]|by apply Hheld].
      * apply (completed_started (red_done fs ws)) in Hs; [|done|done].
        eapply completed_mono; [|exact Hs]. intros k [[Hrc Hfree] Hne]. split; [done|].
        intros [Heq|Hr']%Hrun; [|done]. apply Hne. by rewrite <-Heq.
Qed.

Lemma inv_report m m' fs ws w t :
  sys_inv (MkSys m fs ws) → one_worker (MkSys m fs ws) → ws !! w = Some (PReport t) → ReportTask t m = Some m' →
  sys_inv (MkSys m' fs (<[w := PIdle]> ws)).
Proof.
  intros [(Hf & Hn & Hk & Hqk) Hin Hknown Hpcs Hphase] Hone Hw Hrep. simpl in *.
  assert (running ws t) as Ht by by exists w, (PReport t).
  assert (∀ t', running (<[w := PIdle]> ws) t' → running ws t' ∧ t' ≠ t) as Hsub.
  { intros t' [Ht'|(w' & pc & Hne & Hw' & Hpc)%running_delete]%running_insert; [done|].
    split; [by exists w', pc|]. intros ->. apply Hne. by apply (Hone w' w pc (PReport t) t). }
  apply ReportTask_spec in Hrep as (i & Hti & Hs); [|by apply known_is_task, Hknown].
  pose proof Hs as (l & u & -> & Hl & _)%set_status_spec. simpl in *. split; simpl; [done|done| | |].
  - intros t' [Ht' _]%Hsub. by apply Hknown.
  - intros w' pc [[_ <-]|[_ Hw']]%lookup_insert_Some; [done|]. by eapply Hpcs.
  - pose proof (Hpcs _ _ Hw) as Hdone. simpl in Hdone.
    destruct Hphase as [(Hmp & Hqm & Hlen & Hheld & Hc)|(Hmp & Hqm & Hlen & Hheld & Hall & Hc & Hfin)]; [left|right].
    + assert (∀ k, map_done fs ws k → map_done fs (<[w := PIdle]> ws) k) as Hmono.
      { intros k. apply map_done_sub. by intros t' [? _]%Hsub. }
      split_and!; [done|done|simpl; congruence|by intros t' [? _]%Hsub; apply Hheld|].
      eapply (completed_set (map_done fs (<[w := PIdle]> ws))); [exact Hs|intros _|by eapply completed_mono].
      destruct Hdone as [(i' & f & Hf' & -> & Hmc)|(j & -> & _)]; [|by specialize (Hheld _ Ht)].
      destruct Hti as [[_ <-]|[? _]]; [|done]. simpl. split; [done|].
      intros f' Hf'' [_ Hne]%Hsub. apply Hne. congruence.
    + assert (∀ k, red_done fs ws k → red_done fs (<[w := PIdle]> ws) k) as Hmono.
      { intros k. apply red_done_sub. by intros t' [? _]%Hsub. }
      split_and!; [done|done|simpl; congruence|by intros t' [? _]%Hsub; apply Hheld|done| |by auto].
      eapply (completed_set (red_done fs (<[w := PIdle]> ws))); [exact Hs|intros _|by eapply completed_mono].
      destruct Hdone as [(i' & f & Hf' & -> & _)|(j & -> & Hoc)]; [by destruct (Hheld _ Ht)|].
      destruct Hti as [[? _]|[_ <-]]; [done|]. simpl. split; [done|]. by intros [_ Hne]%Hsub.
Qed.

Lemma inv_schedule m m' now again fs ws :
  sys_inv (MkSys m fs ws) → schedule_once now m = Some (m', again) → sys_inv (MkSys m' fs ws).
Proof.
  intros [Hm Hin Hknown Hpcs Hphase] Hs. simpl in *.
  split; simpl; [by eapply schedule_master|done|done|done|]. pose proof (job_nR _ _ _ _ _ Hok) as HnR.
  destruct Hphase as [(Hmp & Hqm & Hlen & Hheld & Hc)|(Hmp & Hqm & Hlen & Hheld & Hall & Hc & Hfin)].
  - destruct (schedule_mapping now m m' again _ Hmp Hqm Hc Hs)
      as [(_ & Hp' & [Sn Sk Sl Sq Sc])|(_ & Hdone & Hp' & Sn & Sk & Sl & Sq & Sc)].
    + left. split_and!; [done|done|congruence|done|done].
    + right. rewrite Hlen in Hdone. destruct Hm as (_ & _ & Hk & _).
      split_and!; [by left|by rewrite Sq|rewrite Sl, Hk; lia| | |by apply (completed_mono (λ _, False))|by rewrite Hp'].
      * intros t Ht. exfalso. destruct (Hknown t Ht) as [(i & f & Hf & ->)|[j ->]]; [|by specialize (Hheld _ Ht)].
        destruct (Hdone i (arg_range _ _ Hf)) as [_ Hfree]. by eapply Hfree.
      * intros i f j Hf. by apply (Hdone i (arg_range _ _ Hf)).
  - right. destruct (schedule_reducing now m m' again _ Hmp Hqm Hc Hs) as (_ & Hp' & [Sn Sk Sl Sq Sc] & Hf').
    split_and!; [done|done|congruence|done|done|done|].
    intros Hfin' j Hj. destruct (Hf' Hfin') as [?|[_ Hdone]]; [by apply Hfin|]. apply Hdone. lia.
Qed.

Lemma sys_inv_step s s' : sys_inv s → one_worker s → sys_step mapf reducef s s' → sys_inv s'.
Proof.
  intros Hinv Hone Hstep.
  destruct Hstep as [m fs ws w Hw|m m' r fs ws w Hw Hreq|m fs fs' ws w pc pc' Hw Ht|m m' fs ws w t Hw Hrep|m m' now fs ws Hs|m fs ws w].
  - eapply inv_shrink; [| | |exact Hinv]; [done| |].
    + by intros t [?|?%running_sub]%running_insert.
    + intros w' pc [[_ <-]|[_ Hw']]%lookup_insert_Some; [done|]. by eapply (v_pc _ Hinv).
  - by eapply inv_request.
  - by eapply inv_turn.
  - by eapply inv_report.
  - by eapply inv_schedule.
  - eapply inv_shrink; [| | |exact Hinv]; [done| |].
    + intros t. apply running_sub.
    + intros w' pc [_ Hw']%lookup_delete_Some. by eapply (v_pc _ Hinv).
Qed.

Lemma sys_inv_start now fs : inputs_at args text fs → sys_inv (sys_start now args nR fs).
Proof.
  intros Hin. assert (∀ t, ¬ running ∅ t) as Hnone by (intros t (w & pc & Hw & _); by rewrite lookup_empty in Hw).
  split; simpl; [by split_and!|done| |by intros w pc|].
  - intros t Ht. by destruct (Hnone t).
  - left. split_and!; [by left|by apply list.Forall_nil|simpl; by rewrite length_replicate|intros t Ht; by destruct (Hnone t)|].
    intros i u Hi Hu. simpl in Hi. by apply slice_get_elem, elem_of_replicate in Hi as [-> _].
Qed.

Lemma exclusive_inv now fs s : inputs_at args text fs → exclusive_run mapf reducef now args nR fs s → sys_inv s.
Proof.
  intros Hin Hrun. unfold exclusive_run in Hrun.
  cut (sys_inv s ∧ one_worker s); [tauto|]. revert Hrun. apply (rtc_ind_r (λ s, sys_inv s ∧ one_worker s)).
  - split; [by apply sys_inv_start|]. intros w w' pc pc' t Hw. simpl in Hw. by rewrite lookup_empty in Hw.
  - intros x y _ [Hstep Hone] [Hinv Hx]. split; [|done]. by eapply sys_inv_step.
Qed.
End job.

(** ** Properties *)

(** C25. A finished job has the sequential program's output, for an application and inputs
    such that the reduce function does not depend on the order of the values of a key, the
    records of the map function survive being written as JSON and read back (valid UTF-8),
    no input file has a name that starts with mr-, and there is at least one reduce task
    ([job_ok]): for any number of workers that register, request, read and write file by
    file, report and die at any moment, in every interleaving with the master's handlers and
    its clock in which no two living workers have the same task, once [Done] holds every
    file [mr-out-0 .. mr-out-(nR-1)] is complete, and their lines are those of
    [mrsequential]'s [mr-out-0] in another order. *)
Theorem mapreduce_job_correct `{KeySort} mapf reducef args text nR now fs s :
  job_ok mapf reducef args text nR → inputs_at args text fs →
  exclusive_run mapf reducef now args nR fs s → Done (sy_master s) = true →
  ∃ seq_fs (outs : Z → list string) lines,
    (∀ j, 0 ≤ j < nR → sy_fs s !! out_name j = Some (TextFile (outs j)))
    ∧ mrsequential mapf reducef args fs = Some seq_fs
    ∧ seq_fs !! "mr-out-0"%string = Some (TextFile lines)
    ∧ concat (outs <$> seqZ 0 nR) ≡ₚ lines.
Proof.
  intros Hok Hin Hrun Hdone. apply bool_decide_eq_true in Hdone.
  destruct (exclusive_inv _ _ _ _ _ Hok _ _ _ Hin Hrun) as [_ _ _ _ [([Hp|Hp] & _)|(_ & _ & _ & _ & _ & _ & Hfin)]]; [congruence|congruence|].
  exists (create "mr-out-0" (TextFile (lines_of reducef (emitted mapf args text))) fs),
    (λ j, lines_of reducef (part nR j (emitted mapf args text))), (lines_of reducef (emitted mapf args text)).
  split_and!.
  - intros j Hj. by apply Hfin.
  - unfold mrsequential. by rewrite (read_inputs_emitted _ _ text).
  - rewrite create_lookup. by rewrite decide_True.
  - apply parts_lines; [apply Hok|apply Hok].
Qed.

(** ** Executions *)

(** A step, chosen: [ATurn w k] writes [k] pieces of a file if [k] is given. *)
Inductive SysAct :=
  | ARegister (w : nat) | ARequest (w : nat) | ATurn (w : nat) (k : option nat) | AReport (w : nat)
  | ASchedule (now : Z) | ADie (w : nat).

Section run.
Context `{KeySort} (mapf : string → string → list KeyValue) (reducef : string → list string → string).

Definition do_turn (pc : WorkerPc) (k : option nat) (fs : FS) : option (WorkerPc * FS) :=
  match pc with
  | PReply (MkTaskReply st (Some t)) =>
      if decide (st = GOT) then
        if decide (Phase t = "map"%string) then
          ps ← map_partitions mapf t fs; Some (PMap t (zip (seqZ 0 (len ps)) ps), fs)
        else if decide (Phase t = "reduce"%string) then
          Some (PRead t 0 [], create (out_name (IReduce t)) (TextFile []) fs)
        else None
      else None
  | PMap t ((i, par) :: todo) => Some (PFill t i par todo, create (inter_path t i) (JsonFile []) fs)
  | PMap t [] => Some (PReport t, fs)
  | PFill t i par todo =>
      match k with
      | Some k => Some (PFill t i par todo, create (inter_path t i) (JsonFile (take k par)) fs)
      | None => Some (PMap t todo, create (inter_path t i) (JsonFile par) fs)
      end
  | PRead t i acc =>
      if decide (i < NMap t) then kvs ← read_json (inter_name i (IReduce t)) fs; Some (PRead t (i + 1) (acc ++ kvs), fs)
      else Some (PWrite t (reduce_lines reducef (sort_Sort acc)), fs)
  | PWrite t lines =>
      match k with
      | Some k => Some (PWrite t lines, create (out_name (IReduce t)) (TextFile (take k lines)) fs)
      | None => Some (PReport t, create (out_name (IReduce t)) (TextFile lines) fs)
      end
  | _ => None
  end.

Definition do_act (a : SysAct) (s : Sys) : option Sys :=
  let 'MkSys m fs ws := s in
  match a with
  | ARegister w => if ws !! w is None then Some (MkSys (WorkerRegister m).1 fs (<[w := PIdle]> ws)) else None
  | ARequest w =>
      if ws !! w is Some PIdle then '(m, r) ← ReqTask (phase m) m; Some (MkSys m fs (<[w := PReply r]> ws)) else None
  | ATurn w k => pc ← ws !! w; '(pc, fs) ← do_turn pc k fs; Some (MkSys m fs (<[w := pc]> ws))
  | AReport w =>
      if ws !! w is Some (PReport t) then m ← ReportTask t m; Some (MkSys m fs (<[w := PIdle]> ws)) else None
  | ASchedule now => '(m, _) ← schedule_once now m; Some (MkSys m fs ws)
  | ADie w => Some (MkSys m fs (delete w ws))
  end.

Lemma do_turn_step pc k fs pc' fs' : do_turn pc k fs = Some (pc', fs') → turn_step mapf reducef pc fs pc' fs'.
Proof.
  destruct pc as [|[st [t|]]|t [|[i par] todo]|t i par todo|t i acc|t lines|t|]; simpl; try done.
  - case_decide as Hst; [subst st|done]. case_decide as Hm.
    { destruct (map_partitions mapf t fs) as [ps|] eqn:Hps; simpl; [|done]. intros [= <- <-]. by constructor. }
    case_decide as Hr; [|done]. intros [= <- <-]. by constructor.
  - intros [= <- <-]. constructor.
  - intros [= <- <-]. constructor.
  - destruct k; intros [= <- <-]; constructor.
  - case_decide as Hi; [|intros [= <- <-]; constructor; lia].
    destruct (read_json _ fs) as [kvs|] eqn:Hr; simpl; [|done]. intros [= <- <-]. by constructor.
  - destruct k; intros [= <- <-]; constructor.
Qed.

Lemma do_act_step a s s' : do_act a s = Some s' → sys_step mapf reducef s s'.
Proof.
  destruct s as [m fs ws], a as [w|w|w k|w|now|w]; cbn [do_act].
  - destruct (ws !! w) eqn:Hw; [done|]. intros [= <-]. by constructor.
  - destruct (ws !! w) as [[]|] eqn:Hw; try done. destruct (ReqTask (phase m) m) as [[m' r]|] eqn:Hr; simpl; [|done].
    intros [= <-]. by econstructor.
  - destruct (ws !! w) as [pc|] eqn:Hw; simpl; [|done]. destruct (do_turn pc k fs) as [[pc' fs']|] eqn:Ht; simpl; [|done].
    intros [= <-]. econstructor; [done|]. by eapply do_turn_step.
  - destruct (ws !! w) as [[]|] eqn:Hw; try done. destruct (ReportTask t m) as [m'|] eqn:Hr; cbn [mbind option_bind]; [|done].
    intros [= <-]. by econstructor.
  - destruct (schedule_once now m) as [[m' again]|] eqn:Hs; cbn [mbind option_bind]; [|done]. intros [= <-]. by econstructor.
  - intros [= <-]. constructor.
Qed.

Definition exec (acts : list SysAct) (s : Sys) : option Sys := foldM (λ s a, do_act a s) s acts.

Definition tasks_held (s : Sys) : list Task := omap (λ p, held p.2) (map_to_list (sy_workers s)).

(** The same, checking after each step that no task is held twice. *)
Definition exec_exclusive (acts : list SysAct) (s : Sys) : option Sys :=
  foldM (λ s a, s' ← do_act a s; if decide (NoDup (tasks_held s')) then Some s' else None) s acts.

Lemma NoDup_omap_inj {A B} (f : A → option B) (l : list A) x y z :
  NoDup (omap f l) → x ∈ l → y ∈ l → f x = Some z → f y = Some z → x = y.
Proof.
  induction l as [|a l IH]; [by intros _ ?%elem_of_nil|]. intros Hnd Hx Hy Hfx Hfy.
  assert (∀ u, u ∈ l → f u = Some z → z ∈ omap f l) as Hin by (intros u Hu Hfu; apply list_elem_of_omap; eauto).
  simpl in Hnd. apply elem_of_cons in Hx as [->|Hx]; apply elem_of_cons in Hy as [->|Hy]; [done|..].
  - rewrite Hfx in Hnd. apply list.NoDup_cons in Hnd as [Hno _]. destruct Hno. by apply (Hin y).
  - rewrite Hfy in Hnd. apply list.NoDup_cons in Hnd as [Hno _]. destruct Hno. by apply (Hin x).
  - apply IH; try done. destruct (f a); [by apply list.NoDup_cons in Hnd as [_ ?]|done].
Qed.

Lemma tasks_held_one s : NoDup (tasks_held s) → one_worker s.
Proof.
  intros Hnd w w' pc pc' t Hw Hw' Ht Ht'. apply elem_of_map_to_list in Hw, Hw'.
  assert ((w, pc) = (w', pc')) as [= -> ->] by by eapply (NoDup_omap_inj _ _ _ _ t Hnd). done.
Qed.

Lemma exec_steps acts s s' : exec acts s = Some s' → rtc (sys_step mapf reducef) s s'.
Proof.
  intros He. refine (foldM_inv (λ _ s', rtc (sys_step mapf reducef) s s') _ _ _ _ _ _ He); [done|].
  intros _ a x y Hx Hy%do_act_step. by eapply rtc_r.
Qed.

Lemma exec_exclusive_steps acts s s' : exec_exclusive acts s = Some s' → rtc (exclusive_step mapf reducef) s s'.
Proof.
  intros He. refine (foldM_inv (λ _ s', rtc (exclusive_step mapf reducef) s s') _ _ _ _ _ _ He); [done|].
  intros _ a x y Hx Hy. eapply rtc_r; [exact Hx|]. destruct (do_act a x) as [x'|] eqn:Ha; simpl in Hy; [|done].
  case_decide as Hnd; [|done]. injection Hy as <-. split; [by eapply do_act_step|by apply tasks_held_one].
Qed.
End run.

Module JobDemo.
Export WcDemo.

Definition begin_job : Sys := sys_start 0 ["pg"%string] 2 demo_fs.
Definition step (acts : list SysAct) : option Sys := exec (Wc.Map (H := demo_letters)) Wc.Reduce acts begin_job.
Definition exclusive (acts : list SysAct) : option Sys := exec_exclusive (Wc.Map (H := demo_letters)) Wc.Reduce acts begin_job.

(** What a worker does between requesting a task and having reported it. *)
Definition do_map (w : nat) : list SysAct :=
  ARequest w :: replicate 6 (ATurn w None) ++ [AReport w].
Definition do_reduce (w : nat) : list SysAct := ARequest w :: replicate 4 (ATurn w None) ++ [AReport w].

(** A worker dies while it writes a map task's files; once ten seconds have passed the task
    is queued again and another worker does the job. *)
Definition crashed_run : list SysAct :=
  [ARegister 0; ARegister 1; ASchedule 0; ARequest 0; ATurn 0 None; ATurn 0 None; ATurn 0 (Some 1%nat); ADie 0;
   ASchedule 0; ASchedule 11000000000] ++ do_map 1
  ++ [ASchedule 11000000000; ASchedule 11000000000; ASchedule 11000000000] ++ do_reduce 1 ++ do_reduce 1
  ++ [ASchedule 11000000000; ASchedule 11000000000].

(** A slow worker has read its input; the task is queued again and done by another worker;
    and when that one is about to reduce, the slow one creates the files anew. *)
Definition slow_run : list SysAct :=
  [ARegister 0; ARegister 1; ASchedule 0; ARequest 0; ATurn 0 None; ASchedule 0; ASchedule 11000000000] ++ do_map 1
  ++ [ASchedule 11000000000; ASchedule 11000000000; ASchedule 11000000000; ATurn 0 None] ++ do_reduce 1 ++ do_reduce 1
  ++ [ASchedule 11000000000; ASchedule 11000000000].

Lemma crashed_result :
  (λ s, (Done (sy_master s), sy_fs s !! "mr-out-0"%string)) <$> exclusive crashed_run
  = Some (true, Some (TextFile [line "be" "2"; line "not" "1"; line "or" "1"; line "to" "2"])).
Proof. vm_compute. reflexivity. Qed.

Lemma crashed_exclusive s :
  exclusive crashed_run = Some s → exclusive_run (Wc.Map (H := demo_letters)) Wc.Reduce 0 ["pg"%string] 2 demo_fs s.
Proof. apply exec_exclusive_steps. Qed.

Lemma crashed_exists : ∃ s, exclusive crashed_run = Some s ∧ Done (sy_master s) = true.
Proof.
  pose proof crashed_result as Hr. destruct (exclusive crashed_run) as [s|]; [|discriminate Hr].
  exists s. split; [done|]. simpl in Hr. congruence.
Qed.

Lemma demo_inputs : inputs_at ["pg"%string] demo_text demo_fs.
Proof. intros f ->%list_elem_of_singleton. reflexivity. Qed.

Lemma slow_result :
  (λ s, (Done (sy_master s), sy_fs s !! "mr-out-0"%string, sy_fs s !! "mr-out-1"%string)) <$> step slow_run
  = Some (true, Some (TextFile []), Some (TextFile [])).
Proof. vm_compute. reflexivity. Qed.

Lemma sequential_result :
  (λ fs, fs !! "mr-out-0"%string) <$> mrsequential (Wc.Map (H := demo_letters)) Wc.Reduce ["pg"%string] demo_fs
  = Some (Some (TextFile [line "be" "2"; line "not" "1"; line "or" "1"; line "to" "2"])).
Proof. vm_compute. reflexivity. Qed.
End JobDemo.
Import JobDemo.

(** A slow worker spoils a finished job: word counting where a map task is queued again and
    done by another worker, and the first then truncates the files before they are
    reduced.  The job is done, nothing was reported late, and its output is empty. *)
Lemma slow_worker_corrupts :
  ∃ s, rtc (sys_step (Wc.Map (H := demo_letters)) Wc.Reduce) begin_job s ∧ Done (sy_master s) = true
    ∧ sy_fs s !! out_name 0 = Some (TextFile []) ∧ sy_fs s !! out_name 1 = Some (TextFile [])
    ∧ lines_of Wc.Reduce (emitted (Wc.Map (H := demo_letters)) ["pg"%string] demo_text) ≠ [].
Proof.
  pose proof slow_result as Hr. destruct (step slow_run) as [s|] eqn:Hs; [|discriminate Hr].
  exists s. split; [by eapply exec_steps|]. simpl in Hr. injection Hr as Hd H0 H1.
  split; [exact Hd|]. split; [exact H0|]. split; [exact H1|]. vm_compute. discriminate.
Qed.

Lemma mapreduce_job_correct_witness :
  ∃ s (outs : Z → list string) lines, exclusive crashed_run = Some s ∧ sy_fs s !! out_name 0 = Some (TextFile (outs 0))
    ∧ concat (outs <$> seqZ 0 2) ≡ₚ lines.
Proof.
  destruct crashed_exists as (s & Hs & Hd).
  destruct (mapreduce_job_correct (Wc.Map (H := demo_letters)) Wc.Reduce ["pg"%string] demo_text 2 0 demo_fs s
    demo_job demo_inputs (crashed_exclusive s Hs) Hd) as (seq_fs & outs & lines & Hout & _ & _ & Hp).
  exists s, outs, lines. split; [exact Hs|]. split; [apply Hout; lia|exact Hp].
Defined.
