(* ===== verification/MrApps.v ===== *)
(** * MapReduce: the applications that crash and that count workers

    [src/6.824/src/mrapps/crash.go], [mtiming.go] and [rtiming.go].  The timing ones count the
    workers that run at the same time through files of the working directory, that of
    [MrWorker].  Draws, the clock and the process ids are arguments. *)
From S2P Require Import Prelude MrMaster MrWorker.
From Stdlib Require Import Ascii.
#[local] Open Scope Z_scope.

(** ** [crash.go] *)

(** [maybeCrash] with its two draws: the end of the process, or a delay in milliseconds. *)
Inductive Mishap := Crashes | Delays (ms : Z) | Goes.
Definition maybeCrash (rr ms : Z) : Mishap :=
  if rr <? 330 then Crashes else if rr <? 660 then Delays ms else Goes.

Definition unless_crash {A} (m : Mishap) (a : A) : option A := if m is Crashes then None else Some a.
Definition crash_Map (m : Mishap) (filename contents : string) : option (list KeyValue) :=
  unless_crash m (Crash.Map filename contents).
Definition crash_Reduce (m : Mishap) (key : string) (values : list string) : option string :=
  unless_crash m (Crash.Reduce key values).

(** ** [fmt.Sscanf] with a text and then ["%d"] *)

(** The white space of [fmt]: Unicode's. *)
Definition is_space (r : Z) : bool :=
  between 9 r 13 || (r =? 0x20) || (r =? 0x85) || (r =? 0xA0) || (r =? 0x1680) || between 0x2000 r 0x200A
  || between 0x2028 r 0x2029 || (r =? 0x202F) || (r =? 0x205F) || (r =? 0x3000).

(** A new line is an error.  Every turn drops at least one byte. *)
Fixpoint skip_space (fuel : nat) (bs : list Z) : option (list Z) :=
  match fuel, bs with
  | S fuel, _ :: _ =>
      let '(r, w) := DecodeRune bs in
      if r =? 10 then None else if is_space r then skip_space fuel (drop w bs) else Some bs
  | _, _ => Some bs
  end.

Fixpoint accept_text (text bs : list Z) : option (list Z) :=
  match text, bs with
  | [], _ => Some bs
  | t :: text, b :: bs => if t =? b then accept_text text bs else None
  | _ :: _, [] => None
  end.

Definition is_digit (b : Z) : bool := between 48 b 57.

(** The digits at the front, and their value. *)
Fixpoint accept_digits (acc : Z) (bs : list Z) : Z :=
  match bs with
  | b :: bs => if is_digit b then accept_digits (acc * 10 + (b - 48)) bs else acc
  | [] => acc
  end.

(** An optional sign, at least one digit, and a value that is an [int64]. *)
Definition scanInt (bs : list Z) : option Z :=
  let '(sign, bs) := match bs with
    | b :: rest => if b =? 43 then (1, rest) else if b =? 45 then (-1, rest) else (1, bs)
    | [] => (1, bs)
    end in
  match bs with
  | b :: _ =>
      if is_digit b then
        let x := sign * accept_digits 0 bs in
        if between (- 2 ^ 63) x (2 ^ 63 - 1) then Some x else None
      else None
  | [] => None
  end.

Definition Sscanf_d (text name : string) : option Z :=
  bs ← accept_text (bytes_of text) (bytes_of name);
  bs ← skip_space (length bs) bs;
  scanInt bs.

(** ** [nparallel]

    Between its parts the other processes go on, above all while it sleeps. *)
Definition parallel_prefix (phase : string) : string := "mr-worker-" +:+ phase +:+ "-".
Definition myfilename (phase : string) (pid : Z) : string := parallel_prefix phase +:+ pretty pid.

Definition nparallel_write (phase : string) (pid : Z) (fs : FS) : FS :=
  create (myfilename phase pid) (TextFile ["x"]) fs.

(** [names] is the directory in the order it is read, [alive] whether [syscall.Kill]
    succeeds with signal 0. *)
Definition nparallel_turn (phase : string) (alive : Z → bool) (ret : Z) (name : string) : Z :=
  match Sscanf_d (parallel_prefix phase) name with
  | Some xpid => if alive xpid then ret + 1 else ret
  | None => ret
  end.
Definition nparallel_count (phase : string) (alive : Z → bool) (names : list string) : Z :=
  foldl (nparallel_turn phase alive) 0 (take (Z.to_nat 1000000) names).

(** Removing a file that is not there panics. *)
Definition nparallel_remove (phase : string) (pid : Z) (fs : FS) : option FS :=
  _ ← fs !! clean (myfilename phase pid); Some (delete (clean (myfilename phase pid)) fs).

(** The whole: [readdir] is the directory's order, [sleep] what the others do meanwhile. *)
Definition nparallel (phase : string) (pid : Z) (alive : Z → bool) (readdir : FS → list string) (sleep : FS → FS)
    (fs : FS) : option (FS * Z) :=
  let fs := nparallel_write phase pid fs in
  let ret := nparallel_count phase alive (readdir fs) in
  fs ← nparallel_remove phase pid (sleep fs);
  Some (fs, ret).

(** ** [mtiming.go] and [rtiming.go]

    [ts] is the time, formatted with one decimal. *)
Definition mtiming_Map (pid : Z) (ts : string) (alive : Z → bool) (readdir : FS → list string) (sleep : FS → FS)
    (filename contents : string) (fs : FS) : option (FS * list KeyValue) :=
  '(fs, n) ← nparallel "map" pid alive readdir sleep fs;
  Some (fs, [MkKV ("times-" +:+ pretty pid) ts; MkKV ("parallel-" +:+ pretty pid) (pretty n)]).
Definition mtiming_Reduce (key : string) (values : list string) : string := Join (sort_Strings values) " ".

(** [rtiming.go] has the same [nparallel]. *)
Definition rtiming_nparallel := nparallel.
Definition rtiming_Map (filename contents : string) : list KeyValue :=
  (λ k, MkKV k "1") <$> ["a"; "b"; "c"; "d"; "e"; "f"; "g"; "h"; "i"; "j"]%string.
Definition rtiming_Reduce (pid : Z) (alive : Z → bool) (readdir : FS → list string) (sleep : FS → FS)
    (key : string) (values : list string) (fs : FS) : option (FS * string) :=
  '(fs, n) ← rtiming_nparallel "reduce" pid alive readdir sleep fs;
  Some (fs, pretty n).

(** ** Reading a number back *)

Lemma bytes_of_app s1 s2 : bytes_of (s1 +:+ s2) = bytes_of s1 ++ bytes_of s2.
Proof. induction s1 as [|c s1 IH]; [done|]. unfold bytes_of in *. simpl. by f_equal. Qed.

Lemma accept_text_app text bs : accept_text text (text ++ bs) = Some bs.
Proof. induction text as [|t text IH]; [done|]. simpl. by rewrite Z.eqb_refl. Qed.

Lemma pretty_N_char_value x : (x < 10)%N → Z.of_N (N_of_ascii (pretty_N_char x)) = 48 + Z.of_N x.
Proof.
  intros Hx. assert (x = 0 ∨ x = 1 ∨ x = 2 ∨ x = 3 ∨ x = 4 ∨ x = 5 ∨ x = 6 ∨ x = 7 ∨ x = 8 ∨ x = 9)%N as Hc by lia.
  by repeat (destruct Hc as [->|Hc]; [done|]); subst.
Qed.

Lemma accept_digits_char acc x bs :
  (x < 10)%N → accept_digits acc (Z.of_N (N_of_ascii (pretty_N_char x)) :: bs) = accept_digits (acc * 10 + Z.of_N x) bs.
Proof.
  intros Hx. simpl. rewrite pretty_N_char_value by done.
  assert (is_digit (48 + Z.of_N x) = true) as -> by (unfold is_digit, between; lia).
  f_equal. lia.
Qed.

(** The digits of [x], then [s]. *)
Lemma accept_digits_pretty x s :
  accept_digits 0 (bytes_of (pretty_N_go x s)) = accept_digits (Z.of_N x) (bytes_of s).
Proof.
  revert s. induction (N.lt_wf_0 x) as [x _ IH]; intros s.
  destruct (decide (x = 0)%N) as [->|Hx]; [by rewrite pretty_N_go_0|].
  rewrite pretty_N_go_step by lia. rewrite IH by (apply N.div_lt; lia).
  change (bytes_of (String ?c s)) with (Z.of_N (N_of_ascii c) :: bytes_of s).
  rewrite accept_digits_char by (apply N.mod_lt; lia). f_equal.
  rewrite (N.div_mod x 10) at 3 by lia. lia.
Qed.

Lemma pretty_digit_bytes pid : 0 ≤ pid → Forall is_digit (bytes_of (pretty pid)).
Proof.
  intros Hp. unfold bytes_of. apply Forall_fmap. eapply Forall_impl; [by apply pretty_Z_digits|].
  intros c [x ->]. unfold pretty_N_char. by repeat case_match.
Qed.

Lemma pretty_value pid : 0 ≤ pid → accept_digits 0 (bytes_of (pretty pid)) = pid.
Proof.
  intros Hp. destruct pid as [|p|p]; [done| |lia]. unfold pretty, pretty_Z.
  trans (accept_digits 0 (bytes_of (pretty_N_go (Npos p) ""))); [done|]. by rewrite accept_digits_pretty.
Qed.

Lemma scanInt_digits bs :
  bs ≠ [] → Forall is_digit bs → accept_digits 0 bs < 2 ^ 63 → 0 ≤ accept_digits 0 bs → scanInt bs = Some (accept_digits 0 bs).
Proof.
  intros Hne Hd Hlt Hge. destruct bs as [|b bs]; [done|]. apply Forall_cons in Hd as [Hb _]. unfold scanInt.
  apply Is_true_true in Hb. assert ((b =? 43) = false ∧ (b =? 45) = false) as [-> ->] by (unfold is_digit, between in Hb; lia).
  rewrite Hb, Z.mul_1_l.
  assert (between (- 2 ^ 63) (accept_digits 0 (b :: bs)) (2 ^ 63 - 1) = true) as Hbt by (unfold between; lia).
  by rewrite Hbt.
Qed.

Lemma skip_space_digit b bs : is_digit b → skip_space (length (b :: bs)) (b :: bs) = Some (b :: bs).
Proof.
  intros Hb%Is_true_true. unfold is_digit, between in Hb. simpl. assert ((b <? 0x80) = true) as -> by lia.
  assert ((b =? 10) = false) as -> by lia. by assert (is_space b = false) as -> by (unfold is_space, between; lia).
Qed.

(** What [Sprintf] wrote, [Sscanf] reads. *)
Lemma Sscanf_myfilename phase pid :
  0 ≤ pid < 2 ^ 63 → Sscanf_d (parallel_prefix phase) (myfilename phase pid) = Some pid.
Proof.
  intros Hp. unfold Sscanf_d, myfilename. rewrite bytes_of_app, accept_text_app. simpl.
  pose proof (pretty_digit_bytes pid ltac:(lia)) as Hd. pose proof (pretty_value pid ltac:(lia)) as Hv.
  destruct (bytes_of (pretty pid)) as [|b bs] eqn:Hb.
  { assert (pretty pid = ""%string) as He by (destruct (pretty pid); [done|discriminate]).
    simpl in Hv. subst pid. discriminate. }
  rewrite skip_space_digit by (by apply Forall_cons in Hd as [? _]). simpl.
  rewrite scanInt_digits, Hv; [done..|lia|lia].
Qed.

(** ** Workers that count each other

    Any number of processes of one phase in one directory: each writes its file, reads the
    directory, probes the processes of the names one by one, sleeps and removes its file;
    it may die at any moment, which leaves its file behind.  It is an assumption of the
    model that a process id is not used again after a death.  [C] is history: the processes
    in the call when the directory was read. *)
Inductive ProcState :=
  PScan | PProbe (C : gset Z) (todo : list string) (n : Z) | PSleep (C : gset Z) (n : Z) | PDone (C : gset Z) (n : Z)
  | PDead.
Record Workers := MkWorkers { w_fs : FS; w_procs : gmap Z ProcState }.

Definition in_call (st : ProcState) : bool := match st with PScan | PProbe _ _ _ | PSleep _ _ => true | _ => false end.
Definition alive_in (s : Workers) (pid : Z) : bool :=
  match w_procs s !! pid with Some PDead | None => false | Some _ => true end.

(** The processes that have written their file and not removed it. *)
Definition callers (s : Workers) : gmap Z ProcState := filter (λ '(_, st), in_call st) (w_procs s).

(** What a process has counted, with the names left to probe. *)
Definition tally (st : ProcState) : option (gset Z * list string * Z) :=
  match st with
  | PProbe C todo n => Some (C, todo, n)
  | PSleep C n | PDone C n => Some (C, [], n)
  | _ => None
  end.

Definition dead (procs : gmap Z ProcState) (pid : Z) : Prop := procs !! pid = Some PDead.

(** The count is that of a set of processes of [C], in which only those are missing that
    are still to be probed or have died. *)
Definition probed (procs : gmap Z ProcState) (C : gset Z) (todo : list Z) (n : Z) : Prop :=
  NoDup todo ∧ (∀ x, x ∈ C → is_Some (procs !! x)) ∧ (∀ x, x ∈ todo → x ∈ C ∨ dead procs x)
  ∧ ∃ A : gset Z, A ⊆ C ∧ n = Z.of_nat (size A) ∧ (∀ x, x ∈ todo → x ∉ A)
    ∧ ∀ x, x ∈ C → x ∈ A ∨ x ∈ todo ∨ dead procs x.

Section workers.
Variable phase : string.
Implicit Types (s : Workers) (fs : FS) (pid : Z) (st : ProcState).

Inductive workers_step s : Workers → Prop :=
  | workers_write pid :
      0 ≤ pid < 2 ^ 63 → (w_procs s !! pid = None ∨ ∃ C n, w_procs s !! pid = Some (PDone C n)) →
      workers_step s (MkWorkers (nparallel_write phase pid (w_fs s)) (<[pid := PScan]> (w_procs s)))
  (* a directory of a million names at most *)
  | workers_readdir pid names :
      w_procs s !! pid = Some PScan → names ≡ₚ elements (dom (w_fs s)) → len names ≤ 1000000 →
      workers_step s (MkWorkers (w_fs s) (<[pid := PProbe (dom (callers s)) names 0]> (w_procs s)))
  | workers_probe pid C name todo n :
      w_procs s !! pid = Some (PProbe C (name :: todo) n) →
      workers_step s (MkWorkers (w_fs s) (<[pid := PProbe C todo (nparallel_turn phase (alive_in s) n name)]> (w_procs s)))
  | workers_sleep pid C n :
      w_procs s !! pid = Some (PProbe C [] n) →
      workers_step s (MkWorkers (w_fs s) (<[pid := PSleep C n]> (w_procs s)))
  | workers_remove pid C n fs' :
      w_procs s !! pid = Some (PSleep C n) → nparallel_remove phase pid (w_fs s) = Some fs' →
      workers_step s (MkWorkers fs' (<[pid := PDone C n]> (w_procs s)))
  | workers_die pid st :
      w_procs s !! pid = Some st → workers_step s (MkWorkers (w_fs s) (<[pid := PDead]> (w_procs s)))
  (* the workers' other files *)
  | workers_other fs' :
      (∀ name, is_Some (Sscanf_d (parallel_prefix phase) name) → fs' !! name = w_fs s !! name) →
      workers_step s (MkWorkers fs' (w_procs s)).

Definition workers_init s : Prop :=
  w_procs s = ∅ ∧ ∀ name, name ∈ dom (w_fs s) → Sscanf_d (parallel_prefix phase) name = None.

(** The process ids of the names that count. *)
Definition scans (names : list string) : list Z := omap (Sscanf_d (parallel_prefix phase)) names.

Record workers_inv s : Prop := {
  wi_files pid st : w_procs s !! pid = Some st → in_call st → myfilename phase pid ∈ dom (w_fs s);
  wi_names name pid : name ∈ dom (w_fs s) → Sscanf_d (parallel_prefix phase) name = Some pid →
    name = myfilename phase pid ∧ ∃ st, w_procs s !! pid = Some st ∧ (in_call st ∨ st = PDead);
  wi_pids pid st : w_procs s !! pid = Some st → 0 ≤ pid < 2 ^ 63
}.

(** Of two processes that have read the directory, the later one saw the other. *)
Record tally_inv (procs : gmap Z ProcState) : Prop := {
  ti_probed pid st C todo n : procs !! pid = Some st → tally st = Some (C, todo, n) →
    probed procs C (scans todo) n ∧ pid ∈ C;
  ti_pair p q st st' C C' todo todo' n n' : p ≠ q → procs !! p = Some st → procs !! q = Some st' →
    in_call st → in_call st' → tally st = Some (C, todo, n) → tally st' = Some (C', todo', n') → q ∈ C ∨ p ∈ C'
}.

Lemma clean_myfilename pid : clean (myfilename phase pid) = myfilename phase pid.
Proof. done. Qed.

Lemma myfilename_inj p q : 0 ≤ p < 2 ^ 63 → 0 ≤ q < 2 ^ 63 → myfilename phase p = myfilename phase q → p = q.
Proof.
  intros Hp Hq He. pose proof (Sscanf_myfilename phase p Hp) as Hs. rewrite He, Sscanf_myfilename in Hs by done. congruence.
Qed.

(** A name that counts. *)
Definition counted (alive : Z → bool) (name : string) : bool :=
  match Sscanf_d (parallel_prefix phase) name with Some pid => alive pid | None => false end.

Lemma nparallel_turns alive names r :
  foldl (nparallel_turn phase alive) r names = r + len (filter (counted alive) names).
Proof.
  revert r. induction names as [|name names IH]; intros r; simpl; [lia|]. rewrite IH, filter_cons.
  unfold nparallel_turn, counted. destruct (Sscanf_d _ _) as [pid|]; simpl; [|done].
  destruct (alive pid); simpl; [|done]. lia.
Qed.

(** The scan finds the callers, whatever the directory's order. *)
Lemma count_callers s names :
  workers_inv s → names ≡ₚ elements (dom (w_fs s)) → len names ≤ 1000000 →
  nparallel_count phase (alive_in s) names = Z.of_nat (size (callers s)).
Proof.
  intros Hinv Hp Hlen. unfold nparallel_count. rewrite take_ge, nparallel_turns by lia.
  assert (filter (counted (alive_in s)) names ≡ₚ myfilename phase <$> elements (dom (callers s))) as Hperm.
  { apply NoDup_Permutation.
    - apply list.NoDup_filter. rewrite Hp. apply NoDup_elements.
    - apply NoDup_fmap_2_strong; [|apply NoDup_elements]. intros p q Hp1 Hq1.
      apply elem_of_elements, elem_of_dom in Hp1 as [st1 H1]. apply elem_of_elements, elem_of_dom in Hq1 as [st2 H2].
      apply map_lookup_filter_Some in H1 as (H1 & _). apply map_lookup_filter_Some in H2 as (H2 & _).
      apply myfilename_inj; by eapply wi_pids.
    - intros name. rewrite list_elem_of_filter, Hp, elem_of_elements, list_elem_of_fmap. unfold counted, alive_in. split.
      + intros [Hc Hn]. destruct (Sscanf_d _ _) as [pid|] eqn:Hs; [|done].
        destruct (wi_names s Hinv name pid Hn Hs) as (-> & st & Hst & Hcall). exists pid. split; [done|].
        apply elem_of_elements, elem_of_dom. exists st. apply map_lookup_filter_Some. split; [done|].
        rewrite Hst in Hc. by destruct Hcall as [?| ->].
      + intros (pid & -> & (st & Hst)%elem_of_elements%elem_of_dom). apply map_lookup_filter_Some in Hst as (Hst & Hc).
        rewrite Sscanf_myfilename, Hst by (by eapply wi_pids). split; [by destruct st|by eapply wi_files]. }
  rewrite Hperm, length_fmap. rewrite <-size_dom. unfold size, set_size. simpl. lia.
Qed.

Lemma workers_init_inv s : workers_init s → workers_inv s ∧ tally_inv (w_procs s).
Proof.
  intros [Hp Hn]. split; constructor; rewrite ?Hp; try done. intros name pid Hd Hs. by rewrite (Hn name Hd) in Hs.
Qed.

Lemma write_inv s pid :
  workers_inv s → 0 ≤ pid < 2 ^ 63 →
  workers_inv (MkWorkers (nparallel_write phase pid (w_fs s)) (<[pid := PScan]> (w_procs s))).
Proof.
  intros [W1 W2 W3] Hpid. constructor; simpl; unfold nparallel_write, create; rewrite ?clean_myfilename.
  - intros p st [[<- _]|[Hne Hp]]%lookup_insert_Some Hc; rewrite dom_insert; [set_solver|]. specialize (W1 p st Hp Hc). set_solver.
  - intros name p. rewrite dom_insert. intros [->%elem_of_singleton|Hn]%elem_of_union Hs.
    + rewrite Sscanf_myfilename in Hs by done. injection Hs as <-. split; [done|]. exists PScan. rewrite lookup_insert_eq. by auto.
    + destruct (W2 name p Hn Hs) as (-> & st & Hst & Hc). split; [done|]. destruct (decide (pid = p)) as [->|Hne].
      * exists PScan. rewrite lookup_insert_eq. by auto.
      * exists st. by rewrite lookup_insert_ne.
  - intros p st [[<- _]|[_ Hp]]%lookup_insert_Some; [done|by eapply W3].
Qed.

(** A process changes; the directory loses its file at most. *)
Lemma update_inv s fs' pid st st' :
  workers_inv s → w_procs s !! pid = Some st →
  (∀ name, name ∈ dom fs' → name ∈ dom (w_fs s)) →
  (∀ name, name ∈ dom (w_fs s) → name ≠ myfilename phase pid → name ∈ dom fs') →
  (in_call st' → in_call st ∧ (myfilename phase pid ∈ dom (w_fs s) → myfilename phase pid ∈ dom fs')) →
  (in_call st' ∨ st' = PDead ∨ myfilename phase pid ∉ dom fs') →
  workers_inv (MkWorkers fs' (<[pid := st']> (w_procs s))).
Proof.
  intros [W1 W2 W3] Hpid Hsub Hkeep Hcall Hend. constructor; simpl.
  - intros p st1 [[<- <-]|[Hne Hp]]%lookup_insert_Some Hc.
    + destruct (Hcall Hc) as [Hst Hf]. by apply Hf, (W1 pid st).
    + apply Hkeep; [by apply (W1 p st1)|]. intros He. apply Hne. symmetry.
      by apply (myfilename_inj p pid); [eapply W3..|].
  - intros name p Hn Hs. destruct (W2 name p (Hsub _ Hn) Hs) as (-> & st1 & Hst & Hc). split; [done|].
    destruct (decide (pid = p)) as [<-|Hne].
    + exists st'. rewrite lookup_insert_eq. split; [done|]. destruct Hend as [?|[?|?]]; [by left|by right|done].
    + exists st1. by rewrite lookup_insert_ne.
  - intros p st1 [[<- _]|[_ Hp]]%lookup_insert_Some; [by eapply W3|by eapply W3].
Qed.

Lemma probed_mono procs procs' C todo n :
  (∀ x, dead procs x → dead procs' x) → (∀ x, is_Some (procs !! x) → is_Some (procs' !! x)) →
  probed procs C todo n → probed procs' C todo n.
Proof.
  intros Hd Hs (Hnd & HC & Ht & A & HA & Hn & Hdis & Hcov). split_and!; [done|by auto| |].
  - intros x Hx. destruct (Ht x Hx); auto.
  - exists A. split_and!; [done..|]. intros x Hx. destruct (Hcov x Hx) as [?|[?|?]]; auto.
Qed.

(** One more name is probed. *)
Lemma probed_turn s C name todo n :
  probed (w_procs s) C (scans (name :: todo)) n →
  probed (w_procs s) C (scans todo) (nparallel_turn phase (alive_in s) n name).
Proof.
  intros (Hnd & HC & Ht & A & HA & -> & Hdis & Hcov). unfold nparallel_turn, alive_in. unfold scans in *. simpl in *.
  destruct (Sscanf_d (parallel_prefix phase) name) as [x|]; [|split_and!; [done..|by exists A]].
  apply list.NoDup_cons in Hnd as [Hx Hnd].
  destruct (w_procs s !! x) as [st|] eqn:Hst.
  2: { destruct (Ht x) as [Hxc|Hxd]; [by left|destruct (HC x Hxc); congruence|unfold dead in Hxd; congruence]. }
  assert (st = PDead ∨ st ≠ PDead ∧ (match st with PDead => false | _ => true end) = true) as [->|[Hne Hal]]
    by (destruct st; auto).
  - split_and!; [done|done|intros y Hy; apply Ht; by right|]. exists A. split_and!; [done|done|set_solver|].
    intros y Hy. destruct (Hcov y Hy) as [?|[[->|?]%elem_of_cons|?]]; auto.
  - replace (match st with PDead => false | _ => true end) with true by done.
    assert (x ∈ C) as HxC by (destruct (Ht x) as [?|Hxd]; [by left|done|unfold dead in Hxd; congruence]).
    split_and!; [done|done|intros y Hy; apply Ht; by right|]. exists ({[x]} ∪ A). split_and!.
    + set_solver.
    + rewrite size_union, size_singleton; [lia|]. apply disjoint_singleton_l, Hdis. by left.
    + set_solver.
    + intros y Hy. destruct (Hcov y Hy) as [?|[[->|?]%elem_of_cons|?]]; set_solver.
Qed.

(** What a process has just read. *)
Lemma probed_start s names :
  workers_inv s → names ≡ₚ elements (dom (w_fs s)) → probed (w_procs s) (dom (callers s)) (scans names) 0.
Proof.
  intros Hinv Hp. split_and!.
  - unfold scans. assert (NoDup names) as Hnd by (rewrite Hp; apply NoDup_elements).
    assert (∀ name, name ∈ names → name ∈ dom (w_fs s)) as Hin by (intros name; rewrite Hp; apply elem_of_elements).
    clear Hp. induction names as [|name names IH]; simpl; [constructor|].
    apply list.NoDup_cons in Hnd as [Hno Hnd].
    destruct (Sscanf_d _ name) as [x|] eqn:Hs; [|apply IH; [done|set_solver]].
    apply list.NoDup_cons. split; [|apply IH; [done|set_solver]].
    intros (name' & Hin' & Hs')%list_elem_of_omap.
    destruct (wi_names s Hinv name x) as [-> _]; [apply Hin; by left|done|].
    destruct (wi_names s Hinv name' x) as [-> _]; [apply Hin; by right|done|done].
  - intros x [st Hst]%elem_of_dom. apply map_lookup_filter_Some in Hst as [Hst _]. by eexists.
  - intros x (name & Hin & Hs)%list_elem_of_omap. rewrite Hp, elem_of_elements in Hin.
    destruct (wi_names s Hinv name x Hin Hs) as (_ & st & Hst & [Hc| ->]); [left|by right].
    apply elem_of_dom. exists st. by apply map_lookup_filter_Some.
  - exists ∅. split_and!; [set_solver|by rewrite size_empty|set_solver|].
    intros x [st Hst]%elem_of_dom. apply map_lookup_filter_Some in Hst as [Hst Hc]. right. left.
    apply list_elem_of_omap. exists (myfilename phase x). rewrite Hp, elem_of_elements. split; [by eapply wi_files|].
    apply Sscanf_myfilename. by eapply wi_pids.
Qed.

Lemma tally_update procs pid st' :
  tally_inv procs → ¬ dead procs pid ∨ st' = PDead →
  (∀ C todo n, tally st' = Some (C, todo, n) → probed procs C (scans todo) n ∧ pid ∈ C) →
  (∀ C todo n q st C' todo' n', in_call st' → tally st' = Some (C, todo, n) → q ≠ pid → procs !! q = Some st →
     in_call st → tally st = Some (C', todo', n') → q ∈ C ∨ pid ∈ C') →
  tally_inv (<[pid := st']> procs).
Proof.
  intros [T1 T2] Hdead Ht Hpair.
  assert (∀ C todo n, probed procs C todo n → probed (<[pid := st']> procs) C todo n) as Hmono.
  { intros C todo n. apply probed_mono.
    - intros x Hx. unfold dead in *. destruct (decide (pid = x)) as [->|]; [|by rewrite lookup_insert_ne].
      rewrite lookup_insert_eq. by destruct Hdead as [?| ->].
    - intros x [st Hst]. destruct (decide (pid = x)) as [->|]; [rewrite lookup_insert_eq|rewrite lookup_insert_ne]; eauto. }
  split.
  - intros p st C todo n [[<- <-]|[Hne Hp]]%lookup_insert_Some Hta.
    + destruct (Ht _ _ _ Hta). split; [by apply Hmono|done].
    + destruct (T1 _ _ _ _ _ Hp Hta). split; [by apply Hmono|done].
  - intros p q st1 st2 C C' todo todo' n n' Hne [[<- <-]|[Hp' Hp]]%lookup_insert_Some
      [[<- <-]|[Hq' Hq]]%lookup_insert_Some Hc Hc' Hta Hta'; [done| | |by eapply (T2 p q)].
    + by eapply (Hpair C todo n q).
    + destruct (Hpair C' todo' n' p st1 C todo n) as [?|?]; auto.
Qed.

Lemma workers_step_inv s s' :
  workers_inv s ∧ tally_inv (w_procs s) → workers_step s s' → workers_inv s' ∧ tally_inv (w_procs s').
Proof.
  intros [Hinv Hta] Hstep.
  destruct Hstep as [pid Hpid Hp|pid names Hp Hn Hl|pid C name todo n Hp|pid C n Hp|pid C n fs' Hp Hr|pid st Hp|fs' Hf]; simpl.
  - split; [by apply write_inv|]. apply tally_update; [done| |done|done]. left. unfold dead.
    intros ?. destruct Hp as [?|(? & ? & ?)]; congruence.
  - split; [by apply (update_inv s _ pid PScan); auto|].
    assert (∀ q st, w_procs s !! q = Some st → in_call st → q ∈ dom (callers s)) as Hcallers.
    { intros q st Hq Hc. apply elem_of_dom. exists st. by apply map_lookup_filter_Some. }
    apply tally_update; [done|left; unfold dead; congruence| |].
    + intros ? ? ? [= <- <- <-]. split; [by apply probed_start|by eapply Hcallers].
    + intros ? ? ? q st ? ? ? _ [= <- <- <-] _ Hq Hc _. left. by eapply Hcallers.
  - split; [by apply (update_inv s _ pid (PProbe C (name :: todo) n)); auto|].
    apply tally_update; [done|left; unfold dead; congruence| |].
    + intros ? ? ? [= <- <- <-]. destruct (ti_probed _ Hta _ _ _ _ _ Hp eq_refl). split; [by apply probed_turn|done].
    + intros ? ? ? q st C' todo' n' _ [= <- <- <-] Hne Hq Hc Hq'.
      exact (ti_pair _ Hta pid q _ st C C' _ todo' n n' (not_eq_sym Hne) Hp Hq I Hc eq_refl Hq').
  - split; [by apply (update_inv s _ pid (PProbe C [] n)); auto|].
    apply tally_update; [done|left; unfold dead; congruence| |].
    + intros ? ? ? [= <- <- <-]. exact (ti_probed _ Hta _ _ _ _ _ Hp eq_refl).
    + intros ? ? ? q st C' todo' n' _ [= <- <- <-] Hne Hq Hc Hq'.
      exact (ti_pair _ Hta pid q _ st C C' _ todo' n n' (not_eq_sym Hne) Hp Hq I Hc eq_refl Hq').
  - unfold nparallel_remove in Hr. rewrite clean_myfilename in Hr.
    destruct (w_fs s !! myfilename phase pid); simpl in Hr; [|done]. injection Hr as <-. split.
    + apply (update_inv s _ pid (PSleep C n)); try done; rewrite ?dom_delete; [set_solver|set_solver|right; right; set_solver].
    + apply tally_update; [done|left; unfold dead; congruence| |done].
      intros ? ? ? [= <- <- <-]. exact (ti_probed _ Hta _ _ _ _ _ Hp eq_refl).
  - split; [apply (update_inv s _ pid st); try done; right; by left|]. apply tally_update; try done. by right.
  - split; [|done]. destruct Hinv as [W1 W2 W3]. constructor; simpl; [|..|done].
    + intros p st Hp Hc. apply elem_of_dom. rewrite Hf; [by apply elem_of_dom, (W1 p st)|].
      exists p. apply Sscanf_myfilename. by eapply W3.
    + intros name p Hn Hs. apply W2; [|done]. apply elem_of_dom in Hn. rewrite Hf in Hn by (by exists p). by apply elem_of_dom.
Qed.

Lemma workers_reachable_inv s0 s :
  workers_init s0 → rtc workers_step s0 s → workers_inv s ∧ tally_inv (w_procs s).
Proof.
  intros Hi Hs. apply workers_init_inv in Hi. induction Hs as [s|s s1 s2 Hstep _ IH]; [done|].
  apply IH. by eapply workers_step_inv.
Qed.

(** A finished count, from below and from above. *)
Lemma probed_bounds s C n :
  probed (w_procs s) C [] n →
  Z.of_nat (size (filter (λ x, alive_in s x) C)) ≤ n ≤ Z.of_nat (size C)
  ∧ ((∀ x, x ∈ C → alive_in s x) → n = Z.of_nat (size C)).
Proof.
  intros (_ & HC & _ & A & HA & -> & _ & Hcov).
  assert (∀ x, x ∈ C → alive_in s x → x ∈ A) as Hal.
  { intros x Hx Ha. destruct (Hcov x Hx) as [?|[Hin|Hd]]; [done|by apply not_elem_of_nil in Hin|].
    unfold alive_in in Ha. by rewrite Hd in Ha. }
  split; [split|].
  - apply Nat2Z.inj_le, subseteq_size. intros x [? ?]%elem_of_filter. auto.
  - by apply Nat2Z.inj_le, subseteq_size.
  - intros Hall. assert (A = C) as -> by set_solver. done.
Qed.

(** C27. [nparallel] counts the workers that run: whatever the interleaving, and whichever
    workers have died and left their files, the files of a worker about to read the
    directory stand for exactly the living processes that have written their file and not
    removed it, itself included; the processes are probed one by one afterwards, and the
    count a worker comes to is at most the number that was in the call when it read the
    directory, at least the number of these still alive, and exactly the former if none of
    them has died; of two that are asleep at one time at least one has counted two, which
    is what the parallelism tests look for; and no worker panics when it removes its file.
    The directory has a million names at most, and a process id is not used again after
    a death. *)
Theorem nparallel_counts_callers s0 s :
  workers_init s0 → rtc workers_step s0 s →
  (∀ pid names, w_procs s !! pid = Some PScan → names ≡ₚ elements (dom (w_fs s)) → len names ≤ 1000000 →
     nparallel_count phase (alive_in s) names = Z.of_nat (size (callers s)) ∧ (1 ≤ size (callers s))%nat)
  ∧ (∀ pid C n, w_procs s !! pid = Some (PSleep C n) ∨ w_procs s !! pid = Some (PDone C n) →
       pid ∈ C ∧ Z.of_nat (size (filter (λ x, alive_in s x) C)) ≤ n ≤ Z.of_nat (size C)
       ∧ ((∀ x, x ∈ C → alive_in s x) → n = Z.of_nat (size C)))
  ∧ (∀ p q C C' n m, p ≠ q → w_procs s !! p = Some (PSleep C n) → w_procs s !! q = Some (PSleep C' m) →
       2 ≤ n ∨ 2 ≤ m)
  ∧ (∀ pid C n, w_procs s !! pid = Some (PSleep C n) → is_Some (nparallel_remove phase pid (w_fs s))).
Proof.
  intros Hi Hr. destruct (workers_reachable_inv s0 s Hi Hr) as [Hinv Hta].
  assert (∀ p q C n st, p ≠ q → w_procs s !! p = Some (PSleep C n) → w_procs s !! q = Some st → st ≠ PDead →
    q ∈ C → 2 ≤ n) as Htwo.
  { intros p q C n st Hne Hp Hq Hst Hin. destruct (ti_probed _ Hta _ _ _ _ _ Hp eq_refl) as [Hpr Hself].
    destruct (probed_bounds s C n Hpr) as [[Hlow _] _].
    assert (2 ≤ size (filter (λ x, alive_in s x) C))%nat; [|lia].
    assert (size ({[p; q]} : gset Z) = 2%nat) as <- by (rewrite size_union, !size_singleton by set_solver; done).
    apply subseteq_size. unfold alive_in.
    intros x [->%elem_of_singleton| ->%elem_of_singleton]%elem_of_union; apply elem_of_filter.
    - by rewrite Hp.
    - rewrite Hq. by destruct st. }
  split_and!.
  - intros pid names Hp Hn Hl. split; [by apply count_callers|]. rewrite <-size_dom.
    rewrite <-(size_singleton (C := gset Z) pid). apply subseteq_size. intros x ->%elem_of_singleton.
    apply elem_of_dom. eexists. by apply map_lookup_filter_Some.
  - intros pid C n Hp. assert (probed (w_procs s) C [] n ∧ pid ∈ C) as [Hpr Hself]
      by (destruct Hp as [Hp|Hp]; exact (ti_probed _ Hta _ _ _ _ _ Hp eq_refl)).
    split; [done|]. by apply probed_bounds.
  - intros p q C C' n m Hne Hp Hq.
    destruct (ti_pair _ Hta p q _ _ C C' [] [] n m Hne Hp Hq I I eq_refl eq_refl) as [Hin|Hin]; [left|right].
    + by eapply (Htwo p q).
    + by eapply (Htwo q p).
  - intros pid C n Hp. unfold nparallel_remove. rewrite clean_myfilename.
    destruct (proj1 (elem_of_dom _ _) (wi_files s Hinv pid _ Hp I)) as [f ->]. by eexists.
Qed.
End workers.

(** Three workers start, one dies and leaves its file; the scan counts the other two. *)
Module AppsDemo.
Definition fs0 : FS := {["pg-grimm.txt"%string := TextFile ["x"]]}.
Definition s0 : Workers := MkWorkers fs0 ∅.
Definition s1 : Workers := MkWorkers (nparallel_write "map" 7 fs0) (<[7 := PScan]> ∅).
Definition s2 : Workers := MkWorkers (nparallel_write "map" 812 (w_fs s1)) (<[812 := PScan]> (w_procs s1)).
Definition s3 : Workers := MkWorkers (nparallel_write "map" 9 (w_fs s2)) (<[9 := PScan]> (w_procs s2)).
Definition s4 : Workers := MkWorkers (w_fs s3) (<[9 := PDead]> (w_procs s3)).
Definition names : list string := elements (dom (w_fs s4)).

Lemma start_init : workers_init "map" s0.
Proof.
  split; [done|]. intros name. unfold s0, fs0. simpl. rewrite dom_singleton. intros ->%elem_of_singleton.
  vm_compute. reflexivity.
Qed.

Lemma died_reachable : rtc (workers_step "map") s0 s4.
Proof.
  apply (rtc_l _ _ s1); [by apply (workers_write "map" s0 7); [|left]|].
  apply (rtc_l _ _ s2); [by apply (workers_write "map" s1 812); [|left]|].
  apply (rtc_l _ _ s3); [by apply (workers_write "map" s2 9); [|left]|].
  apply rtc_once. by apply (workers_die "map" s3 9 PScan).
Qed.
End AppsDemo.

Lemma nparallel_counts_callers_witness :
  length AppsDemo.names = 4%nat ∧ nparallel_count "map" (alive_in AppsDemo.s4) AppsDemo.names = 2
  ∧ nparallel_count "map" (alive_in AppsDemo.s4) AppsDemo.names = Z.of_nat (size (callers AppsDemo.s4)).
Proof.
  split; [vm_compute; reflexivity|]. split; [vm_compute; reflexivity|].
  destruct (nparallel_counts_callers "map" AppsDemo.s0 AppsDemo.s4 AppsDemo.start_init AppsDemo.died_reachable) as (Hcount & _).
  apply (Hcount 812); [reflexivity|reflexivity|vm_compute; discriminate].
Defined.
