(* ===== verification/PorcBitset.v ===== *)
(** * Porcupine: bit sets ([porcupine/bitset.go])

    A bit set is a slice of 64-bit words.  The checker keeps in it which operations it has
    linearized so far.  [clone] copies, so that a set that has been put in the cache shares
    no memory with the one the search goes on changing; values are a faithful model. *)
From S2P Require Import Prelude.

Abbreviation bitset := (list Z) (only parsing).

(** [1 << minor], a [uint64]. *)
Definition bit64 (minor : Z) : Z := Z.shiftl 1 minor mod 2 ^ 64.

Definition newBitset (bits : Z) : bitset :=
  let extra := if negb (bits mod 64 =? 0) then 1 else 0 in
  let chunks := bits / 64 + extra in
  replicate (Z.to_nat chunks) 0.

Definition clone (b : bitset) : bitset := b.

Definition bitsetIndex (pos : Z) : Z * Z := (pos / 64, pos mod 64).

Definition set (pos : Z) (b : bitset) : option bitset :=
  let '(major, minor) := bitsetIndex pos in
  v ← b.[major]; slice_set b major (Z.lor v (bit64 minor)).

Definition clear (pos : Z) (b : bitset) : option bitset :=
  let '(major, minor) := bitsetIndex pos in
  v ← b.[major]; slice_set b major (Z.ldiff v (bit64 minor)).

Definition get (pos : Z) (b : bitset) : option bool :=
  let '(major, minor) := bitsetIndex pos in
  v ← b.[major]; Some (negb (Z.land v (bit64 minor) =? 0)).

(** [bits.OnesCount64]. *)
Definition OnesCount64 (v : Z) : Z := len (filter (λ i, Z.testbit v i) (seqZ 0 64)).

Definition popcnt (b : bitset) : Z := foldl (λ total v, total + OnesCount64 v) 0 b.

Definition hash (b : bitset) : Z := foldl Z.lxor (popcnt b) b.

Fixpoint equals_from (b b2 : bitset) : bool :=
  match b, b2 with
  | v :: b, v2 :: b2 => if negb (v =? v2) then false else equals_from b b2
  | _, _ => true
  end.

Definition equals (b b2 : bitset) : bool :=
  if negb (len b =? len b2) then false else equals_from b b2.

(** ** What a bit set represents *)

Definition word64 (v : Z) : Prop := 0 ≤ v < 2 ^ 64.

(** [b] holds the members of [S], which are positions below [n]. *)
Record represents (n : Z) (b : bitset) (S : gset Z) : Prop := {
  rep_words : Forall word64 b;
  rep_length : len b = n / 64 + (if negb (n mod 64 =? 0) then 1 else 0);
  rep_bits : ∀ i v j, b !! i = Some v → 0 ≤ j < 64 → Z.testbit v j = bool_decide (64 * Z.of_nat i + j ∈ S);
  rep_range : ∀ p, p ∈ S → 0 ≤ p < n
}.

Lemma word64_testbit v j : word64 v → 64 ≤ j → Z.testbit v j = false.
Proof.
  intros [Hv1 Hv2] Hj. apply Z.bits_above_log2; [done|].
  destruct (Z.eq_dec v 0) as [->|]; [simpl; lia|].
  apply Z.lt_le_trans with 64; [|done]. apply Z.log2_lt_pow2; lia.
Qed.

Lemma word64_ext v w :
  word64 v → word64 w → (∀ j, 0 ≤ j < 64 → Z.testbit v j = Z.testbit w j) → v = w.
Proof.
  intros Hv Hw Hb. apply Z.bits_inj'. intros j Hj. destruct (Z.ltb_spec j 64); [auto|].
  by rewrite !word64_testbit.
Qed.

Lemma testbit_word64 v : 0 ≤ v → (∀ j, 64 ≤ j → Z.testbit v j = false) → word64 v.
Proof.
  intros Hv Hb. split; [done|]. destruct (Z.eq_dec v 0) as [->|]; [lia|].
  apply Z.log2_lt_pow2; [lia|]. destruct (Z.ltb_spec (Z.log2 v) 64); [done|].
  specialize (Hb (Z.log2 v)). rewrite Z.bit_log2 in Hb by lia. naive_solver.
Qed.

Lemma bit64_testbit m j : 0 ≤ m < 64 → 0 ≤ j → Z.testbit (bit64 m) j = (j =? m).
Proof.
  intros Hm Hj. unfold bit64. rewrite Z.mod_small.
  - rewrite Z.shiftl_1_l. rewrite Z.pow2_bits_eqb by lia. apply Z.eqb_sym.
  - rewrite Z.shiftl_1_l. split; [lia|]. apply Z.pow_lt_mono_r; lia.
Qed.

Lemma bit64_nonneg m : 0 ≤ bit64 m.
Proof. unfold bit64. apply Z.mod_pos_bound. lia. Qed.

Lemma split_pos p : 0 ≤ p → 0 ≤ p / 64 ∧ 0 ≤ p mod 64 < 64 ∧ p = 64 * (p / 64) + p mod 64.
Proof. intros. pose proof (Z.div_mod p 64). pose proof (Z.mod_pos_bound p 64). split_and!; lia. Qed.

Lemma chunks_bound n p : 0 ≤ p < n → p / 64 < n / 64 + (if negb (n mod 64 =? 0) then 1 else 0).
Proof.
  intros. pose proof (Z.div_mod p 64). pose proof (Z.mod_pos_bound p 64).
  pose proof (Z.div_mod n 64). pose proof (Z.mod_pos_bound n 64).
  destruct (Z.eqb_spec (n mod 64) 0); simpl; lia.
Qed.

(** The word of a position of the set. *)
Lemma represents_word n b S p :
  represents n b S → 0 ≤ p < n →
  ∃ v, b.[p / 64] = Some v ∧ b !! Z.to_nat (p / 64) = Some v ∧ word64 v
    ∧ 0 ≤ p / 64 < len b ∧ 0 ≤ p mod 64 < 64
    ∧ ∀ j, 0 ≤ j < 64 → Z.testbit v j = bool_decide (64 * (p / 64) + j ∈ S).
Proof.
  intros [Hw Hl Hb _] Hp. pose proof (split_pos p ltac:(lia)) as (H1 & H2 & H3).
  pose proof (chunks_bound n p Hp). destruct (slice_get_lt b (p / 64)) as [v Hv]; [lia|].
  exists v. pose proof Hv as (_ & Hv')%slice_get_Some. split_and!; try done; try lia.
  - by eapply list.Forall_lookup_1 in Hw.
  - intros j Hj. rewrite (Hb _ _ j Hv' Hj). by rewrite Z2Nat.id.
Qed.

(** Updating one bit of one word. *)
Lemma represents_update n b S p v w (f : bool) S' :
  represents n b S → 0 ≤ p < n → b.[p / 64] = Some v →
  word64 w → (∀ j, 0 ≤ j < 64 → Z.testbit w j = if j =? p mod 64 then f else Z.testbit v j) →
  (∀ q, q ∈ S' ↔ if decide (q = p) then f = true else q ∈ S) →
  ∃ b', slice_set b (p / 64) w = Some b' ∧ represents n b' S'.
Proof.
  intros Hr Hp Hv Hw Hbits HS. destruct (represents_word n b S p Hr Hp) as (v' & Hv' & Hvn & _ & Hm & Hmin & Hvb).
  rewrite Hv in Hv'. injection Hv' as <-. destruct Hr as [Hws Hl Hb Hrange].
  pose proof (split_pos p ltac:(lia)) as (H1 & _ & H3).
  eexists. split; [by apply slice_set_lt|]. split.
  - by apply list.Forall_insert.
  - by rewrite length_insert.
  - intros i u j Hi Hj. apply Bool.eq_iff_eq_true. rewrite bool_decide_eq_true, HS. destruct (decide (i = Z.to_nat (p / 64))) as [->|Hne].
    + rewrite list_lookup_insert_eq in Hi by lia. injection Hi as <-. rewrite Hbits by done.
      rewrite Z2Nat.id by lia. destruct (Z.eqb_spec j (p mod 64)) as [->|Hjne].
      * by rewrite decide_True by lia.
      * rewrite decide_False by lia. rewrite Hvb by done. by rewrite bool_decide_eq_true.
    + rewrite list_lookup_insert_ne in Hi by done. rewrite decide_False by lia.
      rewrite (Hb _ _ j Hi Hj). by rewrite bool_decide_eq_true.
  - intros q. rewrite HS. destruct (decide (q = p)) as [->|]; [done|]. apply Hrange.
Qed.

(** ** The operations on the set *)

Lemma newBitset_represents n : 0 ≤ n → represents n (newBitset n) ∅.
Proof.
  intros Hn. unfold newBitset. assert (0 ≤ n / 64) by (apply Z.div_pos; lia). split.
  - apply Forall_replicate. by split.
  - rewrite length_replicate. destruct (n mod 64 =? 0); simpl; lia.
  - intros i v j [-> _]%lookup_replicate Hj. rewrite Z.bits_0. by rewrite bool_decide_eq_false_2 by set_solver.
  - set_solver.
Qed.

Lemma set_represents n b S p :
  represents n b S → 0 ≤ p < n → ∃ b', set p b = Some b' ∧ represents n b' ({[p]} ∪ S).
Proof.
  intros Hr Hp. destruct (represents_word n b S p Hr Hp) as (v & Hv & _ & Hw & _ & Hm & _).
  unfold set. simpl. rewrite Hv. simpl.
  eapply (represents_update n b S p v _ true); [done..| | |].
  - apply testbit_word64.
    + apply Z.lor_nonneg. split; [apply Hw|apply bit64_nonneg].
    + intros j Hj. rewrite Z.lor_spec, bit64_testbit, word64_testbit by (done || lia).
      by rewrite (proj2 (Z.eqb_neq _ _)) by lia.
  - intros j Hj. rewrite Z.lor_spec, bit64_testbit by lia.
    destruct (j =? p mod 64); [apply orb_true_r|apply orb_false_r].
  - intros q. destruct (decide (q = p)); set_solver.
Qed.

Lemma clear_represents n b S p :
  represents n b S → 0 ≤ p < n → ∃ b', clear p b = Some b' ∧ represents n b' (S ∖ {[p]}).
Proof.
  intros Hr Hp. destruct (represents_word n b S p Hr Hp) as (v & Hv & _ & Hw & _ & Hm & _).
  unfold clear. simpl. rewrite Hv. simpl.
  eapply (represents_update n b S p v _ false); [done..| | |].
  - apply testbit_word64.
    + apply Z.ldiff_nonneg. left. apply Hw.
    + intros j Hj. by rewrite Z.ldiff_spec, word64_testbit by (done || lia).
  - intros j Hj. rewrite Z.ldiff_spec, bit64_testbit by lia.
    destruct (j =? p mod 64); [apply andb_false_r|apply andb_true_r].
  - intros q. destruct (decide (q = p)); set_solver.
Qed.

Lemma get_represents n b S p :
  represents n b S → 0 ≤ p < n → get p b = Some (bool_decide (p ∈ S)).
Proof.
  intros Hr Hp. destruct (represents_word n b S p Hr Hp) as (v & Hv & _ & Hw & _ & Hm & Hb).
  unfold get. simpl. rewrite Hv. simpl. f_equal.
  pose proof (split_pos p ltac:(lia)) as (_ & _ & Hp').
  assert (bool_decide (p ∈ S) = Z.testbit v (p mod 64)) as ->.
  { rewrite (Hb _ Hm). by rewrite <-Hp'. }
  destruct (Z.eqb_spec (Z.land v (bit64 (p mod 64))) 0) as [He|He]; simpl.
  - apply (f_equal (λ z, Z.testbit z (p mod 64))) in He.
    rewrite Z.land_spec, bit64_testbit, Z.eqb_refl, andb_true_r, Z.bits_0 in He by lia. by rewrite He.
  - destruct (Z.testbit v (p mod 64)) eqn:Ht; [done|]. exfalso. apply He.
    apply Z.bits_inj'. intros j Hj. rewrite Z.land_spec, bit64_testbit, Z.bits_0 by lia.
    destruct (Z.eqb_spec j (p mod 64)) as [->|]; [by rewrite Ht|apply andb_false_r].
Qed.

Lemma represents_inj n b b2 S : represents n b S → represents n b2 S → b = b2.
Proof.
  intros [Hw Hl Hb _] [Hw2 Hl2 Hb2 _]. apply list_eq_same_length with (length b); [lia|done|].
  intros i v w Hi Hv Hv2. apply word64_ext; [by eapply list.Forall_lookup_1 in Hw|by eapply list.Forall_lookup_1 in Hw2|].
  intros j Hj. by rewrite (Hb _ _ _ Hv Hj), (Hb2 _ _ _ Hv2 Hj).
Qed.

Lemma equals_spec b b2 : equals b b2 = true ↔ b = b2.
Proof.
  unfold equals. destruct (Z.eqb_spec (len b) (len b2)) as [Hl|Hl]; simpl; [|split; [done|by intros ->]].
  revert b2 Hl. induction b as [|v b IH]; intros [|v2 b2] Hl; simpl in *; try (done || lia).
  destruct (Z.eqb_spec v v2) as [->|]; simpl; [|naive_solver].
  rewrite IH by lia. naive_solver.
Qed.

Lemma represents_set_eq n b S S2 : represents n b S → represents n b S2 → S = S2.
Proof.
  assert (∀ S S2, represents n b S → represents n b S2 → S ⊆ S2) as Hsub.
  { clear. intros S S2 Hr [_ _ Hb2 _] p Hp. pose proof (rep_range _ _ _ Hr p Hp).
    destruct (represents_word n b S p Hr ltac:(done)) as (v & _ & Hv & _ & Hm & Hj & Hb).
    specialize (Hb2 _ _ (p mod 64) Hv Hj). rewrite Hb, Z2Nat.id in Hb2 by (done || lia).
    pose proof (split_pos p ltac:(lia)) as (_ & _ & Hp'). rewrite <-Hp' in Hb2.
    apply (bool_decide_eq_true_1 (p ∈ S2)). rewrite <-Hb2. by apply bool_decide_eq_true_2. }
  intros H1 H2. apply set_eq. intros p. split; [apply (Hsub _ _ H1 H2)|apply (Hsub _ _ H2 H1)].
Qed.

Lemma equals_represents n b b2 S S2 :
  represents n b S → represents n b2 S2 → equals b b2 = bool_decide (S = S2).
Proof.
  intros Hr Hr2. apply Bool.eq_iff_eq_true. rewrite equals_spec, bool_decide_eq_true.
  split; [intros ->; by eapply represents_set_eq|intros ->; by eapply represents_inj].
Qed.

(** The positions of a word's bits, the word being the [k]-th. *)
Definition word_members (k : Z) (v : Z) : gset Z :=
  list_to_set ((λ j, 64 * k + j) <$> filter (λ i, Z.testbit v i) (seqZ 0 64)).

Lemma elem_of_word_members k v p :
  p ∈ word_members k v ↔ ∃ j, 0 ≤ j < 64 ∧ Z.testbit v j = true ∧ p = 64 * k + j.
Proof.
  unfold word_members. rewrite elem_of_list_to_set, list_elem_of_fmap.
  setoid_rewrite list_elem_of_filter. setoid_rewrite elem_of_seqZ.
  setoid_rewrite Is_true_true. naive_solver lia.
Qed.

Lemma size_word_members k v : Z.of_nat (size (word_members k v)) = OnesCount64 v.
Proof.
  unfold word_members, OnesCount64. rewrite size_list_to_set; [by rewrite length_fmap|].
  apply NoDup_fmap_2; [intros ?? ?; lia|]. apply list.NoDup_filter, NoDup_seqZ.
Qed.

Lemma popcnt_cons v b : popcnt (v :: b) = OnesCount64 v + popcnt b.
Proof.
  assert (∀ x, foldl (λ total w, total + OnesCount64 w) x b = x + popcnt b) as Hacc; [|apply Hacc].
  unfold popcnt. induction b as [|w b IH]; intros x; simpl; [lia|].
  rewrite (IH (x + _)), (IH (0 + _)). lia.
Qed.

Lemma popcnt_size b k (S : gset Z) :
  (∀ p, p ∈ S ↔ ∃ i v, b !! i = Some v ∧ p ∈ word_members (k + Z.of_nat i) v) →
  popcnt b = Z.of_nat (size S).
Proof.
  revert k S. induction b as [|v b IH]; intros k S HS.
  - replace S with (∅ : gset Z); [done|]. symmetry. apply set_eq. intros p.
    rewrite HS. set_solver.
  - rewrite popcnt_cons, (IH (k + 1) (S ∖ word_members k v)), <-(size_word_members k).
    + assert (word_members k v ⊆ S) as Hsub.
      { intros p Hp. apply HS. exists 0%nat, v. by rewrite Z.add_0_r. }
      pose proof (size_union_alt (word_members k v) S) as Hsz.
      rewrite (subseteq_union_1_L _ _ Hsub) in Hsz. lia.
    + intros p. rewrite elem_of_difference, HS. split.
      * intros [([|i] & w & Hi & Hp) Hn]; simpl in Hi; [|exists i, w; split; [done|]].
        -- simplify_eq. by rewrite Z.add_0_r in Hp.
        -- by replace (k + 1 + Z.of_nat i) with (k + Z.of_nat (Datatypes.S i)) by lia.
      * intros (i & w & Hi & Hp). split.
        -- exists (Datatypes.S i), w. split; [done|]. by replace (k + Z.of_nat (Datatypes.S i)) with (k + 1 + Z.of_nat i) by lia.
        -- rewrite elem_of_word_members in *. intros (j & Hj & _ & ->). destruct Hp as (j' & ? & _ & ?). lia.
Qed.

Lemma represents_popcnt n b S : represents n b S → popcnt b = Z.of_nat (size S).
Proof.
  intros Hr. apply (popcnt_size b 0). intros p. setoid_rewrite elem_of_word_members. split.
  - intros Hp. pose proof (rep_range _ _ _ Hr p Hp) as Hrange.
    destruct (represents_word n b S p Hr Hrange) as (v & _ & Hv & _ & Hm & Hj & Hb).
    pose proof (split_pos p ltac:(lia)) as (_ & _ & Hp').
    exists (Z.to_nat (p / 64)), v. split; [done|]. exists (p mod 64). rewrite Hb by done.
    rewrite Z2Nat.id, <-Hp' by lia. by rewrite bool_decide_eq_true.
  - intros (i & v & Hi & j & Hj & Ht & ->). rewrite (rep_bits _ _ _ Hr i v j Hi Hj), bool_decide_eq_true in Ht.
    by rewrite Z.add_0_l.
Qed.

(** ** Property *)

(** The bit set is a set of positions: a new one of [n] bits is empty and represents
    its members exactly; below [n], [set] and [clear] never run out of the slice and add
    and remove one position, [get] tests it, [popcnt] counts the members, and [equals]
    compares the sets, for any [n], a multiple of 64 or not. *)
Theorem bitset_refines_set n :
  0 ≤ n →
  represents n (newBitset n) ∅
  ∧ ∀ b S, represents n b S →
      popcnt b = Z.of_nat (size S)
      ∧ (∀ b2 S2, represents n b2 S2 → equals b b2 = bool_decide (S = S2))
      ∧ ∀ p, 0 ≤ p < n →
          get p b = Some (bool_decide (p ∈ S))
          ∧ (∃ b', set p (clone b) = Some b' ∧ represents n b' ({[p]} ∪ S))
          ∧ (∃ b', clear p b = Some b' ∧ represents n b' (S ∖ {[p]})).
Proof.
  intros Hn. split; [by apply newBitset_represents|]. intros b S Hr. split_and!.
  - by apply (represents_popcnt n).
  - intros. by apply (equals_represents n).
  - intros p Hp. split_and!; [by apply (get_represents n)|by apply set_represents|by apply clear_represents].
Qed.

Lemma bitset_refines_set_witness :
  popcnt (newBitset 65) = 0 ∧ (b ← set 64 (newBitset 65); get 64 b) = Some true.
Proof.
  destruct (bitset_refines_set 65 ltac:(lia)) as [Hn Hop].
  destruct (Hop _ _ Hn) as (Hp & _ & Hset). split; [exact Hp|].
  destruct (Hset 64 ltac:(lia)) as (_ & (b' & Hb' & Hr') & _). unfold clone in Hb'. rewrite Hb'. simpl.
  destruct (Hop _ _ Hr') as (_ & _ & Hget). destruct (Hget 64 ltac:(lia)) as (-> & _).
  vm_compute. reflexivity.
Defined.
