(* ===== verification/PorcModel.v ===== *)
(** * Porcupine: histories and models ([porcupine/model.go], part of [checker.go])

    What a client of the checker passes in, the entries the checker makes of it, and what
    it means for a history to be linearizable. *)
From S2P Require Import Prelude.

(** An [interface{}]: nil or a value. *)
Abbreviation iface V := (option V) (only parsing).

Record Operation (V : Type) := MkOperation {
  ClientId : Z;
  Input : iface V;
  Call : Z;
  Output : iface V;
  Return : Z
}.
Arguments MkOperation {V}. Arguments ClientId {V}. Arguments Input {V}. Arguments Call {V}.
Arguments Output {V}. Arguments Return {V}.
#[export] Instance Operation_eta {V} : Eta (Operation V) :=
  λ o, MkOperation (ClientId o) (Input o) (Call o) (Output o) (Return o).

(** [EventKind] and [entryKind] are booleans: true is a return. *)
Abbreviation CallEvent := false (only parsing).
Abbreviation ReturnEvent := true (only parsing).
Abbreviation callEntry := false (only parsing).
Abbreviation returnEntry := true (only parsing).

Record Event (V : Type) := MkEvent {
  ev_ClientId : Z;
  ev_Kind : bool;
  ev_Value : iface V;
  ev_Id : Z
}.
Arguments MkEvent {V}. Arguments ev_ClientId {V}. Arguments ev_Kind {V}.
Arguments ev_Value {V}. Arguments ev_Id {V}.

(** A nil function is [None].  [Step] may panic, as the models' type assertions do.  The two
    fields that only describe values are arguments of [PorcVisual]. *)
Record Model (V St : Type) := MkModel {
  Partition : option (list (Operation V) → option (list (list (Operation V))));
  PartitionEvent : option (list (Event V) → option (list (list (Event V))));
  Init : St;
  Step : St → iface V → iface V → option (bool * St);
  Equal : option (St → St → bool)
}.
Arguments MkModel {V St}. Arguments Partition {V St}. Arguments PartitionEvent {V St}.
Arguments Init {V St}. Arguments Step {V St}. Arguments Equal {V St}.
#[export] Instance Model_eta {V St} : Eta (Model V St) :=
  λ m, MkModel (Partition m) (PartitionEvent m) (Init m) (Step m) (Equal m).

Definition NoPartition {V} (history : list (Operation V)) : option (list (list (Operation V))) :=
  Some [history].

Definition NoPartitionEvent {V} (history : list (Event V)) : option (list (list (Event V))) :=
  Some [history].

(** [==] on the two interfaces; the comparison of states that Go cannot compare, which
    panics, is left out. *)
Definition ShallowEqual `{EqDecision St} (state1 state2 : St) : bool := bool_decide (state1 = state2).

Definition fillDefault {V} `{EqDecision St} (model : Model V St) : Model V St :=
  let model := if Partition model is Some _ then model else model <| Partition := Some NoPartition |> in
  let model := if PartitionEvent model is Some _ then model
               else model <| PartitionEvent := Some NoPartitionEvent |> in
  if Equal model is Some _ then model else model <| Equal := Some ShallowEqual |>.

Inductive CheckResult := Unknown | Ok | Illegal.

#[export] Instance CheckResult_eq_dec : EqDecision CheckResult.
Proof. solve_decision. Defined.

(** ** Entries *)

Record entry (V : Type) := MkEntry {
  kind : bool;
  value : iface V;
  id : Z;
  time : Z;
  clientId : Z
}.
Arguments MkEntry {V}. Arguments kind {V}. Arguments value {V}. Arguments id {V}.
Arguments time {V}. Arguments clientId {V}.

(** [sort.Sort] with [byTime]: the order it gives to entries of the same time is its own. *)
Class TimeSort := {
  sort_byTime {V} : list (entry V) → list (entry V);
  sort_byTime_perm {V} (entries : list (entry V)) : sort_byTime entries ≡ₚ entries;
  sort_byTime_sorted {V} (entries : list (entry V)) :
    StronglySorted (λ a b, time a ≤ time b) (sort_byTime entries)
}.

Fixpoint collect_entries {V} (history : list (Operation V)) (i : Z) : list (entry V) :=
  match history with
  | [] => []
  | elem :: history =>
      MkEntry callEntry (Input elem) i (Call elem) (ClientId elem)
        :: MkEntry returnEntry (Output elem) i (Return elem) (ClientId elem)
        :: collect_entries history (i + 1)
  end.

Definition makeEntries `{TimeSort} {V} (history : list (Operation V)) : list (entry V) :=
  sort_byTime (collect_entries history 0).

(** The loop of [renumber], with [m] the renumbering so far and [i] the next number. *)
Fixpoint renumber_loop {V} (events : list (Event V)) (m : gmap Z Z) (i : Z) : list (Event V) :=
  match events with
  | [] => []
  | v :: events =>
      match m !! ev_Id v with
      | Some r => MkEvent (ev_ClientId v) (ev_Kind v) (ev_Value v) r :: renumber_loop events m i
      | None => MkEvent (ev_ClientId v) (ev_Kind v) (ev_Value v) i
                  :: renumber_loop events (<[ev_Id v := i]> m) (i + 1)
      end
  end.

Definition renumber {V} (events : list (Event V)) : list (Event V) := renumber_loop events ∅ 0.

(** The index of an event is its time. *)
Definition convertEntries {V} (events : list (Event V)) : list (entry V) :=
  imap (λ i elem,
    let kind := if eqb (ev_Kind elem) ReturnEvent then returnEntry else callEntry in
    MkEntry kind (ev_Value elem) (ev_Id elem) (Z.of_nat i) (ev_ClientId elem)) events.

(** ** Linearizability *)

Section linearizable.
Context {V St : Type} (m : Model V St).
Implicit Types (ops : list (Operation V)) (s : St).

(** The operations can run one after the other from [s], with their results. *)
Fixpoint legal s ops : Prop :=
  match ops with
  | [] => True
  | o :: ops => ∃ s', Step m s (Input o) (Output o) = Some (true, s') ∧ legal s' ops
  end.

(** No operation that had returned before another was called comes after it. *)
Definition in_order ops : Prop :=
  ∀ i j a b, (i < j)%nat → ops !! i = Some a → ops !! j = Some b → ¬ Return b < Call a.

(** Some order of the operations that keeps the real-time order of those that do not
    overlap is a legal sequential run. *)
Definition linearizable ops : Prop :=
  ∃ l, l ≡ₚ ops ∧ in_order l ∧ legal (Init m) l.

(** The entries of [h] are the calls and returns of [ops], numbered by their place there
    and with their index in [h] as time. *)
Record entries_of (h : list (entry V)) ops : Prop := {
  eo_length : length h = (2 * length ops)%nat;
  eo_op i o : ops !! i = Some o →
    0 ≤ Call o < Return o
    ∧ (∃ e, h !! Z.to_nat (Call o) = Some e ∧ kind e = callEntry ∧ value e = Input o ∧ id e = Z.of_nat i)
    ∧ (∃ e, h !! Z.to_nat (Return o) = Some e ∧ kind e = returnEntry ∧ value e = Output o ∧ id e = Z.of_nat i);
  eo_entry p e : h !! p = Some e →
    ∃ i o, ops !! i = Some o ∧ id e = Z.of_nat i ∧ Z.of_nat p = if kind e then Return o else Call o
}.

#[export] Instance linearizable_perm : Proper ((≡ₚ) ==> iff) linearizable.
Proof.
  intros ops ops' Hp. unfold linearizable. by setoid_rewrite Hp.
Qed.
End linearizable.

(** Only the values and the real-time order of the operations matter. *)
Lemma linearizable_map {V St X} (m : Model V St) (f g : X → Operation V) (l : list X) :
  (∀ x, x ∈ l → Input (f x) = Input (g x) ∧ Output (f x) = Output (g x)) →
  (∀ x y, x ∈ l → y ∈ l → Return (g x) < Call (g y) → Return (f x) < Call (f y)) →
  linearizable m (f <$> l) → linearizable m (g <$> l).
Proof.
  intros Hv Hord (k & Hk & Hin & Hleg). apply Permutation_map_inv in Hk as (l' & -> & Hl').
  assert (∀ x, x ∈ l' → x ∈ l) as Hsub by (intros x; by rewrite Hl').
  exists (g <$> l'). split_and!; [by rewrite Hl'| |].
  - intros i j a b Hij (x & -> & Hx)%list_lookup_fmap_Some (y & -> & Hy)%list_lookup_fmap_Some Hab.
    eapply (Hin i j (f x) (f y)); [done|by rewrite list_lookup_fmap, Hx|by rewrite list_lookup_fmap, Hy|].
    apply Hord; eauto using list_elem_of_lookup_2.
  - clear Hin Hl'. revert Hleg Hsub. generalize (Init m). induction l' as [|x l' IH]; simpl; [done|].
    intros s (s' & Hs & Hleg) Hsub. destruct (Hv x) as [HI HO]; [apply Hsub; left|].
    exists s'. rewrite <-HI, <-HO. split; [done|]. apply IH; [done|]. intros y Hy. apply Hsub. by right.
Qed.

(** ** The entries of a list of operations *)

Definition call_entry {V} (i : nat) (o : Operation V) : entry V :=
  MkEntry callEntry (Input o) (Z.of_nat i) (Call o) (ClientId o).
Definition return_entry {V} (i : nat) (o : Operation V) : entry V :=
  MkEntry returnEntry (Output o) (Z.of_nat i) (Return o) (ClientId o).

Section make_entries.
Context `{TimeSort} {V : Type}.
Implicit Types (history ops : list (Operation V)) (h : list (entry V)) (e : entry V).

Definition entry_key e : bool * Z := (kind e, id e).

Lemma collect_entries_elem history k e :
  e ∈ collect_entries history (Z.of_nat k) ↔
  ∃ i o, history !! i = Some o ∧ (e = call_entry (k + i) o ∨ e = return_entry (k + i) o).
Proof.
  revert k. induction history as [|o history IH]; intros k; simpl; [set_solver|].
  rewrite !elem_of_cons. replace (Z.of_nat k + 1) with (Z.of_nat (S k)) by lia. rewrite IH. split.
  - intros [->|[->|(i & o' & Hi & He)]].
    + exists 0%nat, o. rewrite Nat.add_0_r. naive_solver.
    + exists 0%nat, o. rewrite Nat.add_0_r. naive_solver.
    + exists (S i), o'. by rewrite Nat.add_succ_r.
  - intros ([|i] & o' & Hi & He); simpl in Hi.
    + simplify_eq. rewrite Nat.add_0_r in He. naive_solver.
    + right. right. exists i, o'. by rewrite Nat.add_succ_r in He.
Qed.

Lemma collect_entries_length history k : length (collect_entries history k) = (2 * length history)%nat.
Proof. revert k. induction history as [|o history IH]; intros k; simpl; [done|]. rewrite IH. lia. Qed.

Lemma collect_entries_keys history k : NoDup (entry_key <$> collect_entries history (Z.of_nat k)).
Proof.
  revert k. induction history as [|o history IH]; intros k; simpl; [constructor|].
  replace (Z.of_nat k + 1) with (Z.of_nat (S k)) by lia.
  assert (∀ b, (b, Z.of_nat k) ∉ entry_key <$> collect_entries history (Z.of_nat (S k))) as Hn.
  { intros b (e & He & (i & o' & _ & Hi)%collect_entries_elem)%list_elem_of_fmap.
    destruct Hi as [-> | ->]; unfold entry_key in He; simpl in He; injection He; lia. }
  constructor; [|constructor; [apply Hn|apply IH]].
  rewrite not_elem_of_cons. split; [done|apply Hn].
Qed.

(** Where an entry is. *)
Definition entry_pos h (b : bool) (i : nat) : Z :=
  default 0 ((λ p, Z.of_nat p.1) <$> list_find (λ e, entry_key e = (b, Z.of_nat i)) h).

(** The operations with the places of their entries as times. *)
Definition ranked h history : list (Operation V) :=
  imap (λ i o, o <| Call := entry_pos h callEntry i |> <| Return := entry_pos h returnEntry i |>) history.

Lemma entry_pos_spec h e p i b :
  NoDup (entry_key <$> h) → h !! p = Some e → entry_key e = (b, Z.of_nat i) → entry_pos h b i = Z.of_nat p.
Proof.
  intros Hn Hp He. unfold entry_pos.
  destruct (list_find _ h) as [[q e']|] eqn:Hf; simpl.
  - apply list_find_Some in Hf as (Hq & Hk & _). f_equal.
    eapply (NoDup_lookup _ q p (entry_key e)); [done|..].
    + rewrite list_lookup_fmap, Hq. simpl. congruence.
    + by rewrite list_lookup_fmap, Hp.
  - apply list_find_None in Hf. rewrite list.Forall_lookup in Hf. exfalso. by eapply Hf.
Qed.

Lemma makeEntries_keys history : NoDup (entry_key <$> makeEntries history).
Proof. unfold makeEntries. rewrite sort_byTime_perm. apply (collect_entries_keys history 0). Qed.

Lemma makeEntries_elem history e :
  e ∈ makeEntries history ↔
  ∃ i o, history !! i = Some o ∧ (e = call_entry i o ∨ e = return_entry i o).
Proof. unfold makeEntries. rewrite sort_byTime_perm. apply (collect_entries_elem history 0). Qed.

Lemma makeEntries_sorted history p q e e' :
  makeEntries history !! p = Some e → makeEntries history !! q = Some e' → time e < time e' → (p < q)%nat.
Proof.
  intros Hp Hq Ht. destruct (Nat.lt_ge_cases p q) as [|Hle]; [done|].
  destruct (decide (p = q)) as [->|]; [naive_solver lia|].
  pose proof (StronglySorted_lookup _ _ q p e' e (sort_byTime_sorted (collect_entries history 0)) ltac:(lia) Hq Hp).
  simpl in *. lia.
Qed.

(** Operations return after their call, and no operation returns at the very instant at
    which one is called, when [sort.Sort] could put either first. *)
Definition well_timed history : Prop :=
  ∀ a b, a ∈ history → b ∈ history → Call a ≤ Return a ∧ Return a ≠ Call b.

(** Where the two entries of an operation end up. *)
Lemma makeEntries_positions history i o :
  history !! i = Some o →
  ∃ p q, makeEntries history !! p = Some (call_entry i o)
    ∧ makeEntries history !! q = Some (return_entry i o)
    ∧ entry_pos (makeEntries history) callEntry i = Z.of_nat p
    ∧ entry_pos (makeEntries history) returnEntry i = Z.of_nat q.
Proof.
  intros Hi.
  destruct (proj1 (list_elem_of_lookup (makeEntries history) (call_entry i o))) as [p Hp]; [apply makeEntries_elem; eauto|].
  destruct (proj1 (list_elem_of_lookup (makeEntries history) (return_entry i o))) as [q Hq]; [apply makeEntries_elem; eauto|].
  exists p, q. split_and!; [done|done|by eapply entry_pos_spec; [apply makeEntries_keys|..]..].
Qed.

Lemma ranked_lookup h history i o' :
  ranked h history !! i = Some o' ↔
  ∃ o, history !! i = Some o
    ∧ o' = o <| Call := entry_pos h callEntry i |> <| Return := entry_pos h returnEntry i |>.
Proof. unfold ranked. rewrite list_lookup_imap, fmap_Some. done. Qed.

Lemma ranked_entries history :
  well_timed history → entries_of (makeEntries history) (ranked (makeEntries history) history).
Proof.
  intros Hw. split.
  - unfold ranked, makeEntries. by rewrite sort_byTime_perm, collect_entries_length, length_imap.
  - intros i o' (o & Hi & ->)%ranked_lookup. simpl.
    destruct (makeEntries_positions history i o Hi) as (p & q & Hp & Hq & -> & ->).
    assert (p < q)%nat as Hpq.
    { eapply makeEntries_sorted; [exact Hp|exact Hq|]. simpl.
      destruct (Hw o o); eauto using list_elem_of_lookup_2. lia. }
    rewrite !Nat2Z.id. split; [lia|]. split; [by exists (call_entry i o)|by exists (return_entry i o)].
  - intros p e He. pose proof (list_elem_of_lookup_2 _ _ _ He) as (i & o & Hi & Hk)%makeEntries_elem.
    exists i. eexists. split; [apply ranked_lookup; eauto|].
    destruct Hk as [-> | ->]; simpl; (split; [done|]); symmetry;
      (eapply entry_pos_spec; [apply makeEntries_keys|exact He|done]).
Qed.

Lemma ranked_order history i j oi oj :
  well_timed history → history !! i = Some oi → history !! j = Some oj →
  Return oi < Call oj ↔
  entry_pos (makeEntries history) returnEntry i < entry_pos (makeEntries history) callEntry j.
Proof.
  intros Hw Hi Hj. destruct (makeEntries_positions history i oi Hi) as (_ & q & _ & Hq & _ & ->).
  destruct (makeEntries_positions history j oj Hj) as (p & _ & Hp & _ & -> & _). split; intros Hlt.
  - assert (q < p)%nat; [|lia]. by eapply makeEntries_sorted.
  - destruct (Hw oi oj) as [_ Hne]; [eauto using list_elem_of_lookup_2..|].
    destruct (Z.lt_trichotomy (Return oi) (Call oj)) as [|[|Hgt]]; [done|done|].
    assert (p < q)%nat; [|lia]. eapply makeEntries_sorted; [exact Hp|exact Hq|done].
Qed.

Lemma ranked_linearizable {St} (m : Model V St) history :
  well_timed history → linearizable m (ranked (makeEntries history) history) ↔ linearizable m history.
Proof.
  intros Hw. set (h := makeEntries history).
  set (g (x : nat * Operation V) := x.2 <| Call := entry_pos h callEntry x.1 |> <| Return := entry_pos h returnEntry x.1 |>).
  assert (ranked h history = g <$> imap pair history) as ->.
  { unfold ranked. apply list_eq. intros i. rewrite list_lookup_fmap, !list_lookup_imap. by destruct (history !! i). }
  assert (history = snd <$> imap pair history) as Hsnd.
  { apply list_eq. intros i. rewrite list_lookup_fmap, list_lookup_imap. by destruct (history !! i). }
  assert (∀ x, x ∈ imap pair history → history !! x.1 = Some x.2) as Hx.
  { intros x (i & o & -> & Hi)%elem_of_lookup_imap. done. }
  rewrite Hsnd at 2. split; apply linearizable_map; try done; intros x y Hxi Hyi; simpl;
    by apply (ranked_order history x.1 y.1 x.2 y.2 Hw (Hx x Hxi) (Hx y Hyi)).
Qed.

End make_entries.

(** A concrete [sort.Sort], for witnesses. *)
Module MergeTimeSort.
Definition time_le {V} (a b : entry V) : Prop := time a ≤ time b.
#[export] Instance time_le_dec {V} (a b : entry V) : Decision (time_le a b).
Proof. unfold time_le. apply _. Defined.
#[export] Instance time_le_trans {V} : Transitive (time_le (V := V)).
Proof. intros a b c. unfold time_le. lia. Qed.
#[export] Instance time_le_total {V} : Total (time_le (V := V)).
Proof. intros a b. unfold time_le. lia. Qed.
#[export] Program Instance merge_time_sort : TimeSort := {| sort_byTime V := merge_sort time_le |}.
Next Obligation. intros. apply merge_sort_Permutation. Qed.
Next Obligation. intros. apply (StronglySorted_merge_sort time_le). Qed.
End MergeTimeSort.
