(* ===== verification/PorcList.v ===== *)
(** * Porcupine: the linked list of entries ([porcupine/checker.go])

    [makeLinkedEntries] turns the entries into a doubly linked list of nodes, from which
    the search unlinks the call and the return of each operation it tries ([lift]) and puts
    them back when it backtracks ([unlift]).  The nodes live in a store and a pointer is an
    address in it; dereferencing nil or a wild pointer is the [None] of the operations. *)
From S2P Require Import Prelude PorcModel.

Abbreviation Ptr := nat (only parsing).

Record node (V : Type) := MkNode {
  n_value : iface V;
  n_match : option Ptr;
  n_id : Z;
  n_next : option Ptr;
  n_prev : option Ptr
}.
Arguments MkNode {V}. Arguments n_value {V}. Arguments n_match {V}. Arguments n_id {V}.
Arguments n_next {V}. Arguments n_prev {V}.
#[export] Instance node_eta {V} : Eta (node V) :=
  λ n, MkNode (n_value n) (n_match n) (n_id n) (n_next n) (n_prev n).

Section nodes.
Context {V : Type}.
Abbreviation Heap := (gmap Ptr (node V)).
Implicit Types (h : Heap) (p q : Ptr) (l : list Ptr).

(** [p.next = q] and [p.prev = q]. *)
Definition set_next p (q : option Ptr) h : option Heap :=
  nd ← h !! p; Some (<[p := nd <| n_next := q |>]> h).
Definition set_prev p (q : option Ptr) h : option Heap :=
  nd ← h !! p; Some (<[p := nd <| n_prev := q |>]> h).

Definition insertBefore n (mark : option Ptr) h : option Heap :=
  match mark with
  | Some mark =>
      nd ← h !! mark;
      let beforeMark := n_prev nd in
      h ← set_prev mark (Some n) h;
      h ← set_next n (Some mark) h;
      match beforeMark with
      | Some beforeMark => h ← set_prev n (Some beforeMark) h; set_next beforeMark (Some n) h
      | None => Some h
      end
  | None => Some h
  end.

(** The loop of [length]; a list has no more nodes than the store. *)
Fixpoint length_loop (fuel : nat) h (n : option Ptr) (l : Z) : option Z :=
  match fuel, n with
  | _, None => Some l
  | S fuel, Some n => nd ← h !! n; length_loop fuel h (n_next nd) (l + 1)
  | O, Some _ => None
  end.

Definition node_length h (n : option Ptr) : option Z := length_loop (size h) h n 0.

(** The loop of [makeLinkedEntries] runs from the last entry to the first; the node it
    allocates for entry [i] is called [i].  The results are the store, [match] and [root]. *)
Fixpoint link_entries (entries : list (entry V)) (i : nat) : option (Heap * gmap Z Ptr * option Ptr) :=
  match entries with
  | [] => Some (∅, ∅, None)
  | elem :: rest =>
      '(h, match_, root) ← link_entries rest (S i);
      if kind elem then
        h ← insertBefore i root (<[i := MkNode (value elem) None (id elem) None None]> h);
        Some (h, <[id elem := i]> match_, Some i)
      else
        h ← insertBefore i root (<[i := MkNode (value elem) (match_ !! id elem) (id elem) None None]> h);
        Some (h, match_, Some i)
  end.

Definition makeLinkedEntries (entries : list (entry V)) : option (Heap * option Ptr) :=
  '(h, _, root) ← link_entries entries 0; Some (h, root).

Definition lift (e : Ptr) h : option Heap :=
  nd ← h !! e;
  prev ← n_prev nd; h ← set_next prev (n_next nd) h;
  nd ← h !! e;
  next ← n_next nd; h ← set_prev next (n_prev nd) h;
  nd ← h !! e;
  match_ ← n_match nd;
  mt ← h !! match_;
  prev ← n_prev mt; h ← set_next prev (n_next mt) h;
  mt ← h !! match_;
  match n_next mt with
  | Some next => set_prev next (n_prev mt) h
  | None => Some h
  end.

Definition unlift (e : Ptr) h : option Heap :=
  nd ← h !! e;
  match_ ← n_match nd;
  mt ← h !! match_;
  prev ← n_prev mt; h ← set_next prev (Some match_) h;
  mt ← h !! match_;
  h ← (match n_next mt with
       | Some next => set_prev next (Some match_) h
       | None => Some h
       end);
  nd ← h !! e;
  prev ← n_prev nd; h ← set_next prev (Some e) h;
  nd ← h !! e;
  next ← n_next nd; set_prev next (Some e) h.

(** ** The shape of the list *)

(** The nodes of [l] are linked both ways in that order, the last one to nil; what the
    first one's [prev] is does not matter. *)
Definition linked h l : Prop :=
  ∀ i p, l !! i = Some p →
    n_next <$> h !! p = Some (l !! S i) ∧ (∀ j, i = S j → n_prev <$> h !! p = Some (l !! j)).

(** What [lift] and [unlift] leave alone. *)
Definition node_data (nd : node V) : iface V * option Ptr * Z := (n_value nd, n_match nd, n_id nd).

Definition same_data h h' : Prop := ∀ p, node_data <$> h' !! p = node_data <$> h !! p.

(** [lift] and [unlift] on one node. *)
Definition detach (x : Ptr) h : option Heap :=
  nd ← h !! x;
  prev ← n_prev nd; h ← set_next prev (n_next nd) h;
  nd ← h !! x;
  match n_next nd with
  | Some next => set_prev next (n_prev nd) h
  | None => Some h
  end.

Definition attach (x : Ptr) h : option Heap :=
  nd ← h !! x;
  prev ← n_prev nd; h ← set_next prev (Some x) h;
  nd ← h !! x;
  match n_next nd with
  | Some next => set_prev next (Some x) h
  | None => Some h
  end.

#[global] Instance same_data_preorder : PreOrder same_data.
Proof. split; [by intros h p|intros h h' h'' H1 H2 p; by rewrite H2, H1]. Qed.

(** Neighbours in a linked list. *)
Lemma linked_next h A a B : linked h (A ++ a :: B) → n_next <$> h !! a = Some (B !! 0%nat).
Proof.
  intros Hl. destruct (Hl (length A) a (list_lookup_middle _ _ _ _ eq_refl)) as [-> _].
  rewrite lookup_app_r by lia. by replace (S (length A) - length A)%nat with 1%nat by lia.
Qed.

Lemma linked_prev h A a x B : linked h (A ++ a :: x :: B) → n_prev <$> h !! x = Some (Some a).
Proof.
  intros Hl. destruct (Hl (S (length A)) x) as [_ Hp].
  { rewrite lookup_app_r by lia. by replace (S (length A) - length A)%nat with 1%nat by lia. }
  rewrite (Hp (length A) eq_refl). by rewrite list_lookup_middle.
Qed.

(** A store that differs from [h] in the links around [x]. *)
Lemma linked_detached h h' A a x B :
  linked h (A ++ a :: x :: B) → NoDup (A ++ a :: x :: B) →
  (∀ r, n_next <$> h' !! r = if decide (r = a) then Some (B !! 0%nat) else n_next <$> h !! r) →
  (∀ r, n_prev <$> h' !! r = if decide (B !! 0%nat = Some r) then Some (Some a) else n_prev <$> h !! r) →
  linked h' (A ++ a :: B).
Proof.
  intros Hl Hnd Hnext Hprev.
  assert (∀ i r, (A ++ a :: B) !! i = Some r →
    ∃ k, (A ++ a :: x :: B) !! k = Some r ∧ k = (if decide (i ≤ length A)%nat then i else S i)) as Hold.
  { intros i r Hi. case_decide as Hd; eexists; (split; [|done]).
    - destruct (decide (i = length A)) as [->|].
      + rewrite list_lookup_middle in Hi by done. by rewrite list_lookup_middle.
      + rewrite lookup_app_l in Hi by lia. by rewrite lookup_app_l by lia.
    - rewrite lookup_app_r in Hi |- * by lia.
      replace (i - length A)%nat with (S (i - length A - 1)) in Hi by lia.
      by replace (S i - length A)%nat with (S (S (i - length A - 1))) by lia. }
  assert ((A ++ a :: x :: B) !! length A = Some a) as Ha by by apply list_lookup_middle.
  assert (∀ j, (A ++ a :: B) !! (S (length A) + j)%nat = B !! j) as HB.
  { intros j. rewrite lookup_app_r by lia. by replace (S (length A) + j - length A)%nat with (S j) by lia. }
  assert (∀ j, (A ++ a :: x :: B) !! (S (S (length A)) + j)%nat = B !! j) as HB2.
  { intros j. rewrite lookup_app_r by lia. by replace (S (S (length A)) + j - length A)%nat with (S (S j)) by lia. }
  assert (∀ j, (j < length A)%nat → (A ++ a :: B) !! S j = (A ++ a :: x :: B) !! S j ∧ (A ++ a :: B) !! j = (A ++ a :: x :: B) !! j) as HA.
  { intros j Hj. rewrite !(lookup_app_l _ _ j) by lia. split; [|done]. destruct (decide (S j = length A)) as [He|].
    - rewrite He, !list_lookup_middle by done. done.
    - by rewrite !lookup_app_l by lia. }
  intros i r Hi. destruct (Hold i r Hi) as (k & Hk & Hik). destruct (Hl k r Hk) as [Hn Hp].
  rewrite Hnext. split.
  - destruct (decide (r = a)) as [Hra|Hra].
    + subst r. pose proof (NoDup_lookup _ _ _ _ Hnd Hk Ha) as ->. case_decide; [|lia].
      subst i. f_equal. rewrite <-(HB 0%nat). f_equal. lia.
    + rewrite Hn. f_equal. case_decide; subst k.
      * destruct (decide (i = length A)) as [->|]; [congruence|]. symmetry. apply (HA i). lia.
      * replace (S (S i)) with (S (S (length A)) + (i - length A))%nat by lia. rewrite HB2, <-HB. f_equal. lia.
  - intros j Hj. rewrite Hprev. destruct (decide (B !! 0%nat = Some r)) as [Hr0|Hr0].
    + f_equal. rewrite <-HB2 in Hr0. pose proof (NoDup_lookup _ _ _ _ Hnd Hk Hr0) as Hkl.
      case_decide; [lia|]. replace j with (length A) by lia. by rewrite list_lookup_middle.
    + case_decide; subst k.
      * rewrite (Hp j Hj). f_equal. symmetry. apply (HA j). lia.
      * rewrite (Hp i eq_refl). f_equal. destruct (decide (j = length A)) as [->|].
        -- rewrite <-HB in Hr0. rewrite Nat.add_0_r, <-Hj in Hr0. done.
        -- replace i with (S (S (length A)) + (i - 2 - length A))%nat at 1 by lia. rewrite HB2, <-HB. f_equal. lia.
Qed.

Lemma linked_some h l p : linked h l → p ∈ l → ∃ nd, h !! p = Some nd.
Proof.
  intros Hl [i Hi]%list_elem_of_lookup. destruct (Hl i p Hi) as [Hn _].
  destruct (h !! p) as [nd|]; [eauto|done].
Qed.

(** Unlinking a node that is not the first: the rest stays linked, all other nodes are as
    they were, and [attach] undoes it exactly. *)
Lemma detach_spec h A a x B :
  linked h (A ++ a :: x :: B) → NoDup (A ++ a :: x :: B) →
  ∃ h', detach x h = Some h' ∧ linked h' (A ++ a :: B) ∧ same_data h h'
    ∧ (∀ q, q ∉ A ++ a :: B → h' !! q = h !! q) ∧ attach x h' = Some h.
Proof.
  intros Hl Hnd. pose proof (linked_prev _ _ _ _ _ Hl) as Hxp.
  pose proof (linked_next _ _ _ _ Hl) as Han. simpl in Han.
  assert (n_next <$> h !! x = Some (B !! 0%nat)) as Hxn.
  { apply (linked_next h (A ++ [a])). by rewrite <-app_assoc. }
  assert (a ≠ x ∧ (∀ b, B !! 0%nat = Some b → b ≠ a ∧ b ≠ x)) as [Hax HbB].
  { apply list.NoDup_app in Hnd as (_ & _ & Hnd). rewrite !list.NoDup_cons in Hnd. destruct Hnd as (H1 & H2 & _).
    split; [set_solver|]. intros b Hb%list_elem_of_lookup_2. set_solver. }
  destruct (linked_some h _ a Hl) as [na Hna]; [set_solver|].
  destruct (linked_some h _ x Hl) as [nx Hnx]; [set_solver|].
  rewrite Hnx in Hxp, Hxn. rewrite Hna in Han. simpl in *.
  injection Hxp as Hxp. injection Hxn as Hxn. injection Han as Han.
  unfold detach, attach, set_next, set_prev. rewrite Hnx. simpl. rewrite Hxp. simpl. rewrite Hna. simpl.
  rewrite lookup_insert_ne, Hnx by done. simpl. rewrite Hxn.
  destruct (B !! 0%nat) as [b|] eqn:HB.
  - destruct (HbB b eq_refl) as [Hba Hbx].
    destruct (linked_some h _ b Hl) as [nb Hnb]; [apply list_elem_of_lookup_2 in HB; set_solver|].
    assert (n_prev nb = Some x) as Hbp.
    { destruct B as [|b' B]; [done|]. simplify_eq/=.
      pose proof (linked_prev h (A ++ [a]) x b B) as Hp. rewrite <-app_assoc in Hp. specialize (Hp Hl).
      rewrite Hnb in Hp. by injection Hp. }
    rewrite lookup_insert_ne, Hnb by done. simpl. rewrite Hxp. eexists. split; [done|].
    split; [eapply linked_detached; [done|done|..]|split; [|split]].
    + intros r. destruct (decide (r = a)) as [->|]; simplify_map_eq; [done|].
      destruct (decide (r = b)) as [->|]; by simplify_map_eq.
    + intros r. destruct (decide (Some b = Some r)) as [Hr|]; simplify_map_eq.
      * done.
      * destruct (decide (r = a)) as [->|]; by simplify_map_eq.
    + intros r. destruct (decide (r = a)) as [->|]; simplify_map_eq; [done|].
      destruct (decide (r = b)) as [->|]; by simplify_map_eq.
    + intros q Hq. assert (q ≠ a ∧ q ≠ b) as [??]; [|by simplify_map_eq].
      apply list_elem_of_lookup_2 in HB. set_solver.
    + simplify_map_eq. f_equal. apply map_eq. intros r.
      destruct (decide (r = b)) as [->|]; simplify_map_eq; [by destruct nb; simplify_eq/=|].
      destruct (decide (r = a)) as [->|]; simplify_map_eq; [by destruct na; simplify_eq/=|done].
  - eexists. split; [done|].
    split; [eapply linked_detached; [done|done|..]|split; [|split]].
    + intros r. rewrite HB. destruct (decide (r = a)) as [->|]; by simplify_map_eq.
    + intros r. rewrite HB. simpl. destruct (decide (r = a)) as [->|]; by simplify_map_eq.
    + intros r. destruct (decide (r = a)) as [->|]; by simplify_map_eq.
    + intros q Hq. assert (q ≠ a); [set_solver|by simplify_map_eq].
    + simplify_map_eq. f_equal. apply map_eq. intros r.
      destruct (decide (r = a)) as [->|]; simplify_map_eq; [by destruct na; simplify_eq/=|done].
Qed.

Lemma detached_notin {A : list Ptr} {a x B} : NoDup (A ++ a :: x :: B) → x ∉ A ++ a :: B.
Proof.
  intros (_ & H1 & H2)%list.NoDup_app. rewrite !list.NoDup_cons in H2. set_solver.
Qed.

Lemma detached_NoDup {A : list Ptr} {a x B} : NoDup (A ++ a :: x :: B) → NoDup (A ++ a :: B).
Proof.
  intros (? & H1 & H2)%list.NoDup_app. rewrite !list.NoDup_cons in H2.
  apply list.NoDup_app. rewrite list.NoDup_cons. set_solver.
Qed.

(** [lift] of a call unlinks its node and its return's; [unlift] puts both back, and the
    store is the one there was. *)
Lemma lift_spec h A a c B r D nc :
  linked h (A ++ a :: c :: B ++ r :: D) → NoDup (A ++ a :: c :: B ++ r :: D) →
  h !! c = Some nc → n_match nc = Some r →
  ∃ h', lift c h = Some h' ∧ linked h' (A ++ a :: B ++ D) ∧ same_data h h' ∧ unlift c h' = Some h.
Proof.
  intros Hl Hnd Hc Hm. destruct (detach_spec h A a c (B ++ r :: D) Hl Hnd) as (h1 & Hd1 & Hl1 & Hs1 & Hf1 & Ha1).
  pose proof (Hf1 c (detached_notin Hnd)) as Hc1. pose proof (detached_NoDup Hnd) as Hnd1.
  destruct (exists_last (l := A ++ a :: B)) as (A' & a' & HA'); [by destruct A|].
  assert (A ++ a :: B ++ r :: D = A' ++ a' :: r :: D) as He.
  { change (a :: B ++ r :: D) with ((a :: B) ++ r :: D). by rewrite app_assoc, HA', <-app_assoc. }
  assert (A ++ a :: B ++ D = A' ++ a' :: D) as He2.
  { change (a :: B ++ D) with ((a :: B) ++ D). by rewrite app_assoc, HA', <-app_assoc. }
  rewrite He in Hl1, Hnd1. destruct (detach_spec h1 A' a' r D Hl1 Hnd1) as (h2 & Hd2 & Hl2 & Hs2 & Hf2 & Ha2).
  rewrite <-He2 in Hl2, Hf2.
  assert (h2 !! c = h !! c) as Hc2.
  { rewrite <-Hc1. apply Hf2. pose proof (detached_notin Hnd). set_solver. }
  assert (is_Some (n_next nc)) as [nx Hnx].
  { pose proof (linked_next h (A ++ [a]) c (B ++ r :: D)) as Hn. rewrite <-app_assoc in Hn. specialize (Hn Hl).
    rewrite Hc in Hn. simpl in Hn. injection Hn as ->. destruct B; simpl; eauto. }
  exists h2. split_and!; [|done|by etrans|].
  - unfold lift. unfold detach in Hd1. rewrite Hc in Hd1 |- *. simpl in *.
    destruct (n_prev nc) as [pc|]; simpl in *; [|done].
    destruct (set_next pc (n_next nc) h) as [h0|] eqn:Hs0; simpl in *; [|done].
    destruct (h0 !! c) as [nc0|] eqn:Hc0; simpl in *; [|done].
    assert (n_next nc0 = Some nx) as Hnx0.
    { unfold set_next in Hs0. destruct (h !! pc) as [npc|] eqn:Hpc; simpl in Hs0; [|done]. injection Hs0 as <-.
      destruct (decide (pc = c)) as [->|]; simplify_map_eq; done. }
    rewrite Hnx0 in Hd1 |- *. simpl. rewrite Hd1. simpl. rewrite Hc1, Hc. simpl. rewrite Hm. simpl.
    exact Hd2.
  - unfold unlift. rewrite Hc2, Hc. simpl. rewrite Hm. simpl. unfold attach in Ha2, Ha1.
    destruct (h2 !! r) as [nr|]; simpl in *; [|done]. destruct (n_prev nr) as [pr|]; simpl in *; [|done].
    destruct (set_next pr (Some r) h2) as [h3|]; simpl in *; [|done].
    destruct (h3 !! r) as [nr'|]; simpl in *; [|done]. rewrite Ha2. simpl.
    rewrite Hc1, Hc in Ha1 |- *. simpl in *. destruct (n_prev nc) as [pc|]; simpl in *; [|done].
    destruct (set_next pc (Some c) h1) as [h4|] eqn:Hs4; simpl in *; [|done].
    destruct (h4 !! c) as [nc4|] eqn:Hc4; simpl in *; [|done].
    destruct (n_next nc4) as [nx4|] eqn:Hnx4; simpl; [exact Ha1|].
    unfold set_next in Hs4. destruct (h1 !! pc) as [npc|] eqn:Hpc; simpl in Hs4; [|done]. injection Hs4 as <-.
    destruct (decide (pc = c)) as [->|]; simplify_map_eq.
Qed.
(** ** Building the list *)

(** A node put before the first of a list. *)
Lemma insertBefore_spec h l n nd :
  linked h l → h !! n = None → n ∉ l → (∀ f, l !! 0%nat = Some f → n_prev <$> h !! f = Some None) →
  n_next nd = None → n_prev nd = None →
  ∃ h', insertBefore n (l !! 0%nat) (<[n := nd]> h) = Some h' ∧ linked h' (n :: l)
    ∧ n_prev <$> h' !! n = Some None
    ∧ (∀ p, node_data <$> h' !! p = if decide (p = n) then Some (node_data nd) else node_data <$> h !! p).
Proof.
  intros Hl Hn Hnl Hf Hnn Hnp. destruct l as [|f l]; simpl.
  - exists (<[n := nd]> h). split_and!; [done| |by simplify_map_eq/=; rewrite Hnp|].
    + intros [|i] p Hi; [|done]. simplify_map_eq/=. split; [by rewrite Hnn|done].
    + intros p. destruct (decide (p = n)) as [->|]; by simplify_map_eq.
  - specialize (Hf f eq_refl). apply not_elem_of_cons in Hnl as [Hnf Hnl].
    destruct (h !! f) as [nf|] eqn:Hhf; [|done]. simpl in Hf. injection Hf as Hf.
    unfold set_prev, set_next. rewrite lookup_insert_ne, Hhf by done. simpl.
    rewrite lookup_insert_ne, lookup_insert_eq by done. simpl. rewrite Hf.
    eexists. split; [done|]. split_and!.
    + intros [|i] p Hi; simpl in *.
      * simplify_eq. split; [by simplify_map_eq|done].
      * assert (p ≠ n) as Hpn by (intros ->; apply Hnl; destruct i; simplify_eq/=; by eapply list_elem_of_lookup_2).
        destruct (Hl i p Hi) as [Hnext Hprev]. split.
        -- destruct (decide (p = f)) as [->|]; simplify_map_eq; [by rewrite Hnext|done].
        -- intros j Hj. injection Hj as <-. destruct i as [|i]; simpl in *.
           ++ simplify_eq. by simplify_map_eq.
           ++ destruct (decide (p = f)) as [->|]; simplify_map_eq; [|by apply Hprev].
              specialize (Hprev i eq_refl). rewrite Hf in Hprev.
              injection Hprev as Hprev. apply lookup_lt_Some in Hi. symmetry in Hprev.
              apply lookup_ge_None in Hprev. simpl in Hprev. lia.
    + by simplify_map_eq/=; rewrite Hnp.
    + intros p. destruct (decide (p = n)) as [->|]; simplify_map_eq; [done|].
      destruct (decide (p = f)) as [->|]; by simplify_map_eq.
Qed.
(** The node of entry [k] when the nodes are called [i], [i+1], and so on: a call is matched
    with the next return of the same id, if there is one. *)
Definition entry_data (entries : list (entry V)) (i k : nat) (e : entry V) (d : iface V * option Ptr * Z) : Prop :=
  d.1.1 = value e ∧ d.2 = id e
  ∧ if kind e then d.1.2 = None
    else (∀ p, d.1.2 = Some p → ∃ k' e', (k < k')%nat ∧ entries !! k' = Some e' ∧ kind e' = returnEntry
                                 ∧ id e' = id e ∧ p = (i + k')%nat)
         ∧ (∀ k' e', (k < k')%nat → entries !! k' = Some e' → kind e' = returnEntry → id e' = id e →
              is_Some d.1.2).

Definition match_ok (entries : list (entry V)) (i : nat) (m : gmap Z Ptr) : Prop :=
  (∀ x p, m !! x = Some p → ∃ k e, entries !! k = Some e ∧ kind e = returnEntry ∧ id e = x ∧ p = (i + k)%nat)
  ∧ (∀ k e, entries !! k = Some e → kind e = returnEntry → is_Some (m !! id e)).

Lemma entry_data_cons x entries i k e d :
  entry_data entries (S i) k e d → entry_data (x :: entries) i (S k) e d.
Proof.
  intros (H1 & H2 & H3). split_and!; [done..|]. destruct (kind e); [done|]. destruct H3 as [H3 H4]. split.
  - intros p (k' & e' & ? & ? & ? & ? & ->)%H3. exists (S k'), e'. split_and!; [lia|done..|lia].
  - intros [|k'] e' Hk He; [lia|]. apply (H4 k' e'); [lia|done].
Qed.

Lemma link_entries_spec (entries : list (entry V)) i :
  ∃ h m, link_entries entries i = Some (h, m, seq i (length entries) !! 0%nat)
    ∧ linked h (seq i (length entries))
    ∧ (∀ f, seq i (length entries) !! 0%nat = Some f → n_prev <$> h !! f = Some None)
    ∧ (∀ p, is_Some (h !! p) ↔ (i ≤ p < i + length entries)%nat)
    ∧ (∀ k e, entries !! k = Some e → ∃ d, node_data <$> h !! (i + k)%nat = Some d ∧ entry_data entries i k e d)
    ∧ match_ok entries i m.
Proof.
  revert i. induction entries as [|elem entries IH]; intros i; simpl.
  { exists ∅, ∅. split_and!; try done. intros p. rewrite lookup_empty, is_Some_alt. lia. }
  destruct (IH (S i)) as (h & m & Hr & Hl & Hf & Hd & He & Hm1 & Hm2). rewrite Hr. simpl.
  assert (h !! i = None) as Hi.
  { apply eq_None_not_Some. rewrite Hd. lia. }
  assert (i ∉ seq (S i) (length entries)) as Hni by (rewrite elem_of_seq; lia).
  set (nd := MkNode (value elem) (if kind elem then None else m !! id elem) (id elem) None None).
  destruct (insertBefore_spec h _ i nd Hl Hi Hni Hf eq_refl eq_refl) as (h' & Hins & Hl' & Hp' & Hdata).
  set (m' := if kind elem then <[id elem := i]> m else m).
  exists h', m'. split_and!.
  - subst nd m'. destruct (kind elem); rewrite Hins; done.
  - done.
  - intros f Hf'. by simplify_eq.
  - intros p. rewrite <-(fmap_is_Some node_data), Hdata. destruct (decide (p = i)) as [->|].
    + rewrite is_Some_alt. lia.
    + rewrite fmap_is_Some, Hd. lia.
  - intros [|k] e Hk; simpl in Hk.
    + injection Hk as <-. rewrite Nat.add_0_r, Hdata, decide_True by done. eexists. split; [done|].
      unfold entry_data. simpl. destruct (kind elem) eqn:Hke; [done|]. split_and!; [done..| |].
      * intros p (k & e & ? & ? & ? & ->)%Hm1. exists (S k), e. split_and!; [lia|done..|lia].
      * intros [|k] e ? ? ? Hid; [lia|]. rewrite <-Hid. by apply (Hm2 k).
    + destruct (He k e Hk) as (d & Hd' & Hed). replace (i + S k)%nat with (S i + k)%nat by lia.
      exists d. rewrite Hdata, decide_False by lia. split; [done|]. by apply entry_data_cons.
  - assert (∀ x p, m !! x = Some p → ∃ k e, (elem :: entries) !! k = Some e ∧ kind e = returnEntry ∧ id e = x ∧ p = (i + k)%nat) as Hm1'.
    { intros x p (k & e & ? & ? & ? & ->)%Hm1. exists (S k), e. split_and!; [done..|lia]. }
    split; subst m'; destruct (kind elem) eqn:Hke; [|done| |].
    + intros x p. rewrite lookup_insert_Some. intros [[<- <-]|[_ ?]]; [|auto].
      exists 0%nat, elem. split_and!; [done..|lia].
    + intros [|k] e ? ?; simplify_eq/=; [by rewrite lookup_insert_eq|].
      destruct (decide (id elem = id e)) as [->|]; [by rewrite lookup_insert_eq|].
      rewrite lookup_insert_ne by done. by eapply Hm2.
    + intros [|k] e ? ?; simplify_eq/=; [congruence|]. by eapply Hm2.
Qed.

Lemma length_loop_spec h fuel l x :
  linked h l → (length l ≤ fuel)%nat → length_loop fuel h (l !! 0%nat) x = Some (x + len l).
Proof.
  revert l x. induction fuel as [|fuel IH]; intros [|p l] x Hl Hfuel; simpl in *; try lia;
    [f_equal; lia..|].
  destruct (linked_some h _ p Hl) as [nd Hp]; [left|]. rewrite Hp. simpl.
  pose proof (linked_next h [] p l Hl) as Hn. rewrite Hp in Hn. simpl in Hn. injection Hn as ->.
  rewrite IH; [f_equal; lia| |lia].
  intros i r Hi. destruct (Hl (S i) r Hi) as [Hn Hpr]. split; [done|]. intros j ->. by apply (Hpr (S j)).
Qed.

Lemma makeLinkedEntries_spec (entries : list (entry V)) :
  ∃ h, makeLinkedEntries entries = Some (h, seq 0 (length entries) !! 0%nat)
    ∧ linked h (seq 0 (length entries))
    ∧ (∀ f, seq 0 (length entries) !! 0%nat = Some f → n_prev <$> h !! f = Some None)
    ∧ (∀ p, is_Some (h !! p) ↔ (p < length entries)%nat)
    ∧ (∀ k e, entries !! k = Some e → ∃ d, node_data <$> h !! k = Some d ∧ entry_data entries 0 k e d)
    ∧ node_length h (seq 0 (length entries) !! 0%nat) = Some (len entries).
Proof.
  unfold makeLinkedEntries.
  destruct (link_entries_spec entries 0) as (h & m & -> & Hl & Hf & Hd & He & _). exists h. simpl.
  split_and!; try done.
  - intros p. rewrite Hd. lia.
  - unfold node_length. rewrite length_loop_spec; [by rewrite length_seq|done|].
    rewrite length_seq. replace (size h) with (size (dom h)) by apply size_dom.
    rewrite <-(length_seq (length entries) 0), <-(size_list_to_set (C := gset nat)) by apply NoDup_seq.
    apply subseteq_size. intros p. rewrite elem_of_list_to_set, elem_of_seq, elem_of_dom, Hd. lia.
Qed.
End nodes.

(** ** Property *)

(** Lifting an operation and putting it back: in the list of entries, wherever the call
    and its return stand, next to each other, first, or last, [lift] dereferences no nil,
    takes exactly the two nodes out and leaves the others in order, and [unlift] makes the
    store what it was. *)
Theorem lift_unlift {V} (h : gmap Ptr (node V)) A a c B r D nc :
  linked h (A ++ a :: c :: B ++ r :: D) → NoDup (A ++ a :: c :: B ++ r :: D) →
  h !! c = Some nc → n_match nc = Some r →
  ∃ h', lift c h = Some h' ∧ linked h' (A ++ a :: B ++ D) ∧ unlift c h' = Some h.
Proof.
  intros Hl Hnd Hc Hm. destruct (lift_spec h A a c B r D nc Hl Hnd Hc Hm) as (h' & H1 & H2 & _ & H3). by exists h'.
Qed.

(** A sentinel, a call and its return, which is the last node. *)
Lemma lift_unlift_witness :
  let h : gmap nat (node nat) :=
    {[0%nat := MkNode None None (-1) (Some 1%nat) None; 1%nat := MkNode (Some 5%nat) (Some 2%nat) 0 (Some 2%nat) (Some 0%nat);
      2%nat := MkNode (Some 6%nat) None 0 None (Some 1%nat)]} in
  (n_next <$> (h' ← lift 1 h; h' !! 0%nat)) = Some None ∧ (h' ← lift 1 h; unlift 1 h') = Some h.
Proof.
  intros h.
  destruct (lift_unlift h [] 0 1 [] 2 [] (MkNode (Some 5%nat) (Some 2%nat) 0 (Some 2%nat) (Some 0%nat)))
    as (h' & H1 & H2 & H3); [| |reflexivity|reflexivity|].
  - intros [|[|[|i]]] p Hp; simpl in Hp; try done; injection Hp as <-; (split; [reflexivity|]); intros j Hj;
      try done; injection Hj as <-; reflexivity.
  - apply (bool_decide_unpack _). vm_compute. exact I.
  - rewrite H1. simpl. split; [|exact H3]. exact (proj1 (H2 0%nat 0%nat eq_refl)).
Defined.
