(* ===== verification/PorcOrder.v ===== *)
(** * Porcupine: partial linearizations

    What the search of [checkSingle] explores: the operations are named by their index, a
    partial linearization is an order of some of them that may begin a linearization, and a
    set of operations taken with the state they lead to is feasible when the rest can be
    linearized from there. *)
From S2P Require Import Prelude PorcModel.

Section order.
Context {V St : Type} (m : Model V St) (ops : list (Operation V)).
Implicit Types (l : list (Operation V)) (st : St) (D : gset Z) (ids : list Z) (i j : Z).

(** Where a run of the operations ends, if it is legal. *)
Fixpoint run st l : option St :=
  match l with
  | [] => Some st
  | o :: l =>
      match Step m st (Input o) (Output o) with
      | Some (true, st') => run st' l
      | _ => None
      end
  end.

Lemma legal_run st l : legal m st l ↔ is_Some (run st l).
Proof.
  revert st. induction l as [|o l IH]; intros st; simpl; [by rewrite is_Some_alt|]. split.
  - intros (st' & -> & Hl). by apply IH.
  - destruct (Step m st (Input o) (Output o)) as [[[] st']|]; [|by intros [? ?]..].
    intros Hr. exists st'. split; [done|]. by apply IH.
Qed.

Lemma run_app st l l' : run st (l ++ l') = (st' ← run st l; run st' l').
Proof.
  revert st. induction l as [|o l IH]; intros st; simpl; [done|].
  by destruct (Step m st (Input o) (Output o)) as [[[] st']|].
Qed.

Lemma in_order_app l l' :
  in_order (l ++ l') ↔ in_order l ∧ in_order l' ∧ ∀ a b, a ∈ l → b ∈ l' → ¬ Return b < Call a.
Proof.
  unfold in_order. split.
  - intros Ho. split_and!.
    + intros i j a b Hij Ha Hb. apply (Ho i j); [done|by apply lookup_app_l_Some..].
    + intros i j a b Hij Ha Hb. apply (Ho (length l + i)%nat (length l + j)%nat); [lia|..];
        rewrite lookup_app_r by lia; [by replace (length l + i - length l)%nat with i by lia
                                     |by replace (length l + j - length l)%nat with j by lia].
    + intros a b [i Hi]%list_elem_of_lookup [j Hj]%list_elem_of_lookup.
      apply (Ho i (length l + j)%nat); [apply lookup_lt_Some in Hi; lia|by apply lookup_app_l_Some|].
      rewrite lookup_app_r by lia. by replace (length l + j - length l)%nat with j by lia.
  - intros (H1 & H2 & H3) i j a b Hij [Ha|[? Ha]]%lookup_app_Some [Hb|[? Hb]]%lookup_app_Some.
    + by apply (H1 i j).
    + apply H3; by eapply list_elem_of_lookup_2.
    + apply lookup_lt_Some in Hb. lia.
    + eapply H2; [|exact Ha|exact Hb]. lia.
Qed.

Lemma in_order_single (a : Operation V) : in_order [a].
Proof. intros [|i] [|j] ? ? ? ? ?; simplify_eq/=; lia. Qed.

(** ** Operations by index *)

Definition op i : Operation V := default (MkOperation 0 None 0 None 0) (ops !! Z.to_nat i).

Definition known i : Prop := 0 ≤ i < len ops.

Lemma op_lookup i : known i → ops !! Z.to_nat i = Some (op i).
Proof.
  intros Hi. unfold op. destruct (lookup_lt_is_Some_2 ops (Z.to_nat i)) as [o ->]; [unfold known in Hi; lia|done].
Qed.

Lemma op_elem i : known i → op i ∈ ops.
Proof. intros Hi. eapply list_elem_of_lookup_2. by apply op_lookup. Qed.

(** [i] may come next when [D] is done: nothing else had returned before it was called. *)
Definition minimal D i : Prop := ∀ j, known j → j ∉ D → j ≠ i → ¬ Return (op j) < Call (op i).

Record partial ids st : Prop := {
  pa_nodup : NoDup ids;
  pa_known : ∀ i, i ∈ ids → known i;
  pa_order : in_order (op <$> ids);
  pa_closed : ∀ i, i ∈ ids → minimal (list_to_set ids) i;
  pa_run : run (Init m) (op <$> ids) = Some st
}.

Definition feasible D st : Prop :=
  ∃ ids, NoDup ids ∧ (∀ i, i ∈ ids ↔ known i ∧ i ∉ D) ∧ in_order (op <$> ids) ∧ is_Some (run st (op <$> ids)).

Lemma partial_nil : partial [] (Init m).
Proof. split; [constructor|set_solver|by intros i j ? ? ? ?|set_solver|done]. Qed.

Lemma partial_snoc ids st i st' :
  partial ids st → known i → i ∉ ids → minimal (list_to_set ids) i →
  Step m st (Input (op i)) (Output (op i)) = Some (true, st') → partial (ids ++ [i]) st'.
Proof.
  intros [Hn Hk Ho Hc Hr] Hi Hni Hm Hs. split.
  - apply list.NoDup_app. split_and!; [done|set_solver|apply NoDup_singleton].
  - set_solver.
  - rewrite fmap_app. apply in_order_app. split_and!; [done|apply in_order_single|].
    intros a b (j & -> & Hj)%list_elem_of_fmap Hb. apply list_elem_of_singleton in Hb as ->.
    apply (Hc j Hj); [done|set_solver..].
  - intros j Hj k Hk' Hnk Hkj. rewrite list_to_set_app_L in Hnk.
    apply elem_of_app in Hj as [Hj|Hj]; [|apply list_elem_of_singleton in Hj as ->]; [apply (Hc j Hj)|apply Hm]; set_solver.
  - rewrite fmap_app, run_app, Hr. simpl. by rewrite Hs.
Qed.

(** ** The recursion the search follows *)

Lemma feasible_done D st : (∀ i, known i → i ∈ D) → feasible D st.
Proof.
  intros Hall. exists []. split_and!; [constructor|set_solver|by intros i j ? ? ? ?|by eexists].
Qed.

Lemma feasible_cons D st i st' :
  known i → i ∉ D → minimal D i → Step m st (Input (op i)) (Output (op i)) = Some (true, st') →
  feasible ({[i]} ∪ D) st' → feasible D st.
Proof.
  intros Hi HnD Hm Hs (ids & Hn & Hel & Ho & Hr). exists (i :: ids). split_and!.
  - constructor; [|done]. rewrite Hel. set_solver.
  - intros j. rewrite elem_of_cons, Hel. destruct (decide (j = i)) as [->|]; set_solver.
  - apply (in_order_app [op i]). split_and!; [apply in_order_single|done|].
    intros a b Ha (j & -> & Hj)%list_elem_of_fmap. apply list_elem_of_singleton in Ha as ->.
    apply Hel in Hj as [??]. apply Hm; set_solver.
  - simpl. by rewrite Hs.
Qed.

Lemma feasible_uncons D st :
  feasible D st →
  (∀ i, known i → i ∈ D)
  ∨ (∃ i st', known i ∧ (i ∉ D) ∧ minimal D i ∧ Step m st (Input (op i)) (Output (op i)) = Some (true, st')
      ∧ feasible ({[i]} ∪ D) st').
Proof.
  intros ([|i ids] & Hn & Hel & Ho & Hr).
  - left. intros i Hi. destruct (decide (i ∈ D)); [done|]. assert (i ∈ ([] : list Z)) as Hx by by apply Hel. inversion Hx.
  - right. simpl in Hr. destruct (Step m st (Input (op i)) (Output (op i))) as [[[] st']|] eqn:Hs;
      [|by destruct Hr..].
    destruct (proj1 (Hel i) ltac:(left)) as [Hi HnD]. apply list.NoDup_cons in Hn as [Hni Hn].
    apply (in_order_app [op i]) in Ho as (_ & Ho & Hmin).
    exists i, st'. split_and!; try done.
    + intros j Hj HnDj Hji. apply Hmin; [left|].
      apply list_elem_of_fmap_2. assert (j ∈ i :: ids) as Hx by by apply Hel.
      by apply elem_of_cons in Hx as [|].
    + exists ids. split_and!; [done| |done|done]. intros j. specialize (Hel j).
      rewrite elem_of_cons in Hel. rewrite not_elem_of_union, not_elem_of_singleton.
      destruct (decide (j = i)) as [->|]; tauto.
Qed.
(** ** Feasibility and linearizability *)

Lemma op_all : op <$> seqZ 0 (len ops) = ops.
Proof.
  apply list_eq. intros k. rewrite list_lookup_fmap. destruct (decide (k < length ops)%nat) as [Hk|Hk].
  - rewrite lookup_seqZ_lt by lia. simpl. unfold op. replace (Z.to_nat (0 + Z.of_nat k)) with k by lia.
    by destruct (lookup_lt_is_Some_2 ops k Hk) as [o ->].
  - rewrite lookup_seqZ_ge, lookup_ge_None_2 by lia. done.
Qed.

Lemma elem_of_all i : i ∈ seqZ 0 (len ops) ↔ known i.
Proof. rewrite elem_of_seqZ. unfold known. lia. Qed.

Lemma feasible_linearizable : feasible ∅ (Init m) ↔ linearizable m ops.
Proof.
  unfold linearizable, feasible. setoid_rewrite legal_run. split.
  - intros (ids & Hn & Hel & Ho & Hr). exists (op <$> ids). split_and!; [|done..].
    rewrite <-op_all. apply fmap_Permutation, NoDup_Permutation; [done|apply NoDup_seqZ|].
    intros i. rewrite elem_of_all, Hel. set_solver.
  - intros (l & Hl & Ho & Hr). rewrite <-op_all in Hl. apply Permutation_map_inv in Hl as (ids & -> & Hids).
    exists ids. split_and!; [| |done..].
    + rewrite <-Hids. apply NoDup_seqZ.
    + intros i. rewrite <-Hids, elem_of_all. set_solver.
Qed.

Lemma partial_linearizable ids st :
  partial ids st → (∀ i, known i → i ∈ ids) → linearizable m ops.
Proof.
  intros [Hn Hk Ho Hc Hr] Hall. apply feasible_linearizable.
  exists ids. split_and!; [done| |done|by eexists]. set_solver.
Qed.

(** A comparison of states that steps cannot tell apart. *)
Definition comparable (eq : St → St → bool) : Prop :=
  ∀ s1 s2 (i o : iface V) s1', eq s1 s2 = true → Step m s1 i o = Some (true, s1') →
    ∃ s2', Step m s2 i o = Some (true, s2') ∧ eq s1' s2' = true.

Lemma feasible_equal eq D s1 s2 : comparable eq → eq s1 s2 = true → feasible D s1 → feasible D s2.
Proof.
  intros Heq H12 (ids & Hn & Hel & Ho & Hr). exists ids. split_and!; [done..|].
  clear Hn Hel Ho. revert s1 s2 H12 Hr. induction ids as [|i ids IH]; intros s1 s2 H12 Hr; simpl in *; [by eexists|].
  destruct (Step m s1 (Input (op i)) (Output (op i))) as [[[] s1']|] eqn:Hs; [|by destruct Hr..].
  destruct (Heq _ _ _ _ _ H12 Hs) as (s2' & -> & H12'). eauto.
Qed.

Lemma partial_size ids st : partial ids st → (length ids ≤ length ops)%nat.
Proof.
  intros [Hn Hk _ _ _]. rewrite <-(Nat2Z.id (length ops)), <-(length_seqZ 0).
  apply submseteq_length, NoDup_submseteq; [done|]. intros i Hi. apply elem_of_all. by apply Hk.
Qed.
End order.
