(* ===== verification/PorcEvents.v ===== *)
(** * Porcupine: histories of events ([renumber] and [convertEntries] of [checker.go])

    A history may also be given as the sequence of its call and return events, with ids of
    the client's choosing. *)
From S2P Require Import Prelude PorcModel PorcOrder.

Section events.
Context {V : Type}.
Implicit Types (events : list (Event V)) (ops : list (Operation V)) (m M : gmap Z Z).

(** [events] are the calls and returns of [ops], each operation with an id of its own and
    with the indices of its events as times. *)
Record events_of events ops (name : nat → Z) : Prop := {
  ev_length : length events = (2 * length ops)%nat;
  ev_names : ∀ i j, (i < length ops)%nat → (j < length ops)%nat → name i = name j → i = j;
  ev_op : ∀ i o, ops !! i = Some o →
    0 ≤ Call o < Return o
    ∧ (∃ e, events !! Z.to_nat (Call o) = Some e ∧ ev_Kind e = CallEvent ∧ ev_Value e = Input o ∧ ev_Id e = name i)
    ∧ (∃ e, events !! Z.to_nat (Return o) = Some e ∧ ev_Kind e = ReturnEvent ∧ ev_Value e = Output o ∧ ev_Id e = name i);
  ev_event : ∀ p e, events !! p = Some e →
    ∃ i o, ops !! i = Some o ∧ ev_Id e = name i ∧ Z.of_nat p = if ev_Kind e then Return o else Call o
}.

(** A renumbering so far: its numbers are those below [c], each given once. *)
Definition numbering M (c : Z) : Prop :=
  0 ≤ c ∧ (∀ k, 0 ≤ k < c ↔ ∃ x, M !! x = Some k) ∧ (∀ x y k, M !! x = Some k → M !! y = Some k → x = y).

Lemma numbering_new M c x : numbering M c → M !! x = None → numbering (<[x := c]> M) (c + 1).
Proof.
  intros (Hc & Hr & Hi) Hx. split_and!; [lia| |].
  - intros k. split.
    + intros Hk. destruct (decide (k = c)) as [->|]; [exists x; by rewrite lookup_insert_eq|].
      destruct (proj1 (Hr k)) as [y Hy]; [lia|]. exists y. rewrite lookup_insert_ne; [done|]. intros ->. congruence.
    + intros [y [[-> <-]|[_ Hy]]%lookup_insert_Some]; [lia|].
      assert (0 ≤ k < c) by (apply Hr; eauto). lia.
  - assert (∀ y, M !! y ≠ Some c) as Hn by (intros y Hy; assert (0 ≤ c < c) by (apply Hr; eauto); lia).
    intros y z k [[-> <-]|[_ Hy]]%lookup_insert_Some [[-> Hk]|[_ Hz]]%lookup_insert_Some; simplify_eq; eauto.
    + by destruct (Hn z).
    + by destruct (Hn y).
Qed.

Definition renamed M (v : Event V) (w : Event V) : Prop :=
  ev_Kind w = ev_Kind v ∧ ev_Value w = ev_Value v ∧ M !! ev_Id v = Some (ev_Id w).

Lemma renumber_loop_spec events m c :
  numbering m c →
  ∃ M c', m ⊆ M ∧ numbering M c' ∧ Forall2 (renamed M) events (renumber_loop events m c)
    ∧ ∀ x, is_Some (M !! x) → is_Some (m !! x) ∨ ∃ v, v ∈ events ∧ ev_Id v = x.
Proof.
  revert m c. induction events as [|v events IH]; intros m c Hm; simpl.
  { exists m, c. split_and!; [done|done|constructor|by left]. }
  destruct (m !! ev_Id v) as [r|] eqn:Hv.
  - destruct (IH m c Hm) as (M & c' & Hsub & HM & HF & Hdom). exists M, c'. split_and!; [done|done| |].
    + constructor; [|done]. split_and!; [done..|]. by eapply lookup_weaken.
    + intros x [?|(w & Hw & <-)]%Hdom; [by left|right]. exists w. split; [by right|done].
  - destruct (IH _ _ (numbering_new _ _ _ Hm Hv)) as (M & c' & Hsub & HM & HF & Hdom). exists M, c'. split_and!; [|done| |].
    + etrans; [by apply insert_subseteq|done].
    + constructor; [|done]. split_and!; [done..|]. eapply lookup_weaken; [|done]. by rewrite lookup_insert_eq.
    + intros x [Hx|(w & Hw & <-)]%Hdom.
      * destruct (decide (x = ev_Id v)) as [->|]; [right; exists v; split; [left|done]|].
        left. by rewrite lookup_insert_ne in Hx.
      * right. exists w. split; [by right|done].
Qed.

(** The order in which the operations are numbered. *)
Lemma renumber_order events ops name M c :
  events_of events ops name → numbering M c → (∀ v, v ∈ events → is_Some (M !! ev_Id v)) →
  (∀ x, is_Some (M !! x) → ∃ v, v ∈ events ∧ ev_Id v = x) →
  ∃ idx, idx ≡ₚ seq 0 (length ops) ∧ (λ i, M !! name i) <$> idx = Some <$> seqZ 0 c.
Proof.
  intros [Hlen Hnames Hop Hev] (Hc & Hr & Hi) Hall Hdom.
  assert (Some <$> seqZ 0 c ≡ₚ (λ i, M !! name i) <$> seq 0 (length ops)) as Hp.
  { apply NoDup_Permutation.
    - apply NoDup_fmap_2; [intros ?? [=]; done|apply NoDup_seqZ].
    - apply NoDup_fmap_2_strong; [|apply NoDup_seq]. intros i j Hi1%elem_of_seq Hj1%elem_of_seq Heq.
      destruct (lookup_lt_is_Some_2 ops i) as [o Ho]; [lia|].
      destruct (Hop i o Ho) as (_ & (e & He & _ & _ & Hid) & _).
      destruct (Hall e) as [k Hk]; [by eapply list_elem_of_lookup_2|]. rewrite Hid in Hk.
      rewrite Hk in Heq. symmetry in Heq. apply Hnames; [lia|lia|]. by eapply Hi.
    - intros ok. rewrite !list_elem_of_fmap. setoid_rewrite elem_of_seqZ. setoid_rewrite elem_of_seq. split.
      + intros (k & -> & Hk). destruct (proj1 (Hr k)) as [x Hx]; [lia|].
        destruct (Hdom x) as (v & Hv & <-); [by eexists|]. apply list_elem_of_lookup in Hv as [p Hp].
        destruct (Hev p v Hp) as (i & o & Ho & Hid & _). exists i. rewrite <-Hid, Hx. split; [done|].
        apply lookup_lt_Some in Ho. lia.
      + intros (i & -> & Hi1). destruct (lookup_lt_is_Some_2 ops i) as [o Ho]; [lia|].
        destruct (Hop i o Ho) as (_ & (e & He & _ & _ & Hid) & _).
        destruct (Hall e) as [k Hk]; [by eapply list_elem_of_lookup_2|]. rewrite Hid in Hk. exists k. split; [done|].
        assert (0 ≤ k < c) by (apply Hr; eauto). lia. }
  apply Permutation_map_inv in Hp as (idx & Heq & Hidx). exists idx. by split.
Qed.

Lemma op_all_nat ops : op ops ∘ Z.of_nat <$> seq 0 (length ops) = ops.
Proof.
  etrans; [|apply (op_all ops)]. unfold seqZ. rewrite Nat2Z.id. apply list_eq. intros k. rewrite !list_lookup_fmap.
  destruct (seq 0 (length ops) !! k) as [x|]; simpl; [|done]. by rewrite Z.add_0_r.
Qed.

Lemma converted_lookup events M p v :
  Forall2 (renamed M) events (renumber events) → events !! p = Some v →
  ∃ e, convertEntries (renumber events) !! p = Some e
    ∧ kind e = ev_Kind v ∧ value e = ev_Value v ∧ M !! ev_Id v = Some (id e).
Proof.
  intros HF Hp. destruct (Forall2_lookup_l _ _ _ _ _ HF Hp) as (w & Hw & Hk & Hv & Hm).
  unfold convertEntries. rewrite list_lookup_imap, Hw. simpl. eexists. split; [done|]. simpl.
  rewrite Hv, Hm. split_and!; [|done..]. by rewrite Hk; destruct (ev_Kind v).
Qed.

(** The events of operations become entries the search can take: [renumber] gives the ids
    0, 1, 2 ... in the order of first appearance, whatever ids the client chose, and
    [convertEntries] of the result lists the calls and returns of the same operations, in
    a new order, with the index of each event as its time. *)
Lemma events_become_entries events ops name :
  events_of events ops name →
  ∃ ops', ops' ≡ₚ ops ∧ entries_of (convertEntries (renumber events)) ops'.
Proof.
  intros Hev. pose proof Hev as [Hlen Hnames Hop Hevt].
  destruct (renumber_loop_spec events ∅ 0) as (M & c & _ & HM & HF & Hdom).
  { split_and!; [done| |done]. intros k. split; [lia|]. intros [x Hx]. by rewrite lookup_empty in Hx. }
  pose proof HF as Hl2. apply Forall2_length in Hl2.
  assert (∀ v, v ∈ events → is_Some (M !! ev_Id v)) as Hall.
  { intros v [p Hp]%list_elem_of_lookup. destruct (Forall2_lookup_l _ _ _ _ _ HF Hp) as (w & _ & _ & _ & Hw). by eexists. }
  destruct (renumber_order events ops name M c Hev HM Hall) as (idx & Hidx & Hmap).
  { intros x [[k Hk]|?]%Hdom; [by rewrite lookup_empty in Hk|done]. }
  assert (∀ k i, idx !! k = Some i → M !! name i = Some (Z.of_nat k)) as Hnum.
  { intros k i Hk. assert (((λ i, M !! name i) <$> idx) !! k = Some (M !! name i)) as Hl by by rewrite list_lookup_fmap, Hk.
    rewrite Hmap, list_lookup_fmap in Hl. destruct (seqZ 0 c !! k) as [z|] eqn:Hz; simpl in Hl; [|done].
    apply lookup_seqZ in Hz as [-> _]. injection Hl as <-. done. }
  exists (op ops ∘ Z.of_nat <$> idx).
  split; [by rewrite Hidx, op_all_nat|].
  assert (∀ k i, idx !! k = Some i → ops !! i = Some (op ops (Z.of_nat i))) as Hop'.
  { intros k i Hk%list_elem_of_lookup_2. rewrite Hidx, elem_of_seq in Hk.
    pose proof (op_lookup ops (Z.of_nat i)) as Hl. rewrite Nat2Z.id in Hl. apply Hl. unfold known. lia. }
  pose proof (converted_lookup events M) as Hconv.
  split.
  - unfold convertEntries. rewrite length_imap, length_fmap. unfold renumber.
    rewrite <-Hl2, Hlen. apply Permutation_length in Hidx. rewrite length_seq in Hidx. lia.
  - intros k o (i & -> & Hk)%list_lookup_fmap_Some. simpl.
    destruct (Hop i _ (Hop' k i Hk)) as (Hcr & (e & He & Hke & Hve & Hide) & (e' & He' & Hke' & Hve' & Hide')).
    destruct (Hconv _ _ HF He) as (x & Hx & Hx1 & Hx2 & Hx3). destruct (Hconv _ _ HF He') as (y & Hy & Hy1 & Hy2 & Hy3).
    rewrite Hide, (Hnum k i Hk) in Hx3. rewrite Hide', (Hnum k i Hk) in Hy3.
    split; [done|]. split; [exists x|exists y]; (split; [done|]); split_and!; congruence.
  - intros p e He. assert (∃ v, events !! p = Some v) as [v Hp].
    { apply lookup_lt_is_Some_2. apply lookup_lt_Some in He. unfold convertEntries in He. rewrite length_imap in He.
      unfold renumber in He. by rewrite <-Hl2 in He. }
    destruct (Hconv p v HF Hp) as (e' & He' & Hk & _ & Hm). rewrite He in He'. injection He' as <-.
    destruct (Hevt p v Hp) as (i & o & Ho & Hidv & Hpos).
    assert (i ∈ idx) as [k Hki]%list_elem_of_lookup by (rewrite Hidx, elem_of_seq; apply lookup_lt_Some in Ho; lia).
    exists k, o. split_and!.
    + rewrite list_lookup_fmap, Hki. simpl. rewrite <-Ho. symmetry. by eapply Hop'.
    + rewrite Hidv, (Hnum k i Hki) in Hm. by injection Hm.
    + by rewrite Hk.
Qed.
End events.
