(* ===== verification/PorcCheck.v ===== *)
(** * Porcupine: the search ([checkSingle] of [porcupine/checker.go])

    The search walks the linked list of entries: at a call it tries to linearize the
    operation, unlinks it and starts again from the front; at a return it has run out of
    candidates and backtracks.  A cache of the sets of operations already linearized, with
    the state they led to, cuts repeated work. *)
From S2P Require Import Prelude PorcBitset PorcModel PorcList PorcOrder.

Record cacheEntry (St : Type) := MkCacheEntry { ce_linearized : bitset; ce_state : St }.
Arguments MkCacheEntry {St}. Arguments ce_linearized {St}. Arguments ce_state {St}.

Record callsEntry (St : Type) := MkCallsEntry { c_entry : Ptr; c_state : St }.
Arguments MkCallsEntry {St}. Arguments c_entry {St}. Arguments c_state {St}.

(** The variables of [checkSingle] that its loop changes.  [longest] holds pointers to the
    sequences of [seqs]; each block that makes one has its own. *)
Record Search (V St : Type) := MkSearch {
  nodes : gmap Ptr (node V);
  at_entry : option Ptr;
  linearized : bitset;
  cache : gmap Z (list (cacheEntry St));
  calls : list (callsEntry St);
  state : St;
  longest : list (option Ptr);
  seqs : list (list Z)
}.
Arguments MkSearch {V St}. Arguments nodes {V St}. Arguments at_entry {V St}.
Arguments linearized {V St}. Arguments cache {V St}. Arguments calls {V St}.
Arguments state {V St}. Arguments longest {V St}. Arguments seqs {V St}.
#[export] Instance Search_eta {V St} : Eta (Search V St) :=
  λ s, MkSearch (nodes s) (at_entry s) (linearized s) (cache s) (calls s) (state s) (longest s) (seqs s).

Inductive Turn (V St : Type) := Next (s : Search V St) | Stop (ok : bool) (s : Search V St).
Arguments Next {V St}. Arguments Stop {V St}.

Section check.
Context {V St : Type} (model : Model V St).
Implicit Types (s : Search V St).

Fixpoint contains_loop (elems : list (cacheEntry St)) (entry : cacheEntry St) : option bool :=
  match elems with
  | [] => Some false
  | elem :: elems =>
      if equals (ce_linearized entry) (ce_linearized elem) then
        eq ← Equal model;
        if (eq : St → St → bool) (ce_state entry) (ce_state elem) then Some true
        else contains_loop elems entry
      else contains_loop elems entry
  end.

Definition cacheContains (cache : gmap Z (list (cacheEntry St))) (entry : cacheEntry St) : option bool :=
  contains_loop (default [] (cache !! hash (ce_linearized entry))) entry.

(** The ids of the calls made so far. *)
Definition call_ids (h : gmap Ptr (node V)) (calls : list (callsEntry St)) : option (list Z) :=
  mapM (λ v, n_id <$> h !! c_entry v) calls.

(** The block on [longest]: [seq] is the block's variable, its address the next free one,
    and is filled when first needed. *)
Fixpoint longest_loop (vs : list (callsEntry St)) (seq : option (list Z)) (s : Search V St) :
    option (option (list Z) * Search V St) :=
  match vs with
  | [] => Some (seq, s)
  | v :: vs =>
      nd ← nodes s !! c_entry v;
      cur ← (longest s).[n_id nd];
      longer ← (match cur with
                | None => Some true
                | Some p =>
                    old ← (if decide (p = length (seqs s)) then Some (default [] seq) else seqs s !! p);
                    Some (len (calls s) >? len (old : list Z))
                end);
      if (longer : bool) then
        seq ← (match seq with Some seq => Some seq | None => call_ids (nodes s) (calls s) end);
        lg ← slice_set (longest s) (n_id nd) (Some (length (seqs s)));
        longest_loop vs (Some seq) (s <| longest := lg |>)
      else longest_loop vs seq s
  end.

Definition update_longest (s : Search V St) : option (Search V St) :=
  '(seq, s) ← longest_loop (calls s) None s;
  Some (s <| seqs := seqs s ++ [default [] seq] |>).

(** One turn of the loop; [headEntry] is the sentinel in front of the list. *)
Definition check_turn (computePartial : bool) (headEntry : Ptr) (killed : bool) (s : Search V St) :
    option (Turn V St) :=
  if killed then Some (Stop false s) else
  e ← at_entry s;
  nd ← nodes s !! e;
  match n_match nd with
  | Some matching =>
      mt ← nodes s !! matching;
      '(ok, newState) ← Step model (state s) (n_value nd) (n_value mt);
      if (ok : bool) then
        newLinearized ← set (n_id nd) (clone (linearized s));
        let newCacheEntry := MkCacheEntry newLinearized newState in
        contained ← cacheContains (cache s) newCacheEntry;
        if negb contained then
          let h := hash newLinearized in
          let s := s <| cache := <[h := default [] (cache s !! h) ++ [newCacheEntry]]> (cache s) |> in
          let s := s <| calls := calls s ++ [MkCallsEntry e (state s)] |> <| state := newState |> in
          lin ← set (n_id nd) (linearized s);
          ns ← lift e (nodes s);
          hd ← ns !! headEntry;
          Some (Next (s <| linearized := lin |> <| nodes := ns |> <| at_entry := n_next hd |>))
        else Some (Next (s <| at_entry := n_next nd |>))
      else Some (Next (s <| at_entry := n_next nd |>))
  | None =>
      match list.last (calls s) with
      | None => Some (Stop false s)
      | Some callsTop =>
          s ← (if computePartial then update_longest s else Some s);
          let e := c_entry callsTop in
          let s := s <| state := c_state callsTop |> in
          nd ← nodes s !! e;
          lin ← clear (n_id nd) (linearized s);
          let s := s <| calls := removelast (calls s) |> in
          ns ← unlift e (nodes s);
          nd ← ns !! e;
          Some (Next (s <| linearized := lin |> <| nodes := ns |> <| at_entry := n_next nd |>))
      end
  end.

(** The loop; [kill k] is what its [k]-th look at the kill flag sees. *)
Fixpoint check_loop (fuel : nat) computePartial headEntry (kill : nat → bool) (k : nat) (s : Search V St) :
    option (bool * Search V St) :=
  match fuel with
  | O => None
  | S fuel =>
      hd ← nodes s !! headEntry;
      match n_next hd with
      | Some _ =>
          turn ← check_turn computePartial headEntry (kill k) s;
          match turn with
          | Next s => check_loop fuel computePartial headEntry kill (S k) s
          | Stop ok s => Some (ok, s)
          end
      | None =>
          seq ← call_ids (nodes s) (calls s);
          Some (true, s <| longest := replicate (length (longest s)) (Some (length (seqs s))) |>
                        <| seqs := seqs s ++ [seq] |>)
      end
  end.

(** The variables before the loop; the sentinel is the node after the entries' own. *)
Definition check_init (history : list (entry V)) : option (Search V St) :=
  '(h, entry) ← makeLinkedEntries history;
  l ← node_length h entry;
  let n := l `quot` 2 in
  lg ← make_slice n None;
  h ← insertBefore (length history) entry
        (<[length history := MkNode None None (-1) None None]> h);
  Some (MkSearch h entry (newBitset n) ∅ [] (Init model) lg []).

Definition checkSingle (fuel : nat) (history : list (entry V)) (computePartial : bool) (kill : nat → bool) :
    option (bool * Search V St) :=
  s ← check_init history; check_loop fuel computePartial (length history) kill 0 s.
End check.
