(* ===== verification/PorcKv.v ===== *)
(** * Porcupine: the key/value model ([models/kv.go])

    The sequential specification against which the tests check the histories of the
    key/value services, and its partition by key. *)
From S2P Require Import Prelude PorcModel PorcOrder.

Record KvInput := MkKvInput {
  in_Op : Z;
  in_Key : string;
  in_Value : string
}.

Record KvOutput := MkKvOutput { out_Value : string }.

(** What the interfaces of a history hold. *)
Inductive KvValue := VKvInput (i : KvInput) | VKvOutput (o : KvOutput).

(** The type assertions, which panic. *)
Definition as_input (v : iface KvValue) : option KvInput :=
  match v with Some (VKvInput i) => Some i | _ => None end.
Definition as_output (v : iface KvValue) : option KvOutput :=
  match v with Some (VKvOutput o) => Some o | _ => None end.

Definition KvStep (state : string) (input output : iface KvValue) : option (bool * string) :=
  inp ← as_input input;
  out ← as_output output;
  let st := state in
  if in_Op inp =? 0 then Some (bool_decide (out_Value out = st), state)
  else if in_Op inp =? 1 then Some (true, in_Value inp)
  else Some (true, (st +:+ in_Value inp)).

Definition KvDescribeOperation (input output : iface KvValue) : option string :=
  inp ← as_input input;
  out ← as_output output;
  let key := in_Key inp in
  Some (if in_Op inp =? 0 then ("get('" +:+ key +:+ "') -> '" +:+ out_Value out +:+ "'")%string
        else if in_Op inp =? 1 then ("put('" +:+ key +:+ "', '" +:+ in_Value inp +:+ "')")%string
        else if in_Op inp =? 2 then ("append('" +:+ key +:+ "', '" +:+ in_Value inp +:+ "')")%string
        else "<invalid>"%string).

(** The loop that fills [m]. *)
Fixpoint group_by_key (history : list (Operation KvValue)) (m : gmap string (list (Operation KvValue))) :
    option (gmap string (list (Operation KvValue))) :=
  match history with
  | [] => Some m
  | v :: history =>
      inp ← as_input (Input v);
      let key := in_Key inp in
      group_by_key history (<[key := default [] (m !! key) ++ [v]]> m)
  end.

(** [sort.Strings] makes the order in which [range] visits the map irrelevant. *)
Definition KvPartition (history : list (Operation KvValue)) : option (list (list (Operation KvValue))) :=
  m ← group_by_key history ∅;
  let keys := merge_sort String.le (map_to_list m).*1 in
  Some ((λ k, default [] (m !! k)) <$> keys).

Definition KvModel : Model KvValue string :=
  MkModel (Some KvPartition) None ""%string KvStep None.

(** ** The service as a whole *)

(** The sequential specification of all keys at once. *)
Definition MapStep (state : gmap string string) (input output : iface KvValue) :
    option (bool * gmap string string) :=
  inp ← as_input input;
  '(ok, v) ← KvStep (default ""%string (state !! in_Key inp)) input output;
  Some (ok, <[in_Key inp := v]> state).

Definition KvMapModel : Model KvValue (gmap string string) := MkModel None None ∅ MapStep None.

Definition op_key (o : Operation KvValue) : option string := in_Key <$> as_input (Input o).

Definition of_key (k : string) (ops : list (Operation KvValue)) : list (Operation KvValue) :=
  filter (λ o, op_key o = Some k) ops.

(** The history holds the types the model asserts. *)
Definition well_typed (o : Operation KvValue) : Prop :=
  is_Some (as_input (Input o)) ∧ is_Some (as_output (Output o)).

Lemma KvStep_typed st o : well_typed o → is_Some (KvStep st (Input o) (Output o)).
Proof.
  intros [[i Hi] [u Hu]]. unfold KvStep. rewrite Hi, Hu. simpl. by destruct (in_Op i =? 0), (in_Op i =? 1).
Qed.

Lemma of_key_cons k o ops :
  of_key k (o :: ops) = if decide (op_key o = Some k) then o :: of_key k ops else of_key k ops.
Proof. unfold of_key. by rewrite filter_cons. Qed.

(** A run on the map is a run on each key. *)
Lemma legal_by_key st ops :
  Forall well_typed ops →
  legal KvMapModel st ops ↔ ∀ k, legal KvModel (default ""%string (st !! k)) (of_key k ops).
Proof.
  intros Ht. revert st. induction Ht as [|o ops Ho Ht IH]; intros st; [done|].
  destruct Ho as [[i Hi] Hout]. assert (op_key o = Some (in_Key i)) as Hk by (unfold op_key; by rewrite Hi).
  setoid_rewrite of_key_cons. rewrite Hk. simpl. unfold MapStep. rewrite Hi. simpl. split.
  - intros (st' & Hs & Hl) k.
    destruct (KvStep (default ""%string (st !! in_Key i)) (Input o) (Output o)) as [[ok v]|] eqn:Hstep; simplify_eq/=.
    destruct (decide (Some (in_Key i) = Some k)) as [[= <-]|Hne]; simpl.
    + exists v. split; [done|]. specialize (proj1 (IH _) Hl (in_Key i)). by rewrite lookup_insert_eq.
    + specialize (proj1 (IH _) Hl k). by rewrite lookup_insert_ne by congruence.
  - intros Hl. pose proof (Hl (in_Key i)) as Hki. rewrite decide_True in Hki by done. destruct Hki as (v & Hs & Hlv).
    simpl in Hs. rewrite Hs. simpl. eexists. split; [done|]. apply IH. intros k. destruct (decide (in_Key i = k)) as [<-|Hne].
    + by rewrite lookup_insert_eq.
    + rewrite lookup_insert_ne by done. specialize (Hl k). by rewrite decide_False in Hl by congruence.
Qed.

(** ** The partition *)

Lemma group_by_key_spec history m :
  (∀ o, o ∈ history → is_Some (as_input (Input o))) →
  ∃ m', group_by_key history m = Some m'
    ∧ ∀ k, m' !! k = match of_key k history with [] => m !! k | l => Some (default [] (m !! k) ++ l) end.
Proof.
  revert m. induction history as [|o history IH]; intros m Ht; simpl; [by exists m|].
  destruct (Ht o) as [i Hi]; [left|]. rewrite Hi. simpl.
  assert (op_key o = Some (in_Key i)) as Hk by (unfold op_key; by rewrite Hi).
  destruct (IH (<[in_Key i := default [] (m !! in_Key i) ++ [o]]> m)) as (m' & -> & Hm').
  { intros o' Ho'. apply Ht. by right. }
  exists m'. split; [done|]. intros k. rewrite Hm', of_key_cons, Hk.
  destruct (decide (Some (in_Key i) = Some k)) as [[= <-]|Hne].
  - rewrite lookup_insert_eq. simpl. destruct (of_key (in_Key i) history); [done|]. by rewrite <-app_assoc.
  - rewrite lookup_insert_ne by congruence. done.
Qed.

(** The parts are the operations of each key, in the order of the history. *)
Lemma KvPartition_spec history :
  (∀ o, o ∈ history → is_Some (as_input (Input o))) →
  ∃ parts keys, KvPartition history = Some parts ∧ parts = (λ k, of_key k history) <$> keys
    ∧ NoDup keys ∧ ∀ k, k ∈ keys ↔ of_key k history ≠ [].
Proof.
  intros Ht. unfold KvPartition. destruct (group_by_key_spec history ∅ Ht) as (m & -> & Hm). simpl.
  assert (∀ k, m !! k = match of_key k history with [] => None | l => Some l end) as Hm'.
  { intros k. rewrite Hm, lookup_empty. by destruct (of_key k history). }
  eexists _, (merge_sort String.le (map_to_list m).*1). split; [done|]. split_and!.
  - apply list_fmap_ext. intros i k _. rewrite Hm'. by destruct (of_key k history).
  - rewrite merge_sort_Permutation. apply NoDup_fst_map_to_list.
  - intros k. rewrite merge_sort_Permutation, list_elem_of_fmap. split.
    + intros ([k' l] & -> & Hl%elem_of_map_to_list). rewrite Hm' in Hl. simpl. by destruct (of_key k' history).
    + intros Hne. exists (k, of_key k history). split; [done|]. apply elem_of_map_to_list. rewrite Hm'.
      by destruct (of_key k history).
Qed.

(** ** Linearizability is a property of each key

    An operation of a key's linearization is given the latest call time of those up to it,
    a moment at which it may take effect; the linearizations of all keys are merged by
    these moments, and by the place in its own linearization at equal moments. *)
Record timed := MkTimed { t_time : Z; t_pos : Z; t_op : Operation KvValue }.

Definition timed_le (a b : timed) : Prop :=
  t_time a < t_time b ∨ (t_time a = t_time b ∧ t_pos a ≤ t_pos b).
Definition timed_lt (a b : timed) : Prop :=
  t_time a < t_time b ∨ (t_time a = t_time b ∧ t_pos a < t_pos b).

#[export] Instance timed_le_dec a b : Decision (timed_le a b).
Proof. unfold timed_le. apply _. Defined.
#[export] Instance timed_le_trans : Transitive timed_le.
Proof. intros a b c. unfold timed_le. lia. Qed.
#[export] Instance timed_le_total : Total timed_le.
Proof. intros a b. unfold timed_le. lia. Qed.

(** The moments of the operations of [l], from moment [t] and place [p] on. *)
Fixpoint moments (t p : Z) (l : list (Operation KvValue)) : list timed :=
  match l with
  | [] => []
  | o :: l => MkTimed (Z.max t (Call o)) p o :: moments (Z.max t (Call o)) (p + 1) l
  end.

Lemma moments_ops t p l : t_op <$> moments t p l = l.
Proof. revert t p. induction l as [|o l IH]; intros t p; simpl; [done|]. by rewrite IH. Qed.

Lemma moments_sorted t p l :
  StronglySorted timed_lt (moments t p l) ∧ Forall (λ x, t ≤ t_time x ∧ p ≤ t_pos x) (moments t p l).
Proof.
  revert t p. induction l as [|o l IH]; intros t p; simpl; [split; constructor|].
  destruct (IH (Z.max t (Call o)) (p + 1)) as [Hs Hb]. rewrite list.Forall_forall in Hb. split; constructor.
  - done.
  - apply list.Forall_forall. intros x Hx. specialize (Hb x Hx). unfold timed_lt. simpl. lia.
  - simpl. lia.
  - apply list.Forall_forall. intros x Hx. specialize (Hb x Hx). lia.
Qed.

(** Each takes effect between its call and its return. *)
Lemma moments_between t p l :
  in_order l → (∀ o, o ∈ l → Call o ≤ Return o ∧ t ≤ Return o) →
  Forall (λ x, Call (t_op x) ≤ t_time x ≤ Return (t_op x)) (moments t p l).
Proof.
  revert t p. induction l as [|o l IH]; intros t p Ho Hr; simpl; constructor.
  - simpl. destruct (Hr o ltac:(left)). lia.
  - apply (in_order_app [o]) in Ho as (_ & Ho & Hb). apply IH; [done|]. intros o' Ho'.
    destruct (Hr o') as [H1 H2]; [by right|]. specialize (Hb o o' ltac:(left) Ho'). lia.
Qed.

(** Two strictly sorted lists of the same elements are the same. *)
Lemma sorted_le_lt l1 l2 :
  StronglySorted timed_le l1 → StronglySorted timed_lt l2 → l1 ≡ₚ l2 → l1 = l2.
Proof.
  revert l2. induction l1 as [|x l1 IH]; intros l2 H1 H2 Hp; [by apply Permutation_nil_l in Hp|].
  destruct l2 as [|y l2]; [by apply Permutation_nil_r in Hp|].
  apply StronglySorted_inv in H1 as [H1 Hx], H2 as [H2 Hy]. rewrite list.Forall_forall in Hx, Hy.
  assert (x = y) as ->.
  { assert (x ∈ y :: l2) as [|Hin]%elem_of_cons by (rewrite <-Hp; left); [done|].
    assert (y ∈ x :: l1) as [|Hin']%elem_of_cons by (rewrite Hp; left); [done|].
    specialize (Hx y Hin'). specialize (Hy x Hin). unfold timed_le, timed_lt in *. lia. }
  f_equal. apply IH; [done|done|]. by apply Permutation_cons_inv in Hp.
Qed.

Section merge.
Context (keys : list string) (lin : string → list (Operation KvValue)).
Context (Hnd : NoDup keys) (Hkey : ∀ k o, k ∈ keys → o ∈ lin k → op_key o = Some k).
Context (Hord : ∀ k, k ∈ keys → in_order (lin k)) (Hret : ∀ k o, k ∈ keys → o ∈ lin k → Call o ≤ Return o).

(** A moment before all calls. *)
Definition start : Z := foldr Z.min 0 (Call <$> (keys ≫= lin)).

Lemma start_le k o : k ∈ keys → o ∈ lin k → start ≤ Call o.
Proof.
  intros Hk Ho. unfold start. assert (Call o ∈ Call <$> (keys ≫= lin)) as Hin.
  { apply list_elem_of_fmap_2, list_elem_of_bind. eauto. }
  induction (Call <$> (keys ≫= lin)) as [|c l IH]; [by inversion Hin|].
  apply elem_of_cons in Hin as [->|Hin]; simpl; [lia|]. specialize (IH Hin). lia.
Qed.

Definition merged : list timed := merge_sort timed_le (keys ≫= λ k, moments start 0 (lin k)).

Definition timed_key (k : string) (l : list timed) : list timed := filter (λ x, op_key (t_op x) = Some k) l.

Lemma timed_key_moments k k' :
  k ∈ keys → timed_key k' (moments start 0 (lin k)) = if decide (k = k') then moments start 0 (lin k) else [].
Proof.
  intros Hk. assert (∀ x, x ∈ moments start 0 (lin k) → op_key (t_op x) = Some k) as Hx.
  { intros x Hx. apply (Hkey k); [done|]. rewrite <-(moments_ops start 0 (lin k)). by apply list_elem_of_fmap_2. }
  induction (moments start 0 (lin k)) as [|x l IH]; [by case_decide|].
  unfold timed_key in *. rewrite filter_cons, (Hx x) by left. rewrite IH by (intros y Hy; apply Hx; by right).
  destruct (decide (k = k')) as [->|Hne]; [by rewrite decide_True|by rewrite decide_False by congruence].
Qed.

Lemma timed_key_all k :
  timed_key k (keys ≫= λ k, moments start 0 (lin k)) = if decide (k ∈ keys) then moments start 0 (lin k) else [].
Proof.
  assert (∀ ks, (∀ j, j ∈ ks → j ∈ keys) → NoDup ks →
    timed_key k (ks ≫= λ k, moments start 0 (lin k)) = if decide (k ∈ ks) then moments start 0 (lin k) else []) as H.
  { intros ks Hsub Hn. induction Hn as [|j ks Hj Hn IH]; [done|].
    rewrite bind_cons. unfold timed_key in *. rewrite list.filter_app. rewrite IH by (intros; apply Hsub; by right).
    pose proof (timed_key_moments j k (Hsub j ltac:(left))) as Hm. unfold timed_key in Hm. rewrite Hm.
    destruct (decide (j = k)) as [->|Hne].
    - rewrite (decide_True (P := k ∈ k :: ks)) by left. rewrite decide_False by done. apply app_nil_r.
    - rewrite app_nil_l. apply decide_ext. rewrite elem_of_cons. naive_solver. }
  by apply H.
Qed.

(** The merge restricted to a key is the key's linearization. *)
Lemma merged_key k : of_key k (t_op <$> merged) = if decide (k ∈ keys) then lin k else [].
Proof.
  assert (timed_key k merged = if decide (k ∈ keys) then moments start 0 (lin k) else []) as Hm.
  { assert (timed_key k merged ≡ₚ timed_key k (keys ≫= λ k, moments start 0 (lin k))) as Hp
      by (unfold timed_key, merged; by rewrite merge_sort_Permutation).
    rewrite timed_key_all in Hp. case_decide; [|by apply Permutation_nil_r].
    apply sorted_le_lt; [|apply moments_sorted|done]. apply StronglySorted_filter.
    apply StronglySorted_merge_sort; apply _. }
  assert (∀ l, of_key k (t_op <$> l) = t_op <$> timed_key k l) as ->.
  { induction l as [|x l IH]; [done|]. rewrite fmap_cons. unfold of_key, timed_key in *. rewrite !filter_cons, IH.
    by destruct (decide (op_key (t_op x) = Some k)). }
  rewrite Hm. case_decide; [apply moments_ops|done].
Qed.
Lemma merged_perm : t_op <$> merged ≡ₚ keys ≫= lin.
Proof.
  unfold merged. rewrite merge_sort_Permutation. clear. induction keys as [|k ks IH]; [done|].
  rewrite !bind_cons, fmap_app, moments_ops. by rewrite IH.
Qed.

Lemma merged_between : Forall (λ x, Call (t_op x) ≤ t_time x ≤ Return (t_op x)) merged.
Proof.
  unfold merged. rewrite merge_sort_Permutation. apply list.Forall_forall.
  intros x (k & Hx & Hk)%list_elem_of_bind.
  assert (Forall (λ x, Call (t_op x) ≤ t_time x ≤ Return (t_op x)) (moments start 0 (lin k))) as HF.
  { apply moments_between; [by apply Hord|]. intros o Ho. pose proof (start_le k o Hk Ho).
    specialize (Hret k o Hk Ho). lia. }
  rewrite list.Forall_forall in HF. by apply HF.
Qed.

Lemma merged_in_order : in_order (t_op <$> merged).
Proof.
  pose proof merged_between as Hb. rewrite list.Forall_forall in Hb.
  intros i j a b Hij (x & -> & Hx)%list_lookup_fmap_Some (y & -> & Hy)%list_lookup_fmap_Some.
  pose proof (Hb x (list_elem_of_lookup_2 _ _ _ Hx)). pose proof (Hb y (list_elem_of_lookup_2 _ _ _ Hy)).
  assert (timed_le x y) as Hle.
  { eapply StronglySorted_lookup; [|exact Hij|exact Hx|exact Hy]. apply StronglySorted_merge_sort; apply _. }
  unfold timed_le in Hle. lia.
Qed.
End merge.

Lemma of_key_perm k l l' : l ≡ₚ l' → of_key k l ≡ₚ of_key k l'.
Proof. unfold of_key. by intros ->. Qed.

Lemma of_key_in_order k l : in_order l → in_order (of_key k l).
Proof.
  induction l as [|o l IH]; intros Ho; [done|]. apply (in_order_app [o]) in Ho as (_ & Ho & Hb).
  rewrite of_key_cons. case_decide; [|by apply IH]. apply (in_order_app [o]).
  split_and!; [apply in_order_single|by apply IH|]. intros a b Ha Hb'. apply Hb; [done|].
  by apply list_elem_of_filter in Hb' as [_ ?].
Qed.

(** A list whose keys are all in [keys] is its parts. *)
Lemma bind_of_key keys l :
  NoDup keys → (∀ o, o ∈ l → ∃ k, k ∈ keys ∧ op_key o = Some k) → keys ≫= (λ k, of_key k l) ≡ₚ l.
Proof.
  intros Hn. induction l as [|o l IH]; intros Hk.
  - clear. induction keys as [|k ks IH]; [done|]. by rewrite bind_cons, IH.
  - destruct (Hk o ltac:(left)) as (k & Hkin & Hko).
    trans (o :: (keys ≫= λ k, of_key k l)); [|by rewrite IH by (intros o' Ho'; apply Hk; by right)].
    clear IH Hk.
    apply list_elem_of_split in Hkin as (ks1 & ks2 & ->).
    apply list.NoDup_app in Hn as (_ & H1 & H2). apply list.NoDup_cons in H2 as [H2 _].
    assert (∀ ks, k ∉ ks → ks ≫= (λ k, of_key k (o :: l)) = ks ≫= λ k, of_key k l) as Hks.
    { induction ks as [|j ks IHks]; intros Hj; [done|]. apply not_elem_of_cons in Hj as [Hjk Hj].
      rewrite !bind_cons, IHks, of_key_cons, Hko, decide_False by (done || congruence). done. }
    rewrite !bind_app, !bind_cons, !Hks, of_key_cons, Hko, decide_True; [|done|done|].
    + rewrite <-app_comm_cons. symmetry. apply Permutation_middle.
    + intros Hin. by apply (H1 k Hin); left.
Qed.

(** Linearizations of the keys can be merged, and the converse. *)
Lemma linearizable_by_key keys history :
  Forall well_typed history → (∀ o, o ∈ history → Call o ≤ Return o) →
  NoDup keys → (∀ k, k ∈ keys ↔ of_key k history ≠ []) →
  linearizable KvMapModel history ↔ ∀ k, k ∈ keys → linearizable KvModel (of_key k history).
Proof.
  intros Ht Hret Hnd Hkeys. pose proof Ht as Ht'. rewrite list.Forall_forall in Ht'. split.
  - intros (l & Hl & Ho & Hleg) k Hk.
    exists (of_key k l). split_and!; [by apply of_key_perm|by apply of_key_in_order|].
    change (Init KvMapModel) with (∅ : gmap string string) in Hleg. rewrite legal_by_key in Hleg; [|by rewrite Hl].
    specialize (Hleg k). by rewrite lookup_empty in Hleg.
  - intros Hparts.
    destruct (list_choice [] (λ k l, l ≡ₚ of_key k history ∧ in_order l ∧ legal KvModel ""%string l) keys) as [lin Hlin].
    { intros k Hk. by apply Hparts. }
    assert (∀ k o, k ∈ keys → o ∈ lin k → op_key o = Some k ∧ o ∈ history) as Hin.
    { intros k o Hk Ho. destruct (Hlin k Hk) as (Hp' & _ & _). rewrite Hp' in Ho. by apply list_elem_of_filter in Ho. }
    assert (∀ o, o ∈ history → ∃ k, k ∈ keys ∧ op_key o = Some k) as Hall.
    { intros o Ho. destruct (Ht' o Ho) as [[i Hi] _]. exists (in_Key i).
      assert (op_key o = Some (in_Key i)) as Hk by (unfold op_key; by rewrite Hi). split; [|done]. apply Hkeys.
      assert (o ∈ of_key (in_Key i) history) as Hof by by apply list_elem_of_filter.
      intros He. rewrite He in Hof. by inversion Hof. }
    assert (t_op <$> merged keys lin ≡ₚ history) as Hperm.
    { rewrite merged_perm, <-(bind_of_key keys history Hnd Hall). clear -Hlin.
      induction keys as [|k ks IH]; [done|]. rewrite !bind_cons, IH by (intros j Hj; apply Hlin; by right).
      pose proof (proj1 (Hlin k ltac:(left))) as Hk. by rewrite Hk. }
    exists (t_op <$> merged keys lin). split_and!; [done| |].
    + apply merged_in_order; [intros k Hk; by apply Hlin|]. intros k o Hk Ho. apply Hret. by apply (Hin k o).
    + change (Init KvMapModel) with (∅ : gmap string string). apply legal_by_key; [by rewrite Hperm|]. intros k. rewrite lookup_empty.
      rewrite merged_key; [|done|by intros k' o Hk' Ho; apply (Hin k' o)].
      case_decide as Hk; [by apply Hlin|done].
Qed.

(** ** Properties *)

(** C28. Checking key by key is enough: for a history whose operations return no earlier
    than they are called and hold the types the model asserts, [KvPartition] succeeds, and
    the history is linearizable against the map of all keys exactly when each of its parts
    is linearizable against the model of one key. *)
Theorem partition_by_key_sound history :
  Forall well_typed history → (∀ o, o ∈ history → Call o ≤ Return o) →
  ∃ parts, KvPartition history = Some parts
    ∧ (linearizable KvMapModel history ↔ Forall (linearizable KvModel) parts).
Proof.
  intros Ht Hret. pose proof Ht as Ht'. rewrite list.Forall_forall in Ht'.
  destruct (KvPartition_spec history) as (parts & keys & Hp & -> & Hnd & Hkeys); [intros o Ho; by apply Ht'|].
  eexists. split; [done|]. rewrite list.Forall_fmap, list.Forall_forall. by apply linearizable_by_key.
Qed.

(** Witness: a put overlapping two reads of its key, and a read of another key. *)
Module PorcDemo.
Definition put (k v : string) (c r : Z) : Operation KvValue :=
  MkOperation 0 (Some (VKvInput (MkKvInput 1 k v))) c (Some (VKvOutput (MkKvOutput ""%string))) r.
Definition get (k v : string) (c r : Z) : Operation KvValue :=
  MkOperation 0 (Some (VKvInput (MkKvInput 0 k ""%string))) c (Some (VKvOutput (MkKvOutput v))) r.
Definition stale : list (Operation KvValue) :=
  [put "a" "x" 0 10; get "a" "x" 1 2; get "b" "" 3 4; get "a" "" 5 6]%string.
Definition fine : list (Operation KvValue) :=
  [put "a" "x" 0 10; get "a" "" 1 2; get "b" "" 3 4; get "a" "x" 5 6]%string.

Lemma fine_typed : Forall well_typed fine.
Proof. repeat constructor; by eexists. Qed.
Lemma fine_times o : o ∈ fine → Call o ≤ Return o.
Proof. revert o. apply list.Forall_forall. by repeat constructor. Qed.
End PorcDemo.

Lemma partition_by_key_sound_witness :
  ∃ parts, KvPartition PorcDemo.fine = Some parts ∧ length parts = 2%nat
    ∧ (linearizable KvMapModel PorcDemo.fine ↔ Forall (linearizable KvModel) parts).
Proof.
  destruct (partition_by_key_sound PorcDemo.fine PorcDemo.fine_typed PorcDemo.fine_times) as (parts & Hp & Hlin).
  exists parts. split_and!; [exact Hp| |exact Hlin]. vm_compute in Hp. injection Hp as <-. reflexivity.
Defined.
