(* ===== verification/PorcSearch.v ===== *)
(** * Porcupine: the search is right

    [checkSingle] returns within a bound on its turns, and its answer is whether the
    history is linearizable. *)
From S2P Require Import Prelude PorcBitset PorcModel PorcList PorcOrder PorcCheck PorcKv.

(** The turns the search takes at most over [N] entries with [r] operations left: at each of
    [N] entries it goes on, or goes down and comes back. *)
Fixpoint search_turns (N r : nat) : nat :=
  match r with
  | O => O
  | S r => (N * (search_turns N r + 2))%nat
  end.

Section search.
Context {V St : Type} (model : Model V St) (history : list (entry V)) (ops : list (Operation V)).
Context (Hent : entries_of history ops).
Implicit Types (s : Search V St) (st : St) (D : gset Z) (ids : list Z) (i j : Z) (p q : nat).
Implicit Types (h : gmap nat (node V)).

Abbreviation op := (op ops).
Abbreviation known := (known ops).
Abbreviation feasible := (feasible model ops).
Abbreviation partial := (partial model ops).
Abbreviation minimal := (minimal ops).

(** ** The entries by operation *)

Definition call_ptr i : nat := Z.to_nat (Call (op i)).
Definition ret_ptr i : nat := Z.to_nat (Return (op i)).

Definition id_at p : Z := match history !! p with Some e => id e | None => -1 end.

(** The entries of the operations not in [D]. *)
Definition remaining D : list nat := filter (λ p, id_at p ∉ D) (seq 0 (length history)).

Lemma call_ret_lt i : known i → (call_ptr i < ret_ptr i)%nat ∧ 0 ≤ Call (op i) ∧ 0 ≤ Return (op i).
Proof.
  intros Hi%op_lookup. destruct (eo_op _ _ Hent _ _ Hi) as (? & _ & _). unfold call_ptr, ret_ptr. lia.
Qed.

Lemma call_ptr_entry i :
  known i → ∃ e, history !! call_ptr i = Some e ∧ kind e = callEntry ∧ value e = Input (op i) ∧ id e = i.
Proof.
  intros Hi. destruct (eo_op _ _ Hent _ _ (op_lookup _ _ Hi)) as (_ & (e & He & Hk & Hv & Hid) & _).
  exists e. split_and!; try done. unfold PorcOrder.known in Hi. lia.
Qed.

Lemma ret_ptr_entry i :
  known i → ∃ e, history !! ret_ptr i = Some e ∧ kind e = returnEntry ∧ value e = Output (op i) ∧ id e = i.
Proof.
  intros Hi. destruct (eo_op _ _ Hent _ _ (op_lookup _ _ Hi)) as (_ & _ & (e & He & Hk & Hv & Hid)).
  exists e. split_and!; try done. unfold PorcOrder.known in Hi. lia.
Qed.

Lemma id_at_call i : known i → id_at (call_ptr i) = i.
Proof. intros (e & He & _ & _ & Hid)%call_ptr_entry. unfold id_at. by rewrite He. Qed.
Lemma id_at_ret i : known i → id_at (ret_ptr i) = i.
Proof. intros (e & He & _ & _ & Hid)%ret_ptr_entry. unfold id_at. by rewrite He. Qed.

Lemma call_ptr_ne_ret i j : known i → known j → call_ptr i ≠ ret_ptr j.
Proof.
  intros (e & He & Hk & _)%call_ptr_entry (e' & He' & Hk' & _)%ret_ptr_entry Heq. congruence.
Qed.

Lemma ptr_cases p :
  (p < length history)%nat → ∃ i, known i ∧ id_at p = i ∧ (p = call_ptr i ∨ p = ret_ptr i).
Proof.
  intros [e He]%lookup_lt_is_Some. destruct (eo_entry _ _ Hent p e He) as (k & o & Hk & Hid & Hp).
  exists (Z.of_nat k). pose proof (lookup_lt_Some _ _ _ Hk) as Hlt.
  split_and!; [unfold PorcOrder.known; lia|by unfold id_at; rewrite He|].
  unfold call_ptr, ret_ptr, PorcOrder.op. rewrite Nat2Z.id, Hk. simpl. destruct (kind e); [right|left]; lia.
Qed.

Lemma remaining_elem D p : p ∈ remaining D ↔ (p < length history)%nat ∧ id_at p ∉ D.
Proof. unfold remaining. rewrite list_elem_of_filter, elem_of_seq. naive_solver lia. Qed.

Lemma call_remaining D i : known i → call_ptr i ∈ remaining D ↔ i ∉ D.
Proof.
  intros Hi. rewrite remaining_elem, id_at_call by done. destruct (call_ptr_entry i Hi) as (e & He%lookup_lt_Some & _). tauto.
Qed.
Lemma ret_remaining D i : known i → ret_ptr i ∈ remaining D ↔ i ∉ D.
Proof.
  intros Hi. rewrite remaining_elem, id_at_ret by done. destruct (ret_ptr_entry i Hi) as (e & He%lookup_lt_Some & _). tauto.
Qed.

Lemma seq_sorted a b : StronglySorted lt (seq a b).
Proof.
  revert a. induction b as [|b IH]; intros a; simpl; constructor; [done|].
  apply list.Forall_forall. intros x. rewrite elem_of_seq. lia.
Qed.

Lemma remaining_sorted D : StronglySorted lt (remaining D).
Proof. apply StronglySorted_filter, seq_sorted. Qed.

Lemma remaining_NoDup D : NoDup (remaining D).
Proof. apply list.NoDup_filter, NoDup_seq. Qed.

(** Members of a remaining list before and after a point of it. *)
Lemma remaining_before D A R p q : remaining D = A ++ R → p ∈ A → q ∈ R → (p < q)%nat.
Proof.
  intros HD Hp Hq. pose proof (remaining_sorted D) as Hs. rewrite HD in Hs.
  by eapply StronglySorted_app_1_elem_of.
Qed.

Lemma remaining_known D p : p ∈ remaining D → ∃ i, known i ∧ (i ∉ D) ∧ (p = call_ptr i ∨ p = ret_ptr i).
Proof.
  intros [Hp Hn]%remaining_elem. destruct (ptr_cases p Hp) as (i & Hi & Hid & Hc). exists i. by rewrite <-Hid at 2.
Qed.

(** Linearizing an operation takes its two entries away. *)
Lemma remaining_lift D A i R :
  known i → remaining D = A ++ call_ptr i :: R →
  ∃ B C, R = B ++ ret_ptr i :: C ∧ remaining ({[i]} ∪ D) = A ++ B ++ C.
Proof.
  intros Hi HD. assert (i ∉ D) as HiD by (apply (call_remaining D i Hi); rewrite HD; set_solver).
  pose proof (call_ret_lt i Hi) as [Hlt _].
  assert (ret_ptr i ∈ R) as HR.
  { assert (ret_ptr i ∈ remaining D) as Hr by by apply ret_remaining. rewrite HD in Hr.
    apply elem_of_app in Hr as [Hr|[Hr|Hr]%elem_of_cons]; [|lia|done].
    pose proof (remaining_before D A _ _ (call_ptr i) HD Hr ltac:(left)). lia. }
  apply list_elem_of_split in HR as (B & C & ->). exists B, C. split; [done|].
  assert (remaining ({[i]} ∪ D) = filter (λ p, id_at p ≠ i) (remaining D)) as ->.
  { unfold remaining. rewrite list_filter_filter. apply list_filter_iff. set_solver. }
  pose proof (remaining_NoDup D) as Hnd. rewrite HD in Hnd |- *.
  assert (∀ X : list nat, (∀ p, p ∈ X → p ∈ remaining D ∧ p ≠ call_ptr i ∧ p ≠ ret_ptr i) → filter (λ p, id_at p ≠ i) X = X) as Hid.
  { intros X HX. apply filter_all. intros p (Hp & Hc & Hr)%HX.
    apply remaining_known in Hp as (j & Hj & _ & [-> | ->]); rewrite ?id_at_call, ?id_at_ret by done; naive_solver. }
  rewrite list.filter_app, filter_cons_False, list.filter_app, filter_cons_False
    by (rewrite ?id_at_call, ?id_at_ret by done; naive_solver).
  apply list.NoDup_app in Hnd as (_ & H1 & Hnd). apply list.NoDup_cons in Hnd as [H2 Hnd].
  apply list.NoDup_app in Hnd as (_ & H3 & Hnd). apply list.NoDup_cons in Hnd as [H4 _].
  rewrite !Hid; [done|..]; intros p Hp; (split; [rewrite HD; set_solver|]); set_solver.
Qed.
(** ** The invariant of the loop *)

Context (eqf : St → St → bool) (Heqf : Equal model = Some eqf) (Hcmp : comparable model eqf).
Context (Hstep : ∀ st o, o ∈ ops → is_Some (Step model st (Input o) (Output o))).
Context (computePartial : bool).

Abbreviation head := (length history).
Abbreviation n := (len ops).

Definition data_ok h : Prop :=
  ∀ i, known i →
    node_data <$> h !! call_ptr i = Some (Input (op i), Some (ret_ptr i), i)
    ∧ node_data <$> h !! ret_ptr i = Some (Output (op i), None, i).

Lemma data_ok_same h h' : same_data h h' → data_ok h → data_ok h'.
Proof. intros Hs Hd i Hi. rewrite !Hs. by apply Hd. Qed.

Lemma data_ok_call h i :
  data_ok h → known i → ∃ nd, h !! call_ptr i = Some nd ∧ n_value nd = Input (op i) ∧ n_match nd = Some (ret_ptr i) ∧ n_id nd = i.
Proof.
  intros Hd Hi. destruct (Hd i Hi) as [Hc _]. destruct (h !! call_ptr i) as [nd|]; [|done].
  exists nd. unfold node_data in Hc. naive_solver.
Qed.

Lemma data_ok_ret h i :
  data_ok h → known i → ∃ nd, h !! ret_ptr i = Some nd ∧ n_value nd = Output (op i) ∧ n_match nd = None ∧ n_id nd = i.
Proof.
  intros Hd Hi. destruct (Hd i Hi) as [_ Hc]. destruct (h !! ret_ptr i) as [nd|]; [|done].
  exists nd. unfold node_data in Hc. naive_solver.
Qed.

(** A cache entry describes a set of operations and, when the set is larger than [k], the
    rest cannot be linearized from its state. *)
Definition cache_entry_ok (k : nat) (e : cacheEntry St) : Prop :=
  ∃ D, represents n (ce_linearized e) D ∧ ((k < size D)%nat → ¬ feasible D (ce_state e)).

Definition in_cache (c : gmap Z (list (cacheEntry St))) (e : cacheEntry St) : Prop :=
  ∃ x es, c !! x = Some es ∧ e ∈ es.

Definition dead (e : cacheEntry St) : Prop :=
  ∃ D, represents n (ce_linearized e) D ∧ ¬ feasible D (ce_state e).

(** The sequences recorded for an operation begin a linearization and contain it. *)
Definition longest_ok (lg : list (option nat)) (sq : list (list Z)) : Prop :=
  ∀ k p, lg !! k = Some (Some p) → ∃ ids, sq !! p = Some ids ∧ Z.of_nat k ∈ ids ∧ ∃ st, partial ids st.

Record search_inv ids s : Prop := {
  si_linked : linked (nodes s) (head :: remaining (list_to_set ids));
  si_data : data_ok (nodes s);
  si_lin : represents n (linearized s) (list_to_set ids);
  si_calls : Forall2 (λ c i, c_entry c = call_ptr i) (calls s) ids;
  si_partial : partial ids (state s);
  si_cache : ∀ e, in_cache (cache s) e → cache_entry_ok (length ids) e;
  si_longest : length (longest s) = length ops ∧ longest_ok (longest s) (seqs s)
}.

Lemma search_inv_move ids s e : search_inv ids s → search_inv ids (s <| at_entry := e |>).
Proof. intros []. by split. Qed.

(** One turn that goes on. *)
Definition loop_next s s' : Prop :=
  (∃ ids, search_inv ids s)
  ∧ (∃ hd, nodes s !! head = Some hd ∧ is_Some (n_next hd))
  ∧ check_turn model computePartial head false s = Some (Next s').

Lemma head_next ids s : search_inv ids s → ∃ hd, nodes s !! head = Some hd ∧ n_next hd = remaining (list_to_set ids) !! 0%nat.
Proof.
  intros [Hl _ _ _ _ _ _]. pose proof (linked_next (nodes s) [] head _ Hl) as Hn.
  destruct (nodes s !! head) as [hd|]; [|done]. exists hd. split; [done|]. simpl in Hn. congruence.
Qed.

Lemma contains_loop_spec es e :
  (contains_loop model es e = Some true ∧
     ∃ e', e' ∈ es ∧ ce_linearized e' = ce_linearized e ∧ eqf (ce_state e) (ce_state e') = true)
  ∨ contains_loop model es e = Some false.
Proof.
  induction es as [|e' es IH]; simpl; [by right|]. rewrite Heqf. simpl.
  destruct (equals (ce_linearized e) (ce_linearized e')) eqn:He.
  - destruct (eqf (ce_state e) (ce_state e')) eqn:Hs.
    + left. split; [done|]. exists e'. apply equals_spec in He. split_and!; [left|done..].
    + destruct IH as [(? & e2 & ? & ?)|?]; [left; split; [done|]; exists e2; split; [by right|done]|by right].
  - destruct IH as [(? & e2 & ? & ?)|?]; [left; split; [done|]; exists e2; split; [by right|done]|by right].
Qed.

Lemma size_ids ids : NoDup ids → size (list_to_set ids : gset Z) = length ids.
Proof. apply size_list_to_set. Qed.

(** A pair found in the cache leads nowhere. *)
Lemma contained_dead ids s i st' lin' :
  search_inv ids s → i ∉ ids → represents n lin' ({[i]} ∪ list_to_set ids) →
  (cacheContains model (cache s) (MkCacheEntry lin' st') = Some true ∧ ¬ feasible ({[i]} ∪ list_to_set ids) st')
  ∨ cacheContains model (cache s) (MkCacheEntry lin' st') = Some false.
Proof.
  intros Hinv Hi Hr. unfold cacheContains. simpl.
  destruct (contains_loop_spec (default [] (cache s !! hash lin')) (MkCacheEntry lin' st'))
    as [(-> & e & He & Hlin & Heq)| ->]; [left|by right]. split; [done|]. intros Hf. simpl in *.
  destruct (cache s !! hash lin') as [es|] eqn:Hc; simpl in He; [|by inversion He].
  destruct (si_cache _ _ Hinv e) as (D & HrD & Hdead); [by exists (hash lin'), es|].
  rewrite Hlin in HrD. pose proof (represents_set_eq _ _ _ _ Hr HrD) as <-.
  apply Hdead.
  - rewrite size_union by set_solver. rewrite size_singleton, size_ids by apply (si_partial _ _ Hinv). lia.
  - by eapply feasible_equal.
Qed.
Lemma set_snoc ids i : list_to_set (ids ++ [i]) = ({[i]} ∪ list_to_set ids : gset Z).
Proof. set_solver. Qed.

Lemma in_cache_add c x es0 e e' :
  es0 = default [] (c !! x) → in_cache (<[x := es0 ++ [e]]> c) e' → in_cache c e' ∨ e' = e.
Proof.
  intros -> (y & es & Hy & He'). apply lookup_insert_Some in Hy as [[<- <-]|[Hne Hy]]; [|left; by exists y, es].
  apply elem_of_app in He' as [He'|He']; [|right; by apply list_elem_of_singleton in He'].
  left. destruct (c !! x) as [es|] eqn:Hc; [by exists x, es|by inversion He'].
Qed.

(** A turn at the call of an operation that may come next: it is passed over, and then it
    leads nowhere, or it is linearized. *)
Lemma step_call ids s A i R :
  search_inv ids s → remaining (list_to_set ids) = A ++ call_ptr i :: R → known i →
  at_entry s = Some (call_ptr i) → minimal (list_to_set ids) i →
  (loop_next s (s <| at_entry := R !! 0%nat |>)
   ∧ ∀ st', Step model (state s) (Input (op i)) (Output (op i)) = Some (true, st') →
       ¬ feasible ({[i]} ∪ list_to_set ids) st')
  ∨ ∃ s1 e, loop_next s s1 ∧ search_inv (ids ++ [i]) s1
     ∧ Step model (state s) (Input (op i)) (Output (op i)) = Some (true, state s1)
     ∧ at_entry s1 = remaining (list_to_set (ids ++ [i])) !! 0%nat
     ∧ calls s1 = calls s ++ [MkCallsEntry (call_ptr i) (state s)]
     ∧ unlift (call_ptr i) (nodes s1) = Some (nodes s)
     ∧ ce_state e = state s1 ∧ represents n (ce_linearized e) (list_to_set (ids ++ [i]))
     ∧ (∀ e', in_cache (cache s1) e' → in_cache (cache s) e' ∨ e' = e).
Proof.
  intros Hinv HD Hi He Hmin. pose proof Hinv as [Hl Hd Hlin Hcalls Hpa Hcache Hlong].
  assert (i ∉ ids) as Hids.
  { assert (i ∉ (list_to_set ids : gset Z)); [|set_solver]. apply (call_remaining _ i Hi). rewrite HD. set_solver. }
  destruct (head_next ids s Hinv) as (hd & Hhd & Hhdn).
  assert (is_Some (n_next hd)) as Hgo by (rewrite Hhdn, HD; by destruct A).
  destruct (data_ok_call _ i Hd Hi) as (nd & Hnd & Hv & Hm & Hid).
  destruct (data_ok_ret _ i Hd Hi) as (mt & Hmt & Hmv & _).
  assert (n_next nd = R !! 0%nat) as Hnext.
  { pose proof (linked_next (nodes s) (head :: A) (call_ptr i) R) as Hn. simpl in Hn. rewrite <-HD in Hn.
    specialize (Hn Hl). rewrite Hnd in Hn. simpl in Hn. congruence. }
  destruct (Hstep (state s) (op i) (op_elem ops i Hi)) as [[ok st'] Hs].
  assert (∀ t, check_turn model computePartial head false s = Some (Next t) → loop_next s t) as Hturn
    by (intros t Ht; split_and!; [by exists ids|by exists hd|done]).
  unfold check_turn in Hturn. rewrite He in Hturn. simpl in Hturn. rewrite Hnd in Hturn. simpl in Hturn.
  rewrite Hm, Hmt in Hturn. simpl in Hturn. rewrite Hv, Hmv, Hs in Hturn. simpl in Hturn.
  destruct ok; [|left; rewrite Hnext in Hturn; split; [by apply Hturn|naive_solver]].
  rewrite Hid in Hturn.
  destruct (set_represents _ _ _ i Hlin Hi) as (lin' & Hset & Hlin'). unfold clone in Hturn. rewrite Hset in Hturn. simpl in Hturn.
  destruct (contained_dead ids s i st' lin' Hinv Hids Hlin') as [[Hc Hdead]|Hc]; rewrite Hc in Hturn; simpl in Hturn.
  { left. rewrite Hnext in Hturn. split; [by apply Hturn|]. intros st2 Hs2. by simplify_eq. }
  right. destruct (remaining_lift _ A i R Hi HD) as (B & C & HR & HD'). rewrite HD, HR in Hl.
  assert (∃ A0 a, head :: A = A0 ++ [a]) as (A0 & a & HA).
  { destruct (exists_last (l := head :: A)) as (A0 & a & HA); [done|]. eauto. }
  assert (head :: A ++ call_ptr i :: B ++ ret_ptr i :: C = A0 ++ a :: call_ptr i :: B ++ ret_ptr i :: C) as Hl0.
  { rewrite app_comm_cons, HA, <-app_assoc. done. }
  assert (head :: A ++ B ++ C = A0 ++ a :: B ++ C) as Hl1.
  { rewrite app_comm_cons, HA, <-app_assoc. done. }
  assert (NoDup (A0 ++ a :: call_ptr i :: B ++ ret_ptr i :: C)) as HnD.
  { rewrite <-Hl0, <-HR, <-HD. constructor; [rewrite remaining_elem; lia|apply remaining_NoDup]. }
  rewrite Hl0 in Hl. destruct (lift_spec _ _ _ _ _ _ _ nd Hl HnD Hnd Hm) as (h' & Hlift & Hl' & Hsame & Hunlift).
  rewrite Hlift in Hturn. simpl in Hturn. rewrite <-Hl1, <-HD', <-set_snoc in Hl'.
  assert (n_next <$> h' !! head = Some (remaining (list_to_set (ids ++ [i])) !! 0%nat)) as Hh'
    by apply (linked_next h' [] head _ Hl').
  destruct (h' !! head) as [hd'|]; [|done]. simpl in Hh'. injection Hh' as Hh'. simpl in Hturn.
  eexists _, (MkCacheEntry lin' st'). split; [by apply Hturn|].
  rewrite <-set_snoc in Hlin'. split; [split; simpl|split_and!; simpl; try done].
  - done.
  - by eapply data_ok_same.
  - done.
  - apply Forall2_app; [done|]. by repeat constructor.
  - by eapply partial_snoc.
  - intros e [(D & HrD & Hdead)%Hcache| ->]%in_cache_add; [..|done].
    + exists D. split; [done|]. intros Hlt. apply Hdead. rewrite length_app in Hlt. lia.
    + eexists. split; [done|]. rewrite size_ids, length_app; [lia|]. by apply (partial_snoc _ _ _ _ _ _ Hpa Hi Hids Hmin Hs).
  - done.
  - intros e' Hin. by apply in_cache_add in Hin.
Qed.
(** ** Recording the longest sequences *)

Lemma call_ids_spec h (cs : list (callsEntry St)) ids :
  data_ok h → (∀ i, i ∈ ids → known i) → Forall2 (λ c i, c_entry c = call_ptr i) cs ids →
  call_ids h cs = Some ids.
Proof.
  intros Hd Hk HF. unfold call_ids. apply mapM_Some_2. induction HF as [|c i cs ids Hc HF IH]; constructor.
  - destruct (data_ok_call h i Hd (Hk i ltac:(left))) as (nd & Hnd & _ & _ & Hid). rewrite Hc, Hnd. simpl. by rewrite Hid.
  - apply IH. intros j Hj. apply Hk. by right.
Qed.

Lemma longest_ok_app lg sq l : longest_ok lg sq → longest_ok lg (sq ++ l).
Proof.
  intros Hok k p (ids & Hp & Hr)%Hok. exists ids. split; [|done]. by apply lookup_app_l_Some.
Qed.

Lemma longest_loop_spec (vs : list (callsEntry St)) js seq s ids :
  data_ok (nodes s) → Forall2 (λ c i, c_entry c = call_ptr i) vs js → (∀ i, i ∈ js → i ∈ ids) →
  Forall2 (λ c i, c_entry c = call_ptr i) (calls s) ids → partial ids (state s) →
  length (longest s) = length ops → longest_ok (longest s) (seqs s ++ [default [] seq]) →
  (seq = None ∨ seq = Some ids) →
  ∃ seq' lg, longest_loop vs seq s = Some (seq', s <| longest := lg |>) ∧ length lg = length ops
    ∧ longest_ok lg (seqs s ++ [default [] seq']).
Proof.
  intros Hd HF. revert seq s Hd. induction HF as [|c i vs js Hc HF IH]; intros seq s Hd Hjs Hcalls Hpa Hlen Hok Hseq; simpl.
  { exists seq, (longest s). split_and!; [by destruct s|done..]. }
  pose proof (pa_known _ _ _ _ Hpa i (Hjs i ltac:(left))) as Hi.
  destruct (data_ok_call _ i Hd Hi) as (nd & Hnd & _ & _ & Hid). rewrite Hc, Hnd. simpl. rewrite Hid.
  destruct (slice_get_lt (longest s) i) as [cur Hcur]; [unfold PorcOrder.known in Hi; lia|]. rewrite Hcur. simpl.
  assert (∃ b, match cur with
               | None => Some true
               | Some p => old ← (if decide (p = length (seqs s)) then Some (default [] seq) else seqs s !! p);
                           Some (len (calls s) >? len (old : list Z))
               end = Some b) as [b Hb].
  { destruct cur as [p|]; [|eauto]. destruct (decide (p = length (seqs s))); simpl; [eauto|].
    apply slice_get_Some in Hcur as [_ Hcur]. destruct (Hok _ _ Hcur) as (old & Hp & _).
    apply lookup_app_Some in Hp as [Hp|[Hp1 Hp]]; [rewrite Hp; simpl; eauto|].
    apply list_lookup_singleton_Some in Hp as [Hp _]. lia. }
  rewrite Hb. simpl.
  assert (∀ j, j ∈ js → j ∈ ids) as Hjs' by (intros j Hj; apply Hjs; by right).
  destruct b; [|by apply IH].
  assert ((match seq with Some seq => Some seq | None => call_ids (nodes s) (calls s) end) = Some ids) as ->.
  { destruct Hseq as [-> | ->]; [|done]. apply call_ids_spec; [done|apply Hpa|done]. }
  simpl. rewrite slice_set_lt by (unfold PorcOrder.known in Hi; lia). simpl.
  destruct (IH (Some ids) (s <| longest := <[Z.to_nat i := Some (length (seqs s))]> (longest s) |>))
    as (seq' & lg & Hl & Hlg & Hok'); simpl; try done.
  - by rewrite length_insert.
  - intros k p [(<- & Hp & _)|[Hne Hk]]%list_lookup_insert_Some.
    + injection Hp as <-. exists ids. split; [by apply list_lookup_middle|]. split; [|eauto].
      rewrite Z2Nat.id by (unfold PorcOrder.known in Hi; lia). apply Hjs. left.
    + destruct (Hok k p Hk) as (l & Hp & Hin & Hpl).
      apply lookup_app_Some in Hp as [Hp|[Hp1 Hp]]; [exists l; split; [by apply lookup_app_l_Some|done]|].
      destruct Hseq as [-> | ->]; simpl in Hp; [|exists l; split; [|done]; rewrite lookup_app_r by done; done].
      apply list_lookup_singleton_Some in Hp as [_ <-]. by inversion Hin.
  - by right.
  - exists seq', lg. split; [|done]. rewrite Hl. done.
Qed.

Lemma update_longest_spec s ids :
  search_inv ids s →
  ∃ lg sq, update_longest s = Some (s <| longest := lg |> <| seqs := sq |>) ∧ length lg = length ops ∧ longest_ok lg sq.
Proof.
  intros [Hl Hd Hlin Hcalls Hpa Hcache [Hlen Hlong]]. unfold update_longest.
  destruct (longest_loop_spec (calls s) ids None s ids) as (seq' & lg & Hr & Hlen' & Hok); try done.
  - by apply longest_ok_app.
  - by left.
  - rewrite Hr. simpl. eauto.
Qed.
(** A turn at a return takes back the last operation linearized; [s0] is the search as it
    was when it was. *)
Lemma step_pop ids s0 s A i R j :
  search_inv ids s0 → remaining (list_to_set ids) = A ++ call_ptr i :: R → known i → i ∉ ids →
  search_inv (ids ++ [i]) s → calls s = calls s0 ++ [MkCallsEntry (call_ptr i) (state s0)] →
  unlift (call_ptr i) (nodes s) = Some (nodes s0) →
  known j → j ∉ ids ++ [i] → at_entry s = Some (ret_ptr j) →
  (∀ e, in_cache (cache s) e → in_cache (cache s0) e ∨ dead e) →
  ∃ s', loop_next s s' ∧ search_inv ids s' ∧ nodes s' = nodes s0 ∧ calls s' = calls s0
    ∧ state s' = state s0 ∧ at_entry s' = R !! 0%nat ∧ cache s' = cache s.
Proof.
  intros Hinv0 HD Hi Hids Hinv Hcalls Hun Hj Hjids He Hgrow.
  destruct (head_next _ s Hinv) as (hd & Hhd & Hhdn).
  assert (is_Some (n_next hd)) as Hgo.
  { rewrite Hhdn. assert (ret_ptr j ∈ remaining (list_to_set (ids ++ [i]))) as Hr by (apply ret_remaining; set_solver).
    destruct (remaining (list_to_set (ids ++ [i]))) as [|x l]; [by inversion Hr|by exists x]. }
  pose proof Hinv as [Hl Hd Hlin Hc2 Hpa Hcache Hlong].
  pose proof Hinv0 as [Hl0 Hd0 Hlin0 Hc0 Hpa0 Hcache0 Hlong0].
  destruct (data_ok_ret _ j Hd Hj) as (nd & Hnd & _ & Hm & _).
  destruct (data_ok_call _ i Hd Hi) as (nc & Hnc & _ & _ & Hidc).
  destruct (data_ok_call _ i Hd0 Hi) as (nc0 & Hnc0 & _ & _ & _).
  assert (n_next nc0 = R !! 0%nat) as Hnext.
  { pose proof (linked_next (nodes s0) (head :: A) (call_ptr i) R) as Hn. simpl in Hn. rewrite <-HD in Hn.
    specialize (Hn Hl0). rewrite Hnc0 in Hn. simpl in Hn. congruence. }
  destruct (clear_represents _ _ _ i Hlin Hi) as (lin' & Hclear & Hlin').
  replace (list_to_set (ids ++ [i]) ∖ {[i]}) with (list_to_set ids : gset Z) in Hlin' by set_solver.
  assert (∃ lg sq, (if computePartial then update_longest s else Some s) = Some (s <| longest := lg |> <| seqs := sq |>)
            ∧ length lg = length ops ∧ longest_ok lg sq) as (lg & sq & Hup & Hlg).
  { destruct computePartial; [by eapply update_longest_spec|]. exists (longest s), (seqs s). split; [by destruct s|done]. }
  eexists. split; [split; [by eexists|split; [by exists hd|]]|].
  - unfold check_turn. rewrite He. simpl. rewrite Hnd. simpl. rewrite Hm.
    rewrite Hcalls, last_snoc, Hup. simpl. rewrite Hnc. simpl. rewrite Hidc, Hclear. simpl.
    rewrite Hun. simpl. rewrite Hnc0. simpl. rewrite Hcalls, removelast_last. reflexivity.
  - split_and!; try done. split; simpl; try done.
    intros e [Hin|(D & HrD & Hdead)]%Hgrow; [by apply Hcache0|by exists D].
Qed.

(** ** The search below a partial linearization *)

Definition succeeded s : Prop := ∃ ids, search_inv ids s ∧ ∀ i, known i → i ∈ ids.

Record failed ids s s' : Prop := {
  fa_inv : search_inv ids s';
  fa_nodes : nodes s' = nodes s;
  fa_calls : calls s' = calls s;
  fa_state : state s' = state s;
  fa_at : ∃ j, known j ∧ (j ∉ ids) ∧ at_entry s' = Some (ret_ptr j);
  fa_dead : ¬ feasible (list_to_set ids) (state s);
  fa_cache : ∀ e, in_cache (cache s') e → in_cache (cache s) e ∨ dead e
}.

(** Before the first return, only calls that may come next. *)
Lemma minimal_before_return D A R i :
  remaining D = A ++ R → (∀ p, p ∈ A → ∀ j, known j → p ≠ ret_ptr j) → known i →
  (call_ptr i ∈ A ∨ R !! 0%nat = Some (call_ptr i)) → minimal D i.
Proof.
  intros HD HA Hi Hc j Hj HjD Hji Hlt.
  assert (ret_ptr j < call_ptr i)%nat as Hp.
  { unfold ret_ptr, call_ptr. pose proof (call_ret_lt i Hi). pose proof (call_ret_lt j Hj). lia. }
  assert (ret_ptr j ∈ remaining D) as Hr by by apply ret_remaining.
  rewrite HD in Hr. apply elem_of_app in Hr as [Hr|Hr]; [by apply (HA _ Hr j Hj)|].
  destruct Hc as [Hc|Hc].
  - pose proof (remaining_before D A R _ _ HD Hc Hr). lia.
  - destruct R as [|c R]; [done|]. injection Hc as ->. apply elem_of_cons in Hr as [Hr|Hr]; [lia|].
    change (call_ptr i :: R) with ([call_ptr i] ++ R) in HD. rewrite app_assoc in HD.
    pose proof (remaining_before D _ R (call_ptr i) _ HD ltac:(set_solver) Hr). lia.
Qed.

(** At the first return, every operation that may come next has been tried. *)
Lemma return_fails ids st A j R :
  (∀ p, p ∈ A → ∀ j, known j → p ≠ ret_ptr j) → known j →
  remaining (list_to_set ids) = A ++ ret_ptr j :: R →
  (∀ i, known i → call_ptr i ∈ A → ∀ st',
     Step model st (Input (op i)) (Output (op i)) = Some (true, st') → ¬ feasible ({[i]} ∪ list_to_set ids) st') →
  ¬ feasible (list_to_set ids) st.
Proof.
  intros HA Hj HD Htried [Hall|(i & st' & Hi & HiD & Hmin & Hs & Hf)]%feasible_uncons.
  - assert (ret_ptr j ∈ remaining (list_to_set ids)) as Hr by (rewrite HD; set_solver).
    apply ret_remaining in Hr; [|done]. by apply Hr, Hall.
  - assert (call_ptr i ∈ remaining (list_to_set ids)) as Hc by by apply call_remaining.
    rewrite HD in Hc. apply elem_of_app in Hc as [Hc|Hc]; [by eapply Htried|].
    assert (j ∉ (list_to_set ids : gset Z)) as HjD by (apply (ret_remaining _ j Hj); rewrite HD; set_solver).
    assert (ret_ptr j < call_ptr i)%nat as Hlt.
    { apply elem_of_cons in Hc as [Hc|Hc]; [by destruct (call_ptr_ne_ret i j)|].
      change (ret_ptr j :: R) with ([ret_ptr j] ++ R) in HD. rewrite app_assoc in HD.
      by apply (remaining_before _ _ R (ret_ptr j) _ HD ltac:(set_solver)). }
    pose proof (call_ret_lt i Hi). pose proof (call_ret_lt j Hj).
    apply (Hmin j Hj HjD); [intros ->; lia|]. unfold ret_ptr, call_ptr in Hlt. lia.
Qed.
Lemma failed_trans ids s s1 s' :
  search_inv ids s1 → nodes s1 = nodes s → calls s1 = calls s → state s1 = state s →
  (∀ e, in_cache (cache s1) e → in_cache (cache s) e ∨ dead e) → failed ids s1 s' → failed ids s s'.
Proof.
  intros H1 Hn Hc Hs Hk [F1 F2 F3 F4 F5 F6 F7]. split; try congruence; try done.
  intros e [He|He]%F7; [by apply Hk|by right].
Qed.

Lemma unfinished ids : (length ids < length ops)%nat → ∃ i, known i ∧ (i ∉ ids).
Proof.
  intros Hlt. destruct (decide (Forall (λ i, i ∈ ids) (seqZ 0 n))) as [Hall|Hn].
  - exfalso. rewrite list.Forall_forall in Hall. assert (length (seqZ 0 n) ≤ length ids)%nat as Hle.
    { apply submseteq_length, NoDup_submseteq; [apply NoDup_seqZ|done]. }
    rewrite length_seqZ in Hle. lia.
  - apply not_Forall_Exists, list.Exists_exists in Hn as (i & Hi & Hni); [|apply _].
    exists i. split; [by apply elem_of_all|done].
Qed.

(** From a list of candidates [R], the ones before it tried, the search finds a
    linearization or comes to a return with all candidates tried. *)
Lemma explore_list r ids s A R :
  (∀ ids' s0, length ops = (r + length ids')%nat → search_inv ids' s0 →
     at_entry s0 = remaining (list_to_set ids') !! 0%nat →
     ∃ k s', (k ≤ search_turns (length history) r)%nat ∧ nsteps loop_next k s0 s' ∧ (succeeded s' ∨ failed ids' s0 s')) →
  length ops = (S r + length ids)%nat → search_inv ids s →
  remaining (list_to_set ids) = A ++ R → at_entry s = R !! 0%nat →
  (∀ p, p ∈ A → ∀ j, known j → p ≠ ret_ptr j) →
  (∀ i, known i → call_ptr i ∈ A → ∀ st',
     Step model (state s) (Input (op i)) (Output (op i)) = Some (true, st') → ¬ feasible ({[i]} ∪ list_to_set ids) st') →
  ∃ k s', (k ≤ length R * (search_turns (length history) r + 2))%nat ∧ nsteps loop_next k s s' ∧ (succeeded s' ∨ failed ids s s').
Proof.
  intros Hdeeper Hr. revert s A. induction R as [|p R IH]; intros s A Hinv HD He HA Htried.
  - exfalso. destruct (unfinished ids) as (i & Hi & Hni); [lia|].
    assert (ret_ptr i ∈ remaining (list_to_set ids)) as Hret by (apply ret_remaining; set_solver).
    rewrite HD, app_nil_r in Hret. by apply (HA _ Hret i Hi).
  - assert (p ∈ remaining (list_to_set ids)) as Hp by (rewrite HD; set_solver).
    destruct (remaining_known _ _ Hp) as (i & Hi & HiD & [-> | ->]); simpl in He.
    + pose proof (minimal_before_return _ A _ i HD HA Hi (or_intror eq_refl)) as Hmin.
      assert (∀ q, q ∈ A ++ [call_ptr i] → ∀ j, known j → q ≠ ret_ptr j) as HA'.
      { intros q [Hq|Hq]%elem_of_app j Hj; [by apply HA|]. apply list_elem_of_singleton in Hq as ->. by apply call_ptr_ne_ret. }
      assert (remaining (list_to_set ids) = (A ++ [call_ptr i]) ++ R) as HD' by by rewrite <-app_assoc.
      assert (∀ s1, state s1 = state s →
        (∀ st', Step model (state s) (Input (op i)) (Output (op i)) = Some (true, st') → ¬ feasible ({[i]} ∪ list_to_set ids) st') →
        ∀ j, known j → call_ptr j ∈ A ++ [call_ptr i] → ∀ st',
          Step model (state s1) (Input (op j)) (Output (op j)) = Some (true, st') → ¬ feasible ({[j]} ∪ list_to_set ids) st') as Htried'.
      { intros s1 -> Hdead j Hj [Hq|Hq]%elem_of_app; [by apply Htried|]. apply list_elem_of_singleton in Hq.
        apply (f_equal id_at) in Hq. rewrite !id_at_call in Hq by done. by subst j. }
      assert (i ∉ ids) as Hids by set_solver.
      destruct (step_call ids s A i R Hinv HD Hi He Hmin) as [[Hnext Hdead]|(s1 & e & Hnext & Hinv1 & Hs & He1 & Hc1 & Hun & Hce & Hrep & Hk1)].
      * destruct (IH (s <| at_entry := R !! 0%nat |>) _ (search_inv_move _ _ _ Hinv) HD' eq_refl HA' (Htried' _ eq_refl Hdead))
          as (k & s' & Hk & Hsteps & Hres).
        exists (S k), s'. split_and!; [simpl; lia|by econstructor|].
        destruct Hres as [|Hf]; [by left|right]. by destruct Hf.
      * destruct (Hdeeper (ids ++ [i]) s1) as (k1 & s2 & Hk & Hsteps & Hres); [rewrite length_app; simpl; lia|done..|].
        destruct Hres as [Hok|[Hinv2 Hn2 Hc2 Hs2 (j & Hj & Hjids & Hej) Hf2 Hk2]].
        { exists (S k1), s2. split_and!; [simpl; lia|by econstructor|by left]. }
        assert (dead e) as Hde by (eexists; rewrite Hce; by split).
        assert (∀ e', in_cache (cache s2) e' → in_cache (cache s) e' ∨ dead e') as Hk02.
        { intros e' [[Hin| ->]%Hk1|Hd]%Hk2; auto. }
        destruct (step_pop ids s s2 A i R j) as (s3 & Hnext3 & Hinv3 & Hn3 & Hc3 & Hs3 & He3 & Hk3);
          [exact Hinv|exact HD|exact Hi|exact Hids|exact Hinv2|by rewrite Hc2, Hc1|by rewrite Hn2|exact Hj|exact Hjids|exact Hej|exact Hk02|].
        assert (∀ st', Step model (state s) (Input (op i)) (Output (op i)) = Some (true, st') → ¬ feasible ({[i]} ∪ list_to_set ids) st') as Hdead.
        { intros st' Hst'. rewrite Hs in Hst'. injection Hst' as <-. by rewrite <-set_snoc. }
        destruct (IH s3 _ Hinv3 HD' He3 HA' (Htried' _ Hs3 Hdead)) as (k & s' & Hk' & Hsteps' & Hres).
        exists (S (k1 + S k)), s'. split_and!; [simpl; lia| |].
        -- econstructor; [done|]. eapply nsteps_trans; [done|]. by econstructor.
        -- destruct Hres as [|Hf]; [by left|right]. eapply failed_trans; [done..| |exact Hf]. by rewrite Hk3.
    + exists 0%nat, s. split_and!; [lia|constructor|]. right. split; try done; [|by eapply return_fails|by left].
      exists i. split_and!; [done|set_solver|done].
Qed.

Lemma remaining_length D : (length (remaining D) ≤ length history)%nat.
Proof.
  unfold remaining. rewrite <-(length_seq (length history) 0) at 2. apply length_filter.
Qed.

Lemma explore r ids s :
  length ops = (r + length ids)%nat → search_inv ids s →
  at_entry s = remaining (list_to_set ids) !! 0%nat →
  ∃ k s', (k ≤ search_turns (length history) r)%nat ∧ nsteps loop_next k s s' ∧ (succeeded s' ∨ failed ids s s').
Proof.
  revert ids s. induction r as [|r IH]; intros ids s Hr Hinv He.
  - exists 0%nat, s. split_and!; [lia|constructor|left]. exists ids. split; [done|].
    intros i Hi. pose proof (si_partial _ _ Hinv) as Hpa.
    assert (ids ≡ₚ seqZ 0 n) as Hids.
    { apply submseteq_length_Permutation; [|rewrite length_seqZ; lia].
      apply NoDup_submseteq; [apply Hpa|]. intros j Hj. apply elem_of_all. by apply Hpa. }
    rewrite Hids. by apply elem_of_all.
  - destruct (explore_list r ids s [] (remaining (list_to_set ids))) as (k & s' & Hk & Hres); try done.
    + intros p Hp. by inversion Hp.
    + intros i _ Hp. by inversion Hp.
    + exists k, s'. split; [|done]. simpl. pose proof (remaining_length (list_to_set ids)).
      etrans; [exact Hk|]. by apply Nat.mul_le_mono_r.
Qed.
(** ** The loop and its start *)

Definition recorded_ok s : Prop := length (longest s) = length ops ∧ longest_ok (longest s) (seqs s).

(** The loop goes through turns that go on, unless it is killed. *)
Lemma loop_steps k s s' fuel kill (j : nat) :
  nsteps loop_next k s s' →
  check_loop model (k + fuel) computePartial head kill j s = check_loop model fuel computePartial head kill (j + k) s'
  ∨ ∃ x t, kill x = true ∧ recorded_ok t
      ∧ check_loop model (k + fuel) computePartial head kill j s = Some (false, t).
Proof.
  intros Hsteps. revert j. induction Hsteps as [s|k s s1 s' (Hinv & (hd & Hhd & [nx Hnx]) & Hturn) Hsteps IH]; intros j.
  - left. by rewrite Nat.add_0_r.
  - simpl. rewrite Hhd. simpl. rewrite Hnx. destruct (kill j) eqn:Hk.
    + right. exists j, s. destruct Hinv as [ids Hinv]. split_and!; [done|apply Hinv|done].
    + rewrite Hturn. simpl. destruct (IH (S j)) as [-> |?]; [left; f_equal; lia|by right].
Qed.

Lemma loop_success s fuel kill (j : nat) :
  succeeded s → ∃ t, check_loop model (S fuel) computePartial head kill j s = Some (true, t)
    ∧ recorded_ok t ∧ linearizable model ops
    ∧ ∃ p ids, longest t = replicate (length ops) (Some p) ∧ seqs t !! p = Some ids ∧ ids ≡ₚ seqZ 0 n.
Proof.
  intros (ids & Hinv & Hall). destruct (head_next ids s Hinv) as (hd & Hhd & Hn).
  assert (remaining (list_to_set ids) = []) as Hrem.
  { destruct (remaining (list_to_set ids)) as [|p l] eqn:Hp; [done|].
    assert (p ∈ remaining (list_to_set ids)) as (i & Hi & HiD & _)%remaining_known by (rewrite Hp; left).
    specialize (Hall i Hi). set_solver. }
  rewrite Hrem in Hn. simpl. rewrite Hhd. simpl. rewrite Hn. simpl.
  pose proof (si_partial _ _ Hinv) as Hpa.
  rewrite (call_ids_spec _ _ ids) by (apply Hinv || apply Hpa). simpl.
  eexists. split; [done|]. destruct (si_longest _ _ Hinv) as [Hlen _]. rewrite Hlen.
  split_and!; [split; simpl| |].
  - by rewrite length_replicate.
  - intros k p [[= ->] Hk]%lookup_replicate. exists ids. split; [by apply list_lookup_middle|].
    split; [apply Hall; unfold PorcOrder.known; lia|by eexists].
  - by eapply partial_linearizable.
  - exists (length (seqs s)), ids. split_and!; [done|by apply list_lookup_middle|].
    apply NoDup_Permutation; [apply Hpa|apply NoDup_seqZ|]. intros i. rewrite elem_of_all.
    split; [apply Hpa|apply Hall].
Qed.

Lemma loop_failure s s' fuel kill (j : nat) :
  calls s = [] → state s = Init model → failed [] s s' →
  ∃ t, check_loop model (S fuel) computePartial head kill j s' = Some (false, t)
    ∧ recorded_ok t ∧ ¬ linearizable model ops.
Proof.
  intros Hc Hs [Hinv _ Hc' Hs' (i & Hi & _ & He) Hdead _].
  destruct (head_next _ s' Hinv) as (hd & Hhd & Hn).
  assert (ret_ptr i ∈ remaining ∅) as Hr by (apply ret_remaining; set_solver).
  simpl. rewrite Hhd. simpl. rewrite Hn. simpl. destruct (remaining ∅) as [|p l]; [by inversion Hr|]. simpl.
  destruct (data_ok_ret _ i (si_data _ _ Hinv) Hi) as (nd & Hnd & _ & Hm & _).
  unfold check_turn. rewrite He. simpl. rewrite Hnd. simpl. rewrite Hm, Hc', Hc. simpl.
  exists s'. split_and!; [by destruct (kill j)|apply Hinv|].
  rewrite <-feasible_linearizable, <-Hs. done.
Qed.

Lemma initial_data h h0 :
  (∀ k e, history !! k = Some e → ∃ d, node_data <$> h0 !! k = Some d ∧ entry_data history 0 k e d) →
  (∀ p, (p < length history)%nat → node_data <$> h !! p = node_data <$> h0 !! p) → data_ok h.
Proof.
  intros He Hsame i Hi. pose proof (call_ret_lt i Hi) as [Hlt _].
  destruct (call_ptr_entry i Hi) as (e & Hc & Hk & Hv & Hid).
  destruct (ret_ptr_entry i Hi) as (e' & Hr & Hk' & Hv' & Hid').
  destruct (He _ _ Hc) as ([[v mt] x] & Hd & Hd1 & Hd2 & Hd3). destruct (He _ _ Hr) as ([[v' mt'] x'] & Hd' & Hd1' & Hd2' & Hd3').
  rewrite !Hsame, Hd, Hd' by (by eapply lookup_lt_Some). simpl in *. rewrite Hk in Hd3. rewrite Hk' in Hd3'.
  split; [|congruence]. destruct Hd3 as [Hm1 Hm2]. destruct (Hm2 (ret_ptr i) e') as [p Hp]; try done; [congruence|].
  subst mt. destruct (Hm1 p eq_refl) as (k & e2 & Hlt2 & He2 & Hk2 & Hid2 & ->). simpl.
  destruct (eo_entry _ _ Hent k e2 He2) as (y & o & Ho & Hy & Hpos). rewrite Hk2 in Hpos.
  assert (y = Z.to_nat i) as -> by lia. rewrite op_lookup in Ho by done. injection Ho as <-.
  rewrite Hd1, Hv, Hd2, Hid. do 3 f_equal. unfold ret_ptr. f_equal. lia.
Qed.

Lemma check_init_spec :
  ∃ s, check_init model history = Some s ∧ search_inv [] s
    ∧ at_entry s = remaining (list_to_set []) !! 0%nat ∧ calls s = [] ∧ state s = Init model.
Proof.
  unfold check_init. destruct (makeLinkedEntries_spec history) as (h & -> & Hl & Hf & Hdom & He & Hlen). simpl.
  rewrite Hlen. simpl. assert (len history `quot` 2 = n) as ->.
  { rewrite (eo_length _ _ Hent), Z.quot_div_nonneg by lia. rewrite Nat2Z.inj_mul, Z.mul_comm. apply Z.div_mul. lia. }
  rewrite make_slice_nonneg by lia. simpl.
  assert (remaining ∅ = seq 0 (length history)) as Hrem by (apply filter_all; set_solver).
  destruct (insertBefore_spec h (seq 0 (length history)) (length history) (MkNode None None (-1) None None))
    as (h' & Hins & Hl' & _ & Hdata); try done.
  { apply eq_None_not_Some. rewrite Hdom. lia. }
  { rewrite elem_of_seq. lia. }
  rewrite Hins. simpl. eexists. split; [done|]. simpl. rewrite Hrem. split_and!; try done. split; simpl.
  - by rewrite Hrem.
  - eapply initial_data; [exact He|]. intros p Hp. rewrite Hdata. rewrite decide_False by lia. done.
  - apply newBitset_represents. lia.
  - constructor.
  - apply partial_nil.
  - intros e (x & es & Hx & _). by rewrite lookup_empty in Hx.
  - rewrite length_replicate. split; [lia|]. by intros k p [? _]%lookup_replicate.
Qed.

(** What [checkSingle] returns. *)
Lemma checkSingle_result fuel kill :
  (S (search_turns (length history) (length ops)) ≤ fuel)%nat →
  ∃ ok s, checkSingle model fuel history computePartial kill = Some (ok, s) ∧ recorded_ok s
    ∧ (if ok then linearizable model ops
                  ∧ ∃ p ids, longest s = replicate (length ops) (Some p) ∧ seqs s !! p = Some ids ∧ ids ≡ₚ seqZ 0 n
       else ¬ linearizable model ops ∨ ∃ x, kill x = true).
Proof.
  intros Hfuel. unfold checkSingle. destruct check_init_spec as (s0 & -> & Hinv & He & Hc & Hs). simpl.
  destruct (explore (length ops) [] s0) as (k & s' & Hk & Hsteps & Hres); [simpl; lia|done..|].
  replace fuel with (k + S (fuel - k - 1))%nat by lia.
  destruct (loop_steps _ _ _ (S (fuel - k - 1)) kill 0 Hsteps) as [-> |(x & t & Hx & Hrec & ->)].
  - destruct Hres as [Hok|Hfail].
    + destruct (loop_success s' (fuel - k - 1) kill (0 + k) Hok) as (t & -> & Hrec & Hlin & Hall).
      exists true, t. done.
    + destruct (loop_failure s0 s' (fuel - k - 1) kill (0 + k) Hc Hs Hfail) as (t & -> & Hrec & Hlin).
      exists false, t. split_and!; [done..|by left].
  - exists false, t. split_and!; [done..|right]. by exists x.
Qed.
End search.

(** ** Properties *)

(** C10. The search decides linearizability: on the entries of any list of operations, for
    any model whose state comparison steps respect and whose steps do not panic, it returns
    within [search_turns] turns and one more, and answers yes exactly when some order of
    the operations that keeps their real-time order is legal; the cache and the pruning of
    the list lose nothing, and recording partial linearizations changes no answer. *)
Theorem checkSingle_decides {V St} (model : Model V St) history ops eqf fuel computePartial :
  entries_of history ops → Equal model = Some eqf → comparable model eqf →
  (∀ st o, o ∈ ops → is_Some (Step model st (Input o) (Output o))) →
  (S (search_turns (length history) (length ops)) ≤ fuel)%nat →
  ∃ ok s, checkSingle model fuel history computePartial (λ _, false) = Some (ok, s)
    ∧ (ok = true ↔ linearizable model ops).
Proof.
  intros He Heq Hcmp Hs Hf.
  destruct (checkSingle_result model history ops He eqf Heq Hcmp Hs computePartial fuel (λ _, false) Hf)
    as ([] & s & Hr & _ & Hres); eexists _, s; (split; [exact Hr|]); [naive_solver|].
  destruct Hres as [Hn|[x Hx]]; [naive_solver|done].
Qed.

(** Whenever the search is killed it returns; yes is then still right, and the
    sequences it has recorded for the visualization contain the operation they are recorded
    for and begin a linearization: each keeps the real-time order, with respect to the
    operations left out too, and is a legal run from the initial state.  After a yes they
    are complete. *)
Theorem checkSingle_records {V St} (model : Model V St) history ops eqf fuel computePartial kill :
  entries_of history ops → Equal model = Some eqf → comparable model eqf →
  (∀ st o, o ∈ ops → is_Some (Step model st (Input o) (Output o))) →
  (S (search_turns (length history) (length ops)) ≤ fuel)%nat →
  ∃ ok s, checkSingle model fuel history computePartial kill = Some (ok, s)
    ∧ (ok = true → linearizable model ops)
    ∧ (ok = false → (∀ k, kill k = false) → ¬ linearizable model ops)
    ∧ ∀ i p, longest s !! i = Some (Some p) →
        ∃ ids, seqs s !! p = Some ids ∧ Z.of_nat i ∈ ids ∧ (∃ st, partial model ops ids st)
          ∧ (ok = true → ids ≡ₚ seqZ 0 (len ops)).
Proof.
  intros He Heq Hcmp Hs Hf.
  destruct (checkSingle_result model history ops He eqf Heq Hcmp Hs computePartial fuel kill Hf)
    as (ok & s & Hr & [_ Hrec] & Hres).
  exists ok, s. split_and!; [exact Hr|intros ->; apply Hres|intros ->|].
  - intros Hk. destruct Hres as [|[x Hx]]; [done|by rewrite Hk in Hx].
  - intros i p Hp. destruct (Hrec i p Hp) as (ids & Hids & Hi & Hpa). exists ids. split_and!; [done..|].
    intros ->. destruct Hres as (_ & p' & ids' & Hlong & Hids' & Hperm).
    rewrite Hlong in Hp. apply lookup_replicate in Hp as [Hpp _]. injection Hpp as ->. congruence.
Qed.

(** Witness: a put during which its key is read twice, the old value last. *)
Module SearchDemo.
Import PorcDemo.
Import MergeTimeSort.
Definition ops : list (Operation KvValue) := [put "a" "x" 0 10; get "a" "x" 1 2; get "a" "" 3 4]%string.
Definition history : list (entry KvValue) := makeEntries ops.
Definition model : Model KvValue string := fillDefault KvModel.

Lemma ops_ok : well_timed ops ∧ ∀ st o, o ∈ ops → is_Some (Step model st (Input o) (Output o)).
Proof.
  split.
  - assert (Forall (λ a, Forall (λ b, Call a ≤ Return a ∧ Return a ≠ Call b) ops) ops) as HF by (repeat constructor; simpl; lia).
    intros a b Ha Hb. rewrite list.Forall_forall in HF. specialize (HF a Ha). rewrite list.Forall_forall in HF. by apply HF.
  - intros st o Ho. apply KvStep_typed. revert o Ho. apply list.Forall_forall. repeat constructor; by eexists.
Qed.

Lemma history_entries : entries_of history (ranked history ops).
Proof. apply ranked_entries. apply ops_ok. Qed.

Lemma history_steps st o : o ∈ ranked history ops → is_Some (Step model st (Input o) (Output o)).
Proof. intros [i (o' & Hi & ->)%ranked_lookup]%list_elem_of_lookup. simpl. apply ops_ok. by eapply list_elem_of_lookup_2. Qed.

Lemma model_comparable : comparable model ShallowEqual.
Proof.
  intros s1 s2 i o s1' Heq%bool_decide_eq_true_1 Hs. subst s2. exists s1'. split; [done|]. by apply bool_decide_eq_true_2.
Qed.
End SearchDemo.

Lemma checkSingle_decides_witness :
  ¬ linearizable SearchDemo.model (ranked SearchDemo.history SearchDemo.ops).
Proof.
  destruct (checkSingle_decides SearchDemo.model SearchDemo.history (ranked SearchDemo.history SearchDemo.ops)
    ShallowEqual 517 false SearchDemo.history_entries eq_refl SearchDemo.model_comparable SearchDemo.history_steps
    ltac:(apply Nat.leb_le; vm_compute; reflexivity)) as (ok & s & Hr & Hiff).
  assert ((λ r, r.1) <$> checkSingle SearchDemo.model 517 SearchDemo.history false (λ _, false) = Some false) as Hno
    by (vm_compute; reflexivity).
  rewrite Hr in Hno. injection Hno as ->. rewrite <-Hiff. done.
Defined.

Lemma checkSingle_records_witness :
  ∃ s, checkSingle SearchDemo.model 517 SearchDemo.history true (λ _, false) = Some (false, s)
    ∧ longest s !! 1%nat = Some (Some 0%nat) ∧ seqs s !! 0%nat = Some [0; 1]
    ∧ ∃ st, partial SearchDemo.model (ranked SearchDemo.history SearchDemo.ops) [0; 1] st.
Proof.
  destruct (checkSingle_records SearchDemo.model SearchDemo.history (ranked SearchDemo.history SearchDemo.ops)
    ShallowEqual 517 true (λ _, false) SearchDemo.history_entries eq_refl SearchDemo.model_comparable SearchDemo.history_steps
    ltac:(apply Nat.leb_le; vm_compute; reflexivity)) as (ok & s & Hr & _ & _ & Hrec).
  assert ((λ r, (r.1, longest r.2 !! 1%nat, seqs r.2 !! 0%nat)) <$> checkSingle SearchDemo.model 517 SearchDemo.history true (λ _, false)
    = Some (false, Some (Some 0%nat), Some [0; 1])) as Hv by (vm_compute; reflexivity).
  rewrite Hr in Hv. simpl in Hv. injection Hv as -> Hlong Hseq. exists s. split_and!; [exact Hr|exact Hlong|exact Hseq|].
  destruct (Hrec 1%nat 0%nat Hlong) as (ids & Hids & _ & Hpa & _). rewrite Hseq in Hids. injection Hids as <-. exact Hpa.
Defined.
