(* ===== verification/PorcParallel.v ===== *)
(** * Porcupine: the checker's interface ([checkParallel] of [checker.go], [porcupine.go])

    Each part of the history is checked by a goroutine of its own; a [select] loop collects
    the answers until it knows the result or the timer fires. *)
From S2P Require Import Prelude PorcBitset PorcModel PorcList PorcOrder PorcEvents PorcCheck PorcKv PorcSearch.

(** The arm of the [select] that is taken: the answer of a part, or the timer. *)
Inductive Arrival := ArriveResult (i : nat) | ArriveTimeout.

(** The order in which [range] visits the set of sequences of each part. *)
Abbreviation SetOrder := (nat → list nat → list nat) (only parsing).

Record linearizationInfo (V : Type) := MkInfo {
  info_history : list (list (entry V));
  partialLinearizations : list (list (list Z))
}.
Arguments MkInfo {V}. Arguments info_history {V}. Arguments partialLinearizations {V}.

(** The loop: [results] are the answers the goroutines send, each once; [got] are those
    received.  It blocks when nothing more arrives ([None]); without a timer the timer's
    channel is nil and never ready. *)
Fixpoint select_loop (results : list bool) (computeInfo timer : bool) (arrivals : list Arrival)
    (got : list nat) (count : Z) (ok : bool) : option (bool * bool) :=
  match arrivals with
  | [] => None
  | ArriveResult i :: arrivals =>
      if decide (i ∈ got) then None else
      result ← results !! i;
      let count := count + 1 in
      let ok := ok && result in
      if negb ok && negb computeInfo then Some (ok, false)
      else if count >=? len results then Some (ok, false)
      else select_loop results computeInfo timer arrivals (i :: got) count ok
  | ArriveTimeout :: _ => if timer then Some (ok, true) else None
  end.

(** The distinct sequences that [longest] points to, copied. *)
Definition partials {V St} (order : list nat → list nat) (s : Search V St) : option (list (list Z)) :=
  mapM (λ p, seqs s !! p) (order (remove_dups (omap (λ p, p) (longest s)))).

Definition checkParallel {V St} (fuel : nat) (model : Model V St) (history : list (list (entry V)))
    (computeInfo : bool) (timeout : Z) (kills : nat → nat → bool) (arrivals : list Arrival) (order : SetOrder) :
    option (CheckResult * linearizationInfo V) :=
  runs ← mapM (λ p : nat * list (entry V), checkSingle model fuel p.2 computeInfo (kills p.1)) (imap pair history);
  '(ok, timedOut) ← select_loop runs.*1 computeInfo (timeout >? 0) arrivals [] 0 true;
  info ← (if (computeInfo : bool) then
            parts ← mapM (λ p : nat * (bool * Search V St), partials (order p.1) p.2.2) (imap pair runs);
            Some (MkInfo history parts)
          else Some (MkInfo [] []));
  Some (if negb ok then Illegal else if (timedOut : bool) then Unknown else Ok, info).

Section api.
Context {V St : Type} `{EqDecision St, TimeSort}.
Implicit Types (model : Model V St).

Definition checkEvents (fuel : nat) model (history : list (Event V)) (verbose : bool) (timeout : Z)
    (kills : nat → nat → bool) (arrivals : list Arrival) (order : SetOrder) :
    option (CheckResult * linearizationInfo V) :=
  let model := fillDefault model in
  partition ← PartitionEvent model;
  partitions ← (partition : list (Event V) → option (list (list (Event V)))) history;
  checkParallel fuel model ((λ subhistory, convertEntries (renumber subhistory)) <$> partitions)
    verbose timeout kills arrivals order.

Definition checkOperations (fuel : nat) model (history : list (Operation V)) (verbose : bool) (timeout : Z)
    (kills : nat → nat → bool) (arrivals : list Arrival) (order : SetOrder) :
    option (CheckResult * linearizationInfo V) :=
  let model := fillDefault model in
  partition ← Partition model;
  partitions ← (partition : list (Operation V) → option (list (list (Operation V)))) history;
  checkParallel fuel model (makeEntries <$> partitions) verbose timeout kills arrivals order.

Definition CheckOperations fuel model history kills arrivals order : option bool :=
  '(res, _) ← checkOperations fuel model history false 0 kills arrivals order;
  Some (bool_decide (res = Ok)).

Definition CheckOperationsTimeout fuel model history timeout kills arrivals order : option CheckResult :=
  '(res, _) ← checkOperations fuel model history false timeout kills arrivals order; Some res.

Definition CheckOperationsVerbose fuel model history timeout kills arrivals order :
    option (CheckResult * linearizationInfo V) :=
  checkOperations fuel model history true timeout kills arrivals order.

Definition CheckEvents fuel model history kills arrivals order : option bool :=
  '(res, _) ← checkEvents fuel model history false 0 kills arrivals order;
  Some (bool_decide (res = Ok)).

Definition CheckEventsTimeout fuel model history timeout kills arrivals order : option CheckResult :=
  '(res, _) ← checkEvents fuel model history false timeout kills arrivals order; Some res.

Definition CheckEventsVerbose fuel model history timeout kills arrivals order :
    option (CheckResult * linearizationInfo V) :=
  checkEvents fuel model history true timeout kills arrivals order.
End api.

(** ** The select loop *)

(** What the loop leaves with: every answer it used was right, and it has them all unless
    one was no or the timer fired. *)
Lemma select_loop_spec (T : nat → Prop) results computeInfo timer arrivals got count (ok : bool) res timedOut :
  (∀ i (b : bool), ArriveResult i ∈ arrivals → results !! i = Some b → (b = true ↔ T i)) →
  NoDup got → (∀ i, i ∈ got → (i < length results)%nat) → count = len got →
  (if ok return Prop then ∀ i, i ∈ got → T i else ∃ i, (i < length results)%nat ∧ ¬ T i) →
  select_loop results computeInfo timer arrivals got count ok = Some (res, timedOut) →
  (res = false → ∃ i, (i < length results)%nat ∧ ¬ T i)
  ∧ (res = true → timedOut = false → ∀ i, (i < length results)%nat → T i)
  ∧ (timedOut = true → timer = true ∧ ArriveTimeout ∈ arrivals).
Proof.
  revert got count ok. induction arrivals as [|[i|] arrivals IH]; intros got count ok Hright Hn Hlt Hc Hok Hr; simpl in Hr; [done| |].
  - case_decide as Hi; [done|]. destruct (results !! i) as [b|] eqn:Hb; simpl in Hr; [|done].
    pose proof (Hright i b ltac:(left) Hb) as HT. pose proof (lookup_lt_Some _ _ _ Hb) as Hil.
    assert (if ok && b return Prop then ∀ j, j ∈ i :: got → T j else ∃ j, (j < length results)%nat ∧ ¬ T j) as Hok'.
    { destruct ok, b; simpl; [|exists i; naive_solver|done..]. intros j [->|Hj]%elem_of_cons; naive_solver. }
    assert (NoDup (i :: got)) as Hn' by by constructor.
    assert (∀ j, j ∈ i :: got → (j < length results)%nat) as Hlt' by (intros j [->|Hj]%elem_of_cons; auto).
    destruct (negb (ok && b) && negb computeInfo) eqn:Hstop; [|destruct (Z.geb_spec (count + 1) (len results)) as [Hge|Hlt2]].
    + injection Hr as <- <-. destruct (ok && b); [done|]. by split_and!.
    + injection Hr as <- <-. split_and!; [intros He; by rewrite He in Hok'| |done].
      intros He _ j Hj. rewrite He in Hok'. apply Hok'.
      assert (i :: got ≡ₚ seq 0 (length results)) as ->; [|by apply elem_of_seq; lia].
      apply submseteq_length_Permutation; [|rewrite length_seq; simpl; lia].
      apply NoDup_submseteq; [done|]. intros x Hx. apply elem_of_seq. specialize (Hlt' x Hx). lia.
    + destruct (IH (i :: got) (count + 1) (ok && b)) as (H1 & H2 & H3); try done.
      * intros j c Hj. apply Hright. by right.
      * simpl. lia.
      * split_and!; [done..|]. intros Ht. destruct (H3 Ht). split; [done|by right].
  - destruct timer; [|done]. injection Hr as <- <-. split_and!; [|done|intros _; split; [done|left]].
    intros ->. done.
Qed.

(** When the answers arrive one after the other it does leave. *)
Lemma select_loop_returns results computeInfo timer l got count ok :
  (0 < length l)%nat → count = len got → l ++ got ≡ₚ seq 0 (length results) →
  ∃ r, select_loop results computeInfo timer (ArriveResult <$> l) got count ok = Some r.
Proof.
  revert got count ok. induction l as [|i l IH]; intros got count ok Hl Hc Hp; simpl in *; [lia|].
  assert (NoDup (i :: l ++ got)) as Hn by (rewrite Hp; apply NoDup_seq).
  assert (i ∈ seq 0 (length results)) as Hi by (rewrite <-Hp; left). apply elem_of_seq in Hi.
  apply list.NoDup_cons in Hn as [Hig _]. rewrite decide_False by set_solver.
  destruct (lookup_lt_is_Some_2 results i) as [b ->]; [lia|]. simpl.
  destruct (negb (ok && b) && negb computeInfo); [eauto|].
  destruct (Z.geb_spec (count + 1) (len results)) as [|Hlt]; [eauto|].
  apply IH; [|simpl; lia|by rewrite <-Permutation_middle].
  apply Permutation_length in Hp. rewrite length_seq in Hp. simpl in Hp. rewrite length_app in Hp. lia.
Qed.

(** ** The answers and the result *)

Lemma search_turns_mono N N' r r' : (N ≤ N')%nat → (r ≤ r')%nat → (search_turns N r ≤ search_turns N' r')%nat.
Proof.
  intros HN Hr. revert r' Hr. induction r as [|r IH]; intros r' Hr; simpl; [lia|].
  destruct r' as [|r']; [lia|]. simpl. apply Nat.mul_le_mono; [done|]. specialize (IH r' ltac:(lia)). lia.
Qed.

Section parallel.
Context {V St : Type} (model : Model V St).
Context (eqf : St → St → bool) (Heqf : Equal model = Some eqf) (Hcmp : comparable model eqf).
Context (fuel : nat) (computeInfo : bool) (timeout : Z) (kills : nat → nat → bool) (order : SetOrder).
Context (Horder : ∀ i l, order i l ≡ₚ l).

(** A part the checker can decide with this fuel. *)
Record checkable (h : list (entry V)) (ops : list (Operation V)) : Prop := {
  ch_entries : entries_of h ops;
  ch_steps : ∀ st o, o ∈ ops → is_Some (Step model st (Input o) (Output o));
  ch_fuel : (S (search_turns (length h) (length ops)) ≤ fuel)%nat
}.

(** What a goroutine sends and records. *)
Definition run_ok (kill : nat → bool) (ops : list (Operation V)) (r : bool * Search V St) : Prop :=
  recorded_ok model ops r.2
  ∧ ((∀ k, kill k = false) → (r.1 = true ↔ linearizable model ops)).

Lemma runs_spec (parts : list (list (entry V))) opss :
  Forall2 checkable parts opss →
  ∃ runs, mapM (λ p : nat * list (entry V), checkSingle model fuel p.2 computeInfo (kills p.1)) (imap pair parts) = Some runs
    ∧ length runs = length opss
    ∧ ∀ i r, runs !! i = Some r → ∃ ops, opss !! i = Some ops ∧ run_ok (kills i) ops r.
Proof.
  intros HF. assert (∀ i h ops, parts !! i = Some h → opss !! i = Some ops →
    ∃ r, checkSingle model fuel h computeInfo (kills i) = Some r ∧ run_ok (kills i) ops r) as Hone.
  { intros i h ops Hh Hops. destruct (Forall2_lookup_lr _ _ _ _ _ _ HF Hh Hops) as [He Hs Hfuel].
    destruct (checkSingle_result model h ops He eqf Heqf Hcmp Hs computeInfo fuel (kills i) Hfuel) as (ok & s & Hr & Hrec & Hres).
    exists (ok, s). split; [done|]. split; [done|]. simpl. intros Hk. destruct ok; [naive_solver|].
    split; [done|]. destruct Hres as [|[x Hx]]; [done|]. by rewrite Hk in Hx. }
  assert (is_Some (mapM (λ p : nat * list (entry V), checkSingle model fuel p.2 computeInfo (kills p.1)) (imap pair parts))) as [runs Hruns].
  { apply mapM_is_Some_2, list.Forall_forall. intros x (i & h & -> & Hh)%elem_of_lookup_imap.
    destruct (Forall2_lookup_l _ _ _ _ _ HF Hh) as (ops & Hops & _). simpl.
    destruct (Hone i h ops Hh Hops) as (r & -> & _). by eexists. }
  exists runs. split; [done|]. pose proof Hruns as HF2. apply mapM_Some_1 in HF2. split.
  - apply Forall2_length in HF2. rewrite length_imap in HF2. apply Forall2_length in HF. congruence.
  - intros i r Hi. destruct (Forall2_lookup_r _ _ _ _ _ HF2 Hi) as (p & Hp & Hr).
    rewrite list_lookup_imap in Hp. destruct (parts !! i) as [h|] eqn:Hh; simpl in Hp; [|done]. injection Hp as <-. simpl in Hr.
    destruct (Forall2_lookup_l _ _ _ _ _ HF Hh) as (ops & Hops & _). exists ops. split; [done|].
    destruct (Hone i h ops Hh Hops) as (r' & Hr' & Hok). congruence.
Qed.

(** The sequences reported for a part begin linearizations of it. *)
Lemma partials_spec ord ops (s : Search V St) :
  (∀ l, ord l ≡ₚ l) → recorded_ok model ops s →
  ∃ l, partials ord s = Some l ∧ ∀ ids, ids ∈ l → ∃ st, partial model ops ids st.
Proof.
  intros Hord [_ Hok]. unfold partials.
  assert (∀ p, p ∈ ord (remove_dups (omap (λ p, p) (longest s))) →
    ∃ ids, seqs s !! p = Some ids ∧ ∃ st, partial model ops ids st) as Hp.
  { intros p. rewrite Hord, elem_of_remove_dups, list_elem_of_omap. intros (o & Ho & ->).
    apply list_elem_of_lookup in Ho as [k Hk]. destruct (Hok k p Hk) as (ids & ? & _ & ?). eauto. }
  destruct (mapM_is_Some_2 (λ p, seqs s !! p) (ord (remove_dups (omap (λ p, p) (longest s))))) as [l Hl].
  { apply list.Forall_forall. intros p Hin. destruct (Hp p Hin) as (ids & Hs & _). by exists ids. }
  exists l. split; [done|]. intros ids [i Hi]%list_elem_of_lookup. apply mapM_Some_1 in Hl.
  destruct (Forall2_lookup_r _ _ _ _ _ Hl Hi) as (p & Hpi & Hs).
  destruct (Hp p) as (ids' & Hs' & Hpa); [by eapply list_elem_of_lookup_2|]. rewrite Hs in Hs'. by injection Hs' as <-.
Qed.

Lemma checkParallel_result parts opss arrivals :
  Forall2 checkable parts opss →
  (∀ i, ArriveResult i ∈ arrivals → ∀ k, kills i k = false) →
  ∀ res info, checkParallel fuel model parts computeInfo timeout kills arrivals order = Some (res, info) →
  (res = Ok → ∀ i ops, opss !! i = Some ops → linearizable model ops)
  ∧ (res = Illegal → ∃ i ops, opss !! i = Some ops ∧ ¬ linearizable model ops)
  ∧ (res = Unknown → 0 < timeout ∧ ArriveTimeout ∈ arrivals)
  ∧ (∀ i l ops ids, partialLinearizations info !! i = Some l → opss !! i = Some ops → ids ∈ l → ∃ st, partial model ops ids st).
Proof.
  intros HF Hkill res info. unfold checkParallel. destruct (runs_spec parts opss HF) as (runs & -> & Hlen & Hruns). simpl.
  destruct (select_loop runs.*1 computeInfo (timeout >? 0) arrivals [] 0 true) as [[ok timedOut]|] eqn:Hsel; simpl; [|done].
  apply (select_loop_spec (λ i, ∃ ops, opss !! i = Some ops ∧ linearizable model ops)) in Hsel;
    [|intros i b Hi Hb|constructor|intros i Hi; by inversion Hi|done|intros i Hi; by inversion Hi].
  2:{ apply list_lookup_fmap_Some in Hb as (r & -> & Hr). destruct (Hruns i r Hr) as (ops & Hops & _ & Hiff).
      rewrite (Hiff (Hkill i Hi)). split; [eauto|]. intros (ops' & ? & ?). congruence. }
  destruct Hsel as (H1 & H2 & H3). rewrite length_fmap, Hlen in H1, H2.
  destruct (if computeInfo then _ else _) as [inf|] eqn:Hinfo; simpl; [|done]. intros Hres.
  assert (res = (if negb ok then Illegal else if timedOut then Unknown else Ok) ∧ info = inf) as [-> ->] by naive_solver.
  clear Hres. split_and!.
  - intros He i ops Hops. destruct ok, timedOut; try done.
    destruct (H2 eq_refl eq_refl i) as (ops' & ? & ?); [by eapply lookup_lt_Some|congruence].
  - intros He. destruct ok; [by destruct timedOut|]. destruct (H1 eq_refl) as (i & Hi & Hn).
    destruct (lookup_lt_is_Some_2 opss i Hi) as [ops Hops]. exists i, ops. split; [done|]. intros Hl. apply Hn. eauto.
  - intros He. destruct ok, timedOut; try done. destruct (H3 eq_refl) as [Ht ?]. split; [lia|done].
  - intros i l ops ids Hi Hops Hids. destruct computeInfo; [|by injection Hinfo as <-].
    destruct (mapM _ (imap pair runs)) as [ps|] eqn:Hps; simpl in Hinfo; [|done]. injection Hinfo as <-. simpl in Hi.
    apply mapM_Some_1 in Hps. destruct (Forall2_lookup_r _ _ _ _ _ Hps Hi) as (x & Hx & Hl).
    rewrite list_lookup_imap in Hx. destruct (runs !! i) as [r|] eqn:Hr; simpl in Hx; [|done]. injection Hx as <-. simpl in Hl.
    destruct (Hruns i r Hr) as (ops' & Hops' & Hrec & _). rewrite Hops in Hops'. injection Hops' as <-.
    destruct (partials_spec (order i) ops r.2 (Horder i) Hrec) as (l' & Hl' & Hpa). rewrite Hl in Hl'. injection Hl' as <-.
    by apply Hpa.
Qed.

(** A verbose check returns the parts with a list of sequences for each. *)
Lemma checkParallel_info parts opss arrivals res info :
  Forall2 checkable parts opss → computeInfo = true →
  checkParallel fuel model parts computeInfo timeout kills arrivals order = Some (res, info) →
  info_history info = parts ∧ length (partialLinearizations info) = length parts.
Proof.
  intros HF Hinfo. unfold checkParallel. destruct (runs_spec parts opss HF) as (runs & -> & Hlen & _). simpl.
  destruct (select_loop _ _ _ _ _ _ _) as [[ok timedOut]|]; simpl; [|done]. rewrite Hinfo.
  destruct (mapM _ (imap pair runs)) as [ps|] eqn:Hps; simpl; [|done]. intros [= _ <-]. split; [done|]. simpl.
  apply length_mapM in Hps. rewrite length_imap in Hps. apply Forall2_length in HF. congruence.
Qed.

(** It returns when all answers arrive. *)
Lemma checkParallel_returns parts opss l :
  Forall2 checkable parts opss → (0 < length parts)%nat → l ≡ₚ seq 0 (length parts) →
  is_Some (checkParallel fuel model parts computeInfo timeout kills (ArriveResult <$> l) order).
Proof.
  intros HF Hpos Hl. unfold checkParallel. destruct (runs_spec parts opss HF) as (runs & -> & Hlen & Hruns). simpl.
  pose proof HF as Hl2. apply Forall2_length in Hl2.
  destruct (select_loop_returns runs.*1 computeInfo (timeout >? 0) l [] 0 true) as [[ok timedOut] ->].
  { apply Permutation_length in Hl. rewrite length_seq in Hl. lia. }
  { done. }
  { rewrite app_nil_r, Hl, length_fmap, Hlen, Hl2. done. }
  simpl. destruct computeInfo; simpl; [|by eexists].
  destruct (mapM_is_Some_2 (λ p : nat * (bool * Search V St), partials (order p.1) p.2.2) (imap pair runs)) as [ps ->]; [|by eexists].
  apply list.Forall_forall. intros x (i & r & -> & Hr)%elem_of_lookup_imap. simpl.
  destruct (Hruns i r Hr) as (ops & _ & Hrec & _). destruct (partials_spec (order i) ops r.2 (Horder i) Hrec) as (l' & -> & _). by eexists.
Qed.
End parallel.

(** ** Checking key/value histories *)

Section kv.
Context `{TimeSort}.
Implicit Types (history : list (Operation KvValue)).

(** Turns enough for any part of a history. *)
Definition enough_fuel {V} (history : list (Operation V)) : nat :=
  S (search_turns (2 * length history) (length history)).

Lemma ranked_step_ok {St} (m : Model KvValue St) h p :
  (∀ st o, o ∈ p → is_Some (Step m st (Input o) (Output o))) →
  ∀ st o, o ∈ ranked h p → is_Some (Step m st (Input o) (Output o)).
Proof.
  intros Hp st o' [i (o & Ho & ->)%ranked_lookup]%list_elem_of_lookup. simpl. apply Hp. by eapply list_elem_of_lookup_2.
Qed.

Lemma part_checkable {St} (m : Model KvValue St) fuel history p :
  well_timed history → (∀ st o, o ∈ history → is_Some (Step m st (Input o) (Output o))) →
  (enough_fuel history ≤ fuel)%nat → (∀ o, o ∈ p → o ∈ history) → (length p ≤ length history)%nat →
  checkable m fuel (makeEntries p) (ranked (makeEntries p) p).
Proof.
  intros Hw Hs Hf Hsub Hlen. assert (well_timed p) as Hwp by (intros a b Ha Hb; apply Hw; auto).
  pose proof (ranked_entries p Hwp) as He. split; [done| |].
  - apply ranked_step_ok. eauto.
  - etrans; [|exact Hf]. apply le_n_S. rewrite (eo_length _ _ He). unfold ranked. rewrite length_imap.
    apply search_turns_mono; lia.
Qed.

Lemma kv_parts fuel history :
  Forall well_typed history → well_timed history → (enough_fuel history ≤ fuel)%nat →
  ∃ parts, KvPartition history = Some parts
    ∧ Forall2 (checkable (fillDefault KvModel) fuel) (makeEntries <$> parts) ((λ p, ranked (makeEntries p) p) <$> parts)
    ∧ (linearizable KvMapModel history ↔
         ∀ i p, ((λ p, ranked (makeEntries p) p) <$> parts) !! i = Some p → linearizable (fillDefault KvModel) p)
    ∧ (history ≠ [] → (0 < length parts)%nat).
Proof.
  intros Ht Hw Hf. pose proof Ht as Ht'. rewrite list.Forall_forall in Ht'.
  assert (∀ o, o ∈ history → Call o ≤ Return o) as Hret by (intros o Ho; by destruct (Hw o o Ho Ho)).
  destruct (KvPartition_spec history) as (parts & keys & Hp & -> & Hnd & Hkeys); [intros o Ho; by apply Ht'|].
  assert (∀ k o, o ∈ of_key k history → o ∈ history) as Hsub by (intros k o Ho; by apply list_elem_of_filter in Ho as [_ ?]).
  assert (∀ k, well_timed (of_key k history)) as Hwk by (intros k a b Ha Hb; apply Hw; eauto).
  exists ((λ k, of_key k history) <$> keys). split_and!; [done| | |].
  - rewrite <-!list_fmap_compose. apply Forall2_fmap, Forall2_same_length_lookup_2; [done|].
    intros i k k' Hk Hk'. rewrite Hk in Hk'. injection Hk' as <-. simpl.
    apply (part_checkable _ _ history); [done| |done|apply Hsub|apply length_filter].
    intros st o Ho. by apply KvStep_typed, Ht'.
  - rewrite (linearizable_by_key keys) by done. rewrite <-list_fmap_compose. split.
    + intros Hlin i p (k & -> & Hk)%list_lookup_fmap_Some. apply (ranked_linearizable KvModel); [done|].
      apply Hlin. by eapply list_elem_of_lookup_2.
    + intros Hlin k [i Hi]%list_elem_of_lookup. apply ranked_linearizable; [done|].
      apply (Hlin i). by rewrite list_lookup_fmap, Hi.
  - intros Hne. rewrite length_fmap. destruct history as [|o history]; [done|].
    destruct (Ht' o ltac:(left)) as [[i Hi] _].
    assert (in_Key i ∈ keys) as Hk.
    { apply Hkeys. rewrite of_key_cons. unfold op_key. rewrite Hi. simpl. by rewrite decide_True. }
    destruct keys; [by inversion Hk|simpl; lia].
Qed.

Lemma kv_comparable : comparable (fillDefault KvModel) ShallowEqual.
Proof.
  intros s1 s2 i o s1' Heq%bool_decide_eq_true_1 Hs. subst s2. exists s1'. split; [done|]. by apply bool_decide_eq_true_2.
Qed.

(** What an answer means. *)
Lemma check_kv_answer fuel history verbose timeout kills arrivals order res info :
  Forall well_typed history → well_timed history → (enough_fuel history ≤ fuel)%nat →
  (∀ i l, order i l ≡ₚ l) → (∀ i, ArriveResult i ∈ arrivals → ∀ k, kills i k = false) →
  checkOperations fuel KvModel history verbose timeout kills arrivals order = Some (res, info) →
  (res = Ok → linearizable KvMapModel history)
  ∧ (res = Illegal → ¬ linearizable KvMapModel history)
  ∧ (res = Unknown → 0 < timeout ∧ ArriveTimeout ∈ arrivals).
Proof.
  intros Ht Hw Hf Hord Hk. unfold checkOperations. simpl.
  destruct (kv_parts fuel history Ht Hw Hf) as (parts & -> & Hch & Hlin & _). simpl. intros Hres.
  destruct (checkParallel_result (fillDefault KvModel) ShallowEqual eq_refl kv_comparable fuel verbose timeout kills order
    Hord _ _ arrivals Hch Hk res info Hres) as (H1 & H2 & H3 & _).
  rewrite Hlin. split_and!; [done| |done]. intros Hi Hall. destruct (H2 Hi) as (i & p & Hp & Hn). by apply Hn, (Hall i).
Qed.

(** C9. The checker decides linearizability of key/value histories whose operations hold the
    types the model asserts, return no earlier than they are called, and of which none
    returns at the very time at which one is called: whatever the order in which the parts'
    answers arrive and whenever the timer fires, [Ok] means that the history is
    linearizable against the map of all keys, [Illegal] that it is not, and [Unknown] that
    the timer fired.  (At such a tie the sort may put the return first and two concurrent
    operations in order: [tie_rejected].)  The answers used come from searches that never
    saw the kill flag, which is set only when the loop is left. *)
Theorem check_kv_correct fuel history verbose timeout kills arrivals order res info :
  Forall well_typed history → well_timed history → (enough_fuel history ≤ fuel)%nat →
  (∀ i l, order i l ≡ₚ l) → (∀ i, ArriveResult i ∈ arrivals → ∀ k, kills i k = false) →
  checkOperations fuel KvModel history verbose timeout kills arrivals order = Some (res, info) →
  (res = Ok → linearizable KvMapModel history)
  ∧ (res = Illegal → ¬ linearizable KvMapModel history)
  ∧ (res = Unknown → 0 < timeout ∧ ArriveTimeout ∈ arrivals).
Proof. apply check_kv_answer. Qed.

(** C29. The check ends: once the answers of all parts of a history that is not empty have
    arrived, in any order, it has returned, and without a timer its answer is yes or no,
    and right.  The operations hold the types the model asserts, return no earlier than
    they are called, and none returns at the very time at which one is called. *)
Theorem check_kv_returns fuel history parts l order :
  Forall well_typed history → well_timed history → (enough_fuel history ≤ fuel)%nat → history ≠ [] →
  KvPartition history = Some parts → l ≡ₚ seq 0 (length parts) → (∀ i l, order i l ≡ₚ l) →
  ∃ b, CheckOperations fuel KvModel history (λ _ _, false) (ArriveResult <$> l) order = Some b
    ∧ (b = true ↔ linearizable KvMapModel history).
Proof.
  intros Ht Hw Hf Hne Hp Hl Hord.
  destruct (kv_parts fuel history Ht Hw Hf) as (parts' & Hp' & Hch & Hlin & Hpos).
  rewrite Hp in Hp'. injection Hp' as <-.
  destruct (checkParallel_returns (fillDefault KvModel) ShallowEqual eq_refl kv_comparable fuel false 0 (λ _ _, false) order
    Hord _ _ l Hch) as [[res info] Hres]; [by rewrite length_fmap; apply Hpos|by rewrite length_fmap|].
  destruct (checkParallel_result (fillDefault KvModel) ShallowEqual eq_refl kv_comparable fuel false 0 (λ _ _, false) order
    Hord _ _ (ArriveResult <$> l) Hch ltac:(done) res info Hres) as (H1 & H2 & H3 & _).
  exists (bool_decide (res = Ok)). split.
  - unfold CheckOperations, checkOperations. simpl. rewrite Hp. simpl. by rewrite Hres.
  - rewrite bool_decide_eq_true, Hlin. destruct res; split; try done.
    + destruct (H3 eq_refl). lia.
    + intros Hall. destruct (H2 eq_refl) as (i & p & Hpi & Hn). destruct Hn. by apply (Hall i).
Qed.

(** The empty history has no parts: no answer ever arrives, and without a timer the check
    does not return. *)
Lemma empty_history_blocks fuel kills arrivals order :
  CheckOperations fuel KvModel [] kills arrivals order = None.
Proof.
  unfold CheckOperations, checkOperations. simpl. by destruct arrivals as [|[i|] arrivals].
Qed.
End kv.

(** ** Checking histories of events *)

Lemma fillDefault_spec {V St} `{EqDecision St} (m : Model V St) :
  Init (fillDefault m) = Init m ∧ Step (fillDefault m) = Step m.
Proof. by destruct m as [[p|] [pe|] i st [eq|]]. Qed.

Lemma linearizable_same {V St} (m m' : Model V St) ops :
  Init m = Init m' → Step m = Step m' → linearizable m ops → linearizable m' ops.
Proof.
  intros HI HS (l & Hl & Ho & Hleg). exists l. split_and!; [done..|]. rewrite <-HI.
  clear Hl Ho. revert Hleg. generalize (Init m). induction l as [|o l IH]; intros s; simpl; [done|].
  rewrite HS. intros (s' & Hs & Hleg). exists s'. split; [done|]. by apply IH.
Qed.

(** A history of events, with ids of any kind, is accepted exactly when the operations
    whose calls and returns it lists are linearizable, for a model that does not partition
    events and compares states with [==]. *)
Theorem check_events_correct {V St} `{EqDecision St} (model : Model V St) events ops name fuel order :
  events_of events ops name → PartitionEvent model = None → Equal model = None →
  (∀ st o, o ∈ ops → is_Some (Step model st (Input o) (Output o))) →
  (S (search_turns (length events) (length ops)) ≤ fuel)%nat → (∀ i l, order i l ≡ₚ l) →
  ∃ b, CheckEvents fuel model events (λ _ _, false) [ArriveResult 0] order = Some b
    ∧ (b = true ↔ linearizable model ops).
Proof.
  intros Hev Hpe Heq Hs Hf Hord. destruct (events_become_entries events ops name Hev) as (ops' & Hperm & He).
  destruct (fillDefault_spec model) as [HI HS]. set (m := fillDefault model) in *.
  assert (Equal m = Some ShallowEqual) as Heqf.
  { unfold m. clear -Hpe Heq. destruct model as [p pe i st eq]. simpl in *. subst. by destruct p. }
  assert (PartitionEvent m = Some NoPartitionEvent) as Hpart.
  { unfold m. clear -Hpe Heq. destruct model as [p pe i st eq]. simpl in *. subst. by destruct p. }
  assert (comparable m ShallowEqual) as Hcmp.
  { intros s1 s2 i o s1' H12%bool_decide_eq_true_1 Hst. subst s2. exists s1'. split; [done|]. by apply bool_decide_eq_true_2. }
  assert (Forall2 (checkable m fuel) [convertEntries (renumber events)] [ops']) as Hch.
  { constructor; [|constructor]. split; [done| |].
    - intros st o Ho. rewrite HS. apply Hs. by rewrite <-Hperm.
    - rewrite (eo_length _ _ He). rewrite (ev_length _ _ _ Hev) in Hf. by rewrite (Permutation_length Hperm). }
  destruct (checkParallel_returns m ShallowEqual Heqf Hcmp fuel false 0 (λ _ _, false) order Hord _ _ [0%nat] Hch)
    as [[res info] Hres]; [simpl; lia|done|].
  destruct (checkParallel_result m ShallowEqual Heqf Hcmp fuel false 0 (λ _ _, false) order Hord _ _
    (ArriveResult <$> [0%nat]) Hch ltac:(done) res info Hres) as (H1 & H2 & H3 & _).
  exists (bool_decide (res = Ok)). split.
  - unfold CheckEvents, checkEvents. fold m. rewrite Hpart. simpl. simpl in Hres. by rewrite Hres.
  - rewrite bool_decide_eq_true, <-Hperm. split.
    + intros Hr. apply (linearizable_same m); [done..|]. by apply (H1 Hr 0%nat).
    + intros Hl. destruct res; [destruct (H3 eq_refl); lia|done|].
      destruct (H2 eq_refl) as ([|i] & p & Hp & Hn); [|done]. injection Hp as <-. destruct Hn.
      by apply (linearizable_same model).
Qed.

(** ** Witnesses *)
Module CheckDemo.
Import PorcDemo.
Import MergeTimeSort.

Definition run (history : list (Operation KvValue)) (arrivals : list Arrival) :
    option (CheckResult * linearizationInfo KvValue) :=
  checkOperations (enough_fuel history) KvModel history false 1 (λ _ _, false) arrivals (λ _ l, l).

Lemma run_result history arrivals res :
  fst <$> run history arrivals = Some res → ∃ info, run history arrivals = Some (res, info).
Proof. intros ([? info] & -> & ->)%fmap_Some. by exists info. Qed.

Lemma timed_dec (history : list (Operation KvValue)) :
  Forall (λ a, Forall (λ b, Call a ≤ Return a ∧ Return a ≠ Call b) history) history → well_timed history.
Proof.
  intros HF a b Ha Hb. rewrite list.Forall_forall in HF. specialize (HF a Ha). rewrite list.Forall_forall in HF. by apply HF.
Qed.

Lemma stale_timed : well_timed stale.
Proof. apply timed_dec. repeat constructor; simpl; lia. Qed.
Lemma fine_timed : well_timed fine.
Proof. apply timed_dec. repeat constructor; simpl; lia. Qed.
Lemma stale_typed : Forall well_typed stale.
Proof. repeat constructor; by eexists. Qed.
End CheckDemo.

Import MergeTimeSort.

(** A read called at the time at which a write returns overlaps it for the history's
    order, so it may miss the write; the sort keeps the return in front, and the checker
    rejects the history. *)
Lemma tie_rejected :
  let tied := [PorcDemo.put "a" "x" 0 5; PorcDemo.get "a" "" 5 7]%string in
  Forall well_typed tied ∧ (∀ o, o ∈ tied → Call o < Return o) ∧ linearizable KvMapModel tied
  ∧ CheckOperations (enough_fuel tied) KvModel tied (λ _ _, false) [ArriveResult 0] (λ _ l, l) = Some false.
Proof.
  intros tied. split_and!.
  - repeat constructor; by eexists.
  - apply list.Forall_forall. repeat constructor; done.
  - exists [PorcDemo.get "a" "" 5 7; PorcDemo.put "a" "x" 0 5]%string. split_and!.
    + apply Permutation_swap.
    + intros [|[|i]] [|[|j]] a b Hij Ha Hb; simplify_eq/=; try lia; done.
    + eexists. split; [vm_compute; reflexivity|]. eexists. split; [vm_compute; reflexivity|done].
  - vm_compute. reflexivity.
Qed.

(** A read that goes back to the old value is found out, whichever part answers first; a
    history that is fine is accepted when both parts have answered. *)
Lemma check_kv_correct_witness :
  ¬ linearizable KvMapModel PorcDemo.stale ∧ linearizable KvMapModel PorcDemo.fine.
Proof.
  destruct (CheckDemo.run_result PorcDemo.stale [ArriveResult 1; ArriveResult 0] Illegal ltac:(vm_compute; reflexivity)) as [i1 H1].
  destruct (CheckDemo.run_result PorcDemo.fine [ArriveResult 1; ArriveResult 0] Ok ltac:(vm_compute; reflexivity)) as [i2 H2].
  split.
  - apply (check_kv_correct _ PorcDemo.stale _ _ _ _ _ _ i1 CheckDemo.stale_typed CheckDemo.stale_timed (le_n _)
      (λ _ _, Permutation_refl _) (λ _ _ _, eq_refl) H1). reflexivity.
  - apply (check_kv_correct _ PorcDemo.fine _ _ _ _ _ _ i2 PorcDemo.fine_typed CheckDemo.fine_timed (le_n _)
      (λ _ _, Permutation_refl _) (λ _ _ _, eq_refl) H2). reflexivity.
Defined.

Lemma check_kv_returns_witness :
  ∃ b, CheckOperations (enough_fuel PorcDemo.fine) KvModel PorcDemo.fine (λ _ _, false)
    (ArriveResult <$> [1; 0]%nat) (λ _ l, l) = Some b ∧ (b = true ↔ linearizable KvMapModel PorcDemo.fine).
Proof.
  assert (∃ parts, KvPartition PorcDemo.fine = Some parts ∧ length parts = 2%nat) as (parts & Hp & Hlen)
    by (eexists; split; vm_compute; reflexivity).
  apply (check_kv_returns (enough_fuel PorcDemo.fine) PorcDemo.fine parts [1; 0]%nat (λ _ l, l)
    PorcDemo.fine_typed CheckDemo.fine_timed (le_n _)); [done|exact Hp| |intros; reflexivity].
  rewrite Hlen. apply Permutation_swap.
Defined.

(** Two events of one put, with an id of the client's. *)
Lemma check_events_correct_witness :
  ∃ b, CheckEvents 20 KvModel
    [MkEvent 0 CallEvent (Input (PorcDemo.put "a" "x" 0 1)) 7; MkEvent 0 ReturnEvent (Output (PorcDemo.put "a" "x" 0 1)) 7]
    (λ _ _, false) [ArriveResult 0] (λ _ l, l) = Some b
    ∧ (b = true ↔ linearizable KvModel [PorcDemo.put "a" "x" 0 1]).
Proof.
  apply (check_events_correct KvModel _ [PorcDemo.put "a" "x" 0 1] (λ _, 7)); try reflexivity.
  - split; [done| | |].
    + intros i j Hi Hj _. simpl in Hi, Hj. lia.
    + intros [|i] o Hi; [|done]. injection Hi as <-. simpl. split; [lia|]. split; eexists; done.
    + intros [|[|p]] e Hp; [| |done]; injection Hp as <-; exists 0%nat, (PorcDemo.put "a" "x" 0 1); done.
  - intros st o Ho. apply list_elem_of_singleton in Ho as ->. apply KvStep_typed. split; by eexists.
  - vm_compute. lia.
Defined.
