(* ===== verification/PorcVisual.v ===== *)
(** * Porcupine: what the visualization shows ([porcupine/visualization.go])

    The data of the page: the operations with their descriptions, the partial
    linearizations with the states they go through, and for each operation the longest one
    it is part of.  The template of the page and its JSON are left out.  The functions of a
    model that describe operations and states are arguments; for the key/value model they
    are [KvDescribeOperation] and the default of [fillDefault], which formats a state with
    [%v], for a string the string itself. *)
From S2P Require Import Prelude PorcBitset PorcModel PorcList PorcOrder PorcEvents PorcCheck PorcKv PorcSearch PorcParallel.

Record historyElement := MkHistoryElement { he_ClientId : Z; Start : Z; End_ : Z; Description : string }.
#[export] Instance historyElement_eta : Eta historyElement := λ e,
  MkHistoryElement (he_ClientId e) (Start e) (End_ e) (Description e).

Record linearizationStep := MkStep { Index : Z; StateDescription : string }.

Record partitionVisualizationData := MkData {
  History : list historyElement;
  PartialLinearizations : list (list linearizationStep);
  Largest : gmap Z Z
}.

(** [sort.Slice] by decreasing length: the order it gives to sequences of the same length is
    its own. *)
Class LengthSort := {
  sort_longest : list (list Z) → list (list Z);
  sort_longest_perm l : sort_longest l ≡ₚ l;
  sort_longest_sorted l : StronglySorted (λ a b : list Z, (length b ≤ length a)%nat) (sort_longest l)
}.

Section visual.
Context {V St : Type} `{LengthSort}.
Context (DescribeOperation : iface V → iface V → option string) (DescribeState : St → string).
Implicit Types (model : Model V St) (e : entry V) (h : list (entry V)) (ids : list Z).

(** The elements of the history, [callValue] and [returnValue]. *)
Record Filled := MkFilled { f_history : list historyElement; callValue : gmap Z (iface V); returnValue : gmap Z (iface V) }.

Definition elem_new : historyElement := MkHistoryElement 0 0 0 ""%string.

(** A missing value of a map of interfaces is nil. *)
Definition map_value (m : gmap Z (iface V)) (i : Z) : iface V := default None (m !! i).

Definition fill_entry (f : Filled) e : option Filled :=
  elem ← (f_history f).[id e];
  if kind e then
    desc ← DescribeOperation (map_value (callValue f) (id e)) (value e);
    let elem := elem <| End_ := time e |> <| Description := desc |> in
    history ← slice_set (f_history f) (id e) elem;
    Some (MkFilled history (callValue f) (<[id e := value e]> (returnValue f)))
  else
    let elem := elem <| he_ClientId := clientId e |> <| Start := time e |> in
    history ← slice_set (f_history f) (id e) elem;
    Some (MkFilled history (<[id e := value e]> (callValue f)) (returnValue f)).

Definition fill h : option Filled :=
  foldl (λ acc e, f ← acc; fill_entry f e) (Some (MkFilled (replicate (length h / 2) elem_new) ∅ ∅)) h.

(** One partial linearization, [largest] being [largestIndex] and [largestSize]: the steps of
    the model must succeed, or the code panics. *)
Fixpoint visual_loop model (f : Filled) (i size : Z) (state : St) ids (largest : gmap Z Z * gmap Z Z) :
    option (list linearizationStep * (gmap Z Z * gmap Z Z)) :=
  match ids with
  | [] => Some ([], largest)
  | histId :: ids =>
      '(ok, state) ← Step model state (map_value (callValue f) histId) (map_value (returnValue f) histId);
      if negb ok then None else
      let stateDesc := DescribeState state in
      let '(largestIndex, largestSize) := largest in
      let largest :=
        if default 0 (largestSize !! histId) <? size
        then (<[histId := i]> largestIndex, <[histId := size]> largestSize) else largest in
      '(steps, largest) ← visual_loop model f i size state ids largest;
      Some (MkStep histId stateDesc :: steps, largest)
  end.

Fixpoint visual_partials model (f : Filled) (i : Z) (partials : list (list Z)) (largest : gmap Z Z * gmap Z Z) :
    option (list (list linearizationStep) * gmap Z Z) :=
  match partials with
  | [] => Some ([], largest.1)
  | ids :: partials =>
      '(steps, largest) ← visual_loop model f i (len ids) (Init model) ids largest;
      '(more, index) ← visual_partials model f (i + 1) partials largest;
      Some (steps :: more, index)
  end.

Definition visual_partition model h (partials : list (list Z)) : option partitionVisualizationData :=
  f ← fill h;
  '(linearizations, largestIndex) ← visual_partials model f 0 (sort_longest partials) (∅, ∅);
  Some (MkData (f_history f) linearizations largestIndex).

Definition computeVisualizationData `{EqDecision St} model (info : linearizationInfo V) : option (list partitionVisualizationData) :=
  let model := fillDefault model in
  mapM (λ p : nat * list (entry V),
    partials ← partialLinearizations info !! p.1;
    visual_partition model p.2 partials) (imap pair (info_history info)).

(** ** The elements of the history *)

Section fill_spec.
Context `{TimeSort} (ops : list (Operation V)) (Htimed : well_timed ops).
Hypothesis Hdescribed : ∀ o, o ∈ ops → is_Some (DescribeOperation (Input o) (Output o)).

Definition description (o : Operation V) : string := default ""%string (DescribeOperation (Input o) (Output o)).

Definition described (o : Operation V) : historyElement :=
  MkHistoryElement (ClientId o) (Call o) (Return o) (description o).

(** What is known of an operation after the entries [pre]. *)
Definition seen (pre : list (entry V)) (b : bool) (i : nat) : bool := bool_decide ((b, Z.of_nat i) ∈ entry_key <$> pre).

Definition partly_described (pre : list (entry V)) (i : nat) (o : Operation V) : historyElement :=
  MkHistoryElement (if seen pre callEntry i then ClientId o else 0) (if seen pre callEntry i then Call o else 0)
    (if seen pre returnEntry i then Return o else 0)
    (if seen pre returnEntry i then description o else ""%string).

Record fill_inv (pre : list (entry V)) (f : Filled) : Prop := {
  fi_length : length (f_history f) = length ops;
  fi_elem i o : ops !! i = Some o → f_history f !! i = Some (partly_described pre i o);
  fi_call i o : ops !! i = Some o → seen pre callEntry i → callValue f !! Z.of_nat i = Some (Input o);
  fi_return i o : ops !! i = Some o → seen pre returnEntry i → returnValue f !! Z.of_nat i = Some (Output o)
}.

Lemma seen_snoc pre e b i : seen (pre ++ [e]) b i = seen pre b i || bool_decide (entry_key e = (b, Z.of_nat i)).
Proof.
  unfold seen. rewrite fmap_app. change (entry_key <$> [e]) with [entry_key e]. apply eq_true_iff_eq. rewrite orb_true_iff, !bool_decide_eq_true, elem_of_app, list_elem_of_singleton.
  naive_solver.
Qed.

(** An operation's call comes before its return. *)
Lemma call_seen pre rest i o : makeEntries ops = pre ++ return_entry i o :: rest → ops !! i = Some o → seen pre callEntry i.
Proof.
  intros Hh Hi. pose proof (ranked_entries ops Htimed) as Hr.
  destruct (eo_op _ _ Hr i (o <| Call := entry_pos (makeEntries ops) callEntry i |>
    <| Return := entry_pos (makeEntries ops) returnEntry i |>)) as (Hlt & (e & He & Hk & _ & Hid) & _).
  { apply ranked_lookup. by exists o. }
  simpl in Hlt, He.
  assert (entry_pos (makeEntries ops) returnEntry i = len pre) as Hp.
  { eapply entry_pos_spec; [apply makeEntries_keys|rewrite Hh; by apply list_lookup_middle|done]. }
  rewrite Hh in He. rewrite lookup_app_l in He by (rewrite <-Hh; lia).
  apply bool_decide_spec, list_elem_of_fmap. exists e. split; [unfold entry_key; by rewrite Hk, Hid|by eapply list_elem_of_lookup_2].
Qed.

Lemma fill_entry_inv pre e rest f :
  makeEntries ops = pre ++ e :: rest → fill_inv pre f → ∃ f', fill_entry f e = Some f' ∧ fill_inv (pre ++ [e]) f'.
Proof.
  intros Hh [Hlen Helem Hcall Hret].
  assert (e ∈ makeEntries ops) as (i & o & Hi & He)%makeEntries_elem by (rewrite Hh; apply elem_of_app; right; left).
  assert (id e = Z.of_nat i) as Hid by by destruct He as [-> | ->].
  assert ((f_history f).[Z.of_nat i] = Some (partly_described pre i o)) as Hget.
  { unfold slice_get. rewrite (proj2 (Z.leb_le _ _)), Nat2Z.id by lia. by apply Helem. }
  assert (∀ x, slice_set (f_history f) (Z.of_nat i) x = Some (<[i := x]> (f_history f))) as Hset.
  { intros x. unfold slice_set. apply lookup_lt_Some in Hi. rewrite (proj2 (Z.leb_le _ _)), (proj2 (Z.ltb_lt _ _)), Nat2Z.id by lia. done. }
  unfold fill_entry. rewrite Hid, Hget. cbn [mbind option_bind].
  assert (∀ j b, j ≠ i → seen (pre ++ [e]) b j = seen pre b j) as Hother.
  { intros j b Hj. rewrite seen_snoc, bool_decide_false, orb_false_r; [done|]. unfold entry_key. rewrite Hid. intros [= _ Hz]. lia. }
  assert (∀ b, entry_key e = (negb b, Z.of_nat i) → seen (pre ++ [e]) b i = seen pre b i ∧ seen (pre ++ [e]) (negb b) i = true) as Hsame.
  { intros b Hk. rewrite !seen_snoc, Hk. split.
    - rewrite bool_decide_false, orb_false_r; [done|]. by destruct b.
    - by rewrite (bool_decide_true (_ = (negb b, _))), orb_true_r. }
  destruct He as [-> | ->]; cbn [kind value call_entry return_entry].
  - rewrite Hset. cbn [mbind option_bind]. eexists. split; [done|]. destruct (Hsame returnEntry eq_refl) as [Hs1 Hs2]. simpl in Hs2. split; cbn [f_history callValue returnValue].
    + by rewrite length_insert.
    + intros j o' Hj. destruct (decide (j = i)) as [->|Hji].
      * rewrite Hi in Hj. injection Hj as <-. rewrite list_lookup_insert_eq by (rewrite Hlen; by eapply lookup_lt_Some).
        unfold partly_described. by rewrite Hs1, Hs2.
      * rewrite list_lookup_insert_ne by done. rewrite (Helem j o' Hj). unfold partly_described. by rewrite !Hother.
    + intros j o' Hj Hs. destruct (decide (j = i)) as [->|Hji].
      * rewrite Hi in Hj. injection Hj as <-. by rewrite lookup_insert_eq.
      * rewrite lookup_insert_ne by lia. apply Hcall; [done|]. by rewrite Hother in Hs.
    + intros j o' Hj Hs. apply Hret; [done|]. destruct (decide (j = i)) as [->|Hji]; [by rewrite Hs1 in Hs|by rewrite Hother in Hs].
  - destruct (Hsame callEntry eq_refl) as [Hs1 Hs2]. simpl in Hs2. pose proof (call_seen pre rest i o Hh Hi) as Hcs.
    unfold map_value. rewrite (Hcall i o Hi Hcs). change (default None (Some (Input o))) with (Input o).
    destruct (Hdescribed o) as [desc Hdesc]; [by eapply list_elem_of_lookup_2|]. rewrite Hdesc. cbn [mbind option_bind].
    rewrite Hset. cbn [mbind option_bind]. eexists. split; [done|]. split; cbn [f_history callValue returnValue].
    + by rewrite length_insert.
    + intros j o' Hj. destruct (decide (j = i)) as [->|Hji].
      * rewrite Hi in Hj. injection Hj as <-. rewrite list_lookup_insert_eq by (rewrite Hlen; by eapply lookup_lt_Some).
        unfold partly_described, description. rewrite Hs1, Hs2, Hdesc. simpl. by rewrite (Is_true_true_1 _ Hcs).
      * rewrite list_lookup_insert_ne by done. rewrite (Helem j o' Hj). unfold partly_described. by rewrite !Hother.
    + intros j o' Hj Hs. apply Hcall; [done|]. destruct (decide (j = i)) as [->|Hji]; [by rewrite Hs1 in Hs|by rewrite Hother in Hs].
    + intros j o' Hj Hs. destruct (decide (j = i)) as [->|Hji].
      * rewrite Hi in Hj. injection Hj as <-. by rewrite lookup_insert_eq.
      * rewrite lookup_insert_ne by lia. apply Hret; [done|]. by rewrite Hother in Hs.
Qed.

Lemma all_seen b i o : ops !! i = Some o → seen (makeEntries ops) b i.
Proof.
  intros Hi. apply bool_decide_spec, list_elem_of_fmap.
  exists (if b then return_entry i o else call_entry i o). split; [by destruct b|]. apply makeEntries_elem.
  exists i, o. split; [done|]. destruct b; auto.
Qed.

Lemma fill_spec :
  ∃ f, fill (makeEntries ops) = Some f ∧ f_history f = described <$> ops
    ∧ ∀ i o, ops !! i = Some o →
        map_value (callValue f) (Z.of_nat i) = Input o ∧ map_value (returnValue f) (Z.of_nat i) = Output o.
Proof.
  unfold fill. set (f0 := MkFilled _ _ _).
  assert (∀ pre rest, makeEntries ops = pre ++ rest → ∃ f, foldl (λ acc e, f ← acc; fill_entry f e) (Some f0) pre = Some f ∧ fill_inv pre f) as Hpre.
  { induction pre as [|e pre IH] using rev_ind; intros rest Hh.
    - exists f0. split; [done|]. assert (∀ b i, seen [] b i = false) as Hno by (intros; by apply bool_decide_false, not_elem_of_nil).
      assert (length (makeEntries ops) / 2 = length ops)%nat as Hl.
      { rewrite (eo_length _ _ (ranked_entries ops Htimed)). unfold ranked. rewrite length_imap, Nat.mul_comm. by apply Nat.div_mul. }
      split; cbn [f0 f_history callValue returnValue].
      + by rewrite length_replicate.
      + intros i o Hi. rewrite Hl, lookup_replicate_2 by by eapply lookup_lt_Some. unfold partly_described. by rewrite !Hno.
      + intros i o _. by rewrite Hno.
      + intros i o _. by rewrite Hno.
    - rewrite <-app_assoc in Hh. simpl in Hh. destruct (IH _ Hh) as (f & Hf & Hinv).
      destruct (fill_entry_inv pre e rest f Hh Hinv) as (f' & Hf' & Hinv'). exists f'. split; [|done].
      rewrite foldl_app, Hf. done. }
  destruct (Hpre (makeEntries ops) []) as (f & -> & [Hlen Helem Hcall Hret]); [by rewrite app_nil_r|].
  exists f. split_and!; [done| |].
  - apply list_eq_same_length with (n := length ops); [by rewrite length_fmap|done|].
    intros i x y Hi Hx Hy. apply list_lookup_fmap_Some in Hy as (o & -> & Ho). rewrite (Helem i o Ho) in Hx. injection Hx as <-.
    unfold partly_described. by rewrite !(Is_true_true_1 _ (all_seen _ i o Ho)).
  - intros i o Hi. unfold map_value. by rewrite (Hcall i o Hi), (Hret i o Hi) by by eapply all_seen.
Qed.

(** ** The linearizations *)

Definition values_ok (f : Filled) : Prop := ∀ i o, ops !! i = Some o →
  map_value (callValue f) (Z.of_nat i) = Input o ∧ map_value (returnValue f) (Z.of_nat i) = Output o.

(** The steps of a run of the operations [ids] from [st]. *)
Definition shows model (st : St) ids (steps : list linearizationStep) : Prop :=
  Index <$> steps = ids
  ∧ ∀ k s, steps !! k = Some s →
      ∃ st', run model st (op ops <$> take (S k) ids) = Some st' ∧ StateDescription s = DescribeState st'.

(** What the loops have visited: linearization, its size, operation. *)
Definition largest_ok (visited : list (Z * Z * Z)) (largest : gmap Z Z * gmap Z Z) : Prop :=
  (∀ k n x, (k, n, x) ∈ visited → is_Some (largest.2 !! x))
  ∧ (∀ x, is_Some (largest.1 !! x) → is_Some (largest.2 !! x))
  ∧ ∀ x n, largest.2 !! x = Some n → ∃ k, largest.1 !! x = Some k ∧ (k, n, x) ∈ visited
      ∧ ∀ k' n', (k', n', x) ∈ visited → n' ≤ n.

Lemma largest_visit visited largestIndex largestSize i size x :
  0 < size → largest_ok visited (largestIndex, largestSize) →
  largest_ok (visited ++ [(i, size, x)])
    (if default 0 (largestSize !! x) <? size
     then (<[x := i]> largestIndex, <[x := size]> largestSize) else (largestIndex, largestSize)).
Proof.
  intros Hsize (Hsome & Hdom & Hbest). unfold largest_ok in *. simpl in *.
  setoid_rewrite elem_of_app. setoid_rewrite list_elem_of_singleton.
  destruct (Z.ltb_spec (default 0 (largestSize !! x)) size) as [Hlt|Hge]; cbn [fst snd].
  - split_and!.
    + intros k n y [Hv|[= -> -> ->]]; [|rewrite lookup_insert_eq; by eexists].
      destruct (decide (y = x)) as [->|Hy]; [rewrite lookup_insert_eq; by eexists|].
      rewrite lookup_insert_ne by done. by eapply Hsome.
    + intros y. destruct (decide (y = x)) as [->|Hy]; [by rewrite !lookup_insert_eq|rewrite !lookup_insert_ne by done; apply Hdom].
    + intros y n. destruct (decide (y = x)) as [->|Hy].
      * rewrite !lookup_insert_eq. intros [= <-]. exists i. split_and!; [done|by right|].
        intros k' n' [Hv|[= -> ->]]; [|done]. destruct (Hsome _ _ _ Hv) as [n Hn].
        destruct (Hbest x n Hn) as (? & _ & _ & Hle). specialize (Hle _ _ Hv). rewrite Hn in Hlt. simpl in Hlt. lia.
      * rewrite !lookup_insert_ne by done. intros Hn. destruct (Hbest y n Hn) as (k & ? & ? & Hle).
        exists k. split_and!; [done|by left|]. intros k' n' [Hv|[= ? ? ?]]; [by eapply Hle|done].
  - assert (∃ n, largestSize !! x = Some n ∧ size ≤ n) as (n0 & Hn0 & Hle0).
    { destruct (largestSize !! x) as [n|]; simpl in Hge; [by exists n|lia]. }
    split_and!; [|done|].
    + intros k n y [Hv|[= -> -> ->]]; [by eapply Hsome|by exists n0].
    + intros y n Hn. destruct (Hbest y n Hn) as (k & ? & ? & Hle). exists k. split_and!; [done|by left|].
      intros k' n' [Hv|[= -> -> ->]]; [by eapply Hle|]. congruence.
Qed.

Lemma visual_loop_spec model f i size ids st st' visited largest :
  values_ok f → (∀ j, j ∈ ids → known ops j) → run model st (op ops <$> ids) = Some st' → 0 < size →
  largest_ok visited largest →
  ∃ steps largest', visual_loop model f i size st ids largest = Some (steps, largest')
    ∧ shows model st ids steps ∧ largest_ok (visited ++ ((λ x, (i, size, x)) <$> ids)) largest'.
Proof.
  intros Hf Hknown Hrun Hsize. revert st visited largest Hknown Hrun.
  induction ids as [|j ids IH]; intros st visited [largestIndex largestSize] Hknown Hrun Hl.
  { exists [], (largestIndex, largestSize). split_and!; [done|by split|]. by rewrite app_nil_r. }
  rewrite fmap_cons in Hrun. cbn [PorcOrder.run] in Hrun.
  destruct (Hf (Z.to_nat j) (op ops j)) as [Hc Hr]; [apply op_lookup, Hknown; left|].
  rewrite Z2Nat.id in Hc, Hr by (destruct (Hknown j ltac:(left)); lia).
  cbn [visual_loop]. rewrite Hc, Hr. destruct (Step model st _ _) as [[[] st1]|] eqn:Hs; [|done..]. cbn [mbind option_bind negb].
  destruct (IH st1 _ _ (λ x Hx, Hknown x ltac:(by right)) Hrun (largest_visit visited _ _ i size j Hsize Hl))
    as (steps & largest' & -> & [Hix Hsh] & Hl'). cbn [mbind option_bind].
  eexists _, _. split; [done|]. split; [split|].
  - by rewrite fmap_cons, Hix.
  - intros [|k] s Hk.
    + injection Hk as <-. exists st1. split; [|done]. cbn [take]. rewrite fmap_cons. cbn [PorcOrder.run]. by rewrite Hs.
    + destruct (Hsh k s Hk) as (st2 & Hst2 & Hd). exists st2. split; [|done].
      cbn [take]. rewrite fmap_cons. cbn [PorcOrder.run]. rewrite Hs. exact Hst2.
  - rewrite fmap_cons. by rewrite <-app_assoc in Hl'.
Qed.

Definition visits (i : Z) (partials : list (list Z)) : list (Z * Z * Z) :=
  mjoin (imap (λ k ids, (λ x, (i + Z.of_nat k, len ids, x)) <$> ids) partials).

Lemma visits_cons i ids partials :
  visits i (ids :: partials) = ((λ x, (i, len ids, x)) <$> ids) ++ visits (i + 1) partials.
Proof.
  unfold visits. simpl. rewrite Z.add_0_r. do 2 f_equal. apply imap_ext. intros k l _. simpl.
  apply list_fmap_ext. intros _ x _. do 2 f_equal. lia.
Qed.

Lemma visits_elem k n x i partials :
  (k, n, x) ∈ visits i partials ↔ ∃ j ids, partials !! j = Some ids ∧ k = i + Z.of_nat j ∧ n = len ids ∧ x ∈ ids.
Proof.
  unfold visits. rewrite list_elem_of_join. split.
  - intros (l & Hx & (j & ids & -> & Hj)%elem_of_lookup_imap). apply list_elem_of_fmap in Hx as (y & [= -> -> ->] & Hy).
    exists j, ids. done.
  - intros (j & ids & Hj & -> & -> & Hx). eexists. split; [|eapply elem_of_lookup_imap_2, Hj].
    apply list_elem_of_fmap. by exists x.
Qed.

Lemma visual_partials_spec model f i partials visited largest :
  values_ok f → (∀ ids, ids ∈ partials → (∀ j, j ∈ ids → known ops j) ∧ is_Some (run model (Init model) (op ops <$> ids))) →
  largest_ok visited largest →
  ∃ lins largest', visual_partials model f i partials largest = Some (lins, largest'.1)
    ∧ Forall2 (shows model (Init model)) partials lins ∧ largest_ok (visited ++ visits i partials) largest'.
Proof.
  intros Hf. revert i visited largest. induction partials as [|ids partials IH]; intros i visited largest Hp Hl.
  { exists [], largest. split_and!; [done|constructor|]. by rewrite app_nil_r. }
  destruct (Hp ids ltac:(left)) as [Hknown [st' Hrun]].
  assert (∃ steps largest', visual_loop model f i (len ids) (Init model) ids largest = Some (steps, largest')
    ∧ shows model (Init model) ids steps ∧ largest_ok (visited ++ ((λ x, (i, len ids, x)) <$> ids)) largest')
    as (steps & largest1 & Hloop & Hsh & Hl1).
  { destruct ids as [|x ids]; [|by eapply visual_loop_spec; [..|exact Hrun| |done]; try done; simpl; lia].
    exists [], largest. split_and!; [done|by split|]. by rewrite app_nil_r. }
  destruct (IH (i + 1) _ _ (λ l Hl, Hp l ltac:(by right)) Hl1) as (lins & largest2 & Hmore & HF & Hl2).
  exists (steps :: lins), largest2. cbn [visual_partials]. rewrite Hloop. cbn [mbind option_bind]. rewrite Hmore.
  split_and!; [done|by constructor|]. by rewrite visits_cons, app_assoc.
Qed.

Lemma visual_partition_spec model partials :
  (∀ ids, ids ∈ partials → (∀ j, j ∈ ids → known ops j) ∧ is_Some (run model (Init model) (op ops <$> ids))) →
  ∃ data, visual_partition model (makeEntries ops) partials = Some data
    ∧ History data = described <$> ops
    ∧ Forall2 (shows model (Init model)) (sort_longest partials) (PartialLinearizations data)
    ∧ (∀ x, is_Some (Largest data !! x) ↔ ∃ ids, ids ∈ partials ∧ x ∈ ids)
    ∧ ∀ x i, Largest data !! x = Some i → ∃ k ids, i = Z.of_nat k ∧ sort_longest partials !! k = Some ids
        ∧ x ∈ ids ∧ ∀ ids', ids' ∈ partials → x ∈ ids' → (length ids' ≤ length ids)%nat.
Proof.
  intros Hp. destruct fill_spec as (f & Hfill & Hhist & Hf).
  destruct (visual_partials_spec model f 0 (sort_longest partials) [] (∅, ∅) Hf) as (lins & largest' & Hl & HF & Hsome & Hdom & Hbest).
  { intros ids. rewrite sort_longest_perm. apply Hp. }
  { split_and!; [by intros ??? ?%elem_of_nil|by intros x [? ?]|done]. }
  simpl in Hsome, Hbest. setoid_rewrite visits_elem in Hsome. setoid_rewrite visits_elem in Hbest.
  assert (∀ x i, largest'.1 !! x = Some i → ∃ k ids, i = Z.of_nat k ∧ sort_longest partials !! k = Some ids
        ∧ x ∈ ids ∧ ∀ ids', ids' ∈ partials → x ∈ ids' → (length ids' ≤ length ids)%nat) as Hlast.
  { intros x i Hi. destruct (Hdom x) as [n Hn]; [by eexists|].
    destruct (Hbest x n Hn) as (k' & Hk' & (k & ids & Hk & -> & -> & Hx) & Hle).
    rewrite Hk' in Hi. injection Hi as <-. exists k, ids. split_and!; [lia|done..|].
    intros ids' Hids' Hx'. rewrite <-sort_longest_perm in Hids'. apply list_elem_of_lookup in Hids' as [j Hj].
    apply Nat2Z.inj_le. eapply Hle. exists j, ids'. done. }
  eexists. unfold visual_partition. rewrite Hfill. cbn [mbind option_bind]. rewrite Hl. split_and!; [done..| |exact Hlast].
  cbn [Largest]. intros x. split.
  - intros [i Hi]. destruct (Hlast x i Hi) as (k & ids & _ & Hk & Hx & _). exists ids. split; [|done].
    rewrite <-sort_longest_perm. by eapply list_elem_of_lookup_2.
  - intros (ids & Hids & Hx). rewrite <-sort_longest_perm in Hids. apply list_elem_of_lookup in Hids as [k Hk].
    destruct (Hsome (Z.of_nat k) (len ids) x) as [n Hn]; [by exists k, ids|].
    destruct (Hbest x n Hn) as (k' & -> & _). by eexists.
Qed.
End fill_spec.

(** The operations of a part keep their values when they are ranked. *)
Lemma run_ranked `{TimeSort} model h ops st ids :
  run model st (op (ranked h ops) <$> ids) = run model st (op ops <$> ids).
Proof.
  revert st. induction ids as [|i ids IH]; intros st; [done|]. rewrite !fmap_cons. cbn [PorcOrder.run].
  assert (Input (op (ranked h ops) i) = Input (op ops i) ∧ Output (op (ranked h ops) i) = Output (op ops i)) as [-> ->].
  { unfold op, ranked. rewrite list_lookup_imap. by destruct (ops !! Z.to_nat i). }
  destruct (Step model st _ _) as [[[] st']|]; auto.
Qed.
End visual.

(** ** What the page of a check shows *)

(** The page of a part [p] with the sequences [l] the check recorded for it. *)
Record page_of {V St} `{LengthSort} (DescribeOperation : iface V → iface V → option string) (DescribeState : St → string) (model : Model V St)
    (p : list (Operation V)) (l : list (list Z)) (data : partitionVisualizationData) : Prop := {
  pg_history : History data = described DescribeOperation <$> p;
  pg_steps : Forall2 (shows DescribeState p model (Init model)) (sort_longest l) (PartialLinearizations data);
  pg_largest x : is_Some (Largest data !! x) ↔ ∃ ids, ids ∈ l ∧ x ∈ ids;
  pg_longest x i : Largest data !! x = Some i →
    ∃ k ids, i = Z.of_nat k ∧ sort_longest l !! k = Some ids ∧ x ∈ ids
      ∧ ∀ ids', ids' ∈ l → x ∈ ids' → (length ids' ≤ length ids)%nat
}.

Section page.
Context `{TimeSort, LengthSort}.

(** [fmt.Sprintf("%v", state)] of a string. *)
Definition DefaultDescribeState (state : string) : string := state.
Abbreviation kv_page := (page_of KvDescribeOperation DefaultDescribeState (fillDefault KvModel)).
Abbreviation kv_partition := (visual_partition KvDescribeOperation DefaultDescribeState (fillDefault KvModel)).

Lemma KvDescribeOperation_typed o : well_typed o → is_Some (KvDescribeOperation (Input o) (Output o)).
Proof. intros [[i Hi] [u Hu]]. unfold KvDescribeOperation. rewrite Hi, Hu. by eexists. Qed.

(** The page of one part. *)
Lemma part_page h p l :
  Forall well_typed p → well_timed p → (∀ ids, ids ∈ l → ∃ st, partial (fillDefault KvModel) (ranked h p) ids st) →
  ∃ d, kv_partition (makeEntries p) l = Some d
    ∧ kv_page p l d.
Proof.
  intros Ht Hw Hl. destruct (visual_partition_spec KvDescribeOperation DefaultDescribeState p Hw) with (model := fillDefault KvModel) (partials := l)
    as (d & Hd & ? & ? & ? & ?).
  - intros o Ho. apply KvDescribeOperation_typed. rewrite list.Forall_forall in Ht. by apply Ht.
  - intros ids Hids. destruct (Hl ids Hids) as [st [_ Hknown _ _ Hrun]]. split.
    + intros j Hj. specialize (Hknown j Hj). unfold known, ranked in *. by rewrite length_imap in Hknown.
    + rewrite run_ranked in Hrun. by exists st.
  - by exists d.
Qed.

(** C33. Visualizing a verbose check of a key/value history never panics, when its
    operations hold the types the model asserts, return no earlier than they are called, and
    none returns at the very time at which one is called (at a tie the sort may put a return
    in front of its call, whose input is then missing): the sequences the check recorded are
    steps the model accepts. Each part of the history gets a page with its operations as
    they were called, returned and described, the recorded sequences from the longest on
    with the states they go through, and for each operation of a sequence one that is as
    long as any that has it. *)
Theorem visualization_shows_check fuel history timeout kills arrivals order res info :
  Forall well_typed history → well_timed history → (enough_fuel history ≤ fuel)%nat →
  (∀ i l, order i l ≡ₚ l) → (∀ i, ArriveResult i ∈ arrivals → ∀ k, kills i k = false) →
  checkOperations fuel KvModel history true timeout kills arrivals order = Some (res, info) →
  ∃ parts data, KvPartition history = Some parts
    ∧ computeVisualizationData KvDescribeOperation DefaultDescribeState KvModel info = Some data
    ∧ length data = length parts
    ∧ ∀ i p d, parts !! i = Some p → data !! i = Some d →
        ∃ l, partialLinearizations info !! i = Some l ∧ kv_page p l d.
Proof.
  intros Ht Hw Hf Hord Hk. unfold checkOperations. simpl.
  destruct (kv_parts fuel history Ht Hw Hf) as (parts & Hparts & Hch & _). rewrite Hparts. simpl. intros Hres.
  destruct (checkParallel_result (fillDefault KvModel) ShallowEqual eq_refl kv_comparable fuel true timeout kills order
    Hord _ _ arrivals Hch Hk res info Hres) as (_ & _ & _ & Hpa).
  destruct (checkParallel_info (fillDefault KvModel) ShallowEqual eq_refl kv_comparable fuel true timeout kills order
    _ _ arrivals res info Hch eq_refl Hres) as [Hhist Hlen].
  assert (∀ p, p ∈ parts → Forall well_typed p ∧ well_timed p) as Hwp.
  { destruct (KvPartition_spec history) as (parts' & keys & Hp' & -> & _).
    { intros o Ho. rewrite list.Forall_forall in Ht. by apply Ht. }
    rewrite Hparts in Hp'. injection Hp' as ->. intros p (k & -> & _)%list_elem_of_fmap.
    split.
    { rewrite list.Forall_forall in Ht |- *. intros o [_ Ho]%list_elem_of_filter. by apply Ht. }
    intros a b Ha Hb. apply list_elem_of_filter in Ha as [_ ?], Hb as [_ ?]. by apply Hw. }
  assert (∀ i p l, parts !! i = Some p → partialLinearizations info !! i = Some l →
    ∃ d, kv_partition (makeEntries p) l = Some d
      ∧ kv_page p l d) as Hpage.
  { intros i p l Hp Hl. destruct (Hwp p) as [? ?]; [by eapply list_elem_of_lookup_2|].
    apply (part_page (makeEntries p)); [done..|].
    intros ids Hids. eapply Hpa; [done| |done]. by rewrite list_lookup_fmap, Hp. }
  rewrite length_fmap in Hlen. unfold computeVisualizationData. rewrite Hhist. set (page := λ x : nat * list (entry KvValue), _).
  destruct (mapM_is_Some_2 page (imap pair (makeEntries <$> parts))) as [data Hdata].
  { apply list.Forall_forall. intros x (i & h & -> & Hi)%elem_of_lookup_imap.
    apply list_lookup_fmap_Some in Hi as (p & -> & Hp). unfold page. simpl.
    destruct (lookup_lt_is_Some_2 (partialLinearizations info) i) as [l Hl]; [rewrite Hlen; by eapply lookup_lt_Some|].
    rewrite Hl. simpl. destruct (Hpage i p l Hp Hl) as (d & -> & _). by eexists. }
  exists parts, data. pose proof (length_mapM _ _ _ Hdata) as Hld. rewrite length_imap, length_fmap in Hld.
  split_and!; [done..|]. intros i p d Hp Hd. apply mapM_Some_1 in Hdata.
  destruct (Forall2_lookup_r _ _ _ _ _ Hdata Hd) as (x & Hx & Hxd).
  rewrite list_lookup_imap, list_lookup_fmap, Hp in Hx. injection Hx as <-. unfold page in Hxd. simpl in Hxd.
  destruct (partialLinearizations info !! i) as [l|] eqn:Hl; simpl in Hxd; [|done]. exists l. split; [done|].
  destruct (Hpage i p l Hp Hl) as (d' & Hd' & Hpg). rewrite Hxd in Hd'. by injection Hd' as ->.
Qed.
End page.

(** ** Witness *)
Module MergeLengthSort.
Definition longer (a b : list Z) : Prop := (length b ≤ length a)%nat.
#[export] Instance longer_dec a b : Decision (longer a b).
Proof. unfold longer. apply _. Defined.
#[export] Instance longer_trans : Transitive longer.
Proof. intros a b c. unfold longer. lia. Qed.
#[export] Instance longer_total : Total longer.
Proof. intros a b. unfold longer. lia. Qed.
#[export] Program Instance merge_length_sort : LengthSort := {| sort_longest := merge_sort longer |}.
Next Obligation. intros. apply merge_sort_Permutation. Qed.
Next Obligation. intros. apply (StronglySorted_merge_sort longer). Qed.
End MergeLengthSort.

Module VisualDemo.
Import MergeTimeSort MergeLengthSort PorcDemo.
Definition checked : option (CheckResult * linearizationInfo KvValue) :=
  checkOperations (enough_fuel stale) KvModel stale true 0 (λ _ _, false) [ArriveResult 1; ArriveResult 0] (λ _ l, l).

(** The read that goes back to the old value is in no sequence of its part: they have the
    put and the read of its value. *)
Lemma checked_result :
  (λ r : CheckResult * linearizationInfo KvValue, (r.1, partialLinearizations r.2)) <$> checked
  = Some (Illegal, [[[0; 1]]; [[0]]]).
Proof. vm_compute. reflexivity. Qed.
End VisualDemo.

Import MergeTimeSort MergeLengthSort VisualDemo.

(** The page of the illegal history: its first part has three operations, and the last of
    them is not in the sequence shown. *)
Lemma visualization_shows_check_witness :
  ∃ info data d, VisualDemo.checked = Some (Illegal, info)
    ∧ computeVisualizationData KvDescribeOperation DefaultDescribeState KvModel info = Some data ∧ data !! 0%nat = Some d
    ∧ is_Some (Largest d !! 1) ∧ Largest d !! 2 = None.
Proof.
  pose proof checked_result as Hc. apply fmap_Some in Hc as ([res info] & Hc & Hr). injection Hr as -> Hl.
  destruct (visualization_shows_check _ PorcDemo.stale _ _ _ _ _ info CheckDemo.stale_typed CheckDemo.stale_timed (le_n _)
    (λ _ _, Permutation_refl _) (λ _ _ _, eq_refl) Hc) as (parts & data & Hp & Hd & Hlen & Hpage).
  assert (length <$> KvPartition PorcDemo.stale = Some 2%nat) as Hp2 by (vm_compute; reflexivity).
  rewrite Hp in Hp2. injection Hp2 as Hp2. rewrite Hp2 in Hlen.
  destruct (lookup_lt_is_Some_2 data 0) as [d Hd0]; [rewrite Hlen; apply Nat.lt_0_succ|].
  destruct (lookup_lt_is_Some_2 parts 0) as [p Hp0]; [rewrite Hp2; apply Nat.lt_0_succ|].
  destruct (Hpage 0%nat p d Hp0 Hd0) as (l & Hl0 & [_ _ Hlarge _]). rewrite <-Hl in Hl0. injection Hl0 as <-.
  exists info, data, d. split; [exact Hc|]. split; [exact Hd|]. split; [exact Hd0|]. split.
  - apply Hlarge. exists [0; 1]. split; [left|right; left].
  - apply eq_None_not_Some. intros (ids & Hids & Hx)%Hlarge. apply list_elem_of_singleton in Hids as ->.
    apply elem_of_cons in Hx as [Hx|Hx]; [done|]. by apply list_elem_of_singleton in Hx.
Defined.
