(* ===== verification/KvSystem.v ===== *)
(** * The replicated key/value service as a whole

    Clerks, key/value servers and the replicated log between them ([kvraft/]), every
    interleaving of their critical sections.  Raft enters through what it promises the
    service: one log of committed commands, which every peer delivers in order from where
    its service is, and snapshots that come back with their index.  Messages may be lost,
    delayed, repeated and reordered. *)
From S2P Require Import Prelude RaftState RaftSnapshot KvServer KvClerk.

(** ** Requests and answers *)

(** What a clerk's call sends. *)
Inductive Request := RGet (args : GetArgs) | RPutAppend (args : PutAppendArgs).

Definition req_MsgId (r : Request) : Z :=
  match r with RGet a => ga_MsgId a | RPutAppend a => pa_MsgId a end.
Definition req_Key (r : Request) : string :=
  match r with RGet a => ga_Key a | RPutAppend a => pa_Key a end.

(** The command a handler builds; [reqId] is its random request id. *)
Definition request_op (r : Request) (reqId : Z) : Op :=
  match r with
  | RGet a => MkOp "Get" (ga_Key a) "" (ga_ClientId a) (ga_MsgId a) reqId
  | RPutAppend a => op_of a reqId
  end.

(** What the three exported calls of a clerk send. *)
Definition clerk_request (ck : Clerk) (r : Request) : Prop :=
  match r with
  | RGet a => ga_ClientId a = ck_clientId ck
  | RPutAppend a => pa_ClientId a = ck_clientId ck ∧ (pa_Op a = "Put" ∨ pa_Op a = "Append")%string
  end.

(** The reply of either handler carries the notification it got. *)
Definition get_reply (m : NotifyMsg) : GetReply := MkGetReply (nm_Err m) (nm_Value m) false false.
Definition put_reply (m : NotifyMsg) : PutAppendReply := MkPutAppendReply (nm_Err m).

Definition round_map {A B} (f : A → B) (rd : Round A) : Round B :=
  MkRound (rd_killed rd) (rd_leaderId rd) (f <$> rd_call rd) (rd_polls rd).

(** The result of a call after some rounds of its loop; a write has none, the empty string. *)
Definition call_result (ck : Clerk) (r : Request) (rounds : list (Round NotifyMsg)) : option string :=
  match r with
  | RGet a => '(_, res) ← Clerk_Get ck (ga_Key a) (ga_MsgId a) (round_map get_reply <$> rounds); res
  | RPutAppend a =>
      '(_, res) ← Clerk_PutAppend ck (pa_Key a) (pa_Value a) (pa_Op a) (pa_MsgId a)
        (round_map put_reply <$> rounds);
      (λ _, ""%string) <$> res
  end.

(** ** The state *)

Record CallRec := MkCallRec { c_clerk : Clerk; c_req : Request; c_time : Z }.

(** An execution of a handler: the server, the call it serves, its request id. *)
Record HandlerRec := MkHandlerRec { h_server : nat; h_call : nat; h_id : Z }.

(** After [Start] and before it registers its channel, in the [select], after it and before
    [removeCh], replied, or gone with its server. *)
Inductive HandlerState :=
  | HStarted
  | HWaiting
  | HLeaving (o : WaitOutcome)
  | HAnswered (m : NotifyMsg)
  | HGone.

(** A server, its Raft peer, and how many commands of the log its data reflects. *)
Record Node := MkNode { n_kv : KVServer; n_rf : Raft Op; n_pos : nat }.
#[export] Instance Node_eta : Eta Node := λ n, MkNode (n_kv n) (n_rf n) (n_pos n).

(** [committed] is the log, with the moment each command was committed; [taken] is the
    snapshots that were ever saved.  Calls and handlers are kept when they are over. *)
Record KvSys := MkKvSys {
  nodes : list Node;
  submitted : list Op;
  committed : list (Op * Z);
  taken : list (Z * list Byte.byte);
  calls : list CallRec;
  rounds : gmap nat (list (Round NotifyMsg));
  returned : gmap nat (string * Z);
  handlers : list HandlerRec;
  hstates : gmap nat HandlerState;
  now : Z
}.
#[export] Instance KvSys_eta : Eta KvSys := λ s,
  MkKvSys (nodes s) (submitted s) (committed s) (taken s) (calls s) (rounds s) (returned s)
    (handlers s) (hstates s) (now s).

Section system.
Context `{GoRand, GobCodec (RaftVal Op), GobCodec KvVal} (nservers : Z).
Implicit Types (s : KvSys) (kv : KVServer) (rf : Raft Op) (n : Node).

(** A handler up to [Start]; [Get] asks Raft for its role first. *)
Definition handler_start (r : Request) (reqId : Z) rf : option (Raft Op * bool) :=
  let '(_, leads) := GetState rf in
  if (if r is RGet _ then negb leads else false) then Some (rf, false)
  else '(rf, (_, _, isLeader)) ← Start (request_op r reqId) rf; Some (rf, isLeader).

(** The critical section between [Start] and the [select]. *)
Definition register (id : Z) kv : KVServer := kv <| notifyData := <[id := ()]> (notifyData kv) |>.

(** The snapshot of a peer and the index it covers. *)
Definition compacted rf : Z * option (list Byte.byte) :=
  (lastSnapshotIndex rf, Persister_ReadSnapshot (persister rf)).

(** The persister restarts with the peer's snapshot index. *)
Definition persisted rf : Prop :=
  ∀ k me rf1, Make k me (persister rf) = Some rf1 → lastSnapshotIndex rf1 = lastSnapshotIndex rf.

(** What Raft may do between the calls of the service: anything that keeps its snapshot, or
    takes one that a server saved ([InstallSnapshot]). *)
Definition raft_moves (saved : list (Z * list Byte.byte)) rf rf' : Prop :=
  persisted rf'
  ∧ (compacted rf' = compacted rf
     ∨ ∃ k b, (k, b) ∈ saved ∧ lastSnapshotIndex rf < k ∧ compacted rf' = (k, Some b)).

(** The snapshots known after a step in which a peer's became that of [rf]. *)
Definition note_taken rf (saved : list (Z * list Byte.byte)) : list (Z * list Byte.byte) :=
  match compacted rf with (k, Some b) => saved ++ [(k, b)] | _ => saved end.

(** A notification goes to the handler that waits for it on that server: the channel is
    unbuffered, so the apply loop goes on only when the handler receives. *)
Definition notify (i : nat) (note : option (Z * NotifyMsg)) s (hs : gmap nat HandlerState) : Prop :=
  match note with
  | None => hs = hstates s
  | Some (id, m) => ∃ j h, handlers s !! j = Some h ∧ h_server h = i ∧ h_id h = id
      ∧ hstates s !! j = Some HWaiting ∧ hs = <[j := HLeaving (Notified m)]> (hstates s)
  end.

(** The handlers that were running on server [i] die with it. *)
Definition drop_handlers (i : nat) s : gmap nat HandlerState :=
  map_imap (λ j st, match st, handlers s !! j with
                    | HAnswered m, _ => Some st
                    | _, Some h => if decide (h_server h = i) then Some HGone else Some st
                    | _, None => Some st
                    end) (hstates s).

Inductive kv_step s : KvSys → Prop :=
  (* a clerk starts a call, with a fresh message id *)
  | kv_call ck r :
      clerk_request ck r → (∀ c, c ∈ calls s → req_MsgId (c_req c) ≠ req_MsgId r) →
      kv_step s (s <| calls := calls s ++ [MkCallRec ck r (now s)] |> <| now := now s + 1 |>)
  (* a handler starts, for any call there ever was, with a fresh request id *)
  | kv_handle i n k c reqId rf' started :
      nodes s !! i = Some n → calls s !! k = Some c → (∀ h, h ∈ handlers s → h_id h ≠ reqId) →
      handler_start (c_req c) reqId (n_rf n) = Some (rf', started) →
      kv_step s (s <| nodes := <[i := n <| n_rf := rf' |>]> (nodes s) |>
        <| submitted := if (started : bool) then submitted s ++ [request_op (c_req c) reqId] else submitted s |>
        <| hstates := <[length (handlers s) := if started then HStarted else HAnswered (MkNotifyMsg ErrWrongLeader "")]> (hstates s) |>
        <| handlers := handlers s ++ [MkHandlerRec i k reqId] |>)
  | kv_register j h n :
      handlers s !! j = Some h → nodes s !! h_server h = Some n → hstates s !! j = Some HStarted →
      kv_step s (s <| nodes := <[h_server h := n <| n_kv := register (h_id h) (n_kv n) |>]> (nodes s) |>
        <| hstates := <[j := HWaiting]> (hstates s) |>)
  (* Raft commits a command that was submitted *)
  | kv_commit op :
      op ∈ submitted s →
      kv_step s (s <| committed := committed s ++ [(op, now s)] |> <| now := now s + 1 |>)
  (* a server applies its next command and notifies its handler *)
  | kv_apply i n op t kv' rf' note hs :
      nodes s !! i = Some n → committed s !! n_pos n = Some (op, t) →
      WaitApplyCh_msg (MkApplyMsg true (ICmd op) (Z.of_nat (n_pos n) + 1)) (n_kv n) (n_rf n) = Some (kv', rf', note) →
      notify i note s hs →
      kv_step s (s <| nodes := <[i := MkNode kv' rf' (S (n_pos n))]> (nodes s) |>
        <| taken := note_taken rf' (taken s) |> <| hstates := hs |>)
  (* a server reads a snapshot its peer installed *)
  | kv_install i n kv' rf' note :
      nodes s !! i = Some n → 0 < lastSnapshotIndex (n_rf n) → Z.of_nat (n_pos n) ≤ lastSnapshotIndex (n_rf n) →
      WaitApplyCh_msg (MkApplyMsg false (IString "installSnapshot") (lastSnapshotIndex (n_rf n))) (n_kv n) (n_rf n)
        = Some (kv', rf', note) →
      kv_step s (s <| nodes := <[i := MkNode kv' rf' (Z.to_nat (lastSnapshotIndex (n_rf n)))]> (nodes s) |>)
  | kv_raft i n rf' :
      nodes s !! i = Some n → raft_moves (taken s) (n_rf n) rf' →
      kv_step s (s <| nodes := <[i := n <| n_rf := rf' |>]> (nodes s) |>)
  | kv_timeout j : hstates s !! j = Some HWaiting → kv_step s (s <| hstates := <[j := HLeaving WaitTimedOut]> (hstates s) |>)
  | kv_stopped j h n :
      handlers s !! j = Some h → nodes s !! h_server h = Some n → hstates s !! j = Some HWaiting →
      kv_stopCh (n_kv n) = true →
      kv_step s (s <| hstates := <[j := HLeaving WaitStopped]> (hstates s) |>)
  (* what follows the [select]: the reply *)
  | kv_leave j h c n o kv' m :
      handlers s !! j = Some h → calls s !! h_call h = Some c → nodes s !! h_server h = Some n →
      hstates s !! j = Some (HLeaving o) →
      waitForRaft_end (request_op (c_req c) (h_id h)) o (n_kv n) = (kv', m) →
      kv_step s (s <| nodes := <[h_server h := n <| n_kv := kv' |>]> (nodes s) |>
        <| hstates := <[j := HAnswered m]> (hstates s) |>)
  | kv_kill i n kv' rf' :
      nodes s !! i = Some n → KV_Kill (n_kv n) (n_rf n) = Some (kv', rf') →
      kv_step s (s <| nodes := <[i := n <| n_kv := kv' |> <| n_rf := rf' |>]> (nodes s) |>)
  (* a crash and a restart from the persister *)
  | kv_restart i n max kv' rf' :
      nodes s !! i = Some n → StartKVServer nservers (Z.of_nat i) (persister (n_rf n)) max = Some (kv', rf') →
      kv_step s (s <| nodes := <[i := MkNode kv' rf' (Z.to_nat (lastSnapshotIndex rf'))]> (nodes s) |>
        <| hstates := drop_handlers i s |>)
  (* a round of a clerk's loop; the reply, if one came, is that of a handler of this call *)
  | kv_round k c rd :
      calls s !! k = Some c → returned s !! k = None → rd_killed rd = false →
      (∀ m, rd_call rd = Some m → ∃ j h, handlers s !! j = Some h ∧ h_call h = k ∧ hstates s !! j = Some (HAnswered m)) →
      kv_step s (s <| rounds := <[k := default [] (rounds s !! k) ++ [rd]]> (rounds s) |>)
  | kv_return k c v :
      calls s !! k = Some c → returned s !! k = None →
      call_result (c_clerk c) (c_req c) (default [] (rounds s !! k)) = Some v →
      kv_step s (s <| returned := <[k := (v, now s)]> (returned s) |> <| now := now s + 1 |>).

(** Servers that were just started, with empty disks. *)
Record kv_init s : Prop := {
  ki_nodes i n : nodes s !! i = Some n →
    n_pos n = 0%nat ∧ ∃ max, StartKVServer nservers (Z.of_nat i) (MkPersister None None) max = Some (n_kv n, n_rf n);
  ki_submitted : submitted s = []; ki_committed : committed s = []; ki_taken : taken s = [];
  ki_calls : calls s = []; ki_rounds : rounds s = ∅; ki_returned : returned s = ∅;
  ki_handlers : handlers s = []; ki_hstates : hstates s = ∅
}.

(** A handler's start and registration are the beginning of the server's [waitForRaft]. *)
Lemma waitForRaft_begin_split op kv rf :
  waitForRaft_begin op kv rf =
    ('(rf, (_, _, isLeader)) ← Start op rf;
     Some (if (isLeader : bool) then register (RequestId op) kv else kv, rf, isLeader)).
Proof. unfold waitForRaft_begin. by destruct (Start op rf) as [[? [[? ?] []]]|]. Qed.

(** ** Who is who, and when *)

Definition log_ops s : list Op := (committed s).*1.

(** [op] is the command some handler built for call [k]. *)
Definition serves s (k : nat) (op : Op) : Prop :=
  ∃ c, calls s !! k = Some c ∧ op = request_op (c_req c) (RequestId op).

Record ids_ok s : Prop := {
  io_calls : NoDup ((λ c, req_MsgId (c_req c)) <$> calls s);
  io_handlers : NoDup (h_id <$> handlers s);
  io_clerk c : c ∈ calls s → clerk_request (c_clerk c) (c_req c) ∧ c_time c < now s;
  io_states j st : hstates s !! j = Some st → is_Some (handlers s !! j);
  io_handler j h : handlers s !! j = Some h → is_Some (calls s !! h_call h);
  io_submitted op : op ∈ submitted s →
    ∃ j h, handlers s !! j = Some h ∧ h_id h = RequestId op ∧ serves s (h_call h) op;
  io_committed p op t : committed s !! p = Some (op, t) →
    op ∈ submitted s ∧ t < now s
    ∧ ∃ k c, calls s !! k = Some c ∧ op = request_op (c_req c) (RequestId op) ∧ c_time c < t;
  io_sorted p q e e' : (p < q)%nat → committed s !! p = Some e → committed s !! q = Some e' → e.2 < e'.2
}.

Lemma request_op_MsgId r id : MsgId (request_op r id) = req_MsgId r.
Proof. by destruct r. Qed.
Lemma request_op_Key r id : Key (request_op r id) = req_Key r.
Proof. by destruct r. Qed.
Lemma request_op_RequestId r id : RequestId (request_op r id) = id.
Proof. by destruct r. Qed.

Lemma serves_mono s s' k op : calls s `prefix_of` calls s' → serves s k op → serves s' k op.
Proof. intros Hp (c & Hc & Ho). exists c. split; [by eapply prefix_lookup_Some|done]. Qed.

Lemma serves_fun s k k' op : ids_ok s → serves s k op → serves s k' op → k = k'.
Proof.
  intros Hi (c & Hc & Ho) (c' & Hc' & Ho'). eapply (NoDup_lookup _ k k' (MsgId op)); [apply (io_calls s Hi)|..].
  - rewrite list_lookup_fmap, Hc. simpl. by rewrite Ho, request_op_MsgId.
  - rewrite list_lookup_fmap, Hc'. simpl. by rewrite Ho', request_op_MsgId.
Qed.

Lemma ids_frame s s' :
  ids_ok s → calls s' = calls s → handlers s' = handlers s → submitted s' = submitted s →
  committed s' = committed s → now s ≤ now s' →
  (∀ j, is_Some (hstates s' !! j) → is_Some (handlers s !! j)) → ids_ok s'.
Proof.
  intros [H1' H2 H3 H4 H5 H6 H7 H8] Hc Hh Hs Hl Hn Hst.
  split; unfold serves; rewrite ?Hc, ?Hh, ?Hs, ?Hl; try done.
  - intros c Hin. destruct (H3 c Hin). split; [done|lia].
  - intros j st Hj. apply Hst. by exists st.
  - intros p op t Hp. destruct (H7 p op t Hp) as (? & ? & ?). split_and!; [done|lia|done].
Qed.

(** Most steps change a handler's state at most. *)
Lemma ids_insert s s' j st :
  ids_ok s → calls s' = calls s → handlers s' = handlers s → submitted s' = submitted s →
  committed s' = committed s → now s' = now s → is_Some (hstates s !! j) →
  hstates s' = <[j := st]> (hstates s) → ids_ok s'.
Proof.
  intros Hi Hc Hh Hs Hl Hn [st0 Hj] He. eapply ids_frame; try done; [lia|].
  intros q [st' Hq]. rewrite He, lookup_insert in Hq. case_decide as Hjq.
  - subst q. by eapply io_states.
  - by eapply io_states.
Qed.

Lemma drop_handlers_lookup i s j st :
  drop_handlers i s !! j = Some st → st = HGone ∧ is_Some (hstates s !! j) ∨ hstates s !! j = Some st.
Proof.
  unfold drop_handlers. rewrite map_lookup_imap. destruct (hstates s !! j) as [st0|]; simpl; [|done].
  intros He. destruct st0, (handlers s !! j); simpl in He; try case_decide; simplify_eq; eauto.
Qed.

Lemma ids_call s ck r :
  ids_ok s → clerk_request ck r → (∀ c, c ∈ calls s → req_MsgId (c_req c) ≠ req_MsgId r) →
  ids_ok (s <| calls := calls s ++ [MkCallRec ck r (now s)] |> <| now := now s + 1 |>).
Proof.
  intros Hi Hr Hf. destruct Hi as [H1' H2 H3 H4 H5 H6 H7 H8].
  assert (∀ k c, calls s !! k = Some c → (calls s ++ [MkCallRec ck r (now s)]) !! k = Some c) as Hmono
    by (intros; by apply lookup_app_l_Some).
  split; simpl; try done.
  - rewrite fmap_app. apply list.NoDup_app. split_and!; [done| |apply NoDup_singleton].
    intros m (c & -> & Hc)%list_elem_of_fmap Hm%list_elem_of_singleton. by eapply Hf.
  - intros c [Hc| ->%list_elem_of_singleton]%elem_of_app; simpl; [|split; [done|lia]].
    destruct (H3 c Hc). split; [done|lia].
  - intros j h Hj. destruct (H5 j h Hj) as [c Hc]. exists c. by apply Hmono.
  - intros op Hop. destruct (H6 op Hop) as (j & h & Hj & Hid & c & Hc & Ho). exists j, h. split_and!; [done..|].
    exists c. split; [by apply Hmono|done].
  - intros p op t Hp. destruct (H7 p op t Hp) as (? & ? & k & c & Hc & Hrest). split_and!; [done|lia|].
    exists k, c. split; [by apply Hmono|done].
Qed.

Lemma ids_handle s i k c reqId (started : bool) s' :
  ids_ok s → calls s !! k = Some c → (∀ h, h ∈ handlers s → h_id h ≠ reqId) →
  calls s' = calls s → committed s' = committed s → now s' = now s →
  submitted s' = (if started then submitted s ++ [request_op (c_req c) reqId] else submitted s) →
  handlers s' = handlers s ++ [MkHandlerRec i k reqId] →
  (∃ st, hstates s' = <[length (handlers s) := st]> (hstates s)) → ids_ok s'.
Proof.
  intros Hi Hk Hf Hc Hl Hn Hs Hh [st Hst]. destruct Hi as [H1' H2 H3 H4 H5 H6 H7 H8].
  assert (∀ j h, handlers s !! j = Some h → handlers s' !! j = Some h) as Hmono
    by (intros; rewrite Hh; by apply lookup_app_l_Some).
  assert (handlers s' !! length (handlers s) = Some (MkHandlerRec i k reqId)) as Hnew
    by (rewrite Hh; by apply list_lookup_middle).
  split; unfold serves; rewrite ?Hc, ?Hl, ?Hn; try done.
  - rewrite Hh, fmap_app. apply list.NoDup_app. split_and!; [done| |apply NoDup_singleton].
    intros m (h & -> & Hin)%list_elem_of_fmap Hm%list_elem_of_singleton. by eapply Hf.
  - intros j st'. rewrite Hst, lookup_insert. case_decide as Hj.
    + subst j. by rewrite Hnew.
    + intros Hj'. destruct (H4 j st' Hj') as [h Hh']. exists h. by apply Hmono.
  - intros j h. rewrite Hh, lookup_snoc_Some. intros [[_ Hj]|[_ <-]]; [by eapply H5|by exists c].
  - intros op Hop. assert (op ∈ submitted s ∨ op = request_op (c_req c) reqId) as [Hold| ->].
    { rewrite Hs in Hop. destruct started; [|by left]. apply elem_of_app in Hop as [|Hop%list_elem_of_singleton]; auto. }
    + destruct (H6 op Hold) as (j & h & Hj & Hrest). exists j, h. split; [by apply Hmono|done].
    + eexists _, _. split; [exact Hnew|]. simpl. rewrite request_op_RequestId. split; [done|]. by exists c.
  - intros p op t Hp. destruct (H7 p op t Hp) as (Hin & Hrest). split; [|done].
    rewrite Hs. destruct started; [|done]. by apply elem_of_app; left.
Qed.

Lemma ids_commit s op :
  ids_ok s → op ∈ submitted s →
  ids_ok (s <| committed := committed s ++ [(op, now s)] |> <| now := now s + 1 |>).
Proof.
  intros Hi Hop. pose proof Hi as [H1' H2 H3 H4 H5 H6 H7 H8]. split; simpl; try done.
  - intros c Hc. destruct (H3 c Hc). split; [done|lia].
  - intros p op' t [[_ Hp]|[_ [= <- <-]]]%lookup_snoc_Some.
    + destruct (H7 p op' t Hp) as (? & ? & ?). split_and!; [done|lia|done].
    + split_and!; [done|lia|]. destruct (H6 op Hop) as (j & h & _ & _ & c & Hc & Ho). exists (h_call h), c.
      split_and!; [done..|]. by apply H3, (list_elem_of_lookup_2 _ _ _ Hc).
  - intros p q e e' Hpq [[_ Hp]|[Hp _]]%lookup_snoc_Some [[Hq1 Hq]|[Hq <-]]%lookup_snoc_Some; try lia.
    + by apply (H8 p q).
    + destruct e as [op' t]. by destruct (H7 p op' t Hp) as (? & ? & ?).
Qed.

Lemma ids_step s s' : ids_ok s → kv_step s s' → ids_ok s'.
Proof.
  intros Hi Hs. pose proof (io_states s Hi) as Hst.
  destruct Hs; try (eapply ids_frame; try done; simpl; try lia; intros ? [? ?]; by eapply Hst);
    try (eapply ids_insert; try done; by eexists).
  - by apply ids_call.
  - eapply ids_handle; try done. by eexists.
  - by apply ids_commit.
  - match goal with Hn : notify _ _ _ _ |- _ => rename Hn into Hnote end. destruct note as [[id m]|]; simpl in Hnote.
    + destruct Hnote as (j & h & _ & _ & _ & Hj & ->). eapply ids_insert; try done.
    + subst hs. eapply ids_frame; try done. intros j [st Hj]. by eapply Hst.
  - eapply ids_frame; try done. intros j [st [[_ [st' Hj]]|Hj]%drop_handlers_lookup]; by eapply Hst.
Qed.

(** ** What the servers hold *)

Definition blank : KVServer := MkKV 0 false false ∅ 0 ∅ ∅.

(** The data and the duplicate filter are those after [ops]. *)
Definition at_log kv (ops : list Op) : Prop :=
  kv_data kv = kv_data (apply_commands ops blank)
  ∧ kv_lastApplied kv = kv_lastApplied (apply_commands ops blank).

Definition snapshot_ok s (e : Z * list Byte.byte) : Prop :=
  ∃ p kv, e = (Z.of_nat p, encode_snapshot kv) ∧ (p ≤ length (committed s))%nat ∧ at_log kv (take p (log_ops s)).

Definition node_ok s n : Prop :=
  (n_pos n ≤ length (committed s))%nat ∧ at_log (n_kv n) (take (n_pos n) (log_ops s))
  ∧ persisted (n_rf n)
  ∧ (compacted (n_rf n) = (0, None) ∨ ∃ k b, (k, b) ∈ taken s ∧ compacted (n_rf n) = (k, Some b)).

Record nodes_ok s : Prop := {
  no_node i n : nodes s !! i = Some n → node_ok s n;
  no_taken e : e ∈ taken s → snapshot_ok s e
}.

Lemma log_ops_take s s' p :
  committed s `prefix_of` committed s' → (p ≤ length (committed s))%nat →
  take p (log_ops s') = take p (log_ops s).
Proof.
  intros [l Hl] Hp. unfold log_ops. rewrite Hl, fmap_app, take_app_le; [done|]. by rewrite length_fmap.
Qed.

Lemma snapshot_ok_mono s s' e : committed s `prefix_of` committed s' → snapshot_ok s e → snapshot_ok s' e.
Proof.
  intros Hp (p & kv & -> & Hl & Ha). exists p, kv. rewrite (log_ops_take s s') by done.
  apply prefix_length in Hp. split_and!; [done|lia|done].
Qed.

Lemma node_ok_mono s s' n :
  committed s `prefix_of` committed s' → (∀ e, e ∈ taken s → e ∈ taken s') → node_ok s n → node_ok s' n.
Proof.
  intros Hp Ht (Hl & Ha & Hper & Hc). unfold node_ok. rewrite (log_ops_take s s') by done.
  apply prefix_length in Hp. split_and!; [lia|done..|]. destruct Hc as [|(k & b & ? & ?)]; [by left|right; eauto].
Qed.

(** A step changes one server, and may save a snapshot. *)
Lemma nodes_set s s' i n' :
  nodes_ok s → committed s' = committed s → nodes s' = <[i := n']> (nodes s) →
  (∀ e, e ∈ taken s → e ∈ taken s') → (∀ e, e ∈ taken s' → e ∈ taken s ∨ snapshot_ok s e) →
  node_ok s' n' → nodes_ok s'.
Proof.
  intros [Hn Ht] Hc Hs Hsub Hnew Hn'. assert (committed s `prefix_of` committed s') as Hp by by rewrite Hc.
  split.
  - intros j n. rewrite Hs. intros [(_ & <- & _)|[_ Hj]]%list_lookup_insert_Some; [done|].
    by eapply node_ok_mono, Hn.
  - intros e [He|He]%Hnew; (eapply snapshot_ok_mono; [done|]); [by apply Ht|done].
Qed.

Lemma nodes_frame s s' :
  nodes_ok s → committed s `prefix_of` committed s' → nodes s' = nodes s → taken s' = taken s → nodes_ok s'.
Proof.
  intros [Hn Ht] Hc Hs Hk. split; rewrite ?Hs, ?Hk.
  - intros i n Hi. eapply node_ok_mono; [done| |by eapply Hn]. by rewrite Hk.
  - intros e He. by eapply snapshot_ok_mono, Ht.
Qed.

(** Changes that leave the data alone. *)
Lemma nodes_keep s s' i n n' :
  nodes_ok s → nodes s !! i = Some n → committed s' = committed s → taken s' = taken s →
  nodes s' = <[i := n']> (nodes s) → n_pos n' = n_pos n → kv_data (n_kv n') = kv_data (n_kv n) →
  kv_lastApplied (n_kv n') = kv_lastApplied (n_kv n) → raft_moves (taken s) (n_rf n) (n_rf n') → nodes_ok s'.
Proof.
  intros Hno Hi Hc Ht Hs Hp Hd Hl [Hper Hmv].
  apply (nodes_set s s' i n'); try done; [by rewrite Ht| |].
  { intros e. rewrite Ht. by left. }
  destruct (no_node s Hno i n Hi) as (Hle & [Hd' Hl'] & _ & Hcomp).
  unfold node_ok, log_ops, at_log. rewrite Hc, Ht, Hp, Hd, Hl. split_and!; [done..|].
  destruct Hmv as [->|(k & b & ? & _ & ?)]; [done|eauto].
Qed.

Lemma raft_moves_same taken rf rf' : persisted rf' → compacted rf' = compacted rf → raft_moves taken rf rf'.
Proof. intros Hp Hc. split; [done|by left]. Qed.

Lemma Make_persister k me ps rf : Make k me ps = Some rf → persister rf = ps.
Proof.
  unfold Make. destruct (make_slice k 0); cbn [mbind option_bind]; [|done].
  intros Hm. assert (∀ data rf0 rf1 : _, readPersist (C := Op) data rf0 = Some rf1 → persister rf1 = persister rf0) as Hr.
  { intros data rf0 rf1 Hr. unfold readPersist in Hr. destruct data as [[|]|]; [by injection Hr as <-| |by injection Hr as <-].
    run_option. done. }
  destruct (readPersist _ _) as [rf1|] eqn:Hp; cbn [mbind option_bind] in Hm; [|done].
  injection Hm as <-. by apply Hr in Hp.
Qed.

Lemma saved_persisted rf : raftstate (persister rf) = Some (getPersistData rf) → persisted rf.
Proof. intros Hr k me rf1 Hm. by apply (Make_persisted k me rf rf1 Hr) in Hm as (_ & _ & ?). Qed.

Lemma handler_start_moves saved r id rf rf' b :
  handler_start r id rf = Some (rf', b) → persisted rf → raft_moves saved rf rf'.
Proof.
  intros Hs Hp. apply raft_moves_same; unfold handler_start in Hs; destruct (GetState rf) as [t leads];
    (destruct (if r is RGet _ then negb leads else false); [by simplify_eq/=|]);
    unfold Start in Hs; run_option; try done.
  by apply saved_persisted.
Qed.

Lemma saveSnapshot_moves index kv rf rf' :
  saveSnapshot index kv rf = Some rf' → persisted rf →
  persisted rf' ∧ (compacted rf' = compacted rf ∨ compacted rf' = (index, Some (encode_snapshot kv))).
Proof.
  unfold saveSnapshot. destruct (_ || _); [intros [= <-]; auto|].
  intros Hs Hp. destruct (Z.lt_ge_cases index (lastSnapshotIndex rf)) as [Hlt|Hge].
  { unfold SaveStateAndSnapshot in Hs. rewrite (proj2 (Z.ltb_lt _ _) Hlt) in Hs. injection Hs as <-. auto. }
  apply snapshot_saved in Hs as [Hps Hi]; [|done]. split.
  - apply saved_persisted. by rewrite Hps.
  - right. unfold compacted, Persister_ReadSnapshot. by rewrite Hi, Hps.
Qed.

Lemma at_log_apply kv ops p op :
  at_log kv (take p ops) → ops !! p = Some op → at_log (apply_command op kv) (take (S p) ops).
Proof.
  intros [Hd Hl] Hp. rewrite (take_S_r _ _ _ Hp). unfold at_log. rewrite apply_commands_snoc.
  by apply (apply_commands_view [op]).
Qed.

(** What [WaitApplyCh] does with a command. *)
Lemma apply_msg op index kv rf kv' rf' note :
  WaitApplyCh_msg (MkApplyMsg true (ICmd op) index) kv rf = Some (kv', rf', note) →
  kv' = apply_command op kv ∧ saveSnapshot index kv' rf = Some rf'
  ∧ ∀ id m, note = Some (id, m) →
      id = RequestId op ∧ m = MkNotifyMsg OK (default ""%string (kv_data kv' !! Key op)).
Proof.
  unfold WaitApplyCh_msg. simpl. destruct (saveSnapshot _ _ _) as [rf1|] eqn:Hs; simpl; [|done].
  intros [= <- <- <-]. split_and!; [done..|]. intros id m Hn. case_match; by simplify_eq.
Qed.

Lemma note_taken_elem rf saved k b :
  (k, b) ∈ note_taken rf saved ↔ (k, b) ∈ saved ∨ compacted rf = (k, Some b).
Proof.
  unfold note_taken. destruct (compacted rf) as [k' [b'|]].
  - rewrite elem_of_app, list_elem_of_singleton. naive_solver.
  - naive_solver.
Qed.

Lemma nodes_apply s i n op t kv' rf' note :
  nodes_ok s → nodes s !! i = Some n → committed s !! n_pos n = Some (op, t) →
  WaitApplyCh_msg (MkApplyMsg true (ICmd op) (Z.of_nat (n_pos n) + 1)) (n_kv n) (n_rf n) = Some (kv', rf', note) →
  ∀ hs, nodes_ok (s <| nodes := <[i := MkNode kv' rf' (S (n_pos n))]> (nodes s) |>
        <| taken := note_taken rf' (taken s) |> <| hstates := hs |>).
Proof.
  intros Hno Hi Hc Hw hs. apply apply_msg in Hw as (-> & Hsave & _).
  destruct (no_node s Hno i n Hi) as (Hle & Ha & Hper & Hcomp).
  apply saveSnapshot_moves in Hsave as [Hper' Hmv]; [|done].
  assert (at_log (apply_command op (n_kv n)) (take (S (n_pos n)) (log_ops s))) as Ha'.
  { apply at_log_apply; [done|]. unfold log_ops. by rewrite list_lookup_fmap, Hc. }
  pose proof (lookup_lt_Some _ _ _ Hc) as Hlt.
  assert (snapshot_ok s (Z.of_nat (n_pos n) + 1, encode_snapshot (apply_command op (n_kv n)))) as Hsnap.
  { exists (S (n_pos n)), (apply_command op (n_kv n)). split_and!; [f_equal; lia|lia|done]. }
  eapply nodes_set; try done.
  - intros [k b] He. apply note_taken_elem. by left.
  - intros [k b] [He|He]%note_taken_elem; [by left|]. destruct Hmv as [Hmv|Hmv]; rewrite Hmv in He.
    + destruct Hcomp as [Hz|(k' & b' & Hin & Hkb)]; [congruence|]. left. congruence.
    + right. by injection He as <- <-.
  - unfold node_ok. cbn [n_pos n_kv n_rf committed]. split_and!; [simpl; lia|done..|]. destruct Hmv as [Hmv|Hmv].
    + destruct Hcomp as [Hz|(k & b & Hin & Hkb)]; [left; congruence|right].
      exists k, b. rewrite Hmv. split; [|done]. apply note_taken_elem. by left.
    + right. eexists _, _. split; [|exact Hmv]. apply note_taken_elem. by right.
Qed.

(** Reading the peer's snapshot. *)
Lemma read_snapshot_ok s n kv rf kv' :
  nodes_ok s → node_ok s n → compacted rf = compacted (n_rf n) →
  (0 < lastSnapshotIndex rf ∨ at_log kv []) →
  ReadSnapshot (Persister_ReadSnapshot (persister rf)) kv = Some kv' →
  let p := Z.to_nat (lastSnapshotIndex rf) in
  (p ≤ length (committed s))%nat ∧ at_log kv' (take p (log_ops s)).
Proof.
  intros Hno (_ & _ & _ & Hcomp) Hc Hor Hr. cbv zeta. rewrite <-Hc in Hcomp. unfold compacted in Hcomp.
  destruct Hcomp as [[= Hz Hnone]|(k & b & Hin & [= Hk Hb])].
  - rewrite Hnone in Hr. injection Hr as <-. rewrite Hz. split; [simpl; lia|]. destruct Hor as [Hlt|Hor]; [lia|done].
  - destruct (no_taken s Hno _ Hin) as (p & kv1 & [= -> ->] & Hl & Ha).
    rewrite Hb, ReadSnapshot_encode in Hr. injection Hr as <-. rewrite Hk, Nat2Z.id. done.
Qed.

Lemma node_persisted s i n : nodes_ok s → nodes s !! i = Some n → persisted (n_rf n).
Proof. intros Hno Hi. by destruct (no_node s Hno i n Hi) as (_ & _ & ? & _). Qed.

Lemma nodes_step s s' : nodes_ok s → kv_step s s' → nodes_ok s'.
Proof.
  intros Hno Hs. destruct Hs as [| |j h n Hj Hn| | |i n kv' rf' note Hi Hpos Hle Hw| | | |j h c n o kv' m Hj Hc Hn Ho He|i n kv' rf' Hi Hk|i n max kv' rf' Hi Hst| |];
    try (by apply (nodes_frame s)).
  - eapply nodes_keep; try done. eapply handler_start_moves; [done|]. by eapply node_persisted.
  - eapply nodes_keep; try done. apply raft_moves_same; [|done]. exact (node_persisted _ _ _ Hno Hn).
  - apply (nodes_frame s); [done| |done|done]. simpl. by apply prefix_app_r.
  - by eapply nodes_apply.
  - pose proof (no_node s Hno i n Hi) as Hn. unfold WaitApplyCh_msg in Hw. simpl in Hw.
    destruct (ReadSnapshot _ _) as [kv1|] eqn:Hr; simpl in Hw; [|done]. injection Hw as <- <- <-.
    destruct (read_snapshot_ok s n (n_kv n) (n_rf n) kv1 Hno Hn eq_refl (or_introl Hpos) Hr) as [Hl Ha].
    eapply nodes_set; try done; [by left|]. destruct Hn as (_ & _ & Hper & Hcomp). by split_and!.
  - by eapply nodes_keep.
  - assert (kv_data kv' = kv_data (n_kv n) ∧ kv_lastApplied kv' = kv_lastApplied (n_kv n)) as (Hd & Hl)
      by (destruct o; simpl in He; by simplify_eq).
    eapply nodes_keep; try done. apply raft_moves_same; [|done]. exact (node_persisted _ _ _ Hno Hn).
  - unfold KV_Kill, Kill in Hk. destruct (no_node s Hno i n Hi) as (_ & _ & Hper & _).
    run_option. do 2 (case_match; [done|]). simplify_eq. eapply nodes_keep; try done. apply raft_moves_same; [exact Hper|done].
  - pose proof (no_node s Hno i n Hi) as Hn. unfold StartKVServer in Hst.
    destruct (Make _ _ _) as [rf1|] eqn:Hm; cbn [mbind option_bind] in Hst; [|done].
    pose proof (Make_persister _ _ _ _ Hm) as Hp1. pose proof (proj1 (proj2 (proj2 Hn)) _ _ _ Hm) as Hi1.
    assert (compacted rf1 = compacted (n_rf n)) as Hc1 by (unfold compacted; by rewrite Hi1, Hp1).
    destruct (ReadSnapshot _ _) as [kv1|] eqn:Hr; simpl in Hst; [|done]. injection Hst as <- <-.
    destruct (read_snapshot_ok s n (MkKV (Z.of_nat i) false false ∅ max ∅ ∅) rf1 kv1 Hno Hn Hc1 (or_intror (conj eq_refl eq_refl)) Hr) as [Hl Ha].
    eapply nodes_set; try done; [by left|]. destruct Hn as (_ & _ & Hper & Hcomp). split_and!; simpl; [done|done| |by rewrite Hc1].
    intros k me rf2. rewrite Hp1, Hi1. apply Hper.
Qed.

(** ** What answers mean *)

(** The value of a key after the first [p] commands of the log. *)
Definition value_after s (p : nat) (key : string) : string :=
  default ""%string (kv_data (apply_commands (take p (log_ops s)) blank) !! key).

(** A command of call [c] is at place [p] of the log, and [v] is its key's value there. *)
Definition done_at s (c : CallRec) (p : nat) (v : string) : Prop :=
  ∃ id t, committed s !! p = Some (request_op (c_req c) id, t) ∧ v = value_after s (S p) (req_Key (c_req c)).

Definition answered s (c : CallRec) (m : NotifyMsg) : Prop :=
  (nm_Err m ≠ OK ∧ nm_Err m ≠ ErrNoKey) ∨ ∃ p v, done_at s c p v ∧ m = MkNotifyMsg OK v.

Definition state_ok s (j : nat) (st : HandlerState) : Prop :=
  ∃ h c, handlers s !! j = Some h ∧ calls s !! h_call h = Some c
    ∧ match st with HLeaving (Notified m) | HAnswered m => answered s c m | _ => True end.

Definition round_ok s (c : CallRec) (rd : Round NotifyMsg) : Prop :=
  rd_killed rd = false ∧ ∀ m, rd_call rd = Some m → answered s c m.

(** What a call that returned [v] at [r] has seen. *)
Definition return_ok s (k : nat) (v : string) (r : Z) : Prop :=
  ∃ c p v', calls s !! k = Some c ∧ done_at s c p v' ∧ r < now s ∧ (∀ e, committed s !! p = Some e → e.2 < r)
    ∧ v = match c_req c with RGet _ => v' | RPutAppend _ => ""%string end.

Record answers_ok s : Prop := {
  ao_state j st : hstates s !! j = Some st → state_ok s j st;
  ao_rounds k rds : rounds s !! k = Some rds → ∃ c, calls s !! k = Some c ∧ Forall (round_ok s c) rds;
  ao_returned k v r : returned s !! k = Some (v, r) → return_ok s k v r;
  ao_times k v r c : returned s !! k = Some (v, r) → c ∈ calls s → c_time c ≠ r
}.

Section mono.
Context s s' (Hlog : committed s `prefix_of` committed s') (Hcalls : calls s `prefix_of` calls s')
  (Hhandlers : handlers s `prefix_of` handlers s') (Hnow : now s ≤ now s').

Lemma done_at_mono c p v : done_at s c p v → done_at s' c p v.
Proof.
  intros (id & t & Hp & ->). exists id, t. split; [by eapply prefix_lookup_Some|].
  unfold value_after. by rewrite (log_ops_take s s') by (done || by eapply lookup_lt_Some).
Qed.

Lemma answered_mono c m : answered s c m → answered s' c m.
Proof. intros [?|(p & v & Hd & ->)]; [by left|right]. exists p, v. split; [by apply done_at_mono|done]. Qed.

Lemma state_ok_mono j st : state_ok s j st → state_ok s' j st.
Proof.
  intros (h & c & Hj & Hc & Hst). exists h, c. split_and!; [by eapply prefix_lookup_Some..|].
  destruct st as [| |[]| |]; try done; by apply answered_mono.
Qed.

Lemma return_ok_mono k v r : return_ok s k v r → return_ok s' k v r.
Proof.
  intros (c & p & v' & Hc & Hd & Hr & Ht & Hv). exists c, p, v'.
  split_and!; [by eapply prefix_lookup_Some|by apply done_at_mono|lia| |done].
  destruct Hd as (id & t & Hp & _). intros e He. rewrite (prefix_lookup_Some _ _ _ _ Hp Hlog) in He. by apply Ht; rewrite Hp.
Qed.

Lemma answers_frame :
  answers_ok s → rounds s' = rounds s → returned s' = returned s →
  (∀ j st, hstates s' !! j = Some st → hstates s !! j = Some st ∨ state_ok s' j st) →
  (∀ c, c ∈ calls s' → c ∈ calls s ∨ c_time c = now s) → answers_ok s'.
Proof.
  intros [H1' H2' H3' H4'] Hr Hret Hst Hc. split; rewrite ?Hr, ?Hret.
  - intros j st [Hj|Hj]%Hst; [|done]. by apply state_ok_mono, H1'.
  - intros k rds Hk. destruct (H2' k rds Hk) as (c & Hkc & Hf). exists c. split; [by eapply prefix_lookup_Some|].
    eapply list.Forall_impl; [exact Hf|]. intros rd [? Ha]. split; [done|]. intros m Hm. by apply answered_mono, Ha.
  - intros k v r Hk. by apply return_ok_mono, H3'.
  - intros k v r c Hk [Hin|Hin]%Hc; [by eapply H4'|]. destruct (H3' k v r Hk) as (? & ? & ? & _ & _ & ? & _). lia.
Qed.
End mono.

(** Steps that change handlers at most. *)
Lemma answers_states s s' :
  answers_ok s → committed s' = committed s → calls s' = calls s → handlers s' = handlers s → now s' = now s →
  rounds s' = rounds s → returned s' = returned s →
  (∀ j st, hstates s' !! j = Some st → hstates s !! j = Some st ∨ state_ok s j st) → answers_ok s'.
Proof.
  intros Ha Hl Hc Hh Hn Hr Hret Hst.
  assert (committed s `prefix_of` committed s' ∧ calls s `prefix_of` calls s' ∧ handlers s `prefix_of` handlers s' ∧ now s ≤ now s')
    as (P1 & P2 & P3 & P4) by (rewrite Hl, Hc, Hh, Hn; done).
  apply (answers_frame s s' P1 P2 P3 P4); try done.
  - intros j st [?|Hj]%Hst; [by left|right]. by eapply state_ok_mono.
  - intros c. rewrite Hc. by left.
Qed.

Lemma state_ok_insert s j st j' st' :
  (<[j := st]> (hstates s)) !! j' = Some st' → state_ok s j st → hstates s !! j' = Some st' ∨ state_ok s j' st'.
Proof. rewrite lookup_insert_Some. intros [[<- <-]|[_ ?]]; auto. Qed.

(** The state of a handler that has nothing to say. *)
Lemma state_ok_silent s j st st0 :
  answers_ok s → hstates s !! j = Some st0 →
  match st with HLeaving (Notified m) | HAnswered m => nm_Err m ≠ OK ∧ nm_Err m ≠ ErrNoKey | _ => True end →
  state_ok s j st.
Proof.
  intros Ha Hj Hst. destruct (ao_state s Ha j st0 Hj) as (h & c & Hh & Hc & _). exists h, c. split_and!; [done..|].
  destruct st as [| |[]| |]; try done; by left.
Qed.

(** A call returns what one of its handlers was told. *)
Lemma call_result_done s c rds v :
  call_result (c_clerk c) (c_req c) rds = Some v → Forall (round_ok s c) rds →
  ∃ p v', done_at s c p v' ∧ v = match c_req c with RGet _ => v' | RPutAppend _ => ""%string end.
Proof.
  intros Hr Hf. rewrite list.Forall_forall in Hf. unfold call_result, Clerk_Get, Clerk_PutAppend in Hr.
  destruct (c_req c) as [a|a].
  - destruct (retry_loop _ _ _ _ _) as [[sent [res|]]|] eqn:Hl; simplify_eq/=.
    apply retry_loop_returned in Hl as (rd' & (rd & -> & Hin)%list_elem_of_fmap & Hd). destruct (Hf rd Hin) as [Hk Ha].
    destruct Hd as [Hd|Hd]; [simpl in Hd; congruence|]. apply Get_round_returns in Hd as (reply & Hc & Hv).
    simpl in Hc. destruct (rd_call rd) as [m|]; simplify_eq/=.
    destruct (Ha m eq_refl) as [[? ?]|(p & v' & Hd & ->)]; simpl in Hv; [naive_solver|]. exists p, v'. naive_solver.
  - destruct (retry_loop _ _ _ _ _) as [[sent [res|]]|] eqn:Hl; simplify_eq/=.
    apply retry_loop_returned in Hl as (rd' & (rd & -> & Hin)%list_elem_of_fmap & Hd). destruct (Hf rd Hin) as [Hk Ha].
    destruct Hd as [Hd|Hd]; [simpl in Hd; congruence|]. apply PutAppend_round_returns in Hd as (reply & Hc & Hv).
    simpl in Hc. destruct (rd_call rd) as [m|]; simplify_eq/=.
    destruct (Ha m eq_refl) as [[? ?]|(p & v' & Hd & ->)]; simpl in Hv; [naive_solver|]. exists p, v'. naive_solver.
Qed.

(** The handler that is notified built the very command that was applied. *)
Lemma notified_done s i n op t kv' rf' id m j h :
  ids_ok s → nodes_ok s → answers_ok s → nodes s !! i = Some n → committed s !! n_pos n = Some (op, t) →
  WaitApplyCh_msg (MkApplyMsg true (ICmd op) (Z.of_nat (n_pos n) + 1)) (n_kv n) (n_rf n) = Some (kv', rf', Some (id, m)) →
  handlers s !! j = Some h → h_id h = id → is_Some (hstates s !! j) → state_ok s j (HLeaving (Notified m)).
Proof.
  intros Hi Hno Ha Hn Hc Hw Hj Hid [st Hst]. apply apply_msg in Hw as (-> & _ & Hnote).
  destruct (Hnote id m eq_refl) as [-> ->].
  destruct (no_node s Hno i n Hn) as (_ & Hat & _). destruct (ao_state s Ha j st Hst) as (h' & c & Hj' & Hcall & _).
  rewrite Hj in Hj'. injection Hj' as <-. exists h, c. split_and!; [done..|].
  assert (op = request_op (c_req c) (RequestId op)) as Hop.
  { destruct (io_committed s Hi _ _ _ Hc) as (Hin & _). destruct (io_submitted s Hi op Hin) as (j2 & h2 & Hj2 & Hid2 & c2 & Hc2 & Hop).
    assert (j2 = j) as ->.
    { eapply (NoDup_lookup _ j2 j (RequestId op)); [apply (io_handlers s Hi)|..]; rewrite list_lookup_fmap.
      - rewrite Hj2. simpl. by rewrite Hid2.
      - rewrite Hj. simpl. by rewrite Hid. }
    congruence. }
  right. exists (n_pos n), (value_after s (S (n_pos n)) (req_Key (c_req c))). split.
  - exists (RequestId op), t. split; [by rewrite <-Hop|done].
  - f_equal. unfold value_after. rewrite <-(request_op_Key _ (RequestId op)), <-Hop.
    assert (log_ops s !! n_pos n = Some op) as Hl by (unfold log_ops; by rewrite list_lookup_fmap, Hc).
    by rewrite (proj1 (at_log_apply _ _ _ _ Hat Hl)).
Qed.

Lemma answers_handle s i k c reqId (started : bool) s' :
  answers_ok s → calls s !! k = Some c → calls s' = calls s → committed s' = committed s → now s' = now s →
  rounds s' = rounds s → returned s' = returned s → handlers s' = handlers s ++ [MkHandlerRec i k reqId] →
  hstates s' = <[length (handlers s) := if started then HStarted else HAnswered (MkNotifyMsg ErrWrongLeader "")]> (hstates s) →
  answers_ok s'.
Proof.
  intros Ha Hk Hc Hl Hn Hr Hret Hh Hst.
  assert (committed s `prefix_of` committed s' ∧ calls s `prefix_of` calls s' ∧ handlers s `prefix_of` handlers s' ∧ now s ≤ now s')
    as (P1 & P2 & P3 & P4) by (rewrite Hl, Hc, Hh, Hn; split_and!; try done; by apply prefix_app_r).
  apply (answers_frame s s' P1 P2 P3 P4); try done; [|intros c' Hc'; rewrite Hc in Hc'; by left].
  intros j st. rewrite Hst, lookup_insert_Some. intros [[<- <-]|[_ ?]]; [right|by left].
  exists (MkHandlerRec i k reqId), c. rewrite Hh, Hc. split_and!; [by apply list_lookup_middle|done|].
  destruct started; [done|by left].
Qed.

Lemma answers_round s k c rd :
  answers_ok s → calls s !! k = Some c → round_ok s c rd →
  answers_ok (s <| rounds := <[k := default [] (rounds s !! k) ++ [rd]]> (rounds s) |>).
Proof.
  intros Ha Hk Hrd. destruct Ha as [H1' H2' H3' H4']. split; try done.
  intros k' rds'. simpl. rewrite lookup_insert_Some. intros [[<- <-]|[_ ?]]; [|by apply H2'].
  exists c. split; [done|]. apply Forall_app. split; [|by apply Forall_singleton].
  destruct (rounds s !! k) as [rds|] eqn:Hr; [|constructor]. destruct (H2' k rds Hr) as (c' & Hc' & Hf).
  rewrite Hk in Hc'. by injection Hc' as <-.
Qed.

Lemma answers_return s k c v :
  ids_ok s → answers_ok s → calls s !! k = Some c →
  call_result (c_clerk c) (c_req c) (default [] (rounds s !! k)) = Some v →
  answers_ok (s <| returned := <[k := (v, now s)]> (returned s) |> <| now := now s + 1 |>).
Proof.
  intros Hi Ha Hk Hr.
  assert (Forall (round_ok s c) (default [] (rounds s !! k))) as Hf.
  { destruct (rounds s !! k) as [rds|] eqn:Hrd; [|constructor]. destruct (ao_rounds s Ha k rds Hrd) as (c' & Hc' & Hf).
    rewrite Hk in Hc'. by injection Hc' as <-. }
  destruct (call_result_done s c _ v Hr Hf) as (p & v' & Hd & Hv).
  destruct Ha as [H1' H2' H3' H4']. split; try done; simpl.
  - intros k' v2 r. rewrite lookup_insert_Some. intros [[<- [= <- <-]]|[_ Hk']].
    + exists c, p, v'. split_and!; [done|done|simpl; lia| |done]. intros [op t] He. by destruct (io_committed s Hi _ _ _ He) as (_ & ? & _).
    + destruct (H3' k' v2 r Hk') as (c2 & p2 & v2' & ? & ? & ? & ? & ?). exists c2, p2, v2'. split_and!; [done..|simpl; lia|done|done].
  - intros k' v2 r c2. rewrite lookup_insert_Some. intros [[<- [= <- <-]]|[_ Hk']] Hin; [|by eapply H4'].
    destruct (io_clerk s Hi c2 Hin). lia.
Qed.

Lemma answers_step s s' :
  ids_ok s → nodes_ok s → answers_ok s → kv_step s s' → answers_ok s'.
Proof.
  intros Hi Hno Ha Hs.
  destruct Hs as [ck r Hr Hf|i n k c reqId rf' started Hn Hk Hf Hst|j h n Hj Hn Hst|op Hop|i n op t kv' rf' note hs Hn Hc Hw Hnote
    | |i n rf' Hn Hmv|j Hst|j h n Hj Hn Hst Hstop|j h c n o kv' m Hj Hc Hn Ho He| |i n max kv' rf' Hn Hst|k c rd Hk Hret Hkill Hm|k c v Hk Hret Hv].
  all: try (eapply answers_states; try done; intros j' st' Hj'; simpl in Hj'; by left).
  all: try (eapply answers_states; try done; intros j' st' Hj'; simpl in Hj'; eapply state_ok_insert; [exact Hj'|];
            by eapply state_ok_silent).
  - apply (answers_frame s); try done; [by apply prefix_app_r|simpl; lia|by left|].
    intros c [Hc| ->%list_elem_of_singleton]%elem_of_app; auto.
  - by eapply answers_handle.
  - apply (answers_frame s); try done; [by apply prefix_app_r|simpl; lia|by left|by left].
  - destruct note as [[id m]|]; simpl in Hnote; [|subst hs; eapply answers_states; try done; by left].
    destruct Hnote as (j & h & Hj & _ & Hid & Hst & ->). eapply answers_states; try done.
    intros j' st' Hj'. eapply state_ok_insert; [exact Hj'|]. by eapply notified_done.
  - eapply answers_states; try done. intros j' st' Hj'. eapply state_ok_insert; [exact Hj'|].
    destruct (ao_state s Ha j _ Ho) as (h' & c' & Hj2 & Hc2 & Hans). exists h', c'. split_and!; [done..|].
    destruct o; simpl in He; simplify_eq; [done|by left..].
  - eapply answers_states; try done. intros j' st' [[-> [st Hj]]|?]%drop_handlers_lookup; [|by left].
    right. by eapply state_ok_silent.
  - eapply answers_round; [done..|]. split; [done|]. intros m Hm'. destruct (Hm m Hm') as (j & h & Hj & Hh & Hst).
    destruct (ao_state s Ha j _ Hst) as (h' & c' & Hj' & Hc' & Hans).
    rewrite Hj in Hj'. injection Hj' as <-. rewrite Hh, Hk in Hc'. by injection Hc' as <-.
  - by eapply answers_return.
Qed.

(** ** Every reachable state *)

Record kv_inv s : Prop := { ki_ids : ids_ok s; ki_nodes_ok : nodes_ok s; ki_answers : answers_ok s }.

Lemma kv_inv_init s : kv_init s → kv_inv s.
Proof.
  intros [Hn Hs Hl Ht Hc Hr Hret Hh Hst].
  split; split; rewrite ?Hs, ?Hl, ?Ht, ?Hc, ?Hr, ?Hret, ?Hh, ?Hst; try (intros; set_solver); try apply NoDup_nil_2.
  - intros i n Hi. destruct (Hn i n Hi) as (Hp & max & Hstart). unfold node_ok, log_ops. rewrite Hl, Hp.
    unfold StartKVServer in Hstart. destruct (Make _ _ _) as [rf1|] eqn:Hm; cbn [mbind option_bind] in Hstart; [|done].
    pose proof (Make_persister _ _ _ _ Hm) as Hps. rewrite Hps in Hstart. simpl in Hstart. injection Hstart as Hkv Hrf.
    assert (∀ k me rf2, Make (C := Op) k me (MkPersister None None) = Some rf2 → lastSnapshotIndex rf2 = 0) as Hz.
    { intros k me rf2. unfold Make. destruct (make_slice k 0); simpl; [|done]. by intros [= <-]. }
    rewrite <-Hkv, <-Hrf. split_and!; [simpl; lia|done| |].
    + intros k me rf2. rewrite Hps, (Hz _ _ _ Hm). apply Hz.
    + left. unfold compacted. by rewrite Hps, (Hz _ _ _ Hm).
Qed.

Lemma kv_inv_reachable s0 s : kv_init s0 → rtc kv_step s0 s → kv_inv s.
Proof.
  intros Hinit Hr. apply (rtc_ind_r (R := kv_step) (λ s, kv_inv s) s0); [by apply kv_inv_init| |done].
  intros s1 s2 _ Hs [Hi Hno Ha]. split; [by eapply ids_step|by eapply nodes_step|by eapply answers_step].
Qed.
End system.
