(* ===== verification/KvRun.v ===== *)
(** * Running the key/value service

    An executable part of the step relation of [KvSystem], in which any interleaving of
    calls and handlers can be written down and evaluated. *)
From S2P Require Import Prelude RaftState RaftSnapshot KvServer KvClerk KvSystem.

Inductive Action :=
  | ACall (ck : Clerk) (r : Request)
  | ALead (i : nat)
  | AHandle (i k : nat) (reqId : Z)
  | ARegister (j : nat)
  | ACommit (op : Op)
  | AApply (i : nat)
  | ATimeout (j : nat)
  | ALeave (j : nat)
  | ARound (k : nat) (leaderId : Z) (j : nat)
  | AReturn (k : nat).

#[export] Instance clerk_request_dec ck r : Decision (clerk_request ck r).
Proof. destruct r; simpl; apply _. Defined.

Section run.
Context `{GoRand, GobCodec (RaftVal Op), GobCodec KvVal} (nservers : Z).
Implicit Types (s : KvSys) (kv : KVServer) (rf : Raft Op) (n : Node).

(** A peer of a cluster of one that wins an election. *)
Definition lead rf : Raft Op :=
  rf <| state := LEADER |> <| currentTerm := currentTerm rf + 1 |> <| nextIndex := [len (log rf)] |> <| matchIndex := [0] |>.

Definition do_notify (i : nat) (note : option (Z * NotifyMsg)) s : option (gmap nat HandlerState) :=
  match note with
  | None => Some (hstates s)
  | Some (id, m) =>
      '(j, h) ← list_find (λ h, h_id h = id ∧ h_server h = i) (handlers s);
      match hstates s !! j with
      | Some HWaiting => Some (<[j := HLeaving (Notified m)]> (hstates s))
      | _ => None
      end
  end.

Definition kv_do (a : Action) s : option KvSys :=
  match a with
  | ACall ck r =>
      if decide (clerk_request ck r ∧ Forall (λ c, req_MsgId (c_req c) ≠ req_MsgId r) (calls s)) then
        Some (s <| calls := calls s ++ [MkCallRec ck r (now s)] |> <| now := now s + 1 |>)
      else None
  | ALead i =>
      n ← nodes s !! i; Some (s <| nodes := <[i := n <| n_rf := lead (n_rf n) |>]> (nodes s) |>)
  | AHandle i k reqId =>
      n ← nodes s !! i; c ← calls s !! k;
      if decide (Forall (λ h, h_id h ≠ reqId) (handlers s)) then
        '(rf', started) ← handler_start (c_req c) reqId (n_rf n);
        Some (s <| nodes := <[i := n <| n_rf := rf' |>]> (nodes s) |>
          <| submitted := if (started : bool) then submitted s ++ [request_op (c_req c) reqId] else submitted s |>
          <| hstates := <[length (handlers s) := if (started : bool) then HStarted else HAnswered (MkNotifyMsg ErrWrongLeader "")]> (hstates s) |>
          <| handlers := handlers s ++ [MkHandlerRec i k reqId] |>)
      else None
  | ARegister j =>
      h ← handlers s !! j; n ← nodes s !! h_server h;
      match hstates s !! j with
      | Some HStarted =>
          Some (s <| nodes := <[h_server h := n <| n_kv := register (h_id h) (n_kv n) |>]> (nodes s) |>
            <| hstates := <[j := HWaiting]> (hstates s) |>)
      | _ => None
      end
  | ACommit op =>
      if decide (op ∈ submitted s) then
        Some (s <| committed := committed s ++ [(op, now s)] |> <| now := now s + 1 |>)
      else None
  | AApply i =>
      n ← nodes s !! i; '(op, t) ← committed s !! n_pos n;
      '(kv', rf', note) ← WaitApplyCh_msg (MkApplyMsg true (ICmd op) (Z.of_nat (n_pos n) + 1)) (n_kv n) (n_rf n);
      hs ← do_notify i note s;
      Some (s <| nodes := <[i := MkNode kv' rf' (S (n_pos n))]> (nodes s) |>
        <| taken := note_taken rf' (taken s) |> <| hstates := hs |>)
  | ATimeout j =>
      match hstates s !! j with
      | Some HWaiting => Some (s <| hstates := <[j := HLeaving WaitTimedOut]> (hstates s) |>)
      | _ => None
      end
  | ALeave j =>
      h ← handlers s !! j; c ← calls s !! h_call h; n ← nodes s !! h_server h;
      match hstates s !! j with
      | Some (HLeaving o) =>
          let '(kv', m) := waitForRaft_end (request_op (c_req c) (h_id h)) o (n_kv n) in
          Some (s <| nodes := <[h_server h := n <| n_kv := kv' |>]> (nodes s) |>
            <| hstates := <[j := HAnswered m]> (hstates s) |>)
      | _ => None
      end
  | ARound k leaderId j =>
      c ← calls s !! k; h ← handlers s !! j;
      match returned s !! k, hstates s !! j with
      | None, Some (HAnswered m) =>
          if decide (h_call h = k) then
            Some (s <| rounds := <[k := default [] (rounds s !! k) ++ [MkRound false leaderId (Some m) []]]> (rounds s) |>)
          else None
      | _, _ => None
      end
  | AReturn k =>
      c ← calls s !! k;
      match returned s !! k with
      | None =>
          v ← call_result (c_clerk c) (c_req c) (default [] (rounds s !! k));
          Some (s <| returned := <[k := (v, now s)]> (returned s) |> <| now := now s + 1 |>)
      | Some _ => None
      end
  end.

Lemma do_notify_ok i note s hs : do_notify i note s = Some hs → notify i note s hs.
Proof.
  destruct note as [[id m]|]; simpl; [|by intros [= <-]].
  destruct (list_find _ _) as [[j h]|] eqn:Hf; simpl; [|done]. apply list_find_Some in Hf as (Hj & [Hid Hi] & _).
  destruct (hstates s !! j) as [[]|] eqn:Hst; try done. intros [= <-]. by exists j, h.
Qed.

Lemma kv_do_step a s s' : kv_inv s → kv_do a s = Some s' → kv_step nservers s s'.
Proof.
  intros Hinv. destruct a as [ck r|i|i k reqId|j|op|i|j|j|k leaderId j|k]; simpl; intros Hd.
  - case_decide as Hc; [|done]. injection Hd as <-. destruct Hc as [Hr Hf]. rewrite list.Forall_forall in Hf. by apply kv_call.
  - destruct (nodes s !! i) as [n|] eqn:Hi; simplify_eq/=. apply kv_raft; [done|].
    apply raft_moves_same; [|done]. exact (node_persisted _ _ _ (ki_nodes_ok s Hinv) Hi).
  - destruct (nodes s !! i) as [n|] eqn:Hi; simplify_eq/=. destruct (calls s !! k) as [c|] eqn:Hc; simplify_eq/=.
    case_decide as Hf; [|done]. destruct (handler_start _ _ _) as [[rf' started]|] eqn:Hst; simplify_eq/=.
    rewrite list.Forall_forall in Hf. by apply kv_handle.
  - destruct (handlers s !! j) as [h|] eqn:Hj; simplify_eq/=. destruct (nodes s !! h_server h) as [n|] eqn:Hi; simplify_eq/=.
    destruct (hstates s !! j) as [[]|] eqn:Hst; simplify_eq. by apply kv_register.
  - case_decide; simplify_eq. by apply kv_commit.
  - destruct (nodes s !! i) as [n|] eqn:Hi; simplify_eq/=. destruct (committed s !! n_pos n) as [[op t]|] eqn:Hc; simplify_eq/=.
    destruct (WaitApplyCh_msg _ _ _) as [[[kv' rf'] note]|] eqn:Hw; simplify_eq/=.
    destruct (do_notify i note s) as [hs|] eqn:Hn; simplify_eq/=. apply do_notify_ok in Hn. by eapply kv_apply.
  - destruct (hstates s !! j) as [[]|] eqn:Hst; simplify_eq. by apply kv_timeout.
  - destruct (handlers s !! j) as [h|] eqn:Hj; simplify_eq/=. destruct (calls s !! h_call h) as [c|] eqn:Hc; simplify_eq/=.
    destruct (nodes s !! h_server h) as [n|] eqn:Hi; simplify_eq/=. destruct (hstates s !! j) as [[]|] eqn:Hst; simplify_eq.
    destruct (waitForRaft_end _ _ _) as [kv' m] eqn:He; simplify_eq. by eapply kv_leave.
  - destruct (calls s !! k) as [c|] eqn:Hc; simplify_eq/=. destruct (handlers s !! j) as [h|] eqn:Hj; simplify_eq/=.
    destruct (returned s !! k) eqn:Hr; [done|]. destruct (hstates s !! j) as [[]|] eqn:Hst; simplify_eq.
    case_decide; simplify_eq. eapply kv_round; try done. intros m' [= <-]. by exists j, h.
  - destruct (calls s !! k) as [c|] eqn:Hc; simplify_eq/=. destruct (returned s !! k) eqn:Hr; [done|].
    destruct (call_result _ _ _) as [v|] eqn:Hv; simplify_eq/=. by eapply kv_return.
Qed.

Definition kv_exec (acts : list Action) s : option KvSys := foldl (λ acc a, s ← acc; kv_do a s) (Some s) acts.

Lemma kv_exec_none acts : foldl (λ acc a, s ← acc; kv_do a s) None acts = None.
Proof. by induction acts. Qed.

(** A run is an execution. *)
Lemma kv_exec_reachable acts s0 s : kv_init nservers s0 → kv_exec acts s0 = Some s → rtc (kv_step nservers) s0 s.
Proof.
  intros Hinit. revert s. induction acts as [|a acts IH] using rev_ind; intros s; [intros [= <-]; constructor|].
  unfold kv_exec. rewrite foldl_app. simpl. change (foldl _ (Some s0) acts) with (kv_exec acts s0).
  destruct (kv_exec acts s0) as [s1|] eqn:He; simpl; [|done]. intros Ha. eapply rtc_r; [by apply IH|].
  apply (kv_do_step a); [by apply (kv_inv_reachable nservers s0), IH|done].
Qed.
End run.

(** ** One server, one clerk *)
Module KvSysDemo.
Export ZeroRand CountableCodec.

Definition dummy : KVServer * Raft Op := (KvDemo.kv0, KvDemo.no_raft).
Definition server0 : KVServer * Raft Op := default dummy (StartKVServer 1 0 (MkPersister None None) (-1)).
Definition sys0 : KvSys := MkKvSys [MkNode server0.1 server0.2 0] [] [] [] [] ∅ ∅ [] ∅ 0.

Lemma sys0_init : kv_init 1 sys0.
Proof.
  split; try done. intros [|i] n Hn; [|done]. injection Hn as <-. split; [done|]. exists (-1). vm_compute. reflexivity.
Qed.

Definition clerk : Clerk := MakeClerk 1 7.
Definition put (k v : string) (m : Z) : Request := RPutAppend (MkPutAppendArgs k v "Put" m 7).
Definition append (k v : string) (m : Z) : Request := RPutAppend (MkPutAppendArgs k v "Append" m 7).
Definition get (k : string) (m : Z) : Request := RGet (MkGetArgs k m 7).

(** Call [k], served by handler [j], alone on the server. *)
Definition serve (r : Request) (k j : nat) : list Action :=
  [ACall clerk r; AHandle 0 k (Z.of_nat j); ARegister j; ACommit (request_op r (Z.of_nat j)); AApply 0; ALeave j;
   ARound k 0 j; AReturn k].

Definition run (acts : list Action) : KvSys := default sys0 (kv_exec (ALead 0 :: acts) sys0).

Lemma run_reachable acts : is_Some (kv_exec (ALead 0 :: acts) sys0) → rtc (kv_step 1) sys0 (run acts).
Proof. intros [s Hs]. unfold run. rewrite Hs. by apply (kv_exec_reachable 1 (ALead 0 :: acts)), Hs; apply sys0_init. Qed.

Definition two_calls : list Action := serve (put "x" "1" 1) 0 0 ++ serve (get "x" 2) 1 1.

(** A copy of the first append, delayed on the way, reaches the server after the second. *)
Definition late_copy : list Action :=
  serve (append "x" "a" 1) 0 0 ++ serve (append "x" "b" 2) 1 1
  ++ [AHandle 0 0 9; ARegister 2; ACommit (request_op (append "x" "a" 1) 9); AApply 0]
  ++ serve (get "x" 3) 2 3.
End KvSysDemo.
