(* ===== verification/KvLinear.v ===== *)
(** * The key/value service is linearizable

    The history of the calls that clerks made, as the tests record it, has a legal order: by
    the places of their commands in the replicated log ([KvSystem]). *)
From S2P Require Import Prelude PorcModel PorcOrder PorcKv PorcParallel.
From S2P Require Import RaftState RaftSnapshot KvServer KvClerk KvSystem KvRun.

(** What the tests record of a call ([test_test.go]). *)
Definition kv_input (r : Request) : KvInput :=
  match r with
  | RGet a => MkKvInput 0 (ga_Key a) ""
  | RPutAppend a => MkKvInput (if bool_decide (pa_Op a = "Put"%string) then 1 else 2) (pa_Key a) (pa_Value a)
  end.

Definition kv_operation (c : CallRec) (v : string) (r : Z) : Operation KvValue :=
  MkOperation (ck_clientId (c_clerk c)) (Some (VKvInput (kv_input (c_req c)))) (c_time c)
    (Some (VKvOutput (MkKvOutput v))) r.

Section linear.
Context `{GoRand, GobCodec (RaftVal Op), GobCodec KvVal} (nservers : Z).
Implicit Types (s : KvSys) (k p q : nat) (c : CallRec).

Definition call_ids s : list nat := seq 0 (length (calls s)).

(** The operations of the calls that returned. *)
Definition history s : list (Operation KvValue) :=
  omap (λ k, c ← calls s !! k; '(v, r) ← returned s !! k; Some (kv_operation c v r)) (call_ids s).

(** A call as if it returned now, if it has not. *)
Definition completed s k : option (Operation KvValue) :=
  c ← calls s !! k;
  let '(v, r) := default (""%string, now s) (returned s !! k) in Some (kv_operation c v r).

(** A write that was called and has not returned. *)
Definition pending_write s k : Prop :=
  ∃ c a, calls s !! k = Some c ∧ c_req c = RPutAppend a ∧ returned s !! k = None.

(** ** Where a call takes effect

    A write at the first of its commands in the log, a read at the first after which the
    key had the value it returned. *)
Definition effect_at s k p : bool :=
  match calls s !! k, committed s !! p with
  | Some c, Some e =>
      (MsgId e.1 =? req_MsgId (c_req c))
      && match c_req c with
         | RGet a => bool_decide (fst <$> returned s !! k = Some (value_after s (S p) (ga_Key a)))
         | RPutAppend _ => true
         end
  | _, _ => false
  end.

Definition point s k : option nat :=
  snd <$> list_find (λ p, effect_at s k p = true) (seq 0 (length (committed s))).

Definition call_at s p : option nat :=
  snd <$> list_find (λ k, point s k = Some p) (call_ids s).

(** The linearization, up to place [p] of the log. *)
Definition lin s p : list (Operation KvValue) :=
  omap (λ p, k ← call_at s p; completed s k) (seq 0 p).

Lemma list_find_seq (P : nat → Prop) `{∀ x, Decision (P x)} n x :
  snd <$> list_find P (seq 0 n) = Some x ↔ (x < n)%nat ∧ P x ∧ ∀ y, (y < x)%nat → ¬ P y.
Proof.
  rewrite fmap_Some. split.
  - intros ([i y] & (Hi & HP & Hmin)%list_find_Some & ->). simpl.
    apply lookup_seq in Hi as [-> Hlt]. split_and!; [lia|done|].
    intros y Hy. apply (Hmin y); [|done]. apply lookup_seq. lia.
  - intros (Hlt & HP & Hmin). exists (x, x). split; [|done]. apply list_find_Some. split_and!; [apply lookup_seq; lia|done|].
    intros j y [-> Hj]%lookup_seq Hjx. by apply Hmin.
Qed.

Lemma effect_at_lt s k p : effect_at s k p = true → (p < length (committed s))%nat ∧ (k < length (calls s))%nat.
Proof.
  unfold effect_at. destruct (calls s !! k) eqn:Hc, (committed s !! p) eqn:Hp; try done. intros _.
  split; by eapply lookup_lt_Some.
Qed.

Lemma point_spec s k p :
  point s k = Some p ↔ effect_at s k p = true ∧ ∀ q, (q < p)%nat → effect_at s k q = false.
Proof.
  unfold point. rewrite list_find_seq. setoid_rewrite not_true_iff_false. split; [tauto|].
  intros [He Hmin]. split_and!; [by destruct (effect_at_lt s k p He)|done..].
Qed.

Lemma point_some s k p : effect_at s k p = true → ∃ q, (q ≤ p)%nat ∧ point s k = Some q.
Proof.
  revert p. apply (well_founded_induction lt_wf (λ p, effect_at s k p = true → _)). intros p IH He.
  destruct (decide (Exists (λ q, effect_at s k q = true) (seq 0 p))) as [(q & Hq & Heq)%list.Exists_exists|Hno].
  - apply elem_of_seq in Hq. destruct (IH q ltac:(lia) Heq) as (q' & Hle & Hp). exists q'. split; [lia|done].
  - exists p. split; [lia|]. apply point_spec. split; [done|]. intros q Hq. apply not_true_iff_false. intros Heq. apply Hno.
    apply list.Exists_exists. exists q. split; [apply elem_of_seq; lia|done].
Qed.

(** ** One command of the log *)

Section invariant.
Context s (Hinv : kv_inv s) (Hser : client_serial (log_ops s)).

Lemma msg_call k k' c c' :
  calls s !! k = Some c → calls s !! k' = Some c' → req_MsgId (c_req c) = req_MsgId (c_req c') → k = k'.
Proof.
  intros Hc Hc' He. eapply (NoDup_lookup _ k k'); [apply (io_calls s (ki_ids s Hinv))|..]; rewrite list_lookup_fmap.
  - by rewrite Hc.
  - rewrite Hc'. simpl. by rewrite He.
Qed.

Lemma committed_serves p op t :
  committed s !! p = Some (op, t) → ∃ k c, calls s !! k = Some c ∧ op = request_op (c_req c) (RequestId op) ∧ c_time c < t.
Proof. intros Hp. by destruct (io_committed s (ki_ids s Hinv) _ _ _ Hp) as (_ & _ & ?). Qed.

Lemma effect_serves k p op t :
  effect_at s k p = true → committed s !! p = Some (op, t) →
  ∃ c, calls s !! k = Some c ∧ op = request_op (c_req c) (RequestId op) ∧ c_time c < t.
Proof.
  intros He Hp. destruct (committed_serves p op t Hp) as (k' & c' & Hk' & Ho & Ht). exists c'. split; [|done].
  unfold effect_at in He. rewrite Hp in He. destruct (calls s !! k) as [c|] eqn:Hk; [|done].
  apply andb_true_iff in He as [He%Z.eqb_eq _]. rewrite <-Hk. simpl in He.
  rewrite (msg_call k k' c c' Hk Hk'); [done|]. by rewrite <-He, Ho, request_op_MsgId.
Qed.

Lemma call_at_spec p k : call_at s p = Some k ↔ point s k = Some p.
Proof.
  unfold call_at, call_ids. rewrite list_find_seq. split; [tauto|]. intros Hk. pose proof Hk as [He _]%point_spec.
  split_and!; [by destruct (effect_at_lt s k p He)|done|]. intros j Hj Hp%point_spec. destruct Hp as [He' _].
  destruct (committed s !! p) as [[op t]|] eqn:Hp; [|by unfold effect_at in He; rewrite Hp in He; destruct (calls s !! k)].
  destruct (effect_serves k p op t He Hp) as (c & Hc & Ho & _), (effect_serves j p op t He' Hp) as (c' & Hc' & Ho' & _).
  assert (j = k); [|lia]. apply (msg_call j k c' c Hc' Hc).
  by rewrite <-!(request_op_MsgId _ (RequestId op)), <-Ho, <-Ho'.
Qed.

Lemma client_serial_take n : client_serial (take n (log_ops s)).
Proof.
  intros i j k a b c Hijk Ha Hb Hc. apply lookup_take_Some in Ha as [Ha _], Hb as [Hb _], Hc as [Hc _].
  by apply (Hser i j k a b c).
Qed.

Lemma log_ops_lookup p op t : committed s !! p = Some (op, t) → log_ops s !! p = Some op.
Proof. intros Hp. unfold log_ops. by rewrite list_lookup_fmap, Hp. Qed.

Lemma write_method k c op :
  calls s !! k = Some c → op = request_op (c_req c) (RequestId op) →
  is_write op = match c_req c with RGet _ => false | RPutAppend _ => true end.
Proof.
  intros Hc ->. pose proof (list_elem_of_lookup_2 _ _ _ Hc) as Hin.
  destruct (io_clerk s (ki_ids s Hinv) c Hin) as [Hr _]. unfold is_write.
  destruct (c_req c) as [a|a]; simpl in *; [done|]. by destruct Hr as [_ [-> | ->]].
Qed.

(** A write entry runs when it is its call's first. *)
Lemma write_runs k c p op t :
  calls s !! k = Some c → op = request_op (c_req c) (RequestId op) → committed s !! p = Some (op, t) → is_write op →
  CheckApplied (MsgId op) (ClientId op) (apply_commands (take p (log_ops s)) blank) = false ↔ point s k = Some p.
Proof.
  intros Hc Ho Hp Hw. pose proof (log_ops_lookup p op t Hp) as Hl.
  pose proof (apply_commands_refines (take p (log_ops s)) blank eq_refl eq_refl (client_serial_take p)) as Href.
  rewrite (refines_executed _ _ _ Href); [|by rewrite <-(take_S_r _ _ _ Hl); apply client_serial_take|done].
  destruct Href as (_ & _ & Hex). rewrite bool_decide_eq_false, Hex, point_spec.
  assert (∀ q, effect_at s k q = true ↔ ∃ e, committed s !! q = Some e ∧ MsgId e.1 = MsgId op) as Heff.
  { intros q. pose proof (write_method k c op Hc Ho) as Hm. unfold effect_at. rewrite Hc.
    destruct (c_req c) as [a|a] eqn:Hr; [by rewrite Hm in Hw|]. rewrite <-Hr, <-(request_op_MsgId _ (RequestId op)), Hr, <-Ho.
    destruct (committed s !! q) as [e|]; [|naive_solver]. rewrite andb_true_r, Z.eqb_eq. naive_solver. }
  split.
  - intros Hno. split; [apply Heff; by exists (op, t)|]. intros q Hq. apply not_true_iff_false. intros Hqe.
    pose proof Hqe as ([op' t'] & Hq' & Hm)%Heff. apply Hno. destruct (effect_serves k q op' t' Hqe Hq') as (c' & Hc' & Ho' & _).
    rewrite Hc in Hc'. injection Hc' as <-. exists q, op'.
    rewrite lookup_take_lt by done. split_and!; [by eapply log_ops_lookup| | |done].
    + by rewrite (write_method k c op' Hc Ho'), <-(write_method k c op Hc Ho).
    + rewrite Ho', Ho. by destruct (c_req c).
  - intros [_ Hmin] (q & a & [Ha Hlt]%lookup_take_Some & _ & _ & Hm).
    unfold log_ops in Ha. apply list_lookup_fmap_Some in Ha as ([op' t'] & -> & Hq).
    specialize (Hmin q Hlt). apply not_true_iff_false in Hmin. apply Hmin, Heff. by exists (op', t').
Qed.

(** What a command does to the values. *)
Lemma value_step k c p op t key :
  calls s !! k = Some c → op = request_op (c_req c) (RequestId op) → committed s !! p = Some (op, t) →
  value_after s (S p) key =
    if is_write op && bool_decide (point s k = Some p)
    then default ""%string (spec_write op (kv_data (apply_commands (take p (log_ops s)) blank)) !! key)
    else value_after s p key.
Proof.
  intros Hc Ho Hp. unfold value_after at 1. rewrite (take_S_r _ _ _ (log_ops_lookup p op t Hp)), apply_commands_snoc, apply_command_cases.
  destruct (is_write op) eqn:Hw; simpl; [|done].
  assert (is_write op) as Hw' by by rewrite Hw. pose proof (write_runs k c p op t Hc Ho Hp Hw') as Hrun.
  destruct (CheckApplied _ _ _) eqn:Hca; simpl.
  - rewrite bool_decide_false; [done|]. intros Hpt. by apply Hrun in Hpt.
  - rewrite bool_decide_true; [done|]. by apply Hrun.
Qed.

(** ** The linearization is in order and legal *)

Lemma returned_effect k v r :
  returned s !! k = Some (v, r) →
  ∃ p e, effect_at s k p = true ∧ committed s !! p = Some e ∧ e.2 < r.
Proof.
  intros Hk. destruct (ao_returned s (ki_answers s Hinv) k v r Hk) as (c & p & v' & Hc & (id & t & Hp & Hv') & _ & Hr & Hv).
  exists p, (request_op (c_req c) id, t). split_and!; [|done|by apply (Hr _ Hp)].
  unfold effect_at. rewrite Hc, Hp. simpl. rewrite request_op_MsgId, Z.eqb_refl, Hk. simpl.
  destruct (c_req c) as [a|a]; simpl in *; [|done]. apply bool_decide_eq_true. congruence.
Qed.

Lemma completed_ok k p op t :
  point s k = Some p → committed s !! p = Some (op, t) →
  ∃ c v r, calls s !! k = Some c ∧ op = request_op (c_req c) (RequestId op)
    ∧ completed s k = Some (kv_operation c v r) ∧ c_time c < t < r
    ∧ match c_req c with RGet a => v = value_after s (S p) (ga_Key a) | RPutAppend _ => True end.
Proof.
  intros [He Hmin]%point_spec Hp. destruct (effect_serves k p op t He Hp) as (c & Hc & Ho & Ht).
  exists c. unfold completed. rewrite Hc. simpl. unfold effect_at in He. rewrite Hc, Hp in He. simpl in He.
  apply andb_true_iff in He as [_ He]. destruct (returned s !! k) as [[v r]|] eqn:Hret; simpl.
  - exists v, r. split_and!; [done..| |].
    + destruct (returned_effect k v r Hret) as (q & e & Heq & Hq & Hlt).
      destruct (Nat.lt_trichotomy q p) as [Hqp|[->|Hpq]].
      * by rewrite (Hmin q Hqp) in Heq.
      * rewrite Hp in Hq. by injection Hq as <-.
      * pose proof (io_sorted s (ki_ids s Hinv) p q _ _ Hpq Hp Hq). simpl in *. lia.
    + destruct (c_req c); [|done]. apply bool_decide_eq_true in He. by injection He.
  - exists ""%string, (now s). split_and!; [done..| |].
    + by destruct (io_committed s (ki_ids s Hinv) _ _ _ Hp) as (_ & ? & _).
    + destruct (c_req c); [|done]. by apply bool_decide_eq_true in He.
Qed.

Lemma lin_S p : lin s (S p) = lin s p ++ option_list (k ← call_at s p; completed s k).
Proof. unfold lin. rewrite seq_S, omap_app. simpl. by destruct (k ← call_at s p; completed s k). Qed.

(** A call's operation runs on a map that has the values of the log. *)
Lemma completed_runs st k p op t :
  (∀ key, default ""%string (st !! key) = value_after s p key) → point s k = Some p → committed s !! p = Some (op, t) →
  ∃ o st', completed s k = Some o ∧ Step KvMapModel st (Input o) (Output o) = Some (true, st')
    ∧ ∀ key, default ""%string (st' !! key) = value_after s (S p) key.
Proof.
  intros Hst Hk Hp. destruct (completed_ok k p op t Hk Hp) as (c & v & r & Hc & Ho & -> & _ & Hv).
  pose proof (value_step k c p op t) as Hstep. rewrite (write_method k c op Hc Ho) in Hstep.
  exists (kv_operation c v r). simpl. unfold MapStep, KvStep. simpl.
  pose proof (io_clerk s (ki_ids s Hinv) c (list_elem_of_lookup_2 _ _ _ Hc)) as [Hcl _].
  destruct (c_req c) as [a|a] eqn:Hr; simpl in *.
  - eexists. split_and!; [done| |].
    + rewrite bool_decide_true; [done|]. by rewrite Hv, (Hstep _ Hc Ho Hp), Hst.
    + intros key. rewrite (Hstep _ Hc Ho Hp), <-Hst. destruct (decide (ga_Key a = key)) as [->|].
      * by rewrite lookup_insert_eq.
      * by rewrite lookup_insert_ne.
  - set (v' := if bool_decide (pa_Op a = "Put"%string) then pa_Value a else (default ""%string (st !! pa_Key a) +:+ pa_Value a)%string).
    exists (<[pa_Key a := v']> st). split_and!; [done|subst v'; by destruct (bool_decide (pa_Op a = _))|]. intros key.
    rewrite (Hstep _ Hc Ho Hp), (bool_decide_true _ Hk). simpl.
    assert (spec_write op (kv_data (apply_commands (take p (log_ops s)) blank))
      = <[pa_Key a := v']> (kv_data (apply_commands (take p (log_ops s)) blank))) as ->.
    { unfold spec_write. rewrite Ho. subst v'. simpl. rewrite Hst. by destruct (bool_decide (pa_Op a = _)). }
    destruct (decide (pa_Key a = key)) as [->|]; [by rewrite !lookup_insert_eq|].
    rewrite !lookup_insert_ne by done. apply Hst.
Qed.

Lemma lin_ok p :
  (p ≤ length (committed s))%nat →
  in_order (lin s p)
  ∧ (∀ o, o ∈ lin s p → ∃ q e, (q < p)%nat ∧ committed s !! q = Some e ∧ Call o < e.2 < Return o)
  ∧ ∃ st, run KvMapModel ∅ (lin s p) = Some st ∧ ∀ key, default ""%string (st !! key) = value_after s p key.
Proof.
  induction p as [|p IH]; intros Hp.
  { split_and!; [intros ? ? ? ? ?; done|intros o Ho; by inversion Ho|]. exists ∅. split; [done|]. intros key. by rewrite lookup_empty. }
  destruct IH as (Hord & Htime & st & Hrun & Hst); [lia|].
  destruct (lookup_lt_is_Some_2 (committed s) p) as [[op t] Hop]; [lia|].
  destruct (committed_serves p op t Hop) as (k0 & c0 & Hc0 & Ho0 & _).
  rewrite lin_S. destruct (call_at s p) as [k|] eqn:Hk; simpl.
  - apply call_at_spec in Hk. destruct (completed_runs st k p op t Hst Hk Hop) as (o & st' & Ho & Hs & Hst').
    destruct (completed_ok k p op t Hk Hop) as (c & v & r & _ & _ & Ho' & Ht & _). rewrite Ho in Ho'. rewrite Ho. simpl.
    assert (Call o < t < Return o) as Hto by (injection Ho' as ->; done). split_and!.
    + apply in_order_app. split_and!; [done|apply in_order_single|].
      intros a b Ha ->%list_elem_of_singleton. destruct (Htime a Ha) as (q & e & Hq & He & ?).
      pose proof (io_sorted s (ki_ids s Hinv) q p _ _ Hq He Hop). simpl in *. lia.
    + intros a [Ha| ->%list_elem_of_singleton]%elem_of_app.
      * destruct (Htime a Ha) as (q & e & Hq & Hrest). exists q, e. split; [lia|done].
      * exists p, (op, t). split_and!; [lia|done|simpl; lia..].
    + exists st'. split; [|done]. rewrite run_app, Hrun. cbn [mbind option_bind run]. by rewrite Hs.
  - rewrite app_nil_r. split_and!; [done| |exists st; split; [done|]].
    + intros a Ha. destruct (Htime a Ha) as (q & e & Hq & Hrest). exists q, e. split; [lia|done].
    + intros key. rewrite Hst, (value_step k0 c0 p op t key Hc0 Ho0 Hop), bool_decide_false, andb_false_r; [done|].
      intros Hpt%call_at_spec. congruence.
Qed.

(** ** The linearization is of the history and some pending writes *)

Lemma point_some_returned k v r : returned s !! k = Some (v, r) → is_Some (point s k).
Proof. intros Hk. destruct (returned_effect k v r Hk) as (p & _ & He & _). destruct (point_some s k p He) as (q & _ & ->). done. Qed.

Definition late_writes : list nat := filter (λ k, returned s !! k = None ∧ is_Some (point s k)) (call_ids s).

Lemma late_pending k : k ∈ late_writes → pending_write s k.
Proof.
  intros [[Hret [p [He _]%point_spec]] _]%list_elem_of_filter. unfold effect_at in He. rewrite Hret in He.
  destruct (calls s !! k) as [c|] eqn:Hc; [|done]. destruct (committed s !! p); [|done].
  destruct (c_req c) as [a|a] eqn:Hr; [|by exists c, a]. by rewrite andb_false_r in He.
Qed.

Lemma history_completed :
  history s = omap (completed s) (filter (λ k, is_Some (returned s !! k)) (call_ids s)).
Proof.
  unfold history. apply omap_filter; intros k _ Hk; unfold completed.
  - by destruct Hk as [[v r] ->].
  - apply eq_None_not_Some in Hk as ->. by destruct (calls s !! k).
Qed.

Lemma lin_perm :
  lin s (length (committed s)) ≡ₚ history s ++ omap (completed s) late_writes.
Proof.
  unfold lin. rewrite omap_omap, history_completed, <-omap_app. apply omap_Permutation, NoDup_Permutation.
  - apply NoDup_omap; [|apply NoDup_seq]. intros p q k Hp%call_at_spec Hq%call_at_spec. congruence.
  - apply list.NoDup_app. split_and!; [apply list.NoDup_filter, NoDup_seq| |apply list.NoDup_filter, NoDup_seq].
    intros k [[? Hk] _]%list_elem_of_filter [[Hn _] _]%list_elem_of_filter. congruence.
  - intros k. unfold late_writes. rewrite list_elem_of_omap, elem_of_app, !list_elem_of_filter. unfold call_ids. split.
    + intros (p & _ & Hp%call_at_spec). pose proof Hp as [[_ Hlt]%effect_at_lt _]%point_spec.
      assert (k ∈ seq 0 (length (calls s))) as Hin by (apply elem_of_seq; lia).
      assert (is_Some (point s k)) by by exists p.
      destruct (returned s !! k) eqn:Hk; [left; by split|right; by split].
    + assert (is_Some (point s k) → ∃ p, p ∈ seq 0 (length (committed s)) ∧ call_at s p = Some k) as Hpt.
      { intros [p Hp]. exists p. rewrite call_at_spec. split; [|done]. apply point_spec in Hp as [[Hlt _]%effect_at_lt _].
        apply elem_of_seq. lia. }
      intros [[[[v r] Hk] _]|[[_ Hk] _]]; apply Hpt; [by eapply point_some_returned|done].
Qed.

Lemma linearizable_with_late : linearizable KvMapModel (history s ++ omap (completed s) late_writes).
Proof.
  destruct (lin_ok (length (committed s)) (le_n _)) as (Hord & _ & st & Hrun & _).
  exists (lin s (length (committed s))). split_and!; [by apply lin_perm|done|].
  apply legal_run. change (Init KvMapModel) with (∅ : gmap string string). by rewrite Hrun.
Qed.
End invariant.

(** ** Properties *)

(** C4. The key/value service is linearizable: in every reachable state of clerks and
    servers, for every interleaving of calls, retries, crashes, restarts and snapshots, the
    calls that returned, together with some of the writes still under way, have an order
    that respects real time and in which every read returns what the writes before it left.
    Raft's promises are those of the steps; the log must keep clients serial, that is no
    copy of a write may be logged after the client's next one. *)
Theorem kv_linearizable s0 s :
  kv_init nservers s0 → rtc (kv_step nservers) s0 s → client_serial (log_ops s) →
  ∃ late, NoDup late ∧ Forall (pending_write s) late
    ∧ linearizable KvMapModel (history s ++ omap (completed s) late).
Proof.
  intros Hinit Hr Hser. pose proof (kv_inv_reachable nservers s0 s Hinit Hr) as Hinv.
  exists (late_writes s). split_and!.
  - apply list.NoDup_filter, NoDup_seq.
  - apply list.Forall_forall. apply late_pending.
  - by apply linearizable_with_late.
Qed.

Lemma history_elem s o :
  o ∈ history s → ∃ k c v r, calls s !! k = Some c ∧ returned s !! k = Some (v, r) ∧ o = kv_operation c v r.
Proof.
  intros (k & _ & Hk)%list_elem_of_omap. destruct (calls s !! k) as [c|] eqn:Hc; simplify_eq/=.
  destruct (returned s !! k) as [[v r]|] eqn:Hr; simplify_eq/=. by exists k, c, v, r.
Qed.

Lemma history_typed s : Forall well_typed (history s).
Proof. apply list.Forall_forall. intros o (k & c & v & r & _ & _ & ->)%history_elem. by split; eexists. Qed.

Lemma history_timed s : kv_inv s → well_timed (history s).
Proof.
  intros Hinv a b (k & c & v & r & Hc & Hr & ->)%history_elem (k' & c' & v' & r' & Hc' & Hr' & ->)%history_elem. simpl. split.
  - destruct (returned_effect s Hinv k v r Hr) as (p & [op t] & He & Hp & Hlt).
    destruct (effect_serves s Hinv k p op t He Hp) as (c2 & Hc2 & _ & Ht). rewrite Hc in Hc2. injection Hc2 as <-. simpl in Hlt. lia.
  - apply not_eq_sym. eapply (ao_times s (ki_answers s Hinv)); [exact Hr|]. by eapply list_elem_of_lookup_2.
Qed.

End linear.

(** ** One server and one clerk *)
Section demo.
Import KvSysDemo MergeTimeSort.

Definition demo_check (s : KvSys) : option (CheckResult * linearizationInfo KvValue) :=
  checkOperations (enough_fuel (history s)) KvModel (history s) false 1 (λ _ _, false) [ArriveResult 0] (λ _ l, l).

Lemma demo_check_fst s res : fst <$> demo_check s = Some res → ∃ info, demo_check s = Some (res, info).
Proof. intros ([? info] & -> & ->)%fmap_Some. by exists info. Qed.

Lemma demo_check_illegal s info : kv_inv s → demo_check s = Some (Illegal, info) → ¬ linearizable KvMapModel (history s).
Proof.
  intros Hinv Hc.
  by apply (check_kv_answer _ _ _ _ _ _ _ _ _ (history_typed _) (history_timed _ Hinv) (le_n _)
    (λ _ _, Permutation_refl _) (λ _ _ _, eq_refl) Hc).
Qed.

Lemma all_returned s :
  Forall (λ k, is_Some (returned s !! k)) (call_ids s) → ∀ k c, calls s !! k = Some c → is_Some (returned s !! k).
Proof.
  intros Hf k c Hc. rewrite list.Forall_forall in Hf. apply Hf, elem_of_seq. apply lookup_lt_Some in Hc. lia.
Qed.

Lemma two_calls_serial : client_serial (log_ops (KvSysDemo.run two_calls)).
Proof. intros i j k a b c Hijk _ _ Hc. apply lookup_lt_Some in Hc. vm_compute in Hc. lia. Qed.

(** C19. A late copy breaks it: when a copy of an append that was delayed on the way reaches
    the server after the clerk's next append, it is executed again, and the reads show it;
    the history of such an execution, every call of which returned, is not
    linearizable. *)
Theorem late_copy_not_linearizable :
  ∃ s, rtc (kv_step 1) sys0 s ∧ (∀ k c, calls s !! k = Some c → is_Some (returned s !! k))
    ∧ ¬ linearizable KvMapModel (history s).
Proof.
  exists (KvSysDemo.run late_copy).
  assert (rtc (kv_step 1) sys0 (KvSysDemo.run late_copy)) as Hr by (apply run_reachable, (bool_decide_unpack _); vm_compute; exact I).
  split; [done|]. split; [apply all_returned, (bool_decide_unpack _); vm_compute; exact I|].
  pose proof (kv_inv_reachable 1 _ _ sys0_init Hr) as Hinv.
  destruct (demo_check_fst (KvSysDemo.run late_copy) Illegal ltac:(vm_compute; reflexivity)) as [info Hc].
  by eapply demo_check_illegal.
Qed.

Lemma two_calls_reachable : rtc (kv_step 1) sys0 (KvSysDemo.run two_calls).
Proof. apply run_reachable, (bool_decide_unpack _). vm_compute. exact I. Qed.

Lemma two_calls_returned k c :
  calls (KvSysDemo.run two_calls) !! k = Some c → is_Some (returned (KvSysDemo.run two_calls) !! k).
Proof. revert k c. apply all_returned, (bool_decide_unpack _). vm_compute. exact I. Qed.

Lemma two_calls_checked : ∃ info, demo_check (KvSysDemo.run two_calls) = Some (Ok, info).
Proof. apply demo_check_fst. vm_compute. reflexivity. Qed.

Lemma kv_linearizable_witness :
  fst <$> returned (KvSysDemo.run two_calls) !! 1%nat = Some "1"%string
  ∧ ∃ late, NoDup late ∧ linearizable KvMapModel (history (KvSysDemo.run two_calls) ++ omap (completed (KvSysDemo.run two_calls)) late).
Proof.
  split; [vm_compute; reflexivity|].
  destruct (kv_linearizable 1 sys0 (KvSysDemo.run two_calls) sys0_init) as (late & Hnd & _ & Hlin).
  - exact two_calls_reachable.
  - exact two_calls_serial.
  - exists late. exact (conj Hnd Hlin).
Defined.

End demo.
