(* ===== verification/KvRaft.v ===== *)
(** * The key/value service on Raft

    [KvSystem] takes from Raft one log that every server delivers in order.  Here the
    servers run on the peers of [RaftSafe] instead: a handler calls [Start] on its server's
    peer, the peers exchange their messages, and what a server applies is what its own peer
    has sent it, from its own log.  No server compacts ([maxraftstate] is -1).  Every
    execution is one of [KvSystem], with the same calls, replies and times of the clerks,
    so the service is linearizable. *)
From S2P Require Import Prelude RaftState RaftVote RaftSnapshot RaftReplicate RaftApply RaftCluster RaftLog.
From S2P Require Import RaftSafe RaftSafeStep RaftSafety KvServer KvClerk KvSystem PorcModel PorcKv KvLinear.

(** The way from a peer's [Apply] to its server: the messages [Apply] has collected and not
    sent yet, the one the server's goroutine has received and not handled yet, and the one
    that is sent while the peer has not yet moved its [lastApplied]. *)
Record Feed := MkFeed {
  f_queue : list (ApplyMsg Op);
  f_inbox : option (ApplyMsg Op);
  f_sent : option (ApplyMsg Op)
}.
#[export] Instance Feed_eta : Eta Feed := λ f, MkFeed (f_queue f) (f_inbox f) (f_sent f).
Definition feed0 : Feed := MkFeed [] None None.

(** The clerks, handlers and servers as in [KvSystem], whose log is now a history variable:
    the commands that have been collected by some peer, with the moment the first did.  The
    node of a server holds the state its peer has in the cluster. *)
Record Service := MkService {
  sv_sys : KvSys;
  sv_raft : AckCluster Op;
  sv_feeds : gmap nat Feed
}.

Section service.
Context `{GoRand, GobCodec (RaftVal Op), GobCodec KvVal} (nservers : Z).
Implicit Types (x : Service) (s : KvSys) (r : AckCluster Op) (rf : Raft Op) (nd : Node) (G : list Op).

Definition feed_of x (i : nat) : Feed := default feed0 (sv_feeds x !! i).

Definition set_node (i : nat) nd s : KvSys := s <| nodes := <[i := nd]> (nodes s) |>.

(** The cluster takes a step that leaves server [i]'s peer as [rf']. *)
Definition moves (i : nat) rf' r r' : Prop :=
  ack_step nservers r r' ∧ servers (lc_cluster (ac_log r')) = <[Z.of_nat i := rf']> (servers (lc_cluster (ac_log r))).

Definition msg_op (m : ApplyMsg Op) : option Op :=
  match msg_Command m with ICmd op => Some op | _ => None end.

(** The commands that no peer had collected before. *)
Definition new_ops s (msgs : list (ApplyMsg Op)) : list Op :=
  omap msg_op (filter (λ m, len (committed s) < CommandIndex m) msgs).

Definition note_commit s (op : Op) : KvSys :=
  s <| committed := committed s ++ [(op, now s)] |> <| now := now s + 1 |>.

(** What the steps of clerks and handlers leave alone. *)
Definition peer_view nd : Raft Op * nat * Z := (n_rf nd, n_pos nd, maxraftstate (n_kv nd)).

Inductive service_step x : Service → Prop :=
  (* clerks, messages and handlers, as in [KvSystem] *)
  | service_clerks s' :
      kv_step nservers (sv_sys x) s' → peer_view <$> nodes s' = peer_view <$> nodes (sv_sys x) →
      committed s' = committed (sv_sys x) → submitted s' = submitted (sv_sys x) →
      service_step x (MkService s' (sv_raft x) (sv_feeds x))
  (* a handler whose server's peer leads *)
  | service_start i nd k c reqId rf' index term r' :
      nodes (sv_sys x) !! i = Some nd → calls (sv_sys x) !! k = Some c →
      (∀ h, h ∈ handlers (sv_sys x) → h_id h ≠ reqId) →
      Start (request_op (c_req c) reqId) (n_rf nd) = Some (rf', (index, term, true)) →
      moves i rf' (sv_raft x) r' →
      service_step x (MkService (set_node i (nd <| n_rf := rf' |>) (sv_sys x)
          <| submitted := submitted (sv_sys x) ++ [request_op (c_req c) reqId] |>
          <| hstates := <[length (handlers (sv_sys x)) := HStarted]> (hstates (sv_sys x)) |>
          <| handlers := handlers (sv_sys x) ++ [MkHandlerRec i k reqId] |>) r' (sv_feeds x))
  (* elections, replication and timers: no command is added and nothing is delivered *)
  | service_raft i nd rf' r' :
      nodes (sv_sys x) !! i = Some nd → moves i rf' (sv_raft x) r' →
      lastApplied rf' = lastApplied (n_rf nd) → (state rf' = LEADER → log rf' = log (n_rf nd)) →
      service_step x (MkService (set_node i (nd <| n_rf := rf' |>) (sv_sys x)) r' (sv_feeds x))
  (* [Apply]: collecting, sending each message, and moving [lastApplied] after each *)
  | service_collect i nd msgs :
      nodes (sv_sys x) !! i = Some nd → f_queue (feed_of x i) = [] → f_sent (feed_of x i) = None →
      Apply_collect (n_rf nd) = Some msgs →
      service_step x (MkService (foldl note_commit (sv_sys x) (new_ops (sv_sys x) msgs)) (sv_raft x)
        (<[i := feed_of x i <| f_queue := msgs |>]> (sv_feeds x)))
  | service_send i m q :
      f_queue (feed_of x i) = m :: q → f_inbox (feed_of x i) = None → f_sent (feed_of x i) = None →
      service_step x (MkService (sv_sys x) (sv_raft x) (<[i := MkFeed q (Some m) (Some m)]> (sv_feeds x)))
  | service_sent i nd m r' :
      nodes (sv_sys x) !! i = Some nd → f_sent (feed_of x i) = Some m →
      moves i (Apply_deliver m (n_rf nd)) (sv_raft x) r' →
      service_step x (MkService (set_node i (nd <| n_rf := Apply_deliver m (n_rf nd) |>) (sv_sys x)) r'
        (<[i := feed_of x i <| f_sent := None |>]> (sv_feeds x)))
  (* the server handles the message it has received *)
  | service_apply i nd m kv' note hs :
      nodes (sv_sys x) !! i = Some nd → f_inbox (feed_of x i) = Some m →
      WaitApplyCh_msg m (n_kv nd) (n_rf nd) = Some (kv', n_rf nd, note) → notify i note (sv_sys x) hs →
      service_step x (MkService (set_node i (MkNode kv' (n_rf nd) (S (n_pos nd))) (sv_sys x)
          <| taken := note_taken (n_rf nd) (taken (sv_sys x)) |> <| hstates := hs |>) (sv_raft x)
        (<[i := feed_of x i <| f_inbox := None |>]> (sv_feeds x)))
  | service_kill i nd kv' rf' r' :
      nodes (sv_sys x) !! i = Some nd → KV_Kill (n_kv nd) (n_rf nd) = Some (kv', rf') →
      moves i rf' (sv_raft x) r' →
      service_step x (MkService (set_node i (nd <| n_kv := kv' |> <| n_rf := rf' |>) (sv_sys x)) r' (sv_feeds x))
  | service_restart i nd kv' rf' r' :
      nodes (sv_sys x) !! i = Some nd →
      StartKVServer nservers (Z.of_nat i) (persister (n_rf nd)) (-1) = Some (kv', rf') →
      moves i rf' (sv_raft x) r' →
      service_step x (MkService (set_node i (MkNode kv' rf' (Z.to_nat (lastSnapshotIndex rf'))) (sv_sys x)
          <| hstates := drop_handlers i (sv_sys x) |>) r' (<[i := feed0]> (sv_feeds x))).

(** Handlers start for the last call of a client only: no request is delivered after its
    clerk has gone on to its next call. *)
Definition req_ClientId (r : Request) : Z :=
  match r with RGet a => ga_ClientId a | RPutAppend a => pa_ClientId a end.
Definition in_time s s' : Prop :=
  ∀ h c k c', h ∈ handlers s' → h ∉ handlers s → calls s' !! h_call h = Some c → calls s' !! k = Some c' →
    req_ClientId (c_req c') = req_ClientId (c_req c) → (k ≤ h_call h)%nat.
Definition timely_step x x' : Prop := service_step x x' ∧ in_time (sv_sys x) (sv_sys x').

(** Servers that were just started on a cluster that was just started. *)
Definition service_init x : Prop :=
  kv_init nservers (sv_sys x) ∧ sv_feeds x = ∅
  ∧ (∃ cs, cluster_init nservers cs ∧ sv_raft x = MkAck (MkLogCluster cs [] ∅) ∅)
  ∧ ∀ i nd, nodes (sv_sys x) !! i = Some nd →
      peer_at (sv_raft x) (Z.of_nat i) = Some (n_rf nd) ∧ maxraftstate (n_kv nd) = -1.

(** ** The invariant *)

(** Message [m] is that of position [k] of the log. *)
Definition at_log G (k : nat) (m : ApplyMsg Op) : Prop :=
  ∃ op, G !! k = Some op ∧ m = MkApplyMsg true (ICmd op) (Z.of_nat k + 1).

(** How many messages the server has received. *)
Definition received nd (f : Feed) : nat :=
  match f_inbox f with Some _ => S (n_pos nd) | None => n_pos nd end.

Record feed_ok G nd (f : Feed) : Prop := {
  fo_pos : (received nd f ≤ length G)%nat;
  fo_inbox : ∀ m, f_inbox f = Some m → at_log G (n_pos nd) m;
  fo_applied : Z.of_nat (received nd f) =
    match f_sent f with Some _ => lastApplied (n_rf nd) + 1 | None => lastApplied (n_rf nd) end;
  fo_sent : ∀ m, f_sent f = Some m → ∃ op, m = MkApplyMsg true (ICmd op) (lastApplied (n_rf nd) + 1);
  fo_queue : ∀ j m, f_queue f !! j = Some m → at_log G (received nd f + j) m
}.

(** The leaders' logs hold submitted commands only. *)
Definition entries_ok (L : gmap Z (list (Log Op))) (subs : list Op) : Prop :=
  ∀ t l k e, L !! t = Some l → (0 < k)%nat → l !! k = Some e → ∃ op, Command e = ICmd op ∧ op ∈ subs.

(** The entries of [l] after the first are the commands [G], as far as they go. *)
Definition log_starts (l : list (Log Op)) G : Prop :=
  ∀ k op, G !! k = Some op → ∃ e, l !! S k = Some e ∧ Command e = ICmd op.

Record node_ok x (i : nat) nd : Prop := {
  no_peer : peer_at (sv_raft x) (Z.of_nat i) = Some (n_rf nd);
  no_max : maxraftstate (n_kv nd) = -1;
  no_snapshot : Persister_ReadSnapshot (persister (n_rf nd)) = None;
  no_feed : feed_ok (log_ops (sv_sys x)) nd (feed_of x i)
}.

Record service_inv x : Prop := {
  so_raft : ∃ V, safe_inv nservers (sv_raft x) V;
  so_nodes : ∀ i nd, nodes (sv_sys x) !! i = Some nd → node_ok x i nd;
  so_entries : entries_ok (lc_leader_logs (ac_log (sv_raft x))) (submitted (sv_sys x));
  so_log : ∃ T l, commit_ok nservers (acks (sv_raft x)) (lc_leader_logs (ac_log (sv_raft x))) T (len (log_ops (sv_sys x))) l
    ∧ log_starts l (log_ops (sv_sys x))
}.

(** ** Steps of the cluster *)

(** What a step that leaves a peer as [rf'] does to the cluster. *)
Record moved (i : nat) rf rf' r r' : Prop := {
  mv_inv : ∃ V, safe_inv nservers r' V;
  mv_self : peer_at r' (Z.of_nat i) = Some rf';
  mv_other : ∀ j, j ≠ i → peer_at r' (Z.of_nat j) = peer_at r (Z.of_nat j);
  mv_leaders : lc_leader_logs (ac_log r') = note_leader rf' (lc_leader_logs (ac_log r));
  mv_grow : logs_grow (lc_leader_logs (ac_log r)) (lc_leader_logs (ac_log r'));
  mv_acks : acks r ⊆ acks r';
  mv_snapshot : Persister_ReadSnapshot (persister rf') = Persister_ReadSnapshot (persister rf)
}.

Lemma moves_moved i rf rf' r r' V :
  0 < nservers → safe_inv nservers r V → peer_at r (Z.of_nat i) = Some rf → moves i rf' r r' → moved i rf rf' r r'.
Proof.
  intros Hn Hinv Hi [Hstep Hs]. pose proof (rtc_once (R := ack_step nservers) r r' Hstep) as Hsteps.
  destruct (ack_step_mover nservers r r' V Hn Hinv Hstep) as (j & rfj & rfj' & Hj & Hsj & HL & Hsn).
  constructor.
  - by eapply ack_step_inv.
  - unfold peer_at. rewrite Hs. apply lookup_insert_eq.
  - intros k Hk. unfold peer_at. rewrite Hs. apply lookup_insert_ne. lia.
  - rewrite HL. rewrite Hs in Hsj. symmetry. by apply (note_leader_same nservers r V (Z.of_nat i) j rf rf' rfj rfj').
  - by apply (log_steps_inv nservers _ _ Hn (sv_log nservers r V Hinv) (ack_steps_log nservers _ _ Hsteps)).
  - by apply (ack_steps_acks nservers).
  - rewrite Hs in Hsj. unfold peer_at, Persister_ReadSnapshot in *. destruct (decide (j = Z.of_nat i)) as [->|Hne].
    + apply (f_equal (lookup (Z.of_nat i))) in Hsj. rewrite !lookup_insert_eq in Hsj. by simplify_eq.
    + apply (f_equal (lookup (Z.of_nat i))) in Hsj. rewrite lookup_insert_eq, lookup_insert_ne in Hsj by done.
      rewrite Hi in Hsj. by simplify_eq.
Qed.

(** Nothing is compacted, so any step of Raft is one [KvSystem] allows. *)
Lemma moved_allowed i rf rf' r r' saved :
  0 < nservers → (∃ V, safe_inv nservers r V) → peer_at r (Z.of_nat i) = Some rf →
  moved i rf rf' r r' → raft_moves saved rf rf'.
Proof.
  intros Hn [V Hinv] Hi Hm. destruct (mv_inv _ _ _ _ _ Hm) as [V' Hinv'].
  pose proof (li_peers nservers _ (sv_log nservers r V Hinv) _ _ Hi) as Hp.
  pose proof (li_peers nservers _ (sv_log nservers r' V' Hinv') _ _ (mv_self _ _ _ _ _ Hm)) as Hp'. split.
  - intros k me rf1 Hk. apply Make_log in Hk as (_ & -> & _); [|apply Hp']. by rewrite (pl_snap _ _ Hp').
  - left. unfold compacted. by rewrite (pl_snap _ _ Hp), (pl_snap _ _ Hp'), (mv_snapshot _ _ _ _ _ Hm).
Qed.

Lemma entries_matched (L : gmap Z (list (Log Op))) l subs k e :
  entries_ok L subs → matches L l → (0 < k)%nat → l !! k = Some e → ∃ op, Command e = ICmd op ∧ op ∈ subs.
Proof.
  intros Hok Hm Hk He. destruct (Hm k e Hk He) as (lt & Hlt & Hp). apply (Hok (Term e) lt k e Hlt Hk).
  eapply prefix_lookup_Some; [|exact Hp]. by rewrite lookup_take_lt by lia.
Qed.

(** The leaders' entries after a step: the old ones and those of the peer's log. *)
Lemma entries_moved i rf rf' r r' subs subs' :
  moved i rf rf' r r' → subs ⊆ subs' → entries_ok (lc_leader_logs (ac_log r)) subs →
  (state rf' = LEADER → ∀ k e, (0 < k)%nat → log rf' !! k = Some e → ∃ op, Command e = ICmd op ∧ op ∈ subs') →
  entries_ok (lc_leader_logs (ac_log r')) subs'.
Proof.
  intros Hm Hsub Hok Hlog t l k e Hl Hk He. rewrite (mv_leaders _ _ _ _ _ Hm) in Hl.
  apply note_leader_lookup in Hl as [Hl|(Hs & -> & ->)]; [|by eapply Hlog].
  destruct (Hok t l k e Hl Hk He) as (op & ? & ?). exists op. split; [done|by apply Hsub].
Qed.

Lemma at_log_prefix G G' k m : G `prefix_of` G' → at_log G k m → at_log G' k m.
Proof. intros Hp (op & Hop & ->). exists op. split; [by eapply prefix_lookup_Some|done]. Qed.

Lemma feed_ok_prefix G G' nd f : G `prefix_of` G' → feed_ok G nd f → feed_ok G' nd f.
Proof.
  intros Hp [Hpos Hi Ha Hs Hq]. pose proof (prefix_length _ _ Hp).
  constructor; [lia| |done|done|]; intros; (eapply at_log_prefix; [done|auto]).
Qed.

Lemma feed_ok_view G nd nd' f : peer_view nd' = peer_view nd → feed_ok G nd f → feed_ok G nd' f.
Proof.
  intros [= Hr Hp _] [F0 F1 F2 F3 F4]. unfold received in *.
  constructor; unfold received; rewrite ?Hr, ?Hp; done.
Qed.

Lemma moved_refl i rf r V :
  safe_inv nservers r V → peer_at r (Z.of_nat i) = Some rf → moved i rf rf r r.
Proof.
  intros Hinv Hi. constructor; try done; [by exists V| |intros t l ?; by exists l].
  unfold note_leader. case_bool_decide; [|done]. symmetry. apply insert_id.
  by apply (pl_leader _ _ (li_peers nservers _ (sv_log nservers r V Hinv) _ _ Hi)).
Qed.

(** A step of server [i] and its peer that collects nothing. *)
Lemma service_inv_move x i nd nd' s' r' feeds' :
  service_inv x → nodes (sv_sys x) !! i = Some nd → moved i (n_rf nd) (n_rf nd') (sv_raft x) r' →
  nodes s' = <[i := nd']> (nodes (sv_sys x)) → committed s' = committed (sv_sys x) →
  submitted (sv_sys x) ⊆ submitted s' → maxraftstate (n_kv nd') = -1 →
  (state (n_rf nd') = LEADER → ∀ k e, (0 < k)%nat → log (n_rf nd') !! k = Some e →
     ∃ op, Command e = ICmd op ∧ op ∈ submitted s') →
  feed_ok (log_ops (sv_sys x)) nd' (default feed0 (feeds' !! i)) →
  (∀ j, j ≠ i → feeds' !! j = sv_feeds x !! j) →
  service_inv (MkService s' r' feeds').
Proof.
  intros [Hraft Hnodes Hent (T & l & Hc & Hl)] Hi Hm Hns Hcs Hsub Hmax Hlead Hfeed Hother.
  assert (log_ops s' = log_ops (sv_sys x)) as HG by (unfold log_ops; by rewrite Hcs).
  constructor; simpl.
  - apply Hm.
  - intros j ndj. rewrite Hns. intros [(<- & <- & _)|[Hne Hj]]%list_lookup_insert_Some.
    + constructor; simpl; [apply Hm|done| |unfold feed_of; simpl; by rewrite HG].
      rewrite (mv_snapshot _ _ _ _ _ Hm). by apply (no_snapshot x i), Hnodes.
    + destruct (Hnodes j ndj Hj) as [P1 P2 P3 P4].
      constructor; simpl; [by rewrite (mv_other _ _ _ _ _ Hm)|done|done|].
      unfold feed_of. simpl. by rewrite Hother, HG.
  - by eapply entries_moved.
  - exists T, l. rewrite HG. split; [|done].
    eapply commit_ok_grow; [apply Hm|apply Hm|reflexivity|exact Hc].
Qed.

Lemma omap_lookup_total {A B} (f : A → option B) (l : list A) j :
  (∀ a, a ∈ l → is_Some (f a)) → omap f l !! j = l !! j ≫= f.
Proof.
  revert j. induction l as [|a l IH]; intros j Hf; [done|].
  destruct (Hf a (list_elem_of_here _ _)) as [b Hb]. simpl. rewrite Hb.
  destruct j as [|j]; simpl; [done|]. apply IH. intros a' Ha'. apply Hf. by apply list_elem_of_further.
Qed.

Lemma filter_index_drop (g b : Z) (ms : list (ApplyMsg Op)) :
  (∀ j m, ms !! j = Some m → CommandIndex m = b + Z.of_nat j) →
  filter (λ m, g < CommandIndex m) ms = drop (Z.to_nat (g + 1 - b)) ms.
Proof.
  revert b. induction ms as [|m ms IH]; intros b Hi; [by rewrite drop_nil|].
  pose proof (Hi 0%nat m eq_refl) as Hm. rewrite filter_cons, (IH (b + 1)).
  - destruct (decide (g < CommandIndex m)) as [Hg|Hg].
    + replace (Z.to_nat (g + 1 - b)) with 0%nat by lia. by replace (Z.to_nat (g + 1 - (b + 1))) with 0%nat by lia.
    + by replace (Z.to_nat (g + 1 - b)) with (S (Z.to_nat (g + 1 - (b + 1)))) by lia.
  - intros j m' Hj. rewrite (Hi (S j) m' Hj). lia.
Qed.

Lemma foldl_note_commit ops s :
  Forall (λ op, op ∈ submitted s) ops →
  rtc (kv_step nservers) s (foldl note_commit s ops) ∧ nodes (foldl note_commit s ops) = nodes s
  ∧ submitted (foldl note_commit s ops) = submitted s ∧ log_ops (foldl note_commit s ops) = log_ops s ++ ops.
Proof.
  revert s. induction ops as [|op ops IH]; intros s Hf; simpl; [by rewrite app_nil_r|].
  apply Forall_cons in Hf as [Hop Hf]. destruct (IH (note_commit s op) Hf) as (Hr & -> & -> & ->).
  split_and!; [|done|done|].
  - eapply rtc_l; [|exact Hr]. by apply kv_commit.
  - unfold log_ops, note_commit. simpl. rewrite fmap_app. simpl. by rewrite <-app_assoc.
Qed.
(** ** Collecting *)

Definition entry_op (e : Log Op) : option Op := match Command e with ICmd op => Some op | _ => None end.

(** The commands a peer has committed. *)
Definition peer_ops rf : list Op := omap entry_op (take (Z.to_nat (commitIndex rf)) (drop 1 (log rf))).

Lemma peer_ops_lookup (subs : list Op) rf k :
  (∀ k e, (0 < k)%nat → log rf !! k = Some e → ∃ op, Command e = ICmd op ∧ op ∈ subs) →
  peer_ops rf !! k = if decide (Z.of_nat k < commitIndex rf) then log rf !! S k ≫= entry_op else None.
Proof.
  intros Hlog. unfold peer_ops. rewrite omap_lookup_total.
  - case_decide.
    + rewrite lookup_take_lt by lia. by rewrite lookup_drop.
    + rewrite lookup_take_ge by lia. done.
  - intros e He. apply list_elem_of_lookup in He as [j Hj]. apply lookup_take_Some in Hj as [Hj _].
    rewrite lookup_drop in Hj. destruct (Hlog (1 + j)%nat e ltac:(lia) Hj) as (op & Hop & _). exists op.
    unfold entry_op. by rewrite Hop.
Qed.

(** The commands a peer has committed and those collected so far: one begins with the other. *)
Lemma peer_ops_log x i nd :
  0 < nservers → service_inv x → nodes (sv_sys x) !! i = Some nd →
  (0 ≤ commitIndex (n_rf nd) → len (peer_ops (n_rf nd)) = commitIndex (n_rf nd))
  ∧ Forall (λ op, op ∈ submitted (sv_sys x)) (peer_ops (n_rf nd))
  ∧ (∃ T, commit_ok nservers (acks (sv_raft x)) (lc_leader_logs (ac_log (sv_raft x))) T (commitIndex (n_rf nd)) (log (n_rf nd)))
  ∧ log_starts (log (n_rf nd)) (peer_ops (n_rf nd))
  ∧ ∀ k op op', peer_ops (n_rf nd) !! k = Some op → log_ops (sv_sys x) !! k = Some op' → op = op'.
Proof.
  intros Hn [[V Hraft] Hnodes Hent (T & l & Hc & Hl)] Hi. destruct (Hnodes i nd Hi) as [Hp _ _ _].
  set (rf := n_rf nd) in *. pose proof (li_peers nservers _ (sv_log nservers _ V Hraft) _ _ Hp) as Hpl.
  destruct (sv_peers nservers _ V Hraft _ _ Hp) as [[_ _ Hcr] _].
  assert (∀ k e, (0 < k)%nat → log rf !! k = Some e → ∃ op, Command e = ICmd op ∧ op ∈ submitted (sv_sys x)) as Hlog.
  { intros k e. apply (entries_matched _ _ _ k e Hent (pl_matches _ _ Hpl)). }
  assert (∀ k op, peer_ops rf !! k = Some op → Z.of_nat k < commitIndex rf ∧ ∃ e, log rf !! S k = Some e ∧ Command e = ICmd op ∧ op ∈ submitted (sv_sys x)) as Hlk.
  { intros k op. rewrite (peer_ops_lookup _ rf k Hlog). case_decide; [|done].
    destruct (log rf !! S k) as [e|] eqn:He; [|done]. destruct (Hlog (S k) e ltac:(lia) He) as (op' & Hop & Hsub). simpl.
    unfold entry_op. rewrite Hop. intros [= ->]. split; [done|]. by exists e. }
  split_and!.
  - intros Hpos. assert (Z.to_nat (commitIndex rf) < length (log rf))%nat as Hlen.
    { destruct Hcr as [Hle|(t & k & _ & _ & _ & Hh)]; [|by eapply holds_length].
      pose proof (lookup_lt_Some _ _ _ (pl_head _ _ Hpl)). lia. }
    assert (length (peer_ops rf) = Z.to_nat (commitIndex rf)); [|lia]. apply Nat.le_antisymm.
    + apply Nat.nlt_ge. intros Hlt. destruct (lookup_lt_is_Some_2 _ _ Hlt) as [op Hop]. apply Hlk in Hop as [? _]. lia.
    + apply Nat.nlt_ge. intros Hlt. set (k := length (peer_ops rf)) in *.
      assert (peer_ops rf !! k = None) as Hnone by (by apply lookup_ge_None_2).
      rewrite (peer_ops_lookup _ rf k Hlog), decide_True in Hnone by lia.
      destruct (lookup_lt_is_Some_2 (log rf) (S k)) as [e He]; [lia|].
      destruct (Hlog (S k) e ltac:(lia) He) as (op & Hop & _). rewrite He in Hnone. simpl in Hnone.
      unfold entry_op in Hnone. by rewrite Hop in Hnone.
  - apply Forall_lookup. intros k op Hop. by destruct (Hlk k op Hop) as (_ & e & _ & _ & ?).
  - by exists (currentTerm rf).
  - intros k op Hop. destruct (Hlk k op Hop) as (_ & e & ? & ? & _). by exists e.
  - intros k op op' Hop Hop'. destruct (Hlk k op Hop) as (Hk & e & He & Hco & _). destruct (Hl k op' Hop') as (e' & He' & Hco').
    pose proof (lookup_lt_Some _ _ _ Hop').
    destruct (commit_agree nservers _ V _ _ _ _ _ _ (S k) Hn Hraft Hcr Hc) as (e0 & He0 & He0'); [lia..|]. congruence.
Qed.
(** ** Simulation *)

Lemma new_ops_spec s rf ms a :
  Z.of_nat a = lastApplied rf → (a ≤ length (log_ops s))%nat →
  (∀ j m, ms !! j = Some m → ∃ op, peer_ops rf !! (a + j)%nat = Some op ∧ m = MkApplyMsg true (ICmd op) (lastApplied rf + 1 + Z.of_nat j)) →
  (a + length ms = length (peer_ops rf))%nat →
  new_ops s ms = drop (length (log_ops s)) (peer_ops rf).
Proof.
  intros Ha Hle Hms Hlen. unfold new_ops. rewrite <-(length_fmap fst (committed s)). fold (log_ops s).
  rewrite (filter_index_drop _ (lastApplied rf + 1)).
  2: { intros j m Hj. by destruct (Hms j m Hj) as (op & _ & ->). }
  apply list_eq. intros k. rewrite omap_lookup_total, !lookup_drop.
  - replace (Z.to_nat (len (log_ops s) + 1 - (lastApplied rf + 1)) + k)%nat with (length (log_ops s) - a + k)%nat by lia.
    destruct (ms !! (length (log_ops s) - a + k)%nat) as [m|] eqn:Hm; simpl.
    + destruct (Hms _ _ Hm) as (op & Hop & ->). trans (Some op); [done|]. rewrite <-Hop. f_equal. lia.
    + symmetry. apply lookup_ge_None_2. apply lookup_ge_None_1 in Hm. lia.
  - intros m Hm. apply list_elem_of_lookup in Hm as [j Hj]. rewrite lookup_drop in Hj.
    destruct (Hms _ _ Hj) as (op & _ & ->). by exists op.
Qed.

Lemma list_agree_prefix {A} (l l' : list A) :
  (length l ≤ length l')%nat → (∀ k a b, l !! k = Some a → l' !! k = Some b → a = b) → l `prefix_of` l'.
Proof.
  intros Hlen Hag. exists (drop (length l) l'). rewrite <-(take_drop (length l) l') at 1. f_equal.
  apply list_eq. intros k. destruct (decide (k < length l)%nat) as [Hk|Hk].
  - rewrite lookup_take_lt by done. destruct (lookup_lt_is_Some_2 l k Hk) as [a Ha].
    destruct (lookup_lt_is_Some_2 l' k ltac:(lia)) as [b Hb]. rewrite Ha, Hb. f_equal. symmetry. by eapply Hag.
  - by rewrite lookup_take_ge, lookup_ge_None_2 by lia.
Qed.

Lemma collect_sim x i nd msgs :
  0 < nservers → service_inv x →
  nodes (sv_sys x) !! i = Some nd → f_queue (feed_of x i) = [] → f_sent (feed_of x i) = None →
  Apply_collect (n_rf nd) = Some msgs →
  rtc (kv_step nservers) (sv_sys x) (foldl note_commit (sv_sys x) (new_ops (sv_sys x) msgs))
  ∧ service_inv (MkService (foldl note_commit (sv_sys x) (new_ops (sv_sys x) msgs)) (sv_raft x)
      (<[i := feed_of x i <| f_queue := msgs |>]> (sv_feeds x))).
Proof.
  intros Hn Hinv Hi Hq Hsent Hcol. destruct (peer_ops_log x i nd Hn Hinv Hi) as (Hlen & Hsub & Hcr & Hstarts & Hag).
  pose proof Hinv as [Hraft Hnodes Hent (T & l & Hc & Hl)].
  destruct (Hnodes i nd Hi) as [Hp Hmax Hsn Hfeed]. destruct Hraft as [V Hraft].
  pose proof (li_peers nservers _ (sv_log nservers _ V Hraft) _ _ Hp) as Hpl.
  destruct Hfeed as [F0 F1 F2 F3 F4]. rewrite Hsent in F2. set (rf := n_rf nd) in *. set (G := log_ops (sv_sys x)) in *.
  set (a := received nd (feed_of x i)) in *.
  destruct (Apply_collect_spec rf msgs (pl_snap _ _ Hpl) ltac:(lia) Hcol) as (Hac & Hml & Hmsgs).
  specialize (Hlen ltac:(lia)).
  assert (∀ j m, msgs !! j = Some m → ∃ op, peer_ops rf !! (a + j)%nat = Some op ∧ m = MkApplyMsg true (ICmd op) (lastApplied rf + 1 + Z.of_nat j)) as Hms.
  { intros j m Hj. pose proof (lookup_lt_Some _ _ _ Hj). destruct (Hmsgs j m Hj) as (e & He & Hm).
    destruct (lookup_lt_is_Some_2 (peer_ops rf) (a + j)) as [op Hop]; [lia|]. exists op. split; [done|].
    destruct (Hstarts _ _ Hop) as (e' & He' & Hce). subst m. simpl in He.
    replace (Z.to_nat (lastApplied rf + 1 + Z.of_nat j)) with (S (a + j)) in He by lia. congruence. }
  pose proof (new_ops_spec (sv_sys x) rf msgs a F2 F0 Hms ltac:(lia)) as Hnew. fold G in Hnew. rewrite Hnew.
  destruct (foldl_note_commit (drop (length G) (peer_ops rf)) (sv_sys x)) as (Hr & Hns & Hss & HG); [by apply Forall_drop|].
  fold G in HG. split; [exact Hr|].
  assert (peer_ops rf `prefix_of` G ++ drop (length G) (peer_ops rf)) as Hpre.
  { destruct (decide (length (peer_ops rf) ≤ length G)%nat) as [Hle|Hle].
    - rewrite drop_ge, app_nil_r by lia. by apply list_agree_prefix.
    - destruct (list_agree_prefix G (peer_ops rf)) as [y Hy]; [lia|intros; symmetry; eauto|].
      rewrite Hy, drop_app_length. done. }
  constructor; simpl.
  - by exists V.
  - rewrite Hns. intros j ndj Hj. destruct (Hnodes j ndj Hj) as [P1 P2 P3 P4].
    assert (feed_ok (G ++ drop (length G) (peer_ops rf)) ndj (feed_of x j)) as Hf
      by (eapply feed_ok_prefix; [|exact P4]; by eexists).
    constructor; simpl; [done..|]. rewrite HG. unfold feed_of at 1. simpl. destruct (decide (j = i)) as [->|Hne].
    + rewrite lookup_insert_eq. simpl. assert (ndj = nd) as -> by congruence.
      destruct Hf as [G0 G1 G2 G3 _]. constructor; simpl; [done..|].
      intros k m Hk. destruct (Hms k m Hk) as (op & Hop & ->). exists op. change (received nd _) with a.
      split; [by eapply prefix_lookup_Some|]. f_equal. lia.
    + by rewrite lookup_insert_ne.
  - by rewrite Hss.
  - rewrite HG. destruct (decide (length (peer_ops rf) ≤ length G)%nat) as [Hle|Hle].
    + rewrite drop_ge, app_nil_r by lia. by exists T, l.
    + destruct (list_agree_prefix G (peer_ops rf)) as [y Hy]; [lia|intros; symmetry; eauto|].
      assert (G ++ drop (length G) (peer_ops rf) = peer_ops rf) as -> by (rewrite Hy, drop_app_length; done).
      destruct Hcr as [T' Hcr]. exists T', (log rf). by rewrite Hlen.
Qed.

(** Any entry of a peer's log is a submitted command. *)
Lemma peer_entries x i nd k e :
  service_inv x → nodes (sv_sys x) !! i = Some nd → (0 < k)%nat → log (n_rf nd) !! k = Some e →
  ∃ op, Command e = ICmd op ∧ op ∈ submitted (sv_sys x).
Proof.
  intros Hinv Hi. destruct Hinv as [[V Hraft] Hnodes Hent _]. destruct (Hnodes i nd Hi) as [Hp _ _ _].
  pose proof (li_peers nservers _ (sv_log nservers _ V Hraft) _ _ Hp) as Hpl.
  by apply (entries_matched _ _ _ _ _ Hent (pl_matches _ _ Hpl)).
Qed.

Lemma service_moved x i nd rf' r' :
  0 < nservers → service_inv x → nodes (sv_sys x) !! i = Some nd → moves i rf' (sv_raft x) r' →
  moved i (n_rf nd) rf' (sv_raft x) r'.
Proof.
  intros Hn [[V Hraft] Hnodes _ _] Hi Hm. eapply moves_moved; [done|exact Hraft|by apply (no_peer x i), Hnodes|done].
Qed.

(** A step of Raft is one of [KvSystem]. *)
Lemma service_raft_step x i nd rf' r' :
  0 < nservers → service_inv x → nodes (sv_sys x) !! i = Some nd → moved i (n_rf nd) rf' (sv_raft x) r' →
  rtc (kv_step nservers) (sv_sys x) (set_node i (nd <| n_rf := rf' |>) (sv_sys x)).
Proof.
  intros Hn [Hraft Hnodes _ _] Hi Hm. apply rtc_once, kv_raft; [done|].
  eapply moved_allowed; [done|exact Hraft|by apply (no_peer x i), Hnodes|done].
Qed.

(** The way to the server depends on a peer's [lastApplied] only. *)
Lemma feed_ok_applied G nd nd' f :
  lastApplied (n_rf nd') = lastApplied (n_rf nd) → n_pos nd' = n_pos nd → feed_ok G nd f → feed_ok G nd' f.
Proof.
  intros Hr Hp [F0 F1 F2 F3 F4]. unfold received in *. constructor; unfold received; rewrite ?Hr, ?Hp; done.
Qed.

Lemma clerks_sim x s' :
  service_inv x → peer_view <$> nodes s' = peer_view <$> nodes (sv_sys x) →
  committed s' = committed (sv_sys x) → submitted s' = submitted (sv_sys x) →
  service_inv (MkService s' (sv_raft x) (sv_feeds x)).
Proof.
  intros [Hraft Hnodes Hent (T & l & Hc & Hl)] Hv Hcs Hss.
  assert (log_ops s' = log_ops (sv_sys x)) as HG by (unfold log_ops; by rewrite Hcs).
  constructor; simpl; [done| |by rewrite Hss|rewrite HG; by exists T, l].
  intros i nd Hi. apply (f_equal (lookup i)) in Hv. rewrite !list_lookup_fmap, Hi in Hv. simpl in Hv.
  destruct (nodes (sv_sys x) !! i) as [nd0|] eqn:Hi0; simplify_eq/=. destruct (Hnodes i nd0 Hi0) as [P1 P2 P3 P4].
  assert (peer_view nd = peer_view nd0) as Hv' by (unfold peer_view; congruence).
  constructor; simpl; [congruence..|]. rewrite HG. by eapply feed_ok_view.
Qed.

Lemma start_sim x i nd k c reqId rf' index term r' :
  0 < nservers → service_inv x → nodes (sv_sys x) !! i = Some nd → calls (sv_sys x) !! k = Some c →
  (∀ h, h ∈ handlers (sv_sys x) → h_id h ≠ reqId) →
  Start (request_op (c_req c) reqId) (n_rf nd) = Some (rf', (index, term, true)) →
  moves i rf' (sv_raft x) r' →
  let s' := set_node i (nd <| n_rf := rf' |>) (sv_sys x)
    <| submitted := submitted (sv_sys x) ++ [request_op (c_req c) reqId] |>
    <| hstates := <[length (handlers (sv_sys x)) := HStarted]> (hstates (sv_sys x)) |>
    <| handlers := handlers (sv_sys x) ++ [MkHandlerRec i k reqId] |> in
  rtc (kv_step nservers) (sv_sys x) s' ∧ service_inv (MkService s' r' (sv_feeds x)).
Proof.
  intros Hn Hinv Hi Hk Hf Hst Hm s'. pose proof (service_moved x i nd rf' r' Hn Hinv Hi Hm) as Hmd.
  pose proof (Start_result _ _ _ _ _ _ Hst) as (_ & _ & Hb & _). symmetry in Hb. apply bool_decide_eq_true in Hb.
  pose proof (so_nodes x Hinv i nd Hi) as [Hp Hmax _ Hfeed]. destruct (so_raft x Hinv) as [V Hraft].
  pose proof (li_peers nservers _ (sv_log nservers _ V Hraft) _ _ Hp) as Hpl.
  split.
  - apply rtc_once, (kv_handle nservers (sv_sys x) i nd k c reqId rf' true); [done..|].
    unfold handler_start, GetState. rewrite bool_decide_eq_true_2 by done. rewrite Hst. by destruct (c_req c).
  - assert (lastApplied rf' = lastApplied (n_rf nd)) as Hla.
    { revert Hst. unfold Start. destruct (lastLogTermIndex (n_rf nd)) as [[lt li]|]; cbn [mbind option_bind]; [|done].
      rewrite bool_decide_eq_true_2 by done. destruct (slice_set (nextIndex _) _ _); cbn [mbind option_bind]; [|done].
      destruct (slice_set (matchIndex _) _ _); cbn [mbind option_bind]; [|done]. by intros [= <- _ _]. }
    assert (log (n_rf nd) ≠ []) as Hne by (intros He; pose proof (pl_head _ _ Hpl) as Hh; by rewrite He in Hh).
    apply Start_log in Hst as [[_ ?]|(_ & _ & _ & Hl & _)]; [done| |done].
    apply (service_inv_move x i nd (nd <| n_rf := rf' |>)); try done.
    + simpl. intros op Hop. apply elem_of_app. by left.
    + simpl. intros _ j e Hj. rewrite Hl. intros [Hlt|[Hge He]]%lookup_app_Some.
      * destruct (peer_entries x i nd j e Hinv Hi Hj Hlt) as (op & ? & ?). exists op. split; [done|].
        apply elem_of_app. by left.
      * apply list_elem_of_lookup_2, list_elem_of_singleton in He as ->. eexists. split; [done|].
        apply elem_of_app. right. by apply list_elem_of_singleton.
    + eapply feed_ok_applied; [..|exact Hfeed]; done.
Qed.

(** A leader's log is its old one, when the step added nothing. *)
Lemma kept_entries x i nd rf' :
  service_inv x → nodes (sv_sys x) !! i = Some nd → (state rf' = LEADER → log rf' = log (n_rf nd)) →
  state rf' = LEADER → ∀ k e, (0 < k)%nat → log rf' !! k = Some e →
  ∃ op, Command e = ICmd op ∧ op ∈ submitted (sv_sys x).
Proof. intros Hinv Hi Hl Hs k e Hk. rewrite (Hl Hs). by apply (peer_entries x i nd). Qed.

Lemma raft_sim x i nd rf' r' :
  0 < nservers → service_inv x → nodes (sv_sys x) !! i = Some nd → moves i rf' (sv_raft x) r' →
  lastApplied rf' = lastApplied (n_rf nd) → (state rf' = LEADER → log rf' = log (n_rf nd)) →
  let s' := set_node i (nd <| n_rf := rf' |>) (sv_sys x) in
  rtc (kv_step nservers) (sv_sys x) s' ∧ service_inv (MkService s' r' (sv_feeds x)).
Proof.
  intros Hn Hinv Hi Hm Hla Hl s'. pose proof (service_moved x i nd rf' r' Hn Hinv Hi Hm) as Hmd.
  pose proof (so_nodes x Hinv i nd Hi) as [_ Hmax _ Hfeed]. split; [by eapply service_raft_step|].
  apply (service_inv_move x i nd (nd <| n_rf := rf' |>)); try done; [by apply (kept_entries x i nd)|].
  eapply feed_ok_applied; [..|exact Hfeed]; done.
Qed.

Lemma send_sim x i m q :
  service_inv x →
  f_queue (feed_of x i) = m :: q → f_inbox (feed_of x i) = None → f_sent (feed_of x i) = None →
  service_inv (MkService (sv_sys x) (sv_raft x) (<[i := MkFeed q (Some m) (Some m)]> (sv_feeds x))).
Proof.
  intros [Hraft Hnodes Hent Hlog] Hq Hin Hs. constructor; simpl; [done| |done..].
  intros j nd Hj. destruct (Hnodes j nd Hj) as [P1 P2 P3 P4]. constructor; simpl; [done..|].
  unfold feed_of. simpl. destruct (decide (j = i)) as [->|Hne]; [|by rewrite lookup_insert_ne].
  rewrite lookup_insert_eq. simpl. destruct P4 as [F0 F1 F2 F3 F4].
  rewrite Hq in F4. rewrite Hs in F2. unfold received in *. rewrite Hin in *.
  pose proof (F4 0%nat m eq_refl) as Hm. rewrite Nat.add_0_r in Hm. destruct Hm as (op & Hop & Hm).
  pose proof (lookup_lt_Some _ _ _ Hop).
  constructor; unfold received; simpl; [lia| |lia| |].
  - intros m' [= <-]. by exists op.
  - intros m' [= <-]. exists op. by rewrite F2 in Hm.
  - intros k m' Hk. specialize (F4 (S k) m' Hk). by rewrite <-Nat.add_succ_comm in F4.
Qed.

Lemma sent_sim x i nd m r' :
  0 < nservers → service_inv x → nodes (sv_sys x) !! i = Some nd → f_sent (feed_of x i) = Some m →
  moves i (Apply_deliver m (n_rf nd)) (sv_raft x) r' →
  let s' := set_node i (nd <| n_rf := Apply_deliver m (n_rf nd) |>) (sv_sys x) in
  rtc (kv_step nservers) (sv_sys x) s'
  ∧ service_inv (MkService s' r' (<[i := feed_of x i <| f_sent := None |>]> (sv_feeds x))).
Proof.
  intros Hn Hinv Hi Hs Hm s'. pose proof (service_moved x i nd _ r' Hn Hinv Hi Hm) as Hmd.
  pose proof (so_nodes x Hinv i nd Hi) as [_ Hmax _ [F0 F1 F2 F3 F4]]. rewrite Hs in F2.
  destruct (F3 m Hs) as (op & ->). split; [by eapply service_raft_step|].
  unfold Apply_deliver in *. rewrite bool_decide_eq_false_2 in * by done. simpl in *.
  apply (service_inv_move x i nd (nd <| n_rf := Apply_deliver (MkApplyMsg true (ICmd op) (lastApplied (n_rf nd) + 1)) (n_rf nd) |>)); try done.
  - simpl. by apply (kept_entries x i nd).
  - simpl. rewrite lookup_insert_eq. simpl. constructor; simpl; done.
  - intros j Hj. by rewrite lookup_insert_ne.
Qed.

Lemma apply_sim x i nd m kv' note hs :
  service_inv x → nodes (sv_sys x) !! i = Some nd → f_inbox (feed_of x i) = Some m →
  WaitApplyCh_msg m (n_kv nd) (n_rf nd) = Some (kv', n_rf nd, note) → notify i note (sv_sys x) hs →
  let s' := set_node i (MkNode kv' (n_rf nd) (S (n_pos nd))) (sv_sys x)
    <| taken := note_taken (n_rf nd) (taken (sv_sys x)) |> <| hstates := hs |> in
  rtc (kv_step nservers) (sv_sys x) s'
  ∧ service_inv (MkService s' (sv_raft x) (<[i := feed_of x i <| f_inbox := None |>]> (sv_feeds x))).
Proof.
  intros Hinv Hi Hin Hw Hnote s'. pose proof (so_nodes x Hinv i nd Hi) as [Hp Hmax _ [F0 F1 F2 F3 F4]].
  destruct (F1 m Hin) as (op & Hop & ->). destruct (so_raft x Hinv) as [V Hraft]. split.
  - unfold log_ops in Hop. rewrite list_lookup_fmap in Hop.
    destruct (committed (sv_sys x) !! n_pos nd) as [[op' t]|] eqn:Hc; simplify_eq/=.
    apply rtc_once. by apply (kv_apply nservers (sv_sys x) i nd op t kv' (n_rf nd) note hs).
  - assert (maxraftstate kv' = -1) as Hmax'.
    { revert Hw. unfold WaitApplyCh_msg. simpl. destruct (saveSnapshot _ _ _); simpl; [|done].
      intros [= <- _ _]. rewrite <-Hmax. apply (maxraftstate_apply [op]). }
    apply (service_inv_move x i nd (MkNode kv' (n_rf nd) (S (n_pos nd)))); try done; [by apply (moved_refl i (n_rf nd) (sv_raft x) V)|..].
    + simpl. by apply (kept_entries x i nd).
    + simpl. rewrite lookup_insert_eq. simpl. unfold received in *. rewrite Hin in *. by constructor.
    + intros j Hj. by rewrite lookup_insert_ne.
Qed.

Lemma kill_sim x i nd kv' rf' r' :
  0 < nservers → service_inv x → nodes (sv_sys x) !! i = Some nd → KV_Kill (n_kv nd) (n_rf nd) = Some (kv', rf') →
  moves i rf' (sv_raft x) r' →
  let s' := set_node i (nd <| n_kv := kv' |> <| n_rf := rf' |>) (sv_sys x) in
  rtc (kv_step nservers) (sv_sys x) s' ∧ service_inv (MkService s' r' (sv_feeds x)).
Proof.
  intros Hn Hinv Hi Hk Hm s'. pose proof (service_moved x i nd rf' r' Hn Hinv Hi Hm) as Hmd.
  pose proof (so_nodes x Hinv i nd Hi) as [_ Hmax _ Hfeed].
  split; [by apply rtc_once, kv_kill|]. unfold KV_Kill, Kill in Hk. destruct (stopCh _); simpl in Hk; [done|].
  destruct (kv_stopCh _); simplify_eq/=.
  apply (service_inv_move x i nd (nd <| n_kv := n_kv nd <| kv_dead := true |> <| kv_stopCh := true |> |> <| n_rf := n_rf nd <| dead := true |> <| stopCh := true |> |>)); try done.
  - simpl. by apply (kept_entries x i nd).
  - eapply feed_ok_applied; [..|exact Hfeed]; done.
Qed.

Lemma readPersist_applied data rf rf' : readPersist data rf = Some rf' → lastApplied rf' = lastApplied rf.
Proof.
  unfold readPersist. destruct data as [[|b bs]|]; [by intros [= <-]| |by intros [= <-]].
  destruct (decode_int _) as [[t d1]|]; simpl; [|done]. destruct (decode_int d1) as [[v d2]|]; simpl; [|done].
  destruct (decode_int d2) as [[c d3]|]; simpl; [|done]. destruct (decode_int d3) as [[st d4]|]; simpl; [|done].
  destruct (decode_int d4) as [[si d5]|]; simpl; [|done]. destruct (decode_log d5) as [[l d6]|]; simpl; [|done].
  by intros [= <-].
Qed.

Lemma Make_applied i ps rf' : Make nservers i ps = Some rf' → lastApplied rf' = 0.
Proof.
  unfold Make. destruct (make_slice _ _); simpl; [|done]. destruct (readPersist _ _) as [rf1|] eqn:Hrp; simpl; [|done].
  apply readPersist_applied in Hrp. by intros [= <-].
Qed.

Lemma restart_sim x i nd kv' rf' r' :
  0 < nservers → service_inv x → nodes (sv_sys x) !! i = Some nd →
  StartKVServer nservers (Z.of_nat i) (persister (n_rf nd)) (-1) = Some (kv', rf') →
  moves i rf' (sv_raft x) r' →
  let s' := set_node i (MkNode kv' rf' (Z.to_nat (lastSnapshotIndex rf'))) (sv_sys x)
    <| hstates := drop_handlers i (sv_sys x) |> in
  rtc (kv_step nservers) (sv_sys x) s' ∧ service_inv (MkService s' r' (<[i := feed0]> (sv_feeds x))).
Proof.
  intros Hn Hinv Hi Hs Hm s'. pose proof (service_moved x i nd rf' r' Hn Hinv Hi Hm) as Hmd.
  pose proof (so_nodes x Hinv i nd Hi) as [Hp Hmax Hsn Hfeed]. destruct (so_raft x Hinv) as [V Hraft].
  pose proof (li_peers nservers _ (sv_log nservers _ V Hraft) _ _ Hp) as Hpl.
  split; [apply rtc_once; by eapply kv_restart|].
  unfold StartKVServer in Hs. destruct (Make _ _ _) as [rf1|] eqn:Hmk; simpl in Hs; [|done].
  pose proof (Make_applied _ _ _ Hmk) as Hla. apply Make_log in Hmk as (_ & Hz & Hfol & Hps); [|exact (pl_saved _ _ Hpl)].
  rewrite Hps, Hsn in Hs. simpl in Hs. injection Hs as Hkv ->.
  apply (service_inv_move x i nd (MkNode kv' rf' (Z.to_nat (lastSnapshotIndex rf')))); try done; [by subst kv'|..].
  - simpl. by rewrite Hfol.
  - rewrite lookup_insert_eq. simpl. rewrite Hz. constructor; unfold received; simpl; try done; lia.
  - intros j Hj. by rewrite lookup_insert_ne.
Qed.

(** ** The whole *)

Lemma service_sim x x' :
  0 < nservers → service_inv x → service_step x x' →
  rtc (kv_step nservers) (sv_sys x) (sv_sys x') ∧ service_inv x'.
Proof.
  intros Hn Hinv Hstep. destruct Hstep; simpl.
  - split; [by apply rtc_once|by apply clerks_sim].
  - by eapply start_sim.
  - by apply raft_sim.
  - by apply (collect_sim x i nd).
  - split; [done|by apply send_sim].
  - by apply sent_sim.
  - by eapply apply_sim.
  - by apply kill_sim.
  - by eapply restart_sim.
Qed.

Lemma service_init_inv x : 0 < nservers → service_init x → service_inv x.
Proof.
  intros Hn ([Hns _ Hc _ _ _ _ _ _] & Hf & (cs & Hcs & Hr) & Hp).
  assert (log_ops (sv_sys x) = []) as HG by (unfold log_ops; by rewrite Hc).
  pose proof (ack_init_inv nservers cs Hn Hcs) as Hraft. constructor.
  - rewrite Hr. by eexists.
  - intros i nd Hi. destruct (Hp i nd Hi) as [Hpeer Hmax]. destruct (Hns i nd Hi) as (Hpos & max & Hst).
    unfold StartKVServer in Hst. destruct (Make _ _ _) as [rf1|] eqn:Hmk; simpl in Hst; [|done].
    rewrite Hr in Hpeer. pose proof (li_peers nservers _ (sv_log nservers _ _ Hraft) _ _ Hpeer) as Hpl.
    pose proof (Make_applied _ _ _ Hmk) as Hla.
    assert (persister rf1 = MkPersister None None) as Hps.
    { revert Hmk. unfold Make. destruct (make_slice _ _); simpl; [|done]. by intros [= <-]. }
    rewrite Hps in Hst. simpl in Hst. simplify_eq. constructor; [by rewrite Hr|done|by rewrite Hps|].
    unfold feed_of. rewrite Hf, lookup_empty. simpl. pose proof (pl_snap _ _ Hpl).
    constructor; unfold received; simpl; rewrite ?Hpos; try done; lia.
  - rewrite Hr. simpl. by intros t l k e Hl.
  - exists 0, []. rewrite HG. split; [by left|]. intros k op Hk. by rewrite lookup_nil in Hk.
Qed.

Lemma service_steps x x' :
  0 < nservers → service_inv x → rtc service_step x x' →
  rtc (kv_step nservers) (sv_sys x) (sv_sys x') ∧ service_inv x'.
Proof.
  intros Hn Hinv Hs. induction Hs as [x|x x1 x2 Hstep _ IH]; [done|].
  destruct (service_sim x x1 Hn Hinv Hstep) as [Hr Hinv1]. destruct (IH Hinv1) as [Hr' ?].
  split; [by etrans|done].
Qed.
(** An execution in which no copy of a write is logged late is linearizable. *)
Lemma serial_service_linearizable x0 x :
  0 < nservers → service_init x0 → rtc service_step x0 x → client_serial (log_ops (sv_sys x)) →
  ∃ late, NoDup late ∧ Forall (pending_write (sv_sys x)) late
    ∧ linearizable KvMapModel (history (sv_sys x) ++ omap (completed (sv_sys x)) late).
Proof.
  intros Hn Hi Hs Hser. destruct (service_steps x0 x Hn (service_init_inv x0 Hn Hi) Hs) as [Hr _].
  pose proof (kv_inv_reachable nservers _ _ (proj1 Hi) Hr) as Hinv. exists (late_writes (sv_sys x)). split_and!.
  - apply list.NoDup_filter, NoDup_seq.
  - apply list.Forall_forall. apply late_pending.
  - by apply linearizable_with_late.
Qed.
End service.
