(* ===== verification/KvRaftRun.v ===== *)
(** * Running the key/value service on Raft

    An execution of [KvRaft] on three peers, from the election to a write that two of the
    servers have applied.  The steps of clerks, servers and deliveries are evaluated. *)
From S2P Require Import Prelude RaftState RaftVote RaftReplicate RaftApply RaftCluster RaftLog RaftSafe RaftSafety.
From S2P Require Import KvServer KvClerk KvSystem KvRun PorcModel PorcKv KvLinear KvRaft.

Inductive ServiceAction :=
  | SClerk (a : Action)
  | SCollect (i : nat)
  | SSend (i : nat)
  | SApply (i : nat).

Section run.
Context `{GoRand, GobCodec (RaftVal Op), GobCodec KvVal} (nservers : Z).
Implicit Types (x : Service) (s : KvSys) (nd : Node).

(** The actions of clerks and handlers that leave Raft alone. *)
Definition clerk_action (a : Action) : bool :=
  match a with ACall _ _ | ARegister _ | ATimeout _ | ALeave _ | ARound _ _ _ | AReturn _ => true | _ => false end.

Definition service_do (a : ServiceAction) x : option Service :=
  match a with
  | SClerk a =>
      if clerk_action a then s' ← kv_do a (sv_sys x); Some (MkService s' (sv_raft x) (sv_feeds x)) else None
  | SCollect i =>
      nd ← nodes (sv_sys x) !! i;
      match f_queue (feed_of x i), f_sent (feed_of x i) with
      | [], None =>
          msgs ← Apply_collect (n_rf nd);
          Some (MkService (foldl note_commit (sv_sys x) (new_ops (sv_sys x) msgs)) (sv_raft x)
            (<[i := feed_of x i <| f_queue := msgs |>]> (sv_feeds x)))
      | _, _ => None
      end
  | SSend i =>
      match f_queue (feed_of x i), f_inbox (feed_of x i), f_sent (feed_of x i) with
      | m :: q, None, None => Some (MkService (sv_sys x) (sv_raft x) (<[i := MkFeed q (Some m) (Some m)]> (sv_feeds x)))
      | _, _, _ => None
      end
  | SApply i =>
      nd ← nodes (sv_sys x) !! i; m ← f_inbox (feed_of x i);
      if decide (maxraftstate (n_kv nd) = -1) then
        '(kv', _, note) ← WaitApplyCh_msg m (n_kv nd) (n_rf nd);
        hs ← do_notify i note (sv_sys x);
        Some (MkService (set_node i (MkNode kv' (n_rf nd) (S (n_pos nd))) (sv_sys x)
            <| taken := note_taken (n_rf nd) (taken (sv_sys x)) |> <| hstates := hs |>) (sv_raft x)
          (<[i := feed_of x i <| f_inbox := None |>]> (sv_feeds x)))
      else None
  end.

Lemma view_insert i nd nd' (l : list Node) :
  l !! i = Some nd → peer_view nd' = peer_view nd → peer_view <$> <[i := nd']> l = peer_view <$> l.
Proof. intros Hi Hv. rewrite list_fmap_insert, Hv. apply list_insert_id. by rewrite list_lookup_fmap, Hi. Qed.

Lemma clerk_action_view a s s' :
  clerk_action a → kv_do a s = Some s' →
  peer_view <$> nodes s' = peer_view <$> nodes s ∧ committed s' = committed s ∧ submitted s' = submitted s
  ∧ handlers s' = handlers s.
Proof.
  destruct a as [ck r|i|i k reqId|j|op|i|j|j|k leaderId j|k]; simpl; try done; intros _ Hd.
  - case_decide; by simplify_eq.
  - destruct (handlers s !! j) as [h|]; simplify_eq/=. destruct (nodes s !! h_server h) as [n|] eqn:Hi; simplify_eq/=.
    destruct (hstates s !! j) as [[]|]; simplify_eq. split_and!; [by eapply view_insert|done..].
  - destruct (hstates s !! j) as [[]|]; by simplify_eq.
  - destruct (handlers s !! j) as [h|]; simplify_eq/=. destruct (calls s !! h_call h) as [c|]; simplify_eq/=.
    destruct (nodes s !! h_server h) as [n|] eqn:Hi; simplify_eq/=. destruct (hstates s !! j) as [[]|]; simplify_eq.
    destruct (waitForRaft_end _ _ _) as [kv' m] eqn:He; simplify_eq. split_and!; [|done..].
    eapply view_insert; [done|]. unfold peer_view. simpl.
    unfold waitForRaft_end in He. by destruct o; injection He as <- _.
  - destruct (calls s !! k); simplify_eq/=. destruct (handlers s !! j); simplify_eq/=.
    destruct (returned s !! k); [done|]. destruct (hstates s !! j) as [[]|]; simplify_eq. case_decide; by simplify_eq.
  - destruct (calls s !! k); simplify_eq/=. destruct (returned s !! k); [done|].
    destruct (call_result _ _ _); by simplify_eq/=.
Qed.

(** Without a threshold, the server leaves its peer alone. *)
Lemma WaitApplyCh_keeps_peer m kv (rf rf' : Raft Op) kv' note :
  maxraftstate kv = -1 → WaitApplyCh_msg m kv rf = Some (kv', rf', note) → rf' = rf.
Proof.
  intros Hmax. unfold WaitApplyCh_msg. destruct (negb _).
  - destruct (ReadSnapshot _ _); simpl; [|done]. by intros [= _ <- _].
  - destruct (msg_Command m) as [|str|op]; [done|done|]. unfold saveSnapshot.
    assert (maxraftstate (apply_command op kv) = -1) as ->
      by (rewrite <-Hmax; apply (maxraftstate_apply [op])).
    simpl. by intros [= _ <- _].
Qed.

Lemma service_do_step a x x' : kv_inv (sv_sys x) → service_do a x = Some x' → service_step nservers x x'.
Proof.
  intros Hinv. destruct a as [a|i|i|i]; simpl; intros Hd.
  - destruct (clerk_action a) eqn:Ha; [|done]. destruct (kv_do a (sv_sys x)) as [s'|] eqn:Hdo; simplify_eq/=.
    destruct (clerk_action_view a _ s' ltac:(by rewrite Ha) Hdo) as (? & ? & ? & _).
    apply service_clerks; [by eapply kv_do_step|done..].
  - destruct (nodes (sv_sys x) !! i) as [nd|] eqn:Hi; simplify_eq/=.
    destruct (f_queue (feed_of x i)) eqn:Hq; [|done]. destruct (f_sent (feed_of x i)) eqn:Hs; [done|].
    destruct (Apply_collect (n_rf nd)) as [msgs|] eqn:Hc; simplify_eq/=. by eapply service_collect.
  - destruct (f_queue (feed_of x i)) as [|m q] eqn:Hq; [done|]. destruct (f_inbox (feed_of x i)) eqn:Hin; [done|].
    destruct (f_sent (feed_of x i)) eqn:Hs; [done|]. simplify_eq. by apply service_send.
  - destruct (nodes (sv_sys x) !! i) as [nd|] eqn:Hi; simplify_eq/=. destruct (f_inbox (feed_of x i)) as [m|] eqn:Hin; simplify_eq/=.
    case_decide as Hmax; [|done]. destruct (WaitApplyCh_msg m (n_kv nd) (n_rf nd)) as [[[kv' rf'] note]|] eqn:Hw; simplify_eq/=.
    destruct (do_notify i note (sv_sys x)) as [hs|] eqn:Hn; simplify_eq/=. apply do_notify_ok in Hn.
    pose proof (WaitApplyCh_keeps_peer _ _ _ _ _ _ Hmax Hw) as ->. by eapply service_apply.
Qed.

Lemma foldl_note_handlers ops s : handlers (foldl note_commit s ops) = handlers s.
Proof. revert s. induction ops as [|op ops IH]; intros s; [done|]. simpl. by rewrite IH. Qed.

Lemma service_do_handlers a x x' : service_do a x = Some x' → handlers (sv_sys x') = handlers (sv_sys x).
Proof.
  destruct a as [a|i|i|i]; simpl.
  - destruct (clerk_action a) eqn:Ha; [|done]. destruct (kv_do a (sv_sys x)) as [s'|] eqn:Hd; simpl; [|done].
    intros [= <-]. simpl. apply (clerk_action_view a); [by rewrite Ha|done].
  - destruct (nodes (sv_sys x) !! i) as [nd|]; simpl; [|done]. destruct (f_queue (feed_of x i)), (f_sent (feed_of x i)); try done.
    destruct (Apply_collect _); simpl; [|done]. intros [= <-]. simpl. apply foldl_note_handlers.
  - destruct (f_queue (feed_of x i)), (f_inbox (feed_of x i)), (f_sent (feed_of x i)); try done. by intros [= <-].
  - destruct (nodes (sv_sys x) !! i) as [nd|]; simpl; [|done]. destruct (f_inbox (feed_of x i)); simpl; [|done].
    case_decide; [|done]. destruct (WaitApplyCh_msg _ _ _) as [[[kv' rf'] note]|]; simpl; [|done].
    destruct (do_notify _ _ _); simpl; [|done]. by intros [= <-].
Qed.

Lemma service_do_raft a x x' : service_do a x = Some x' → sv_raft x' = sv_raft x.
Proof.
  destruct a as [a|i|i|i]; simpl.
  - destruct (clerk_action a); [|done]. destruct (kv_do a (sv_sys x)); simpl; [|done]. by intros [= <-].
  - destruct (nodes (sv_sys x) !! i); simpl; [|done]. destruct (f_queue (feed_of x i)), (f_sent (feed_of x i)); try done.
    destruct (Apply_collect _); simpl; [|done]. by intros [= <-].
  - destruct (f_queue (feed_of x i)), (f_inbox (feed_of x i)), (f_sent (feed_of x i)); try done. by intros [= <-].
  - destruct (nodes (sv_sys x) !! i) as [nd|]; simpl; [|done]. destruct (f_inbox (feed_of x i)); simpl; [|done].
    case_decide; [|done]. destruct (WaitApplyCh_msg _ _ _) as [[[kv' rf'] note]|]; simpl; [|done].
    destruct (do_notify _ _ _); simpl; [|done]. by intros [= <-].
Qed.
End run.

(** ** A write on three servers *)
Module ServiceDemo.
Export ZeroRand CountableCodec.

Definition kvs (i : Z) : KVServer * Raft Op :=
  default (KvDemo.kv0, KvDemo.no_raft) (StartKVServer 3 i (MkPersister None None) (-1)).
Definition boot (i : Z) : Raft Op := (kvs i).2.
Definition node (i : Z) : Node := MkNode (kvs i).1 (kvs i).2 0.
Definition or_dead (o : option (Raft Op)) : Raft Op := default KvDemo.no_raft o.

(** The cluster: peer 0 wins the election of term 1 with the vote of peer 1. *)
Definition c0 : Cluster Op := MkCluster (<[0 := boot 0]> (<[1 := boot 1]> (<[2 := boot 2]> ∅))) ∅ ∅.
Definition b0 : Raft Op := or_dead (fst <$> Election_begin (boot 0)).
Definition args : RequestVoteArgs := MkRVArgs 1 0 0 0.
Definition run1 : ElectionRun := MkRun args (server_ids 3 ∖ {[0]}) ∅ (MkSend 0 false) None ∅.
Definition c1 : Cluster Op :=
  c0 <| servers := <[0 := b0]> (servers c0) |> <| elections := <[0%nat := run1]> (elections c0) |>
     <| votes := <[(0, rv_Term args) := 0]> (votes c0) |>.
Definition b1 : Raft Op := or_dead (fst <$> RequestVote args rv_reply0 (boot 1)).
Definition reply : RequestVoteReply := MkRVReply 0 true.
Definition run2 : ElectionRun :=
  run1 <| el_pending := el_pending run1 ∖ {[1]} |> <| el_inflight := <[1 := reply]> (el_inflight run1) |>.
Definition c2 : Cluster Op :=
  c1 <| servers := <[1 := b1]> (servers c1) |> <| elections := <[0%nat := run2]> (elections c1) |>
     <| votes := <[(1, rv_Term args) := 0]> (votes c1) |>.
Definition run3 : ElectionRun :=
  run2 <| el_inflight := delete 1 (el_inflight run2) |> <| el_send := MkSend 1 false |>
       <| el_counted := {[1]} ∪ el_counted run2 |>.
Definition c3 : Cluster Op :=
  c2 <| servers := <[0 := b0]> (servers c2) |> <| elections := <[0%nat := run3]> (elections c2) |>.
Definition c4 : Cluster Op :=
  c3 <| servers := <[0 := b0]> (servers c3) |> <| elections := <[0%nat := run3 <| el_count := Some 1 |>]> (elections c3) |>.
Definition b5 : Raft Op := or_dead (Election_end args 1 b0).
Definition c5 : Cluster Op := c4 <| servers := <[0 := b5]> (servers c4) |>.
Definition at_start (c : Cluster Op) : AckCluster Op := MkAck (MkLogCluster c [] ∅) ∅.
Definition r5 : AckCluster Op := MkAck (MkLogCluster c5 [] (note_leader b5 ∅)) ∅.

(** The command goes to peer 1, which answers, and the leader commits it; peer 1 hears of
    that with the next request. *)
Definition clerk : Clerk := MakeClerk 3 7.
Definition put : Request := RPutAppend (MkPutAppendArgs "x" "1" "Put" 1 7).
Definition b6 : Raft Op := or_dead (fst <$> Start (request_op put 0) b5).
Definition r6 : AckCluster Op := MkAck (peer_moved 0 b6 [] r5) ({[(0, 1, 1%nat)]} ∪ acks r5).
Definition b7 : Raft Op := or_dead (fst <$> AE_prepare 1 b6).
Definition ae : AppendEntriesArgs Op := MkAEArgs 1 0 0 0 [MkLog (ICmd (request_op put 0)) 1] 0.
Definition r7 : AckCluster Op := MkAck (peer_moved 0 b7 [ae] r6) (acks r6).
Definition b8 : Raft Op := or_dead (fst <$> AppendEntries ae ae_reply0 b1).
Definition r8 : AckCluster Op := MkAck (peer_moved 1 b8 [ae] r7) ({[(1, 1, 1%nat)]} ∪ acks r7).
Definition accepted : AppendEntriesReply := MkAEReply true 0 (-1) (-1) (-1) 0.
Definition b9 : Raft Op := or_dead (fst <$> AE_result 1 ae accepted b7).
Definition r9 : AckCluster Op := MkAck (peer_moved 0 b9 [ae] r8) (acks r8).
Definition delivered (rf : Raft Op) : Raft Op := Apply_deliver (MkApplyMsg true (ICmd (request_op put 0)) 1) rf.
Definition r10 : AckCluster Op := MkAck (peer_moved 0 (delivered b9) [ae] r9) (acks r9).
Definition b11 : Raft Op := or_dead (fst <$> AE_prepare 1 (delivered b9)).
Definition ae2 : AppendEntriesArgs Op := MkAEArgs 1 0 1 1 [] 1.
Definition r11 : AckCluster Op := MkAck (peer_moved 0 b11 [ae2; ae] r10) (acks r10).
Definition b12 : Raft Op := or_dead (fst <$> AppendEntries ae2 ae_reply0 b8).
Definition r12 : AckCluster Op := MkAck (peer_moved 1 b12 [ae2; ae] r11) ({[(1, 1, 1%nat)]} ∪ acks r11).
Definition r13 : AckCluster Op := MkAck (peer_moved 1 (delivered b12) [ae2; ae] r12) (acks r12).

Definition sys0 : KvSys := MkKvSys [node 0; node 1; node 2] [] [] [] [] ∅ ∅ [] ∅ 0.
Definition x0 : Service := MkService sys0 (at_start c0) ∅.

Lemma x0_init : service_init 3 x0.
Proof.
  split_and!; [|done| |].
  - split; try done. intros [|[|[|i]]] n Hi; simpl in Hi; [injection Hi as <-..|done];
      (split; [done|]; exists (-1); vm_compute; reflexivity).
  - exists c0. split; [|done]. split_and!; [vm_compute; reflexivity|done..|].
    intros i rf Hi. unfold c0 in Hi. simpl in Hi.
    rewrite !lookup_insert in Hi. repeat case_decide; simplify_eq; try (vm_compute; reflexivity).
  - intros [|[|[|i]]] n Hi; simpl in Hi; [injection Hi as <-..|done]; split; vm_compute; reflexivity.
Qed.

Definition reach (x : Service) : Prop := rtc (timely_step 3) x0 x.

Lemma reach_steps x : reach x → rtc (service_step 3) x0 x.
Proof. apply rtc_subrel. by intros ? ? [? _]. Qed.

Lemma reach_step x x' : reach x → service_step 3 x x' → handlers (sv_sys x') = handlers (sv_sys x) → reach x'.
Proof. intros Hx Hs Hh. eapply rtc_r; [exact Hx|]. split; [done|]. intros h c k c'. by rewrite Hh. Qed.

Definition doing (acts : list ServiceAction) (x : Service) : Service :=
  default x (foldl (λ acc a, x ← acc; service_do a x) (Some x) acts).
Definition peer_of (i : nat) (x : Service) : Node := default (node 0) (nodes (sv_sys x) !! i).
Definition set_peer (i : nat) (rf : Raft Op) (x : Service) : KvSys :=
  set_node i (peer_of i x <| n_rf := rf |>) (sv_sys x).
Definition peer_moves (i : nat) (rf : Raft Op) (r : AckCluster Op) (x : Service) : Service :=
  MkService (set_peer i rf x) r (sv_feeds x).

Lemma reach_inv x : reach x → kv_inv (sv_sys x).
Proof.
  intros Hx. apply (kv_inv_reachable 3 sys0); [apply x0_init|].
  by apply (service_steps 3 x0 x eq_refl (service_init_inv 3 x0 eq_refl x0_init)), reach_steps.
Qed.

Lemma reach_doing acts x : reach x → reach (doing acts x).
Proof.
  intros Hx. unfold doing. destruct (foldl _ _ _) as [x'|] eqn:Hf; [|done]. simpl. revert x' Hf.
  induction acts as [|a acts IH] using rev_ind; intros x' Hf; [by injection Hf as <-|].
  rewrite foldl_app in Hf. simpl in Hf. destruct (foldl _ _ acts) as [x1|]; simpl in Hf; [|done].
  apply (reach_step x1); [by apply IH| |by eapply service_do_handlers]. apply (service_do_step 3 a); [|done]. by apply reach_inv, IH.
Qed.

Lemma reach_raft i rf r x :
  reach x → is_Some (nodes (sv_sys x) !! i) → moves 3 i rf (sv_raft x) r →
  lastApplied rf = lastApplied (n_rf (peer_of i x)) → (state rf = LEADER → log rf = log (n_rf (peer_of i x))) →
  reach (peer_moves i rf r x).
Proof.
  intros Hx [nd Hi] Hm Ha Hl. apply (reach_step x); [exact Hx| |done]. unfold peer_moves, set_peer, peer_of in *.
  rewrite Hi in *. by apply service_raft.
Qed.

Lemma doing_raft acts x : sv_raft (doing acts x) = sv_raft x.
Proof.
  unfold doing. destruct (foldl _ _ _) as [x'|] eqn:Hf; [|done]. simpl. revert x' Hf.
  induction acts as [|a acts IH] using rev_ind; intros x' Hf; [by injection Hf as <-|].
  rewrite foldl_app in Hf. simpl in Hf. destruct (foldl _ _ acts) as [x1|]; simpl in Hf; [|done].
  rewrite <-(IH x1 eq_refl). by eapply service_do_raft.
Qed.

Lemma moves_election i rf c c' :
  election_step 3 c c' → votes_compared (at_start c) c' → is_Some (servers c !! Z.of_nat i) →
  servers c' = <[Z.of_nat i := rf]> (servers c) → note_leader rf ∅ = ∅ →
  moves 3 i rf (at_start c) (at_start c').
Proof.
  intros He Hv [rf0 Hi] Hs Hl. split; [|done]. unfold at_start at 2. rewrite <-Hl.
  by apply (ack_election 3 (at_start c) c' (Z.of_nat i) rf0 rf).
Qed.

Lemma moves_candidate : moves 3 0 b0 (at_start c0) (at_start c1).
Proof.
  apply moves_election; [|intros k e j rf He; vm_compute in He; discriminate|by eexists|reflexivity|reflexivity].
  apply (step_election_begin 3 c0 0 0%nat (boot 0) b0 args); vm_compute; reflexivity.
Qed.

Lemma moves_vote : moves 3 1 b1 (at_start c1) (at_start c2).
Proof.
  apply moves_election; [|..|by eexists|reflexivity|reflexivity].
  - apply (step_request_vote 3 c1 0%nat run1 1 (boot 1) b1 reply); [..|vm_compute; reflexivity];
      [vm_compute; reflexivity| |vm_compute; reflexivity].
    apply (bool_decide_unpack _). vm_compute. exact I.
  - intros k e j rf He Hj Hv Hv' _. simpl in He. apply lookup_insert_Some in He as [[_ <-]|[_ He]]; [|done].
    simpl in Hv, Hv'. apply lookup_insert_Some in Hv' as [[[= <-] _]|[_ Hv']]; [|by rewrite Hv' in Hv].
    assert (rf = boot 1) as -> by (vm_compute in Hj; by injection Hj as <-). vm_compute. reflexivity.
Qed.

Lemma moves_counted : moves 3 0 b0 (at_start c2) (at_start c3).
Proof.
  apply moves_election; [|by apply votes_same_compared|by eexists|reflexivity|reflexivity].
  apply (step_reply 3 c2 0%nat run2 0 1 b0 b0 reply (MkSend 1 false)); vm_compute; reflexivity.
Qed.

Lemma moves_finished : moves 3 0 b0 (at_start c3) (at_start c4).
Proof.
  apply moves_election; [|by apply votes_same_compared|by eexists|reflexivity|reflexivity].
  apply (step_finish 3 c3 0%nat run3 0 b0 b0 1); vm_compute; reflexivity.
Qed.

Lemma moves_leader : moves 3 0 b5 (at_start c4) r5.
Proof.
  split; [|reflexivity].
  apply (ack_election 3 (at_start c4) c5 0 b0 b5); [|by apply votes_same_compared|vm_compute; reflexivity|reflexivity].
  apply (step_election_end 3 c4 0%nat (run3 <| el_count := Some 1 |>) 0 1 b0 b5); vm_compute; reflexivity.
Qed.

Lemma moves_start : moves 3 0 b6 r5 r6.
Proof. split; [|reflexivity]. apply (ack_start 3 r5 0 (request_op put 0) b5 b6 1 1 true); vm_compute; reflexivity. Qed.

Lemma moves_request : moves 3 0 b7 r6 r7.
Proof. split; [|reflexivity]. apply (ack_send 3 r6 0 1 b6 b7 ae); vm_compute; reflexivity. Qed.

Lemma moves_append : moves 3 1 b8 r7 r8.
Proof.
  split; [|reflexivity].
  apply (ack_append 3 r7 1 ae b1 b8 accepted); [vm_compute; reflexivity|apply list_elem_of_here|vm_compute; reflexivity].
Qed.

(** Peers 0 and 1 have answered for index [k]. *)
Lemma confirmed_by_two A (rf : Raft Op) k :
  matchIndex rf = [Z.of_nat k; Z.of_nat k; 0] → commitIndex rf = Z.of_nat k → currentTerm rf = 1 → bool_decide (0 < Z.of_nat k) →
  Term <$> log rf !! k = Some 1 → (0, 1, k) ∈ A → (1, 1, k) ∈ A → commit_confirmed A rf.
Proof.
  intros Hmi Hci Hct Hpos%bool_decide_unpack Hterm H0A H1A. split; rewrite Hci, Hct, Nat2Z.id; [done|].
  intros j m Hm Hc. apply slice_get_Some in Hm as [Hj Hm]. rewrite Hmi in Hm.
  destruct (Z.to_nat j) as [|[|[|]]] eqn:Hz; cbn in Hm; simplify_eq.
  - exists k. split; [lia|]. by replace j with 0 by lia.
  - exists k. split; [lia|]. by replace j with 1 by lia.
  - lia.
Qed.

Lemma moves_commit : moves 3 0 b9 r8 r9.
Proof.
  split; [|reflexivity].
  apply (ack_commit 3 r8 0 1 ae accepted b7 b9 AEReturn); [vm_compute; reflexivity|vm_compute; reflexivity|].
  apply (confirmed_by_two (acks r8) b9 1); [vm_compute; reflexivity..| |];
    apply (bool_decide_unpack _); vm_compute; exact I.
Qed.

Lemma moves_delivered0 : moves 3 0 (delivered b9) r9 r10.
Proof.
  split; [|reflexivity]. apply (ack_quiet 3 r9 0 b9); [vm_compute; reflexivity|apply quiet_Apply_deliver|vm_compute; reflexivity].
Qed.

Lemma moves_request2 : moves 3 0 b11 r10 r11.
Proof. split; [|reflexivity]. apply (ack_send 3 r10 0 1 (delivered b9) b11 ae2); vm_compute; reflexivity. Qed.

Lemma moves_append2 : moves 3 1 b12 r11 r12.
Proof.
  split; [|reflexivity].
  apply (ack_append 3 r11 1 ae2 b8 b12 accepted); [vm_compute; reflexivity|apply list_elem_of_here|vm_compute; reflexivity].
Qed.

Lemma moves_delivered1 : moves 3 1 (delivered b12) r12 r13.
Proof.
  split; [|reflexivity]. apply (ack_quiet 3 r12 1 b12); [vm_compute; reflexivity|apply quiet_Apply_deliver|vm_compute; reflexivity].
Qed.

(** The execution: the election, the clerk's call, its handler and replication; the leader
    applies the command and the handler answers; peer 1 applies it. *)
Definition x1 : Service := peer_moves 0 b0 (at_start c1) x0.
Definition x2 : Service := peer_moves 1 b1 (at_start c2) x1.
Definition x3 : Service := peer_moves 0 b0 (at_start c3) x2.
Definition x4 : Service := peer_moves 0 b0 (at_start c4) x3.
Definition x5 : Service := peer_moves 0 b5 r5 x4.
Definition x6 : Service := doing [SClerk (ACall clerk put)] x5.
Definition x7 : Service :=
  MkService (set_peer 0 b6 x6 <| submitted := submitted (sv_sys x6) ++ [request_op put 0] |>
    <| hstates := <[length (handlers (sv_sys x6)) := HStarted]> (hstates (sv_sys x6)) |>
    <| handlers := handlers (sv_sys x6) ++ [MkHandlerRec 0 0 0] |>) r6 (sv_feeds x6).
Definition x8 : Service := doing [SClerk (ARegister 0)] x7.
Definition x9 : Service := peer_moves 0 b7 r7 x8.
Definition x10 : Service := peer_moves 1 b8 r8 x9.
Definition x11 : Service := peer_moves 0 b9 r9 x10.
Definition sent (i : nat) (rf : Raft Op) (r : AckCluster Op) (x : Service) : Service :=
  MkService (set_peer i (delivered rf) x) r (<[i := feed_of x i <| f_sent := None |>]> (sv_feeds x)).
Definition x12 : Service := doing [SCollect 0; SSend 0; SApply 0; SClerk (ALeave 0)] x11.
Definition x13 : Service := sent 0 b9 r10 x12.
Definition x14 : Service := doing [SClerk (ARound 0 0 0); SClerk (AReturn 0)] x13.
Definition x15 : Service := peer_moves 0 b11 r11 x14.
Definition x16 : Service := peer_moves 1 b12 r12 x15.
Definition x17 : Service := doing [SCollect 1; SSend 1; SApply 1] x16.
Definition x18 : Service := sent 1 b12 r13 x17.

Lemma reach_moves i rf r r' x :
  reach x → sv_raft x = r → moves 3 i rf r r' → bool_decide (is_Some (nodes (sv_sys x) !! i)) →
  lastApplied rf = lastApplied (n_rf (peer_of i x)) → (state rf = LEADER → log rf = log (n_rf (peer_of i x))) →
  reach (peer_moves i rf r' x).
Proof. intros Hx <- Hm Hi%bool_decide_unpack. by apply reach_raft. Qed.

Lemma reach_sent i rf r r' x :
  reach x → sv_raft x = r → moves 3 i (delivered rf) r r' → n_rf <$> nodes (sv_sys x) !! i = Some rf →
  f_sent (feed_of x i) = Some (MkApplyMsg true (ICmd (request_op put 0)) 1) → reach (sent i rf r' x).
Proof.
  intros Hx <- Hm (nd & Hi & ->)%fmap_Some Hs. apply (reach_step x); [exact Hx| |done]. unfold sent, set_peer, peer_of.
  rewrite Hi. by apply service_sent.
Qed.

Ltac reach_move prev Hm := eapply (reach_moves _ _ _ _ _ prev); [reflexivity|exact Hm|vm_compute; exact I|vm_compute; reflexivity|].

Ltac not_leader := let Hs := fresh in intros Hs; vm_compute in Hs; discriminate Hs.

Lemma reach_x5 : reach x5.
Proof.
  assert (reach x1) as R1 by (reach_move (rtc_refl (timely_step 3) x0) moves_candidate; not_leader).
  assert (reach x2) as R2 by (reach_move R1 moves_vote; not_leader).
  assert (reach x3) as R3 by (reach_move R2 moves_counted; not_leader).
  assert (reach x4) as R4 by (reach_move R3 moves_finished; not_leader).
  reach_move R4 moves_leader. intros _. vm_compute. reflexivity.
Qed.

Lemma x7_in_time : in_time (sv_sys x6) (sv_sys x7).
Proof.
  intros h c k c' _ _ _ Hk _. assert (length (calls (sv_sys x7)) = 1%nat) as Hl by (vm_compute; reflexivity).
  apply lookup_lt_Some in Hk. lia.
Qed.

Lemma reach_x11 : reach x11.
Proof.
  assert (reach x6) as R6 by (unfold x6; apply reach_doing, reach_x5).
  assert (reach x7) as R7.
  { assert (sv_raft x6 = r5) as Hr by (unfold x6; by rewrite doing_raft).
    eapply rtc_r; [exact R6|]. split; [|by apply x7_in_time]. unfold x7, set_peer.
    apply (service_start 3 x6 0 (peer_of 0 x6) 0 (MkCallRec clerk put 0) 0 b6 1 1 r6); [vm_compute; reflexivity..| |vm_compute; reflexivity|].
    - intros h Hh. vm_compute in Hh. by apply elem_of_nil in Hh.
    - rewrite Hr. exact moves_start. }
  assert (reach x8) as R8 by (unfold x8; by apply reach_doing).
  assert (reach x9) as R9.
  { eapply (reach_moves _ _ _ _ _ R8); [unfold x8; by rewrite doing_raft|exact moves_request|vm_compute; exact I|vm_compute; reflexivity|].
    intros _. vm_compute. reflexivity. }
  assert (reach x10) as R10 by (reach_move R9 moves_append; not_leader).
  reach_move R10 moves_commit. intros _. vm_compute. reflexivity.
Qed.

Lemma reach_x18 : reach x18.
Proof.
  assert (reach x12) as R12 by (unfold x12; apply reach_doing, reach_x11).
  assert (reach x13) as R13.
  { unfold x13. apply (reach_sent 0 b9 r9 r10 x12 R12); [unfold x12; by rewrite doing_raft|exact moves_delivered0|vm_compute; reflexivity..]. }
  assert (reach x14) as R14 by (unfold x14; by apply reach_doing).
  assert (reach x15) as R15.
  { unfold x15. apply (reach_moves 0 b11 r10 r11 x14 R14); [unfold x14; by rewrite doing_raft|exact moves_request2|vm_compute; exact I|vm_compute; reflexivity|].
    intros _. vm_compute. reflexivity. }
  assert (reach x16) as R16 by (reach_move R15 moves_append2; not_leader).
  assert (reach x17) as R17 by (unfold x17; by apply reach_doing).
  unfold x18. apply (reach_sent 1 b12 r12 r13 x17 R17); [unfold x17; by rewrite doing_raft|exact moves_delivered1|vm_compute; reflexivity..].
Qed.

(** Then the clerk reads: the command goes the same way, and the read returns the write. *)
Definition get : Request := RGet (MkGetArgs "x" 2 7).
Definition b20 : Raft Op := or_dead (fst <$> Start (request_op get 1) b11).
Definition r20 : AckCluster Op := MkAck (peer_moved 0 b20 [ae2; ae] r13) ({[(0, 1, 2%nat)]} ∪ acks r13).
Definition b22 : Raft Op := or_dead (fst <$> AE_prepare 1 b20).
Definition ae3 : AppendEntriesArgs Op := MkAEArgs 1 0 1 1 [MkLog (ICmd (request_op get 1)) 1] 1.
Definition r22 : AckCluster Op := MkAck (peer_moved 0 b22 [ae3; ae2; ae] r20) (acks r20).
Definition b23 : Raft Op := or_dead (fst <$> AppendEntries ae3 ae_reply0 (delivered b12)).
Definition r23 : AckCluster Op := MkAck (peer_moved 1 b23 [ae3; ae2; ae] r22) ({[(1, 1, 2%nat)]} ∪ acks r22).
Definition b24 : Raft Op := or_dead (fst <$> AE_result 1 ae3 accepted b22).
Definition r24 : AckCluster Op := MkAck (peer_moved 0 b24 [ae3; ae2; ae] r23) (acks r23).

Definition x19 : Service := doing [SClerk (ACall clerk get)] x18.
Definition x20 : Service :=
  MkService (set_peer 0 b20 x19 <| submitted := submitted (sv_sys x19) ++ [request_op get 1] |>
    <| hstates := <[length (handlers (sv_sys x19)) := HStarted]> (hstates (sv_sys x19)) |>
    <| handlers := handlers (sv_sys x19) ++ [MkHandlerRec 0 1 1] |>) r20 (sv_feeds x19).
Definition x21 : Service := doing [SClerk (ARegister 1)] x20.
Definition x22 : Service := peer_moves 0 b22 r22 x21.
Definition x23 : Service := peer_moves 1 b23 r23 x22.
Definition x24 : Service := peer_moves 0 b24 r24 x23.
Definition x25 : Service :=
  doing [SCollect 0; SSend 0; SApply 0; SClerk (ALeave 1); SClerk (ARound 1 0 1); SClerk (AReturn 1)] x24.

Lemma moves_start2 : moves 3 0 b20 r13 r20.
Proof. split; [|reflexivity]. apply (ack_start 3 r13 0 (request_op get 1) b11 b20 2 1 true); vm_compute; reflexivity. Qed.

Lemma moves_request3 : moves 3 0 b22 r20 r22.
Proof. split; [|reflexivity]. apply (ack_send 3 r20 0 1 b20 b22 ae3); vm_compute; reflexivity. Qed.

Lemma moves_append3 : moves 3 1 b23 r22 r23.
Proof.
  split; [|reflexivity].
  apply (ack_append 3 r22 1 ae3 (delivered b12) b23 accepted); [vm_compute; reflexivity|apply list_elem_of_here|vm_compute; reflexivity].
Qed.

Lemma moves_commit2 : moves 3 0 b24 r23 r24.
Proof.
  split; [|reflexivity]. apply (ack_commit 3 r23 0 1 ae3 accepted b22 b24 AEReturn); [vm_compute; reflexivity|vm_compute; reflexivity|].
  apply (confirmed_by_two (acks r23) b24 2); [vm_compute; reflexivity..| |];
    apply (bool_decide_unpack _); vm_compute; exact I.
Qed.

Lemma x20_in_time : in_time (sv_sys x19) (sv_sys x20).
Proof.
  intros h c k c' Hh Hn _ Hk _. assert (length (calls (sv_sys x20)) = 2%nat) as Hl by (vm_compute; reflexivity).
  assert (handlers (sv_sys x20) = [MkHandlerRec 0 0 0; MkHandlerRec 0 1 1]) as Hh20 by (vm_compute; reflexivity).
  assert (handlers (sv_sys x19) = [MkHandlerRec 0 0 0]) as Hh19 by (vm_compute; reflexivity).
  apply lookup_lt_Some in Hk. rewrite Hl in Hk. rewrite Hh20 in Hh. rewrite Hh19 in Hn. clear Hl Hh20 Hh19.
  apply elem_of_cons in Hh as [->|Hh]; [by destruct Hn; apply list_elem_of_singleton|].
  apply list_elem_of_singleton in Hh as ->. simpl. lia.
Qed.

Lemma reach_x25 : reach x25.
Proof.
  assert (reach x19) as R19 by (unfold x19; apply reach_doing, reach_x18).
  assert (reach x20) as R20.
  { assert (sv_raft x19 = r13) as Hr by (unfold x19; by rewrite doing_raft).
    eapply rtc_r; [exact R19|]. split; [|exact x20_in_time]. unfold x20, set_peer.
    apply (service_start 3 x19 0 (peer_of 0 x19) 1 (MkCallRec clerk get 3) 1 b20 2 1 r20); [vm_compute; reflexivity..| |vm_compute; reflexivity|].
    - intros h Hh. vm_compute in Hh. by apply list_elem_of_singleton in Hh as ->.
    - rewrite Hr. exact moves_start2. }
  assert (reach x21) as R21 by (unfold x21; by apply reach_doing).
  assert (reach x22) as R22.
  { unfold x22. apply (reach_moves 0 b22 r20 r22 x21 R21); [unfold x21; by rewrite doing_raft|exact moves_request3|vm_compute; exact I|vm_compute; reflexivity|].
    intros _. vm_compute. reflexivity. }
  assert (reach x23) as R23 by (reach_move R22 moves_append3; not_leader).
  assert (reach x24) as R24 by (reach_move R23 moves_commit2; intros _; vm_compute; reflexivity).
  unfold x25. by apply reach_doing.
Qed.

Lemma x25_done : fst <$> returned (sv_sys x25) !! 1%nat = Some "1"%string.
Proof. vm_compute. reflexivity. Qed.

(** The write has returned and two servers hold it. *)
Lemma x18_done :
  fst <$> returned (sv_sys x18) !! 0%nat = Some ""%string
  ∧ (λ nd, kv_data (n_kv nd) !! "x"%string) <$> nodes (sv_sys x18) = [Some "1"%string; Some "1"%string; None].
Proof. split; vm_compute; reflexivity. Qed.
End ServiceDemo.
