(* ===== verification/KvRaftLinear.v ===== *)
(** * The key/value service on Raft: refinement and linearizability

    What [KvRaft]'s simulation gives: its executions are those of [KvSystem].  Linearizability
    then needs that no copy of a write is logged after the client's next one, and on Raft
    that is no assumption on the log: it is enough that no request is delivered after its
    clerk has gone on to its next call.  Copies that are still in some peer's log do no
    harm, for commands enter logs by [Start] only, and a log is copied from leaders.  The
    witnesses are the execution of [KvRaftRun]. *)
From S2P Require Import Prelude RaftState RaftReplicate RaftApply RaftCluster RaftLog RaftSafe RaftSafety.
From S2P Require Import PorcModel PorcKv KvServer KvClerk KvSystem KvRun KvLinear KvRaft KvRaftRun.

Lemma request_op_ClientId r id : ClientId (request_op r id) = req_ClientId r.
Proof. by destruct r. Qed.

Section timely.
Context `{GoRand, GobCodec (RaftVal Op), GobCodec KvVal} (nservers : Z).
Implicit Types (x : Service) (s : KvSys) (l : list (Log Op)) (L : gmap Z (list (Log Op))).

(** A log has the calls of each client in their order. *)
Definition ordered s l : Prop :=
  ∀ p q ea eb a b j k, (0 < p < q)%nat → l !! p = Some ea → l !! q = Some eb →
    Command ea = ICmd a → Command eb = ICmd b → ClientId a = ClientId b →
    serves s j a → serves s k b → (j ≤ k)%nat.

Record timely_inv x : Prop := {
  ti_service : service_inv nservers x;
  ti_ids : ids_ok (sv_sys x);
  ti_ordered t l : lc_leader_logs (ac_log (sv_raft x)) !! t = Some l → ordered (sv_sys x) l
}.

Lemma ordered_prefix s l l' : l `prefix_of` l' → ordered s l' → ordered s l.
Proof. intros Hp Ho p q ea eb a b j k Hpq Ha Hb. by eapply Ho; [exact Hpq|eapply prefix_lookup_Some..]. Qed.

(** A log is as ordered as the leaders' logs its entries come from. *)
Lemma ordered_matched s L l : matches L l → (∀ t l', L !! t = Some l' → ordered s l') → ordered s l.
Proof.
  intros Hm HL p q ea eb a b j k Hpq Ha Hb. destruct (Hm q eb ltac:(lia) Hb) as (lt & Hlt & Hpre).
  pose proof (ordered_prefix s _ _ Hpre (HL _ _ Hlt)) as Ho. apply (Ho p q ea eb a b j k Hpq); by rewrite lookup_take_lt by lia.
Qed.

Lemma ordered_snoc s l e op k :
  ordered s l → ids_ok s → Command e = ICmd op → serves s k op →
  (∀ k' c', calls s !! k' = Some c' → req_ClientId (c_req c') = ClientId op → (k' ≤ k)%nat) → ordered s (l ++ [e]).
Proof.
  intros Ho Hids He Hk Hlast p q ea eb a b j k' Hpq Ha Hb Hca Hcb Hab Hj Hk'.
  apply lookup_snoc_Some in Hb as [[Hlt Hb]|[Hq Heb]].
  - rewrite lookup_app_l in Ha by lia. by eapply (Ho p q).
  - assert (b = op) as -> by congruence. rewrite (serves_fun s k' k op Hids Hk' Hk).
    destruct Hj as (c & Hc & Hac). apply (Hlast j c Hc). by rewrite <-Hab, Hac, request_op_ClientId.
Qed.

(** New calls serve none of the old commands. *)
Lemma serves_back s s' k op :
  ids_ok s → ids_ok s' → calls s `prefix_of` calls s' → op ∈ submitted s → serves s' k op → serves s k op.
Proof.
  intros Hids Hids' Hp Hop Hk. destruct (io_submitted s Hids op Hop) as (j & h & Hj & _ & Hs).
  by rewrite (serves_fun s' k (h_call h) op Hids' Hk (serves_mono s s' _ _ Hp Hs)).
Qed.

Lemma ordered_later s s' l :
  ids_ok s → ids_ok s' → calls s `prefix_of` calls s' →
  (∀ k e op, (0 < k)%nat → l !! k = Some e → Command e = ICmd op → op ∈ submitted s) →
  ordered s l → ordered s' l.
Proof.
  intros Hids Hids' Hp Hl Ho p q ea eb a b j k Hpq Ha Hb Hca Hcb Hab Hj Hk.
  assert (a ∈ submitted s) as Has by (apply (Hl p ea a); [lia|done|done]).
  assert (b ∈ submitted s) as Hbs by (apply (Hl q eb b); [lia|done|done]).
  by apply (Ho p q ea eb a b j k); try done; eapply (serves_back s s').
Qed.

(** ** Steps *)

(** What a step does to the logs of leaders: nothing, or it notes the one of the peer that
    moved, which kept its log or appended the command of a handler that has just started. *)
Record step_shape x x' : Prop := {
  sh_calls : calls (sv_sys x) `prefix_of` calls (sv_sys x');
  sh_logs t l : lc_leader_logs (ac_log (sv_raft x')) !! t = Some l →
    lc_leader_logs (ac_log (sv_raft x)) !! t = Some l
    ∨ ∃ i nd, nodes (sv_sys x) !! i = Some nd ∧
        (l = log (n_rf nd) ∨ ∃ e h c, l = log (n_rf nd) ++ [e] ∧ Command e = ICmd (request_op (c_req c) (h_id h))
           ∧ h ∈ handlers (sv_sys x') ∧ (h ∉ handlers (sv_sys x)) ∧ calls (sv_sys x) !! h_call h = Some c)
}.

Lemma clerks_calls s s' : kv_step nservers s s' → calls s `prefix_of` calls s'.
Proof. destruct 1; simpl; try done. by apply prefix_app_r. Qed.

(** Peers that move without a new command. *)
Lemma shape_move x x' i nd rf' :
  0 < nservers → service_inv nservers x → nodes (sv_sys x) !! i = Some nd → moves nservers i rf' (sv_raft x) (sv_raft x') →
  calls (sv_sys x') = calls (sv_sys x) → (state rf' = LEADER → log rf' = log (n_rf nd)) → step_shape x x'.
Proof.
  intros Hn Hinv Hi Hm Hc Hl. pose proof (service_moved nservers x i nd rf' _ Hn Hinv Hi Hm) as Hmd.
  constructor; [by rewrite Hc|]. intros t l. rewrite (mv_leaders _ _ _ _ _ _ Hmd).
  intros [?|(Hs & _ & ->)]%note_leader_lookup; [by left|right]. exists i, nd. split; [done|left]. by apply Hl.
Qed.

Lemma shape_still x x' : sv_raft x' = sv_raft x → calls (sv_sys x) `prefix_of` calls (sv_sys x') → step_shape x x'.
Proof. intros Hr Hc. constructor; [done|]. intros t l. rewrite Hr. by left. Qed.

Lemma foldl_note_calls ops s : calls (foldl note_commit s ops) = calls s.
Proof. revert s. induction ops as [|op ops IH]; intros s; [done|]. simpl. by rewrite IH. Qed.

Lemma shape_start x i nd k c reqId rf' index term r' :
  0 < nservers → service_inv nservers x → nodes (sv_sys x) !! i = Some nd → calls (sv_sys x) !! k = Some c →
  (∀ h, h ∈ handlers (sv_sys x) → h_id h ≠ reqId) →
  Start (request_op (c_req c) reqId) (n_rf nd) = Some (rf', (index, term, true)) →
  moves nservers i rf' (sv_raft x) r' →
  step_shape x (MkService (set_node i (nd <| n_rf := rf' |>) (sv_sys x)
    <| submitted := submitted (sv_sys x) ++ [request_op (c_req c) reqId] |>
    <| hstates := <[length (handlers (sv_sys x)) := HStarted]> (hstates (sv_sys x)) |>
    <| handlers := handlers (sv_sys x) ++ [MkHandlerRec i k reqId] |>) r' (sv_feeds x)).
Proof.
  intros Hn Hinv Hi Hk Hf Hst Hm. pose proof (service_moved nservers x i nd rf' _ Hn Hinv Hi Hm) as Hmd.
  constructor; [done|]. simpl. intros t l. rewrite (mv_leaders _ _ _ _ _ _ Hmd).
  intros [?|(Hs & _ & ->)]%note_leader_lookup; [by left|right]. exists i, nd. split; [done|].
  destruct (so_raft _ _ Hinv) as [V Hraft].
  pose proof (li_peers nservers _ (sv_log nservers _ V Hraft) _ _ (no_peer _ _ _ (so_nodes _ _ Hinv i nd Hi))) as Hpl.
  apply Start_log in Hst as [[-> _]|(_ & _ & _ & Hl & _)]; [by left|right|].
  - eexists _, (MkHandlerRec i k reqId), c. split_and!; [exact Hl|done| |..|exact Hk].
    + apply elem_of_app. right. by apply list_elem_of_singleton.
    + intros Hin. by apply (Hf _ Hin).
  - intros He. pose proof (pl_head _ _ Hpl) as Hh. by rewrite He in Hh.
Qed.

Lemma step_shaped x x' : 0 < nservers → service_inv nservers x → service_step nservers x x' → step_shape x x'.
Proof.
  intros Hn Hinv Hstep.
  destruct Hstep as [s' Hk _ _ _|i nd k c reqId rf' index term r' Hi Hk Hf Hst Hm|i nd rf' r' Hi Hm _ Hl|i nd msgs Hi _ _ _
    |i m q _ _ _|i nd m r' Hi _ Hm|i nd m kv' note hs Hi _ _ _|i nd kv' rf' r' Hi Hk Hm|i nd kv' rf' r' Hi Hst Hm].
  - apply shape_still; [done|]. by apply clerks_calls.
  - by eapply shape_start.
  - by apply (shape_move x _ i nd rf').
  - apply shape_still; [done|]. simpl. by rewrite foldl_note_calls.
  - by apply shape_still.
  - apply (shape_move x _ i nd (Apply_deliver m (n_rf nd))); try done. intros _. unfold Apply_deliver. by case_bool_decide.
  - by apply shape_still.
  - apply (shape_move x _ i nd rf'); try done. intros _. unfold KV_Kill, Kill in Hk.
    destruct (stopCh _); simpl in Hk; [done|]. by destruct (kv_stopCh _); simplify_eq/=.
  - apply (shape_move x _ i nd rf'); try done. intros Hs. unfold StartKVServer in Hst.
    destruct (Make _ _ _) as [rf1|] eqn:Hmk; simpl in Hst; [|done]. destruct (ReadSnapshot _ _); simplify_eq/=.
    destruct (so_raft _ _ Hinv) as [V Hraft].
    pose proof (li_peers nservers _ (sv_log nservers _ V Hraft) _ _ (no_peer _ _ _ (so_nodes _ _ Hinv i nd Hi))) as Hpl.
    apply Make_log in Hmk as (_ & _ & Hfol & _); [congruence|exact (pl_saved _ _ Hpl)].
Qed.

Lemma timely_step_inv x x' : 0 < nservers → timely_inv x → timely_step nservers x x' → timely_inv x'.
Proof.
  intros Hn [Hinv Hids Ho] [Hstep Htime]. destruct (service_sim nservers x x' Hn Hinv Hstep) as [Hkv Hinv'].
  assert (ids_ok (sv_sys x')) as Hids'.
  { clear -Hids Hkv. induction Hkv as [|s s1 s2 Hs _ IH]; [done|]. by eapply IH, ids_step. }
  destruct (step_shaped x x' Hn Hinv Hstep) as [Hc Hlogs]. destruct (so_raft _ _ Hinv) as [V Hraft].
  assert (∀ i nd, nodes (sv_sys x) !! i = Some nd → ordered (sv_sys x') (log (n_rf nd))) as Hpeer.
  { intros i nd Hi.
    pose proof (li_peers nservers _ (sv_log nservers _ V Hraft) _ _ (no_peer _ _ _ (so_nodes _ _ Hinv i nd Hi))) as Hpl.
    apply (ordered_later (sv_sys x)); [done..| |by apply (ordered_matched _ _ _ (pl_matches _ _ Hpl))].
    intros k e op Hk He Hop. destruct (peer_entries nservers x i nd k e Hinv Hi Hk He) as (op' & Hop' & ?). congruence. }
  constructor; [done|done|]. intros t l Hl. destruct (Hlogs t l Hl) as [Hold|(i & nd & Hi & [->|(e & h & c & -> & He & Hh & Hnew & Hk)])].
  - apply (ordered_later (sv_sys x)); [done..| |by eapply Ho]. intros k e op Hk He Hop.
    destruct (so_entries _ _ Hinv t l k e Hold Hk He) as (op' & Hop' & ?). congruence.
  - by apply (Hpeer i).
  - apply (ordered_snoc _ _ e (request_op (c_req c) (h_id h)) (h_call h)); [by apply (Hpeer i)|done|done|..].
    + exists c. split; [by eapply prefix_lookup_Some|]. by rewrite request_op_RequestId.
    + intros k' c' Hk' Hcl. rewrite request_op_ClientId in Hcl.
      apply (Htime h c k' c'); [done|done|by eapply prefix_lookup_Some|done|done].
Qed.

Lemma timely_reachable_inv x0 x :
  0 < nservers → service_init nservers x0 → rtc (timely_step nservers) x0 x → timely_inv x.
Proof.
  intros Hn Hi Hs. assert (timely_inv x0) as Hinv.
  { constructor; [by apply service_init_inv|exact (ki_ids _ (kv_inv_init nservers _ (proj1 Hi)))|].
    intros t l. destruct Hi as (_ & _ & (cs & _ & ->) & _). simpl. by rewrite lookup_empty. }
  clear Hi. induction Hs as [x|x x1 x2 Hstep _ IH]; [done|]. apply IH. by eapply timely_step_inv.
Qed.

(** The peers' logs come from the leaders' logs. *)
Lemma peers_ordered x i nd : timely_inv x → nodes (sv_sys x) !! i = Some nd → ordered (sv_sys x) (log (n_rf nd)).
Proof.
  intros [Hinv _ Ho] Hi. destruct (so_raft _ _ Hinv) as [V Hraft].
  pose proof (li_peers nservers _ (sv_log nservers _ V Hraft) _ _ (no_peer _ _ _ (so_nodes _ _ Hinv i nd Hi))) as Hpl.
  by apply (ordered_matched _ _ _ (pl_matches _ _ Hpl)).
Qed.

(** The log has the calls of each client in their order, so no copy of a write comes after
    the client's next one. *)
Lemma ordered_serial x : timely_inv x → client_serial (log_ops (sv_sys x)).
Proof.
  intros [Hinv Hids Ho]. destruct (so_log _ _ Hinv) as (T & l & Hc & Hl).
  intros p q r a b c Hpqr Ha Hb Hd _ _ _ Hab Hbc Hac.
  assert (∀ k op, log_ops (sv_sys x) !! k = Some op → ∃ j, serves (sv_sys x) j op) as Hserves.
  { intros k op Hk. unfold log_ops in Hk. rewrite list_lookup_fmap in Hk.
    destruct (committed (sv_sys x) !! k) as [[op' t]|] eqn:Hk'; simplify_eq/=.
    destruct (io_committed _ Hids k op t Hk') as (_ & _ & j & c' & Hj & Hop & _). by exists j, c'. }
  destruct (Hserves _ _ Ha) as [ja Hja], (Hserves _ _ Hb) as [jb Hjb], (Hserves _ _ Hd) as [jc Hjc].
  destruct (Hl _ _ Ha) as (ea & Hea & Hca), (Hl _ _ Hb) as (eb & Heb & Hcb), (Hl _ _ Hd) as (ec & Hec & Hcc).
  apply lookup_lt_Some in Hd as Hlen.
  destruct Hc as [Hle|(t & k & _ & _ & _ & lt & Hlt & Hk & Hpre)]; [exfalso; lia|].
  assert (∀ i e, (i < length (log_ops (sv_sys x)))%nat → l !! S i = Some e → lt !! S i = Some e) as Hlt'.
  { intros i e Hi He. destruct Hpre as [y ->]. rewrite lookup_app_l in He by (rewrite length_take; lia).
    by rewrite lookup_take_lt in He by lia. }
  pose proof (Hlt' p ea ltac:(lia) Hea) as Ha'. pose proof (Hlt' q eb ltac:(lia) Heb) as Hb'.
  pose proof (Hlt' r ec ltac:(lia) Hec) as Hc'.
  pose proof (Ho t lt Hlt (S p) (S q) ea eb a b ja jb ltac:(lia) Ha' Hb' Hca Hcb Hab Hja Hjb).
  pose proof (Ho t lt Hlt (S q) (S r) eb ec b c jb jc ltac:(lia) Hb' Hc' Hcb Hcc Hbc Hjb Hjc).
  destruct Hja as (ra & Hra & Hoa), Hjb as (rb & Hrb & Hob), Hjc as (rc & Hrc & Hoc).
  assert (ja = jc) as <-.
  { eapply (NoDup_lookup _ ja jc (MsgId a)); [exact (io_calls _ Hids)|..]; rewrite list_lookup_fmap.
    - rewrite Hra. simpl. by rewrite Hoa, request_op_MsgId.
    - rewrite Hrc. simpl. by rewrite Hac, Hoc, request_op_MsgId. }
  assert (jb = ja) as -> by lia. rewrite Hrb in Hra. injection Hra as <-.
  by rewrite Hoa, Hob, !request_op_MsgId.
Qed.
End timely.

Section theorems.
Context `{GoRand, GobCodec (RaftVal Op), GobCodec KvVal} (nservers : Z).

(** C5. What the servers of the service do is an execution of [KvSystem], on Raft's
    condition: [service_step] lets a leader raise its commit index only to an entry of its
    own term that the peers it counts have confirmed, and a peer vote, in a term that has no
    leader yet, only for a candidate whose log it has found up to date, which the code does
    not ensure ([ack_step] of [RaftSafe]; C17 and C18 are executions without them), and
    nothing is compacted, as with [maxraftstate] -1. Then from a start of the service on a
    started cluster, the calls, replies, handlers and servers go through states that the
    system over one ideal log also goes through. The log the simulation builds is the
    commands in the order in which peers first collected them; what a peer has committed
    agrees with it, and what is on its way to the server is its next commands in order, from
    where the server is. *)
Theorem service_refines_log x0 x :
  0 < nservers → service_init nservers x0 → rtc (service_step nservers) x0 x →
  kv_init nservers (sv_sys x0) ∧ rtc (kv_step nservers) (sv_sys x0) (sv_sys x)
  ∧ ∀ i nd, nodes (sv_sys x) !! i = Some nd →
      peer_at (sv_raft x) (Z.of_nat i) = Some (n_rf nd) ∧ feed_ok (log_ops (sv_sys x)) nd (feed_of x i)
      ∧ ∀ k op op', peer_ops (n_rf nd) !! k = Some op → log_ops (sv_sys x) !! k = Some op' → op = op'.
Proof.
  intros Hn Hi Hs. destruct (service_steps nservers x0 x Hn (service_init_inv nservers x0 Hn Hi) Hs) as [Hr Hinv].
  split_and!; [apply Hi|done|]. intros i nd Hnd. destruct (so_nodes nservers x Hinv i nd Hnd).
  split_and!; [done..|]. by apply (peer_ops_log nservers x i nd Hn Hinv Hnd).
Qed.

(** C3. On the conditions of C5 (commits confirmed by a majority in the leader's term, votes
    for up-to-date candidates only, nothing compacted), and when no request is delivered
    after its clerk has gone on to its next call, the service on Raft is linearizable
    without an assumption on the log: the log of every peer, and that of the commands
    applied, have the calls of each client in their order, through elections, retries at
    other servers, crashes and restarts, so that every write takes effect once, and the
    calls that returned, with some of the writes still under way, have an order that
    respects real time and in which every read returns what the writes before it left. *)
Theorem timely_service_linearizable (x0 x : Service) :
  0 < nservers → service_init nservers x0 → rtc (timely_step nservers) x0 x →
  (∀ i nd, nodes (sv_sys x) !! i = Some nd → ordered (sv_sys x) (log (n_rf nd)))
  ∧ client_serial (log_ops (sv_sys x))
  ∧ ∃ late, NoDup late ∧ Forall (pending_write (sv_sys x)) late
      ∧ linearizable KvMapModel (history (sv_sys x) ++ omap (completed (sv_sys x)) late).
Proof.
  intros Hn Hi Hs. pose proof (timely_reachable_inv nservers x0 x Hn Hi Hs) as Htimely.
  pose proof (ordered_serial nservers x Htimely) as Hser.
  split; [intros i nd; by apply (peers_ordered nservers)|]. split; [done|].
  apply (serial_service_linearizable nservers x0); [done|done| |done].
  eapply rtc_subrel; [|exact Hs]. by intros ? ? [? _].
Qed.
End theorems.

Import ServiceDemo.

Lemma service_refines_log_witness :
  rtc (kv_step 3) sys0 (sv_sys x18) ∧ log_ops (sv_sys x18) = [request_op put 0] ∧ feed_of x18 1 = feed0.
Proof.
  split; [|split; vm_compute; reflexivity].
  destruct (service_refines_log 3 x0 x18 eq_refl x0_init (reach_steps _ reach_x18)) as (_ & Hr & _). exact Hr.
Defined.

(** The write, and the read that returns it. *)
Lemma timely_service_linearizable_witness :
  fst <$> returned (sv_sys x25) !! 1%nat = Some "1"%string
  ∧ ∃ late, NoDup late ∧ linearizable KvMapModel (history (sv_sys x25) ++ omap (completed (sv_sys x25)) late).
Proof.
  split; [exact x25_done|].
  destruct (timely_service_linearizable 3 x0 x25 eq_refl x0_init reach_x25) as (_ & _ & late & Hnd & _ & Hlin).
  exists late. exact (conj Hnd Hlin).
Defined.
