(* ===== verification/LabRpc.v ===== *)
(** * The simulated network ([labrpc/labrpc.go])

    The network of the tests: client ends are connected to named servers, a request is
    handed to its own goroutine, which may drop it, runs the handler in another goroutine,
    watches for the server's deletion meanwhile, and may drop or delay the reply.  The first
    part models the functions; the second runs the goroutines against each other. *)
From S2P Require Import Prelude.
From Stdlib Require Import Ascii.
#[local] Open Scope Z_scope.

(** ** Service and method names *)

(** [strings.LastIndex(s, ".")]. *)
Fixpoint LastIndexDot (s : string) : Z :=
  match s with
  | EmptyString => -1
  | String c s =>
      let r := LastIndexDot s in
      if 0 <=? r then r + 1 else if Ascii.eqb c "."%char then 0 else -1
  end.

Definition str_len (s : string) : Z := Z.of_nat (String.length s).

(** [s[:j]] and [s[i:]]. *)
Definition str_upto (s : string) (j : Z) : option string :=
  if (0 <=? j) && (j <=? str_len s) then Some (String.substring 0 (Z.to_nat j) s) else None.
Definition str_from (s : string) (i : Z) : option string :=
  if (0 <=? i) && (i <=? str_len s)
  then Some (String.substring (Z.to_nat i) (String.length s - Z.to_nat i) s) else None.

(** ** The network's data *)

Section network.
Context {Name : Type} `{Countable Name} {V : Type} `{GobCodec V} {W : Type}.

(** The types of the arguments and of the reply are those of the handler. *)
Record reqMsg := MkReqMsg {
  rq_endname : Name;
  rq_svcMeth : string;
  rq_args : list Byte.byte
}.

Record replyMsg := MkReplyMsg {
  rp_ok : bool;
  rp_reply : list Byte.byte
}.

(** What reflection says of a method, and the method itself: it takes the decoded
    arguments and yields the reply, changing the program's state [W]; it may panic. *)
Record Method := MkMethod {
  m_Name : string;
  m_PkgPath : string;
  m_NumIn : Z;
  m_In2_is_Ptr : bool;
  m_NumOut : Z;
  m_Func : V → W → option (W * V)
}.

Record Service := MkService {
  svc_name : string;
  svc_methods : gmap string Method
}.

Record Server := MkServer {
  services : gmap string Service;
  srv_count : Z
}.
#[global] Instance Server_eta : Eta Server := λ s, MkServer (services s) (srv_count s).

(** A [*Server] is an address; nil is [None].  The registered ends are a set: an end is its
    name and the network's two channels. *)
Record Network := MkNetwork {
  reliable : bool;
  longDelays : bool;
  longReordering : bool;
  ends : gset Name;
  enabled : gmap Name bool;
  servers : gmap Name (option nat);
  connections : gmap Name (option Name);
  done : bool;
  count : Z;
  bytes : Z
}.
#[global] Instance Network_eta : Eta Network :=
  λ n, MkNetwork (reliable n) (longDelays n) (longReordering n) (ends n) (enabled n) (servers n)
         (connections n) (done n) (count n) (bytes n).

(** The atomic counters wrap around. *)
Definition add_int32 (a b : Z) : Z := (a + b + 2 ^ 31) mod 2 ^ 32 - 2 ^ 31.
Definition add_int64 (a b : Z) : Z := (a + b + 2 ^ 63) mod 2 ^ 64 - 2 ^ 63.

Definition new_network : Network := MkNetwork true false false ∅ ∅ ∅ ∅ false 0 0.

(** The network's goroutine accepts a request. *)
Definition accept (args : list Byte.byte) (rn : Network) : Network :=
  rn <| count := add_int32 (count rn) 1 |> <| bytes := add_int64 (bytes rn) (len args) |>.

(** Closing a channel twice panics. *)
Definition Cleanup (rn : Network) : option Network :=
  if done rn then None else Some (rn <| done := true |>).

Definition Reliable (yes : bool) (rn : Network) : Network := rn <| reliable := yes |>.
Definition LongReordering (yes : bool) (rn : Network) : Network := rn <| longReordering := yes |>.
Definition LongDelays (yes : bool) (rn : Network) : Network := rn <| longDelays := yes |>.

Record EndInfo := MkEndInfo {
  ei_enabled : bool;
  ei_servername : option Name;
  ei_server : option nat;
  ei_reliable : bool;
  ei_longreordering : bool
}.

Definition readEndnameInfo (endname : Name) (rn : Network) : EndInfo :=
  let en := default false (enabled rn !! endname) in
  let servername := default None (connections rn !! endname) in
  let server := match servername with
                | Some sn => default None (servers rn !! sn)
                | None => None
                end in
  MkEndInfo en servername server (reliable rn) (longReordering rn).

Definition isServerDead (endname servername : Name) (server : nat) (rn : Network) : bool :=
  Bool.eqb (default false (enabled rn !! endname)) false
  || negb (bool_decide (default None (servers rn !! servername) = Some server)).

(** [None] is [log.Fatalf]. *)
Definition MakeEnd (endname : Name) (rn : Network) : option Network :=
  if decide (endname ∈ ends rn) then None else
  Some (rn <| ends := {[endname]} ∪ ends rn |> <| enabled := <[endname := false]> (enabled rn) |>
           <| connections := <[endname := None]> (connections rn) |>).

Definition AddServer (servername : Name) (rs : nat) (rn : Network) : Network :=
  rn <| servers := <[servername := Some rs]> (servers rn) |>.
Definition DeleteServer (servername : Name) (rn : Network) : Network :=
  rn <| servers := <[servername := None]> (servers rn) |>.
Definition Connect (endname servername : Name) (rn : Network) : Network :=
  rn <| connections := <[endname := Some servername]> (connections rn) |>.
Definition Enable (endname : Name) (en : bool) (rn : Network) : Network :=
  rn <| enabled := <[endname := en]> (enabled rn) |>.

Definition Server_GetCount (rs : Server) : Z := srv_count rs.

(** The method of a nil server panics. *)
Definition GetCount (servername : Name) (rn : Network) (store : gmap nat Server) : option Z :=
  p ← default None (servers rn !! servername);
  rs ← store !! p; Some (Server_GetCount rs).

Definition GetTotalCount (rn : Network) : Z := count rn.
Definition GetTotalBytes (rn : Network) : Z := bytes rn.

(** ** Servers and services *)

Definition new_server : Server := MkServer ∅ 0.

Definition AddService (svc : Service) (rs : Server) : Server :=
  rs <| services := <[svc_name svc := svc]> (services rs) |>.

(** What makes a method a handler. *)
Definition suitable (m : Method) : bool :=
  negb (negb (bool_decide (m_PkgPath m = ""%string)) || negb (m_NumIn m =? 3) || negb (m_In2_is_Ptr m)
        || negb (m_NumOut m =? 0)).

(** [name] and [methods] are what reflection finds of the receiver. *)
Definition new_service (name : string) (methods : list Method) : Service :=
  MkService name (foldl (λ ms m, if suitable m then <[m_Name m := m]> ms else ms) ∅ methods).

(** A failed decoding is ignored and leaves the zero value. *)
Definition Service_dispatch (zero : V) (methname : string) (req : reqMsg) (svc : Service) (w : W) :
    option (replyMsg * W) :=
  m ← svc_methods svc !! methname;
  let args := match gob_Decode (gob_NewDecoder (rq_args req)) with Some (v, _) => v | None => zero end in
  '(w, replyv) ← m_Func m args w;
  Some (MkReplyMsg true (gob_encode [replyv]), w).

Definition Server_dispatch (zero : V) (req : reqMsg) (rs : Server) (w : W) : option (replyMsg * Server * W) :=
  let rs := rs <| srv_count := srv_count rs + 1 |> in
  let dot := LastIndexDot (rq_svcMeth req) in
  serviceName ← str_upto (rq_svcMeth req) dot;
  methodName ← str_from (rq_svcMeth req) (dot + 1);
  service ← services rs !! serviceName;
  '(r, w) ← Service_dispatch zero methodName req service w;
  Some (r, rs, w).

(** ** The client's side of a call *)

Definition Call_request (endname : Name) (svcMeth : string) (args : V) : reqMsg :=
  MkReqMsg endname svcMeth (gob_encode [args]).

(** The result of [Call] and the decoded reply; [None] is [log.Fatalf]. *)
Definition Call_result (rep : replyMsg) : option (bool * option V) :=
  if rp_ok rep then
    '(v, _) ← gob_Decode (gob_NewDecoder (rp_reply rep)); Some (true, Some v)
  else Some (false, None).

(** ** One request's goroutines *)

(** [processReq]: before it has looked up the end; in its loop; out of the loop with what
    it received; with an answer to send, perhaps after a delay; done. *)
Inductive Phase :=
  | Reading
  | Waiting (servername : Name) (server : nat) (rel : bool)
  | Checking (servername : Name) (server : nat) (rel : bool) (reply : option replyMsg)
  | Delivering (m : replyMsg)
  | Answered (m : replyMsg).

(** The goroutine that runs the handler. *)
Inductive HandlerPhase :=
  | HIdle
  | HRunning (server : nat)
  | HSending (m : replyMsg)
  | HDone.

(** [r_runs] counts the executions of the handler; nothing reads it. *)
Record Request := MkRequest {
  r_msg : reqMsg;
  r_phase : Phase;
  r_handler : HandlerPhase;
  r_runs : nat
}.
#[global] Instance Request_eta : Eta Request := λ r, MkRequest (r_msg r) (r_phase r) (r_handler r) (r_runs r).

Record NetState := MkNetState {
  net : Network;
  store : gmap nat Server;
  requests : list Request;
  world : W
}.
#[global] Instance NetState_eta : Eta NetState := λ s, MkNetState (net s) (store s) (requests s) (world s).

Definition no_reply : replyMsg := MkReplyMsg false [].

(** From the look-up to the loop, or to the answer: [drop] is the random choice to drop the
    request, which only an unreliable network makes. *)
Definition process_read (drop : bool) (rn : Network) (r : Request) : Request :=
  let info := readEndnameInfo (rq_endname (r_msg r)) rn in
  match ei_enabled info, ei_servername info, ei_server info with
  | true, Some servername, Some server =>
      if negb (ei_reliable info) && drop then r <| r_phase := Delivering no_reply |>
      else r <| r_phase := Waiting servername server (ei_reliable info) |> <| r_handler := HRunning server |>
  | _, _, _ => r <| r_phase := Delivering no_reply |>
  end.

(** After the loop: [drop] is the choice to drop the reply. *)
Definition process_check (drop : bool) (rn : Network) (r : Request) (servername : Name) (server : nat)
    (rel : bool) (reply : option replyMsg) : Request :=
  let serverDead := isServerDead (rq_endname (r_msg r)) servername server rn in
  match reply with
  | Some reply =>
      if serverDead then r <| r_phase := Delivering no_reply |>
      else if negb rel && drop then r <| r_phase := Delivering no_reply |>
      else r <| r_phase := Delivering reply |>
  | None => r <| r_phase := Delivering no_reply |>
  end.

Definition set_request (i : nat) (r : Request) (s : NetState) : NetState :=
  s <| requests := <[i := r]> (requests s) |>.

(** What the tests do to the network. *)
Inductive admin_step (rn : Network) : Network → Prop :=
  | admin_Reliable yes : admin_step rn (Reliable yes rn)
  | admin_LongReordering yes : admin_step rn (LongReordering yes rn)
  | admin_LongDelays yes : admin_step rn (LongDelays yes rn)
  | admin_MakeEnd e rn' : MakeEnd e rn = Some rn' → admin_step rn rn'
  | admin_AddServer sn p : admin_step rn (AddServer sn p rn)
  | admin_DeleteServer sn : admin_step rn (DeleteServer sn rn)
  | admin_Connect e sn : admin_step rn (Connect e sn rn)
  | admin_Enable e b : admin_step rn (Enable e b rn)
  | admin_Cleanup rn' : Cleanup rn = Some rn' → admin_step rn rn'.

Variable zero : V.

(** A step of one goroutine. *)
Inductive net_step (s : NetState) : NetState → Prop :=
  | net_admin rn' : admin_step (net s) rn' → net_step s (s <| net := rn' |>)
  | net_server p rs : store s !! p = None → net_step s (s <| store := <[p := rs]> (store s) |>)
  | net_accept e svcMeth args :
      net_step s (s <| net := accept (rq_args (Call_request e svcMeth args)) (net s) |>
        <| requests := requests s ++ [MkRequest (Call_request e svcMeth args) Reading HIdle 0] |>)
  | net_read i r drop :
      requests s !! i = Some r → r_phase r = Reading →
      net_step s (set_request i (process_read drop (net s) r) s)
  | net_run i r server rs rs' m w' :
      requests s !! i = Some r → r_handler r = HRunning server → store s !! server = Some rs →
      Server_dispatch zero (r_msg r) rs (world s) = Some (m, rs', w') →
      net_step s (set_request i (r <| r_handler := HSending m |> <| r_runs := S (r_runs r) |>) s
        <| store := <[server := rs']> (store s) |> <| world := w' |>)
  | net_receive i r sn server rel m :
      requests s !! i = Some r → r_phase r = Waiting sn server rel → r_handler r = HSending m →
      net_step s (set_request i (r <| r_phase := Checking sn server rel (Some m) |> <| r_handler := HDone |>) s)
  | net_poll i r sn server rel :
      requests s !! i = Some r → r_phase r = Waiting sn server rel →
      isServerDead (rq_endname (r_msg r)) sn server (net s) = true →
      net_step s (set_request i (r <| r_phase := Checking sn server rel None |>) s)
  | net_drain i r m :
      requests s !! i = Some r → r_handler r = HSending m → (∀ sn server rel, r_phase r ≠ Waiting sn server rel) →
      net_step s (set_request i (r <| r_handler := HDone |>) s)
  | net_check i r sn server rel reply drop :
      requests s !! i = Some r → r_phase r = Checking sn server rel reply →
      net_step s (set_request i (process_check drop (net s) r sn server rel reply) s)
  | net_deliver i r m :
      requests s !! i = Some r → r_phase r = Delivering m →
      net_step s (set_request i (r <| r_phase := Answered m |>) s
        <| net := if rp_ok m then (net s) <| bytes := add_int64 (bytes (net s)) (len (rp_reply m)) |> else net s |>).

(** ** Names and marshalling *)

Fixpoint no_dot (s : string) : bool :=
  match s with
  | EmptyString => true
  | String c s => negb (Ascii.eqb c "."%char) && no_dot s
  end.

Lemma LastIndexDot_none m : no_dot m = true → LastIndexDot m = -1.
Proof.
  induction m as [|c m IH]; simpl; [done|]. intros [Hc Hm]%andb_true_iff. rewrite IH by done. simpl.
  by destruct (Ascii.eqb c ".").
Qed.

Lemma LastIndexDot_app svc m : no_dot m = true → LastIndexDot (svc +:+ "." +:+ m) = str_len svc.
Proof.
  intros Hm. unfold str_len. induction svc as [|c svc IH]; simpl.
  - by rewrite LastIndexDot_none.
  - simpl in IH. rewrite IH. destruct (Z.leb_spec 0 (Z.of_nat (String.length svc))); lia.
Qed.

Lemma substring_prefix (a b : string) : String.substring 0 (String.length a) (a +:+ b) = a.
Proof. induction a as [|c a IH]; simpl; [by destruct b|]. by rewrite IH. Qed.

Lemma substring_full (b : string) : String.substring 0 (String.length b) b = b.
Proof. induction b as [|c b IH]; simpl; [done|]. by rewrite IH. Qed.

Lemma substring_suffix (a b : string) n :
  String.substring (String.length a) n (a +:+ b) = String.substring 0 n b.
Proof. induction a as [|c a IH]; simpl; [done|]. apply IH. Qed.

Lemma length_append (a b : string) : String.length (a +:+ b) = (String.length a + String.length b)%nat.
Proof. induction a as [|c a IH]; simpl; [done|]. by rewrite IH. Qed.

(** [Server.dispatch] splits a name where the caller put the last dot. *)
Lemma split_svcMeth svc m :
  no_dot m = true →
  let s := svc +:+ "." +:+ m in
  str_upto s (LastIndexDot s) = Some svc ∧ str_from s (LastIndexDot s + 1) = Some m.
Proof.
  intros Hm s. subst s. rewrite LastIndexDot_app by done. unfold str_upto, str_from, str_len.
  rewrite !length_append. simpl.
  assert (∀ n : nat, Z.of_nat n + 1 = Z.of_nat (n + 1)) as Hs by lia. rewrite Hs, !Nat2Z.id.
  rewrite !(proj2 (Z.leb_le _ _)) by lia. simpl. split.
  - by rewrite substring_prefix.
  - f_equal. change (svc +:+ String "." m) with (svc +:+ ("." +:+ m)).
    assert (svc +:+ ("." +:+ m) = (svc +:+ ".") +:+ m) as ->.
    { clear. induction svc as [|c svc IH]; [done|].
      change (String c (svc +:+ "." +:+ m) = String c ((svc +:+ ".") +:+ m)). by rewrite IH. }
    assert (String.length svc + 1 = String.length (svc +:+ "."))%nat as -> by by rewrite length_append.
    rewrite substring_suffix, length_append. simpl.
    replace (String.length svc + S (String.length m) - (String.length svc + 1))%nat with (String.length m) by lia.
    apply substring_full.
Qed.

Lemma decode_one (v : V) : ∃ d, gob_Decode (gob_NewDecoder (gob_encode [v])) = Some (v, d).
Proof. destruct (gob_encode_reads [v]) as (d & Hd & _). by exists d. Qed.
(** ** What an answer means *)

Implicit Types (s : NetState) (r : Request).

(** The handler of request [i] ran on [server] with result [m] between [s0] and [s]. *)
Definition executed s0 s (i : nat) (msg : reqMsg) (server : nat) (m : replyMsg) : Prop :=
  ∃ s1 s2 r1 rs rs',
    rtc net_step s0 s1 ∧ net_step s1 s2 ∧ rtc net_step s2 s
    ∧ requests s1 !! i = Some r1 ∧ r_msg r1 = msg ∧ r_runs r1 = 0%nat
    ∧ store s1 !! server = Some rs
    ∧ Server_dispatch zero msg rs (world s1) = Some (m, rs', world s2).

(** Afterwards the server was still there, under its name, and the end enabled. *)
Definition executed_alive s0 s i msg m : Prop :=
  ∃ sn server s3, executed s0 s3 i msg server m
    ∧ isServerDead (rq_endname msg) sn server (net s3) = false ∧ rtc net_step s3 s.

Lemma executed_step s0 s s' i msg server m :
  executed s0 s i msg server m → net_step s s' → executed s0 s' i msg server m.
Proof.
  intros (s1 & s2 & r1 & rs & rs' & H1 & H2 & H3 & H4) Hs.
  exists s1, s2, r1, rs, rs'. split_and!; try apply H4; [done|done|]. by eapply rtc_r.
Qed.

Lemma executed_alive_step s0 s s' i msg m :
  executed_alive s0 s i msg m → net_step s s' → executed_alive s0 s' i msg m.
Proof. intros (sn & server & s3 & ? & ? & ?) Hs. exists sn, server, s3. split_and!; [done..|]. by eapply rtc_r. Qed.

Definition request_inv s0 s (i : nat) r : Prop :=
  r_runs r = match r_handler r with HIdle | HRunning _ => 0%nat | HSending _ | HDone => 1%nat end
  ∧ match r_phase r with
    | Reading => r_handler r = HIdle
    | Waiting sn server rel =>
        match r_handler r with
        | HRunning server' => server' = server
        | HSending m => executed s0 s i (r_msg r) server m
        | _ => False
        end
    | Checking sn server rel (Some m) => r_handler r = HDone ∧ executed s0 s i (r_msg r) server m
    | Checking _ _ _ None => True
    | Delivering m | Answered m =>
        rp_ok m = true → r_handler r = HDone ∧ executed_alive s0 s i (r_msg r) m
    end.

Lemma request_inv_step s0 s s' i r : request_inv s0 s i r → net_step s s' → request_inv s0 s' i r.
Proof.
  intros [Hr Hp] Hs. split; [done|]. destruct (r_phase r) as [| |sn server rel [m|]| |]; try done.
  - destruct (r_handler r); eauto using executed_step.
  - destruct Hp. eauto using executed_step.
  - intros Hok. destruct (Hp Hok). eauto using executed_alive_step.
  - intros Hok. destruct (Hp Hok). eauto using executed_alive_step.
Qed.

Lemma process_read_inv s0 s i drop rn r :
  request_inv s0 s i r → r_phase r = Reading → request_inv s0 s i (process_read drop rn r).
Proof.
  intros [Hr Hp] Hph. rewrite Hph in Hp. rewrite Hp in Hr. unfold process_read.
  destruct (ei_enabled _); [|by split; simpl; rewrite ?Hp].
  destruct (ei_servername _) as [sn|]; [|by split; simpl; rewrite ?Hp].
  destruct (ei_server _) as [p|]; [|by split; simpl; rewrite ?Hp].
  destruct (negb _ && _); by split; simpl; rewrite ?Hp.
Qed.

Lemma process_check_inv s0 s i drop r sn server rel reply :
  rtc net_step s0 s → request_inv s0 s i r → r_phase r = Checking sn server rel reply →
  request_inv s0 s i (process_check drop (net s) r sn server rel reply).
Proof.
  intros Hs0 [Hr Hp] Hph. rewrite Hph in Hp. unfold process_check. destruct reply as [m|]; [|by split].
  destruct Hp as [Hh Hex]. destruct (isServerDead _ _ _ _) eqn:Hd; [by split|].
  destruct (negb rel && drop); [by split|]. split; [done|]. simpl. intros _. split; [done|].
  exists sn, server, s. split_and!; [done|done|apply rtc_refl].
Qed.

Lemma net_inv s0 s :
  requests s0 = [] → rtc net_step s0 s → ∀ i r, requests s !! i = Some r → request_inv s0 s i r.
Proof.
  intros Hnil Hs. revert s Hs. apply (rtc_ind_r (λ s, ∀ i r, requests s !! i = Some r → request_inv s0 s i r)).
  { intros i r Hi. by rewrite Hnil in Hi. }
  intros s s' Hs Hstep IH i r Hi.
  assert (∀ j q q', requests s !! j = Some q → request_inv s0 s' j q' →
    <[j := q']> (requests s) !! i = Some r → request_inv s0 s' i r) as Hset.
  { intros j q q' Hj Hq' [(-> & <- & _)|[_ Hk]]%list_lookup_insert_Some; [done|].
    apply (request_inv_step s0 s); [by apply IH|exact Hstep]. }
  pose proof Hstep as Hstep'.
  inversion Hstep as [rn' Ha|p rs Hp|e meth args|j q drop Hj Hph|j q server rs rs' m w' Hj Hh Hst Hd|j q sn server rel m Hj Hph Hh
    |j q sn server rel Hj Hph Hdead|j q m Hj Hh Hn|j q sn server rel reply drop Hj Hph|j q m Hj Hph]; subst s'; simpl in Hi.
  - apply (request_inv_step s0 s); [by apply IH|exact Hstep'].
  - apply (request_inv_step s0 s); [by apply IH|exact Hstep'].
  - apply lookup_snoc_Some in Hi as [[_ Hi]|[_ <-]]; [|by split]. apply (request_inv_step s0 s); [by apply IH|exact Hstep'].
  - refine (Hset j q _ Hj _ Hi). apply (request_inv_step s0 s); [|exact Hstep']. apply process_read_inv; [by apply IH|done].
  - refine (Hset j q _ Hj _ Hi). destruct (IH j q Hj) as [Hr Hp]. rewrite Hh in Hr. split; simpl; [by rewrite Hr|].
    destruct (r_phase q) as [|sn server' rel|sn server' rel [m'|]|m'|m'] eqn:Hph.
    + congruence.
    + rewrite Hh in Hp. subst server'.
      exists s, (set_request j (q <| r_handler := HSending m |> <| r_runs := S (r_runs q) |>) s
                  <| store := <[server := rs']> (store s) |> <| world := w' |>), q, rs, rs'.
      split_and!; try done.
    + destruct Hp. congruence.
    + done.
    + intros Hok. destruct (Hp Hok). congruence.
    + intros Hok. destruct (Hp Hok). congruence.
  - refine (Hset j q _ Hj _ Hi). destruct (IH j q Hj) as [Hr Hp]. rewrite Hh in Hr. rewrite Hph, Hh in Hp.
    split; simpl; [done|]. split; [done|]. by eapply executed_step.
  - refine (Hset j q _ Hj _ Hi). destruct (IH j q Hj) as [Hr Hp]. by split.
  - refine (Hset j q _ Hj _ Hi). destruct (IH j q Hj) as [Hr Hp]. rewrite Hh in Hr. split; simpl; [done|].
    destruct (r_phase q) as [|sn server rel|sn server rel [m'|]|m'|m']; try (done || congruence).
    + by destruct (Hn sn server rel).
    + destruct Hp. congruence.
    + intros Hok. destruct (Hp Hok). congruence.
    + intros Hok. destruct (Hp Hok). congruence.
  - refine (Hset j q _ Hj _ Hi). apply (request_inv_step s0 s); [|exact Hstep']. by apply process_check_inv; [|apply IH|].
  - refine (Hset j q _ Hj _ Hi). destruct (IH j q Hj) as [Hr Hp]. rewrite Hph in Hp. split; simpl; [done|].
    intros Hok. destruct (Hp Hok). split; [done|]. by eapply executed_alive_step.
Qed.
(** How far a request is from its answer. *)
Definition phase_rank (p : Phase) : nat :=
  match p with Reading => 4 | Waiting _ _ _ => 3 | Checking _ _ _ _ => 2 | Delivering _ => 1 | Answered _ => 0 end.

(** ** Properties *)

(** A call carries its values: the server splits the name at the last dot, finds the
    service and the method, and hands the method the very arguments the client gave; the
    client gets back the very reply the method left, marked valid; the request is counted
    once. *)
Theorem call_roundtrip endname svc meth (args replyv : V) (m : Method) (service : Service) (rs : Server) (w w' : W) :
  no_dot meth = true → services rs !! svc = Some service → svc_methods service !! meth = Some m →
  m_Func m args w = Some (w', replyv) →
  ∃ rep, Server_dispatch zero (Call_request endname (svc +:+ "." +:+ meth) args) rs w
           = Some (rep, rs <| srv_count := srv_count rs + 1 |>, w')
    ∧ Call_result rep = Some (true, Some replyv).
Proof.
  intros Hd Hs Hm Hf. destruct (split_svcMeth svc meth Hd) as [Hu Hfr].
  destruct (decode_one args) as [d Ha], (decode_one replyv) as [d' Hr].
  exists (MkReplyMsg true (gob_encode [replyv])). split.
  - unfold Server_dispatch, Call_request. cbn [rq_svcMeth]. rewrite Hu, Hfr. cbn [mbind option_bind services].
    change (services (rs <| srv_count := srv_count rs + 1 |>)) with (services rs). rewrite Hs. simpl.
    unfold Service_dispatch. simpl. rewrite Hm. simpl. rewrite Ha, Hf. done.
  - unfold Call_result. simpl. rewrite Hr. done.
Qed.

(** C34. What an answer means, for every interleaving of calls, handlers and changes to the
    network: a handler never runs twice for one request; an answer with [ok] true is the
    reply of the one run there was, and after that run the server was still registered
    under its name and the end enabled, so a client never believes what a server did after
    its deletion.  An answer with [ok] false says nothing: the handler may have run or
    not. *)
Theorem answer_means_executed s0 s i r m :
  requests s0 = [] → rtc net_step s0 s → requests s !! i = Some r → r_phase r = Answered m →
  (r_runs r ≤ 1)%nat
  ∧ (rp_ok m = true → r_runs r = 1%nat ∧ executed_alive s0 s i (r_msg r) m).
Proof.
  intros Hnil Hs Hi Hp. destruct (net_inv s0 s Hnil Hs i r Hi) as [Hr Hph]. rewrite Hp in Hph. split.
  - rewrite Hr. destruct (r_handler r); lia.
  - intros Hok. destruct (Hph Hok) as [Hh Hex]. by rewrite Hr, Hh.
Qed.

(** C35. Calls return unless the handler does not: a request without an answer can take a
    step towards one, whatever happened before, or its handler has not returned and its
    server is neither deleted nor replaced nor its end disabled. *)
Theorem request_progress s0 s i r :
  requests s0 = [] → rtc net_step s0 s → requests s !! i = Some r →
  (∃ m, r_phase r = Answered m)
  ∨ (∃ s' r', net_step s s' ∧ requests s' !! i = Some r' ∧ (phase_rank (r_phase r') < phase_rank (r_phase r))%nat)
  ∨ (∃ sn server rel, r_phase r = Waiting sn server rel ∧ r_handler r = HRunning server
       ∧ isServerDead (rq_endname (r_msg r)) sn server (net s) = false).
Proof.
  intros Hnil Hs Hi. destruct (net_inv s0 s Hnil Hs i r Hi) as [Hr Hph].
  assert (∀ r', requests (set_request i r' s) !! i = Some r') as Hset.
  { intros r'. apply list_lookup_insert_eq. by eapply lookup_lt_Some. }
  destruct (r_phase r) as [|sn server rel|sn server rel reply|m|m] eqn:Hp.
  - right. left. eexists _, _. split_and!; [by apply (net_read _ i r false)|apply Hset|].
    unfold process_read. destruct (readEndnameInfo (rq_endname (r_msg r)) (net s)) as [[] [sn|] [p|] [] lr]; simpl; lia.
  - destruct (r_handler r) as [|server'|m|] eqn:Hh; [done| |right; left|done].
    + subst server'. destruct (isServerDead (rq_endname (r_msg r)) sn server (net s)) eqn:Hd.
      * right. left. eexists _, _. split_and!; [by eapply net_poll|apply Hset|]. simpl. lia.
      * right. right. exists sn, server, rel. done.
    + eexists _, _. split_and!; [by eapply net_receive|apply Hset|]. simpl. lia.
  - right. left. eexists _, _. split_and!; [by apply (net_check _ i r sn server rel reply false)|apply Hset|].
    unfold process_check. destruct reply; simpl; [|lia]. destruct (isServerDead _ _ _ _); simpl; [lia|].
    destruct (negb rel && false); simpl; lia.
  - right. left. eexists _, (r <| r_phase := Answered m |>).
    split_and!; [by eapply net_deliver|apply Hset|]. simpl. lia.
  - left. by exists m.
Qed.
End network.

(** ** Witness: a counter behind the network *)
Module RpcDemo.
Import CountableCodec.

Definition add : Method (V := Z) (W := Z) := MkMethod "Add" "" 3 true 0 (λ args w, Some (w + args, w + args)).
Definition counter : Service (V := Z) (W := Z) := new_service "Counter" [add].
Definition rs0 : Server (V := Z) (W := Z) := AddService counter new_server.
Definition rn0 : Network (Name := Z) :=
  default new_network (rn ← MakeEnd 1 new_network; Some (Enable 1 true (Connect 1 10 (AddServer 10 0 rn)))).

Definition s0 : NetState (Name := Z) (V := Z) (W := Z) := MkNetState rn0 {[0%nat := rs0]} [] 5.
Definition msg : reqMsg (Name := Z) := Call_request 1 "Counter.Add" 2.
Definition rep : replyMsg := MkReplyMsg true (gob_encode [7]).
Definition rq (p : Phase) (h : HandlerPhase) (runs : nat) : Request (Name := Z) := MkRequest msg p h runs.

Definition s1 := MkNetState (accept (rq_args msg) rn0) {[0%nat := rs0]} [rq Reading HIdle 0] 5.
Definition s2 := set_request 0 (rq (Waiting 10 0 true) (HRunning 0) 0) s1.
Definition rs1 := rs0 <| srv_count := 1 |>.
Definition s3 := set_request 0 (rq (Waiting 10 0 true) (HSending rep) 1) s2 <| store := {[0%nat := rs1]} |> <| world := 7 |>.
Definition s4 := set_request 0 (rq (Checking 10 0 true (Some rep)) HDone 1) s3.
Definition s5 := set_request 0 (rq (Delivering rep) HDone 1) s4.
Definition s6 := set_request 0 (rq (Answered rep) HDone 1) s5
  <| net := (net s5) <| bytes := add_int64 (bytes (net s5)) (len (rp_reply rep)) |> |>.

Lemma s3_steps : rtc (net_step 0) s0 s3.
Proof.
  apply (rtc_l _ _ s1); [apply (net_accept 0 s0 1 "Counter.Add"%string 2)|].
  apply (rtc_l _ _ s2); [exact (net_read 0 s1 0 (rq Reading HIdle 0) false eq_refl eq_refl)|].
  apply rtc_once. refine (net_run 0 s2 0 (rq (Waiting 10 0 true) (HRunning 0) 0) 0 rs0 rs1 rep 7 eq_refl eq_refl eq_refl _).
  vm_compute. reflexivity.
Qed.

Lemma s6_steps : rtc (net_step 0) s0 s6.
Proof.
  etrans; [exact s3_steps|].
  apply (rtc_l _ _ s4); [exact (net_receive 0 s3 0 (rq (Waiting 10 0 true) (HSending rep) 1) 10 0 true rep eq_refl eq_refl eq_refl)|].
  apply (rtc_l _ _ s5); [exact (net_check 0 s4 0 (rq (Checking 10 0 true (Some rep)) HDone 1) 10 0 true (Some rep) false eq_refl eq_refl)|].
  apply rtc_once. exact (net_deliver 0 s5 0 (rq (Delivering rep) HDone 1) rep eq_refl eq_refl).
Qed.
End RpcDemo.

Import CountableCodec.

Lemma call_roundtrip_witness :
  ∃ rep, Server_dispatch 0 (Call_request 1 ("Counter" +:+ "." +:+ "Add") 2) RpcDemo.rs0 5
           = Some (rep, RpcDemo.rs0 <| srv_count := srv_count RpcDemo.rs0 + 1 |>, 7)
    ∧ Call_result rep = Some (true, Some 7).
Proof.
  apply (call_roundtrip 0 1 "Counter" "Add" 2 7 RpcDemo.add RpcDemo.counter RpcDemo.rs0 5 7); vm_compute; reflexivity.
Defined.

Lemma answer_means_executed_witness :
  executed_alive 0 RpcDemo.s0 RpcDemo.s6 0 RpcDemo.msg RpcDemo.rep ∧ world RpcDemo.s6 = 7.
Proof.
  split; [|reflexivity].
  apply (answer_means_executed 0 RpcDemo.s0 RpcDemo.s6 0 (RpcDemo.rq (Answered RpcDemo.rep) HDone 1) RpcDemo.rep
    eq_refl RpcDemo.s6_steps eq_refl eq_refl). reflexivity.
Defined.

Lemma request_progress_witness :
  ∃ s' r', net_step 0 RpcDemo.s3 s' ∧ requests s' !! 0%nat = Some r' ∧ (phase_rank (r_phase r') < 3)%nat.
Proof.
  destruct (request_progress 0 RpcDemo.s0 RpcDemo.s3 0 (RpcDemo.rq (Waiting 10 0 true) (HSending RpcDemo.rep) 1)
    eq_refl RpcDemo.s3_steps eq_refl) as [[m Hm]|[Hs|(sn & srv & rel & _ & Hh & _)]]; [discriminate|exact Hs|discriminate].
Defined.
