(* ===== verification/LabGob.v ===== *)
(** * The gob wrapper ([labgob/labgob.go])

    Before a value is encoded or decoded, its type is searched for fields that gob would
    silently leave out, and the place it is decoded into for values that gob would leave
    in.  What reflection sees of the types is a parameter of the functions; the warnings
    themselves are printed and not modelled, the count of errors is. *)
From S2P Require Import Prelude MrWorker.
#[local] Open Scope Z_scope.

(** [unicode.IsUpper]. *)
Class UnicodeUpper := { IsUpper : Z → bool }.

(** A [reflect.Type] is its identity; what it is made of, by kind. *)
Inductive Kind :=
  | KStruct (t_fields : list (string * nat))
  | KElem (elem : nat)
  | KMap (key elem : nat)
  | KOther.

(** The package's variables. *)
Record LabGob := MkLabGob { checked : gset nat; errorCount : Z }.
#[export] Instance LabGob_eta : Eta LabGob := λ g, MkLabGob (checked g) (errorCount g).

(** What a value looks like to [checkDefault1]: a basic value is its zero value or not. *)
Inductive GoValue :=
  | VStruct (v_fields : list (string * GoValue))
  | VNilPtr
  | VPtr (elem : GoValue)
  | VBasic (is_zero : bool)
  | VOther.

Section labgob.
Context `{UnicodeUpper} (types : gmap nat Kind).
Implicit Types (g : LabGob) (t : nat) (C : gset nat).

(** [unicode.IsUpper] of the first rune of a field's name. *)
Definition capitalized (name : string) : bool := IsUpper (DecodeRune (bytes_of name)).1.

Fixpoint checkType (fuel : nat) (t : nat) (g : LabGob) : option LabGob :=
  match fuel with
  | O => None
  | S fuel =>
      if decide (t ∈ checked g) then Some g else
      let g := g <| checked := {[t]} ∪ checked g |> in
      k ← types !! t;
      match k with
      | KStruct fs =>
          foldl (λ acc f,
            g ← acc;
            checkType fuel f.2 (if capitalized f.1 then g else g <| errorCount := errorCount g + 1 |>))
            (Some g) fs
      | KElem e => checkType fuel e g
      | KMap key e => g ← checkType fuel e g; checkType fuel key g
      | KOther => Some g
      end
  end.

Fixpoint checkDefault1 (value : GoValue) (depth : Z) (g : LabGob) : LabGob :=
  if depth >? 3 then g else
  match value with
  | VStruct fs => foldl (λ g f, checkDefault1 f.2 (depth + 1) g) g fs
  | VNilPtr => g
  | VPtr v => checkDefault1 v (depth + 1) g
  | VBasic is_zero => if negb is_zero then g <| errorCount := errorCount g + 1 |> else g
  | VOther => g
  end.

(** A nil value has nothing to check. *)
Definition checkDefault (value : option GoValue) (g : LabGob) : LabGob :=
  match value with Some v => checkDefault1 v 1 g | None => g end.

(** A decoder's and an encoder's state are those of gob; [t] is the type of the value. *)
Definition Encode {X} (fuel : nat) (t : nat) (v : X) (buf : list X) (g : LabGob) : option (list X * LabGob) :=
  g ← checkType fuel t g; Some (buf ++ [v], g).

Definition Decode {X} `{GobCodec X} (fuel : nat) (t : nat) (into : option GoValue) (d : gob_decoder) (g : LabGob) :
    option (option (X * gob_decoder) * LabGob) :=
  g ← checkType fuel t g;
  let g := checkDefault into g in
  Some (gob_Decode d, g).

Definition Register (fuel : nat) (t : nat) (g : LabGob) : option LabGob := checkType fuel t g.

(** ** What decoding into a value counts *)

Fixpoint all_zero (v : GoValue) : bool :=
  match v with
  | VStruct fs => forallb (λ f, all_zero f.2) fs
  | VPtr v => all_zero v
  | VBasic is_zero => is_zero
  | VNilPtr | VOther => true
  end.

(** Decoding into a fresh value is never complained about. *)
Lemma checkDefault_fresh v g : all_zero v = true → checkDefault (Some v) g = g.
Proof.
  simpl. generalize 1. revert v g. fix IH 1. intros v g d Hz. destruct v as [fs| |v|b|]; simpl in *; destruct (d >? 3); try done.
  - revert g. induction fs as [|[n v] fs IHfs]; intros g; simpl; [done|]. simpl in Hz. apply andb_true_iff in Hz as [Hv Hfs].
    rewrite (IH v g (d + 1) Hv). by apply IHfs.
  - by apply IH.
  - by rewrite Hz.
Qed.

(** ** What a type is made of *)

Definition parts (k : Kind) : list nat :=
  match k with
  | KStruct fs => fs.*2
  | KElem e => [e]
  | KMap key e => [e; key]
  | KOther => []
  end.

Definition part_of t u : Prop := ∃ k, types !! t = Some k ∧ u ∈ parts k.

Definition hidden_fields t : Z :=
  match types !! t with
  | Some (KStruct fs) => len (filter (λ f, capitalized f.1 = false) fs)
  | _ => 0
  end.

Definition sum_hidden C : Z := foldr Z.add 0 (hidden_fields <$> elements C).

(** All types of the program are known. *)
Definition closed_types : Prop := ∀ t u, part_of t u → u ∈ dom types.

Lemma sum_hidden_union C D : C ## D → sum_hidden (C ∪ D) = sum_hidden C + sum_hidden D.
Proof.
  intros Hd. unfold sum_hidden.
  assert (∀ l l' : list Z, l ≡ₚ l' → foldr Z.add 0 l = foldr Z.add 0 l') as Hp.
  { intros l l' Hl. induction Hl; simpl; lia. }
  rewrite (Hp _ (hidden_fields <$> (elements C ++ elements D))) by by rewrite elements_disj_union.
  rewrite fmap_app. induction (hidden_fields <$> elements C) as [|x l IH]; simpl; [done|]. rewrite IH. lia.
Qed.

Lemma sum_hidden_empty : sum_hidden ∅ = 0.
Proof. unfold sum_hidden. by rewrite elements_empty. Qed.

Lemma sum_hidden_single t : sum_hidden {[t]} = hidden_fields t.
Proof. unfold sum_hidden. rewrite elements_singleton. simpl. lia. Qed.

(** The parts of a type in the order they are checked, with whether the field is fine. *)
Definition check_parts (fuel : nat) (ps : list (bool * nat)) (g : LabGob) : option LabGob :=
  foldl (λ acc p, g ← acc; checkType fuel p.2 (if (p.1 : bool) then g else g <| errorCount := errorCount g + 1 |>)) (Some g) ps.

Definition flagged (k : Kind) : list (bool * nat) :=
  match k with
  | KStruct fs => (λ f, (capitalized f.1, f.2)) <$> fs
  | KElem e => [(true, e)]
  | KMap key e => [(true, e); (true, key)]
  | KOther => []
  end.

Lemma checkType_unfold fuel t g :
  checkType (S fuel) t g =
    if decide (t ∈ checked g) then Some g else
    k ← types !! t; check_parts fuel (flagged k) (g <| checked := {[t]} ∪ checked g |>).
Proof.
  simpl. destruct (decide (t ∈ checked g)); [done|]. destruct (types !! t) as [[fs|e|key e|]|]; simpl; try done.
  unfold check_parts. generalize (Some (g <| checked := {[t]} ∪ checked g |>)).
  induction fs as [|f fs IH]; intros acc; simpl; [done|]. apply IH.
Qed.

Definition count_false (ps : list (bool * nat)) : Z := len (filter (λ p, p.1 = false) ps).

(** What checking adds to the variables, [root] being what is checked. *)
Record checked_more (root : nat → Prop) (hidden : Z) g g' : Prop := {
  cm_sub : checked g ⊆ checked g';
  cm_root : ∀ t, root t → t ∈ checked g';
  cm_known : ∀ u, u ∈ checked g' → u ∉ checked g → u ∈ dom types;
  cm_closed : ∀ u v, u ∈ checked g' → u ∉ checked g → part_of u v → v ∈ checked g';
  cm_reached : ∀ u, u ∈ checked g' → u ∉ checked g → ∃ t, root t ∧ rtc (part_of) t u;
  cm_errors : errorCount g' = errorCount g + hidden + sum_hidden (checked g' ∖ checked g)
}.

Lemma checked_more_trans root1 root2 root h1 h2 g g1 g' :
  checked_more root1 h1 g g1 → checked_more root2 h2 g1 g' → (∀ t, root t ↔ root1 t ∨ root2 t) →
  checked_more root (h1 + h2) g g'.
Proof.
  intros [S1 R1 K1 C1 T1 E1] [S2 R2 K2 C2 T2 E2] Hroot. split.
  - by etrans.
  - intros t [Ht|Ht]%Hroot; auto.
  - intros u Hu Hn. destruct (decide (u ∈ checked g1)); auto.
  - intros u v Hu Hn Hp. destruct (decide (u ∈ checked g1)); eauto.
  - intros u Hu Hn. destruct (decide (u ∈ checked g1)) as [Hu1|Hu1].
    + destruct (T1 u Hu1 Hn) as (t & Ht & Hr). exists t. split; [apply Hroot; by left|done].
    + destruct (T2 u Hu Hu1) as (t & Ht & Hr). exists t. split; [apply Hroot; by right|done].
  - replace (checked g' ∖ checked g) with ((checked g1 ∖ checked g) ∪ (checked g' ∖ checked g1)).
    + rewrite sum_hidden_union by set_solver. lia.
    + apply set_eq. intros u. destruct (decide (u ∈ checked g1)); set_solver.
Qed.

Lemma check_parts_cons fuel p ps g :
  check_parts fuel (p :: ps) g =
    (g1 ← checkType fuel p.2 (if (p.1 : bool) then g else g <| errorCount := errorCount g + 1 |>); check_parts fuel ps g1).
Proof.
  unfold check_parts. simpl. destruct (checkType fuel p.2 _) as [g1|]; simpl; [done|].
  induction ps as [|q ps IH]; simpl; [done|]. done.
Qed.

Lemma check_parts_spec fuel ps g :
  (∀ t g, t ∈ dom types → (size (dom types ∖ checked g) < fuel)%nat →
     ∃ g', checkType fuel t g = Some g' ∧ checked_more (λ u, u = t) 0 g g') →
  (∀ p, p ∈ ps → p.2 ∈ dom types) → (size (dom types ∖ checked g) < fuel)%nat →
  ∃ g', check_parts fuel ps g = Some g' ∧ checked_more (λ t, t ∈ ps.*2) (count_false ps) g g'.
Proof.
  intros Hone. revert g. induction ps as [|[b t] ps IH]; intros g Hk Hf.
  { exists g. split; [done|]. split; try set_solver. rewrite difference_diag_L, sum_hidden_empty. unfold count_false. simpl. lia. }
  rewrite check_parts_cons. simpl.
  set (g0 := if b then g else g <| errorCount := errorCount g + 1 |>).
  assert (checked g0 = checked g) as Hg0 by by destruct b.
  destruct (Hone t g0) as (g1 & -> & H1); [by apply (Hk (b, t)); left|by rewrite Hg0|]. simpl.
  destruct (IH g1) as (g' & -> & H2); [intros p Hp; apply Hk; by right| |].
  { eapply Nat.le_lt_trans; [|exact Hf]. apply subseteq_size. pose proof (cm_sub _ _ _ _ H1). set_solver. }
  exists g'. split; [done|].
  replace (count_false ((b, t) :: ps)) with ((if b then 0 else 1) + count_false ps)
    by (unfold count_false; rewrite filter_cons; destruct b; simpl; lia).
  apply (checked_more_trans (λ u, u = t) (λ u, u ∈ ps.*2) _ _ _ g g1); [|done|intros u; simpl; by rewrite elem_of_cons].
  destruct H1 as [S1 R1 K1 C1 T1 E1]. rewrite Hg0 in *. split; try done.
  rewrite E1. subst g0. destruct b; simpl; lia.
Qed.

Lemma flagged_parts k : (flagged k).*2 = parts k.
Proof. destruct k as [fs| | |]; simpl; [|done..]. rewrite <-list_fmap_compose. by apply list_fmap_ext. Qed.

Lemma flagged_hidden t k : types !! t = Some k → count_false (flagged k) = hidden_fields t.
Proof.
  intros Ht. unfold hidden_fields. rewrite Ht. destruct k as [fs| | |]; try done. unfold count_false. simpl.
  f_equal. clear Ht. induction fs as [|f fs IH]; [done|]. rewrite fmap_cons, !filter_cons. cbn [fst snd].
  repeat case_decide; try done; cbn [length]; by rewrite IH.
Qed.

(** The search of the types, from any state of the package's variables. *)
Lemma checkType_spec fuel t g :
  closed_types → t ∈ dom types → (size (dom types ∖ checked g) < fuel)%nat →
  ∃ g', checkType fuel t g = Some g' ∧ checked_more (λ u, u = t) 0 g g'.
Proof.
  intros Hcl. revert t g. induction fuel as [|fuel IH]; intros t g Ht Hf; [lia|]. rewrite checkType_unfold.
  case_decide as Hin.
  { exists g. split; [done|]. split; try set_solver. rewrite difference_diag_L, sum_hidden_empty. lia. }
  pose proof Ht as [k Hk]%elem_of_dom. rewrite Hk. simpl.
  set (g0 := g <| checked := {[t]} ∪ checked g |>).
  assert (∀ u, u ∈ parts k → part_of t u) as Hparts by (intros u Hu; by exists k).
  destruct (check_parts_spec fuel (flagged k) g0) as (g' & -> & [S1 R1 K1 C1 T1 E1]); [exact IH| | |].
  { intros p Hp. apply (Hcl t), Hparts. rewrite <-flagged_parts. by apply list_elem_of_fmap_2. }
  { assert (size (dom types ∖ checked g0) < size (dom types ∖ checked g))%nat; [|lia].
    apply subset_size. subst g0. simpl. set_solver. }
  rewrite flagged_parts in R1, T1. exists g'. split; [done|]. assert (t ∈ checked g') as Htg by (apply S1; subst g0; simpl; apply elem_of_union_l, elem_of_singleton; done).
  assert (∀ u, u ∈ checked g0 ↔ u = t ∨ u ∈ checked g) as Hg0.
  { intros u. subst g0. simpl. by rewrite elem_of_union, elem_of_singleton. }
  assert (∀ u, u ∈ checked g' → u ∉ checked g → u = t ∨ u ∉ checked g0) as Hsplit.
  { intros u _ Hn. rewrite Hg0. destruct (decide (u = t)); tauto. }
  split.
  - intros u Hu. apply S1, Hg0. by right.
  - by intros u ->.
  - intros u Hu [->|Hn]%Hsplit; auto.
  - intros u v Hu Hn Hp. destruct (Hsplit u Hu Hn) as [->|Hn']; [|by eapply C1].
    destruct Hp as (k' & Hk' & Hv). apply R1. congruence.
  - intros u Hu Hn. destruct (Hsplit u Hu Hn) as [->|Hn']; [by exists t|]. destruct (T1 u Hu Hn') as (p & Hp & Hr).
    exists t. split; [done|]. econstructor; [by apply Hparts|done].
  - rewrite E1, (flagged_hidden t k Hk).
    replace (checked g' ∖ checked g) with ({[t]} ∪ (checked g' ∖ checked g0)).
    + rewrite sum_hidden_union, sum_hidden_single; [subst g0; simpl; lia|].
      intros u ->%elem_of_singleton [_ Hu]%elem_of_difference. apply Hu, Hg0. by left.
    + apply set_eq. intros u. rewrite elem_of_union, elem_of_singleton, !elem_of_difference, Hg0.
      destruct (decide (u = t)) as [->|]; tauto.
Qed.

(** The types reachable from [t]. *)
Definition reaches t u : Prop := rtc part_of t u.

(** Types checked by complete calls are closed under parts. *)
Definition complete g : Prop := ∀ u v, u ∈ checked g → part_of u v → v ∈ checked g.

Lemma complete_reaches g t u : complete g → t ∈ checked g → reaches t u → u ∈ checked g.
Proof. intros Hc Ht Hr. induction Hr; eauto. Qed.

(** C36. Checking a type ends, also for types that refer to themselves or to each other, and
    is thorough: between calls, when no type is half checked, it adds exactly the types
    reachable through fields, elements and keys, and counts each lower-case field of each
    struct type among the new ones once; a type is never complained about again. *)
Theorem checkType_complains_once fuel t g :
  closed_types → t ∈ dom types → complete g → (size (dom types) < fuel)%nat →
  ∃ g', checkType fuel t g = Some g' ∧ complete g'
    ∧ (∀ u, u ∈ checked g' ↔ u ∈ checked g ∨ reaches t u)
    ∧ errorCount g' = errorCount g + sum_hidden (checked g' ∖ checked g)
    ∧ checkType fuel t g' = Some g'.
Proof.
  intros Hcl Ht Hc Hf.
  destruct (checkType_spec fuel t g Hcl Ht) as (g' & Hr & [S1 R1 K1 C1 T1 E1]).
  { eapply Nat.le_lt_trans; [|exact Hf]. apply subseteq_size. set_solver. }
  assert (complete g') as Hc'.
  { intros u v Hu Hp. destruct (decide (u ∈ checked g)) as [Hug|Hug]; [apply S1; by eapply Hc|by eapply C1]. }
  exists g'. split_and!; [done|done| |lia|].
  - intros u. split.
    + intros Hu. destruct (decide (u ∈ checked g)) as [|Hn]; [by left|right]. by destruct (T1 u Hu Hn) as (p & -> & Hp).
    + intros [Hu|Hu]; [by apply S1|]. eapply complete_reaches; [done|by apply R1|done].
  - destruct fuel; [lia|]. rewrite checkType_unfold. by rewrite decide_True by by apply R1.
Qed.
End labgob.

(** A tree type of a capitalized value, a lower-case link to itself and a map. *)
Definition ascii_upper : UnicodeUpper := {| IsUpper := λ r, (65 <=? r) && (r <=? 90) |}.

Definition tree_types : gmap nat Kind :=
  {[ 0%nat := KStruct [("Val", 1%nat); ("next", 2%nat); ("M", 3%nat)]; 1%nat := KOther; 2%nat := KElem 0%nat; 3%nat := KMap 1%nat 2%nat ]}.

Lemma tree_types_closed : closed_types tree_types.
Proof.
  intros t u (k & Hk & Hu). revert Hk. unfold tree_types. rewrite !lookup_insert_Some, lookup_singleton_Some.
  intros [[<- <-]|[_ [[<- <-]|[_ [[<- <-]|[_ [<- <-]]]]]]]; simpl in Hu; set_unfold; naive_solver.
Qed.

Lemma checkType_complains_once_witness :
  checkType (H := ascii_upper) tree_types 5 0 (MkLabGob ∅ 0) = Some (MkLabGob {[0%nat; 1%nat; 2%nat; 3%nat]} 1)
  ∧ ∃ g', checkType (H := ascii_upper) tree_types 5 0 (MkLabGob ∅ 0) = Some g' ∧ checked g' = {[0%nat; 1%nat; 2%nat; 3%nat]}
      ∧ reaches tree_types 0 1 ∧ checkType (H := ascii_upper) tree_types 5 0 g' = Some g'.
Proof.
  split; [vm_compute; reflexivity|].
  destruct (checkType_complains_once (H := ascii_upper) tree_types 5 0 (MkLabGob ∅ 0)) as (g' & Hg & _ & Hs & _ & Ha).
  - exact tree_types_closed.
  - vm_compute. eauto.
  - intros u v Hu. by apply not_elem_of_empty in Hu.
  - vm_compute. lia.
  - assert (Some g' = Some (MkLabGob {[0%nat; 1%nat; 2%nat; 3%nat]} 1)) as [= ->] by (rewrite <-Hg; vm_compute; reflexivity).
    eexists. split_and!; [exact Hg|reflexivity| |exact Ha].
    destruct (proj1 (Hs 1%nat)) as [Hu|Hu]; [|by apply not_elem_of_empty in Hu|exact Hu].
    apply (bool_decide_unpack _). vm_compute. exact I.
Defined.
