(* ===== verification/HarnessNet.v ===== *)
(** * Test harnesses: ends and servers of the simulated network

    What the four [config.go] have in common: fresh client ends with random names,
    connected to named servers, and loops that enable or disable the ends between servers;
    and the effect of each on the tables of the network of [LabRpc]. *)
From S2P Require Import Prelude LabRpc.
From Stdlib Require Import Permutation.

(** The names of ends are strings, those of servers integers or strings. *)
Inductive IName := NStr (s : string) | NInt (i : Z).

#[export] Instance IName_eq_dec : EqDecision IName.
Proof. solve_decision. Defined.
#[export] Program Instance IName_countable : Countable IName :=
  inj_countable' (λ n, match n with NStr s => inl s | NInt i => inr i end)
    (λ n, match n with inl s => NStr s | inr i => NInt i end) _.
Next Obligation. by intros []. Qed.

Abbreviation Net := (@Network IName IName_eq_dec IName_countable) (only parsing).
Implicit Types (net : @Network IName IName_eq_dec IName_countable) (name : string).

(** A row of end names, nil until the server is first started: indexing nil panics. *)
Abbreviation Row := (option (list string)) (only parsing).

Definition row_name (endnames : list Row) (i j : Z) : option string :=
  row ← endnames.[i]; (default [] row).[j].

(** A loop over the servers [js] that sets the flag of the end chosen for each, or of none. *)
Definition enable_each (choose : Z → option (option string)) (b : bool) (js : list Z) net : option Net :=
  foldM (λ net j, o ← choose j; Some (match o with Some name => Enable (NStr name) b net | None => net end)) net js.

(** Fresh ends: [names] are the random strings; [server j] is who the [j]-th end leads to. *)
Definition make_ends (server : Z → IName) (enable : bool) (names : list string) net : option Net :=
  foldM (λ net p, let '(j, name) := (p : nat * string) in
    net ← MakeEnd (NStr name) net;
    let net := Connect (NStr name) (server (Z.of_nat j)) net in
    Some (if enable then Enable (NStr name) true net else net)) net (imap pair names).

(** [n] draws of [randstring(20)]. *)
Definition draw_row (draw : nat → string) (n : Z) : list string := draw <$> seq 0 (Z.to_nat n).

(** ** What the loops do *)

(** The tables other than the flags are the same. *)
Record same_but_enabled net net' : Prop := {
  sb_reliable : reliable net' = reliable net ∧ longDelays net' = longDelays net ∧ longReordering net' = longReordering net;
  sb_ends : ends net' = ends net;
  sb_servers : servers net' = servers net;
  sb_connections : connections net' = connections net;
  sb_rest : done net' = done net ∧ count net' = count net ∧ bytes net' = bytes net
}.

#[export] Instance same_but_enabled_preorder : PreOrder same_but_enabled.
Proof. split; [by intros n|]. intros n1 n2 n3 [(?&?&?) ? ? ? (?&?&?)] [(?&?&?) ? ? ? (?&?&?)]. split; split_and?; congruence. Qed.

Lemma Enable_same e b net : same_but_enabled net (Enable e b net).
Proof. by split. Qed.

Lemma enable_each_spec choose b js net :
  (∀ j, j ∈ js → is_Some (choose j)) →
  ∃ net', enable_each choose b js net = Some net' ∧ same_but_enabled net net'
    ∧ (∀ j name, j ∈ js → choose j = Some (Some name) → enabled net' !! NStr name = Some b)
    ∧ ∀ e, enabled net' !! e = enabled net !! e
        ∨ enabled net' !! e = Some b ∧ ∃ j name, j ∈ js ∧ choose j = Some (Some name) ∧ e = NStr name.
Proof.
  intros Hc. unfold enable_each.
  destruct (foldM_total (λ pre net', same_but_enabled net net'
    ∧ (∀ j name, j ∈ pre → choose j = Some (Some name) → enabled net' !! NStr name = Some b)
    ∧ ∀ e, enabled net' !! e = enabled net !! e
        ∨ enabled net' !! e = Some b ∧ ∃ j name, j ∈ pre ∧ choose j = Some (Some name) ∧ e = NStr name)
    (λ net j, o ← choose j; Some (match o with Some name => Enable (NStr name) b net | None => net end)) net js)
    as (net' & Hnet & HP).
  - split_and!; [done|by intros j name Hj%elem_of_nil|auto].
  - intros pre j rest net1 Hjs (Hsame & Hin & Hout). destruct (Hc j) as [o Ho].
    { rewrite Hjs. apply elem_of_app. right. left. }
    rewrite Ho. cbn [mbind option_bind]. eexists. split; [done|]. destruct o as [name|].
    + split_and!; [by etrans; [done|apply Enable_same]| |].
      * intros j' name' Hj' Hn'. simpl.
        destruct (decide (NStr name' = NStr name)) as [->|Hne]; [apply lookup_insert_eq|].
        simpl. rewrite lookup_insert_ne by done. apply elem_of_app in Hj' as [Hj'|Hj'%list_elem_of_singleton]; [by eapply Hin|].
        subst j'. congruence.
      * intros e. simpl. destruct (decide (e = NStr name)) as [->|Hne].
        -- right. rewrite lookup_insert_eq. split; [done|]. exists j, name. split_and!; [|done..]. apply elem_of_app. right. left.
        -- rewrite lookup_insert_ne by done. destruct (Hout e) as [?|(? & j' & name' & ? & ? & ?)]; [by left|right].
           split; [done|]. exists j', name'. split_and!; [|done..]. apply elem_of_app. by left.
    + split_and!; [done| |].
      * intros j' name' [Hj'|Hj'%list_elem_of_singleton]%elem_of_app Hn'; [by eapply Hin|]. subst j'. congruence.
      * intros e. destruct (Hout e) as [?|(? & j' & name' & ? & ? & ?)]; [by left|right].
        split; [done|]. exists j', name'. split_and!; [|done..]. apply elem_of_app. by left.
  - by exists net'.
Qed.

Lemma enable_each_choose choose b js net net' :
  enable_each choose b js net = Some net' → ∀ j, j ∈ js → is_Some (choose j).
Proof.
  unfold enable_each. intros Hf. refine (foldM_inv (λ pre _, ∀ j, j ∈ pre → is_Some (choose j)) _ _ _ _ _ _ Hf).
  - by intros j ?%elem_of_nil.
  - intros pre x s s' Hpre Hs j [Hj| ->%list_elem_of_singleton]%elem_of_app; [by apply Hpre|].
    destruct (choose x); [by eexists|done].
Qed.

(** The flag of one end. *)
Lemma enable_each_flag choose b js net net' name :
  enable_each choose b js net = Some net' →
  enabled net' !! NStr name = Some true ↔
  if b then enabled net !! NStr name = Some true ∨ ∃ j, j ∈ js ∧ choose j = Some (Some name)
  else enabled net !! NStr name = Some true ∧ ¬ ∃ j, j ∈ js ∧ choose j = Some (Some name).
Proof.
  intros He. destruct (enable_each_spec choose b js net (enable_each_choose _ _ _ _ _ He)) as (net1 & He1 & _ & Hin & Hout).
  rewrite He in He1. injection He1 as <-. destruct (Hout (NStr name)) as [Heq|(Heq & j & name' & Hj & Hch & [= <-])]; rewrite Heq.
  - destruct b; (split; [intros Ht|]).
    + by left.
    + intros [?|(j & Hj & Hch)]; [done|]. by rewrite <-Heq, (Hin j name Hj Hch).
    + split; [done|]. intros (j & Hj & Hch). specialize (Hin j name Hj Hch). congruence.
    + by intros [? _].
  - destruct b; (split; [intros Ht|]); try done.
    + right. eauto.
    + intros [_ Hno]. destruct Hno. eauto.
Qed.

(** Fresh ends: the names are new and distinct, or [MakeEnd] exits. *)
Lemma make_ends_spec server enable names net net' :
  make_ends server enable names net = Some net' →
  NoDup names ∧ (∀ name, name ∈ names → NStr name ∉ ends net)
  ∧ (reliable net' = reliable net ∧ longDelays net' = longDelays net ∧ longReordering net' = longReordering net)
  ∧ (∀ e, e ∈ ends net' ↔ e ∈ ends net ∨ ∃ name, name ∈ names ∧ e = NStr name)
  ∧ servers net' = servers net
  ∧ (∀ j name, names !! j = Some name → connections net' !! NStr name = Some (Some (server (Z.of_nat j))))
  ∧ (∀ name, name ∈ names → enabled net' !! NStr name = Some enable)
  ∧ (∀ e, (∀ name, name ∈ names → e ≠ NStr name) →
       connections net' !! e = connections net !! e ∧ enabled net' !! e = enabled net !! e).
Proof.
  unfold make_ends. intros Hf.
  apply (foldM_inv (λ pre net', NoDup pre.*2 ∧ (∀ name, name ∈ pre.*2 → NStr name ∉ ends net)
    ∧ (reliable net' = reliable net ∧ longDelays net' = longDelays net ∧ longReordering net' = longReordering net)
    ∧ (∀ e, e ∈ ends net' ↔ e ∈ ends net ∨ ∃ name, name ∈ pre.*2 ∧ e = NStr name)
    ∧ servers net' = servers net
    ∧ (∀ j name, (j, name) ∈ pre → connections net' !! NStr name = Some (Some (server (Z.of_nat j))))
    ∧ (∀ name, name ∈ pre.*2 → enabled net' !! NStr name = Some enable)
    ∧ (∀ e, (∀ name, name ∈ pre.*2 → e ≠ NStr name) →
       connections net' !! e = connections net !! e ∧ enabled net' !! e = enabled net !! e))) in Hf.
  - assert ((imap pair names).*2 = names) as Hnames.
    { rewrite fmap_imap. unfold compose. simpl. clear. induction names as [|x l IH]; simpl; [done|]. by f_equal. }
    rewrite Hnames in Hf. destruct Hf as (? & ? & ? & ? & ? & Hcon & ? & ?). split_and!; try done; [naive_solver..|].
    intros j name Hj. apply Hcon. by apply elem_of_lookup_imap_2.
  - split_and!; try done; [constructor|by intros ? ?%elem_of_nil| |by intros ??? %elem_of_nil|by intros ? ?%elem_of_nil].
    intros e. split; [by left|]. intros [?|(name & Hn & _)]; [done|by apply elem_of_nil in Hn].
  - intros pre [j name] net1 net2 (Hnd & Hfresh & Hrel & Hends & Hsrv & Hcon & Hen & Hother) Hstep.
    unfold MakeEnd in Hstep. destruct (decide (NStr name ∈ ends net1)) as [|Hnew]; cbn [mbind option_bind] in Hstep; [done|].
    rewrite Hends in Hnew.
    assert (name ∉ pre.*2) as Hnp by (intros ?; apply Hnew; right; by exists name).
    injection Hstep as <-. rewrite fmap_app. cbn [fmap list_fmap]. split_and!.
    + apply list.NoDup_app. split_and!; [done| |apply NoDup_singleton]. intros x Hx ->%list_elem_of_singleton. done.
    + intros x [Hx| ->%list_elem_of_singleton]%elem_of_app; [by apply Hfresh|]. intros ?. apply Hnew. by left.
    + destruct enable; apply Hrel.
    + destruct enable; apply Hrel.
    + destruct enable; apply Hrel.
    + intros e. transitivity (e = NStr name ∨ e ∈ ends net1).
      { destruct enable; simpl; rewrite elem_of_union, elem_of_singleton; done. }
      rewrite Hends. setoid_rewrite elem_of_app. setoid_rewrite list_elem_of_singleton. naive_solver.
    + by destruct enable.
    + intros k x Hkx. apply elem_of_app in Hkx as [Hx|Hx]; [|apply list_elem_of_singleton in Hx; injection Hx as -> ->].
      * assert (NStr x ≠ NStr name) as Hne.
        { intros [= ->]. apply Hnp. apply list_elem_of_fmap. by exists (k, name). }
        destruct enable; simpl; rewrite !lookup_insert_ne by done; by apply Hcon.
      * destruct enable; simpl; apply lookup_insert_eq.
    + intros x [Hx| ->%list_elem_of_singleton]%elem_of_app.
      * assert (NStr x ≠ NStr name) as Hne by (intros [= ->]; done).
        destruct enable; simpl; rewrite !lookup_insert_ne by done; by apply Hen.
      * destruct enable; simpl; apply lookup_insert_eq.
    + intros e He. assert (e ≠ NStr name) by (apply He, elem_of_app; right; left).
      destruct (Hother e) as [Hc He']; [intros x Hx; apply He, elem_of_app; by left|].
      destruct enable; simpl; rewrite !lookup_insert_ne by done; done.
Qed.

Lemma draw_row_length draw n : 0 ≤ n → len (draw_row draw n) = n.
Proof. intros. unfold draw_row. rewrite length_fmap, length_seq. lia. Qed.

(** When a request is handed to a server, if it is not dropped. *)
Lemma process_read_waiting net (r : Request (Name := IName)) sn a rel :
  r_phase r = Reading →
  r_phase (process_read false net r) = Waiting sn a rel ↔
  enabled net !! rq_endname (r_msg r) = Some true ∧ connections net !! rq_endname (r_msg r) = Some (Some sn)
  ∧ default None (servers net !! sn) = Some a ∧ rel = reliable net.
Proof.
  intros Hr. unfold process_read, readEndnameInfo. simpl. rewrite andb_false_r.
  destruct (enabled net !! _) as [[]|]; simpl; [|naive_solver..].
  destruct (connections net !! _) as [[sn'|]|]; simpl; [|naive_solver..].
  destruct (default None (servers net !! sn')) as [a'|] eqn:Hs; simpl; [|naive_solver].
  split; [intros [= <- <- <-]; done|]. intros (_ & [= <-] & Ha & ->). congruence.
Qed.

Lemma process_read_not_enabled net (r : Request (Name := IName)) drop :
  enabled net !! rq_endname (r_msg r) ≠ Some true → r_phase (process_read drop net r) = Delivering no_reply.
Proof. intros He. unfold process_read, readEndnameInfo. simpl. by destruct (enabled net !! _) as [[]|]. Qed.
