(* ===== verification/RaftHarness.v ===== *)
(** * The test harness of Raft ([raft/config.go])

    What the tests do to a cluster: start, crash, connect and disconnect servers, read what
    they apply, and check who leads and what is committed.  The peers are those of
    [RaftState], the network that of [LabRpc]. *)
From S2P Require Import Prelude RaftState LabRpc HarnessNet.

(** [cfg.saved[i]]: nil, a persister only the harness has, or the one of the peer at an
    address, which goes on writing to it. *)
Inductive Saved := SNil | SOwn (p : Persister) | SRaft (a : nat).

(** The calls of [t.Fatal] and [t.Fatalf], which end the test. *)
Inductive Failure (C : Type) :=
  | TermLeaders (term k : Z)
  | NoLeader
  | TermsDisagree
  | ClaimsLeader (i : Z)
  | ApplyError (msg : string)
  | ValuesDiffer (index : Z) (cmd cmd1 : Iface C)
  | TooFew (nd index n : Z)
  | NotCommitted (cmd : Iface C) (expectedServers nd : Z)
  | NoAgreement (cmd : Iface C)
  | TooLong.
Arguments TermLeaders {C}. Arguments NoLeader {C}. Arguments TermsDisagree {C}. Arguments ClaimsLeader {C}.
Arguments ApplyError {C}. Arguments ValuesDiffer {C}. Arguments TooFew {C}. Arguments NotCommitted {C}.
Arguments NoAgreement {C}. Arguments TooLong {C}.

(** A check may panic ([None]) or fail the test. *)
Definition Test (C A : Type) : Type := option (Failure C + A).
Definition passes {C A} (a : A) : Test C A := Some (inr a).
Definition Fatalf {C A} (f : Failure C) : Test C A := Some (inl f).
Definition lift {C A} (o : option A) : Test C A := inr <$> o.
#[export] Instance test_bind {C} : MBind (Test C) := λ A B f t,
  match t with None => None | Some (inl e) => Some (inl e) | Some (inr a) => f a end.

Definition foldT {C A S} (f : S → A → Test C S) (s : S) (l : list A) : Test C S :=
  foldl (λ acc x, acc ≫= λ s, f s x) (passes s) l.

(** Servers are numbered from 0; peers and the servers made for them have an address, the
    place where they are in [heap] and in [srvs], counted in the order of creation.
    [V] are the values the handlers take and [W] the state they change, as in [LabRpc]. *)
Record config (C V W : Type) := MkConfig {
  cfg_net : @Network IName IName_eq_dec IName_countable;
  cfg_n : Z;
  rafts : list (option nat);
  applyErr : list string;
  connected : list bool;
  saved : list Saved;
  endnames : list (option (list string));
  logs : list (gmap Z (Iface C));
  rpcs0 : Z;
  cmds0 : Z;
  bytes0 : Z;
  maxIndex : Z;
  maxIndex0 : Z;
  heap : list (Raft C);
  srvs : list (Server (V := V) (W := W))
}.
Arguments MkConfig {C V W}. Arguments cfg_net {C V W}. Arguments cfg_n {C V W}. Arguments rafts {C V W}.
Arguments applyErr {C V W}. Arguments connected {C V W}. Arguments saved {C V W}. Arguments endnames {C V W}.
Arguments logs {C V W}. Arguments rpcs0 {C V W}. Arguments cmds0 {C V W}. Arguments bytes0 {C V W}.
Arguments maxIndex {C V W}. Arguments maxIndex0 {C V W}. Arguments heap {C V W}. Arguments srvs {C V W}.
#[export] Instance config_eta C V W : Eta (config C V W) := λ c,
  MkConfig (cfg_net c) (cfg_n c) (rafts c) (applyErr c) (connected c) (saved c) (endnames c) (logs c) (rpcs0 c)
    (cmds0 c) (bytes0 c) (maxIndex c) (maxIndex0 c) (heap c) (srvs c).

Section harness.
Context {C V W : Type} `{EqDecision C, GoRand, GobCodec (RaftVal C)}.
(** [labrpc.MakeService] of the peer at an address: what reflection finds. *)
Variable raft_service : nat → Service (V := V) (W := W).
Implicit Types (cfg : config C V W) (i j : Z).

(** ** Connecting and disconnecting *)

(** Outgoing ends, then incoming ends. *)
Definition connect i cfg : option (config C V W) :=
  connected' ← slice_set (connected cfg) i true;
  let cfg := cfg <| connected := connected' |> in
  net ← enable_each (λ j, cj ← (connected cfg).[j];
    if (cj : bool) then Some <$> row_name (endnames cfg) i j else Some None) true (seqZ 0 (cfg_n cfg)) (cfg_net cfg);
  net ← enable_each (λ j, cj ← (connected cfg).[j];
    if (cj : bool) then Some <$> row_name (endnames cfg) j i else Some None) true (seqZ 0 (cfg_n cfg)) net;
  Some (cfg <| cfg_net := net |>).

Definition disconnect i cfg : option (config C V W) :=
  connected' ← slice_set (connected cfg) i false;
  let cfg := cfg <| connected := connected' |> in
  net ← enable_each (λ j, row ← (endnames cfg).[i];
    if (row : option (list string)) is Some _ then Some <$> row_name (endnames cfg) i j else Some None) false (seqZ 0 (cfg_n cfg)) (cfg_net cfg);
  net ← enable_each (λ j, row ← (endnames cfg).[j];
    if (row : option (list string)) is Some _ then Some <$> row_name (endnames cfg) j i else Some None) false (seqZ 0 (cfg_n cfg)) net;
  Some (cfg <| cfg_net := net |>).

(** ** Crashing and starting *)

(** [cfg.saved[i].Copy()]. *)
Definition copy_saved cfg (s : Saved) : option Saved :=
  match s with
  | SNil => Some SNil
  | SOwn p => Some (SOwn (Persister_Copy p))
  | SRaft a => rf ← heap cfg !! a; Some (SOwn (Persister_Copy (persister rf)))
  end.

(** The fresh persister gets the Raft state only. *)
Definition strip_saved (s : Saved) : Saved :=
  match s with SOwn p => SOwn (MakePersister <| raftstate := ReadRaftState p |>) | _ => s end.

Definition crash1 i cfg : option (config C V W) :=
  cfg ← disconnect i cfg;
  let cfg := cfg <| cfg_net := DeleteServer (NInt i) (cfg_net cfg) |> in
  s ← (saved cfg).[i];
  s ← copy_saved cfg s;
  rf ← (rafts cfg).[i];
  heap' ← match rf with
          | Some a => p ← heap cfg !! a; p ← Kill p; Some (<[a := p]> (heap cfg))
          | None => Some (heap cfg)
          end;
  rafts' ← slice_set (rafts cfg) i None;
  saved' ← slice_set (saved cfg) i (strip_saved s);
  Some (cfg <| heap := heap' |> <| rafts := rafts' |> <| saved := saved' |>).

(** After [crash1] what is saved is the harness's own. *)
Definition start_persister (s : Saved) : option Persister :=
  match s with
  | SNil => Some MakePersister
  | SOwn p => Some (Persister_Copy p)
  | SRaft _ => None
  end.

Definition start1 i (draw : nat → string) cfg : option (config C V W) :=
  cfg ← crash1 i cfg;
  let row := draw_row draw (cfg_n cfg) in
  endnames' ← slice_set (endnames cfg) i (Some row);
  net ← make_ends NInt false row (cfg_net cfg);
  s ← (saved cfg).[i];
  p ← start_persister s;
  rf ← Make (cfg_n cfg) i p;
  let a := length (heap cfg) in
  saved' ← slice_set (saved cfg) i (SRaft a);
  rafts' ← slice_set (rafts cfg) i (Some a);
  Some (cfg <| endnames := endnames' |> <| cfg_net := AddServer (NInt i) a net |> <| saved := saved' |>
    <| heap := heap cfg ++ [rf] |> <| rafts := rafts' |>
    <| srvs := srvs cfg ++ [AddService (raft_service a) new_server] |>).

Definition setunreliable (unrel : bool) cfg : config C V W := cfg <| cfg_net := Reliable (negb unrel) (cfg_net cfg) |>.
Definition setlongreordering (longrel : bool) cfg : config C V W := cfg <| cfg_net := LongReordering longrel (cfg_net cfg) |>.

Definition new_config (n : Z) : option (config C V W) :=
  applyErr ← make_slice n ""%string;
  rafts ← make_slice n None;
  connected ← make_slice n false;
  saved ← make_slice n SNil;
  endnames ← make_slice n None;
  logs ← make_slice n ∅;
  Some (MkConfig new_network n rafts applyErr connected saved endnames logs 0 0 0 0 0 [] []).

(** [draws i] are the names drawn when server [i] is started.  The maps of [cfg.logs] are
    made one by one, before the server that writes to them. *)
Definition make_config (n : Z) (unreliable : bool) (draws : Z → nat → string) : option (config C V W) :=
  cfg ← new_config n;
  let cfg := setunreliable unreliable cfg in
  let cfg := cfg <| cfg_net := LongDelays true (cfg_net cfg) |> in
  cfg ← foldM (λ cfg i, start1 i (draws i) cfg) cfg (seqZ 0 n);
  foldM (λ cfg i, connect i cfg) cfg (seqZ 0 n).

(** ** Reading what the peers apply *)

(** The error of one message, the last that is found; an exit of the process. *)
Inductive ApplyFailure := CommitDiffers (index i j : Z) | OutOfOrder (i index : Z).

Definition differs cfg i (m : ApplyMsg C) : option ApplyFailure :=
  foldl (λ err p, let '(j, log) := (p : nat * gmap Z (Iface C)) in
    match log !! CommandIndex m with
    | Some old => if bool_decide (old ≠ msg_Command m) then Some (CommitDiffers (CommandIndex m) i (Z.of_nat j)) else err
    | None => err
    end) None (imap pair (logs cfg)).

(** One message from server [i]'s channel; [inl] is [log.Fatalf]. *)
Definition read_apply i (m : ApplyMsg C) cfg : option (ApplyFailure + config C V W) :=
  if CommandValid m then
    let err_msg := differs cfg i m in
    log ← (logs cfg).[i];
    let prevok := bool_decide (is_Some (log !! (CommandIndex m - 1))) in
    logs' ← slice_set (logs cfg) i (<[CommandIndex m := msg_Command m]> log);
    let cfg := cfg <| logs := logs' |> in
    let cfg := if CommandIndex m >? maxIndex cfg then cfg <| maxIndex := CommandIndex m |> else cfg in
    let err_msg := if (CommandIndex m >? 1) && negb prevok then Some (OutOfOrder i (CommandIndex m)) else err_msg in
    Some (match err_msg with Some e => inl e | None => inr cfg end)
  else Some (inr cfg).

(** ** Checks *)

(** [cfg.rafts[i].GetState()] when the peers are as in [hp]. *)
Definition get_state cfg (hp : list (Raft C)) i : option (Z * bool) :=
  p ← (rafts cfg).[i]; a ← p; rf ← hp !! a; Some (GetState rf).

(** One round of [checkOneLeader]: [hps i] is the state of the peers when server [i] is
    asked, [order] the order in which [range] visits the map. *)
Definition collect_leaders cfg (hps : Z → list (Raft C)) : option (gmap Z (list Z)) :=
  foldM (λ leaders i, ci ← (connected cfg).[i];
    if (ci : bool) then
      '(term, leader) ← get_state cfg (hps i) i;
      Some (if (leader : bool) then <[term := default [] (leaders !! term) ++ [i]]> leaders else leaders)
    else Some leaders) ∅ (seqZ 0 (cfg_n cfg)).

Fixpoint last_term (visit : list (Z * list Z)) (lastTermWithLeader : Z) : Test C Z :=
  match visit with
  | [] => passes lastTermWithLeader
  | (term, leaders) :: visit =>
      if len leaders >? 1 then Fatalf (TermLeaders term (len leaders))
      else last_term visit (if term >? lastTermWithLeader then term else lastTermWithLeader)
  end.

Definition RangeOrder : Type := gmap Z (list Z) → list (Z * list Z).

(** The rounds of sleeping and asking, ten at most. *)
Fixpoint leader_rounds (order : RangeOrder) cfg (rounds : list (Z → list (Raft C))) : Test C Z :=
  match rounds with
  | [] => Fatalf NoLeader
  | hps :: rounds =>
      leaders ← lift (collect_leaders cfg hps);
      last ← last_term (order leaders) (-1);
      if bool_decide (leaders = ∅) then leader_rounds order cfg rounds
      else lift (ls ← leaders !! last; (ls : list Z).[0])
  end.

Definition checkOneLeader (order : RangeOrder) cfg (hps : nat → Z → list (Raft C)) : Test C Z :=
  leader_rounds order cfg (hps <$> seq 0 10).

Definition terms_turn cfg (hps : Z → list (Raft C)) (term : Z) i : Test C Z :=
  ci ← lift (connected cfg).[i];
  if (ci : bool) then
    '(xterm, _) ← lift (get_state cfg (hps i) i);
    if term =? -1 then passes xterm else if negb (term =? xterm) then Fatalf TermsDisagree else passes term
  else passes term.

Definition checkTerms cfg (hps : Z → list (Raft C)) : Test C Z := foldT (terms_turn cfg hps) (-1) (seqZ 0 (cfg_n cfg)).

Definition noLeader_turn cfg (hps : Z → list (Raft C)) (_ : ()) i : Test C () :=
  ci ← lift (connected cfg).[i];
  if (ci : bool) then
    '(_, is_leader) ← lift (get_state cfg (hps i) i);
    if (is_leader : bool) then Fatalf (ClaimsLeader i) else passes ()
  else passes ().

Definition checkNoLeader cfg (hps : Z → list (Raft C)) : Test C () := foldT (noLeader_turn cfg hps) () (seqZ 0 (cfg_n cfg)).

(** The count, and the last command found. *)
Definition nCommitted_turn (index : Z) cfg (acc : Z * Iface C) i : Test C (Z * Iface C) :=
  let '(count, cmd) := acc in
  err ← lift (applyErr cfg).[i];
  if negb (bool_decide (err = ""%string)) then Fatalf (ApplyError err) else
  log ← lift (logs cfg).[i];
  match (log : gmap Z (Iface C)) !! index with
  | Some cmd1 =>
      if (count >? 0) && bool_decide (cmd ≠ cmd1) then Fatalf (ValuesDiffer index cmd cmd1)
      else passes (count + 1, cmd1)
  | None => passes (count, cmd)
  end.

Definition nCommitted (index : Z) cfg : Test C (Z * Iface C) := foldT (nCommitted_turn index cfg) (0, INil) (seqZ 0 (len (rafts cfg))).

(** A turn of [wait]: the logs when it counts, and the peers when it asks for their
    terms; [to] is in nanoseconds. *)
Fixpoint wait_loop (index n startTerm : Z) (turns : list (config C V W * (nat → list (Raft C)))) (to : Z) :
    Test C (Z * bool) :=
  match turns with
  | [] => passes (to, false)
  | (cfg, hps) :: turns =>
      '(nd, _) ← nCommitted index cfg;
      if nd >=? n then passes (to, false) else
      let to := if to <? 1000 * Millisecond then to * 2 else to in
      moved ← (if startTerm >? -1 then
        lift (foldM (λ moved p, let '(k, r) := (p : nat * option nat) in
          if (moved : bool) then Some true else
          a ← r; rf ← hps k !! a; Some ((GetState rf).1 >? startTerm)) false (imap pair (rafts cfg)))
        else passes false);
      if (moved : bool) then passes (to, true) else wait_loop index n startTerm turns to
  end.

(** [None] in the answer is the -1 that says the term has moved on. *)
Definition wait (index n startTerm : Z) (turns : list (config C V W * (nat → list (Raft C)))) cfg : Test C (option (Iface C)) :=
  '(_, moved) ← wait_loop index n startTerm (take 30 turns) (10 * Millisecond);
  if (moved : bool) then passes None else
  '(nd, cmd) ← nCommitted index cfg;
  if nd <? n then Fatalf (TooFew nd index n) else passes (Some cmd).

(** ** Submitting a command *)

(** The servers tried in turn from [starts]: [answer k] is what [Start] says to the [k]-th
    try.  The index, or -1, and the last server tried. *)
Fixpoint submit (tries : nat) (k : nat) cfg (starts : Z) (answer : nat → Z * Z * bool) : option (Z * Z) :=
  match tries with
  | O => Some (-1, starts)
  | S tries =>
      let starts := Z.rem (starts + 1) (cfg_n cfg) in
      ci ← (connected cfg).[starts];
      rf ← (if (ci : bool) then (rafts cfg).[starts] else Some None);
      match (rf : option nat) with
      | Some _ => let '(index1, _, ok) := answer k in
                  if (ok : bool) then Some (index1, starts) else submit tries (S k) cfg starts answer
      | None => submit tries (S k) cfg starts answer
      end
  end.

(** Polling for agreement on [index], until two seconds are over: the logs at each poll. *)
Fixpoint poll (cmd : Iface C) (index expectedServers : Z) (polls : list (config C V W)) : Test C bool :=
  match polls with
  | [] => passes false
  | cfg :: polls =>
      '(nd, cmd1) ← nCommitted index cfg;
      if (nd >? 0) && (nd >=? expectedServers) && bool_decide (cmd1 = cmd) then passes true
      else poll cmd index expectedServers polls
  end.

(** A turn of [one]: the cluster and the answers when it submits, the logs at its polls and
    the ones after them. *)
Record OneTurn := MkTurn {
  t_cfg : config C V W;
  t_answer : nat → Z * Z * bool;
  t_polls : list (config C V W);
  t_last : config C V W
}.

(** The turns that fit into ten seconds. *)
Fixpoint one_loop (cmd : Iface C) (expectedServers : Z) (retry : bool) (turns : list OneTurn) (starts : Z) : Test C Z :=
  match turns with
  | [] => Fatalf (NoAgreement cmd)
  | t :: turns =>
      '(index, starts) ← lift (submit (Z.to_nat (cfg_n (t_cfg t))) 0 (t_cfg t) starts (t_answer t));
      if negb (index =? -1) then
        agreed ← poll cmd index expectedServers (t_polls t);
        if (agreed : bool) then passes index
        else if negb retry then
          '(nd, cmd1) ← nCommitted index (t_last t); Fatalf (NotCommitted cmd1 expectedServers nd)
        else one_loop cmd expectedServers retry turns starts
      else one_loop cmd expectedServers retry turns starts
  end.

Definition one (cmd : Iface C) (expectedServers : Z) (retry : bool) (turns : list OneTurn) : Test C Z :=
  one_loop cmd expectedServers retry turns 0.

(** ** Statistics *)

Definition rpcTotal cfg : Z := GetTotalCount (cfg_net cfg).
Definition bytesTotal cfg : Z := GetTotalBytes (cfg_net cfg).

Definition begin cfg : config C V W :=
  cfg <| rpcs0 := rpcTotal cfg |> <| bytes0 := bytesTotal cfg |> <| cmds0 := 0 |> <| maxIndex0 := maxIndex cfg |>.

(** [checkTimeout] after [elapsed] nanoseconds; [failed] is [t.Failed()]. *)
Definition checkTimeout (failed : bool) (elapsed : Z) : Test C () :=
  if negb failed && (elapsed >? 120 * 1000 * Millisecond) then Fatalf TooLong else passes ().

(** [cfg.rafts[i].Kill()] of each server that runs, then the network's [Cleanup]. *)
Definition cleanup (failed : bool) (elapsed : Z) cfg : Test C (config C V W) :=
  heap' ← lift (foldM (λ hp rf, match rf with
                                | Some a => p ← hp !! a; p ← Kill p; Some (<[a := p]> hp)
                                | None => Some hp
                                end) (heap cfg) (rafts cfg));
  net ← lift (Cleanup (cfg_net cfg));
  _ ← checkTimeout failed elapsed;
  passes (cfg <| heap := heap' |> <| cfg_net := net |>).

(** What is printed: peers, RPCs, bytes and agreements. *)
Definition end_ (failed : bool) (elapsed : Z) cfg : Test C (option (Z * Z * Z * Z)) :=
  _ ← checkTimeout failed elapsed;
  passes (if failed then None
          else Some (cfg_n cfg, rpcTotal cfg - rpcs0 cfg, bytesTotal cfg - bytes0 cfg, maxIndex cfg - maxIndex0 cfg)).
End harness.
