(* ===== verification/HarnessRoute.v ===== *)
(** * The test harness of Raft: which requests get through

    The invariant of the harness's tables, kept by starting, crashing, connecting and
    disconnecting servers in any order while the peers run: a request gets through exactly
    when it is sent by the running instance of a connected server to another, and then it
    reaches the instance that runs there now. *)
From S2P Require Import Prelude RaftState LabRpc HarnessNet RaftHarness.

Section route.
Context {C V W : Type} `{EqDecision C, GoRand, GobCodec (RaftVal C)}.
Variable raft_service : nat → Service (V := V) (W := W).
Implicit Types (cfg : config C V W) (i j : Z) (rows : list (option (list string))) (conn : list bool).

(** The end that server [i] now uses for server [j], both being connected. *)
Definition live rows conn (e : IName) : Prop :=
  ∃ i j name, e = NStr name ∧ row_name rows i j = Some name ∧ conn.[i] = Some true ∧ conn.[j] = Some true.

Record tables_ok (n : Z) rows conn (net : @Network IName _ _) : Prop := {
  tb_rows : len rows = n;
  tb_conn : len conn = n;
  tb_row i row : rows.[i] = Some (Some row) → len row = n;
  tb_name i j name : row_name rows i j = Some name →
    NStr name ∈ ends net ∧ connections net !! NStr name = Some (Some (NInt j));
  tb_inj i j i' j' name : row_name rows i j = Some name → row_name rows i' j' = Some name → i = i' ∧ j = j';
  tb_started i : conn.[i] = Some true → ∃ row, rows.[i] = Some (Some row);
  tb_enabled e : enabled net !! e = Some true ↔ live rows conn e
}.

Lemma row_name_Some rows i j name :
  row_name rows i j = Some name ↔ ∃ row, rows.[i] = Some (Some row) ∧ row.[j] = Some name.
Proof.
  unfold row_name. split.
  - destruct (rows.[i]) as [[row|]|] eqn:Hr; simpl; [|by unfold slice_get; case_match|done]. eauto.
  - intros (row & -> & Hj). done.
Qed.

Lemma row_name_range n rows conn net i j name :
  tables_ok n rows conn net → row_name rows i j = Some name → 0 ≤ i < n ∧ 0 ≤ j < n.
Proof.
  intros Hok (row & Hr & Hj)%row_name_Some. pose proof (tb_row _ _ _ _ Hok i row Hr) as Hl.
  assert (is_Some (rows.[i])) as Hi by eauto. apply slice_get_is_Some in Hi.
  assert (is_Some (row.[j])) as Hj' by eauto. apply slice_get_is_Some in Hj'.
  rewrite (tb_rows _ _ _ _ Hok) in Hi. lia.
Qed.

(** The tables do not depend on the rest of the network. *)
Lemma tables_ok_net n rows conn net net' :
  tables_ok n rows conn net → ends net' = ends net → connections net' = connections net → enabled net' = enabled net →
  tables_ok n rows conn net'.
Proof. intros [] He Hc Hen. split; rewrite ?He, ?Hc; try done. intros e. by rewrite Hen. Qed.

Lemma conn_set_true conn conn' i j : slice_set conn i true = Some conn' → conn.[j] = Some true → conn'.[j] = Some true.
Proof.
  intros Hs Hj. destruct (decide (i = j)) as [<-|Hne]; [by eapply slice_get_set_eq|].
  by rewrite (slice_get_set_ne _ _ _ _ _ Hs).
Qed.

Lemma in_range n conn j : len conn = n → is_Some (conn.[j]) → j ∈ seqZ 0 n.
Proof. intros <- Hj%slice_get_is_Some. apply elem_of_seqZ. lia. Qed.

(** The two loops of [connect]. *)
Lemma connect_tables n rows conn conn' net net1 net2 i :
  tables_ok n rows conn net → slice_set conn i true = Some conn' →
  enable_each (λ j, cj ← conn'.[j]; if (cj : bool) then Some <$> row_name rows i j else Some None) true (seqZ 0 n) net = Some net1 →
  enable_each (λ j, cj ← conn'.[j]; if (cj : bool) then Some <$> row_name rows j i else Some None) true (seqZ 0 n) net1 = Some net2 →
  tables_ok n rows conn' net2 ∧ same_but_enabled net net2.
Proof.
  intros Hok Hset H1 H2. pose proof (tb_conn _ _ _ _ Hok) as Hcl.
  pose proof (enable_each_choose _ _ _ _ _ H1) as Hc1. pose proof (enable_each_choose _ _ _ _ _ H2) as Hc2.
  destruct (enable_each_spec _ true (seqZ 0 n) net Hc1) as (net1' & Hn1 & Hs1 & Hin1 & Hout1).
  rewrite H1 in Hn1. injection Hn1 as <-.
  destruct (enable_each_spec _ true (seqZ 0 n) net1 Hc2) as (net2' & Hn2 & Hs2 & Hin2 & Hout2).
  rewrite H2 in Hn2. injection Hn2 as <-.
  assert (same_but_enabled net net2) as Hs by by etrans. split; [|done].
  assert (conn'.[i] = Some true) as Hi by by eapply slice_get_set_eq.
  assert (∀ j, is_Some (conn'.[j]) → j ∈ seqZ 0 n) as Hrange.
  { intros j. apply in_range. by rewrite (slice_set_length _ _ _ _ Hset). }
  split.
  - apply Hok.
  - by rewrite (slice_set_length _ _ _ _ Hset).
  - apply Hok.
  - rewrite (sb_ends _ _ Hs), (sb_connections _ _ Hs). apply Hok.
  - apply Hok.
  - intros j Hj. destruct (decide (i = j)) as [<-|Hne].
    + destruct (Hc1 i (Hrange i ltac:(eauto))) as [o Ho]. rewrite Hi in Ho. simpl in Ho.
      destruct (row_name rows i i) as [name|] eqn:Hr; [|done]. apply row_name_Some in Hr as (row & ? & _). eauto.
    + apply Hok. by rewrite <-(slice_get_set_ne _ _ _ _ _ Hset Hne).
  - intros e. assert (live rows conn e → live rows conn' e) as Hmono.
    { intros (a & b & name & ? & ? & ? & ?). exists a, b, name. split_and!; [done..| |]; by eapply conn_set_true. }
    split.
    + intros He. destruct (Hout2 e) as [Heq|(_ & j & name & Hj & Hch & ->)].
      * rewrite Heq in He. destruct (Hout1 e) as [Heq1|(_ & j & name & Hj & Hch & ->)].
        { rewrite Heq1 in He. by apply Hmono, (tb_enabled _ _ _ _ Hok). }
        destruct (conn'.[j]) as [[]|] eqn:Hcj; simpl in Hch; [|done..].
        apply fmap_Some in Hch as (? & Hch & [= <-]). by exists i, j, name.
      * destruct (conn'.[j]) as [[]|] eqn:Hcj; simpl in Hch; [|done..].
        apply fmap_Some in Hch as (? & Hch & [= <-]). by exists j, i, name.
    + assert (enabled net1 !! e = Some true → enabled net2 !! e = Some true) as Hkeep2.
      { destruct (Hout2 e) as [->|[-> _]]; done. }
      assert (enabled net !! e = Some true → enabled net1 !! e = Some true) as Hkeep1.
      { destruct (Hout1 e) as [->|[-> _]]; done. }
      intros (a & b & name & -> & Hn & Ha & Hb).
      destruct (decide (a = i)) as [->|Hai]; [|destruct (decide (b = i)) as [->|Hbi]].
      * apply Hkeep2, (Hin1 b); [by eauto|]. by rewrite Hb, Hn.
      * apply (Hin2 a); [by eauto|]. by rewrite Ha, Hn.
      * apply Hkeep2, Hkeep1, (tb_enabled _ _ _ _ Hok). exists a, b, name.
        rewrite (slice_get_set_ne _ _ _ _ _ Hset) in Ha by done. by rewrite (slice_get_set_ne _ _ _ _ _ Hset) in Hb by done.
Qed.

(** The two loops of [disconnect]. *)
Lemma disconnect_tables n rows conn conn' net net1 net2 i :
  tables_ok n rows conn net → slice_set conn i false = Some conn' →
  enable_each (λ j, row ← rows.[i]; if (row : option (list string)) is Some _ then Some <$> row_name rows i j else Some None)
    false (seqZ 0 n) net = Some net1 →
  enable_each (λ j, row ← rows.[j]; if (row : option (list string)) is Some _ then Some <$> row_name rows j i else Some None)
    false (seqZ 0 n) net1 = Some net2 →
  tables_ok n rows conn' net2 ∧ same_but_enabled net net2.
Proof.
  intros Hok Hset H1 H2.
  pose proof (enable_each_choose _ _ _ _ _ H1) as Hc1. pose proof (enable_each_choose _ _ _ _ _ H2) as Hc2.
  destruct (enable_each_spec _ false (seqZ 0 n) net Hc1) as (net1' & Hn1 & Hs1 & Hin1 & Hout1).
  rewrite H1 in Hn1. injection Hn1 as <-.
  destruct (enable_each_spec _ false (seqZ 0 n) net1 Hc2) as (net2' & Hn2 & Hs2 & Hin2 & Hout2).
  rewrite H2 in Hn2. injection Hn2 as <-.
  assert (same_but_enabled net net2) as Hs by by etrans. split; [|done].
  assert (∀ j, conn'.[j] = Some true ↔ conn.[j] = Some true ∧ j ≠ i) as Hconn.
  { intros j. destruct (decide (i = j)) as [<-|Hne].
    - rewrite (slice_get_set_eq _ _ _ _ Hset). naive_solver.
    - rewrite (slice_get_set_ne _ _ _ _ _ Hset) by done. naive_solver. }
  assert (∀ a b name, row_name rows a b = Some name → a = i ∨ b = i → enabled net2 !! NStr name = Some false) as Hoff.
  { intros a b name Hn Hab. destruct (row_name_range _ _ _ _ _ _ _ Hok Hn) as [Ha Hb].
    pose proof Hn as (row & Hr & _)%row_name_Some.
    destruct (decide (b = i)) as [->|Hbi].
    - apply (Hin2 a); [apply elem_of_seqZ; lia|]. by rewrite Hr, Hn.
    - destruct Hab as [->|]; [|done].
      assert (enabled net1 !! NStr name = Some false) as He1.
      { apply (Hin1 b); [apply elem_of_seqZ; lia|]. by rewrite Hr, Hn. }
      by destruct (Hout2 (NStr name)) as [->|[-> _]]. }
  split.
  - apply Hok.
  - rewrite (slice_set_length _ _ _ _ Hset). apply Hok.
  - apply Hok.
  - rewrite (sb_ends _ _ Hs), (sb_connections _ _ Hs). apply Hok.
  - apply Hok.
  - intros j [Hj _]%Hconn. by apply Hok.
  - intros e. split.
    + intros He. assert (enabled net !! e = Some true) as He0.
      { destruct (Hout2 e) as [Heq|[Heq _]]; [|congruence]. rewrite Heq in He.
        destruct (Hout1 e) as [Heq1|[Heq1 _]]; congruence. }
      apply (tb_enabled _ _ _ _ Hok) in He0 as (a & b & name & -> & Hn & Ha & Hb).
      exists a, b, name. split_and!; [done..| |]; apply Hconn; split; try done; intros ->; by rewrite (Hoff _ _ _ Hn) in He; auto.
    + intros (a & b & name & -> & Hn & [Ha Hai]%Hconn & [Hb Hbi]%Hconn).
      assert (enabled net !! NStr name = Some true) as He by (apply (tb_enabled _ _ _ _ Hok); by exists a, b, name).
      assert (∀ a' b', row_name rows a' b' = Some name → a' = a ∧ b' = b) as Huniq.
      { intros a' b' Hn'. by destruct (tb_inj _ _ _ _ Hok _ _ _ _ _ Hn' Hn). }
      destruct (Hout2 (NStr name)) as [->|(_ & j & name' & _ & Hch & [= <-])].
      * destruct (Hout1 (NStr name)) as [->|(_ & j & name' & _ & Hch & [= <-])]; [done|].
        destruct (rows.[i]) as [[row|]|]; simpl in Hch; [|done..]. apply fmap_Some in Hch as (? & Hch & [= <-]).
        by destruct (Huniq _ _ Hch).
      * destruct (rows.[j]) as [[row|]|]; simpl in Hch; [|done..]. apply fmap_Some in Hch as (? & Hch & [= <-]).
        by destruct (Huniq _ _ Hch).
Qed.

(** A fresh row for a server that is not connected. *)
Lemma start_tables n rows rows' conn net net' i row :
  tables_ok n rows conn net → conn.[i] ≠ Some true → len row = n →
  make_ends NInt false row net = Some net' → slice_set rows i (Some row) = Some rows' →
  tables_ok n rows' conn net'.
Proof.
  intros Hok Hi Hlen Hmake Hset.
  destruct (make_ends_spec _ _ _ _ _ Hmake) as (Hnd & Hfresh & _ & Hends & _ & Hcon & Hen & Hother).
  assert (∀ j name, row_name rows' i j = Some name ↔ row.[j] = Some name) as Hnew.
  { intros j name. unfold row_name. by rewrite (slice_get_set_eq _ _ _ _ Hset). }
  assert (∀ a j, a ≠ i → row_name rows' a j = row_name rows a j) as Hold.
  { intros a j Ha. unfold row_name. by rewrite (slice_get_set_ne _ _ _ _ _ Hset). }
  assert (∀ a j name, row_name rows a j = Some name → name ∉ row) as Hnot.
  { intros a j name Hn Hin. apply (Hfresh name Hin). by eapply (tb_name _ _ _ _ Hok). }
  assert (∀ e, live rows' conn e ↔ live rows conn e) as Hlive.
  { intros e. split; intros (a & b & name & ? & Hn & Ha & Hb); exists a, b, name; split_and!; try done;
      rewrite Hold in *; try done; intros ->; done. }
  split.
  - rewrite (slice_set_length _ _ _ _ Hset). apply Hok.
  - apply Hok.
  - intros a r Ha. destruct (decide (i = a)) as [<-|Hne].
    + rewrite (slice_get_set_eq _ _ _ _ Hset) in Ha. by injection Ha as <-.
    + rewrite (slice_get_set_ne _ _ _ _ _ Hset) in Ha by done. by eapply (tb_row _ _ _ _ Hok).
  - intros a j name Hn. destruct (decide (a = i)) as [->|Hne].
    + apply Hnew in Hn. split; [apply Hends; right; exists name; split; [by eapply slice_get_elem|done]|].
      apply slice_get_Some in Hn as [Hj Hn]. by rewrite (Hcon _ _ Hn), Z2Nat.id.
    + rewrite Hold in Hn by done. destruct (tb_name _ _ _ _ Hok _ _ _ Hn) as [He Hc].
      split; [apply Hends; by left|]. destruct (Hother (NStr name)) as [-> _]; [|done].
      intros x Hx [= <-]. by eapply Hnot.
  - intros a j a' j' name Hn Hn'. destruct (decide (a = i)) as [->|Hne], (decide (a' = i)) as [->|Hne'].
    + split; [done|]. apply Hnew, slice_get_Some in Hn as [? Hn]. apply Hnew, slice_get_Some in Hn' as [? Hn'].
      pose proof (NoDup_lookup _ _ _ _ Hnd Hn Hn'). lia.
    + apply Hnew, slice_get_elem in Hn. rewrite Hold in Hn' by done. by destruct (Hnot _ _ _ Hn').
    + apply Hnew, slice_get_elem in Hn'. rewrite Hold in Hn by done. by destruct (Hnot _ _ _ Hn).
    + rewrite Hold in Hn, Hn' by done. by eapply (tb_inj _ _ _ _ Hok).
  - intros j Hj. destruct (tb_started _ _ _ _ Hok j Hj) as [r Hr]. destruct (decide (i = j)) as [<-|Hne]; [done|].
    exists r. by rewrite (slice_get_set_ne _ _ _ _ _ Hset).
  - intros e. rewrite Hlive.
    assert ((∃ name, name ∈ row ∧ e = NStr name) ∨ ∀ name, name ∈ row → e ≠ NStr name) as [(name & Hin & ->)|Hno].
    { destruct e as [name|z]; [|by right]. destruct (decide (name ∈ row)); [left; eauto|right]. by intros x Hx [= <-]. }
    + rewrite (Hen _ Hin). split; [done|]. intros (a & b & x & [= <-] & Hn & _). by destruct (Hnot _ _ _ Hn).
    + destruct (Hother e Hno) as [_ ->]. apply Hok.
Qed.

(** ** The harness's state *)

Record harness_ok cfg : Prop := {
  ho_tables : tables_ok (cfg_n cfg) (endnames cfg) (connected cfg) (cfg_net cfg);
  ho_rafts : len (rafts cfg) = cfg_n cfg;
  ho_saveds : len (saved cfg) = cfg_n cfg;
  ho_srvs : length (srvs cfg) = length (heap cfg);
  ho_running i a : (rafts cfg).[i] = Some (Some a) ↔ (saved cfg).[i] = Some (SRaft a);
  ho_heap i a : (rafts cfg).[i] = Some (Some a) → (a < length (heap cfg))%nat;
  ho_unique i j a : (rafts cfg).[i] = Some (Some a) → (rafts cfg).[j] = Some (Some a) → i = j;
  ho_server i a : default None (servers (cfg_net cfg) !! NInt i) = Some a ↔ (rafts cfg).[i] = Some (Some a)
}.

(** What happens in a test: the functions of the harness, the network carrying requests,
    and the peers, old instances included, which may do anything at any time. *)
Inductive harness_step cfg : config C V W → Prop :=
  | h_start i draw cfg' : start1 raft_service i draw cfg = Some cfg' → harness_step cfg cfg'
  | h_crash i cfg' : crash1 i cfg = Some cfg' → harness_step cfg cfg'
  | h_connect i cfg' : connect i cfg = Some cfg' → harness_step cfg cfg'
  | h_disconnect i cfg' : disconnect i cfg = Some cfg' → harness_step cfg cfg'
  | h_unreliable b : harness_step cfg (setunreliable b cfg)
  | h_reordering b : harness_step cfg (setlongreordering b cfg)
  | h_delays b : harness_step cfg (cfg <| cfg_net := LongDelays b (cfg_net cfg) |>)
  | h_begin : harness_step cfg (begin cfg)
  | h_apply i m cfg' : read_apply i m cfg = Some (inr cfg') → harness_step cfg cfg'
  | h_accept args : harness_step cfg (cfg <| cfg_net := accept args (cfg_net cfg) |>)
  | h_bytes n : harness_step cfg (cfg <| cfg_net := (cfg_net cfg) <| bytes := add_int64 (bytes (cfg_net cfg)) n |> |>)
  | h_peer a rf rf' : heap cfg !! a = Some rf → harness_step cfg (cfg <| heap := <[a := rf']> (heap cfg) |>).

Definition harness_reachable cfg : Prop :=
  ∃ cfg0, new_config (cfg_n cfg) = Some cfg0 ∧ rtc harness_step cfg0 cfg.

Lemma connect_ok i cfg cfg' :
  harness_ok cfg → connect i cfg = Some cfg' →
  harness_ok cfg'
  ∧ (endnames cfg', cfg_n cfg', rafts cfg', saved cfg', heap cfg', srvs cfg')
    = (endnames cfg, cfg_n cfg, rafts cfg, saved cfg, heap cfg, srvs cfg)
  ∧ ends (cfg_net cfg') = ends (cfg_net cfg).
Proof.
  intros Hok Hc. unfold connect in Hc. destruct (slice_set (connected cfg) i true) as [conn|] eqn:Hset; simpl in Hc; [|done].
  destruct (enable_each _ _ _ (cfg_net cfg)) as [net1|] eqn:H1; simpl in Hc; [|done].
  destruct (enable_each _ _ _ net1) as [net2|] eqn:H2; simpl in Hc; [|done]. injection Hc as <-.
  destruct (connect_tables _ _ _ _ _ _ _ _ (ho_tables _ Hok) Hset H1 H2) as [Ht Hs].
  split_and!; [|done|simpl; apply Hs]. split; simpl; try apply Hok; [done|]. rewrite (sb_servers _ _ Hs). apply Hok.
Qed.

Lemma disconnect_ok i cfg cfg' :
  harness_ok cfg → disconnect i cfg = Some cfg' →
  harness_ok cfg' ∧ (connected cfg').[i] = Some false
  ∧ (endnames cfg', cfg_n cfg', rafts cfg', saved cfg', heap cfg', srvs cfg')
    = (endnames cfg, cfg_n cfg, rafts cfg, saved cfg, heap cfg, srvs cfg)
  ∧ ends (cfg_net cfg') = ends (cfg_net cfg).
Proof.
  intros Hok Hc. unfold disconnect in Hc. destruct (slice_set (connected cfg) i false) as [conn|] eqn:Hset; simpl in Hc; [|done].
  destruct (enable_each _ _ _ (cfg_net cfg)) as [net1|] eqn:H1; simpl in Hc; [|done].
  destruct (enable_each _ _ _ net1) as [net2|] eqn:H2; simpl in Hc; [|done]. injection Hc as <-.
  destruct (disconnect_tables _ _ _ _ _ _ _ _ (ho_tables _ Hok) Hset H1 H2) as [Ht Hs].
  split_and!; [|simpl; by eapply slice_get_set_eq|done|simpl; apply Hs].
  split; simpl; try apply Hok; [done|]. rewrite (sb_servers _ _ Hs). apply Hok.
Qed.

Lemma copy_saved_own cfg s s' a : copy_saved cfg s = Some s' → strip_saved s' ≠ SRaft a.
Proof. destruct s; simpl; [by intros [= <-]..|]. destruct (heap cfg !! _); [|done]. by intros [= <-]. Qed.

Lemma crash1_ok i cfg cfg' :
  harness_ok cfg → crash1 i cfg = Some cfg' →
  harness_ok cfg' ∧ (connected cfg').[i] = Some false ∧ (rafts cfg').[i] = Some None
  ∧ (∀ j, j ≠ i → (rafts cfg').[j] = (rafts cfg).[j])
  ∧ endnames cfg' = endnames cfg ∧ cfg_n cfg' = cfg_n cfg ∧ length (heap cfg') = length (heap cfg)
  ∧ ends (cfg_net cfg') = ends (cfg_net cfg).
Proof.
  intros Hok Hc. unfold crash1 in Hc. destruct (disconnect i cfg) as [cfg1|] eqn:Hd; simpl in Hc; [|done].
  destruct (disconnect_ok _ _ _ Hok Hd) as ([Ht Hr Hsv Hsr Hrun Hheap Huniq Hserver] & Hconn & Hsame & Hends). clear Hok Hd.
  injection Hsame as He Hn Hra Hsa Hhp Hss.
  destruct ((saved cfg1).[i]) as [s|] eqn:Hsi; simpl in Hc; [|done].
  destruct (copy_saved _ s) as [s'|] eqn:Hcopy; simpl in Hc; [|done].
  destruct ((rafts cfg1).[i]) as [rf|] eqn:Hri; simpl in Hc; [|done].
  destruct (match rf with Some a => _ | None => _ end) as [heap'|] eqn:Hkill; simpl in Hc; [|done].
  assert (length heap' = length (heap cfg1)) as Hlen.
  { destruct rf as [a|]; [|by injection Hkill as <-]. destruct (heap cfg1 !! a) as [p|]; simpl in Hkill; [|done].
    destruct (Kill p); simpl in Hkill; [|done]. injection Hkill as <-. apply length_insert. }
  destruct (slice_set (rafts cfg1) i None) as [rafts'|] eqn:Hrset; simpl in Hc; [|done].
  destruct (slice_set (saved cfg1) i _) as [saved'|] eqn:Hsset; simpl in Hc; [|done]. injection Hc as <-. simpl.
  assert (∀ j, j ≠ i → rafts'.[j] = (rafts cfg1).[j]) as Hro by (intros; by eapply slice_get_set_ne).
  assert (∀ j, j ≠ i → saved'.[j] = (saved cfg1).[j]) as Hso by (intros; by eapply slice_get_set_ne).
  pose proof (slice_get_set_eq _ _ _ _ Hrset) as Hre. pose proof (slice_get_set_eq _ _ _ _ Hsset) as Hse.
  assert (∀ j a, rafts'.[j] = Some (Some a) → j ≠ i) as Hne by (intros j a Hj ->; congruence).
  split_and!; try done; [|by intros j Hj; rewrite Hro, Hra|by rewrite Hlen, Hhp].
  split; simpl.
  - by eapply tables_ok_net.
  - by rewrite (slice_set_length _ _ _ _ Hrset).
  - by rewrite (slice_set_length _ _ _ _ Hsset).
  - by rewrite Hlen.
  - intros j a. destruct (decide (j = i)) as [->|Hj]; [|by rewrite Hro, Hso].
    rewrite Hre, Hse. split; [done|]. intros [= Hst]. by destruct (copy_saved_own _ _ _ a Hcopy).
  - intros j a Hj. rewrite Hlen. rewrite Hro in Hj by by eapply Hne. by eapply Hheap.
  - intros j k a Hj Hk. rewrite Hro in Hj, Hk by by eapply Hne. by eapply Huniq.
  - intros j a. destruct (decide (j = i)) as [->|Hj].
    + rewrite lookup_insert_eq, Hre. done.
    + rewrite lookup_insert_ne by congruence. by rewrite Hro.
Qed.

Lemma start1_ok i draw cfg cfg' :
  harness_ok cfg → start1 raft_service i draw cfg = Some cfg' →
  harness_ok cfg'
  ∧ (connected cfg').[i] = Some false ∧ (rafts cfg').[i] = Some (Some (length (heap cfg)))
  ∧ (∀ j, j ≠ i → (rafts cfg').[j] = (rafts cfg).[j])
  ∧ (∀ a j, a ≠ i → row_name (endnames cfg') a j = row_name (endnames cfg) a j)
  ∧ (∀ j name, row_name (endnames cfg') i j = Some name → NStr name ∉ ends (cfg_net cfg))
  ∧ cfg_n cfg' = cfg_n cfg ∧ length (heap cfg') = S (length (heap cfg))
  ∧ (∀ e, e ∈ ends (cfg_net cfg) → e ∈ ends (cfg_net cfg')).
Proof.
  intros Hok Hc. unfold start1 in Hc. destruct (crash1 i cfg) as [cfg1|] eqn:Hd; simpl in Hc; [|done].
  destruct (crash1_ok _ _ _ Hok Hd) as ([Ht Hr Hsv Hsr Hrun Hheap Huniq Hserver] & Hconn & Hri & Hro1 & He & Hn & Hhp & Hends). clear Hok Hd.
  destruct (slice_set (endnames cfg1) i _) as [rows'|] eqn:Hset; simpl in Hc; [|done].
  destruct (make_ends _ _ _ (cfg_net cfg1)) as [net|] eqn:Hmake; simpl in Hc; [|done].
  destruct ((saved cfg1).[i]) as [s|] eqn:Hsi; simpl in Hc; [|done].
  destruct (start_persister s) as [p|]; simpl in Hc; [|done].
  destruct (Make _ _ p) as [rf|]; simpl in Hc; [|done].
  destruct (slice_set (saved cfg1) i _) as [saved'|] eqn:Hsset; simpl in Hc; [|done].
  destruct (slice_set (rafts cfg1) i _) as [rafts'|] eqn:Hrset; simpl in Hc; [|done]. injection Hc as <-. simpl.
  assert (∀ j, j ≠ i → rafts'.[j] = (rafts cfg1).[j]) as Hro by (intros; by eapply slice_get_set_ne).
  assert (∀ j, j ≠ i → saved'.[j] = (saved cfg1).[j]) as Hso by (intros; by eapply slice_get_set_ne).
  pose proof (slice_get_set_eq _ _ _ _ Hrset) as Hre. pose proof (slice_get_set_eq _ _ _ _ Hsset) as Hse.
  assert (0 ≤ cfg_n cfg1) as Hn0 by (pose proof (tb_rows _ _ _ _ Ht); lia).
  destruct (make_ends_spec _ _ _ _ _ Hmake) as (_ & Hfresh & _ & Hends' & Hsrv & _).
  assert (∀ j a, rafts'.[j] = Some (Some a) → (a < S (length (heap cfg1)))%nat) as Hlt.
  { intros j a Hj. destruct (decide (j = i)) as [->|Hji]; [rewrite Hre in Hj; injection Hj as <-; lia|].
    rewrite Hro in Hj by done. specialize (Hheap _ _ Hj). lia. }
  split_and!; try done.
  - split; simpl.
    + apply (tables_ok_net _ _ _ net); [|done..].
      apply (start_tables (cfg_n cfg1) (endnames cfg1) rows' (connected cfg1) (cfg_net cfg1) net i (draw_row draw (cfg_n cfg1)));
        [done|congruence|by apply draw_row_length|done|done].
    + by rewrite (slice_set_length _ _ _ _ Hrset).
    + by rewrite (slice_set_length _ _ _ _ Hsset).
    + rewrite !length_app. simpl. lia.
    + intros j a. destruct (decide (j = i)) as [->|Hj]; [rewrite Hre, Hse; naive_solver|by rewrite Hro, Hso].
    + intros j a Hj. rewrite length_app. simpl. specialize (Hlt _ _ Hj). lia.
    + intros j k a Hj Hk. destruct (decide (j = i)) as [->|Hji], (decide (k = i)) as [->|Hki]; [done|..].
      * rewrite Hre in Hj. injection Hj as <-. rewrite Hro in Hk by done. specialize (Hheap _ _ Hk). lia.
      * rewrite Hre in Hk. injection Hk as <-. rewrite Hro in Hj by done. specialize (Hheap _ _ Hj). lia.
      * rewrite Hro in Hj, Hk by done. by eapply Huniq.
    + intros j a. rewrite Hsrv. destruct (decide (j = i)) as [->|Hj].
      * rewrite lookup_insert_eq, Hre. simpl. naive_solver.
      * rewrite lookup_insert_ne by congruence. by rewrite Hro.
  - by rewrite Hre, Hhp.
  - intros j Hj. by rewrite Hro, Hro1.
  - intros a j Ha. unfold row_name. by rewrite (slice_get_set_ne _ _ _ _ _ Hset), He.
  - intros j name. unfold row_name. rewrite (slice_get_set_eq _ _ _ _ Hset). simpl. rewrite <-Hends. intros ?%slice_get_elem. by apply Hfresh.
  - rewrite length_app. simpl. rewrite Hhp. lia.
  - intros e Hin. apply Hends'. left. by rewrite Hends.
Qed.

(** What a step does to names and addresses: none is used again. *)
Record harness_frame cfg cfg' : Prop := {
  hf_n : cfg_n cfg' = cfg_n cfg;
  hf_ends e : e ∈ ends (cfg_net cfg) → e ∈ ends (cfg_net cfg');
  hf_rows i j name : row_name (endnames cfg') i j = Some name →
    row_name (endnames cfg) i j = Some name ∨ NStr name ∉ ends (cfg_net cfg);
  hf_heap : (length (heap cfg) ≤ length (heap cfg'))%nat;
  hf_rafts i a : (rafts cfg').[i] = Some (Some a) → (rafts cfg).[i] = Some (Some a) ∨ (length (heap cfg) ≤ a)%nat
}.

(** A step that leaves the harness's own tables alone. *)
Lemma quiet_ok cfg cfg' :
  harness_ok cfg →
  (endnames cfg', cfg_n cfg', rafts cfg', saved cfg', connected cfg', srvs cfg', length (heap cfg'))
    = (endnames cfg, cfg_n cfg, rafts cfg, saved cfg, connected cfg, srvs cfg, length (heap cfg)) →
  (ends (cfg_net cfg'), connections (cfg_net cfg'), enabled (cfg_net cfg'), servers (cfg_net cfg'))
    = (ends (cfg_net cfg), connections (cfg_net cfg), enabled (cfg_net cfg), servers (cfg_net cfg)) →
  harness_ok cfg' ∧ harness_frame cfg cfg'.
Proof.
  intros [Ht ? ? ? ? ? ? ?] [= He Hn Hr Hs Hc Hv Hh] [= Hends Hcons Hen Hsrv]. split; split; rewrite ?He, ?Hn, ?Hr, ?Hs, ?Hc, ?Hv, ?Hh, ?Hends, ?Hsrv; auto.
  by eapply tables_ok_net.
Qed.

Lemma read_apply_tables i m cfg cfg' :
  read_apply i m cfg = Some (inr cfg') →
  (endnames cfg', cfg_n cfg', rafts cfg', saved cfg', connected cfg', srvs cfg', heap cfg', cfg_net cfg')
    = (endnames cfg, cfg_n cfg, rafts cfg, saved cfg, connected cfg, srvs cfg, heap cfg, cfg_net cfg).
Proof.
  unfold read_apply. destruct (CommandValid m); [|by intros [= <-]].
  destruct ((logs cfg).[i]); simpl; [|done]. destruct (slice_set (logs cfg) i _); simpl; [|done].
  destruct (if (CommandIndex m >? 1) && _ then _ else _); [done|]. intros [= <-]. by destruct (CommandIndex m >? maxIndex cfg).
Qed.

Lemma harness_step_ok cfg cfg' : harness_ok cfg → harness_step cfg cfg' → harness_ok cfg' ∧ harness_frame cfg cfg'.
Proof.
  intros Hok Hstep. destruct Hstep as [i draw cfg' Hs|i cfg' Hs|i cfg' Hs|i cfg' Hs|b|b|b| |i m cfg' Hs|args|n|a rf rf' Ha];
    try (apply quiet_ok; [done|done|done]).
  - destruct (start1_ok _ _ _ _ Hok Hs) as (Hok' & _ & Hri & Hro & Hrows & Hfresh & Hn & Hh & He). split; [done|]. split; try done.
    + intros a j name Hname. destruct (decide (a = i)) as [->|Ha]; [right; by eapply Hfresh|left; by rewrite <-Hrows].
    + lia.
    + intros j a Hj. destruct (decide (j = i)) as [->|Hji]; [right; rewrite Hri in Hj; injection Hj as <-; done|left; by rewrite <-Hro].
  - destruct (crash1_ok _ _ _ Hok Hs) as (Hok' & _ & Hri & Hro & Hrows & Hn & Hh & He). split; [done|]. split; try done.
    + by rewrite He.
    + rewrite Hrows. by left.
    + lia.
    + intros j a Hj. destruct (decide (j = i)) as [->|Hji]; [congruence|left; by rewrite <-Hro].
  - destruct (connect_ok _ _ _ Hok Hs) as (Hok' & [= He Hn Hr _ Hh _] & Hends). split; [done|].
    split; rewrite ?He, ?Hn, ?Hr, ?Hh, ?Hends; auto.
  - destruct (disconnect_ok _ _ _ Hok Hs) as (Hok' & _ & [= He Hn Hr _ Hh _] & Hends). split; [done|].
    split; rewrite ?He, ?Hn, ?Hr, ?Hh, ?Hends; auto.
  - pose proof (read_apply_tables _ _ _ _ Hs) as [= He Hn Hr Hsv Hc Hv Hh Hnet].
    apply quiet_ok; rewrite ?He, ?Hn, ?Hr, ?Hsv, ?Hc, ?Hv, ?Hh, ?Hnet; done.
  - apply quiet_ok; [done| |done]. simpl. by rewrite length_insert.
Qed.

Lemma new_config_ok n cfg : new_config n = Some cfg → harness_ok cfg ∧ cfg_n cfg = n.
Proof.
  unfold new_config, make_slice. destruct (Z.leb_spec 0 n) as [Hn|]; simpl; [|done]. intros [= <-]. split; [|done].
  assert (∀ {A} (x y : A) i, (replicate (Z.to_nat n) x).[i] = Some y → y = x) as Hrep.
  { intros A x y i Hy%slice_get_elem. by apply elem_of_replicate in Hy as [-> _]. }
  assert (∀ i j name, row_name (replicate (Z.to_nat n) None) i j = Some name → False) as Hrow.
  { intros i j name (row & Hr & _)%row_name_Some. by apply Hrep in Hr. }
  split; simpl; rewrite ?length_replicate, ?Z2Nat.id by done; try done.
  - split; rewrite ?length_replicate, ?Z2Nat.id by done; try done; simpl.
    + intros i row Hr. by apply Hrep in Hr.
    + intros i j name Hn'. by destruct (Hrow _ _ _ Hn').
    + intros i j i' j' name Hn'. by destruct (Hrow _ _ _ Hn').
    + intros i Hi. by apply Hrep in Hi.
    + intros e. split; [done|]. intros (i & j & name & _ & Hn' & _). by destruct (Hrow _ _ _ Hn').
  - intros i a. split; intros Hi; by apply Hrep in Hi.
  - intros i a Hi. by apply Hrep in Hi.
  - intros i j a Hi. by apply Hrep in Hi.
  - intros i a. split; [done|]. intros Hi. by apply Hrep in Hi.
Qed.

Lemma harness_steps_ok cfg cfg' :
  harness_ok cfg → rtc harness_step cfg cfg' → harness_ok cfg' ∧ harness_frame cfg cfg'.
Proof.
  intros Hok Hs. revert Hok. induction Hs as [cfg|cfg cfg1 cfg' Hs _ IH]; intros Hok; [split; [done|]; split; auto|].
  destruct (harness_step_ok _ _ Hok Hs) as [Hok1 [Hn1 He1 Hr1 Hh1 Ha1]]. destruct (IH Hok1) as [Hok' [Hn2 He2 Hr2 Hh2 Ha2]].
  split; [done|]. split.
  - congruence.
  - auto.
  - intros i j name Hn. destruct (Hr2 _ _ _ Hn) as [?|Hno]; [auto|right; intros ?; apply Hno; auto].
  - lia.
  - intros i a Hi. destruct (Ha2 _ _ Hi) as [?|?]; [auto|right; lia].
Qed.

Lemma reachable_ok cfg : harness_reachable cfg → harness_ok cfg.
Proof. intros (cfg0 & Hnew & Hs). destruct (new_config_ok _ _ Hnew) as [Hok _]. by apply (harness_steps_ok cfg0). Qed.

(** [make_config] is a run of these steps. *)
Lemma make_config_reachable n unreliable draws cfg :
  make_config raft_service n unreliable draws = Some cfg → harness_reachable cfg ∧ cfg_n cfg = n.
Proof.
  unfold make_config. destruct (new_config n) as [cfg0|] eqn:Hnew; simpl; [|done].
  destruct (new_config_ok _ _ Hnew) as [Hok Hn]. intros Hm.
  assert (rtc harness_step cfg0 cfg) as Hs.
  { destruct (foldM _ _ (seqZ 0 n)) as [cfg1|] eqn:H1; simpl in Hm; [|done].
    etrans; [|etrans].
    - eapply rtc_l; [apply (h_unreliable _ unreliable)|]. apply rtc_once, (h_delays _ true).
    - refine (foldM_inv (λ _ c, rtc harness_step _ c) _ _ _ _ _ _ H1); [done|].
      intros pre i c c' Hc Hstep. eapply rtc_r; [exact Hc|]. by eapply h_start.
    - refine (foldM_inv (λ _ c, rtc harness_step _ c) _ _ _ _ _ _ Hm); [done|].
      intros pre i c c' Hc Hstep. eapply rtc_r; [exact Hc|]. by eapply h_connect. }
  destruct (harness_steps_ok _ _ Hok Hs) as [_ Hf]. rewrite <-Hn, (hf_n _ _ Hf). split; [|done].
  exists cfg0. by rewrite (hf_n _ _ Hf), Hn.
Qed.

(** ** Properties *)

Implicit Types (r : Request (Name := IName)).

Lemma request_routed cfg r sn a rel :
  harness_ok cfg → r_phase r = Reading →
  r_phase (process_read false (cfg_net cfg) r) = Waiting sn a rel ↔
  ∃ i j name, rq_endname (r_msg r) = NStr name ∧ row_name (endnames cfg) i j = Some name
    ∧ (connected cfg).[i] = Some true ∧ (connected cfg).[j] = Some true
    ∧ (rafts cfg).[j] = Some (Some a) ∧ sn = NInt j ∧ rel = reliable (cfg_net cfg).
Proof.
  intros Hok Hr. rewrite process_read_waiting by done. rewrite (tb_enabled _ _ _ _ (ho_tables _ Hok)). split.
  - intros ((i & j & name & Heq & Hn & Hi & Hj) & Hc & Hs & ->). rewrite Heq in Hc.
    destruct (tb_name _ _ _ _ (ho_tables _ Hok) _ _ _ Hn) as [_ Hc']. rewrite Hc' in Hc. injection Hc as <-.
    apply (ho_server _ Hok) in Hs. exists i, j, name. done.
  - intros (i & j & name & Heq & Hn & Hi & Hj & Ha & -> & ->). split_and!; [by exists i, j, name| |by apply (ho_server _ Hok)|done].
    rewrite Heq. by eapply (tb_name _ _ _ _ (ho_tables _ Hok)).
Qed.

(** C30. What the tests do to the network is what they mean: after any sequence of starts,
    crashes, restarts, connections and disconnections, with the peers doing anything
    meanwhile, a request that is not dropped is handed to a server exactly when it was sent
    on an end that the latest instance of a connected server has for a connected server
    that runs, and it is handed to the instance of it that runs now. *)
Theorem harness_routes cfg r sn a rel :
  harness_reachable cfg → r_phase r = Reading →
  r_phase (process_read false (cfg_net cfg) r) = Waiting sn a rel ↔
  ∃ i j name, rq_endname (r_msg r) = NStr name ∧ row_name (endnames cfg) i j = Some name
    ∧ (connected cfg).[i] = Some true ∧ (connected cfg).[j] = Some true
    ∧ (rafts cfg).[j] = Some (Some a) ∧ sn = NInt j ∧ rel = reliable (cfg_net cfg).
Proof. intros Hr%reachable_ok. by apply request_routed. Qed.

(** A crashed instance is gone for good: once a server has been started again, whatever
    follows, a request on any end of its old instance is answered with a failure, no
    request reaches the old instance, and what it writes to its persister is never read
    again by the harness, which copies the persister of a running instance only. *)
Theorem restart_isolates_old_instance cfg i j name a draw cfg1 cfg2 r drop :
  harness_reachable cfg → row_name (endnames cfg) i j = Some name → (rafts cfg).[i] = Some (Some a) →
  start1 raft_service i draw cfg = Some cfg1 → rtc harness_step cfg1 cfg2 → r_phase r = Reading →
  (rq_endname (r_msg r) = NStr name → r_phase (process_read drop (cfg_net cfg2) r) = Delivering no_reply)
  ∧ (∀ sn rel, r_phase (process_read false (cfg_net cfg2) r) ≠ Waiting sn a rel)
  ∧ ∀ k, (saved cfg2).[k] ≠ Some (SRaft a).
Proof.
  intros Hok%reachable_ok Hn Ha Hstart Hsteps Hr.
  destruct (start1_ok _ _ _ _ Hok Hstart) as (Hok1 & _ & Hri & Hro & Hrows & Hfresh & Hcn & Hh & He).
  destruct (harness_steps_ok _ _ Hok1 Hsteps) as [Hok2 Hf].
  destruct (tb_name _ _ _ _ (ho_tables _ Hok) _ _ _ Hn) as [Hin _].
  assert (∀ i' j', row_name (endnames cfg2) i' j' ≠ Some name) as Hgone.
  { intros i' j' Hn2. destruct (hf_rows _ _ Hf _ _ _ Hn2) as [Hn1|Hno]; [|by apply Hno, He].
    destruct (decide (i' = i)) as [->|Hne]; [by apply (Hfresh j' name)|].
    rewrite Hrows in Hn1 by done. by destruct (tb_inj _ _ _ _ (ho_tables _ Hok) _ _ _ _ _ Hn Hn1). }
  assert (∀ k, (rafts cfg2).[k] ≠ Some (Some a)) as Hretired.
  { pose proof (ho_heap _ Hok _ _ Ha) as Hlt. intros k Hk. destruct (hf_rafts _ _ Hf _ _ Hk) as [Hk1|Hge]; [|lia].
    destruct (decide (k = i)) as [->|Hne]; [rewrite Hri in Hk1; injection Hk1 as <-; lia|].
    rewrite Hro in Hk1 by done. by rewrite (ho_unique _ Hok _ _ _ Ha Hk1) in Hne. }
  split_and!.
  - intros Heq. apply process_read_not_enabled. rewrite Heq.
    intros (i' & j' & name' & [= <-] & Hn2 & _)%(tb_enabled _ _ _ _ (ho_tables _ Hok2)). by destruct (Hgone i' j').
  - intros sn rel Hw. apply request_routed in Hw as (i' & j' & name' & _ & _ & _ & _ & Ha' & _); [|done..]. by destruct (Hretired j').
  - intros k Hk. apply (ho_running _ Hok2) in Hk. by destruct (Hretired k).
Qed.
End route.

(** ** Witnesses *)
Module RouteDemo.
Import ZeroRand CountableCodec.

Definition service (a : nat) : Service (V := nat) (W := nat) := new_service "Raft" [].

(** The names of the [k]-th start. *)
Definition draw (k : Z) (j : nat) : string :=
  String (Ascii.ascii_of_nat (65 + Z.to_nat k)) (String (Ascii.ascii_of_nat (65 + j)) "").

(** Three servers; the first is started again and connected. *)
Definition started : option (config nat nat nat) := make_config service 3 false draw.
Definition restarted : option (config nat nat nat) := cfg ← started; start1 service 0 (draw 9) cfg.
Definition rejoined : option (config nat nat nat) := cfg ← restarted; connect 0 cfg.

Definition request (e : string) : Request (Name := IName) := MkRequest (MkReqMsg (NStr e) "Raft.Method" []) Reading HIdle 0.

(** Whom a request on an end would reach. *)
Definition reaches (cfg : config nat nat nat) (e : string) : option nat :=
  match r_phase (process_read false (cfg_net cfg) (request e)) with Waiting _ a _ => Some a | _ => None end.

Lemma rejoined_routes :
  (λ cfg, ([reaches cfg (draw 0 1); reaches cfg (draw 9 1); reaches cfg (draw 2 1)], reaches cfg (draw 1 0))) <$> rejoined
  = Some ([None; Some 1%nat; Some 1%nat], Some 3%nat).
Proof. vm_compute. reflexivity. Qed.

Lemma started_state :
  (λ cfg, (row_name (endnames cfg) 0 1, (rafts cfg).[0])) <$> started = Some (Some (draw 0 1), Some (Some 0%nat)).
Proof. vm_compute. reflexivity. Qed.

Lemma started_reachable cfg : started = Some cfg → harness_reachable service cfg.
Proof. unfold started. intros Hs. by apply make_config_reachable in Hs as [? _]. Qed.

Lemma rejoined_steps cfg :
  rejoined = Some cfg →
  ∃ cfg0 cfg1, started = Some cfg0 ∧ start1 service 0 (draw 9) cfg0 = Some cfg1 ∧ connect 0 cfg1 = Some cfg.
Proof.
  unfold rejoined, restarted. destruct started as [cfg0|] eqn:Hs; [|done]. cbn [mbind option_bind].
  destruct (start1 service 0 (draw 9) cfg0) as [cfg1|] eqn:H1; [|done]. cbn [mbind option_bind]. eauto.
Qed.

Lemma rejoined_reachable cfg : rejoined = Some cfg → harness_reachable service cfg.
Proof.
  intros (cfg0 & cfg1 & Hs & H1 & Hc)%rejoined_steps. destruct (started_reachable cfg0 Hs) as (c & Hnew & Hsteps).
  assert (rtc (harness_step service) c cfg) as Hs'.
  { eapply rtc_r; [eapply rtc_r; [exact Hsteps|]|]; [by eapply h_start|by eapply h_connect]. }
  destruct (new_config_ok _ _ Hnew) as [Hok Hcn]. destruct (harness_steps_ok service _ _ Hok Hs') as [_ Hf].
  exists c. split; [|exact Hs']. rewrite (hf_n _ _ Hf), Hcn. exact Hnew.
Qed.

Lemma Some_pair {A B} (a c : A) (b d : B) : Some (a, b) = Some (c, d) → a = c ∧ b = d.
Proof. by intros [= -> ->]. Qed.

Lemma started_row cfg : started = Some cfg → row_name (endnames cfg) 0 1 = Some (draw 0 1) ∧ (rafts cfg).[0] = Some (Some 0%nat).
Proof. intros Hs. pose proof started_state as Hst. rewrite Hs in Hst. exact (Some_pair _ _ _ _ Hst). Qed.

Lemma rejoined_exists : is_Some rejoined.
Proof. pose proof rejoined_routes as Hr. destruct rejoined as [cfg|]; [by exists cfg|discriminate Hr]. Qed.

Lemma rejoined_reaches cfg : rejoined = Some cfg → reaches cfg (draw 1 0) = Some 3%nat.
Proof. intros Hs. pose proof rejoined_routes as Hr. rewrite Hs in Hr. exact (proj2 (Some_pair _ _ _ _ Hr)). Qed.

Lemma reaches_waiting cfg e a : reaches cfg e = Some a → ∃ sn rel, r_phase (process_read false (cfg_net cfg) (request e)) = Waiting sn a rel.
Proof. unfold reaches. destruct (r_phase _); try done. intros [= ->]. eauto. Qed.
End RouteDemo.

Import ZeroRand CountableCodec RouteDemo.

(** After the restart server 1 reaches the new instance of server 0. *)
Lemma harness_routes_witness :
  ∃ cfg, rejoined = Some cfg ∧ ∃ i j name, NStr (draw 1 0) = NStr name ∧ row_name (endnames cfg) i j = Some name
    ∧ (connected cfg).[j] = Some true ∧ (rafts cfg).[j] = Some (Some 3%nat).
Proof.
  destruct rejoined_exists as [cfg Hc]. exists cfg. split; [exact Hc|].
  destruct (reaches_waiting cfg (draw 1 0) 3%nat (rejoined_reaches cfg Hc)) as (sn & rel & Hw).
  apply (harness_routes service cfg (request (draw 1 0)) sn 3%nat rel (rejoined_reachable cfg Hc) eq_refl) in Hw
    as (i & j & name & He & Hn & _ & Hj & Ha & _).
  exists i, j, name. split; [exact He|]. split; [exact Hn|]. split; [exact Hj|exact Ha].
Defined.

Lemma restart_isolates_old_instance_witness :
  ∃ cfg, rejoined = Some cfg ∧ r_phase (process_read false (cfg_net cfg) (request (draw 0 1))) = Delivering no_reply.
Proof.
  destruct rejoined_exists as [cfg Hc].
  exists cfg. split; [exact Hc|]. destruct (rejoined_steps cfg Hc) as (cfg0 & cfg1 & Hs & H1 & Hconn).
  destruct (started_row cfg0 Hs) as [Hrow Hraft].
  destruct (restart_isolates_old_instance service cfg0 0 1 (draw 0 1) 0%nat (draw 9) cfg1 cfg (request (draw 0 1)) false
    (started_reachable cfg0 Hs) Hrow Hraft H1 (rtc_once _ _ (h_connect _ _ 0 _ Hconn)) eq_refl) as [Hgone _].
  exact (Hgone eq_refl).
Defined.
