(* ===== verification/HarnessChecks.v ===== *)
(** * The test harness of Raft: what its checks check

    The reader of applied commands accepts exactly the deliveries that agree and come in
    order, the counts are those of the servers that delivered, the leader that is found is
    the one of the newest term, and two leaders in one term are never found. *)
From S2P Require Import Prelude RaftState LabRpc HarnessNet RaftHarness RaftVote RaftSnapshot RaftReplicate RaftApply RaftCluster.

Section checks.
Context {C V W : Type} `{EqDecision C, GoRand, GobCodec (RaftVal C)}.
Implicit Types (cfg : config C V W) (m : ApplyMsg C) (ms : list (Z * ApplyMsg C)) (i j : Z).

(** The messages read so far, with the servers they came from. *)
Definition read_all ms cfg : option (ApplyFailure + config C V W) :=
  foldl (λ acc p, match acc with
                  | Some (inr cfg) => read_apply p.1 p.2 cfg
                  | _ => acc
                  end) (Some (inr cfg)) ms.

Lemma read_all_snoc ms i m cfg :
  read_all (ms ++ [(i, m)]) cfg = match read_all ms cfg with Some (inr cfg') => read_apply i m cfg' | r => r end.
Proof. unfold read_all. rewrite foldl_app. simpl. by destruct (foldl _ _ ms) as [[|]|]. Qed.

(** Server [i] delivered [c] at [index]. *)
Definition delivered ms i index (c : Iface C) : Prop :=
  ∃ m, (i, m) ∈ ms ∧ CommandValid m = true ∧ CommandIndex m = index ∧ msg_Command m = c.

Definition agree ms : Prop := ∀ i j index c c', delivered ms i index c → delivered ms j index c' → c = c'.

Definition in_sequence ms : Prop :=
  ∀ pre i m rest, ms = pre ++ (i, m) :: rest → CommandValid m = true → 1 < CommandIndex m →
    ∃ c, delivered pre i (CommandIndex m - 1) c.

Record logs_are ms (n : Z) cfg : Prop := {
  la_len : len (logs cfg) = n;
  la_log i log index c : (logs cfg).[i] = Some log → log !! index = Some c ↔ delivered ms i index c
}.

Lemma delivered_snoc ms i j m index c :
  delivered (ms ++ [(j, m)]) i index c ↔
  delivered ms i index c ∨ i = j ∧ CommandValid m = true ∧ CommandIndex m = index ∧ msg_Command m = c.
Proof.
  unfold delivered. split.
  - intros (m' & [Hin|Hin]%elem_of_app & Hv & Hi & Hc); [left; eauto|].
    apply list_elem_of_singleton in Hin. injection Hin as -> ->. by right.
  - intros [(m' & Hin & Hm)|(-> & Hm)].
    + exists m'. split; [|done]. apply elem_of_app. by left.
    + exists m. split; [|done]. apply elem_of_app. right. left.
Qed.

Lemma differs_None cfg i m :
  differs cfg i m = None ↔
  ∀ log, log ∈ logs cfg → ∀ old, log !! CommandIndex m = Some old → old = msg_Command m.
Proof.
  unfold differs. generalize 0%nat as k. assert (∀ l k, foldl (λ err (p : nat * gmap Z (Iface C)), let '(j, log) := p in
    match log !! CommandIndex m with
    | Some old => if bool_decide (old ≠ msg_Command m) then Some (CommitDiffers (CommandIndex m) i (Z.of_nat j)) else err
    | None => err
    end) None (imap (λ x, pair (k + x)%nat) l) = None ↔
    ∀ log, log ∈ l → ∀ old, log !! CommandIndex m = Some old → old = msg_Command m) as Hl.
  { intros l k. induction l as [|log l IH] using rev_ind; [split; [by intros _ ? ?%elem_of_nil|done]|].
    rewrite imap_app, foldl_app. simpl. split.
    - intros Hn. destruct (log !! CommandIndex m) as [old|] eqn:Ho.
      + destruct (bool_decide_reflect (old ≠ msg_Command m)) as [|Heq%dec_stable]; [done|]. rewrite IH in Hn.
        intros log' [Hin| ->%list_elem_of_singleton]%elem_of_app; [by apply Hn|]. intros old' Ho'. congruence.
      + rewrite IH in Hn. intros log' [Hin| ->%list_elem_of_singleton]%elem_of_app; [by apply Hn|]. intros old' Ho'. congruence.
    - intros Hall. assert (∀ l', l' ∈ l → ∀ old, l' !! CommandIndex m = Some old → old = msg_Command m) as Hl
        by (intros l' Hin; apply Hall, elem_of_app; by left).
      apply IH in Hl. destruct (log !! CommandIndex m) as [old|] eqn:Ho; [|done].
      rewrite bool_decide_false; [done|]. intros Hne. apply Hne, (Hall log); [apply elem_of_app; right; left|done]. }
  intros _. apply (Hl (logs cfg) 0%nat).
Qed.

Lemma read_apply_spec ms n cfg i m :
  logs_are ms n cfg → 0 ≤ i < n → CommandValid m = true →
  ∃ r, read_apply i m cfg = Some r
    ∧ (∀ cfg', r = inr cfg' → logs_are (ms ++ [(i, m)]) n cfg')
    ∧ ((∃ cfg', r = inr cfg') ↔
        (∀ j c, 0 ≤ j < n → delivered ms j (CommandIndex m) c → c = msg_Command m)
        ∧ (1 < CommandIndex m → ∃ c, delivered ms i (CommandIndex m - 1) c)).
Proof.
  intros [Hlen Hlog] Hi Hv. unfold read_apply. rewrite Hv.
  destruct (slice_get_lt (logs cfg) i) as [log Hli]; [lia|]. rewrite Hli. cbn [mbind option_bind].
  rewrite slice_set_lt by lia. cbn [mbind option_bind]. eexists. split; [done|].
  assert (differs cfg i m = None ↔ ∀ j c, 0 ≤ j < n → delivered ms j (CommandIndex m) c → c = msg_Command m) as Hdiff.
  { rewrite differs_None. split.
    - intros Hall j c Hj Hd. destruct (slice_get_lt (logs cfg) j) as [lj Hlj]; [lia|].
      apply (Hall lj); [by eapply slice_get_elem|]. by apply (Hlog j).
    - intros Hall lj Hin old Ho. apply list_elem_of_lookup in Hin as [k Hk].
      pose proof (lookup_lt_Some _ _ _ Hk). apply (Hall (Z.of_nat k)); [lia|].
      apply (Hlog _ lj); [|done]. apply slice_get_Some. rewrite Nat2Z.id. split; [lia|done]. }
  assert (bool_decide (is_Some (log !! (CommandIndex m - 1))) = false ↔ ¬ ∃ c, delivered ms i (CommandIndex m - 1) c) as Hprev.
  { rewrite bool_decide_eq_false. apply not_iff_compat.
    split; intros [c Hc]; exists c; [exact (proj1 (Hlog i log _ c Hli) Hc)|exact (proj2 (Hlog i log _ c Hli) Hc)]. }
  set (out := (CommandIndex m >? 1) && negb _).
  assert (out = false ↔ (1 < CommandIndex m → ∃ c, delivered ms i (CommandIndex m - 1) c)) as Hout.
  { unfold out. rewrite andb_false_iff, negb_false_iff. rewrite Z.gtb_ltb, Z.ltb_ge.
    destruct (bool_decide (is_Some (log !! (CommandIndex m - 1)))) eqn:Hb.
    - split; [|by right]. intros _ _. apply bool_decide_eq_true in Hb as [c Hc]. exists c. exact (proj1 (Hlog i log _ c Hli) Hc).
    - pose proof (proj1 Hprev eq_refl) as Hno. split; [intros [?|?] ?; [lia|done]|].
      intros Hex. left. destruct (Z.le_gt_cases (CommandIndex m) 1); [done|]. destruct Hno. apply Hex. lia. }
  split.
  - intros cfg' Hr. destruct out; [done|]. destruct (differs cfg i m); [done|]. injection Hr as <-.
    pose proof (proj1 Hdiff eq_refl) as Hsame. 
    assert (logs_are (ms ++ [(i, m)]) n (cfg <| logs := <[Z.to_nat i := <[CommandIndex m := msg_Command m]> log]> (logs cfg) |>)) as [Hl1 Hl2];
      [|by destruct (_ >? _)]. split; simpl.
    + by rewrite length_insert.
    + intros j lj index c Hj. rewrite delivered_snoc. destruct (decide (j = i)) as [->|Hne].
      * apply slice_get_Some in Hj as [_ Hj]. rewrite list_lookup_insert_eq in Hj by lia. injection Hj as <-.
        destruct (decide (index = CommandIndex m)) as [->|Hidx].
        -- rewrite lookup_insert_eq. split; [intros [= <-]; by right|].
           intros [Hd|(_ & _ & _ & ->)]; [|done]. by rewrite (Hsame i c Hi Hd).
        -- rewrite lookup_insert_ne by done. rewrite (Hlog i) by done. naive_solver.
      * rewrite (Hlog j); [naive_solver|]. apply slice_get_Some in Hj as [Hj0 Hj]. apply slice_get_Some. split; [done|].
        rewrite list_lookup_insert_ne in Hj by lia. done.
  - rewrite <-Hout, <-Hdiff. destruct out, (differs cfg i m); naive_solver.
Qed.

Lemma read_apply_invalid i m cfg : CommandValid m = false → read_apply i m cfg = Some (inr cfg).
Proof. intros Hv. unfold read_apply. by rewrite Hv. Qed.

(** One more message. *)
Lemma extended_ok ms i m n :
  0 ≤ i < n → CommandValid m = true → agree ms → in_sequence ms → (∀ j m, (j, m) ∈ ms → 0 ≤ j < n) →
  (∀ j c, 0 ≤ j < n → delivered ms j (CommandIndex m) c → c = msg_Command m)
    ∧ (1 < CommandIndex m → ∃ c, delivered ms i (CommandIndex m - 1) c)
  ↔ agree (ms ++ [(i, m)]) ∧ in_sequence (ms ++ [(i, m)]).
Proof.
  intros Hi Hv Ha Hs Hrange. split.
  - intros [Hsame Hprev]. split.
    + intros j k index c c' Hc Hc'. apply delivered_snoc in Hc as [Hc|(-> & _ & <- & <-)], Hc' as [Hc'|(-> & _ & Hidx & <-)];
        [by eapply Ha| |symmetry|done].
      * subst index. eapply Hsame; [|exact Hc]. destruct Hc as (m' & Hin & _). by eapply Hrange.
      * eapply Hsame; [|exact Hc']. destruct Hc' as (m' & Hin & _). by eapply Hrange.
    + intros pre j m' rest Heq Hv' Hidx. destruct rest as [|x rest _] using rev_ind.
      { apply app_inj_tail in Heq as [-> [= -> ->]]. by apply Hprev. }
      rewrite app_comm_cons, app_assoc in Heq. apply app_inj_tail in Heq as [Heq _]. by eapply Hs.
  - intros [Ha' Hs']. split.
    + intros j c _ Hd. apply (Ha' j i (CommandIndex m)); apply delivered_snoc; [by left|by right].
    + intros Hidx. by apply (Hs' ms i m []).
Qed.

(** The whole run. *)
Lemma read_all_spec n cfg ms :
  logs_are [] n cfg → (∀ i m, (i, m) ∈ ms → 0 ≤ i < n) →
  ∃ r, read_all ms cfg = Some r
    ∧ (∀ cfg', r = inr cfg' → logs_are ms n cfg')
    ∧ ((∃ cfg', r = inr cfg') ↔ agree ms ∧ in_sequence ms).
Proof.
  intros Hcfg. induction ms as [|[i m] ms IH] using rev_ind; intros Hrange.
  { exists (inr cfg). split; [done|]. split; [by intros ? [= <-]|]. split; [intros _|by exists cfg].
    split; [intros i j index c c' (m & Hin%elem_of_nil & _); done|]. intros pre i m rest Hnil. by destruct pre. }
  destruct IH as (r & Hr & Hlogs & Hiff); [intros j m' Hin; eapply Hrange, elem_of_app; by left|].
  assert (0 ≤ i < n) as Hi by (apply (Hrange i m), elem_of_app; right; left).
  rewrite read_all_snoc, Hr. destruct r as [e|cfg1].
  { exists (inl e). split; [done|]. split; [done|]. split; [by intros [? ?]|]. intros [Ha Hs]. exfalso.
    destruct (proj2 Hiff) as [? ?]; [|done]. split.
    - intros j k index c c' Hc Hc'. eapply Ha; apply delivered_snoc; by left.
    - intros pre j m' rest ->. apply (Hs pre j m' (rest ++ [(i, m)])). by rewrite <-app_assoc. }
  destruct (proj1 Hiff) as [Ha Hs]; [eauto|]. specialize (Hlogs cfg1 eq_refl).
  destruct (CommandValid m) eqn:Hv.
  - destruct (read_apply_spec ms n cfg1 i m Hlogs Hi Hv) as (r & Hr' & Hnew & Hok). exists r. split_and!; [done..|].
    rewrite Hok. apply (extended_ok ms i m n Hi Hv Ha Hs). intros j m' Hin. eapply Hrange, elem_of_app. by left.
  - rewrite read_apply_invalid by done. exists (inr cfg1). split; [done|]. split.
    + intros cfg' [= <-]. destruct Hlogs as [Hlen Hlog]. split; [done|]. intros j log index c Hj.
      rewrite (Hlog j log index c Hj), delivered_snoc. split; [by left|]. intros [?|(_ & ? & _)]; [done|congruence].
    + split; [intros _|by exists cfg1]. split.
      * intros j k index c c' Hc Hc'. apply delivered_snoc in Hc as [Hc|(_ & ? & _)]; [|congruence].
        apply delivered_snoc in Hc' as [Hc'|(_ & ? & _)]; [|congruence]. by eapply Ha.
      * intros pre j m' rest Heq Hv' Hidx. destruct rest as [|x rest _] using rev_ind.
        { apply app_inj_tail in Heq as [_ [= -> ->]]. congruence. }
        rewrite app_comm_cons, app_assoc in Heq. apply app_inj_tail in Heq as [Heq _]. by eapply Hs.
Qed.

(** ** Loops of checks *)

Lemma lift_bind {A B} (a : A) (f : A → Test C B) : lift (Some a) ≫= f = f a.
Proof. done. Qed.
Lemma passes_bind {A B} (a : A) (f : A → Test C B) : passes a ≫= f = f a.
Proof. done. Qed.

Lemma foldT_snoc {A S} (f : S → A → Test C S) s l x : foldT f s (l ++ [x]) = foldT f s l ≫= λ s, f s x.
Proof. unfold foldT. by rewrite foldl_app. Qed.

Lemma foldT_total {A S} (P : list A → S → Prop) (f : S → A → Test C S) s l :
  P [] s → (∀ pre x rest s, l = pre ++ x :: rest → P pre s → ∃ s', f s x = passes s' ∧ P (pre ++ [x]) s') →
  ∃ s', foldT f s l = passes s' ∧ P l s'.
Proof.
  intros Hbase Hstep. assert (∀ pre rest, l = pre ++ rest → ∃ s', foldT f s pre = passes s' ∧ P pre s') as Hpre.
  { induction pre as [|x pre IH] using rev_ind; intros rest Hl; [by exists s|].
    rewrite <-app_assoc in Hl. destruct (IH _ Hl) as (s1 & Hs1 & HP).
    destruct (Hstep pre x rest s1 Hl HP) as (s2 & ? & ?). exists s2. by rewrite foldT_snoc, Hs1. }
  apply (Hpre l []). by rewrite app_nil_r.
Qed.

(** No reader has recorded an error: it exits before it could. *)
Definition no_apply_errors cfg : Prop :=
  len (rafts cfg) = len (logs cfg) ∧ applyErr cfg = replicate (length (logs cfg)) ""%string.

Lemma nCommitted_spec ms n cfg index :
  logs_are ms n cfg → no_apply_errors cfg → agree ms → 
  ∃ D cmd, nCommitted index cfg = passes (len D, cmd) ∧ NoDup D
    ∧ (∀ i, i ∈ D ↔ 0 ≤ i < n ∧ ∃ c, delivered ms i index c)
    ∧ (∀ i c, 0 ≤ i < n → delivered ms i index c → c = cmd).
Proof.
  intros [Hlen Hlog] [Hrafts Herr] Ha. unfold nCommitted. rewrite Hrafts, Hlen.
  destruct (foldT_total (λ pre acc, ∃ D, acc.1 = len D ∧ NoDup D ∧ (∀ i, i ∈ D ↔ i ∈ pre ∧ ∃ c, delivered ms i index c)
    ∧ (∀ i c, i ∈ pre → delivered ms i index c → c = acc.2))
    (nCommitted_turn index cfg) (0, INil) (seqZ 0 n)) as ([count cmd] & Hf & D & HD & Hnd & Hin & Hcmd).
  - exists []. split_and!; [done|constructor|set_solver|set_solver].
  - intros pre i rest [count cmd] Hl (D & HD & Hnd & Hin & Hcmd). simpl in HD, Hcmd.
    assert (i ∈ seqZ 0 n) as Hi by (rewrite Hl; apply elem_of_app; right; left).
    assert (i ∉ pre) as Hnew.
    { pose proof (NoDup_seqZ 0 n) as Hdup. rewrite Hl in Hdup. apply list.NoDup_app in Hdup as (_ & Hdup & _).
      intros Hp. apply (Hdup i Hp). left. }
    apply elem_of_seqZ in Hi. unfold nCommitted_turn.
    assert ((applyErr cfg).[i] = Some ""%string) as ->.
    { rewrite Herr. unfold slice_get. rewrite (proj2 (Z.leb_le 0 i)) by lia. apply lookup_replicate_2. lia. }
    simpl. destruct (slice_get_lt (logs cfg) i) as [log Hli]; [lia|]. rewrite Hli. simpl.
    destruct (log !! index) as [cmd1|] eqn:Hc.
    + apply (Hlog i log) in Hc; [|done].
      assert ((count >? 0) && bool_decide (cmd ≠ cmd1) = false) as ->.
      { destruct (Z.gtb_spec count 0); [|done]. simpl. apply bool_decide_eq_false. intros Hne. apply Hne.
        destruct D as [|j D]; [simpl in HD; lia|]. destruct (Hin j) as [[Hj [c Hd]] _]; [left|].
        rewrite <-(Hcmd j c Hj Hd). by eapply Ha. }
      eexists. split; [done|]. exists (D ++ [i]). simpl. split_and!.
      * rewrite length_app. simpl. lia.
      * apply list.NoDup_app. split_and!; [done| |apply NoDup_singleton].
        intros j Hj ->%list_elem_of_singleton. apply Hin in Hj as [? _]. done.
      * intros j. rewrite !elem_of_app, !list_elem_of_singleton, Hin. split; [|naive_solver].
        intros [[? ?]| ->]; [by auto|]. split; [by right|by exists cmd1].
      * intros j c _ Hd. by eapply Ha.
    + eexists. split; [done|]. exists D. simpl.
      assert (¬ ∃ c, delivered ms i index c) as Hno.
      { intros [c Hd]. apply (Hlog i log) in Hd; [congruence|done]. }
      split_and!; [done..| |].
      * intros j. rewrite Hin, elem_of_app, list_elem_of_singleton. split; [naive_solver|].
        intros [[?| ->] Hd]; [done|by destruct Hno].
      * intros j c [Hj| ->%list_elem_of_singleton]%elem_of_app Hd; [by eapply Hcmd|]. destruct Hno. eauto.
  - exists D, cmd. rewrite Hf. simpl in HD. rewrite HD. split_and!; [done..| |].
    + intros i. rewrite Hin, elem_of_seqZ. split; intros [? ?]; (split; [lia|done]).
    + intros i c Hi. apply Hcmd. apply elem_of_seqZ. lia.
Qed.

Lemma read_apply_errors i m cfg cfg' :
  read_apply i m cfg = Some (inr cfg') → applyErr cfg' = applyErr cfg ∧ rafts cfg' = rafts cfg ∧ length (logs cfg') = length (logs cfg).
Proof.
  unfold read_apply. destruct (CommandValid m); [|by intros [= <-]].
  destruct ((logs cfg).[i]); simpl; [|done]. destruct (slice_set (logs cfg) i _) eqn:Hs; simpl; [|done].
  destruct (if (CommandIndex m >? 1) && _ then _ else _); [done|]. intros [= <-]. apply slice_set_length in Hs.
  by destruct (CommandIndex m >? maxIndex cfg).
Qed.

Lemma read_all_errors ms cfg cfg' : read_all ms cfg = Some (inr cfg') → no_apply_errors cfg → no_apply_errors cfg'.
Proof.
  revert cfg'. induction ms as [|[i m] ms IH] using rev_ind; intros cfg'; [by intros [= <-]|].
  rewrite read_all_snoc. destruct (read_all ms cfg) as [[|cfg1]|]; [done| |done]. intros Hr Hno.
  destruct (IH _ eq_refl Hno) as [Hl He]. destruct (read_apply_errors _ _ _ _ Hr) as (Her & Hra & Hll).
  split; rewrite ?Her, ?Hra, ?Hll; done.
Qed.

(** ** Leaders *)

Implicit Types (hps : Z → list (Raft C)).

(** Server [i], being connected, says when asked that it leads term [t]. *)
Definition leads cfg hps (t i : Z) : Prop :=
  (connected cfg).[i] = Some true ∧ get_state cfg (hps i) i = Some (t, true).

(** The connected servers run, in terms that are not negative. *)
Definition can_ask cfg hps : Prop :=
  ∀ i, (connected cfg).[i] = Some true → ∃ t b, get_state cfg (hps i) i = Some (t, b) ∧ 0 ≤ t.

Lemma connected_range cfg i : len (connected cfg) = cfg_n cfg → (connected cfg).[i] = Some true → i ∈ seqZ 0 (cfg_n cfg).
Proof. intros Hl Hi. assert (is_Some (connected cfg).[i]) as Hs by eauto. apply slice_get_is_Some in Hs. apply elem_of_seqZ. lia. Qed.

Lemma collect_leaders_spec cfg hps :
  len (connected cfg) = cfg_n cfg → can_ask cfg hps →
  ∃ m : gmap Z (list Z), collect_leaders cfg hps = Some m
    ∧ ∀ t, match m !! t with
           | Some ls => ls ≠ [] ∧ NoDup ls ∧ ∀ i, i ∈ ls ↔ leads cfg hps t i
           | None => ∀ i, ¬ leads cfg hps t i
           end.
Proof.
  intros Hlen Hask. unfold collect_leaders. set (f := λ (leaders : gmap Z (list Z)) (i : Z), _).
  destruct (foldM_total (λ pre (m : gmap Z (list Z)), ∀ t, match m !! t with
           | Some ls => ls ≠ [] ∧ NoDup ls ∧ ∀ i, i ∈ ls ↔ i ∈ pre ∧ leads cfg hps t i
           | None => ∀ i, i ∈ pre → ¬ leads cfg hps t i
           end) f ∅ (seqZ 0 (cfg_n cfg))) as (m & Hm & HP).
  - intros t. rewrite lookup_empty. by intros i ?%elem_of_nil.
  - intros pre i rest m Hl HP. assert (i ∈ seqZ 0 (cfg_n cfg)) as Hi by (rewrite Hl; apply elem_of_app; right; left).
    assert (i ∉ pre) as Hnew.
    { pose proof (NoDup_seqZ 0 (cfg_n cfg)) as Hdup. rewrite Hl in Hdup. apply list.NoDup_app in Hdup as (_ & Hdup & _).
      intros Hp. apply (Hdup i Hp). left. }
    apply elem_of_seqZ in Hi. destruct (slice_get_lt (connected cfg) i) as [c Hc]; [lia|]. unfold f. rewrite Hc. simpl.
    assert (∀ m' : gmap Z (list Z), m' = m → (∀ t, ¬ leads cfg hps t i) → ∀ t, match m' !! t with
           | Some ls => ls ≠ [] ∧ NoDup ls ∧ ∀ j, j ∈ ls ↔ j ∈ pre ++ [i] ∧ leads cfg hps t j
           | None => ∀ j, j ∈ pre ++ [i] → ¬ leads cfg hps t j
           end) as Hskip.
    { intros m' -> Hno t. specialize (HP t). destruct (m !! t) as [ls|].
      - destruct HP as (Hne & Hnd & Hin). split_and!; [done..|]. intros j.
        rewrite Hin, elem_of_app, list_elem_of_singleton. split; [naive_solver|]. intros [[?| ->] ?]; [done|]. by destruct (Hno t).
      - intros j [Hj| ->%list_elem_of_singleton]%elem_of_app; [by apply HP|done]. }
    destruct c; [|eexists; split; [done|]; apply Hskip; [done|]; intros t [Ht _]; congruence].
    destruct (Hask i Hc) as (t & b & Hst & _). rewrite Hst. simpl. eexists. split; [done|].
    destruct b; [|apply Hskip; [done|]; intros t' [_ Ht']; congruence].
    assert (∀ t', leads cfg hps t' i ↔ t' = t) as Hleads.
    { intros t'. split; [intros [_ ?]; congruence|]. intros ->. done. }
    intros t'. destruct (decide (t' = t)) as [->|Hne].
    + rewrite lookup_insert_eq. specialize (HP t). split_and!; [by destruct (m !! t) as [[]|]| |].
      * apply list.NoDup_app. split_and!; [destruct (m !! t); [apply HP|constructor]| |apply NoDup_singleton].
        intros j Hj ->%list_elem_of_singleton. destruct (m !! t); [|by apply elem_of_nil in Hj]. apply HP in Hj as [? _]. done.
      * intros j. rewrite !elem_of_app, !list_elem_of_singleton. destruct (m !! t) as [ls|]; simpl.
        -- destruct HP as (_ & _ & Hin). rewrite Hin. specialize (Hleads t). naive_solver.
        -- split; [intros [Hj| ->]; [by apply elem_of_nil in Hj|]|intros [[Hj| ->] Hlj]; [by destruct (HP j Hj)|by right]].
           split; [by right|by apply Hleads].
    + rewrite lookup_insert_ne by done. specialize (HP t'). destruct (m !! t') as [ls|].
      * destruct HP as (Hls & Hnd & Hin). split_and!; [done..|]. intros j.
        rewrite Hin, elem_of_app, list_elem_of_singleton. split; [naive_solver|]. intros [[?| ->] ?]; [done|]. by destruct (proj1 (Hleads t') ltac:(done)).
      * intros j [Hj| ->%list_elem_of_singleton]%elem_of_app; [by apply HP|]. intros Hl'. by apply Hleads in Hl'.
  - exists m. split; [done|]. intros t. specialize (HP t). destruct (m !! t) as [ls|].
    + destruct HP as (Hne & Hnd & Hin). split_and!; [done..|]. intros i. rewrite Hin. split; [by intros [_ ?]|].
      intros Hl. split; [|done]. apply connected_range; [done|apply Hl].
    + intros i Hl. apply (HP i); [|done]. apply connected_range; [done|apply Hl].
Qed.

(** The visit of the map. *)
Lemma last_term_spec visit last :
  (∃ t ls, (t, ls) ∈ visit ∧ 1 < len ls ∧ last_term (C := C) visit last = Fatalf (TermLeaders t (len ls)))
  ∨ (∀ t ls, (t, ls) ∈ visit → len ls ≤ 1)
    ∧ ∃ r, last_term (C := C) visit last = passes r ∧ last ≤ r ∧ (r = last ∨ r ∈ visit.*1) ∧ ∀ t, t ∈ visit.*1 → t ≤ r.
Proof.
  revert last. induction visit as [|[t ls] visit IH]; intros last; simpl.
  { right. split; [by intros ?? ?%elem_of_nil|]. exists last. split_and!; [done|lia|by left|by intros ? ?%elem_of_nil]. }
  destruct (Z.gtb_spec (len ls) 1) as [Hgt|Hle]; [left; exists t, ls; split_and!; [left|lia|done]|].
  destruct (IH (if t >? last then t else last)) as [(t' & ls' & Hin & Hl & Heq)|[Hall (r & Hr & Hge & Hor & Hmax)]].
  - left. exists t', ls'. split_and!; [by right|done|done].
  - right. split; [intros t' ls' [[= -> ->]|Hin]%elem_of_cons; [lia|by eapply Hall]|].
    exists r. rewrite Z.gtb_ltb in *. split_and!; [done| | |].
    + destruct (Z.ltb_spec last t); lia.
    + destruct Hor as [->|?]; [|by right; right]. destruct (Z.ltb_spec last t); [right; left|by left].
    + intros t' [->|Hin]%elem_of_cons; [|by apply Hmax]. destruct (Z.ltb_spec last t); lia.
Qed.

(** What [checkOneLeader] may say of its rounds. *)
Definition leader_answer cfg (rounds : list (Z → list (Raft C))) (a : Failure C + Z) : Prop :=
  match a with
  | inr l => ∃ k hps t, rounds !! k = Some hps ∧ leads cfg hps t l
      ∧ (∀ t' i, leads cfg hps t' i → t' ≤ t ∧ (t' = t → i = l))
      ∧ ∀ k' hps' t' i, (k' < k)%nat → rounds !! k' = Some hps' → ¬ leads cfg hps' t' i
  | inl NoLeader => ∀ hps t i, hps ∈ rounds → ¬ leads cfg hps t i
  | inl (TermLeaders t _) => ∃ hps i j, hps ∈ rounds ∧ i ≠ j ∧ leads cfg hps t i ∧ leads cfg hps t j
  | inl _ => False
  end.

Lemma leader_answer_cons cfg hps rounds a :
  (∀ t i, ¬ leads cfg hps t i) → leader_answer cfg rounds a → leader_answer cfg (hps :: rounds) a.
Proof.
  intros Hno. destruct a as [[]|l]; simpl; try done.
  - intros (h & i & j & Hin & ?). exists h, i, j. split; [by right|done].
  - intros Hall h t i [->|Hin]%elem_of_cons; [done|by apply Hall].
  - intros (k & h & t & Hk & Hl & Hmax & Hbefore). exists (S k), h, t. split_and!; [done..|].
    intros [|k'] h' t' i Hlt Hk'; [injection Hk' as <-; done|]. eapply Hbefore; [|done]. lia.
Qed.

Section rounds.
Variable order : RangeOrder.
Hypothesis order_perm : ∀ leaders, order leaders ≡ₚ map_to_list leaders.

Lemma order_elem (leaders : gmap Z (list Z)) t ls : (t, ls) ∈ order leaders ↔ leaders !! t = Some ls.
Proof. by rewrite order_perm, elem_of_map_to_list. Qed.

Lemma leader_rounds_spec cfg rounds :
  len (connected cfg) = cfg_n cfg → (∀ hps, hps ∈ rounds → can_ask cfg hps) →
  ∃ a, leader_rounds order cfg rounds = Some a ∧ leader_answer cfg rounds a.
Proof.
  intros Hlen. induction rounds as [|hps rounds IH]; intros Hask.
  { exists (inl NoLeader). split; [done|]. by intros ??? ?%elem_of_nil. }
  destruct (collect_leaders_spec cfg hps Hlen) as (leaders & Hl & Hspec); [apply Hask; left|].
  cbn [leader_rounds]. rewrite Hl, lift_bind.
  assert (∀ t ls, (t, ls) ∈ order leaders → ls ≠ [] ∧ NoDup ls ∧ ∀ i, i ∈ ls ↔ leads cfg hps t i) as Hls.
  { intros t ls Hin%order_elem. specialize (Hspec t). by rewrite Hin in Hspec. }
  destruct (last_term_spec (order leaders) (-1)) as [(t & ls & Hin & Hlt & ->)|[Hone (r & -> & _ & Hr & Hmax)]].
  { eexists. split; [done|]. destruct (Hls t ls Hin) as (_ & Hnd & Hm).
    destruct ls as [|i [|j ls]]; [simpl in Hlt; lia..|]. exists hps, i, j. split_and!; [left| |apply Hm; left|apply Hm; right; left].
    apply list.NoDup_cons in Hnd as [Hni _]. intros ->. apply Hni. left. }
  rewrite passes_bind. destruct (bool_decide_reflect (leaders = ∅)) as [->|Hne].
  { destruct IH as (a & Ha & Hans); [intros h Hin; apply Hask; by right|]. exists a. split; [done|].
    apply leader_answer_cons; [|done]. intros t i. specialize (Hspec t). rewrite lookup_empty in Hspec. apply Hspec. }
  assert (∃ ls, (r, ls) ∈ order leaders) as [ls Hin].
  { destruct Hr as [->|([t ls] & -> & Hin)%list_elem_of_fmap]; [|by exists ls].
    apply map_choose in Hne as (t & ls & Hin). apply order_elem in Hin. destruct (Hls t ls Hin) as (Hn & _ & Hm).
    assert (t ≤ -1) as Ht by (apply Hmax, list_elem_of_fmap; by exists (t, ls)).
    destruct ls as [|i ls]; [done|]. destruct (proj1 (Hm i) ltac:(left)) as [Hc Hg].
    destruct (Hask hps ltac:(left) i Hc) as (t' & b & Hg' & Ht'). rewrite Hg in Hg'. injection Hg' as <- _. lia. }
  pose proof (proj1 (order_elem _ _ _) Hin) as Hlook. rewrite Hlook. simpl.
  destruct (Hls r ls Hin) as (Hn & _ & Hm). specialize (Hone r ls Hin). destruct ls as [|l [|j ls]]; [done| |simpl in Hone; lia].
  exists (inr l). split; [done|]. exists 0%nat, hps, r. split_and!; [done|apply Hm; left| |by intros; lia].
  intros t' i Hi. specialize (Hspec t'). destruct (leaders !! t') as [ls'|] eqn:Ht'; [|by destruct (Hspec i)].
  split.
  - apply Hmax, list_elem_of_fmap. exists (t', ls'). split; [done|by apply order_elem].
  - intros ->. rewrite Hlook in Ht'. injection Ht' as <-. apply Hm in Hi. by apply list_elem_of_singleton in Hi.
Qed.
End rounds.

(** ** Terms and agreement *)

Lemma checkTerms_agree cfg hps t :
  len (connected cfg) = cfg_n cfg → can_ask cfg hps → checkTerms cfg hps = passes t →
  (∀ i, (connected cfg).[i] = Some true → ∃ b, get_state cfg (hps i) i = Some (t, b))
  ∧ (t = -1 → ∀ i, (connected cfg).[i] ≠ Some true).
Proof.
  intros Hlen Hask. unfold checkTerms.
  assert (∀ pre t, (∀ i, i ∈ pre → i ∈ seqZ 0 (cfg_n cfg)) → foldT (terms_turn cfg hps) (-1) pre = passes t →
    -1 ≤ t ∧ (∀ i, i ∈ pre → (connected cfg).[i] = Some true → ∃ b, get_state cfg (hps i) i = Some (t, b))
    ∧ (t = -1 → ∀ i, i ∈ pre → (connected cfg).[i] ≠ Some true)) as Hpre.
  { induction pre as [|i pre IH] using rev_ind; intros t' Hin.
    { intros [= <-]. split; [lia|]. split; [by intros ? ?%elem_of_nil|by intros _ ? ?%elem_of_nil]. }
    rewrite foldT_snoc. destruct (foldT _ _ pre) as [[|t0]|]; [done| |done]. cbn [mbind test_bind].
    destruct (IH t0) as (Hge & Hall & Hnone); [intros j Hj; apply Hin, elem_of_app; by left|done|].
    assert (i ∈ seqZ 0 (cfg_n cfg)) as Hi by (apply Hin, elem_of_app; right; left). apply elem_of_seqZ in Hi.
    unfold terms_turn. destruct (slice_get_lt (connected cfg) i) as [c Hc]; [lia|]. rewrite Hc, lift_bind.
    destruct c.
    - destruct (Hask i Hc) as (x & b & Hx & Hx0). rewrite Hx, lift_bind.
      destruct (Z.eqb_spec t0 (-1)) as [->|Hne].
      + intros [= <-]. split_and!; [lia| |lia]. intros j [Hj| ->%list_elem_of_singleton]%elem_of_app Hcj; [|by exists b].
        by destruct (Hnone eq_refl j Hj).
      + destruct (Z.eqb_spec t0 x) as [->|]; [|done]. intros [= <-]. split_and!; [lia| |lia].
        intros j [Hj| ->%list_elem_of_singleton]%elem_of_app Hcj; [by apply Hall|by exists b].
    - intros [= <-]. split_and!; [done| |].
      + intros j [Hj| ->%list_elem_of_singleton]%elem_of_app Hcj; [by apply Hall|congruence].
      + intros Ht j [Hj| ->%list_elem_of_singleton]%elem_of_app; [by apply Hnone|congruence]. }
  intros Hc. destruct (Hpre (seqZ 0 (cfg_n cfg)) t) as (_ & Hall & Hnone); [done..|].
  split.
  - intros i Hi. apply Hall; [by apply connected_range|done].
  - intros Ht i Hi. by apply (Hnone Ht i); [apply connected_range|].
Qed.

Lemma checkNoLeader_passes cfg hps :
  len (connected cfg) = cfg_n cfg → can_ask cfg hps →
  (checkNoLeader cfg hps = passes () ∧ ∀ t i, ¬ leads cfg hps t i)
  ∨ ∃ t i, checkNoLeader cfg hps = Fatalf (ClaimsLeader i) ∧ leads cfg hps t i.
Proof.
  intros Hlen Hask. unfold checkNoLeader.
  assert (∀ pre, (∀ i, i ∈ pre → i ∈ seqZ 0 (cfg_n cfg)) →
    (foldT (noLeader_turn cfg hps) () pre = passes () ∧ ∀ t i, i ∈ pre → ¬ leads cfg hps t i)
    ∨ ∃ t i, foldT (noLeader_turn cfg hps) () pre = Fatalf (ClaimsLeader i) ∧ leads cfg hps t i) as Hpre.
  { induction pre as [|i pre IH] using rev_ind; intros Hin; [left; split; [done|by intros ?? ?%elem_of_nil]|].
    rewrite foldT_snoc.
    destruct IH as [[-> Hno]|(t & j & -> & Hj)]; [intros j Hj; apply Hin, elem_of_app; by left| |right; by exists t, j].
    rewrite passes_bind.
    assert (i ∈ seqZ 0 (cfg_n cfg)) as Hi by (apply Hin, elem_of_app; right; left). apply elem_of_seqZ in Hi.
    unfold noLeader_turn. destruct (slice_get_lt (connected cfg) i) as [c Hc]; [lia|]. rewrite Hc, lift_bind.
    destruct c.
    - destruct (Hask i Hc) as (x & b & Hx & Hx0). rewrite Hx, lift_bind. destruct b; [right; by exists x, i|left].
      split; [done|]. intros t j [Hj| ->%list_elem_of_singleton]%elem_of_app; [by apply Hno|]. intros [_ ?]. congruence.
    - left. split; [done|]. intros t j [Hj| ->%list_elem_of_singleton]%elem_of_app; [by apply Hno|]. intros [? _]. congruence. }
  destruct (Hpre (seqZ 0 (cfg_n cfg))) as [[-> Hno]|?]; [done| |by right].
  left. split; [done|]. intros t i Hl. apply (Hno t i); [|done]. apply connected_range; [done|apply Hl].
Qed.

Lemma submit_index tries k cfg starts answer index starts' :
  submit tries k cfg starts answer = Some (index, starts') → index ≠ -1 →
  ∃ k' term, answer k' = (index, term, true) ∧ (connected cfg).[starts'] = Some true ∧ ∃ a, (rafts cfg).[starts'] = Some (Some a).
Proof.
  revert k starts. induction tries as [|tries IH]; intros k starts; simpl; [by intros [= <- <-]|].
  set (s := Z.rem (starts + 1) (cfg_n cfg)). destruct ((connected cfg).[s]) as [c|] eqn:Hc; simpl; [|done].
  destruct c; simpl; [|apply IH]. destruct ((rafts cfg).[s]) as [[a|]|] eqn:Hr; simpl; [|apply IH|done].
  destruct (answer k) as [[index1 term] []] eqn:Ha; [|apply IH]. intros [= <- <-] _. exists k, term. eauto.
Qed.

Lemma poll_agrees cmd index expectedServers polls :
  poll cmd index expectedServers polls = passes true →
  ∃ cfg nd, cfg ∈ polls ∧ nCommitted index cfg = passes (nd, cmd) ∧ 0 < nd ∧ expectedServers ≤ nd.
Proof.
  induction polls as [|cfg polls IH]; simpl; [done|].
  destruct (nCommitted index cfg) as [[|[nd cmd1]]|] eqn:Hn; [done| |done]. cbn [mbind test_bind].
  destruct ((nd >? 0) && (nd >=? expectedServers) && bool_decide (cmd1 = cmd)) eqn:Hb.
  - intros _. rewrite !andb_true_iff, Z.gtb_lt, Z.geb_le, bool_decide_eq_true in Hb. destruct Hb as [[? ?] ->].
    exists cfg, nd. split_and!; [left|done..].
  - intros Hp. destruct (IH Hp) as (c & n & ? & ?). exists c, n. split; [by right|done].
Qed.

(** ** Properties *)

(** C31. The reader of applied commands is exact: whatever servers deliver and in whatever
    order they are read, it exits unless all servers deliver the same command at an index
    and each delivers an index only after the one before; and while it has not exited,
    [nCommitted] returns, for every index, how many servers have delivered it, and their
    command. *)
Theorem apply_reader_exact n cfg ms :
  logs_are [] n cfg → no_apply_errors cfg → (∀ i m, (i, m) ∈ ms → 0 ≤ i < n) →
  ∃ r, read_all ms cfg = Some r ∧ ((∃ cfg', r = inr cfg') ↔ agree ms ∧ in_sequence ms)
    ∧ ∀ cfg', r = inr cfg' → ∀ index, ∃ D cmd, nCommitted index cfg' = passes (len D, cmd) ∧ NoDup D
        ∧ (∀ i, i ∈ D ↔ 0 ≤ i < n ∧ ∃ c, delivered ms i index c)
        ∧ (∀ i c, 0 ≤ i < n → delivered ms i index c → c = cmd).
Proof.
  intros Hlogs Herr Hrange. destruct (read_all_spec n cfg ms Hlogs Hrange) as (r & Hr & Hare & Hiff).
  exists r. split_and!; [done..|]. intros cfg' -> index. destruct (proj1 Hiff) as [Ha _]; [eauto|].
  apply nCommitted_spec; [by apply Hare| |done]. by eapply read_all_errors.
Qed.

(** The tests find the leader they look for: while the peers run as [RaftCluster] lets
    them, being asked one after the other, [checkOneLeader] never fails with two leaders of
    one term.  It returns a connected server that led when it was asked, in a term newer
    than that of any other that led then; or none led in any of the ten rounds. *)
Theorem checkOneLeader_finds_newest (order : RangeOrder) cfg (hps : nat → Z → list (Raft C)) (st : nat → Z → Cluster C) :
  (∀ leaders, order leaders ≡ₚ map_to_list leaders) →
  0 < cfg_n cfg → len (connected cfg) = cfg_n cfg →
  (∀ k, reachable (cfg_n cfg) (st k 0)) → (∀ k i j, i ≤ j → rtc (cluster_step (cfg_n cfg)) (st k i) (st k j)) →
  (∀ k i, (connected cfg).[i] = Some true →
     ∃ rf, RaftCluster.servers (st k i) !! i = Some rf ∧ get_state cfg (hps k i) i = Some (GetState rf)) →
  (∃ l k t, checkOneLeader order cfg hps = passes l ∧ (k < 10)%nat ∧ leads cfg (hps k) t l
      ∧ ∀ t' i, leads cfg (hps k) t' i → i = l ∨ t' < t)
  ∨ checkOneLeader order cfg hps = Fatalf NoLeader ∧ ∀ k t i, (k < 10)%nat → ¬ leads cfg (hps k) t i.
Proof.
  intros Hperm Hn Hlen Hreach Hsteps Hviews.
  assert (∀ k i, (connected cfg).[i] = Some true → reachable (cfg_n cfg) (st k i)) as Hreach'.
  { intros k i Hi%connected_range; [|done]. apply elem_of_seqZ in Hi. destruct (Hreach k) as (s0 & Hs0 & Hs).
    exists s0. split; [done|]. etrans; [exact Hs|]. apply Hsteps. lia. }
  assert (∀ k, can_ask cfg (hps k)) as Hask.
  { intros k i Hi. destruct (Hviews k i Hi) as (rf & Hrf & ->). exists (currentTerm rf), (bool_decide (state rf = LEADER)).
    split; [done|]. by eapply reachable_terms; [apply Hreach'|]. }
  assert (∀ k t i j, leads cfg (hps k) t i → leads cfg (hps k) t j → i ≤ j → i = j) as Hone.
  { intros k t i j [Hi Hgi] [Hj Hgj] Hij. destruct (Hviews k i Hi) as (rfi & Hri & Hvi), (Hviews k j Hj) as (rfj & Hrj & Hvj).
    rewrite Hvi in Hgi. rewrite Hvj in Hgj. injection Hgi as Hti Hli%bool_decide_eq_true. injection Hgj as Htj Hlj%bool_decide_eq_true.
    apply (one_leader_per_term (cfg_n cfg) (st k i) (st k j) i j rfi rfj Hn); auto. congruence. }
  destruct (leader_rounds_spec order Hperm cfg (hps <$> seq 0 10) Hlen) as (a & Ha & Hans).
  { by intros h (k & -> & _)%list_elem_of_fmap. }
  unfold checkOneLeader. rewrite Ha. destruct a as [[]|l]; cbn [leader_answer] in Hans; try done.
  - exfalso. destruct Hans as (h & i & j & (k' & -> & _)%list_elem_of_fmap & Hne & Hi & Hj).
    destruct (Z.le_ge_cases i j); [by apply Hne, (Hone k' term)|apply Hne; symmetry; by apply (Hone k' term)].
  - right. split; [done|]. intros k t i Hk. apply (Hans (hps k) t i). apply list_elem_of_fmap. exists k. split; [done|].
    apply elem_of_seq. lia.
  - left. destruct Hans as (k & h & t & Hk & Hl & Hmax & _). apply list_lookup_fmap_Some in Hk as (k' & -> & Hk').
    apply lookup_seq in Hk' as [-> Hk']. exists l, (0 + k)%nat, t. split_and!; [done|lia|done|].
    intros t' i Hi. destruct (Hmax t' i Hi) as [Hle Heq]. destruct (decide (t' = t)) as [->|]; [left; by apply Heq|right; lia].
Qed.

(** [one] returns an index that a connected server gave as the leader, and at which, at one
    of the polls, as many servers as were expected had delivered the command. *)
Lemma one_agrees cmd expectedServers retry turns index :
  one cmd expectedServers retry turns = passes index →
  ∃ t, t ∈ turns
    ∧ (∃ k term, t_answer t k = (index, term, true))
    ∧ ∃ cfg nd, cfg ∈ t_polls t ∧ nCommitted index cfg = passes (nd, cmd) ∧ 0 < nd ∧ expectedServers ≤ nd.
Proof.
  unfold one. generalize 0 at 1 as starts. induction turns as [|t turns IH]; intros starts; simpl; [done|].
  assert (∀ starts, one_loop cmd expectedServers retry turns starts = passes index →
    ∃ t', t' ∈ t :: turns ∧ (∃ k term, t_answer t' k = (index, term, true))
      ∧ ∃ cfg nd, cfg ∈ t_polls t' ∧ nCommitted index cfg = passes (nd, cmd) ∧ 0 < nd ∧ expectedServers ≤ nd) as Hrest.
  { intros starts' Hone. destruct (IH starts' Hone) as (t' & Hin & ?). exists t'. split; [by right|done]. }
  destruct (submit _ _ _ _ _) as [[index0 starts']|] eqn:Hs; [|done]. rewrite lift_bind.
  destruct (Z.eqb_spec index0 (-1)) as [|Hne]; simpl; [apply Hrest|].
  destruct (poll cmd index0 expectedServers (t_polls t)) as [[|agreed]|] eqn:Hp; [done| |done]. cbn [mbind test_bind].
  destruct agreed.
  - intros [= ->]. exists t. split; [left|]. split; [|by apply poll_agrees].
    destruct (submit_index _ _ _ _ _ _ _ Hs Hne) as (k & term & ? & _). eauto.
  - destruct retry; simpl; [apply Hrest|]. destruct (nCommitted index0 (t_last t)) as [[|[nd cmd1]]|]; done.
Qed.
End checks.

(** ** Witnesses *)
Module ChecksDemo.
Import ZeroRand CountableCodec.

(** Three servers, all connected; the peers are those of [ClusterDemo.s5]. *)
Definition cfg : config Z nat nat :=
  MkConfig new_network 3 [Some 0; Some 1; Some 2]%nat (replicate 3 ""%string) (replicate 3 true) (replicate 3 SNil)
    (replicate 3 None) (replicate 3 ∅) 0 0 0 0 0 [] [].
Definition heap : list (Raft Z) :=
  (λ i, default RaftDemo.dummy (RaftCluster.servers ClusterDemo.s5 !! i)) <$> [0; 1; 2].
Definition visit : RangeOrder := map_to_list.

Definition msg (index : Z) (c : Z) : ApplyMsg Z := MkApplyMsg true (ICmd c) index.
Definition delivery : list (Z * ApplyMsg Z) := [(0, msg 1 7); (1, msg 1 7); (0, msg 2 8)].

Lemma views i : (connected cfg).[i] = Some true →
  ∃ rf, RaftCluster.servers ClusterDemo.s5 !! i = Some rf ∧ get_state cfg heap i = Some (GetState rf).
Proof.
  intros Hi. assert (i = 0 ∨ i = 1 ∨ i = 2) as Hcases.
  { assert (is_Some (connected cfg).[i]) as Hs by eauto. apply slice_get_is_Some in Hs. simpl in Hs. lia. }
  destruct Hcases as [->|[->| ->]]; eexists; split; vm_compute; reflexivity.
Qed.

Lemma leader : (λ a, match a with inr l => Some l | inl _ => None end) <$> checkOneLeader visit cfg (λ _ _, heap) = Some (Some 0).
Proof. vm_compute. reflexivity. Qed.

Lemma logs_empty : logs_are [] 3 cfg.
Proof.
  split; [done|]. intros i log index c Hi%slice_get_elem. apply elem_of_replicate in Hi as [-> _].
  rewrite lookup_empty. split; [done|]. by intros (m & ?%elem_of_nil & _).
Qed.

Lemma accepted : is_Some (read_all delivery cfg ≫= λ r, match r with inr c => Some c | inl _ => None end).
Proof. vm_compute. by eexists. Qed.
End ChecksDemo.

Import ZeroRand CountableCodec.

(** Peer 0 leads term 1. *)
Lemma checkOneLeader_finds_newest_witness :
  ∃ t, leads ChecksDemo.cfg (λ _, ChecksDemo.heap) t 0 ∧ ∀ t' i, leads ChecksDemo.cfg (λ _, ChecksDemo.heap) t' i → i = 0 ∨ t' < t.
Proof.
  destruct (checkOneLeader_finds_newest ChecksDemo.visit ChecksDemo.cfg (λ _ _, ChecksDemo.heap) (λ _ _, ClusterDemo.s5)
    (λ _, Permutation_refl _) eq_refl eq_refl (λ _, ClusterDemo.s5_reachable) (λ _ _ _ _, rtc_refl _ _)
    (λ _ i Hi, ChecksDemo.views i Hi)) as [(l & k & t & Hl & _ & Hlead & Hmax)|[Hno _]].
  - pose proof ChecksDemo.leader as Hr. rewrite Hl in Hr. injection Hr as ->. exists t. split; [exact Hlead|exact Hmax].
  - exfalso. pose proof ChecksDemo.leader as Hr. rewrite Hno in Hr. discriminate Hr.
Defined.

(** Two servers deliver 7 at index 1: the reader goes on, and counts them. *)
Lemma apply_reader_exact_witness :
  agree ChecksDemo.delivery ∧ in_sequence ChecksDemo.delivery.
Proof.
  destruct (apply_reader_exact 3 ChecksDemo.cfg ChecksDemo.delivery ChecksDemo.logs_empty) as (r & Hr & Hiff & _).
  - split; reflexivity.
  - intros i m Hin. repeat (apply elem_of_cons in Hin as [[= -> _]|Hin]; [lia|]). by apply elem_of_nil in Hin.
  - apply Hiff. pose proof ChecksDemo.accepted as Ha. rewrite Hr in Ha. simpl in Ha.
    destruct r as [e|c]; [destruct Ha as [? Ha]; discriminate Ha|exists c; reflexivity].
Defined.
