(* ===== verification/ServiceHarness.v ===== *)
(** * The test harnesses of the replicated services ([kvraft/config.go], [shardmaster/config.go])

    The two files have the same functions around different servers: here they are stated
    for any server on top of a Raft peer, [Replicated], of which the key/value server and
    the shardmaster are instances ([KvHarness]).  The tests start and shut down servers,
    connect and disconnect them link by link, cut the cluster in two with the leader on the
    smaller side, and make clerks with their servers in random order. *)
From S2P Require Import Prelude RaftState LabRpc HarnessNet RaftHarness HarnessRoute.

(** What the harness needs of a server with its peer: the persister they write to, the
    peer's [GetState], and [Kill]. *)
Class Replicated (Inst : Type) := {
  inst_persister : Inst → Persister;
  inst_GetState : Inst → Z * bool;
  inst_Kill : Inst → option Inst
}.

(** Servers and clerks have an address, the place where they are in [sc_heap] and
    [sc_cks], counted in the order of creation; of a clerk only the ends it was made with,
    in their order. *)
Record SvcConfig (Inst V W : Type) := MkSvc {
  sc_net : @Network IName IName_eq_dec IName_countable;
  sc_n : Z;
  sc_servers : list (option nat);
  sc_saved : list Saved;
  sc_endnames : list (option (list string));
  sc_clerks : gmap nat (list string);
  sc_nextClientId : Z;
  sc_rpcs0 : Z;
  sc_ops : Z;
  sc_heap : list Inst;
  sc_srvs : list (Server (V := V) (W := W));
  sc_cks : list (list string)
}.
Arguments MkSvc {Inst V W}. Arguments sc_net {Inst V W}. Arguments sc_n {Inst V W}. Arguments sc_servers {Inst V W}.
Arguments sc_saved {Inst V W}. Arguments sc_endnames {Inst V W}. Arguments sc_clerks {Inst V W}.
Arguments sc_nextClientId {Inst V W}. Arguments sc_rpcs0 {Inst V W}. Arguments sc_ops {Inst V W}.
Arguments sc_heap {Inst V W}. Arguments sc_srvs {Inst V W}. Arguments sc_cks {Inst V W}.
#[export] Instance SvcConfig_eta Inst V W : Eta (SvcConfig Inst V W) := λ c,
  MkSvc (sc_net c) (sc_n c) (sc_servers c) (sc_saved c) (sc_endnames c) (sc_clerks c) (sc_nextClientId c)
    (sc_rpcs0 c) (sc_ops c) (sc_heap c) (sc_srvs c) (sc_cks c).

(** [rnd i] is the draw [rand.Intn(i + 1)]. *)
Definition random_handles {A} (rnd : Z → Z) (kvh : list A) : option (list A) :=
  foldM (λ sa i, let j := rnd i in
    x ← sa.[j]; y ← sa.[i]; sa ← slice_set sa i x; slice_set sa j y) kvh (seqZ 0 (len kvh)).

Section service.
Context {Inst V W : Type} `{Replicated Inst}.
(** The server's constructor, [StartKVServer] or [StartServer], and [labrpc.MakeService] of
    the server and of its peer at an address. *)
Variable start_inst : Z → Z → Persister → option Inst.
Variable services_of : nat → Service (V := V) (W := W) * Service (V := V) (W := W).
Implicit Types (cfg : SvcConfig Inst V W) (i j : Z).

(** ** Sizes *)

(** A method of a nil persister panics. *)
Definition saved_persister cfg i : option Persister :=
  s ← (sc_saved cfg).[i];
  match s with
  | SNil => None
  | SOwn p => Some p
  | SRaft a => inst_persister <$> sc_heap cfg !! a
  end.

Definition LogSize cfg : option Z :=
  foldM (λ logsize i, p ← saved_persister cfg i;
    let n := RaftStateSize p in Some (if n >? logsize then n else logsize)) 0 (seqZ 0 (sc_n cfg)).

Definition SnapshotSize cfg : option Z :=
  foldM (λ snapshotsize i, p ← saved_persister cfg i;
    let n := RaftState.SnapshotSize p in Some (if n >? snapshotsize then n else snapshotsize)) 0 (seqZ 0 (sc_n cfg)).

(** ** Links *)

Definition connectUnlocked i (to : list Z) cfg : option (SvcConfig Inst V W) :=
  net ← enable_each (λ j, t ← to.[j]; Some <$> row_name (sc_endnames cfg) i t) true (seqZ 0 (len to)) (sc_net cfg);
  net ← enable_each (λ j, t ← to.[j]; Some <$> row_name (sc_endnames cfg) t i) true (seqZ 0 (len to)) net;
  Some (cfg <| sc_net := net |>).

(** The second loop looks for nil at index [j], not at [from[j]]. *)
Definition disconnectUnlocked i (from : list Z) cfg : option (SvcConfig Inst V W) :=
  net ← enable_each (λ j, row ← (sc_endnames cfg).[i]; t ← from.[j];
    if (row : option (list string)) is Some _ then Some <$> row_name (sc_endnames cfg) i t else Some None)
    false (seqZ 0 (len from)) (sc_net cfg);
  net ← enable_each (λ j, row ← (sc_endnames cfg).[j]; t ← from.[j];
    if (row : option (list string)) is Some _ then Some <$> row_name (sc_endnames cfg) t i else Some None)
    false (seqZ 0 (len from)) net;
  Some (cfg <| sc_net := net |>).

Definition connect i (to : list Z) cfg : option (SvcConfig Inst V W) := connectUnlocked i to cfg.
Definition disconnect i (from : list Z) cfg : option (SvcConfig Inst V W) := disconnectUnlocked i from cfg.

Definition All cfg : list Z := seqZ 0 (sc_n cfg).

Definition ConnectAll cfg : option (SvcConfig Inst V W) :=
  foldM (λ cfg i, connectUnlocked i (All cfg) cfg) cfg (seqZ 0 (sc_n cfg)).

Definition partition (p1 p2 : list Z) cfg : option (SvcConfig Inst V W) :=
  cfg ← foldM (λ cfg i, cfg ← disconnectUnlocked i p2 cfg; connectUnlocked i p1 cfg) cfg p1;
  foldM (λ cfg i, cfg ← disconnectUnlocked i p1 cfg; connectUnlocked i p2 cfg) cfg p2.

(** ** Clerks *)

Definition ConnectClientUnlocked (ck : nat) (to : list Z) cfg : option (SvcConfig Inst V W) :=
  let endnames := default [] (sc_clerks cfg !! ck) in
  net ← enable_each (λ t, Some <$> endnames.[t]) true to (sc_net cfg);
  Some (cfg <| sc_net := net |>).

Definition DisconnectClientUnlocked (ck : nat) (from : list Z) cfg : option (SvcConfig Inst V W) :=
  let endnames := default [] (sc_clerks cfg !! ck) in
  net ← enable_each (λ t, Some <$> endnames.[t]) false from (sc_net cfg);
  Some (cfg <| sc_net := net |>).

Definition ConnectClient (ck : nat) (to : list Z) cfg : option (SvcConfig Inst V W) := ConnectClientUnlocked ck to cfg.
Definition DisconnectClient (ck : nat) (from : list Z) cfg : option (SvcConfig Inst V W) := DisconnectClientUnlocked ck from cfg.

Definition makeClient (to : list Z) (draw : nat → string) (rnd : Z → Z) cfg : option (SvcConfig Inst V W * nat) :=
  let names := draw_row draw (sc_n cfg) in
  net ← make_ends NInt false names (sc_net cfg);
  handles ← random_handles rnd names;
  let ck := length (sc_cks cfg) in
  let cfg := cfg <| sc_net := net |> <| sc_cks := sc_cks cfg ++ [handles] |>
                 <| sc_clerks := <[ck := names]> (sc_clerks cfg) |>
                 <| sc_nextClientId := sc_nextClientId cfg + 1 |> in
  cfg ← ConnectClientUnlocked ck to cfg;
  Some (cfg, ck).

Definition deleteClient (ck : nat) cfg : SvcConfig Inst V W := cfg <| sc_clerks := delete ck (sc_clerks cfg) |>.

(** ** Servers *)

Definition svc_copy_saved cfg (s : Saved) : option Saved :=
  match s with
  | SNil => Some SNil
  | SOwn p => Some (SOwn (Persister_Copy p))
  | SRaft a => x ← sc_heap cfg !! a; Some (SOwn (Persister_Copy (inst_persister x)))
  end.

Definition ShutdownServer i cfg : option (SvcConfig Inst V W) :=
  cfg ← disconnectUnlocked i (All cfg) cfg;
  let cfg := cfg <| sc_net := DeleteServer (NInt i) (sc_net cfg) |> in
  s ← (sc_saved cfg).[i];
  s ← svc_copy_saved cfg s;
  saved' ← slice_set (sc_saved cfg) i s;
  kv ← (sc_servers cfg).[i];
  heap' ← match kv with
          | Some a => x ← sc_heap cfg !! a; x ← inst_Kill x; Some (<[a := x]> (sc_heap cfg))
          | None => Some (sc_heap cfg)
          end;
  servers' ← slice_set (sc_servers cfg) i None;
  Some (cfg <| sc_saved := saved' |> <| sc_heap := heap' |> <| sc_servers := servers' |>).

(** The persister the server is started with. *)
Definition svc_start_persister cfg (s : Saved) : option Persister :=
  match s with
  | SNil => Some MakePersister
  | SOwn p => Some (Persister_Copy p)
  | SRaft a => x ← sc_heap cfg !! a; Some (Persister_Copy (inst_persister x))
  end.

Definition StartServer i (draw : nat → string) cfg : option (SvcConfig Inst V W) :=
  let row := draw_row draw (sc_n cfg) in
  endnames' ← slice_set (sc_endnames cfg) i (Some row);
  net ← make_ends NInt false row (sc_net cfg);
  s ← (sc_saved cfg).[i];
  p ← svc_start_persister cfg s;
  x ← start_inst (sc_n cfg) i p;
  let a := length (sc_heap cfg) in
  saved' ← slice_set (sc_saved cfg) i (SRaft a);
  servers' ← slice_set (sc_servers cfg) i (Some a);
  Some (cfg <| sc_endnames := endnames' |> <| sc_net := AddServer (NInt i) a net |> <| sc_saved := saved' |>
    <| sc_heap := sc_heap cfg ++ [x] |> <| sc_servers := servers' |>
    <| sc_srvs := sc_srvs cfg ++ [AddService (services_of a).2 (AddService (services_of a).1 new_server)] |>).

(** [hp] is the state of the servers; each is asked in turn. *)
Definition Leader cfg (hps : Z → list Inst) : option (bool * Z) :=
  foldM (λ acc i, if (acc.1 : bool) then Some acc else
    kv ← (sc_servers cfg).[i]; a ← kv; x ← hps i !! a;
    Some (if (inst_GetState x).2 : bool then (true, i) else acc)) (false, 0) (seqZ 0 (sc_n cfg)).

(** The loop that deals out the servers other than [l]: the two parts and [j]. *)
Definition deal (l : Z) (acc : list Z * list Z * Z) i : option (list Z * list Z * Z) :=
  let '(p1, p2, j) := acc in
  if i =? l then Some acc
  else if j <? len p1 then p1 ← slice_set p1 j i; Some (p1, p2, j + 1)
  else p2 ← slice_set p2 (j - len p1) i; Some (p1, p2, j + 1).

Definition make_partition cfg (hps : Z → list Inst) : option (list Z * list Z) :=
  '(_, l) ← Leader cfg hps;
  p1 ← make_slice (Z.quot (sc_n cfg) 2 + 1) 0;
  p2 ← make_slice (Z.quot (sc_n cfg) 2) 0;
  '(p1, p2, _) ← foldM (deal l) (p1, p2, 0) (seqZ 0 (sc_n cfg));
  p2 ← slice_set p2 (len p2 - 1) l;
  Some (p1, p2).

Definition new_svc (n : Z) : option (SvcConfig Inst V W) :=
  servers ← make_slice n None;
  saved ← make_slice n SNil;
  endnames ← make_slice n None;
  Some (MkSvc new_network n servers saved endnames ∅ (n + 1000) 0 0 [] [] []).

Definition make_config (n : Z) (unreliable : bool) (draws : Z → nat → string) : option (SvcConfig Inst V W) :=
  cfg ← new_svc n;
  cfg ← foldM (λ cfg i, StartServer i (draws i) cfg) cfg (seqZ 0 n);
  cfg ← ConnectAll cfg;
  Some (cfg <| sc_net := Reliable (negb unreliable) (sc_net cfg) |>).

Definition cleanup {C} (failed : bool) (elapsed : Z) cfg : Test C (SvcConfig Inst V W) :=
  heap' ← lift (foldM (λ hp kv, match kv with
                                | Some a => x ← hp !! a; x ← inst_Kill x; Some (<[a := x]> hp)
                                | None => Some hp
                                end) (sc_heap cfg) (sc_servers cfg));
  net ← lift (Cleanup (sc_net cfg));
  _ ← checkTimeout failed elapsed;
  passes (cfg <| sc_heap := heap' |> <| sc_net := net |>).

(** ** Statistics *)

Definition rpcTotal cfg : Z := GetTotalCount (sc_net cfg).
Definition begin cfg : SvcConfig Inst V W := cfg <| sc_rpcs0 := rpcTotal cfg |> <| sc_ops := 0 |>.
Definition op cfg : SvcConfig Inst V W := cfg <| sc_ops := add_int32 (sc_ops cfg) 1 |>.

(** What is printed: peers, RPCs and calls. *)
Definition end_ {C} (failed : bool) (elapsed : Z) cfg : Test C (option (Z * Z * Z)) :=
  _ ← checkTimeout failed elapsed;
  passes (if failed then None else Some (sc_n cfg, rpcTotal cfg - sc_rpcs0 cfg, sc_ops cfg)).
End service.
