(* ===== verification/KvHarness.v ===== *)
(** * The test harness of the key/value server ([kvraft/config.go])

    [ServiceHarness] for the server of [KvServer]: a server is the [KVServer] with the
    Raft peer under it, which owns the persister. *)
From S2P Require Import Prelude RaftState RaftSnapshot KvServer LabRpc HarnessNet RaftHarness ServiceHarness.

#[export] Instance KVServer_replicated : Replicated (KVServer * Raft Op) := {
  inst_persister kv := persister kv.2;
  inst_GetState kv := GetState kv.2;
  inst_Kill kv := KV_Kill kv.1 kv.2
}.



Section kv.
Context {V W : Type} `{GoRand, GobCodec (RaftVal Op), GobCodec KvVal}.
(** [labrpc.MakeService] of the server and of its peer at an address, and [cfg.maxraftstate]. *)
Variable services_of : nat → Service (V := V) (W := W) * Service (V := V) (W := W).
Variable maxraftstate : Z.

Definition start_kv (nservers me : Z) (ps : Persister) : option (KVServer * Raft Op) :=
  StartKVServer nservers me ps maxraftstate.

Definition kv_StartServer (i : Z) (draw : nat → string) (cfg : SvcConfig _ V W) : option (SvcConfig _ V W) :=
  StartServer start_kv services_of i draw cfg.

Definition kv_make_config (n : Z) (unreliable : bool) (draws : Z → nat → string) : option (SvcConfig _ V W) :=
  make_config start_kv services_of n unreliable draws.
End kv.
