(* ===== verification/ShardMasterHarness.v ===== *)
(** * The test harness of the shardmaster ([shardmaster/config.go])

    The file has the text of [kvraft/config.go] with the servers exchanged, less the size of
    snapshots and the statistics: each of its functions is that of [ServiceHarness] at the
    server of [ShardMaster] with the Raft peer under it. *)
From S2P Require Import Prelude RaftState ShardConfig ShardMaster LabRpc HarnessNet RaftHarness ServiceHarness.

#[export] Instance ShardMaster_replicated : Replicated (ShardMaster * Raft Op) := {
  inst_persister sm := persister sm.2;
  inst_GetState sm := GetState sm.2;
  inst_Kill sm := SM_Kill sm.1 sm.2
}.

Definition SmConfig (V W : Type) : Type := SvcConfig (ShardMaster * Raft Op) V W.

Section sm.
Context {V W : Type} `{GoRand, GobCodec (RaftVal Op)}.
(** [labrpc.MakeService] of the server and of its peer at an address. *)
Variable services_of : nat → Service (V := V) (W := W) * Service (V := V) (W := W).
Implicit Types (cfg : SmConfig V W) (i : Z) (ck : nat).

Definition sm_LogSize cfg : option Z := LogSize cfg.
Definition sm_connectUnlocked i (to : list Z) cfg : option (SmConfig V W) := connectUnlocked i to cfg.
Definition sm_connect i (to : list Z) cfg : option (SmConfig V W) := sm_connectUnlocked i to cfg.
Definition sm_disconnectUnlocked i (from : list Z) cfg : option (SmConfig V W) := disconnectUnlocked i from cfg.
Definition sm_disconnect i (from : list Z) cfg : option (SmConfig V W) := sm_disconnectUnlocked i from cfg.
Definition sm_All cfg : list Z := All cfg.
Definition sm_ConnectAll cfg : option (SmConfig V W) := ConnectAll cfg.
Definition sm_partition (p1 p2 : list Z) cfg : option (SmConfig V W) := partition p1 p2 cfg.
Definition sm_makeClient (to : list Z) (draw : nat → string) (rnd : Z → Z) cfg : option (SmConfig V W * nat) :=
  makeClient to draw rnd cfg.
Definition sm_deleteClient ck cfg : SmConfig V W := deleteClient ck cfg.
Definition sm_ConnectClientUnlocked ck (to : list Z) cfg : option (SmConfig V W) := ConnectClientUnlocked ck to cfg.
Definition sm_ConnectClient ck (to : list Z) cfg : option (SmConfig V W) := sm_ConnectClientUnlocked ck to cfg.
Definition sm_DisconnectClientUnlocked ck (from : list Z) cfg : option (SmConfig V W) := DisconnectClientUnlocked ck from cfg.
Definition sm_DisconnectClient ck (from : list Z) cfg : option (SmConfig V W) := sm_DisconnectClientUnlocked ck from cfg.
Definition sm_ShutdownServer i cfg : option (SmConfig V W) := ShutdownServer i cfg.
Definition sm_StartServer i (draw : nat → string) cfg : option (SmConfig V W) :=
  StartServer ShardMaster.StartServer services_of i draw cfg.
Definition sm_Leader cfg (hps : Z → list (ShardMaster * Raft Op)) : option (bool * Z) := Leader cfg hps.
Definition sm_make_partition cfg (hps : Z → list (ShardMaster * Raft Op)) : option (list Z * list Z) :=
  make_partition cfg hps.
Definition sm_make_config (n : Z) (unreliable : bool) (draws : Z → nat → string) : option (SmConfig V W) :=
  make_config ShardMaster.StartServer services_of n unreliable draws.
Definition sm_cleanup {C} (failed : bool) (elapsed : Z) cfg : Test C (SmConfig V W) := cleanup failed elapsed cfg.
End sm.
