(* ===== verification/ServiceRoute.v ===== *)
(** * The test harnesses of the replicated services: links and partitions

    Which ends are enabled after the functions that connect and disconnect servers, that a
    cut of the cluster separates its two parts and nothing else, and how the parts of the
    cut are dealt. *)
From S2P Require Import Prelude RaftState RaftSnapshot KvServer LabRpc HarnessNet RaftHarness HarnessRoute ServiceHarness KvHarness.

Section route.
Context {Inst V W : Type} `{Replicated Inst}.
Variable start_inst : Z → Z → Persister → option Inst.
Variable services_of : nat → Service (V := V) (W := W) * Service (V := V) (W := W).
Implicit Types (cfg : SvcConfig Inst V W) (i j a b : Z) (p : list Z).

(** Server [a]'s current end for server [b] is enabled. *)
Definition linked cfg a b : Prop :=
  ∃ name, row_name (sc_endnames cfg) a b = Some name ∧ enabled (sc_net cfg) !! NStr name = Some true.

Record svc_ok cfg : Prop := {
  so_rows : len (sc_endnames cfg) = sc_n cfg;
  so_row i row : (sc_endnames cfg).[i] = Some (Some row) → len row = sc_n cfg;
  so_name i j name : row_name (sc_endnames cfg) i j = Some name →
    NStr name ∈ ends (sc_net cfg) ∧ connections (sc_net cfg) !! NStr name = Some (Some (NInt j));
  so_inj i j i' j' name : row_name (sc_endnames cfg) i j = Some name → row_name (sc_endnames cfg) i' j' = Some name →
    i = i' ∧ j = j';
  so_servers : len (sc_servers cfg) = sc_n cfg;
  so_server i (k : nat) : default None (servers (sc_net cfg) !! NInt i) = Some k ↔ (sc_servers cfg).[i] = Some (Some k);
  so_saved i (k : nat) : (sc_servers cfg).[i] = Some (Some k) → (sc_saved cfg).[i] = Some (SRaft k)
}.

(** All servers have been started at least once. *)
Definition all_started cfg : Prop := ∀ i, 0 ≤ i < sc_n cfg → ∃ row, (sc_endnames cfg).[i] = Some (Some row).

Definition in_cluster cfg p : Prop := ∀ i, i ∈ p → 0 ≤ i < sc_n cfg.

(** Only flags differ. *)
Definition flags_only cfg cfg' : Prop := ∃ net, cfg' = cfg <| sc_net := net |> ∧ same_but_enabled (sc_net cfg) net.

#[local] Instance flags_only_preorder : PreOrder flags_only.
Proof.
  split.
  - intros cfg. exists (sc_net cfg). split; [by destruct cfg|done].
  - intros c1 c2 c3 (n1 & -> & Hs1) (n2 & -> & Hs2). exists n2. split; [done|]. by etrans.
Qed.

Lemma flags_only_same cfg cfg' :
  flags_only cfg cfg' → sc_endnames cfg' = sc_endnames cfg ∧ sc_n cfg' = sc_n cfg ∧ sc_servers cfg' = sc_servers cfg
    ∧ sc_saved cfg' = sc_saved cfg ∧ sc_heap cfg' = sc_heap cfg.
Proof. by intros (net & -> & _). Qed.

Lemma flags_only_ok cfg cfg' : svc_ok cfg → flags_only cfg cfg' → svc_ok cfg' ∧ (all_started cfg → all_started cfg').
Proof.
  intros [? ? Hname ? ? ? ?] (net & -> & Hs). split; [|done]. split; simpl; auto.
  - rewrite (sb_ends _ _ Hs), (sb_connections _ _ Hs). auto.
  - by rewrite (sb_servers _ _ Hs).
Qed.

Lemma started_name cfg a b : svc_ok cfg → all_started cfg → 0 ≤ a < sc_n cfg → 0 ≤ b < sc_n cfg →
  ∃ name, row_name (sc_endnames cfg) a b = Some name.
Proof.
  intros Hok Hall Ha Hb. destruct (Hall a Ha) as [row Hr]. pose proof (so_row _ Hok _ _ Hr) as Hl.
  destruct (slice_get_lt row b) as [name Hn]; [lia|]. exists name. apply row_name_Some. eauto.
Qed.

Lemma at_index p j : j ∈ seqZ 0 (len p) ↔ is_Some (p.[j]).
Proof. rewrite slice_get_is_Some, elem_of_seqZ. lia. Qed.

(** Two loops over the ends between [i] and the members of [p], by their index. *)
Lemma loops_links cfg i p (bflag : bool) choose1 choose2 :
  svc_ok cfg → all_started cfg → 0 ≤ i < sc_n cfg → in_cluster cfg p →
  (∀ j t, p.[j] = Some t → choose1 j = Some <$> row_name (sc_endnames cfg) i t) →
  (∀ j t, p.[j] = Some t → choose2 j = Some <$> row_name (sc_endnames cfg) t i) →
  ∃ cfg', (net ← enable_each choose1 bflag (seqZ 0 (len p)) (sc_net cfg);
           net ← enable_each choose2 bflag (seqZ 0 (len p)) net;
           Some (cfg <| sc_net := net |>)) = Some cfg'
    ∧ flags_only cfg cfg'
    ∧ ∀ a b, linked cfg' a b ↔
        if bflag then linked cfg a b ∨ is_Some (row_name (sc_endnames cfg) a b) ∧ (a = i ∧ b ∈ p ∨ b = i ∧ a ∈ p)
        else linked cfg a b ∧ ¬ (a = i ∧ b ∈ p ∨ b = i ∧ a ∈ p).
Proof.
  intros Hok Hall Hi Hp H1 H2.
  assert (∀ j t, p.[j] = Some t → 0 ≤ t < sc_n cfg) as Hrange by (intros j t Hj; eapply Hp, slice_get_elem, Hj).
  destruct (enable_each_spec choose1 bflag (seqZ 0 (len p)) (sc_net cfg)) as (net1 & Hn1 & Hs1 & _).
  { intros j [t Ht]%at_index. rewrite (H1 j t Ht). destruct (started_name cfg i t Hok Hall Hi (Hrange _ _ Ht)) as [name ->]. by eexists. }
  destruct (enable_each_spec choose2 bflag (seqZ 0 (len p)) net1) as (net2 & Hn2 & Hs2 & _).
  { intros j [t Ht]%at_index. rewrite (H2 j t Ht). destruct (started_name cfg t i Hok Hall (Hrange _ _ Ht) Hi) as [name ->]. by eexists. }
  rewrite Hn1. cbn [mbind option_bind]. rewrite Hn2. cbn [mbind option_bind]. eexists. split; [done|].
  split; [exists net2; split; [done|by etrans]|].
  assert (∀ name a b, row_name (sc_endnames cfg) a b = Some name →
    (∃ j, j ∈ seqZ 0 (len p) ∧ choose1 j = Some (Some name)) ↔ a = i ∧ b ∈ p) as Hc1.
  { intros name a b Hn. split.
    - intros (j & [t Ht]%at_index & Hch). rewrite (H1 j t Ht) in Hch. apply fmap_Some in Hch as (x & Hx & [= <-]).
      destruct (so_inj _ Hok _ _ _ _ _ Hn Hx) as [-> ->]. split; [done|by eapply slice_get_elem].
    - intros [-> [k Hk]%list_elem_of_lookup]. exists (Z.of_nat k).
      assert (p.[Z.of_nat k] = Some b) as Ht by (apply slice_get_Some; rewrite Nat2Z.id; split; [lia|done]).
      split; [apply at_index; eauto|]. by rewrite (H1 _ _ Ht), Hn. }
  assert (∀ name a b, row_name (sc_endnames cfg) a b = Some name →
    (∃ j, j ∈ seqZ 0 (len p) ∧ choose2 j = Some (Some name)) ↔ b = i ∧ a ∈ p) as Hc2.
  { intros name a b Hn. split.
    - intros (j & [t Ht]%at_index & Hch). rewrite (H2 j t Ht) in Hch. apply fmap_Some in Hch as (x & Hx & [= <-]).
      destruct (so_inj _ Hok _ _ _ _ _ Hn Hx) as [-> ->]. split; [done|by eapply slice_get_elem].
    - intros [-> [k Hk]%list_elem_of_lookup]. exists (Z.of_nat k).
      assert (p.[Z.of_nat k] = Some a) as Ht by (apply slice_get_Some; rewrite Nat2Z.id; split; [lia|done]).
      split; [apply at_index; eauto|]. by rewrite (H2 _ _ Ht), Hn. }
  intros a b. unfold linked. simpl.
  destruct (row_name (sc_endnames cfg) a b) as [name|] eqn:Hn; [|destruct bflag; naive_solver].
  assert (∀ P : string → Prop, (∃ x, Some name = Some x ∧ P x) ↔ P name) as Hex by naive_solver.
  rewrite Hex. pose proof (enable_each_flag _ _ _ _ _ name Hn2) as He2. pose proof (enable_each_flag _ _ _ _ _ name Hn1) as He1.
  pose proof (Hc1 name a b Hn). pose proof (Hc2 name a b Hn). assert (is_Some (Some name)) by by eexists.
  pose proof (Hex (λ x, enabled (sc_net cfg) !! NStr x = Some true)) as Hex1. cbv beta in Hex1.
  destruct bflag; rewrite Hex1, He2, He1; tauto.
Qed.

Lemma connect_links cfg i p :
  svc_ok cfg → all_started cfg → 0 ≤ i < sc_n cfg → in_cluster cfg p →
  ∃ cfg', connectUnlocked i p cfg = Some cfg' ∧ flags_only cfg cfg'
    ∧ ∀ a b, linked cfg' a b ↔
        linked cfg a b ∨ is_Some (row_name (sc_endnames cfg) a b) ∧ (a = i ∧ b ∈ p ∨ b = i ∧ a ∈ p).
Proof.
  intros Hok Hall Hi Hp. apply (loops_links cfg i p true); [done..| |]; intros j t Ht; by rewrite Ht.
Qed.

Lemma disconnect_links cfg i p :
  svc_ok cfg → all_started cfg → 0 ≤ i < sc_n cfg → in_cluster cfg p → len p ≤ sc_n cfg →
  ∃ cfg', disconnectUnlocked i p cfg = Some cfg' ∧ flags_only cfg cfg'
    ∧ ∀ a b, linked cfg' a b ↔ linked cfg a b ∧ ¬ (a = i ∧ b ∈ p ∨ b = i ∧ a ∈ p).
Proof.
  intros Hok Hall Hi Hp Hlen. apply (loops_links cfg i p false); [done..| |]; intros j t Ht.
  - destruct (Hall i Hi) as [row ->]. by rewrite Ht.
  - assert (0 ≤ j < sc_n cfg) as Hj by (apply mk_is_Some, slice_get_is_Some in Ht; lia).
    destruct (Hall j Hj) as [row ->]. by rewrite Ht.
Qed.

(** The first half of a cut: the members of [done] have been treated, [p] is their side and
    [q] the other. *)
Lemma side_links cfg p q :
  svc_ok cfg → all_started cfg → in_cluster cfg p → in_cluster cfg q → len p ≤ sc_n cfg → len q ≤ sc_n cfg →
  (∀ i, i ∈ p → i ∉ q) →
  ∃ cfg', foldM (λ cfg i, cfg ← disconnectUnlocked i q cfg; connectUnlocked i p cfg) cfg p = Some cfg' ∧ flags_only cfg cfg'
    ∧ ∀ a b, is_Some (row_name (sc_endnames cfg) a b) →
        linked cfg' a b ↔ (a ∈ p ∧ b ∈ p) ∨ (¬ (a ∈ p ∧ b ∈ q) ∧ ¬ (b ∈ p ∧ a ∈ q) ∧ linked cfg a b).
Proof.
  intros Hok Hall Hp Hq Hlp Hlq Hdisj.
  destruct (foldM_total (λ pre cfg', flags_only cfg cfg' ∧ ∀ a b, is_Some (row_name (sc_endnames cfg) a b) →
        linked cfg' a b ↔ (a ∈ pre ∧ b ∈ p) ∨ (b ∈ pre ∧ a ∈ p) ∨ (¬ (a ∈ pre ∧ b ∈ q) ∧ ¬ (b ∈ pre ∧ a ∈ q) ∧ linked cfg a b))
    (λ cfg i, cfg ← disconnectUnlocked i q cfg; connectUnlocked i p cfg) cfg p) as (cfg' & Hf & Hflags & Hl).
  - split; [done|]. intros a b _. set_solver.
  - intros pre i rest cfg1 Hpre (Hf1 & Hl1). destruct (flags_only_ok _ _ Hok Hf1) as [Hok1 Hall1].
    destruct (flags_only_same _ _ Hf1) as (He1 & Hn1 & _).
    assert (i ∈ p) as Hip by (rewrite Hpre; apply elem_of_app; right; left).
    destruct (disconnect_links cfg1 i q Hok1 (Hall1 Hall)) as (cfg2 & -> & Hf2 & Hl2);
      [rewrite Hn1; by apply Hp|by intros j Hj; rewrite Hn1; apply Hq|lia|].
    destruct (flags_only_ok _ _ Hok1 Hf2) as [Hok2 Hall2]. destruct (flags_only_same _ _ Hf2) as (He2 & Hn2 & _).
    destruct (connect_links cfg2 i p Hok2 (Hall2 (Hall1 Hall))) as (cfg3 & Hc3 & Hf3 & Hl3);
      [rewrite Hn2, Hn1; by apply Hp|by intros j Hj; rewrite Hn2, Hn1; apply Hp|].
    cbn [mbind option_bind]. rewrite Hc3. exists cfg3. split; [done|]. split; [by etrans; [|etrans]|].
    intros a b Hab. rewrite Hl3, Hl2, Hl1, He2, He1 by done. rewrite !elem_of_app, !list_elem_of_singleton.
    pose proof (Hdisj i Hip). pose proof (Hdisj a). pose proof (Hdisj b).
    assert (∀ x, x ∈ pre → x ∈ p) as Hsub by (intros x Hx; rewrite Hpre; apply elem_of_app; by left).
    pose proof (Hsub a). pose proof (Hsub b).
    destruct (decide (a = i)), (decide (b = i)), (decide (a ∈ pre)), (decide (b ∈ pre)), (decide (a ∈ p)), (decide (b ∈ p)); subst; tauto.
  - exists cfg'. split; [done|]. split; [done|]. intros a b Hab. rewrite (Hl a b Hab). tauto.
Qed.

Lemma partition_links cfg p1 p2 :
  svc_ok cfg → all_started cfg → in_cluster cfg p1 → in_cluster cfg p2 → len p1 ≤ sc_n cfg → len p2 ≤ sc_n cfg →
  (∀ i, i ∈ p1 → i ∉ p2) →
  ∃ cfg', partition p1 p2 cfg = Some cfg' ∧ flags_only cfg cfg'
    ∧ ∀ a b, is_Some (row_name (sc_endnames cfg) a b) → a ∈ p1 ++ p2 → b ∈ p1 ++ p2 →
        linked cfg' a b ↔ (a ∈ p1 ∧ b ∈ p1) ∨ (a ∈ p2 ∧ b ∈ p2).
Proof.
  intros Hok Hall Hp1 Hp2 Hl1 Hl2 Hdisj. unfold partition.
  destruct (side_links cfg p1 p2 Hok Hall Hp1 Hp2 Hl1 Hl2 Hdisj) as (cfg1 & -> & Hf1 & Hlinks1). cbn [mbind option_bind].
  destruct (flags_only_ok _ _ Hok Hf1) as [Hok1 Hall1]. destruct (flags_only_same _ _ Hf1) as (He1 & Hn1 & _).
  destruct (side_links cfg1 p2 p1 Hok1 (Hall1 Hall)) as (cfg2 & -> & Hf2 & Hlinks2);
    [by intros i Hi; rewrite Hn1; apply Hp2|by intros i Hi; rewrite Hn1; apply Hp1|lia|lia|by intros i Hi2 Hi1; apply (Hdisj i)|].
  exists cfg2. split; [done|]. split; [by etrans|]. intros a b Hab Ha Hb.
  rewrite Hlinks2 by by rewrite He1. rewrite Hlinks1 by done. rewrite elem_of_app in Ha, Hb.
  pose proof (Hdisj a). pose proof (Hdisj b).
  destruct (decide (a ∈ p1)), (decide (b ∈ p1)), (decide (a ∈ p2)), (decide (b ∈ p2)); tauto.
Qed.

(** ** What the harness does *)

Lemma enable_each_same choose (flag : bool) js net net' : enable_each choose flag js net = Some net' → same_but_enabled net net'.
Proof.
  intros He. destruct (enable_each_spec choose flag js net (enable_each_choose _ _ _ _ _ He)) as (net1 & He1 & Hs & _).
  rewrite He in He1. by injection He1 as <-.
Qed.

Lemma connect_flags i p cfg cfg' : connectUnlocked i p cfg = Some cfg' → flags_only cfg cfg'.
Proof.
  unfold connectUnlocked. destruct (enable_each _ _ _ (sc_net cfg)) as [net1|] eqn:H1; cbn [mbind option_bind]; [|done].
  destruct (enable_each _ _ _ net1) as [net2|] eqn:H2; cbn [mbind option_bind]; [|done]. intros [= <-].
  exists net2. split; [done|]. etrans; by eapply enable_each_same.
Qed.

Lemma disconnect_flags i p cfg cfg' : disconnectUnlocked i p cfg = Some cfg' → flags_only cfg cfg'.
Proof.
  unfold disconnectUnlocked. destruct (enable_each _ _ _ (sc_net cfg)) as [net1|] eqn:H1; cbn [mbind option_bind]; [|done].
  destruct (enable_each _ _ _ net1) as [net2|] eqn:H2; cbn [mbind option_bind]; [|done]. intros [= <-].
  exists net2. split; [done|]. etrans; by eapply enable_each_same.
Qed.

Lemma ConnectClient_flags ck p cfg cfg' : ConnectClientUnlocked ck p cfg = Some cfg' → flags_only cfg cfg'.
Proof.
  unfold ConnectClientUnlocked. destruct (enable_each _ _ _ (sc_net cfg)) as [net1|] eqn:H1; cbn [mbind option_bind]; [|done].
  intros [= <-]. exists net1. split; [done|]. by eapply enable_each_same.
Qed.

Lemma DisconnectClient_flags ck p cfg cfg' : DisconnectClientUnlocked ck p cfg = Some cfg' → flags_only cfg cfg'.
Proof.
  unfold DisconnectClientUnlocked. destruct (enable_each _ _ _ (sc_net cfg)) as [net1|] eqn:H1; cbn [mbind option_bind]; [|done].
  intros [= <-]. exists net1. split; [done|]. by eapply enable_each_same.
Qed.

(** Fresh ends do not touch the tables of the servers' ends. *)
Lemma fresh_ends_ok cfg net server (flag : bool) names :
  svc_ok cfg → make_ends server flag names (sc_net cfg) = Some net → svc_ok (cfg <| sc_net := net |>).
Proof.
  intros [? ? Hname ? ? Hserver ?] Hmake.
  destruct (make_ends_spec _ _ _ _ _ Hmake) as (_ & Hfresh & _ & Hends & Hsrv & _ & _ & Hother).
  split; simpl; auto.
  - intros i j name Hn. destruct (Hname i j name Hn) as [He Hc]. split; [apply Hends; by left|].
    destruct (Hother (NStr name)) as [-> _]; [|done]. intros x Hx [= <-]. by apply (Hfresh name).
  - by rewrite Hsrv.
Qed.

Lemma StartServer_ok i draw cfg cfg' :
  svc_ok cfg → StartServer start_inst services_of i draw cfg = Some cfg' →
  svc_ok cfg' ∧ sc_n cfg' = sc_n cfg ∧ (∃ row, (sc_endnames cfg').[i] = Some (Some row))
  ∧ (∀ j, j ≠ i → (sc_endnames cfg').[j] = (sc_endnames cfg).[j]).
Proof.
  intros Hok Hstart. unfold StartServer in Hstart.
  destruct (slice_set (sc_endnames cfg) i _) as [rows'|] eqn:Hset; cbn [mbind option_bind] in Hstart; [|done].
  destruct (make_ends _ _ _ (sc_net cfg)) as [net|] eqn:Hmake; cbn [mbind option_bind] in Hstart; [|done].
  destruct ((sc_saved cfg).[i]) as [s|]; cbn [mbind option_bind] in Hstart; [|done].
  destruct (svc_start_persister cfg s) as [ps|]; cbn [mbind option_bind] in Hstart; [|done].
  destruct (start_inst _ _ ps) as [x|]; cbn [mbind option_bind] in Hstart; [|done].
  destruct (slice_set (sc_saved cfg) i _) as [saved'|] eqn:Hsav; cbn [mbind option_bind] in Hstart; [|done].
  destruct (slice_set (sc_servers cfg) i _) as [servers'|] eqn:Hsset; cbn [mbind option_bind] in Hstart; [|done]. injection Hstart as <-.
  pose proof (fresh_ends_ok _ _ _ _ _ Hok Hmake) as [_ _ Hname' _ _ Hserver' _]. simpl in Hname', Hserver'.
  destruct (make_ends_spec _ _ _ _ _ Hmake) as (Hnd & Hfresh & _ & Hends & Hsrv & Hcon & _).
  set (row := draw_row draw (sc_n cfg)) in *.
  assert (∀ j, j ≠ i → rows'.[j] = (sc_endnames cfg).[j]) as Hrest by (intros; by eapply slice_get_set_ne).
  assert (∀ j name, row_name rows' i j = Some name → row.[j] = Some name) as Hnew.
  { intros j name. unfold row_name. by rewrite (slice_get_set_eq _ _ _ _ Hset). }
  assert (∀ a j, a ≠ i → row_name rows' a j = row_name (sc_endnames cfg) a j) as Hold by (intros; unfold row_name; by rewrite Hrest).
  assert (∀ a j name, row_name (sc_endnames cfg) a j = Some name → name ∉ row) as Hnot.
  { intros a j name Hn Hin. apply (Hfresh name Hin). by eapply (so_name _ Hok). }
  simpl. split_and!; [|done|exists row; by eapply slice_get_set_eq|done]. split; simpl.
  - rewrite (slice_set_length _ _ _ _ Hset). apply Hok.
  - intros a r Ha. destruct (decide (a = i)) as [->|Hne].
    + rewrite (slice_get_set_eq _ _ _ _ Hset) in Ha. injection Ha as <-. apply draw_row_length.
      pose proof (so_rows _ Hok). lia.
    + rewrite Hrest in Ha by done. by eapply (so_row _ Hok).
  - intros a j name Hn. destruct (decide (a = i)) as [->|Hne].
    + apply Hnew in Hn. split; [apply Hends; right; exists name; split; [by eapply slice_get_elem|done]|].
      apply slice_get_Some in Hn as [Hj Hn]. by rewrite (Hcon _ _ Hn), Z2Nat.id.
    + rewrite Hold in Hn by done. by eapply Hname'.
  - intros a j a' j' name Hn Hn'. destruct (decide (a = i)) as [->|Hne], (decide (a' = i)) as [->|Hne'].
    + split; [done|]. apply Hnew, slice_get_Some in Hn as [? Hn]. apply Hnew, slice_get_Some in Hn' as [? Hn'].
      pose proof (NoDup_lookup _ _ _ _ Hnd Hn Hn'). lia.
    + apply Hnew, slice_get_elem in Hn. rewrite Hold in Hn' by done. by destruct (Hnot _ _ _ Hn').
    + apply Hnew, slice_get_elem in Hn'. rewrite Hold in Hn by done. by destruct (Hnot _ _ _ Hn).
    + rewrite Hold in Hn, Hn' by done. by eapply (so_inj _ Hok).
  - rewrite (slice_set_length _ _ _ _ Hsset). apply Hok.
  - intros j k. destruct (decide (j = i)) as [->|Hne].
    + rewrite lookup_insert_eq, (slice_get_set_eq _ _ _ _ Hsset). simpl. naive_solver.
    + rewrite lookup_insert_ne by congruence. rewrite (slice_get_set_ne _ _ _ _ _ Hsset) by done. apply Hserver'.
  - intros j k. destruct (decide (j = i)) as [->|Hne].
    + rewrite (slice_get_set_eq _ _ _ _ Hsset), (slice_get_set_eq _ _ _ _ Hsav). congruence.
    + rewrite (slice_get_set_ne _ _ _ _ _ Hsset), (slice_get_set_ne _ _ _ _ _ Hsav) by done. apply (so_saved _ Hok).
Qed.

Lemma ShutdownServer_ok i cfg cfg' :
  svc_ok cfg → ShutdownServer i cfg = Some cfg' →
  svc_ok cfg' ∧ sc_n cfg' = sc_n cfg ∧ sc_endnames cfg' = sc_endnames cfg.
Proof.
  intros Hok Hshut. unfold ShutdownServer in Hshut.
  destruct (disconnectUnlocked i (All cfg) cfg) as [cfg1|] eqn:Hd; cbn [mbind option_bind] in Hshut; [|done].
  apply disconnect_flags in Hd. destruct (flags_only_ok _ _ Hok Hd) as [[] _]. apply flags_only_same in Hd as (He & Hn & _).
  destruct (sc_saved _).[i] as [s|]; cbn [mbind option_bind] in Hshut; [|done].
  destruct (svc_copy_saved _ s) as [s'|]; cbn [mbind option_bind] in Hshut; [|done].
  destruct (slice_set (sc_saved _) i s') as [saved'|] eqn:Hsav; cbn [mbind option_bind] in Hshut; [|done].
  destruct (sc_servers _).[i] as [kv|]; cbn [mbind option_bind] in Hshut; [|done].
  destruct (match kv with Some a => _ | None => _ end) as [heap'|]; cbn [mbind option_bind] in Hshut; [|done].
  destruct (slice_set (sc_servers _) i None) as [servers'|] eqn:Hset; cbn [mbind option_bind] in Hshut; [|done]. injection Hshut as <-.
  simpl. split_and!; [|done|done]. split; simpl; auto.
  - by rewrite (slice_set_length _ _ _ _ Hset).
  - intros j k. destruct (decide (j = i)) as [->|Hne].
    + rewrite lookup_insert_eq, (slice_get_set_eq _ _ _ _ Hset). done.
    + rewrite lookup_insert_ne by congruence. by rewrite (slice_get_set_ne _ _ _ _ _ Hset).
  - intros j k. destruct (decide (j = i)) as [->|Hne]; [by rewrite (slice_get_set_eq _ _ _ _ Hset)|].
    rewrite (slice_get_set_ne _ _ _ _ _ Hset), (slice_get_set_ne _ _ _ _ _ Hsav) by done. auto.
Qed.

(** What happens in a test: the functions of the harness, clerks, the network carrying
    requests, and the servers, old instances included, which may do anything. *)
Inductive svc_step cfg : SvcConfig Inst V W → Prop :=
  | s_start i draw cfg' : StartServer start_inst services_of i draw cfg = Some cfg' → svc_step cfg cfg'
  | s_shutdown i cfg' : ShutdownServer i cfg = Some cfg' → svc_step cfg cfg'
  | s_connect i p cfg' : connectUnlocked i p cfg = Some cfg' → svc_step cfg cfg'
  | s_disconnect i p cfg' : disconnectUnlocked i p cfg = Some cfg' → svc_step cfg cfg'
  | s_makeClient p draw rnd cfg' ck : makeClient p draw rnd cfg = Some (cfg', ck) → svc_step cfg cfg'
  | s_deleteClient ck : svc_step cfg (deleteClient ck cfg)
  | s_ConnectClient ck p cfg' : ConnectClientUnlocked ck p cfg = Some cfg' → svc_step cfg cfg'
  | s_DisconnectClient ck p cfg' : DisconnectClientUnlocked ck p cfg = Some cfg' → svc_step cfg cfg'
  | s_reliable (flag : bool) : svc_step cfg (cfg <| sc_net := Reliable flag (sc_net cfg) |>)
  | s_begin : svc_step cfg (begin cfg)
  | s_op : svc_step cfg (op cfg)
  | s_accept args : svc_step cfg (cfg <| sc_net := accept args (sc_net cfg) |>)
  | s_bytes (n : Z) : svc_step cfg (cfg <| sc_net := (sc_net cfg) <| bytes := add_int64 (bytes (sc_net cfg)) n |> |>)
  | s_server k x x' : sc_heap cfg !! k = Some x → svc_step cfg (cfg <| sc_heap := <[k := x']> (sc_heap cfg) |>).

Definition svc_reachable cfg : Prop := ∃ cfg0, new_svc (sc_n cfg) = Some cfg0 ∧ rtc svc_step cfg0 cfg.

(** Once started, a server has a row of ends for ever. *)
Definition rows_stay cfg cfg' : Prop :=
  sc_n cfg' = sc_n cfg ∧ ∀ i row, (sc_endnames cfg).[i] = Some (Some row) → ∃ row', (sc_endnames cfg').[i] = Some (Some row').

Lemma flags_step cfg cfg' : svc_ok cfg → flags_only cfg cfg' → svc_ok cfg' ∧ rows_stay cfg cfg'.
Proof.
  intros Hok Hf. destruct (flags_only_ok _ _ Hok Hf) as [? _]. destruct (flags_only_same _ _ Hf) as (He & Hn & _).
  split; [done|]. split; [done|]. rewrite He. eauto.
Qed.

Lemma makeClient_ok p draw rnd cfg cfg' ck :
  svc_ok cfg → makeClient p draw rnd cfg = Some (cfg', ck) → svc_ok cfg' ∧ rows_stay cfg cfg'.
Proof.
  intros Hok Hm. unfold makeClient in Hm.
  destruct (make_ends _ _ _ (sc_net cfg)) as [net|] eqn:Hmake; cbn [mbind option_bind] in Hm; [|done].
  destruct (random_handles _ _) as [handles|]; cbn [mbind option_bind] in Hm; [|done].
  destruct (ConnectClientUnlocked _ p _) as [cfg1|] eqn:Hc; cbn [mbind option_bind] in Hm; [|done]. injection Hm as <- _.
  apply ConnectClient_flags in Hc. destruct (fresh_ends_ok _ _ _ _ _ Hok Hmake) as [].
  apply flags_step in Hc as [? [Hn Hr]]; [|by split]. split; [done|]. split; [exact Hn|exact Hr].
Qed.

Lemma svc_step_ok cfg cfg' : svc_ok cfg → svc_step cfg cfg' → svc_ok cfg' ∧ rows_stay cfg cfg'.
Proof.
  intros Hok Hstep. destruct Hstep as [i draw cfg' Hs|i cfg' Hs|i p cfg' Hs|i p cfg' Hs|p draw rnd cfg' ck Hs|ck|ck p cfg' Hs|ck p cfg' Hs|b| | |args|n|k x x' Hx].
  - destruct (StartServer_ok _ _ _ _ Hok Hs) as (? & Hn & Hi & Hj). split; [done|]. split; [done|].
    intros j row Hr. destruct (decide (j = i)) as [->|Hne]; [done|]. rewrite Hj by done. eauto.
  - destruct (ShutdownServer_ok _ _ _ Hok Hs) as (? & Hn & He). split; [done|]. split; [done|]. rewrite He. eauto.
  - by apply flags_step; [|eapply connect_flags].
  - by apply flags_step; [|eapply disconnect_flags].
  - by eapply makeClient_ok.
  - split; [by destruct Hok|split; eauto].
  - by apply flags_step; [|eapply ConnectClient_flags].
  - by apply flags_step; [|eapply DisconnectClient_flags].
  - split; [by destruct Hok|split; eauto].
  - split; [by destruct Hok|split; eauto].
  - split; [by destruct Hok|split; eauto].
  - split; [by destruct Hok|split; eauto].
  - split; [by destruct Hok|split; eauto].
  - split; [by destruct Hok|split; eauto].
Qed.

Lemma svc_steps_ok cfg cfg' : svc_ok cfg → rtc svc_step cfg cfg' → svc_ok cfg' ∧ rows_stay cfg cfg'.
Proof.
  intros Hok Hs. revert Hok. induction Hs as [cfg|cfg cfg1 cfg' Hs _ IH]; intros Hok; [split; [done|split; eauto]|].
  destruct (svc_step_ok _ _ Hok Hs) as [Hok1 [Hn1 Hr1]]. destruct (IH Hok1) as [Hok' [Hn2 Hr2]].
  split; [done|]. split; [congruence|]. intros i row Hi. destruct (Hr1 _ _ Hi) as [row1 ?]. eauto.
Qed.

Lemma new_svc_ok n cfg : new_svc n = Some cfg → svc_ok cfg ∧ sc_n cfg = n.
Proof.
  unfold new_svc, make_slice. destruct (Z.leb_spec 0 n) as [Hn|]; simpl; [|done]. intros [= <-]. split; [|done].
  assert (∀ {A} (x y : A) i, (replicate (Z.to_nat n) x).[i] = Some y → y = x) as Hrep.
  { intros A x y i Hy%slice_get_elem. by apply elem_of_replicate in Hy as [-> _]. }
  assert (∀ i j name, row_name (replicate (Z.to_nat n) None) i j = Some name → False) as Hrow.
  { intros i j name (row & Hr & _)%row_name_Some. by apply Hrep in Hr. }
  split; simpl; rewrite ?length_replicate, ?Z2Nat.id by done; try done.
  - intros i row Hr. by apply Hrep in Hr.
  - intros i j name Hn'. by destruct (Hrow _ _ _ Hn').
  - intros i j i' j' name Hn'. by destruct (Hrow _ _ _ Hn').
  - intros i k. split; [done|]. intros Hi. by apply Hrep in Hi.
  - intros i k Hi. by apply Hrep in Hi.
Qed.

Lemma svc_reachable_ok cfg : svc_reachable cfg → svc_ok cfg.
Proof. intros (cfg0 & Hnew & Hs). destruct (new_svc_ok _ _ Hnew) as [Hok _]. by apply (svc_steps_ok cfg0). Qed.

(** ** Restarts *)

Lemma Persister_Copy_id ps : Persister_Copy ps = ps.
Proof. by destruct ps. Qed.

(** The harness keeps a copy of what the server had saved. *)
Lemma ShutdownServer_saves i (k : nat) x cfg cfg' :
  svc_ok cfg → (sc_servers cfg).[i] = Some (Some k) → sc_heap cfg !! k = Some x → ShutdownServer i cfg = Some cfg' →
  (sc_saved cfg').[i] = Some (SOwn (inst_persister x)) ∧ (sc_servers cfg').[i] = Some None.
Proof.
  intros Hok Hk Hx Hshut. pose proof (so_saved _ Hok _ _ Hk) as Hsaved. unfold ShutdownServer in Hshut.
  destruct (disconnectUnlocked i (All cfg) cfg) as [cfg1|] eqn:Hd; cbn [mbind option_bind] in Hshut; [|done].
  apply disconnect_flags, flags_only_same in Hd as (_ & _ & Hs & Hsv & Hh). simpl in Hshut.
  rewrite Hsv, Hsaved in Hshut. cbn [mbind option_bind svc_copy_saved] in Hshut. simpl in Hshut.
  rewrite Hh, Hx in Hshut. cbn [mbind option_bind] in Hshut. rewrite Persister_Copy_id in Hshut.
  destruct (slice_set (sc_saved cfg) i _) as [saved'|] eqn:Hsav; cbn [mbind option_bind] in Hshut; [|done].
  rewrite Hs, Hk in Hshut. cbn [mbind option_bind] in Hshut. rewrite Hx in Hshut. cbn [mbind option_bind] in Hshut.
  destruct (inst_Kill x) as [x'|]; cbn [mbind option_bind] in Hshut; [|done].
  destruct (slice_set (sc_servers cfg) i None) as [servers'|] eqn:Hset; cbn [mbind option_bind] in Hshut; [|done]. injection Hshut as <-.
  simpl. split; by eapply slice_get_set_eq.
Qed.

(** While a server is down, what the harness keeps for it stays. *)
Lemma down_keeps_saved i ps cfg cfg' :
  svc_step cfg cfg' → (sc_servers cfg').[i] = Some None → (sc_saved cfg).[i] = Some (SOwn ps) → (sc_saved cfg').[i] = Some (SOwn ps).
Proof.
  intros Hstep Hdown Hsaved.
  destruct Hstep as [j draw cfg' Hs|j cfg' Hs|j p cfg' Hs|j p cfg' Hs|p draw rnd cfg' ck Hs|ck|ck p cfg' Hs|ck p cfg' Hs|b| | |args|n|k x x' Hx]; try done.
  - unfold StartServer in Hs.
    destruct (slice_set (sc_endnames cfg) j _); cbn [mbind option_bind] in Hs; [|done].
    destruct (make_ends _ _ _ _); cbn [mbind option_bind] in Hs; [|done].
    destruct ((sc_saved cfg).[j]); cbn [mbind option_bind] in Hs; [|done].
    destruct (svc_start_persister _ _); cbn [mbind option_bind] in Hs; [|done].
    destruct (start_inst _ _ _); cbn [mbind option_bind] in Hs; [|done].
    destruct (slice_set (sc_saved cfg) j _) eqn:Hsav; cbn [mbind option_bind] in Hs; [|done].
    destruct (slice_set (sc_servers cfg) j _) eqn:Hset; cbn [mbind option_bind] in Hs; [|done]. injection Hs as <-. simpl in *.
    destruct (decide (i = j)) as [->|Hne]; [by rewrite (slice_get_set_eq _ _ _ _ Hset) in Hdown|].
    by rewrite (slice_get_set_ne _ _ _ _ _ Hsav).
  - unfold ShutdownServer in Hs. destruct (disconnectUnlocked _ _ _) as [cfg1|] eqn:Hd; cbn [mbind option_bind] in Hs; [|done].
    apply disconnect_flags, flags_only_same in Hd as (_ & _ & _ & Hsv & _). simpl in Hs. rewrite Hsv in Hs.
    destruct ((sc_saved cfg).[j]) as [s|] eqn:Hj; cbn [mbind option_bind] in Hs; [|done].
    destruct (svc_copy_saved _ _) as [s'|] eqn:Hcopy; cbn [mbind option_bind] in Hs; [|done].
    destruct (slice_set (sc_saved cfg) j _) eqn:Hsav; cbn [mbind option_bind] in Hs; [|done].
    destruct ((sc_servers _).[j]); cbn [mbind option_bind] in Hs; [|done].
    destruct (match _ with Some a => _ | None => _ end); cbn [mbind option_bind] in Hs; [|done].
    destruct (slice_set _ j None); cbn [mbind option_bind] in Hs; [|done]. injection Hs as <-. simpl.
    destruct (decide (i = j)) as [->|Hne]; [|by rewrite (slice_get_set_ne _ _ _ _ _ Hsav)].
    rewrite Hsaved in Hj. injection Hj as <-. simpl in Hcopy. injection Hcopy as <-.
    by rewrite (slice_get_set_eq _ _ _ _ Hsav), Persister_Copy_id.
  - by apply connect_flags, flags_only_same in Hs as (_ & _ & _ & -> & _).
  - by apply disconnect_flags, flags_only_same in Hs as (_ & _ & _ & -> & _).
  - unfold makeClient in Hs. destruct (make_ends _ _ _ _); cbn [mbind option_bind] in Hs; [|done].
    destruct (random_handles _ _); cbn [mbind option_bind] in Hs; [|done].
    destruct (ConnectClientUnlocked _ _ _) eqn:Hc; cbn [mbind option_bind] in Hs; [|done]. injection Hs as <- _.
    by apply ConnectClient_flags, flags_only_same in Hc as (_ & _ & _ & -> & _).
  - by apply ConnectClient_flags, flags_only_same in Hs as (_ & _ & _ & -> & _).
  - by apply DisconnectClient_flags, flags_only_same in Hs as (_ & _ & _ & -> & _).
Qed.

(** Steps during which server [i] stays down. *)
Definition down_step i cfg cfg' : Prop := svc_step cfg cfg' ∧ (sc_servers cfg').[i] = Some None.

(** [make_config] is a run of these steps that starts every server. *)
Lemma make_config_started n unreliable draws cfg :
  make_config start_inst services_of n unreliable draws = Some cfg → svc_reachable cfg ∧ sc_n cfg = n ∧ all_started cfg.
Proof.
  unfold make_config. destruct (new_svc n) as [cfg0|] eqn:Hnew; cbn [mbind option_bind]; [|done].
  destruct (new_svc_ok _ _ Hnew) as [Hok Hn].
  destruct (foldM _ cfg0 (seqZ 0 n)) as [cfg1|] eqn:H1; cbn [mbind option_bind]; [|done].
  destruct (ConnectAll cfg1) as [cfg2|] eqn:H2; cbn [mbind option_bind]; [|done]. intros [= <-].
  assert (rtc svc_step cfg0 cfg1 ∧ ∀ i, i ∈ seqZ 0 n → ∃ row, (sc_endnames cfg1).[i] = Some (Some row)) as [Hs1 Hall1].
  { refine (foldM_inv (λ pre c, rtc svc_step cfg0 c ∧ ∀ i, i ∈ pre → ∃ row, (sc_endnames c).[i] = Some (Some row)) _ _ _ _ _ _ H1).
    - split; [done|]. by intros i ?%elem_of_nil.
    - intros pre i c c' [Hc Hpre] Hstart. split; [eapply rtc_r; [exact Hc|]; by eapply s_start|].
      destruct (svc_steps_ok _ _ Hok Hc) as [Hokc _]. destruct (StartServer_ok _ _ _ _ Hokc Hstart) as (_ & _ & Hi & Hj).
      intros j [Hin| ->%list_elem_of_singleton]%elem_of_app; [|done]. destruct (decide (j = i)) as [->|Hne]; [done|].
      rewrite Hj by done. by apply Hpre. }
  assert (rtc svc_step cfg1 cfg2) as Hs2.
  { refine (foldM_inv (λ _ c, rtc svc_step cfg1 c) _ _ _ _ _ _ H2); [done|].
    intros pre i c c' Hc Hconn. eapply rtc_r; [exact Hc|]. by eapply s_connect. }
  destruct (svc_steps_ok _ _ Hok Hs1) as [Hok1 [Hn1 _]]. destruct (svc_steps_ok _ _ Hok1 Hs2) as [_ [Hn2 Hr2]].
  simpl. split_and!; [|congruence|].
  - exists cfg0. simpl. split; [rewrite Hn2, Hn1, Hn; exact Hnew|].
    eapply rtc_r; [etrans; [exact Hs1|exact Hs2]|]. apply (s_reliable cfg2).
  - intros i Hi. simpl in *. destruct (Hall1 i) as [row Hr]; [apply elem_of_seqZ; lia|]. by apply Hr2 in Hr.
Qed.

(** ** Dealing the parts *)

Definition others (l : Z) (p : list Z) : list Z := filter (λ i, i ≠ l) p.

Lemma others_snoc l p i : others l (p ++ [i]) = if decide (i = l) then others l p else others l p ++ [i].
Proof. unfold others. rewrite list.filter_app, filter_cons, filter_nil. destruct (decide (i = l)); repeat case_decide; rewrite ?app_nil_r; done. Qed.

Lemma slice_set_padding (p : list Z) k x :
  (0 < k)%nat → slice_set (p ++ replicate k 0) (len p) x = Some ((p ++ [x]) ++ replicate (k - 1) 0).
Proof.
  intros Hk. rewrite slice_set_lt by (rewrite length_app, length_replicate; lia). f_equal. rewrite Nat2Z.id.
  rewrite insert_app_r_alt, Nat.sub_diag by lia. destruct k as [|k]; [lia|]. simpl. rewrite Nat.sub_0_r, <-app_assoc. done.
Qed.

(** What the two parts hold when [d] has been dealt: the first [k1], then the rest. *)
Definition dealt (k1 k2 : nat) (d : list Z) : list Z * list Z * Z :=
  (take k1 d ++ replicate (k1 - length d) 0, drop k1 d ++ replicate (k2 - (length d - k1)) 0, len d).

Lemma deal_loop l k1 k2 p :
  (length (others l p) ≤ k1 + k2)%nat →
  foldM (deal l) (replicate k1 0, replicate k2 0, 0) p = Some (dealt k1 k2 (others l p)).
Proof.
  induction p as [|i p IH] using rev_ind; intros Hlen.
  { unfold dealt, others. rewrite filter_nil, take_nil, drop_nil. simpl. by rewrite !Nat.sub_0_r. }
  rewrite foldM_snoc. rewrite others_snoc in *. destruct (decide (i = l)) as [->|Hne].
  - rewrite IH by done. simpl. by rewrite Z.eqb_refl.
  - rewrite length_app in Hlen. simpl in Hlen. rewrite IH by lia. set (d := others l p) in *. simpl.
    rewrite (proj2 (Z.eqb_neq i l)) by done.
    assert (length (take k1 d ++ replicate (k1 - length d) 0) = k1) as Hl1 by (rewrite length_app, length_replicate, length_take; lia).
    rewrite Hl1. destruct (Z.ltb_spec (len d) (Z.of_nat k1)) as [Hlt|Hge].
    + rewrite (take_ge d) by lia. rewrite slice_set_padding by lia. cbn [mbind option_bind]. unfold dealt.
      rewrite length_app. simpl. rewrite (take_ge (d ++ [i])) by (rewrite length_app; simpl; lia).
      rewrite !drop_ge by (rewrite ?length_app; simpl; lia).
      replace (k1 - length d - 1)%nat with (k1 - (length d + 1))%nat by lia.
      replace (length d - k1)%nat with 0%nat by lia. replace (length d + 1 - k1)%nat with 0%nat by lia.
      do 2 f_equal. lia.
    + assert (len d - Z.of_nat k1 = len (drop k1 d)) as -> by (rewrite length_drop; lia).
      rewrite slice_set_padding by lia. cbn [mbind option_bind]. unfold dealt.
      rewrite length_app. simpl. rewrite take_app_le, drop_app_le by lia.
      replace (k2 - (length d - k1) - 1)%nat with (k2 - (length d + 1 - k1))%nat by lia.
      replace (k1 - (length d + 1))%nat with (k1 - length d)%nat by lia. do 2 f_equal. lia.
Qed.

Lemma others_seqZ l n : 0 ≤ l < n → seqZ 0 n ≡ₚ l :: others l (seqZ 0 n).
Proof.
  intros Hl. apply NoDup_Permutation.
  - apply NoDup_seqZ.
  - apply list.NoDup_cons. split; [unfold others; by intros [? _]%list_elem_of_filter|]. apply list.NoDup_filter, NoDup_seqZ.
  - intros i. unfold others. rewrite elem_of_cons, list_elem_of_filter. rewrite elem_of_seqZ. destruct (decide (i = l)); naive_solver lia.
Qed.

Lemma Leader_range cfg hps (b : bool) l : 0 < sc_n cfg → Leader cfg hps = Some (b, l) → 0 ≤ l < sc_n cfg.
Proof.
  intros Hn Hf. unfold Leader in Hf. assert (∀ pre, (∀ i, i ∈ pre → i ∈ seqZ 0 (sc_n cfg)) → ∀ acc,
    foldM (λ (acc : bool * Z) i, if (acc.1 : bool) then Some acc else
      kv ← (sc_servers cfg).[i]; a ← kv; x ← hps i !! a;
      Some (if (inst_GetState x).2 : bool then (true, i) else acc)) (false, 0) pre = Some acc → 0 ≤ acc.2 < sc_n cfg) as Hpre.
  { induction pre as [|i pre IH] using rev_ind; intros Hin acc; [intros [= <-]; simpl; lia|]. rewrite foldM_snoc.
    destruct (foldM _ _ pre) as [acc0|] eqn:Ha; cbn [mbind option_bind]; [|done].
    assert (0 ≤ acc0.2 < sc_n cfg) as H0' by (apply IH; [intros j Hj; apply Hin, elem_of_app; by left|done]).
    destruct (acc0.1); [by intros [= <-]|]. destruct (_.[i]) as [kv|]; cbn [mbind option_bind]; [|done].
    destruct kv as [a|]; cbn [mbind option_bind]; [|done]. destruct (hps i !! a) as [x|]; cbn [mbind option_bind]; [|done].
    assert (i ∈ seqZ 0 (sc_n cfg)) as Hi by (apply Hin, elem_of_app; right; left). apply elem_of_seqZ in Hi.
    destruct ((inst_GetState x).2); intros [= <-]; simpl; [lia|done]. }
  apply (Hpre (seqZ 0 (sc_n cfg)) ltac:(done) (b, l) Hf).
Qed.

(** For an odd number of servers the parts are a majority and a minority with [l]. *)
Lemma make_partition_odd cfg hps (b : bool) l m :
  sc_n cfg = 2 * Z.of_nat m + 1 → (1 ≤ m)%nat → Leader cfg hps = Some (b, l) →
  ∃ p1 p2, make_partition cfg hps = Some (p1, p2) ∧ p1 ++ p2 ≡ₚ All cfg ∧ length p1 = S m ∧ list.last p2 = Some l.
Proof.
  intros Hn Hm Hleader. pose proof (Leader_range cfg hps b l ltac:(lia) Hleader) as Hl.
  unfold make_partition. rewrite Hleader. cbn [mbind option_bind].
  assert (Z.quot (sc_n cfg) 2 = Z.of_nat m) as Hq by (rewrite Hn; symmetry; apply (Z.quot_unique _ 2 _ 1); lia).
  rewrite Hq, !make_slice_nonneg by lia. cbn [mbind option_bind].
  replace (Z.to_nat (Z.of_nat m + 1)) with (S m) by lia. rewrite Nat2Z.id.
  pose proof (others_seqZ l (sc_n cfg) Hl) as Hperm. set (d := others l (seqZ 0 (sc_n cfg))) in *.
  assert (length d = 2 * m)%nat as Hd.
  { apply Permutation_length in Hperm. rewrite length_seqZ in Hperm. simpl in Hperm. lia. }
  rewrite deal_loop by (fold d; lia). fold d. unfold dealt. cbn [mbind option_bind]. rewrite Hd.
  replace (S m - 2 * m)%nat with 0%nat by lia. replace (m - (2 * m - S m))%nat with 1%nat by lia.
  cbn [replicate]. rewrite app_nil_r. rewrite length_app, length_drop, Hd. cbn [length].
  replace (Z.of_nat (2 * m - S m + 1) - 1) with (len (drop (S m) d)) by (rewrite length_drop, Hd; lia).
  pose proof (slice_set_padding (drop (S m) d) 1 l ltac:(lia)) as Hset. cbn [replicate Nat.sub] in Hset. rewrite app_nil_r in Hset.
  rewrite Hset. cbn [mbind option_bind]. eexists _, _. split; [done|]. split_and!.
  - unfold All. rewrite Hperm, app_assoc, take_drop. by rewrite Permutation_app_comm.
  - rewrite length_take, Hd. lia.
  - apply last_snoc.
Qed.

(** For an even number the last but one of the smaller part is never dealt, and stays 0:
    server 0 is on both sides unless it is [l]. *)
Lemma make_partition_even cfg hps (b : bool) l m :
  sc_n cfg = 2 * Z.of_nat m → (2 ≤ m)%nat → Leader cfg hps = Some (b, l) → l ≠ 0 →
  ∃ p1 p2, make_partition cfg hps = Some (p1, p2) ∧ 0 ∈ p1 ∧ 0 ∈ p2.
Proof.
  intros Hn Hm Hleader Hl0. pose proof (Leader_range cfg hps b l ltac:(lia) Hleader) as Hl.
  unfold make_partition. rewrite Hleader. cbn [mbind option_bind].
  assert (Z.quot (sc_n cfg) 2 = Z.of_nat m) as Hq by (rewrite Hn; symmetry; apply (Z.quot_unique _ 2 _ 0); lia).
  rewrite Hq, !make_slice_nonneg by lia. cbn [mbind option_bind].
  replace (Z.to_nat (Z.of_nat m + 1)) with (S m) by lia. rewrite Nat2Z.id.
  pose proof (others_seqZ l (sc_n cfg) Hl) as Hperm.
  assert (∃ d, others l (seqZ 0 (sc_n cfg)) = 0 :: d) as [d Hd].
  { rewrite (seqZ_cons 0) by lia. unfold others. rewrite filter_cons_True by done. eauto. }
  rewrite Hd in Hperm. assert (S (length d) = 2 * m - 1)%nat as Hlen.
  { apply Permutation_length in Hperm. rewrite length_seqZ in Hperm. simpl in Hperm. lia. }
  rewrite deal_loop by (rewrite Hd; simpl; lia). rewrite Hd. unfold dealt. cbn [mbind option_bind length].
  rewrite Hlen. replace (m - (2 * m - 1 - S m))%nat with 2%nat by lia.
  set (q := drop (S m) (0 :: d)). cbn [replicate].
  assert (q ++ [0; 0] = (q ++ [0]) ++ replicate 1 0) as Hq2 by by rewrite <-app_assoc.
  rewrite Hq2, length_app. replace (Z.of_nat (length (q ++ [0]) + length (replicate 1 0)) - 1) with (len (q ++ [0])) by (simpl; lia).
  rewrite slice_set_padding by lia. cbn [mbind option_bind]. eexists _, _. split; [done|]. split.
  - simpl. left.
  - rewrite !elem_of_app. left. left. right. left.
Qed.

(** ** Properties *)

Implicit Types (r : Request (Name := IName)).

(** A request between servers gets through when their link is enabled and the other runs. *)
Lemma server_request cfg r a b name sn (k : nat) rel :
  svc_ok cfg → r_phase r = Reading → rq_endname (r_msg r) = NStr name → row_name (sc_endnames cfg) a b = Some name →
  r_phase (process_read false (sc_net cfg) r) = Waiting sn k rel ↔
  linked cfg a b ∧ sn = NInt b ∧ (sc_servers cfg).[b] = Some (Some k) ∧ rel = reliable (sc_net cfg).
Proof.
  intros Hok Hr He Hn. rewrite process_read_waiting, He by done. destruct (so_name _ Hok _ _ _ Hn) as [_ Hc].
  unfold linked. rewrite Hn, Hc. split.
  - intros (Hen & [= <-] & Hs & ->). apply (so_server _ Hok) in Hs. split_and!; [by exists name|done..].
  - intros ((x & [= <-] & Hen) & -> & Hs & ->). apply (so_server _ Hok) in Hs. done.
Qed.

(** C32. Cutting the cluster isolates the leader: in any state the tests reach in which an
    odd number of servers, three or more, have been started, [make_partition] deals all of
    them into a majority and a minority that holds the server [Leader] found, and after
    [partition] a request between two servers that the network does not drop is handed over
    exactly when they are on the same side and the receiver runs, and then to the instance
    that runs now. *)
Theorem cut_isolates_leader cfg hps (found : bool) l m :
  svc_reachable cfg → all_started cfg → sc_n cfg = 2 * Z.of_nat m + 1 → (1 ≤ m)%nat → Leader cfg hps = Some (found, l) →
  ∃ p1 p2 cfg', make_partition cfg hps = Some (p1, p2) ∧ partition p1 p2 cfg = Some cfg'
    ∧ p1 ++ p2 ≡ₚ All cfg ∧ length p1 = S m ∧ l ∈ p2
    ∧ ∀ r a b name sn (k : nat) rel,
        r_phase r = Reading → rq_endname (r_msg r) = NStr name → row_name (sc_endnames cfg) a b = Some name →
        r_phase (process_read false (sc_net cfg') r) = Waiting sn k rel ↔
        (a ∈ p1 ↔ b ∈ p1) ∧ sn = NInt b ∧ (sc_servers cfg).[b] = Some (Some k) ∧ rel = reliable (sc_net cfg').
Proof.
  intros Hok%svc_reachable_ok Hall Hn Hm Hl.
  destruct (make_partition_odd cfg hps found l m Hn Hm Hl) as (p1 & p2 & Hp & Hperm & Hlen & Hlast).
  assert (∀ i, i ∈ p1 ++ p2 ↔ 0 ≤ i < sc_n cfg) as Hin by (intros i; rewrite Hperm; unfold All; rewrite elem_of_seqZ; lia).
  assert (len (p1 ++ p2) = sc_n cfg) as Hsum by (rewrite Hperm; unfold All; rewrite length_seqZ; lia).
  rewrite length_app in Hsum.
  assert (∀ i, i ∈ p1 → i ∉ p2) as Hdisj.
  { assert (NoDup (p1 ++ p2)) as Hnd by (rewrite Hperm; apply NoDup_seqZ). by apply list.NoDup_app in Hnd as (_ & ? & _). }
  destruct (partition_links cfg p1 p2 Hok Hall) as (cfg' & Hpart & Hf & Hlinks);
    [intros i Hi; apply Hin, elem_of_app; by left|intros i Hi; apply Hin, elem_of_app; by right|lia|lia|done|].
  destruct (flags_only_ok _ _ Hok Hf) as [Hok' _]. destruct (flags_only_same _ _ Hf) as (He & _ & Hs & _).
  exists p1, p2, cfg'. split_and!; [done..| |].
  - apply last_Some in Hlast as [q ->]. apply elem_of_app. right. left.
  - intros r a b name sn k rel Hr Hend Hname. rewrite (server_request cfg' r a b name sn k rel Hok' Hr Hend) by by rewrite He.
    pose proof Hname as (row & Hrow & Hj)%row_name_Some.
    assert (0 ≤ a < sc_n cfg) as Ha by (apply mk_is_Some, slice_get_is_Some in Hrow; rewrite (so_rows _ Hok) in Hrow; lia).
    assert (0 ≤ b < sc_n cfg) as Hb.
    { apply mk_is_Some, slice_get_is_Some in Hj. rewrite (so_row _ Hok _ _ Hrow) in Hj. lia. }
    rewrite Hlinks, Hs; [|by eexists|by apply Hin|by apply Hin].
    apply Hin, elem_of_app in Ha. apply Hin, elem_of_app in Hb. pose proof (Hdisj a). pose proof (Hdisj b). tauto.
Qed.
(** A restart continues from the last state the server saved: after [ShutdownServer] of
    a running server and whatever happens while it is down, its old instance running on
    and the network still carrying its requests included, [StartServer] makes the new
    instance from what the persister held at the shutdown, Raft state and snapshot, and
    the harness then shows that instance as the running server. *)
Theorem restart_passes_last_state cfg i (k : nat) x cfg1 cfg2 draw cfg3 :
  svc_reachable cfg → (sc_servers cfg).[i] = Some (Some k) → sc_heap cfg !! k = Some x →
  ShutdownServer i cfg = Some cfg1 → rtc (down_step i) cfg1 cfg2 → StartServer start_inst services_of i draw cfg2 = Some cfg3 →
  ∃ y, start_inst (sc_n cfg) i (inst_persister x) = Some y
    ∧ (sc_servers cfg3).[i] = Some (Some (length (sc_heap cfg2))) ∧ sc_heap cfg3 !! length (sc_heap cfg2) = Some y
    ∧ default None (servers (sc_net cfg3) !! NInt i) = Some (length (sc_heap cfg2)).
Proof.
  intros Hok%svc_reachable_ok Hk Hx Hshut Hdown Hstart.
  destruct (ShutdownServer_saves _ _ _ _ _ Hok Hk Hx Hshut) as [Hsaved1 _].
  destruct (ShutdownServer_ok _ _ _ Hok Hshut) as (Hok1 & Hn1 & _).
  assert ((sc_saved cfg2).[i] = Some (SOwn (inst_persister x)) ∧ svc_ok cfg2 ∧ sc_n cfg2 = sc_n cfg) as (Hsaved2 & Hok2 & Hn2).
  { clear Hstart Hshut. induction Hdown as [c|c c' c'' [Hs Hd] _ IH]; [done|].
    destruct (svc_step_ok _ _ Hok1 Hs) as [Hok' [Hn' _]]. apply IH; [by eapply down_keeps_saved|done|congruence]. }
  destruct (StartServer_ok _ _ _ _ Hok2 Hstart) as (Hok3 & _). unfold StartServer in Hstart.
  destruct (slice_set (sc_endnames cfg2) i _); cbn [mbind option_bind] in Hstart; [|done].
  destruct (make_ends _ _ _ _); cbn [mbind option_bind] in Hstart; [|done].
  rewrite Hsaved2 in Hstart. cbn [mbind option_bind svc_start_persister] in Hstart. rewrite Persister_Copy_id, Hn2 in Hstart.
  destruct (start_inst (sc_n cfg) i _) as [y|]; cbn [mbind option_bind] in Hstart; [|done].
  destruct (slice_set (sc_saved cfg2) i _); cbn [mbind option_bind] in Hstart; [|done].
  destruct (slice_set (sc_servers cfg2) i _) as [servers'|] eqn:Hset; cbn [mbind option_bind] in Hstart; [|done]. injection Hstart as <-.
  exists y. split; [done|]. simpl. split; [by eapply slice_get_set_eq|]. split.
  - by rewrite lookup_app_r, Nat.sub_diag.
  - by rewrite lookup_insert_eq.
Qed.
End route.

(** ** Random handles *)

Lemma swap_perm {A} (l l1 l2 : list A) i j x y :
  l.[j] = Some x → l.[i] = Some y → slice_set l i x = Some l1 → slice_set l1 j y = Some l2 → l2 ≡ₚ l.
Proof.
  rewrite !slice_get_Some, !slice_set_Some. intros [Hj Hx] [Hi Hy] [Hri ->] [Hrj ->].
  destruct (decide (Z.to_nat i = Z.to_nat j)) as [Heq|Hne].
  - rewrite Heq in *. assert (x = y) as -> by congruence. by rewrite list_insert_insert_eq, list_insert_id.
  - apply Permutation_insert_swap; done.
Qed.

(** The handles are the same in another order, whatever the draws. *)
Lemma random_handles_perm {A} (rnd : Z → Z) (l : list A) :
  (∀ i, 0 ≤ i → 0 ≤ rnd i ≤ i) → ∃ l', random_handles rnd l = Some l' ∧ l' ≡ₚ l.
Proof.
  intros Hrnd. unfold random_handles.
  destruct (foldM_total (λ _ sa, sa ≡ₚ l) (λ (sa : list A) i, let j := rnd i in
    x ← sa.[j]; y ← sa.[i]; sa ← slice_set sa i x; slice_set sa j y) l (seqZ 0 (len l))) as (l' & Hl & Hp); [done| |by exists l'].
  intros pre i rest sa Hi Hsa. assert (i ∈ seqZ 0 (len l)) as Hr by (rewrite Hi; apply elem_of_app; right; left).
  apply elem_of_seqZ in Hr. pose proof (Permutation_length Hsa) as Hlen. specialize (Hrnd i ltac:(lia)).
  destruct (slice_get_lt sa (rnd i)) as [x Hx]; [lia|]. destruct (slice_get_lt sa i) as [y Hy]; [lia|].
  simpl. rewrite Hx, Hy. simpl. rewrite slice_set_lt by lia. simpl. rewrite slice_set_lt by (rewrite length_insert; lia).
  eexists. split; [done|]. etrans; [|exact Hsa].
  eapply (swap_perm sa _ _ i (rnd i)); [done..| |]; apply slice_set_Some; (split; [rewrite ?length_insert; lia|done]).
Qed.

(** ** A concrete cluster *)
Module CutDemo.
Export ZeroRand CountableCodec.

Definition services_of (a : nat) : Service (V := nat) (W := nat) * Service (V := nat) (W := nat) :=
  (new_service "KVServer" [], new_service "Raft" []).

(** The names of the ends of server [k]. *)
Definition draw (k : Z) (j : nat) : string :=
  String (Ascii.ascii_of_nat (65 + Z.to_nat k)) (String (Ascii.ascii_of_nat (65 + j)) "").

(** Three key/value servers, of which number 1 is found to be the leader. *)
Definition started : option (SvcConfig (KVServer * Raft Op) nat nat) :=
  kv_make_config services_of (-1) 3 false draw.
Definition elected (cfg : SvcConfig (KVServer * Raft Op) nat nat) (i : Z) : list (KVServer * Raft Op) :=
  imap (λ a x, (x.1, if Nat.eqb a 1 then x.2 <| state := LEADER |> else x.2)) (sc_heap cfg).

Lemma started_leader : (λ cfg, (sc_n cfg, Leader cfg (elected cfg))) <$> started = Some (3, Some (true, 1)).
Proof. vm_compute. reflexivity. Qed.

Lemma started_exists : is_Some started.
Proof. pose proof started_leader as Hl. destruct started as [cfg|]; [by exists cfg|discriminate Hl]. Qed.

Lemma started_finds cfg : started = Some cfg → Leader cfg (elected cfg) = Some (true, 1).
Proof. intros Hs. pose proof started_leader as Hl. rewrite Hs in Hl. exact (proj2 (RouteDemo.Some_pair _ _ _ _ Hl)). Qed.

Lemma started_ok cfg :
  started = Some cfg → svc_reachable (start_kv (-1)) services_of cfg ∧ sc_n cfg = 3 ∧ all_started cfg.
Proof. unfold started, kv_make_config. apply make_config_started. Qed.

(** Server 1 is shut down, its old instance votes for itself, and it is started again. *)
Definition old_votes (cfg : SvcConfig (KVServer * Raft Op) nat nat) : option (SvcConfig (KVServer * Raft Op) nat nat) :=
  x ← sc_heap cfg !! 1%nat; Some (cfg <| sc_heap := <[1%nat := (x.1, x.2 <| voteFor := 1 |>)]> (sc_heap cfg) |>).
Definition stopped : option (SvcConfig (KVServer * Raft Op) nat nat) := cfg ← started; ShutdownServer 1 cfg.
Definition restarted : option (SvcConfig (KVServer * Raft Op) nat nat) :=
  cfg ← stopped; cfg ← old_votes cfg; kv_StartServer services_of (-1) 1 (draw 9) cfg.

Lemma started_server :
  (λ cfg, ((sc_servers cfg).[1], bool_decide (is_Some (sc_heap cfg !! 1%nat)))) <$> started = Some (Some (Some 1%nat), true).
Proof. vm_compute. reflexivity. Qed.

Lemma stopped_server : (λ cfg, ((sc_servers cfg).[1], true)) <$> stopped = Some (Some None, true).
Proof. vm_compute. reflexivity. Qed.

Lemma restarted_server : (λ cfg, length (sc_heap cfg)) <$> restarted = Some 4%nat.
Proof. vm_compute. reflexivity. Qed.

Lemma restarted_steps :
  ∃ cfg x cfg1 cfg2 cfg3, started = Some cfg ∧ (sc_servers cfg).[1] = Some (Some 1%nat) ∧ sc_heap cfg !! 1%nat = Some x
    ∧ ShutdownServer 1 cfg = Some cfg1 ∧ rtc (down_step (start_kv (-1)) services_of 1) cfg1 cfg2
    ∧ StartServer (start_kv (-1)) services_of 1 (draw 9) cfg2 = Some cfg3.
Proof.
  pose proof started_server as Hs. pose proof stopped_server as Hd. pose proof restarted_server as Hr.
  unfold restarted in Hr. unfold stopped in Hd, Hr.
  destruct started as [cfg|]; [|discriminate Hs]. cbn [mbind option_bind] in Hd, Hr.
  destruct (ShutdownServer 1 cfg) as [cfg1|] eqn:H1; [|discriminate Hd]. cbn [mbind option_bind] in Hr.
  destruct (old_votes cfg1) as [cfg2|] eqn:H2; [|discriminate Hr]. cbn [mbind option_bind] in Hr.
  destruct (kv_StartServer _ _ _ _ _) as [cfg3|] eqn:H3; [|discriminate Hr].
  apply RouteDemo.Some_pair in Hs as [Hs [x Hx]%bool_decide_eq_true]. apply RouteDemo.Some_pair in Hd as [Hd _].
  exists cfg, x, cfg1, cfg2, cfg3. split_and!; [done|done|done|done| |exact H3].
  unfold old_votes in H2. destruct (sc_heap cfg1 !! 1%nat) as [x1|] eqn:Hx1; [|discriminate H2].
  injection H2 as <-. apply rtc_once. split; [by eapply s_server|exact Hd].
Qed.
End CutDemo.
Import CutDemo.

Lemma cut_isolates_leader_witness :
  ∃ cfg p1 p2 cfg', started = Some cfg ∧ make_partition cfg (elected cfg) = Some (p1, p2)
    ∧ partition p1 p2 cfg = Some cfg' ∧ length p1 = 2%nat ∧ 1 ∈ p2.
Proof.
  destruct started_exists as [cfg Hs]. destruct (started_ok cfg Hs) as (Hr & Hn & Hall).
  destruct (cut_isolates_leader (start_kv (-1)) services_of cfg (elected cfg) true 1 1 Hr Hall Hn (le_n 1) (started_finds cfg Hs))
    as (p1 & p2 & cfg' & Hp & Hc & _ & Hl & Hin & _).
  exists cfg, p1, p2, cfg'. split; [exact Hs|]. split; [exact Hp|]. split; [exact Hc|]. split; [exact Hl|exact Hin].
Defined.

Lemma restart_passes_last_state_witness :
  ∃ cfg x (cfg3 : SvcConfig (KVServer * Raft Op) nat nat) y, started = Some cfg ∧ sc_heap cfg !! 1%nat = Some x ∧ start_kv (-1) (sc_n cfg) 1 (persister x.2) = Some y
    ∧ y ∈ sc_heap cfg3.
Proof.
  destruct restarted_steps as (cfg & x & cfg1 & cfg2 & cfg3 & Hs & Hk & Hx & Hshut & Hdown & Hstart).
  destruct (started_ok cfg Hs) as (Hr & _).
  destruct (restart_passes_last_state (start_kv (-1)) services_of cfg 1 1 x cfg1 cfg2 (draw 9) cfg3 Hr Hk Hx Hshut Hdown Hstart)
    as (y & Hy & _ & Hheap & _).
  exists cfg, x, cfg3, y. split; [exact Hs|]. split; [exact Hx|]. split; [exact Hy|]. exact (list_elem_of_lookup_2 _ _ _ Hheap).
Defined.
