(* ===== verification/ShardKvHarness.v ===== *)
(** * The test harness of the sharded service ([shardkv/config.go])

    A shardmaster service and groups of key/value servers on one simulated network, where
    the servers have names that the shardmaster's configurations can hold: the tests start
    and shut down servers and groups, make clerks, and tell the shardmaster which groups
    join and leave. *)
From S2P Require Import Prelude RaftState ShardConfig LabRpc HarnessNet RaftHarness ShardMaster ShardKv.

(** Servers have an address, the place where they are in [sk_heap] and [sk_srvs], counted
    in the order of creation: shardmasters and key/value servers, with the peers under them. *)
Inductive Obj :=
  | OMaster (sm : ShardMaster.ShardMaster * Raft ShardMaster.Op)
  | OShard (kv : ShardKV * Raft Cmd).

Definition obj_persister (o : Obj) : Persister :=
  match o with OMaster sm => persister sm.2 | OShard kv => persister kv.2 end.
Definition obj_Kill (o : Obj) : option Obj :=
  match o with
  | OMaster sm => OMaster <$> SM_Kill sm.1 sm.2
  | OShard kv => OShard <$> ShardKV_Kill kv.1 kv.2
  end.

Record group := MkGroup {
  g_gid : Z;
  g_servers : list (option nat);
  g_saved : list Saved;
  g_endnames : list (option (list string));
  g_mendnames : list (option (list string))
}.
#[export] Instance group_eta : Eta group := λ g, MkGroup (g_gid g) (g_servers g) (g_saved g) (g_endnames g) (g_mendnames g).

(** The ends to the shardmasters of a clerk of the service, in [sk_cks], and of the clerk
    of the shardmaster, [sk_mck]; [V] and [W] are as in [LabRpc]. *)
Record ShardHarness (V W : Type) := MkShardHarness {
  sk_net : @Network IName IName_eq_dec IName_countable;
  nmasters : Z;
  masterservers : list (option nat);
  sk_mck : option (list string);
  ngroups : Z;
  sk_n : Z;
  sk_groups : list (option group);
  sk_clerks : gmap nat (list string);
  sk_nextClientId : Z;
  sk_maxraftstate : Z;
  sk_heap : list Obj;
  sk_srvs : list (Server (V := V) (W := W));
  sk_cks : list (list string)
}.
Arguments MkShardHarness {V W}. Arguments sk_net {V W}. Arguments nmasters {V W}. Arguments masterservers {V W}.
Arguments sk_mck {V W}. Arguments ngroups {V W}. Arguments sk_n {V W}. Arguments sk_groups {V W}. Arguments sk_clerks {V W}.
Arguments sk_nextClientId {V W}. Arguments sk_maxraftstate {V W}. Arguments sk_heap {V W}. Arguments sk_srvs {V W}.
Arguments sk_cks {V W}.
#[export] Instance ShardHarness_eta V W : Eta (ShardHarness V W) := λ c,
  MkShardHarness (sk_net c) (nmasters c) (masterservers c) (sk_mck c) (ngroups c) (sk_n c) (sk_groups c) (sk_clerks c)
    (sk_nextClientId c) (sk_maxraftstate c) (sk_heap c) (sk_srvs c) (sk_cks c).

(** The calls of [t.Fatalf] in [checklogs]. *)
Inductive LogFailure := LogTooBig (size maxraftstate : Z) | SnapshotNotEmpty.

Definition mastername (i : Z) : string := "master" +:+ pretty i.
Definition servername (gid i : Z) : string := "server-" +:+ pretty gid +:+ "-" +:+ pretty i.

(** Fresh ends that lead to servers by name. *)
Definition ends_to (server : Z → string) (names : list string) (net : @Network IName _ _) : option (@Network IName _ _) :=
  make_ends (λ j, NStr (server j)) true names net.

Section harness.
Context {V W : Type} `{GoRand, GobCodec (RaftVal ShardMaster.Op), GobCodec (RaftVal Cmd), GobCodec ShardVal}.
(** [labrpc.MakeService] of the server and of its peer at an address. *)
Variable services_of : nat → Service (V := V) (W := W) * Service (V := V) (W := W).
Implicit Types (cfg : ShardHarness V W) (gg : group) (i gi : Z).

(** The entry of a group that was never made is nil. *)
Definition get_group cfg gi : option group := g ← (sk_groups cfg).[gi]; g.
Definition set_group gi gg cfg : option (ShardHarness V W) :=
  groups' ← slice_set (sk_groups cfg) gi (Some gg); Some (cfg <| sk_groups := groups' |>).

(** A method of a nil persister panics. *)
Definition sk_persister cfg gg i : option Persister :=
  s ← (g_saved gg).[i];
  match s with
  | SNil => None
  | SOwn p => Some p
  | SRaft a => obj_persister <$> sk_heap cfg !! a
  end.

Definition checklog cfg gi i : option (option LogFailure) :=
  gg ← get_group cfg gi;
  p ← sk_persister cfg gg i;
  let raft := RaftStateSize p in
  let snap := len (default [] (Persister_ReadSnapshot p)) in
  let max := sk_maxraftstate cfg in
  Some (if (max >=? 0) && (raft >? 8 * max) then Some (LogTooBig raft max)
        else if (max <? 0) && (snap >? 0) then Some SnapshotNotEmpty else None).

(** The first failure ends the test. *)
Definition checklogs cfg : option (option LogFailure) :=
  foldM (λ r '(gi, i), if (r : option LogFailure) is Some _ then Some r else checklog cfg gi i) None
    (gi ← seqZ 0 (ngroups cfg); i ← seqZ 0 (sk_n cfg); [(gi, i)]).

(** The closure that servers and clerks use to reach a server by name; [name] is drawn. *)
Definition make_end (name servername : string) cfg : option (ShardHarness V W) :=
  net ← ends_to (λ _, servername) [name] (sk_net cfg); Some (cfg <| sk_net := net |>).

(** The names are written into a slice of length [cfg.n]. *)
Definition makeClient (draw : nat → string) cfg : option (ShardHarness V W * nat) :=
  endnames ← make_slice (sk_n cfg) "";
  let names := draw_row draw (nmasters cfg) in
  endnames ← foldM (λ es p, slice_set es (Z.of_nat p.1) (p.2 : string)) endnames (imap pair names);
  net ← ends_to mastername names (sk_net cfg);
  let ck := length (sk_cks cfg) in
  Some (cfg <| sk_net := net |> <| sk_cks := sk_cks cfg ++ [names] |> <| sk_clerks := <[ck := endnames]> (sk_clerks cfg) |>
            <| sk_nextClientId := sk_nextClientId cfg + 1 |>, ck).

Definition deleteClient (ck : nat) cfg : ShardHarness V W := cfg <| sk_clerks := delete ck (sk_clerks cfg) |>.

(** ** Servers *)

Definition sk_copy_saved cfg (s : Saved) : option Saved :=
  match s with
  | SNil => Some SNil
  | SOwn p => Some (SOwn (Persister_Copy p))
  | SRaft a => x ← sk_heap cfg !! a; Some (SOwn (Persister_Copy (obj_persister x)))
  end.

Definition ShutdownServer gi i cfg : option (ShardHarness V W) :=
  gg ← get_group cfg gi;
  net ← enable_each (λ j, Some <$> row_name (g_endnames gg) i j) false (seqZ 0 (len (g_servers gg))) (sk_net cfg);
  mrow ← (g_mendnames gg).[i];
  net ← enable_each (λ j, Some <$> row_name (g_mendnames gg) i j) false (seqZ 0 (len (default [] mrow))) net;
  let net := DeleteServer (NStr (servername (g_gid gg) i)) net in
  s ← (g_saved gg).[i];
  s ← sk_copy_saved cfg s;
  saved' ← slice_set (g_saved gg) i s;
  kv ← (g_servers gg).[i];
  heap' ← match kv with
          | Some a => x ← sk_heap cfg !! a; x ← obj_Kill x; Some (<[a := x]> (sk_heap cfg))
          | None => Some (sk_heap cfg)
          end;
  servers' ← slice_set (g_servers gg) i None;
  set_group gi (gg <| g_saved := saved' |> <| g_servers := servers' |>)
    (cfg <| sk_net := net |> <| sk_heap := heap' |>).

Definition ShutdownGroup gi cfg : option (ShardHarness V W) :=
  foldM (λ cfg i, ShutdownServer gi i cfg) cfg (seqZ 0 (sk_n cfg)).

Definition sk_start_persister cfg (s : Saved) : option Persister :=
  match s with
  | SNil => Some MakePersister
  | SOwn p => Some (Persister_Copy p)
  | SRaft a => x ← sk_heap cfg !! a; Some (Persister_Copy (obj_persister x))
  end.

(** A server is put on the network under its name. *)
Definition add_server (name : string) (o : Obj) cfg : ShardHarness V W :=
  let a := length (sk_heap cfg) in
  cfg <| sk_net := AddServer (NStr name) a (sk_net cfg) |> <| sk_heap := sk_heap cfg ++ [o] |>
      <| sk_srvs := sk_srvs cfg ++ [AddService (services_of a).2 (AddService (services_of a).1 new_server)] |>.

(** [draw] are the names of the ends to the group's servers, [mdraw] those to the masters. *)
Definition StartServer gi i (draw mdraw : nat → string) cfg : option (ShardHarness V W) :=
  gg ← get_group cfg gi;
  let row := draw_row draw (sk_n cfg) in
  endnames' ← slice_set (g_endnames gg) i (Some row);
  net ← ends_to (servername (g_gid gg)) row (sk_net cfg);
  let mrow := draw_row mdraw (nmasters cfg) in
  mendnames' ← slice_set (g_mendnames gg) i (Some mrow);
  net ← ends_to mastername mrow net;
  s ← (g_saved gg).[i];
  p ← sk_start_persister cfg s;
  x ← ShardKv.StartServer (sk_n cfg) i p (sk_maxraftstate cfg) (g_gid gg);
  let a := length (sk_heap cfg) in
  saved' ← slice_set (g_saved gg) i (SRaft a);
  servers' ← slice_set (g_servers gg) i (Some a);
  cfg ← set_group gi (MkGroup (g_gid gg) servers' saved' endnames' mendnames') (cfg <| sk_net := net |>);
  Some (add_server (servername (g_gid gg) i) (OShard x) cfg).

Definition StartGroup gi (draws mdraws : Z → nat → string) cfg : option (ShardHarness V W) :=
  foldM (λ cfg i, StartServer gi i (draws i) (mdraws i) cfg) cfg (seqZ 0 (sk_n cfg)).

Definition StartMasterServer i (draw : nat → string) cfg : option (ShardHarness V W) :=
  net ← ends_to mastername (draw_row draw (nmasters cfg)) (sk_net cfg);
  x ← ShardMaster.StartServer (nmasters cfg) i MakePersister;
  masterservers' ← slice_set (masterservers cfg) i (Some (length (sk_heap cfg)));
  Some (add_server (mastername i) (OMaster x) (cfg <| sk_net := net |> <| masterservers := masterservers' |>)).

Definition shardclerk (draw : nat → string) cfg : option (ShardHarness V W * list string) :=
  let names := draw_row draw (nmasters cfg) in
  net ← ends_to mastername names (sk_net cfg);
  Some (cfg <| sk_net := net |>, names).

(** ** Joining and leaving: what [Join] and [Leave] of the clerk are called with *)

Definition group_names cfg (gid : Z) : list string := servername gid <$> seqZ 0 (sk_n cfg).

Definition joinm (gis : list Z) cfg : option (gmap Z (list string)) :=
  foldM (λ m g, gg ← get_group cfg g; Some (<[g_gid gg := group_names cfg (g_gid gg)]> m)) ∅ gis.
Definition join gi cfg : option (gmap Z (list string)) := joinm [gi] cfg.

Definition leavem (gis : list Z) cfg : option (list Z) :=
  foldM (λ gids g, gg ← get_group cfg g; Some (gids ++ [g_gid gg])) [] gis.
Definition leave gi cfg : option (list Z) := leavem [gi] cfg.

(** ** Making and ending a test *)

Definition new_harness (maxraftstate : Z) : option (ShardHarness V W) :=
  masters ← make_slice 3 None;
  Some (MkShardHarness new_network 3 masters None 0 0 [] ∅ 0 maxraftstate [] [] []).

(** Loop body of the groups: [mendnames] has a row per shardmaster. *)
Definition make_group gi (draws mdraws : Z → nat → string) cfg : option (ShardHarness V W) :=
  servers ← make_slice (sk_n cfg) None;
  saved ← make_slice (sk_n cfg) SNil;
  endnames ← make_slice (sk_n cfg) None;
  mendnames ← make_slice (nmasters cfg) None;
  cfg ← set_group gi (MkGroup (100 + gi) servers saved endnames mendnames) cfg;
  foldM (λ cfg i, StartServer gi i (draws i) (mdraws i) cfg) cfg (seqZ 0 (sk_n cfg)).

(** The names drawn: for the masters, their clerk, the groups' servers among themselves
    and to the masters. *)
Record Draws := MkDraws {
  dr_master : Z → nat → string;
  dr_clerk : nat → string;
  dr_server : Z → Z → nat → string;
  dr_mends : Z → Z → nat → string
}.

Definition make_config (n : Z) (unreliable : bool) (maxraftstate : Z) (d : Draws) : option (ShardHarness V W) :=
  cfg ← new_harness maxraftstate;
  cfg ← foldM (λ cfg i, StartMasterServer i (dr_master d i) cfg) cfg (seqZ 0 (nmasters cfg));
  '(cfg, mck) ← shardclerk (dr_clerk d) cfg;
  groups ← make_slice 3 None;
  let cfg := cfg <| sk_mck := Some mck |> <| ngroups := 3 |> <| sk_groups := groups |> <| sk_n := n |> in
  cfg ← foldM (λ cfg gi, make_group gi (dr_server d gi) (dr_mends d gi) cfg) cfg (seqZ 0 (ngroups cfg));
  let cfg := cfg <| sk_clerks := ∅ |> <| sk_nextClientId := n + 1000 |> in
  Some (cfg <| sk_net := Reliable (negb unreliable) (sk_net cfg) |>).

Definition cleanup {C} (failed : bool) (elapsed : Z) cfg : Test C (ShardHarness V W) :=
  cfg ← lift (foldM (λ cfg gi, ShutdownGroup gi cfg) cfg (seqZ 0 (ngroups cfg)));
  net ← lift (Cleanup (sk_net cfg));
  _ ← checkTimeout failed elapsed;
  passes (cfg <| sk_net := net |>).
End harness.
