(* ===== verification/ShardKvRoute.v ===== *)
(** * The test harness of the sharded service: names that lead to running servers

    The invariant of the harness's tables, kept by whatever a test does: every server's name
    leads to its running instance and to nothing else, and the ends that clerks and servers
    make stay enabled while groups are shut down and started around them. *)
From S2P Require Import Prelude RaftState ShardConfig LabRpc HarnessNet RaftHarness HarnessRoute ShardMaster ShardKv ShardKvHarness.

(** ** Names *)

Lemma mastername_inj i j : mastername i = mastername j → i = j.
Proof. unfold mastername. intros He. simpl in He. injection He as He. exact (inj pretty _ _ He). Qed.

Lemma servername_inj g i g' i' : 0 ≤ g → 0 ≤ g' → servername g i = servername g' i' → g = g' ∧ i = i'.
Proof.
  intros Hg Hg' He. unfold servername in He. simpl in He. injection He as He.
  apply dash_split in He as [?%(inj pretty) ?%(inj pretty)]; [done|by apply pretty_Z_digits..].
Qed.

Lemma mastername_ne_servername i g j : mastername i ≠ servername g j.
Proof. unfold mastername, servername. by simpl. Qed.

Section route.
Context {V W : Type} `{GoRand, GobCodec (RaftVal ShardMaster.Op), GobCodec (RaftVal Cmd), GobCodec ShardVal}.
Variable services_of : nat → Service (V := V) (W := W) * Service (V := V) (W := W).
Implicit Types (cfg : ShardHarness V W) (gg : group) (i j gi : Z) (net : @Network IName IName_eq_dec IName_countable)
  (name : string).

(** The instance of a group's server that runs, and of a shardmaster. *)
Definition running cfg gi i : option nat := gg ← get_group cfg gi; kv ← (g_servers gg).[i]; kv.
Definition master cfg i : option nat := sm ← (masterservers cfg).[i]; sm.

(** Whom a name leads to. *)
Definition at_name net name : option nat := default None (servers net !! NStr name).

(** A group's server uses the end now, or it was the last to use it. *)
Definition in_group cfg name : Prop :=
  ∃ gi gg i j, get_group cfg gi = Some gg ∧ (row_name (g_endnames gg) i j = Some name ∨ row_name (g_mendnames gg) i j = Some name).

Record shard_ok cfg : Prop := {
  sk_gid gi gg : get_group cfg gi = Some gg → g_gid gg = 100 + gi;
  sk_running gi i : 0 ≤ gi → at_name (sk_net cfg) (servername (100 + gi) i) = running cfg gi i;
  sk_master i : at_name (sk_net cfg) (mastername i) = master cfg i;
  sk_names name : in_group cfg name → NStr name ∈ ends (sk_net cfg)
}.

(** Ends stay where they lead, and only ends of the groups' servers are disabled. *)
Record keeps_ends cfg cfg' : Prop := {
  ke_ends e : e ∈ ends (sk_net cfg) → e ∈ ends (sk_net cfg') ∧ connections (sk_net cfg') !! e = connections (sk_net cfg) !! e;
  ke_enabled name : NStr name ∈ ends (sk_net cfg) → ¬ in_group cfg name →
    enabled (sk_net cfg') !! NStr name = enabled (sk_net cfg) !! NStr name;
  ke_names name : in_group cfg' name → in_group cfg name ∨ NStr name ∉ ends (sk_net cfg)
}.

Lemma get_group_range cfg gi gg : get_group cfg gi = Some gg → 0 ≤ gi.
Proof.
  unfold get_group. destruct ((sk_groups cfg).[gi]) as [o|] eqn:Ho; simpl; [|done]. intros _.
  by apply slice_get_Some in Ho as [? _].
Qed.

Lemma set_group_spec gi gg cfg cfg' :
  set_group gi gg cfg = Some cfg' →
  ∃ groups', cfg' = cfg <| sk_groups := groups' |> ∧ 0 ≤ gi ∧ get_group cfg' gi = Some gg
    ∧ ∀ gj, gj ≠ gi → get_group cfg' gj = get_group cfg gj.
Proof.
  unfold set_group. destruct (slice_set _ _ _) as [groups'|] eqn:Hs; simpl; [|done]. intros [= <-].
  exists groups'. split; [done|]. unfold get_group. simpl. rewrite (slice_get_set_eq _ _ _ _ Hs). split_and!; [|done|].
  - apply slice_set_Some in Hs as [? _]. lia.
  - intros gj Hne. by rewrite (slice_get_set_ne _ _ _ _ _ Hs).
Qed.

Lemma ends_to_spec server names net net' :
  ends_to server names net = Some net' →
  NoDup names ∧ (∀ name, name ∈ names → NStr name ∉ ends net) ∧ servers net' = servers net
  ∧ (∀ e, e ∈ ends net' ↔ e ∈ ends net ∨ ∃ name, name ∈ names ∧ e = NStr name)
  ∧ (∀ k name, names !! k = Some name → connections net' !! NStr name = Some (Some (NStr (server (Z.of_nat k)))))
  ∧ (∀ name, name ∈ names → enabled net' !! NStr name = Some true)
  ∧ (∀ e, e ∈ ends net → connections net' !! e = connections net !! e ∧ enabled net' !! e = enabled net !! e)
  ∧ reliable net' = reliable net.
Proof.
  unfold ends_to. intros Hm. destruct (make_ends_spec _ _ _ _ _ Hm) as (Hnd & Hfresh & (Hrel & _) & Hends & Hsrv & Hcon & Hen & Hother).
  split_and!; try done. intros e He. apply Hother. intros name Hn ->. by apply (Hfresh name).
Qed.

(** ** Steps that leave the groups alone *)

Definition same_groups cfg cfg' : Prop := sk_groups cfg' = sk_groups cfg ∧ masterservers cfg' = masterservers cfg.

Lemma in_group_same cfg cfg' name : sk_groups cfg' = sk_groups cfg → in_group cfg' name ↔ in_group cfg name.
Proof. intros Hg. unfold in_group, get_group. by rewrite Hg. Qed.

Lemma ends_step server names cfg cfg' :
  shard_ok cfg → ends_to server names (sk_net cfg) = Some (sk_net cfg') → same_groups cfg cfg' → shard_ok cfg' ∧ keeps_ends cfg cfg'.
Proof.
  intros [Hgid Hrun Hmaster Hnames] (_ & Hfresh & Hsrv & Hends & _ & _ & Hother & _)%ends_to_spec [Hg Hms].
  split; split.
  - intros gi gg. unfold get_group. rewrite Hg. apply Hgid.
  - intros gi i. unfold at_name, running, get_group. rewrite Hsrv, Hg. apply Hrun.
  - intros i. unfold at_name, master. rewrite Hsrv, Hms. apply Hmaster.
  - intros name Hin%(in_group_same _ _ _ Hg). apply Hends. left. by apply Hnames.
  - intros e He. split; [apply Hends; by left|]. by apply Hother.
  - intros name He _. by apply Hother.
  - intros name Hin%(in_group_same _ _ _ Hg). by left.
Qed.

Lemma idle_step cfg cfg' :
  shard_ok cfg → same_groups cfg cfg' → ends (sk_net cfg') = ends (sk_net cfg) →
  connections (sk_net cfg') = connections (sk_net cfg) → enabled (sk_net cfg') = enabled (sk_net cfg) →
  servers (sk_net cfg') = servers (sk_net cfg) → shard_ok cfg' ∧ keeps_ends cfg cfg'.
Proof.
  intros [Hgid Hrun Hmaster Hnames] [Hg Hms] He Hc Hf Hs. split; split.
  - intros gi gg. unfold get_group. rewrite Hg. apply Hgid.
  - intros gi i. unfold at_name, running, get_group. rewrite Hs, Hg. apply Hrun.
  - intros i. unfold at_name, master. rewrite Hs, Hms. apply Hmaster.
  - intros name Hin%(in_group_same _ _ _ Hg). rewrite He. by apply Hnames.
  - intros e. by rewrite He, Hc.
  - intros name _ _. by rewrite Hf.
  - intros name Hin%(in_group_same _ _ _ Hg). by left.
Qed.

(** ** Servers *)

Lemma at_name_insert net name name' (o : option nat) (n : @Network IName _ _) :
  servers n = <[NStr name := o]> (servers net) → at_name n name' = if decide (name' = name) then o else at_name net name'.
Proof.
  intros Hs. unfold at_name. rewrite Hs. destruct (decide (name' = name)) as [->|Hne].
  - by rewrite lookup_insert_eq.
  - by rewrite lookup_insert_ne by congruence.
Qed.

Lemma StartMasterServer_ok i draw cfg cfg' :
  shard_ok cfg → StartMasterServer services_of i draw cfg = Some cfg' → shard_ok cfg' ∧ keeps_ends cfg cfg' ∧ sk_groups cfg' = sk_groups cfg.
Proof.
  intros Hok Hstart. unfold StartMasterServer in Hstart.
  destruct (ends_to _ _ (sk_net cfg)) as [net|] eqn:He; cbn [mbind option_bind] in Hstart; [|done].
  destruct (ShardMaster.StartServer _ _ _) as [x|]; cbn [mbind option_bind] in Hstart; [|done].
  destruct (slice_set (masterservers cfg) i _) as [ms'|] eqn:Hset; cbn [mbind option_bind] in Hstart; [|done]. injection Hstart as <-.
  assert (∀ c, sk_net c = net → same_groups cfg c → shard_ok c ∧ keeps_ends cfg c) as Hends
    by (intros c <- Hsame; by eapply ends_step).
  destruct (Hends (cfg <| sk_net := net |>)) as [[Hgid Hrun Hmaster Hnames] [Hke Hen Hin]]; [done|by split|].
  split_and!; [| |done]; split; simpl; [exact Hgid| | |exact Hnames|exact Hke|exact Hen|exact Hin].
  - intros gi j Hgi. unfold add_server. simpl. rewrite (at_name_insert net (mastername i) _ (Some (length (sk_heap cfg)))) by done.
    rewrite decide_False by (intros Heq; by apply (mastername_ne_servername i (100 + gi) j)). by apply Hrun.
  - intros j. unfold add_server. simpl. rewrite (at_name_insert net (mastername i) _ (Some (length (sk_heap cfg)))) by done.
    unfold master. simpl. destruct (decide (mastername j = mastername i)) as [->%mastername_inj|Hne].
    + by rewrite (slice_get_set_eq _ _ _ _ Hset).
    + rewrite (slice_get_set_ne _ _ _ _ _ Hset) by congruence. apply Hmaster.
Qed.

(** A server of group [gi] is replaced, on the network and in the group. *)
Lemma group_tables cfg cfg' gi gg gg' i (o : option nat) :
  shard_ok cfg → get_group cfg gi = Some gg → get_group cfg' gi = Some gg' →
  (∀ gj, gj ≠ gi → get_group cfg' gj = get_group cfg gj) → g_gid gg' = g_gid gg → masterservers cfg' = masterservers cfg →
  servers (sk_net cfg') = <[NStr (servername (g_gid gg) i) := o]> (servers (sk_net cfg)) →
  slice_set (g_servers gg) i o = Some (g_servers gg') →
  (∀ gj g, get_group cfg' gj = Some g → g_gid g = 100 + gj)
  ∧ (∀ gj j, 0 ≤ gj → at_name (sk_net cfg') (servername (100 + gj) j) = running cfg' gj j)
  ∧ (∀ j, at_name (sk_net cfg') (mastername j) = master cfg' j).
Proof.
  intros [Hgid Hrun Hmaster _] Hgg Hgg' Hother Hid Hms Hs Hset.
  pose proof (get_group_range _ _ _ Hgg) as Hgi. pose proof (Hgid _ _ Hgg) as Hg.
  split_and!.
  - intros gj g Hj. destruct (decide (gj = gi)) as [->|Hne]; [|rewrite Hother in Hj by done; by apply Hgid].
    rewrite Hgg' in Hj. injection Hj as <-. congruence.
  - intros gj j Hgj. rewrite (at_name_insert (sk_net cfg) (servername (g_gid gg) i) _ o) by done. unfold running.
    destruct (decide (gj = gi)) as [->|Hne].
    + rewrite Hgg', Hg. cbn [mbind option_bind]. destruct (decide (j = i)) as [->|Hji].
      * rewrite decide_True by done. by rewrite (slice_get_set_eq _ _ _ _ Hset).
      * rewrite decide_False by (intros [_ ?]%servername_inj; [done|lia..]).
        rewrite (slice_get_set_ne _ _ _ _ _ Hset) by done. rewrite Hrun by done. unfold running. by rewrite Hgg.
    + rewrite decide_False by (rewrite Hg; intros [? _]%servername_inj; lia). rewrite Hother by done. by apply Hrun.
  - intros j. rewrite (at_name_insert (sk_net cfg) (servername (g_gid gg) i) _ o) by done.
    rewrite decide_False by apply mastername_ne_servername. unfold master. rewrite Hms. apply Hmaster.
Qed.

(** The rows of the other groups, and those of [gg'], are the group's servers' ends. *)
Lemma in_group_set cfg cfg' gi gg' name :
  get_group cfg' gi = Some gg' → (∀ gj, gj ≠ gi → get_group cfg' gj = get_group cfg gj) → in_group cfg' name →
  in_group cfg name ∨ ∃ i j, row_name (g_endnames gg') i j = Some name ∨ row_name (g_mendnames gg') i j = Some name.
Proof.
  intros Hgg' Hother (gj & g & i & j & Hj & Hrow). destruct (decide (gj = gi)) as [->|Hne].
  - rewrite Hgg' in Hj. injection Hj as <-. right. eauto.
  - rewrite Hother in Hj by done. left. by exists gj, g, i, j.
Qed.

Lemma row_name_set rows rows' i row a j name :
  slice_set rows i (Some row) = Some rows' → row_name rows' a j = Some name →
  row_name rows a j = Some name ∨ name ∈ row.
Proof.
  intros Hset Hn. unfold row_name in *. destruct (decide (a = i)) as [->|Hne].
  - rewrite (slice_get_set_eq _ _ _ _ Hset) in Hn. right. by eapply slice_get_elem.
  - rewrite (slice_get_set_ne _ _ _ _ _ Hset) in Hn by done. by left.
Qed.

Lemma group_StartServer_ok gi i draw mdraw cfg cfg' :
  shard_ok cfg → StartServer services_of gi i draw mdraw cfg = Some cfg' →
  shard_ok cfg' ∧ keeps_ends cfg cfg' ∧ is_Some (get_group cfg gi) ∧ ∀ gj, gj ≠ gi → get_group cfg' gj = get_group cfg gj.
Proof.
  intros Hok Hstart. unfold StartServer in Hstart.
  destruct (get_group cfg gi) as [gg|] eqn:Hgg; cbn [mbind option_bind] in Hstart; [|done].
  destruct (slice_set (g_endnames gg) i _) as [rows'|] eqn:Hrows; cbn [mbind option_bind] in Hstart; [|done].
  destruct (ends_to _ _ (sk_net cfg)) as [net1|] eqn:Hm1; cbn [mbind option_bind] in Hstart; [|done].
  destruct (slice_set (g_mendnames gg) i _) as [mrows'|] eqn:Hmrows; cbn [mbind option_bind] in Hstart; [|done].
  destruct (ends_to _ _ net1) as [net2|] eqn:Hm2; cbn [mbind option_bind] in Hstart; [|done].
  destruct ((g_saved gg).[i]) as [s|]; cbn [mbind option_bind] in Hstart; [|done].
  destruct (sk_start_persister cfg s) as [p|]; cbn [mbind option_bind] in Hstart; [|done].
  destruct (ShardKv.StartServer _ _ _ _ _) as [x|]; cbn [mbind option_bind] in Hstart; [|done].
  destruct (slice_set (g_saved gg) i _) as [saved'|]; cbn [mbind option_bind] in Hstart; [|done].
  destruct (slice_set (g_servers gg) i _) as [servers'|] eqn:Hset; cbn [mbind option_bind] in Hstart; [|done].
  destruct (set_group gi _ _) as [cfg1|] eqn:Hg; cbn [mbind option_bind] in Hstart; [|done]. injection Hstart as <-.
  apply set_group_spec in Hg as (groups' & -> & Hgi & Hnew & Hother).
  apply ends_to_spec in Hm1 as (_ & Hf1 & Hs1 & He1 & _ & _ & Hc1 & _).
  apply ends_to_spec in Hm2 as (_ & Hf2 & Hs2 & He2 & _ & _ & Hc2 & _).
  assert (∀ name, in_group (cfg <| sk_net := net2 |> <| sk_groups := groups' |>) name →
    in_group cfg name ∨ name ∈ draw_row draw (sk_n cfg) ∨ name ∈ draw_row mdraw (nmasters cfg)) as Hin.
  { intros name [Hc|(a & j & Hrow)]%(in_group_set _ _ _ _ _ Hnew Hother); [by left|]. simpl in Hrow.
    destruct Hrow as [Hrow|Hrow].
    - destruct (row_name_set _ _ _ _ _ _ _ Hrows Hrow) as [Hr|Hr]; [|by right; left]. left. exists gi, gg, a, j. auto.
    - destruct (row_name_set _ _ _ _ _ _ _ Hmrows Hrow) as [Hr|Hr]; [|by right; right]. left. exists gi, gg, a, j. auto. }
  destruct (group_tables cfg (add_server services_of (servername (g_gid gg) i) (OShard x)
      (cfg <| sk_net := net2 |> <| sk_groups := groups' |>)) gi gg
    (MkGroup (g_gid gg) servers' saved' rows' mrows') i (Some (length (sk_heap cfg))) Hok Hgg Hnew Hother)
    as (Hgid' & Hrun' & Hmaster'); [done|done|simpl; by rewrite Hs2, Hs1|done|].
  split_and!; [| |done|exact Hother]; split; [exact Hgid'|exact Hrun'|exact Hmaster'|..]; simpl.
  - intros name [Hc|[Hr|Hr]]%Hin; apply He2.
    + left. apply He1. left. by apply (sk_names _ Hok).
    + left. apply He1. right. eauto.
    + right. eauto.
  - intros e He. assert (e ∈ ends net1) as He' by (apply He1; by left). split; [apply He2; by left|].
    destruct (Hc2 e He') as [-> _]. by apply Hc1.
  - intros name He _. assert (NStr name ∈ ends net1) as He' by (apply He1; by left).
    destruct (Hc2 _ He') as [_ ->]. by apply Hc1.
  - intros name [Hc|[Hr|Hr]]%Hin; [by left|right; by apply Hf1|right].
    intros He. apply (Hf2 name Hr), He1. by left.
Qed.

Lemma disable_row rows i js net net' :
  enable_each (λ j, Some <$> row_name rows i j) false js net = Some net' →
  same_but_enabled net net' ∧ ∀ name, (¬ ∃ j, row_name rows i j = Some name) → enabled net' !! NStr name = enabled net !! NStr name.
Proof.
  intros He. destruct (enable_each_spec _ false _ net (enable_each_choose _ _ _ _ _ He)) as (net1 & He1 & Hs & _ & Hout).
  rewrite He in He1. injection He1 as <-. split; [done|]. intros name Hno.
  destruct (Hout (NStr name)) as [?|(_ & j & name' & _ & Hj & [= <-])]; [done|]. destruct Hno. exists j.
  by apply fmap_Some in Hj as (x & -> & [= <-]).
Qed.

Lemma group_ShutdownServer_ok gi i cfg cfg' :
  shard_ok cfg → ShutdownServer gi i cfg = Some cfg' → shard_ok cfg' ∧ keeps_ends cfg cfg'.
Proof.
  intros Hok Hshut. unfold ShutdownServer in Hshut.
  destruct (get_group cfg gi) as [gg|] eqn:Hgg; cbn [mbind option_bind] in Hshut; [|done].
  destruct (enable_each _ _ _ (sk_net cfg)) as [net1|] eqn:Hm1; cbn [mbind option_bind] in Hshut; [|done].
  destruct ((g_mendnames gg).[i]) as [mrow|]; cbn [mbind option_bind] in Hshut; [|done].
  destruct (enable_each _ _ _ net1) as [net2|] eqn:Hm2; cbn [mbind option_bind] in Hshut; [|done].
  destruct ((g_saved gg).[i]) as [s|]; cbn [mbind option_bind] in Hshut; [|done].
  destruct (sk_copy_saved cfg s) as [s'|]; cbn [mbind option_bind] in Hshut; [|done].
  destruct (slice_set (g_saved gg) i s') as [saved'|]; cbn [mbind option_bind] in Hshut; [|done].
  destruct ((g_servers gg).[i]) as [kv|]; cbn [mbind option_bind] in Hshut; [|done].
  destruct (match kv with Some a => _ | None => _ end) as [heap'|]; cbn [mbind option_bind] in Hshut; [|done].
  destruct (slice_set (g_servers gg) i None) as [servers'|] eqn:Hset; cbn [mbind option_bind] in Hshut; [|done].
  apply set_group_spec in Hshut as (groups' & -> & Hgi & Hnew & Hother).
  apply disable_row in Hm1 as [Hs1 Hf1]. apply disable_row in Hm2 as [Hs2 Hf2].
  assert (∀ name, in_group (cfg <| sk_groups := groups' |>) name → in_group cfg name) as Hin.
  { intros name [Hc|(a & j & Hrow)]%(in_group_set _ _ _ _ _ Hnew Hother); [done|]. exists gi, gg, a, j. auto. }
  set (cfg2 := _ <| sk_groups := groups' |>) in *.
  destruct (group_tables cfg cfg2 gi gg (gg <| g_saved := saved' |> <| g_servers := servers' |>) i None Hok Hgg Hnew Hother)
    as (Hgid' & Hrun' & Hmaster'); [done|done|simpl; by rewrite (sb_servers _ _ Hs2), (sb_servers _ _ Hs1)|done|].
  split; split; [exact Hgid'|exact Hrun'|exact Hmaster'|..]; simpl.
  - intros name Hc%Hin. rewrite (sb_ends _ _ Hs2), (sb_ends _ _ Hs1). by apply (sk_names _ Hok).
  - intros e He. rewrite (sb_ends _ _ Hs2), (sb_ends _ _ Hs1), (sb_connections _ _ Hs2), (sb_connections _ _ Hs1). done.
  - intros name _ Hno. rewrite Hf2, Hf1; [done|..]; intros [j Hj]; apply Hno; exists gi, gg, i, j; auto.
  - intros name Hc%Hin. by left.
Qed.

(** ** What happens in a test *)

(** The functions of the harness, the ends that servers and clerks make, the network
    carrying requests, and the servers, old instances included, which may do anything. *)
Inductive sk_step cfg : ShardHarness V W → Prop :=
  | k_start gi i draw mdraw cfg' : StartServer services_of gi i draw mdraw cfg = Some cfg' → sk_step cfg cfg'
  | k_shutdown gi i cfg' : ShutdownServer gi i cfg = Some cfg' → sk_step cfg cfg'
  | k_master i draw cfg' : StartMasterServer services_of i draw cfg = Some cfg' → sk_step cfg cfg'
  | k_shardclerk draw cfg' names : shardclerk draw cfg = Some (cfg', names) → sk_step cfg cfg'
  | k_make_end name server cfg' : make_end name server cfg = Some cfg' → sk_step cfg cfg'
  | k_makeClient draw cfg' ck : makeClient draw cfg = Some (cfg', ck) → sk_step cfg cfg'
  | k_deleteClient ck : sk_step cfg (deleteClient ck cfg)
  | k_reliable (flag : bool) : sk_step cfg (cfg <| sk_net := Reliable flag (sk_net cfg) |>)
  | k_accept args : sk_step cfg (cfg <| sk_net := accept args (sk_net cfg) |>)
  | k_bytes (n : Z) : sk_step cfg (cfg <| sk_net := (sk_net cfg) <| bytes := add_int64 (bytes (sk_net cfg)) n |> |>)
  | k_server (k : nat) (o : Obj) : sk_step cfg (cfg <| sk_heap := <[k := o]> (sk_heap cfg) |>).

Definition sk_reachable cfg : Prop :=
  ∃ n unreliable max d cfg0, make_config services_of n unreliable max d = Some cfg0 ∧ rtc sk_step cfg0 cfg.

Lemma shardclerk_ok draw cfg cfg' names :
  shard_ok cfg → shardclerk draw cfg = Some (cfg', names) → shard_ok cfg' ∧ keeps_ends cfg cfg' ∧ same_groups cfg cfg'.
Proof.
  intros Hok. unfold shardclerk. destruct (ends_to _ _ (sk_net cfg)) as [net|] eqn:He; cbn [mbind option_bind]; [|done].
  intros [= <- _]. apply and_assoc. split; [|by split]. by eapply ends_step.
Qed.

Lemma sk_step_ok cfg cfg' : shard_ok cfg → sk_step cfg cfg' → shard_ok cfg' ∧ keeps_ends cfg cfg'.
Proof.
  intros Hok Hstep.
  destruct Hstep as [gi i draw mdraw cfg' Hs|gi i cfg' Hs|i draw cfg' Hs|draw cfg' names Hs|name server cfg' Hs|draw cfg' ck Hs|ck|b|args|n|k o];
    [..|by apply idle_step|by apply idle_step|by apply idle_step|by apply idle_step|by apply idle_step].
  - by destruct (group_StartServer_ok _ _ _ _ _ _ Hok Hs) as (? & ? & _).
  - by eapply group_ShutdownServer_ok.
  - by destruct (StartMasterServer_ok _ _ _ _ Hok Hs) as (? & ? & _).
  - by destruct (shardclerk_ok _ _ _ _ Hok Hs) as (? & ? & _).
  - unfold make_end in Hs. destruct (ends_to _ _ _) as [net|] eqn:He; cbn [mbind option_bind] in Hs; [|done]. injection Hs as <-.
    by eapply ends_step.
  - unfold makeClient in Hs. destruct (make_slice _ _); cbn [mbind option_bind] in Hs; [|done].
    destruct (foldM _ _ _); cbn [mbind option_bind] in Hs; [|done].
    destruct (ends_to _ _ _) as [net|] eqn:He; cbn [mbind option_bind] in Hs; [|done]. injection Hs as <- _. by eapply ends_step.
Qed.

(** ** Making a test *)

Lemma no_groups_ok cfg : (∀ gi, get_group cfg gi = None) →
  shard_ok cfg ↔ (∀ gi i, 0 ≤ gi → at_name (sk_net cfg) (servername (100 + gi) i) = None)
    ∧ ∀ i, at_name (sk_net cfg) (mastername i) = master cfg i.
Proof.
  intros Hno. assert (∀ gi i, running cfg gi i = None) as Hrun by (intros; unfold running; by rewrite Hno).
  split.
  - intros [_ Hr Hm _]. split; [|done]. intros gi i Hgi. by rewrite Hr.
  - intros [Hr Hm]. split; [|by intros gi i Hgi; rewrite Hrun, Hr|done|].
    + intros gi gg. by rewrite Hno.
    + intros name (gi & gg & i & j & Hgg & _). by rewrite Hno in Hgg.
Qed.

Lemma get_group_nil cfg gi : sk_groups cfg = [] → get_group cfg gi = None.
Proof. intros Hg. unfold get_group, slice_get. rewrite Hg. by case_match. Qed.

Lemma nil_entries {A} n (l : list (option A)) i : make_slice n None = Some l → (o ← l.[i]; o) = None.
Proof.
  unfold make_slice. destruct (Z.leb_spec 0 n); simpl; [|done]. intros [= <-].
  destruct (_.[i]) as [o|] eqn:Ho; [|done]. by apply slice_get_elem, elem_of_replicate in Ho as [-> _].
Qed.

Lemma make_group_ok gi draws mdraws cfg cfg' :
  shard_ok cfg → get_group cfg gi = None → make_group services_of gi draws mdraws cfg = Some cfg' →
  shard_ok cfg' ∧ ∀ gj, gj ≠ gi → get_group cfg' gj = get_group cfg gj.
Proof.
  intros Hok Hno Hm. unfold make_group in Hm.
  destruct (make_slice (sk_n cfg) (@None nat)) as [servers|] eqn:Hs; cbn [mbind option_bind] in Hm; [|done].
  destruct (make_slice (sk_n cfg) SNil) as [saved|]; cbn [mbind option_bind] in Hm; [|done].
  destruct (make_slice (sk_n cfg) (@None (list string))) as [rows|] eqn:Hr; cbn [mbind option_bind] in Hm; [|done].
  destruct (make_slice (nmasters cfg) (@None (list string))) as [mrows|] eqn:Hmr; cbn [mbind option_bind] in Hm; [|done].
  destruct (set_group gi _ cfg) as [cfg1|] eqn:Hg; cbn [mbind option_bind] in Hm; [|done].
  apply set_group_spec in Hg as (groups' & -> & Hgi & Hnew & Hother). set (cfg1 := cfg <| sk_groups := groups' |>) in *.
  assert (shard_ok cfg1) as Hok1.
  { split; simpl.
    - intros gj gg Hj. destruct (decide (gj = gi)) as [->|Hne]; [|rewrite Hother in Hj by done; by apply (sk_gid _ Hok)].
      rewrite Hnew in Hj. by injection Hj as <-.
    - intros gj i Hgj. rewrite (sk_running _ Hok) by done. unfold running. destruct (decide (gj = gi)) as [->|Hne]; [|rewrite Hother; done].
      rewrite Hno, Hnew. symmetry. exact (nil_entries _ _ i Hs).
    - apply (sk_master _ Hok).
    - intros name [Hc|(i & j & Hrow)]%(in_group_set _ _ _ _ _ Hnew Hother); [by apply (sk_names _ Hok)|]. simpl in Hrow.
      exfalso. assert (∀ n (rows : list (option (list string))), make_slice n None = Some rows → row_name rows i j = Some name → False) as Hnil.
      { intros n l Hl (row & Hrow' & _)%row_name_Some. pose proof (nil_entries n l i Hl) as Hn. by rewrite Hrow' in Hn. }
      destruct Hrow as [Hrow|Hrow]; [exact (Hnil _ _ Hr Hrow)|exact (Hnil _ _ Hmr Hrow)]. }
  assert (shard_ok cfg' ∧ ∀ gj, gj ≠ gi → get_group cfg' gj = get_group cfg1 gj) as [Hok' Hrest].
  { refine (foldM_inv (λ _ c, shard_ok c ∧ ∀ gj, gj ≠ gi → get_group c gj = get_group cfg1 gj) _ _ _ _ _ _ Hm); [done|].
    intros _ i c c' [Hc Hothers] Hstart. destruct (group_StartServer_ok _ _ _ _ _ _ Hc Hstart) as (? & _ & _ & Ho).
    split; [done|]. intros gj Hne. rewrite Ho by done. by apply Hothers. }
  split; [done|]. intros gj Hne. rewrite Hrest by done. by apply Hother.
Qed.

Lemma make_config_ok n unreliable max d cfg :
  make_config services_of n unreliable max d = Some cfg → shard_ok cfg.
Proof.
  unfold make_config. destruct (new_harness max) as [cfg0|] eqn:Hnew; cbn [mbind option_bind]; [|done].
  assert (shard_ok cfg0 ∧ sk_groups cfg0 = []) as Hok0.
  { unfold new_harness in Hnew. destruct (make_slice 3 (@None nat)) as [ms|] eqn:Hms; cbn [mbind option_bind] in Hnew; [|done]. injection Hnew as <-.
    split; [|done]. apply no_groups_ok; [intros gi; by apply get_group_nil|]. split; [done|]. intros i. symmetry. by eapply nil_entries. }
  destruct (foldM _ cfg0 _) as [cfg1|] eqn:Hf1; cbn [mbind option_bind]; [|done].
  assert (shard_ok cfg1 ∧ sk_groups cfg1 = []) as [Hok1 Hg1].
  { refine (foldM_inv (λ _ c, shard_ok c ∧ sk_groups c = []) _ _ _ _ Hok0 _ Hf1).
    intros _ i c c' [Hc Hg] Hstart. destruct (StartMasterServer_ok _ _ _ _ Hc Hstart) as (? & _ & ->). done. }
  destruct (shardclerk _ cfg1) as [[cfg2 mck]|] eqn:Hck; cbn [mbind option_bind]; [|done].
  destruct (shardclerk_ok _ _ _ _ Hok1 Hck) as (Hok2 & _ & [Hg2 _]). rewrite Hg1 in Hg2.
  destruct (make_slice 3 (@None group)) as [groups|] eqn:Hgs; cbn [mbind option_bind]; [|done].
  set (cfg3 := cfg2 <| sk_mck := Some mck |> <| ngroups := 3 |> <| sk_groups := groups |> <| sk_n := n |>).
  assert (∀ gi, get_group cfg2 gi = None) as Hno2 by (intros gi; by apply get_group_nil).
  assert (∀ gi, get_group cfg3 gi = None) as Hno3 by (intros gi; by eapply nil_entries).
  assert (shard_ok cfg3) as Hok3 by by apply (no_groups_ok _ Hno3), (no_groups_ok _ Hno2).
  change (seqZ 0 (ngroups cfg3)) with [0; 1; 2]. rewrite !foldM_cons.
  destruct (make_group _ 0 _ _ cfg3) as [c0|] eqn:Hm0; cbn [mbind option_bind]; [|done].
  destruct (make_group_ok _ _ _ _ _ Hok3 (Hno3 0) Hm0) as [Hc0 Ho0]. rewrite foldM_cons.
  destruct (make_group _ 1 _ _ c0) as [c1|] eqn:Hm1; cbn [mbind option_bind]; [|done].
  destruct (make_group_ok 1 (dr_server d 1) (dr_mends d 1) c0 c1 Hc0) as [Hc1 Ho1]; [by rewrite Ho0, Hno3|done|]. rewrite foldM_cons.
  destruct (make_group _ 2 _ _ c1) as [c2|] eqn:Hm2; cbn [mbind option_bind]; [|done].
  destruct (make_group_ok 2 (dr_server d 2) (dr_mends d 2) c1 c2 Hc1) as [Hc2 _]; [by rewrite Ho1, Ho0, Hno3|done|].
  intros [= <-]. by destruct (idle_step c2 (c2 <| sk_clerks := ∅ |> <| sk_nextClientId := n + 1000 |>
    <| sk_net := Reliable (negb unreliable) (sk_net c2) |>) Hc2) as [? _].
Qed.

Lemma sk_reachable_ok cfg : sk_reachable cfg → shard_ok cfg.
Proof.
  intros (n & u & max & d & cfg0 & Hm%make_config_ok & Hs). induction Hs as [|c c' c'' Hs _ IH]; [done|].
  apply IH. by apply (sk_step_ok c c').
Qed.

(** ** Sizes

    A group's table of ends to the masters has a row per master, and a clerk's list of
    ends to the masters an entry per server. *)

Lemma StartServer_mends gi i draw mdraw cfg cfg' gg :
  StartServer services_of gi i draw mdraw cfg = Some cfg' → get_group cfg gi = Some gg →
  i < len (g_mendnames gg) ∧ ∃ gg', get_group cfg' gi = Some gg' ∧ len (g_mendnames gg') = len (g_mendnames gg).
Proof.
  intros Hstart Hgg. unfold StartServer in Hstart. rewrite Hgg in Hstart. cbn [mbind option_bind] in Hstart.
  destruct (slice_set (g_endnames gg) i _) as [rows'|]; cbn [mbind option_bind] in Hstart; [|done].
  destruct (ends_to _ _ (sk_net cfg)) as [net1|]; cbn [mbind option_bind] in Hstart; [|done].
  destruct (slice_set (g_mendnames gg) i _) as [mrows'|] eqn:Hm; cbn [mbind option_bind] in Hstart; [|done].
  destruct (ends_to _ _ net1) as [net2|]; cbn [mbind option_bind] in Hstart; [|done].
  destruct ((g_saved gg).[i]) as [s|]; cbn [mbind option_bind] in Hstart; [|done].
  destruct (sk_start_persister cfg s) as [p|]; cbn [mbind option_bind] in Hstart; [|done].
  destruct (ShardKv.StartServer _ _ _ _ _) as [x|]; cbn [mbind option_bind] in Hstart; [|done].
  destruct (slice_set (g_saved gg) i _) as [saved'|]; cbn [mbind option_bind] in Hstart; [|done].
  destruct (slice_set (g_servers gg) i _) as [servers'|]; cbn [mbind option_bind] in Hstart; [|done].
  destruct (set_group gi _ _) as [cfg1|] eqn:Hg; cbn [mbind option_bind] in Hstart; [|done]. injection Hstart as <-.
  apply set_group_spec in Hg as (groups' & -> & _ & Hnew & _). pose proof Hm as [Hr _]%slice_set_Some. split; [lia|].
  eexists. split; [exact Hnew|]. simpl. by rewrite (slice_set_length _ _ _ _ Hm).
Qed.

(** With more servers in a group than masters the tests panic when they are set up. *)
Lemma make_group_many gi draws mdraws cfg :
  0 ≤ nmasters cfg < sk_n cfg → make_group services_of gi draws mdraws cfg = None.
Proof.
  intros Hn. destruct (make_group _ _ _ _ _) as [cfg'|] eqn:Hm; [exfalso|done]. unfold make_group in Hm.
  destruct (make_slice (sk_n cfg) (@None nat)) as [servers|]; cbn [mbind option_bind] in Hm; [|done].
  destruct (make_slice (sk_n cfg) SNil) as [saved|]; cbn [mbind option_bind] in Hm; [|done].
  destruct (make_slice (sk_n cfg) (@None (list string))) as [rows|]; cbn [mbind option_bind] in Hm; [|done].
  rewrite make_slice_nonneg in Hm by lia. cbn [mbind option_bind] in Hm.
  destruct (set_group gi _ cfg) as [cfg1|] eqn:Hg; cbn [mbind option_bind] in Hm; [|done].
  apply set_group_spec in Hg as (groups' & -> & _ & Hnew & _).
  assert (∀ i, i ∈ seqZ 0 (sk_n cfg) → i < nmasters cfg) as Hall.
  { refine (proj2 (foldM_inv (λ pre c, (∃ gg, get_group c gi = Some gg ∧ len (g_mendnames gg) = nmasters cfg)
      ∧ ∀ i, i ∈ pre → i < nmasters cfg) _ _ _ _ _ _ Hm)).
    - split; [|by intros i ?%elem_of_nil]. eexists. split; [exact Hnew|]. simpl. rewrite length_replicate. lia.
    - intros pre i c c' [(gg & Hgg & Hlen) Hpre] Hstart. destruct (StartServer_mends _ _ _ _ _ _ _ Hstart Hgg) as (Hi & gg' & Hgg' & Hlen').
      split; [exists gg'; split; [done|congruence]|]. intros j [Hj| ->%list_elem_of_singleton]%elem_of_app; [by apply Hpre|lia]. }
  specialize (Hall (sk_n cfg - 1)). rewrite elem_of_seqZ in Hall. lia.
Qed.

(** With fewer servers in a group than masters no clerk can be made. *)
Lemma makeClient_few draw cfg : 0 ≤ sk_n cfg < nmasters cfg → makeClient draw cfg = None.
Proof.
  intros Hn. unfold makeClient. rewrite make_slice_nonneg by lia. cbn [mbind option_bind].
  destruct (foldM _ _ _) as [es|] eqn:Hf; cbn [mbind option_bind]; [exfalso|done].
  set (names := draw_row draw (nmasters cfg)) in *.
  assert (len names = nmasters cfg) as Hlen by (apply draw_row_length; lia).
  destruct (lookup_lt_is_Some_2 names (Z.to_nat (sk_n cfg))) as [name Hname]; [lia|].
  assert (∀ p, p ∈ imap pair names → Z.of_nat p.1 < sk_n cfg) as Hall.
  { refine (proj2 (foldM_inv (λ pre (l : list string), len l = sk_n cfg ∧ ∀ p, p ∈ pre → Z.of_nat p.1 < sk_n cfg) _ _ _ _ _ _ Hf)).
    - split; [rewrite length_replicate; lia|]. by intros p ?%elem_of_nil.
    - intros pre p l l' [Hl Hpre] Hset. rewrite (slice_set_length _ _ _ _ Hset). split; [done|].
      apply slice_set_Some in Hset as [Hr _]. intros q [Hq| ->%list_elem_of_singleton]%elem_of_app; [by apply Hpre|lia]. }
  specialize (Hall (Z.to_nat (sk_n cfg), name)). simpl in Hall. assert (Z.of_nat (Z.to_nat (sk_n cfg)) < sk_n cfg); [|lia].
  apply Hall. apply list_elem_of_lookup. exists (Z.to_nat (sk_n cfg)). rewrite list_lookup_imap, Hname. done.
Qed.

(** ** What clerks rely on *)

(** An end made for a name, which no group's server uses. *)
Record client_end cfg e name : Prop := {
  cl_made : NStr e ∈ ends (sk_net cfg);
  cl_leads : connections (sk_net cfg) !! NStr e = Some (Some (NStr name));
  cl_enabled : enabled (sk_net cfg) !! NStr e = Some true;
  cl_free : ¬ in_group cfg e
}.

Lemma make_end_client e name cfg cfg' : shard_ok cfg → make_end e name cfg = Some cfg' → client_end cfg' e name.
Proof.
  intros Hok Hm. unfold make_end in Hm. destruct (ends_to _ _ _) as [net|] eqn:He; cbn [mbind option_bind] in Hm; [|done]. injection Hm as <-.
  apply ends_to_spec in He as (_ & Hfresh & _ & Hends & Hcon & Hen & _). split; simpl.
  - apply Hends. right. exists e. split; [left|done].
  - by apply (Hcon 0%nat).
  - apply Hen. left.
  - intros Hin%(sk_names _ Hok). by apply (Hfresh e); [left|].
Qed.

Lemma client_end_stays e name cfg cfg' : shard_ok cfg → rtc (sk_step) cfg cfg' → client_end cfg e name → shard_ok cfg' ∧ client_end cfg' e name.
Proof.
  intros Hok Hs. revert Hok. induction Hs as [c|c c1 c2 Hs _ IH]; intros Hok Hc; [done|].
  destruct (sk_step_ok _ _ Hok Hs) as [Hok1 Hk]. destruct Hc as [Hm Hl Hen Hf].
  destruct (ke_ends _ _ Hk (NStr e) Hm) as [Hm' Hl']. apply IH; [done|]. split; [done|by rewrite Hl'| |].
  - by rewrite (ke_enabled _ _ Hk).
  - by intros [?|?]%(ke_names _ _ Hk).
Qed.

Implicit Types (r : Request (Name := IName)).

Lemma client_request cfg e name r sn (k : nat) rel :
  client_end cfg e name → r_phase r = Reading → rq_endname (r_msg r) = NStr e →
  r_phase (process_read false (sk_net cfg) r) = Waiting sn k rel ↔
  at_name (sk_net cfg) name = Some k ∧ sn = NStr name ∧ rel = reliable (sk_net cfg).
Proof. intros [_ Hl Hen _] Hr He. rewrite process_read_waiting, He, Hl, Hen by done. unfold at_name. naive_solver. Qed.

(** What [joinm] announces. *)
Lemma joinm_spec gis cfg m :
  joinm gis cfg = Some m → ∀ g names, m !! g = Some names →
  ∃ gi gg, gi ∈ gis ∧ get_group cfg gi = Some gg ∧ g_gid gg = g ∧ names = group_names cfg g.
Proof.
  unfold joinm. intros Hf.
  refine (foldM_inv (λ pre m, ∀ g names, m !! g = Some names →
    ∃ gi gg, gi ∈ pre ∧ get_group cfg gi = Some gg ∧ g_gid gg = g ∧ names = group_names cfg g) _ _ _ _ _ _ Hf); [done|].
  intros pre gi m1 m2 IH Hstep g names Hg. destruct (get_group cfg gi) as [gg|] eqn:Hgg; cbn [mbind option_bind] in Hstep; [|done].
  injection Hstep as <-. apply lookup_insert_Some in Hg as [[<- <-]|[_ Hg]].
  - exists gi, gg. split_and!; [|done..]. apply elem_of_app. right. left.
  - destruct (IH _ _ Hg) as (gj & g' & ? & ? & ? & ?). exists gj, g'. split_and!; [|done..]. apply elem_of_app. by left.
Qed.

(** A group that joins can be reached, for good: if the harness tells the shardmaster the
    servers of groups, and a clerk or a server makes an end for the [i]-th name of the
    group [g], then after anything else a test does, groups being shut down and started
    included, a request on that end is handed over exactly when the [i]-th server of that
    group runs, and then to its running instance. *)
Theorem joined_group_reached cfg gis m g names i name e cfg1 cfg2 :
  sk_reachable cfg → joinm gis cfg = Some m → m !! g = Some names → names.[i] = Some name →
  make_end e name cfg = Some cfg1 → rtc sk_step cfg1 cfg2 →
  ∃ gi, gi ∈ gis ∧ g = 100 + gi
    ∧ ∀ r sn (k : nat) rel, r_phase r = Reading → rq_endname (r_msg r) = NStr e →
        r_phase (process_read false (sk_net cfg2) r) = Waiting sn k rel ↔
        running cfg2 gi i = Some k ∧ sn = NStr name ∧ rel = reliable (sk_net cfg2).
Proof.
  intros Hok%sk_reachable_ok Hjoin Hg Hname Hmake Hsteps.
  destruct (joinm_spec _ _ _ Hjoin _ _ Hg) as (gi & gg & Hgi & Hgg & Hgid & ->).
  pose proof (get_group_range _ _ _ Hgg) as Hpos. pose proof (sk_gid _ Hok _ _ Hgg) as Hgid'.
  assert (name = servername g i) as ->.
  { unfold group_names in Hname. apply slice_get_Some in Hname as [Hi Hn].
    apply list_lookup_fmap_Some in Hn as (x & -> & Hx). apply lookup_seqZ in Hx as [-> _]. f_equal. lia. }
  destruct (sk_step_ok _ _ Hok (k_make_end _ _ _ _ Hmake)) as [Hok1 _].
  destruct (client_end_stays _ _ _ _ Hok1 Hsteps (make_end_client _ _ _ _ Hok Hmake)) as [Hok2 Hc].
  exists gi. split; [done|]. split; [congruence|]. intros r sn k rel Hr He. rewrite (client_request _ _ _ _ _ _ _ Hc Hr He).
  rewrite <-(sk_running _ Hok2) by done. by rewrite <-Hgid', Hgid.
Qed.
End route.

(** ** A concrete test *)
Module ShardDemo.
Export ZeroRand CountableCodec.

Definition services_of (a : nat) : Service (V := nat) (W := nat) * Service (V := nat) (W := nat) :=
  (new_service "ShardKV" [], new_service "Raft" []).

Definition letters (l : list Z) : string := String.string_of_list_ascii ((λ k, Ascii.ascii_of_nat (65 + Z.to_nat k)) <$> l).
Definition draws : Draws := MkDraws
  (λ i k, letters [0; i; Z.of_nat k]) (λ k, letters [1; Z.of_nat k])
  (λ gi i k, letters [2; gi; i; Z.of_nat k]) (λ gi i k, letters [3; gi; i; Z.of_nat k]).

(** Three groups of three; the first and the last join, and a server of the last one is
    restarted after an end for it has been made. *)
Definition started : option (ShardHarness nat nat) := make_config services_of 3 false (-1) draws.
Definition ended : option (ShardHarness nat nat) := cfg ← started; make_end "e" "server-102-1" cfg.
Definition stopped : option (ShardHarness nat nat) := cfg ← ended; ShutdownServer 2 1 cfg.
Definition restarted : option (ShardHarness nat nat) :=
  cfg ← stopped; StartServer services_of 2 1 (λ k, letters [4; Z.of_nat k]) (λ k, letters [5; Z.of_nat k]) cfg.

Lemma started_joins :
  (cfg ← started; m ← joinm [0; 2] cfg; m !! 102) = Some ["server-102-0"; "server-102-1"; "server-102-2"].
Proof. vm_compute. reflexivity. Qed.

Lemma restarted_running : (λ cfg, running cfg 2 1) <$> restarted = Some (Some 12%nat).
Proof. vm_compute. reflexivity. Qed.

Lemma rejoin_steps :
  ∃ cfg m cfg1 cfg2, sk_reachable services_of cfg ∧ joinm [0; 2] cfg = Some m
    ∧ m !! 102 = Some ["server-102-0"; "server-102-1"; "server-102-2"]
    ∧ make_end "e" "server-102-1" cfg = Some cfg1 ∧ rtc (sk_step services_of) cfg1 cfg2 ∧ running cfg2 2 1 = Some 12%nat.
Proof.
  pose proof started_joins as Hj. pose proof restarted_running as Hr. unfold restarted, stopped, ended in Hr.
  destruct started as [cfg|] eqn:Hs; [|discriminate Hj]. cbn [mbind option_bind] in Hj, Hr.
  destruct (joinm [0; 2] cfg) as [m|] eqn:Hm; [|discriminate Hj]. cbn [mbind option_bind] in Hj.
  destruct (make_end "e" "server-102-1" cfg) as [cfg1|] eqn:H1; [|discriminate Hr]. cbn [mbind option_bind] in Hr.
  destruct (ShutdownServer 2 1 cfg1) as [cfg2|] eqn:H2; [|discriminate Hr]. cbn [mbind option_bind] in Hr.
  destruct (StartServer _ _ _ _ _ cfg2) as [cfg3|] eqn:H3; [|discriminate Hr].
  assert (running cfg3 2 1 = Some 12%nat) as Hrun by by injection Hr.
  exists cfg, m, cfg1, cfg3. split_and!; [|done|exact Hj|done| |exact Hrun].
  - exists 3, false, (-1), draws, cfg. split; [exact Hs|done].
  - eapply rtc_l; [by eapply k_shutdown|]. apply rtc_once. by eapply k_start.
Qed.

Definition request (e : string) : Request (Name := IName) := MkRequest (MkReqMsg (NStr e) "ShardKV.Get" []) Reading HIdle 0.
End ShardDemo.
Import ShardDemo.

(** The end made before the restart leads to the new instance. *)
Lemma joined_group_reached_witness :
  ∃ cfg1 cfg2 : ShardHarness nat nat, rtc (sk_step services_of) cfg1 cfg2
    ∧ r_phase (process_read false (sk_net cfg2) (request "e")) = Waiting (NStr "server-102-1") 12 (reliable (sk_net cfg2)).
Proof.
  destruct rejoin_steps as (cfg & m & cfg1 & cfg2 & Hr & Hm & Hg & H1 & Hs & Hrun). exists cfg1, cfg2. split; [exact Hs|].
  destruct (joined_group_reached services_of cfg [0; 2] m 102 ["server-102-0"; "server-102-1"; "server-102-2"] 1 "server-102-1" "e" cfg1 cfg2
    Hr Hm Hg eq_refl H1 Hs) as (gi & _ & Hgi & Hreq).
  assert (gi = 2) as -> by lia. apply (Hreq (request "e") (NStr "server-102-1") 12%nat _ eq_refl eq_refl).
  split; [exact Hrun|]. split; reflexivity.
Defined.
